(* ===== verification/_CoqProject ===== *)
-Q . S2P
Prelude.v
GoHeap.v
Ids.v
WalRecord.v
Json.v
JsonValue.v
JsonLine.v
JsonStruct.v
JsonText.v
TimeFormat.v
WalJson.v
Os.v
OsFacts.v
Wal.v
WalFacts.v
WalCrash.v
WalCompact.v
WalOpen.v
Config.v
Float64.v
Duration.v
DurationFacts.v
ConfigWire.v
Message.v
Engine.v
Spec.v
Invariant.v
Refine.v
RefineTime.v
RefineOps.v
RefineRecv.v
RefineStats.v
Trace.v
Replay.v
RefineLoad.v
RefineSnap.v
LoadTotal.v
Runs.v
Instances.v
Demo.v
Recovery.v
Theorems.v
OpTheorems.v
Components.v
Loggable.v
FileLog.v
WalDemo.v
WalStale.v
Typing.v
WalTheorems.v
ConfigTheorems.v
Wakeup.v
LongPoll.v
Server.v
ServerTheorems.v
Cli.v
Respond.v
RespondTheorems.v
CliFacts.v
CliTheorems.v
Lockstep.v
Mortal.v
EndToEnd.v
Limits.v
