(* ===== verification/Prelude.v ===== *)
(** * duraq: a verification development

    duraq is a message queue served over HTTP.  A server process keeps its queues
    in memory, in one engine, and writes every change to an append-only log
    before it answers; a restart replays the log.  This development models the whole
    program, from the operating system calls of the log file up to the HTTP handlers
    and the commands, and proves that the engine implements an abstract queue machine,
    that its log determines its state, that the log survives crashes of the machine,
    and what the answers of the server promise.

    ** The program and where it is modelled

    - src/internal/queue/engine.go, the engine: file [Engine].  [core] is the
      mutable state of the struct Engine; a [world] adds the log, the clock and
      the orders in which Go visits maps.  Every method is a definition of the same
      name in the monad [GoM] of this file, a state-passing function whose [None]
      is a Go panic (nil dereference, index out of range, close of a closed
      channel).  Map iteration takes its order from the environment, so what is
      proved holds for every order.  The waiting of Receive is in [LongPoll]: a call
      is a thread that takes turns under the lock and sleeps in a select between two
      turns.  queue.Open is [Cli.queue_Open].
    - src/internal/queue/message.go, messages and queue state: file [Message],
      with container/heap of the Go library in [GoHeap].  Messages are shared by
      two maps and a heap through pointers; the model has a store of messages and
      keeps pointers in the maps and the heap.
    - src/internal/queue/config.go, queue names and configurations: file [Config],
      and the JSON text of a configuration in [ConfigWire].
    - src/internal/dur/dur.go, durations: file [Duration], over 64-bit floats and
      strconv.ParseFloat in [Float64].
    - src/internal/wal/record.go, the records of the log: file [WalRecord], with
      the parts of unicode/utf8 and encoding/base64 it uses; their JSON text in
      [WalJson], over encoding/json in [Json] and [JsonStruct].
    - src/internal/wal/wal.go, the log file: file [Wal], over the operating system and
      bufio.Writer in [Os].
    - message IDs and receipts (nextID, nextReceipt, bumpSeq, seqOf of engine.go):
      file [Ids], with the parts of fmt and strconv they use.
    - src/internal/server (server.go, handlers.go, respond.go): file [Server], where the
      body of a response is a value; the text that writeJSON makes of it is in [Respond],
      over the indented output of encoding/json in [JsonText] and time.Format in
      [TimeFormat].
    - src/internal/cli/cli.go and the constant of version.go: file [Cli].

    The engine calls the log through the interface Appender, here the class
    [Engine.Appender]; what it relies on is the class [Refine.LogLaws]: a
    successful append adds its record at the end, a failed one adds nothing.
    It is implemented four times: in [Instances] by a list with failures that are
    chosen in advance, in [FileLog] by the log file on a machine that does not stop,
    in [Mortal] by the log file on a machine that may stop in the middle of any append,
    and in [Limits] by the log file on a machine whose fsync may fail.  The JSON text of
    a configuration is the class [Config.ConfigJSON] with its contract
    [Config.ConfigJSONLaws], implemented by [ConfigWire].  Every exported operation
    except Load holds the engine's mutex from start to end, so a concurrent program is a
    sequence of atomic calls ([Runs.call], [Runs.runs]).  Load is for a fresh engine
    that nobody else has yet: it is the start of a run ([Recovery.life]).
    What Go does not define, the conversion of a float that does not fit an integer,
    is the parameter [Float64.Machine].

    ** How the proofs are organised

    - [Spec] is the abstract queue machine: queues map IDs to messages that are
      ready, delayed or leased; a step is labelled with what is logged for it.
    - [Invariant] has the abstraction [abs] of an engine state, the invariant [wf],
      and one lemma per kind of update of the core.
    - [Refine], [RefineTime], [RefineOps], [RefineRecv], [RefineStats] show, one
      group of methods per file, that from a state with the invariant every method
      returns and is a sequence of steps of the machine whose records are exactly
      what was appended ([Refine.evolves]).
      A record that could not be appended is named: [Refine.append_failed] says of a
      step that Append returned an error for its record during the call.
    - [Trace] is about histories of the machine; [Replay], [RefineLoad] and
      [RefineSnap] are about replaying the records of a history or of a snapshot, and
      [LoadTotal] about Load of records that no engine has written; [Runs] puts the
      methods together, and [Recovery.life] the engines that run one after the other on
      a log.  [Wakeup] is about the channels that waiting receivers sleep on.
    - [JsonValue], [JsonLine] and [DurationFacts] are about texts; [OsFacts] has one
      rule per system call for the triple [OsFacts.io], a postcondition for a program
      that returns and one for a machine that stops; [WalFacts], [WalCrash],
      [WalCompact] and [WalOpen] are the rules of the methods of the log.
    - [Loggable]: the records of an engine are read back from their text.
    - [Lockstep]: the engine and the server use the log through Append only, so that
      runs on two logs agree as long as the logs give the same answers.  [Mortal]: from
      the moment its machine stops a log is dead, it fails every append and keeps what is
      on the disk.  The record that was being written may be found whole later or not, and
      by [Lockstep] the engine before the stop is the same in both cases.
    - [CliFacts]: what the commands rely on.  [Demo] and [WalDemo] run the model.

    ** What the theorems show

    - [EndToEnd]: a message whose sending was answered with 201 stays through
      requests, polls, sweeps, crashes at any moment (in the middle of a request, or of
      a serve that reads and compacts the log), failed serves and restarts, until it is
      acknowledged, dropped or deleted; one whose acknowledgement was answered with 204
      stays away.
    - [Theorems], [Recovery], [Typing]: the engine refines the machine; a log that any
      number of engines wrote one after the other can be loaded, and rebuilds queues,
      messages, order and leases; no message is lost; an acknowledgement is final; a
      lease is exclusive, until its deadline; delivery is first in, first
      out; IDs and receipts are never used twice, across restarts too; a snapshot is
      loaded into the state it was made of; every state is well typed.
    - [OpTheorems]: the result and the effect of every operation on every branch,
      with the errors of the log.
    - [WalTheorems]: committed records survive a crash, compaction is atomic, reading
      the log agrees with a scan of its lines, a record is read back from its line.
    - [CliTheorems]: serve recovers the state of the old process, compact leaves a
      snapshot or the old log, the other commands change nothing, and the sweeper is
      in time.
    - [ServerTheorems]: every request is a sequence of calls, and what the statuses of
      the requests that settle and receive messages say.  [RespondTheorems]: clients can
      read every answer, errors have their envelope, and messages are read back from the
      text of an answer.
    - [LongPoll]: every call on an engine returns; nobody sleeps through a message,
      unless a Redrive has broken off in the middle of a batch; who is woken for a message
      returns.
    - [Components], [ConfigTheorems]: the heap sorts, encodings are undone by their
      parsers, configurations are in range, and the syntax of queue names.
    - [Limits], [WalStale], [ServerTheorems.failed_append_is_bad_request],
      [ConfigTheorems.bare_seconds_limits]: what the code does not do.  A compaction
      makes the engine give out names again; an acknowledgement whose fsync failed makes
      the log unreadable when it is tried again; a Redrive that breaks off announces
      nothing; and a compaction that cannot open the new file leaves a log that loses
      what is appended to it.

    ** The operating system

    Every system call of [Os] may succeed, fail, or be the last one before the machine
    stops; the environment chooses, and a write that fails or is cut short has written
    some prefix.  A crash keeps of each file a prefix that has at least what was there at
    its last fsync ([Os.crash]), and it keeps the names of files: the code does not call
    fsync on directories, and that a renamed or created file keeps its name over a crash
    is assumed, as the code assumes it.  Nobody else writes to the directory.

    The theorems about logs on disk ask that the times in the records are 64-bit numbers
    of milliseconds ([Loggable.times_fit], true for 292 million years), those about
    snapshots that deadlines are after 1970 ([CliFacts.dated]), and those that promise
    the last state that the log is synced at every append, as it is unless --no-fsync is
    given.  The logs of [FileLog] and [Mortal] have an fsync that does not fail
    ([OsFacts.flushes]): for one that fails, see [Limits.sync_failure_stops_replay].

    ** Bounds

    Counters are 64-bit with wrap-around ([u64], [i64]).  The theorems about runs
    ask that the ID counter is below 2^62 when a call is made, so that it does not
    wrap during the call: at a million calls a second that is 146000 years.  The
    loops of lease and Redrive have the number of ready messages plus one as fuel,
    which the theorems show to be enough: a loop that runs out of fuel would be a
    [None], and every call is shown not to be one.  The fuel of the JSON scanner is
    the length of the text.

    ** What is not modelled

    - net/http: a request comes with its path split and unescaped and its query
      decoded; the redirects of ServeMux to cleaned paths, connections and Shutdown are
      left out.  What happens to the threads of a server when it shuts down is not
      modelled either; a crash ends them.
    - The texts that the package flag and usage print, the line that serve prints when
      it is ready, and signals; the entry point main.go.
    - The texts of errors: an error is its format with its arguments, and its text in an
      answer is the parameter [Respond.Error].
    - Locks on the data directory: the program takes none, and two servers on one
      directory are outside of the model.

    ** This file

    The monad in which Go code is written, weakest preconditions for it, Go's
    fixed-width integers, and lemmas shared by the components. *)

From stdpp Require Export base tactics list gmap strings sorting.
From stdpp Require Import fin_maps.
From Stdlib Require Export ZArith Lia.
From Stdlib Require Export Ascii.

#[export] Set Default Goal Selector "!".
Local Open Scope Z_scope.

(** The hint database of the development: lemmas that close the routine side
    conditions of the components. *)
Create HintDb duraq.
Create Rewrite HintDb duraq.

(** Linear arithmetic with division and remainder by constants. *)
Ltac zdiv := intros; Z.to_euclidean_division_equations; lia.

(** ** Go's fixed-width integers *)

(** Wrap-around of [uint64] and of [int]/[int64] (two's complement). *)
Definition u64 (x : Z) : Z := x `mod` 2 ^ 64.
Definition i64 (x : Z) : Z := (x + 2 ^ 63) `mod` 2 ^ 64 - 2 ^ 63.

Lemma u64_id x : 0 ≤ x < 2 ^ 64 → u64 x = x.
Proof. apply Z.mod_small. Qed.

Lemma u64_range x : 0 ≤ u64 x < 2 ^ 64.
Proof. apply Z.mod_pos_bound. lia. Qed.

Lemma i64_id x : - 2 ^ 63 ≤ x < 2 ^ 63 → i64 x = x.
Proof. intros. unfold i64. rewrite Z.mod_small; lia. Qed.

Lemma i64_range x : - 2 ^ 63 ≤ i64 x < 2 ^ 63.
Proof. unfold i64. pose proof (Z.mod_pos_bound (x + 2 ^ 63) (2 ^ 64)). lia. Qed.

#[export] Hint Resolve u64_range i64_range : duraq.

(** ** Bytes, strings, instants and errors *)

(** A Go [[]byte]; a Go string is a [string], whose characters are bytes. *)
Abbreviation bytes := (list ascii).

Definition code (c : ascii) : Z := Z.of_N (N_of_ascii c).
Definition char (z : Z) : ascii := ascii_of_N (Z.to_N z).

Lemma code_range c : 0 ≤ code c < 256.
Proof. unfold code. pose proof (N_ascii_bounded c). lia. Qed.

Lemma code_char z : 0 ≤ z < 256 → code (char z) = z.
Proof. intros. unfold code, char. rewrite N_ascii_embedding by lia. lia. Qed.

Lemma char_code c : char (code c) = c.
Proof. unfold code, char. rewrite N2Z.id. apply ascii_N_embedding. Qed.

#[export] Hint Resolve code_range : duraq.
#[export] Hint Rewrite code_char using lia : duraq.
#[export] Hint Rewrite char_code : duraq.

(** [time.Time] as nanoseconds since the Unix epoch, [time.Duration] as
    nanoseconds; the zero [Time] is 1 January of year 1. *)
Definition time_ns := Z.
Definition zeroTime : Z := - 62135596800 * 10 ^ 9.
Definition IsZero (t : Z) : bool := t =? zeroTime.
Definition After (t u : Z) : bool := u <? t.
Definition Before (t u : Z) : bool := t <? u.
Definition UnixMilli (msec : Z) : Z := msec * 10 ^ 6.

(** An argument of [fmt.Errorf]. *)
Inductive arg := AStr (s : string) | AInt (z : Z) | ADur (d : Z).

(** Errors: the engine's sentinel values, an error wrapped with [%w], and any
    other error, by its format and arguments. *)
Inductive error :=
  | ErrQueueNotFound
  | ErrMessageNotFound
  | ErrNotLeased
  | ErrWrongReceipt
  | ErrBadName
  | Wrapf (format : string) (args : list arg) (inner : error)
  | Errorf (format : string) (args : list arg).

(** [errors.Is(err, target)] for a sentinel target. *)
Fixpoint Is (err target : error) : bool :=
  match err, target with
  | ErrQueueNotFound, ErrQueueNotFound => true
  | ErrMessageNotFound, ErrMessageNotFound => true
  | ErrNotLeased, ErrNotLeased => true
  | ErrWrongReceipt, ErrWrongReceipt => true
  | ErrBadName, ErrBadName => true
  | Wrapf _ _ inner, _ => Is inner target
  | _, _ => false
  end.

(** The result of a Go function that returns a value or an error. *)
Inductive result (A : Type) := Ok (a : A) | Err (e : error).
Arguments Ok {A} a.
Arguments Err {A} e.

(** ** The monad of Go code

    A computation takes the whole mutable state and returns a value with the
    new state; [None] is a run-time panic (a nil pointer, an index out of
    range, a closed channel closed again) or a loop that outlives its fuel. *)

Definition GoM (S A : Type) : Type := S → option (A * S).

#[export] Instance GoM_ret {S} : MRet (GoM S) := λ A a s, Some (a, s).
#[export] Instance GoM_bind {S} : MBind (GoM S) :=
  λ A B f c s, match c s with Some (a, s') => f a s' | None => None end.

Definition get_st {S} : GoM S S := λ s, Some (s, s).
Definition put_st {S} (s : S) : GoM S () := λ _, Some ((), s).
Definition go_panic {S A} : GoM S A := λ _, None.

(** A value that may be missing, used where Go would panic on it. *)
Definition go_opt {S A} (o : option A) : GoM S A :=
  λ s, match o with Some a => Some (a, s) | None => None end.

(** ** Weakest preconditions (total: a panic satisfies no postcondition) *)

Definition wp {S A} (c : GoM S A) (Q : A → S → Prop) (s : S) : Prop :=
  match c s with Some (a, s') => Q a s' | None => False end.

Section wp.
Context {S : Type}.

Lemma wp_intro {A} (c : GoM S A) Q s a s' :
  c s = Some (a, s') → Q a s' → wp c Q s.
Proof. unfold wp. by intros ->. Qed.

Lemma wp_elim {A} (c : GoM S A) Q s :
  wp c Q s → ∃ a s', c s = Some (a, s') ∧ Q a s'.
Proof. unfold wp. destruct (c s) as [[a s']|]; [eauto|done]. Qed.

Lemma wp_use {A} (c : GoM S A) Q s a s' :
  wp c Q s → c s = Some (a, s') → Q a s'.
Proof. unfold wp. intros H E. by rewrite E in H. Qed.

Lemma wp_of_eq {A} (c : GoM S A) (Q : A → S → Prop) s a s' :
  c s = Some (a, s') → Q a s' → wp c Q s.
Proof. unfold wp. by intros ->. Qed.

Lemma wp_mono {A} (c : GoM S A) (P Q : A → S → Prop) s :
  wp c P s → (∀ a s', P a s' → Q a s') → wp c Q s.
Proof. unfold wp. destruct (c s) as [[a s']|]; eauto. Qed.

Lemma wp_bind {A B} (c : GoM S A) (f : A → GoM S B) Q s :
  wp c (λ a s', wp (f a) Q s') s → wp (c ≫= f) Q s.
Proof. unfold wp, mbind, GoM_bind. by destruct (c s) as [[a s']|]. Qed.

Lemma wp_bind_inv {A B} (c : GoM S A) (f : A → GoM S B) Q s :
  wp (c ≫= f) Q s → wp c (λ a s', wp (f a) Q s') s.
Proof. unfold wp, mbind, GoM_bind. by destruct (c s) as [[a s']|]. Qed.

Lemma wp_ret {A} (a : A) (Q : A → S → Prop) s : Q a s → wp (mret a) Q s.
Proof. done. Qed.

Lemma wp_get (Q : S → S → Prop) s : Q s s → wp get_st Q s.
Proof. done. Qed.

Lemma wp_put s' (Q : () → S → Prop) s : Q () s' → wp (put_st s') Q s.
Proof. done. Qed.

Lemma wp_opt {A} (o : option A) a (Q : A → S → Prop) s :
  o = Some a → Q a s → wp (go_opt o) Q s.
Proof. by intros ->. Qed.
End wp.

(** One step of a monadic program whose state effect is known. *)
Ltac wp_step :=
  lazymatch goal with
  | |- wp (mbind _ _) _ _ => apply wp_bind
  | |- wp (mret _) _ _ => apply wp_ret
  | |- wp get_st _ _ => apply wp_get
  | |- wp (put_st _) _ _ => apply wp_put
  | |- wp (go_opt _) _ _ => eapply wp_opt; [eassumption|]
  end.
Ltac wp_steps := repeat (wp_step; simpl).

(** ** Generic lemmas on lists and integers *)

(** A list of distinct integers within [1..n] has at most [n] elements. *)
Lemma NoDup_Z_bound (l : list Z) (n : Z) :
  0 ≤ n → NoDup l → (∀ x, x ∈ l → 0 < x ≤ n) → Z.of_nat (length l) ≤ n.
Proof.
  intros Hn Hnd Hin.
  assert (length l ≤ length (seqZ 1 n))%nat as Hle.
  { apply submseteq_length, NoDup_submseteq; [done|].
    intros x Hx. apply elem_of_seqZ. specialize (Hin x Hx). lia. }
  rewrite length_seqZ in Hle. lia.
Qed.

(** Keys of a map, and the order in which a Go [range] visits them.  The
    environment proposes [ord]; a key of the map that [ord] forgets comes at
    the end, so every [ord] denotes a possible order and, as [range_keys_perm]
    shows, every possible order is denoted by some [ord].  A key in [ord] that
    is not in the map stands for an entry that may be added during the
    iteration. *)
Definition map_keys {A} (m : gmap string A) : list string := (map_to_list m).*1.

Definition range_keys {A} (ord : list string) (m : gmap string A) : list string :=
  remove_dups ord ++ filter (λ k, k ∉ ord) (map_keys m).

Lemma elem_of_map_keys {A} (m : gmap string A) k :
  k ∈ map_keys m ↔ is_Some (m !! k).
Proof.
  unfold map_keys. rewrite list_elem_of_fmap. split.
  - intros ([k' x] & -> & Hx%elem_of_map_to_list). eauto.
  - intros [x Hx]. exists (k, x). split; [done|]. by apply elem_of_map_to_list.
Qed.

Lemma NoDup_map_keys {A} (m : gmap string A) : NoDup (map_keys m).
Proof. apply NoDup_fst_map_to_list. Qed.

Lemma NoDup_range_keys {A} ord (m : gmap string A) : NoDup (range_keys ord m).
Proof.
  unfold range_keys. apply NoDup_app. split; [apply NoDup_remove_dups|]. split.
  - intros k Hk. rewrite elem_of_remove_dups in Hk.
    rewrite list_elem_of_filter. tauto.
  - apply NoDup_filter, NoDup_map_keys.
Qed.

Lemma elem_of_range_keys {A} ord (m : gmap string A) k :
  k ∈ range_keys ord m ↔ k ∈ ord ∨ is_Some (m !! k).
Proof.
  unfold range_keys.
  rewrite elem_of_app, elem_of_remove_dups, list_elem_of_filter, elem_of_map_keys.
  destruct (decide (k ∈ ord)); tauto.
Qed.

Lemma remove_dups_NoDup_id `{EqDecision A} (l : list A) :
  NoDup l → remove_dups l = l.
Proof.
  induction 1 as [|x l Hx Hl IH]; simpl; [done|].
  rewrite IH. by destruct (decide_rel elem_of x l).
Qed.

(** Every order of the keys is a possible [range] order. *)
Lemma range_keys_perm {A} ord (m : gmap string A) :
  ord ≡ₚ map_keys m → range_keys ord m = ord.
Proof.
  intros Hp. unfold range_keys.
  rewrite remove_dups_NoDup_id by (rewrite Hp; apply NoDup_map_keys).
  enough (filter (λ k, k ∉ ord) (map_keys m) = []) as -> by apply app_nil_r.
  apply elem_of_nil_inv. intros k [Hn Hk]%list_elem_of_filter.
  by rewrite <-Hp in Hk.
Qed.
