(* ===== verification/GoHeap.v ===== *)
(** Go's [container/heap], which the per-queue ready heap is built on: a binary
    heap in a slice.  The algorithms are those of the library ([up], [down],
    [Push], [Pop], [Remove]), over an abstract [Less] that may panic; an index
    out of range is [None].  The theorems: the heap order is established by
    every operation, the elements are kept, no index is ever out of range and
    the loops end within the fuel given. *)

From S2P Require Import Prelude.
From stdpp Require Import list.

Local Open Scope Z_scope.

Section ops.
Context {A : Type} (lt : A → A → option bool).

(** [h.Less(i, j)] and [h.Swap(i, j)] on the slice. *)
Definition Less (h : list A) (i j : nat) : option bool :=
  a ← h !! i; b ← h !! j; lt a b.

Definition Swap (h : list A) (i j : nat) : option (list A) :=
  a ← h !! i; b ← h !! j; Some (<[j := a]> (<[i := b]> h)).

(** [Push] of the interface appends; [Pop] takes the last element away. *)
Definition push_last (h : list A) (x : A) : list A := h ++ [x].

Definition pop_last (h : list A) : option (A * list A) :=
  let n := length h in
  m ← h !! (n - 1)%nat; Some (m, take (n - 1) h).

Definition parent (j : nat) : nat := ((j - 1) / 2)%nat.

(** [up(h, j)]; the index decreases at every turn. *)
Fixpoint up (fuel : nat) (h : list A) (j : nat) : option (list A) :=
  match fuel with
  | O => None
  | S fuel =>
    let i := parent j in
    if decide (i = j) then Some h else
    b ← Less h j i;
    if negb b then Some h else
    h' ← Swap h i j; up fuel h' i
  end.

(** [down(h, i, n)]; returns the final index too, which the library compares
    with the first. *)
Fixpoint down (fuel : nat) (h : list A) (i n : nat) : option (list A * nat) :=
  match fuel with
  | O => None
  | S fuel =>
    let j1 := (2 * i + 1)%nat in
    if decide (n ≤ j1)%nat then Some (h, i) else
    j ← (if decide (j1 + 1 < n)%nat
         then b ← Less h (j1 + 1) j1; Some (if b : bool then (j1 + 1)%nat else j1)
         else Some j1);
    b ← Less h j i;
    if negb b then Some (h, i) else
    h' ← Swap h i j; down fuel h' j n
  end.

Definition heap_Push (h : list A) (x : A) : option (list A) :=
  let h' := push_last h x in
  up (length h') h' (length h' - 1).

Definition heap_Pop (h : list A) : option (A * list A) :=
  match length h with
  | O => None
  | S n =>
    h1 ← Swap h 0 n;
    '(h2, _) ← down (S n) h1 0 n;
    pop_last h2
  end.

Definition heap_Remove (h : list A) (i : nat) : option (A * list A) :=
  match length h with
  | O => None
  | S n =>
    h' ← (if decide (n = i) then Some h else
          h1 ← Swap h i n;
          '(h2, i') ← down (S n) h1 i n;
          if decide (i < i')%nat then Some h2 else up (S n) h2 i);
    pop_last h'
  end.
End ops.

(** ** Heap order *)

Section order.
Context {A : Type} (key : A → Z).

(** The key at an index (0 outside the slice, where it is never used). *)
Definition kat (h : list A) (i : nat) : Z := from_option key 0 (h !! i).

(** No element of the first [n] is smaller than its parent. *)
Definition hord (n : nat) (h : list A) : Prop :=
  ∀ i, (0 < i < n)%nat → kat h (parent i) ≤ kat h i.

Definition heap_ordered (h : list A) : Prop := hord (length h) h.

(** Order except above [j]: what holds while [up] carries an element. *)
Definition hord_up (n : nat) (h : list A) (j : nat) : Prop :=
  (∀ i, (0 < i < n)%nat → i ≠ j → kat h (parent i) ≤ kat h i) ∧
  (∀ c, (0 < c < n)%nat → parent c = j → (0 < j)%nat →
        kat h (parent j) ≤ kat h c).

(** Order except below [i]: what holds while [down] carries an element. *)
Definition hord_down (n : nat) (h : list A) (i : nat) : Prop :=
  (∀ c, (0 < c < n)%nat → parent c ≠ i → kat h (parent c) ≤ kat h c) ∧
  (∀ c, (0 < c < n)%nat → parent c = i → (0 < i)%nat →
        kat h (parent i) ≤ kat h c).

(** Order except at [i], on both sides: a hole filled with any element. *)
Definition hord_hole (n : nat) (h : list A) (i : nat) : Prop :=
  (∀ c, (0 < c < n)%nat → parent c ≠ i → c ≠ i → kat h (parent c) ≤ kat h c) ∧
  (∀ c, (0 < c < n)%nat → parent c = i → (0 < i)%nat →
        kat h (parent i) ≤ kat h c).

Lemma parent_lt j : (0 < j)%nat → (parent j < j)%nat.
Proof. unfold parent. intros. apply Nat.Div0.div_lt_upper_bound; lia. Qed.

Lemma parent_child c i :
  (0 < c)%nat → parent c = i ↔ (c = 2 * i + 1 ∨ c = 2 * i + 2)%nat.
Proof.
  intros Hc. unfold parent.
  pose proof (Nat.div_mod_eq (c - 1) 2). pose proof (Nat.mod_upper_bound (c - 1) 2).
  lia.
Qed.

Lemma kat_ext h h' i : h !! i = h' !! i → kat h i = kat h' i.
Proof. unfold kat. by intros ->. Qed.
End order.

(** ** What one exchange does *)

Section swap.
Context {A : Type}.
Implicit Types h : list A.

Lemma Swap_ok h i j :
  (i < length h)%nat → (j < length h)%nat →
  ∃ h', Swap h i j = Some h' ∧ h' ≡ₚ h ∧ length h' = length h ∧
    ∀ k, h' !! k = if decide (k = j) then h !! i
                   else if decide (k = i) then h !! j else h !! k.
Proof.
  intros Hi Hj. unfold Swap.
  destruct (lookup_lt_is_Some_2 h i Hi) as [a Ha].
  destruct (lookup_lt_is_Some_2 h j Hj) as [b Hb].
  rewrite Ha, Hb. simpl. eexists. split; [done|].
  split; [by apply Permutation_insert_swap|].
  split; [by rewrite !length_insert|]. intros k.
  rewrite !list_lookup_insert, length_insert.
  repeat case_decide; destruct_and?; simplify_eq; try done; exfalso; tauto.
Qed.
End swap.

(** ** Correctness *)

(** Settles an inequality between the keys at two exchanged positions. *)
Ltac solve_edges := repeat case_decide; subst; try congruence; lia.

Section correct.
Context {A : Type} (lt : A → A → option bool) (key : A → Z).
Implicit Types h : list A.

(** [Less] compares keys, without panicking, on the elements of the slice. *)
Definition less_on (h : list A) : Prop :=
  ∀ a b, a ∈ h → b ∈ h → lt a b = Some (key a <? key b).

Lemma less_on_perm h h' : h' ≡ₚ h → less_on h → less_on h'.
Proof. intros Hp Hl a b Ha Hb. apply Hl; by rewrite <-Hp. Qed.

Lemma Less_ok h i j :
  less_on h → (i < length h)%nat → (j < length h)%nat →
  Less lt h i j = Some (kat key h i <? kat key h j).
Proof.
  intros Hl Hi Hj. unfold Less, kat.
  destruct (lookup_lt_is_Some_2 h i Hi) as [a Ha].
  destruct (lookup_lt_is_Some_2 h j Hj) as [b Hb].
  rewrite Ha, Hb. simpl. apply Hl; eauto using list_elem_of_lookup_2.
Qed.

Lemma kat_swap h h' i j k :
  (∀ k, h' !! k = if decide (k = j) then h !! i
                  else if decide (k = i) then h !! j else h !! k) →
  kat key h' k = if decide (k = j) then kat key h i
                 else if decide (k = i) then kat key h j else kat key h k.
Proof. intros H. unfold kat. rewrite H. by repeat case_decide. Qed.

(** [up] mends an order that fails only above [j], within [j + 1] turns. *)
Lemma up_ok fuel n h j :
  less_on h → (j < fuel)%nat → (j < n ≤ length h)%nat → hord_up key n h j →
  ∃ h', up lt fuel h j = Some h' ∧ h' ≡ₚ h ∧ hord key n h' ∧
        (∀ k, (n ≤ k)%nat → h' !! k = h !! k).
Proof.
  revert h j. induction fuel as [|fuel IH]; intros h j Hl Hf Hj [Ho Hc]; [lia|].
  simpl. case_decide as Hp.
  { exists h. split; [done|]. split; [done|]. split; [|done].
    intros i Hi. apply Ho; [done|]. intros ->.
    pose proof (parent_lt j). lia. }
  assert (0 < j)%nat as Hj0. { destruct j; [done|lia]. }
  pose proof (parent_lt j Hj0).
  rewrite Less_ok by (done || lia). simpl.
  destruct (Z.ltb_spec (kat key h j) (kat key h (parent j))) as [Hlt|Hge]; simpl.
  2: { exists h. split; [done|]. split; [done|]. split; [|done].
       intros i Hi. destruct (decide (i = j)) as [->|]; [done|]. by apply Ho. }
  destruct (Swap_ok h (parent j) j) as (h1 & -> & Hp1 & Hlen & Hk); [lia..|]. simpl.
  pose proof (λ k, kat_swap h h1 (parent j) j k Hk) as Hkat.
  destruct (IH h1 (parent j)) as (h' & -> & Hp' & Ho' & Htl).
  - by eapply less_on_perm.
  - lia.
  - lia.
  - split.
    + intros i Hi Hne. rewrite !Hkat.
      assert (parent i = j → kat key h (parent j) ≤ kat key h i) by auto.
      assert (parent i = parent j → i ≠ j → kat key h (parent j) ≤ kat key h i).
      { intros <-. auto. }
      assert (i ≠ j → kat key h (parent i) ≤ kat key h i) by auto.
      solve_edges.
    + intros c Hci Hcp Hpos. rewrite !Hkat.
      pose proof (parent_lt (parent j) Hpos).
      assert (kat key h (parent (parent j)) ≤ kat key h (parent j)) by (apply Ho; lia).
      assert (c ≠ j → kat key h (parent j) ≤ kat key h c).
      { intros. rewrite <-Hcp. apply Ho; lia. }
      solve_edges.
  - exists h'. split; [done|]. split; [by rewrite Hp'|]. split; [done|].
    intros k Hk'. rewrite Htl, Hk by done. repeat case_decide; subst; [lia..|done].
Qed.

(** [down] from a hole whose upper edge holds mends the order. *)
Lemma down_child h n i (j1 := (2 * i + 1)%nat) :
  less_on h → (n ≤ length h)%nat → (j1 < n)%nat →
  ∃ j, (if decide (j1 + 1 < n)%nat
        then b ← Less lt h (j1 + 1) j1; Some (if b : bool then (j1 + 1)%nat else j1)
        else Some j1) = Some j ∧
    (i < j < n)%nat ∧ parent j = i ∧
    ∀ c, (0 < c < n)%nat → parent c = i → kat key h j ≤ kat key h c.
Proof.
  intros Hl Hn Hj1. assert (j1 = 2 * i + 1)%nat as Hdef by done. clearbody j1.
  assert (∀ c, (0 < c < n)%nat → parent c = i → c = j1 ∨ c = j1 + 1)%nat as Hch.
  { intros c Hc Hp. apply parent_child in Hp; lia. }
  assert (parent j1 = i ∧ parent (j1 + 1) = i) as [Hp1 Hp2].
  { split; apply parent_child; lia. }
  case_decide.
  - rewrite Less_ok by (done || lia). simpl.
    destruct (Z.ltb_spec (kat key h (j1 + 1)) (kat key h j1));
      eexists; (split; [done|]); (split; [lia|]); (split; [done|]);
      intros c Hc Hp; destruct (Hch c Hc Hp) as [->| ->]; lia.
  - eexists; (split; [done|]); (split; [lia|]); (split; [done|]).
    intros c Hc Hp; destruct (Hch c Hc Hp) as [->| ->]; lia.
Qed.

(** One exchange with the smallest child moves the hole down. *)
Lemma down_swap h h1 n i j :
  hord_hole key n h i → (i < j < n)%nat → parent j = i →
  (∀ c, (0 < c < n)%nat → parent c = i → kat key h j ≤ kat key h c) →
  kat key h j < kat key h i →
  (∀ k, kat key h1 k = if decide (k = j) then kat key h i
                       else if decide (k = i) then kat key h j else kat key h k) →
  hord_down key n h1 j.
Proof.
  intros [Ho Hc] Hj Hp Hmin Hlt Hkat. split.
  - intros c Hcn Hne. rewrite !Hkat.
    assert (parent c = i → kat key h j ≤ kat key h c) by auto.
    assert (c = i → kat key h (parent c) ≤ kat key h j).
    { intros ->. apply Hc; [lia|done|lia]. }
    assert (parent c ≠ i → c ≠ i → kat key h (parent c) ≤ kat key h c) by auto.
    solve_edges.
  - intros c Hcn Hcj _. rewrite Hp, !Hkat.
    assert (j < c)%nat by (rewrite <-Hcj; apply parent_lt; lia).
    assert (kat key h j ≤ kat key h c) by (rewrite <-Hcj at 1; apply Ho; lia).
    solve_edges.
Qed.

Lemma hord_down_hole n h i : hord_down key n h i → hord_hole key n h i.
Proof. intros [Ho Hc]. split; auto. Qed.

Lemma down_ok fuel n h i :
  less_on h → (n - i < fuel)%nat → (n ≤ length h)%nat → hord_hole key n h i →
  ∃ h' i', down lt fuel h i n = Some (h', i') ∧ h' ≡ₚ h ∧ (i ≤ i')%nat ∧
    (∀ k, (n ≤ k)%nat → h' !! k = h !! k) ∧
    (i' = i → h' = h ∧
       ∀ c, (0 < c < n)%nat → parent c = i → kat key h i ≤ kat key h c) ∧
    ((i < i')%nat ∨ hord_down key n h i → hord key n h').
Proof.
  revert h i. induction fuel as [|fuel IH]; intros h i Hl Hf Hn Hh; [lia|].
  cbn [down]. case_decide as Hj1.
  { assert (∀ c, (0 < c < n)%nat → parent c ≠ i) as Hno.
    { intros c Hc Hp. apply parent_child in Hp; lia. }
    exists h, i. do 4 (split; [done|]). split; [by intros _; split; [|intros c Hc Hp; destruct (Hno c Hc)]|].
    intros [?|[Ho _]]; [lia|]. intros c Hc. by apply Ho; [|apply Hno]. }
  destruct (down_child h n i) as (j & -> & Hj & Hp & Hmin); [done..|lia|].
  cbn [mbind option_bind]. rewrite Less_ok by (done || lia). cbn [mbind option_bind].
  destruct (Z.ltb_spec (kat key h j) (kat key h i)) as [Hlt|Hge]; simpl.
  2: { exists h, i. do 4 (split; [done|]). split.
       - intros _. split; [done|]. intros c Hc Hpc. specialize (Hmin c Hc Hpc). lia.
       - intros [?|[Ho _]]; [lia|]. intros c Hc.
         destruct (decide (parent c = i)) as [Hpc|Hpc]; [|by apply Ho].
         specialize (Hmin c Hc Hpc). rewrite Hpc. lia. }
  destruct (Swap_ok h i j) as (h1 & -> & Hp1 & Hlen & Hk); [lia..|]. simpl.
  pose proof (λ k, kat_swap h h1 i j k Hk) as Hkat.
  pose proof (down_swap h h1 n i j Hh Hj Hp Hmin Hlt Hkat) as Hd.
  destruct (IH h1 j) as (h' & i' & -> & Hp' & Hi' & Htl & _ & Hord);
    [by eapply less_on_perm|lia|lia|by apply hord_down_hole|].
  exists h', i'. split; [done|]. split; [by rewrite Hp'|]. split; [lia|].
  split; [|split; [lia|auto]].
  intros k Hk'. rewrite Htl, Hk by done. repeat case_decide; subst; [lia..|done].
Qed.
End correct.

(** ** The operations *)

Section operations.
Context {A : Type} (lt : A → A → option bool) (key : A → Z).
Implicit Types h : list A.

Lemma kat_app_l h l i : (i < length h)%nat → kat key (h ++ l) i = kat key h i.
Proof. intros. apply kat_ext. by apply lookup_app_l. Qed.

Lemma kat_take h n i : (i < n)%nat → kat key (take n h) i = kat key h i.
Proof. intros. apply kat_ext. by apply lookup_take_lt. Qed.

Lemma hord_take h n : (n ≤ length h)%nat → hord key n h → heap_ordered key (take n h).
Proof.
  intros Hn Ho i. rewrite length_take. intros Hi.
  pose proof (parent_lt i). rewrite !kat_take by lia. apply Ho. lia.
Qed.

(** The root of a heap is a minimum. *)
Lemma heap_root_min h i :
  heap_ordered key h → (i < length h)%nat → kat key h 0 ≤ kat key h i.
Proof.
  intros Ho. induction (lt_wf i) as [i _ IH]. intros Hi.
  destruct i as [|i]; [done|]. pose proof (parent_lt (S i)).
  etrans; [apply (IH (parent (S i))); lia|]. apply Ho. lia.
Qed.

Lemma heap_ordered_ext (key' : A → Z) h :
  (∀ a, a ∈ h → key a = key' a) → heap_ordered key h → heap_ordered key' h.
Proof.
  assert (∀ i, (∀ a, a ∈ h → key a = key' a) → kat key h i = kat key' h i) as Hk.
  { intros i He. unfold kat. destruct (h !! i) as [a|] eqn:Ha; [|done].
    simpl. apply He. by eapply list_elem_of_lookup_2. }
  intros He Ho i Hi. rewrite <-!Hk by done. by apply Ho.
Qed.

(** Pushing keeps the order, adds exactly the new element and does not panic. *)
Lemma heap_Push_ok h x :
  less_on lt key (x :: h) → heap_ordered key h →
  ∃ h', heap_Push lt h x = Some h' ∧ h' ≡ₚ x :: h ∧ heap_ordered key h'.
Proof.
  intros Hl Ho. unfold heap_Push, push_last.
  assert (h ++ [x] ≡ₚ x :: h) as Hp by (by rewrite Permutation_app_comm).
  assert (length (h ++ [x]) = S (length h)) as Hlen by (rewrite Hp; done).
  rewrite Hlen. replace (S (length h) - 1)%nat with (length h) by lia.
  destruct (up_ok lt key (S (length h)) (S (length h)) (h ++ [x]) (length h))
    as (h' & -> & Hp' & Ho' & _); [by eapply less_on_perm|lia|lia| |].
  - split.
    + intros i Hi Hne. pose proof (parent_lt i).
      rewrite !kat_app_l by lia. apply Ho. lia.
    + intros c Hc Hpc. pose proof (parent_lt c). lia.
  - exists h'. split; [done|]. split; [by rewrite Hp'|].
    unfold heap_ordered. by rewrite (Permutation_length Hp'), Hlen.
Qed.

(** What remains after the last element is taken away. *)
Lemma pop_last_ok h n :
  length h = S n → hord key n h →
  ∃ a h', pop_last h = Some (a, h') ∧ h !! n = Some a ∧ h ≡ₚ a :: h' ∧
          heap_ordered key h'.
Proof.
  intros Hlen Ho. unfold pop_last. rewrite Hlen. replace (S n - 1)%nat with n by lia.
  destruct (lookup_lt_is_Some_2 h n) as [a Ha]; [lia|]. rewrite Ha. simpl.
  exists a, (take n h). split; [done|]. split; [done|].
  split; [|apply hord_take; [lia|done]].
  rewrite <-(take_drop n h) at 1. rewrite (drop_S _ _ _ Ha), drop_ge by lia.
  by rewrite Permutation_app_comm.
Qed.

(** Popping a non-empty heap yields a minimal element and keeps the rest. *)
Lemma heap_Pop_ok h :
  less_on lt key h → heap_ordered key h → h ≠ [] →
  ∃ a h', heap_Pop lt h = Some (a, h') ∧ h ≡ₚ a :: h' ∧ heap_ordered key h' ∧
          ∀ b, b ∈ h → key a ≤ key b.
Proof.
  intros Hl Ho Hne. unfold heap_Pop. destruct (length h) as [|n] eqn:Hlen.
  { by apply nil_length_inv in Hlen. }
  destruct (Swap_ok h 0 n) as (h1 & Hs & Hp1 & Hl1 & Hk); [lia..|].
  rewrite Hs. cbn [mbind option_bind].
  pose proof (λ k, kat_swap key h h1 0 n k Hk) as Hkat.
  assert (hord_down key n h1 0) as Hd.
  { split; [|lia]. intros c Hc Hpc. pose proof (parent_lt c).
    rewrite !Hkat. repeat case_decide; try lia. apply Ho. lia. }
  destruct (down_ok lt key (S n) n h1 0) as (h2 & i' & -> & Hp2 & _ & Htl & _ & Ho2);
    [by eapply less_on_perm|lia|lia|by apply hord_down_hole|].
  cbn [mbind option_bind].
  destruct (pop_last_ok h2 n) as (a & h' & -> & Ha & Hp3 & Ho3);
    [by rewrite Hp2, Hl1|auto|].
  exists a, h'. split; [done|]. split; [by rewrite <-Hp1, <-Hp2|]. split; [done|].
  rewrite Htl, Hk, decide_True in Ha by lia.
  intros b [i Hb]%list_elem_of_lookup.
  pose proof (heap_root_min h i Ho) as Hmin. unfold kat in Hmin.
  rewrite Ha, Hb in Hmin. apply Hmin. by eapply lookup_lt_Some.
Qed.

(** Removing index [i] takes exactly that element away and keeps the order. *)
Lemma heap_Remove_ok h i x :
  less_on lt key h → heap_ordered key h → h !! i = Some x →
  ∃ h', heap_Remove lt h i = Some (x, h') ∧ h ≡ₚ x :: h' ∧ heap_ordered key h'.
Proof.
  intros Hl Ho Hx. pose proof (lookup_lt_Some _ _ _ Hx) as Hi. unfold heap_Remove.
  destruct (length h) as [|n] eqn:Hlen; [lia|]. case_decide as Hni.
  { subst i. cbn [mbind option_bind].
    destruct (pop_last_ok h n) as (a & h' & -> & Ha & Hp & Ho'); [done| |].
    - intros k Hk. apply Ho. lia.
    - exists h'. assert (a = x) as -> by congruence. done. }
  destruct (Swap_ok h i n) as (h1 & Hs & Hp1 & Hl1 & Hk); [lia..|].
  rewrite Hs. cbn [mbind option_bind].
  pose proof (λ k, kat_swap key h h1 i n k Hk) as Hkat.
  assert (hord_hole key n h1 i) as Hh.
  { split.
    - intros c Hc Hpc Hci. pose proof (parent_lt c).
      rewrite !Hkat. repeat case_decide; try lia. apply Ho. lia.
    - intros c Hc Hpc Hpos. pose proof (parent_lt c). pose proof (parent_lt i).
      rewrite !Hkat. repeat case_decide; try lia.
      etrans; [apply (Ho i); lia|]. rewrite <-Hpc. apply Ho. lia. }
  assert (less_on lt key h1) as Hl1' by (by eapply less_on_perm).
  destruct (down_ok lt key (S n) n h1 i)
    as (h2 & i' & -> & Hp2 & Hi' & Htl & Hstay & Ho2); [done|lia|lia|done|].
  cbn [mbind option_bind].
  assert (∃ h3, (if decide (i < i')%nat then Some h2 else up lt (S n) h2 i) = Some h3 ∧
            h3 ≡ₚ h1 ∧ hord key n h3 ∧ h3 !! n = h1 !! n) as (h3 & -> & Hp3 & Ho3 & Hn).
  { case_decide as Hlt; [exists h2; split_and!; auto|].
    destruct Hstay as [-> Hc]; [lia|].
    destruct (up_ok lt key (S n) n h1 i) as (h3 & ? & ? & ? & Htl3);
      [done|lia|lia| |exists h3; auto].
    destruct Hh as [Hh1 Hh2]. split; [|done].
    intros c Hcn Hci. destruct (decide (parent c = i)) as [He|]; [|by apply Hh1].
    rewrite He. by apply Hc. }
  cbn [mbind option_bind].
  destruct (pop_last_ok h3 n) as (a & h' & -> & Ha & Hp4 & Ho4);
    [by rewrite Hp3, Hl1|done|].
  rewrite Hn, Hk, decide_True in Ha by done. assert (a = x) as -> by congruence.
  exists h'. split; [done|]. split; [by rewrite <-Hp1, <-Hp3|done].
Qed.
End operations.
