(* ===== verification/Ids.v ===== *)
(** Message identifiers and receipts: the hexadecimal spelling of the engine's
    counter ([fmt.Sprintf "%016x"] in nextID, nextReceipt of
    internal/queue/engine.go) and its way back during replay
    ([strconv.ParseUint] in bumpSeq and seqOf).  The theorems: the spelling has
    16 digits, is injective below 2^64, and is undone by the parser. *)

From S2P Require Import Prelude.
From Stdlib Require String.

Local Open Scope Z_scope.

(** ** Spelling: [%016x] of a uint64 *)

Definition hexdigit (d : Z) : ascii :=
  char (if d <? 10 then 48 + d else 87 + d).

(** The [k] low hexadecimal digits of [n], most significant first. *)
Fixpoint hex_digits (k : nat) (n : Z) : string :=
  match k with
  | O => EmptyString
  | S k => String (hexdigit ((n / 16 ^ Z.of_nat k) `mod` 16)) (hex_digits k n)
  end.

Definition fmt_hex16 (n : Z) : string := hex_digits 16 n.

Definition receipt_of (n : Z) : string := String "r" (fmt_hex16 n).

(** ** Parsing: [strconv.ParseUint(s, 16, 64)] *)

Inductive num_error := ErrSyntax | ErrRange.

(** [lower(c)] of strconv: [c | ('x' - 'X')]. *)
Definition lower (c : Z) : Z := Z.lor c 32.

Definition digit_of (c : Z) : option Z :=
  if (48 <=? c) && (c <=? 57) then Some (c - 48)
  else if (97 <=? lower c) && (lower c <=? 122) then Some (lower c - 97 + 10)
  else None.

Definition max_uint64 : Z := 2 ^ 64 - 1.

Fixpoint parse_uint_loop (s : string) (n : Z) : Z * option num_error :=
  match s with
  | EmptyString => (n, None)
  | String c s =>
    match digit_of (code c) with
    | None => (0, Some ErrSyntax)
    | Some d =>
      if 16 <=? d then (0, Some ErrSyntax)
      else if max_uint64 / 16 + 1 <=? n then (max_uint64, Some ErrRange)
      else
        let n := u64 (n * 16) in
        let n1 := u64 (n + d) in
        if (n1 <? n) || (max_uint64 <? n1) then (max_uint64, Some ErrRange)
        else parse_uint_loop s n1
    end
  end.

Definition ParseUint16 (s : string) : Z * option num_error :=
  match s with
  | EmptyString => (0, Some ErrSyntax)
  | _ => parse_uint_loop s 0
  end.

(** [strings.TrimPrefix(id, "r")]. *)
Definition trim_r (s : string) : string :=
  match s with
  | String c s' => if Ascii.eqb c "r" then s' else s
  | EmptyString => s
  end.

(** seqOf (engine.go): the error is ignored, so a malformed id counts as 0 and
    an overlong one as the largest uint64. *)
Definition seqOf (id : string) : Z := fst (ParseUint16 id).

(** The new value of the counter in bumpSeq (engine.go). *)
Definition bumped (seq : Z) (id : string) : Z :=
  let '(n, err) := ParseUint16 (trim_r id) in
  match err with
  | None => if seq <? n then n else seq
  | Some _ => seq
  end.

(** ** Facts *)

Lemma code_hexdigit d :
  0 ≤ d < 16 → code (hexdigit d) = if d <? 10 then 48 + d else 87 + d.
Proof.
  intros Hd. unfold hexdigit. apply code_char. destruct (d <? 10); lia.
Qed.

Lemma digit_of_hexdigit d : 0 ≤ d < 16 → digit_of (code (hexdigit d)) = Some d.
Proof.
  intros Hd. rewrite code_hexdigit by done.
  assert (d = 0 ∨ d = 1 ∨ d = 2 ∨ d = 3 ∨ d = 4 ∨ d = 5 ∨ d = 6 ∨ d = 7 ∨ d = 8 ∨
          d = 9 ∨ d = 10 ∨ d = 11 ∨ d = 12 ∨ d = 13 ∨ d = 14 ∨ d = 15) as H by lia.
  by repeat destruct H as [->|H]; [..|rewrite H].
Qed.

Lemma hexdigit_ne_r d : 0 ≤ d < 16 → hexdigit d ≠ "r"%char.
Proof.
  intros Hd He. pose proof (digit_of_hexdigit d Hd) as H. rewrite He in H.
  change (Some 27 = Some d) in H. simplify_eq. lia.
Qed.

Lemma length_hex_digits k n : String.length (hex_digits k n) = k.
Proof. induction k as [|k IH]; simpl; [done|]. by rewrite IH. Qed.

Lemma pow16_S k : 16 ^ Z.of_nat (S k) = 16 * 16 ^ Z.of_nat k.
Proof. rewrite Nat2Z.inj_succ, Z.pow_succ_r by lia. done. Qed.

(** The parser reads [k] digits on top of an accumulator that leaves room. *)
Lemma parse_hex_digits k n acc s :
  0 ≤ n → 0 ≤ acc → (acc + 1) * 16 ^ Z.of_nat k ≤ 2 ^ 64 →
  parse_uint_loop (hex_digits k n +:+ s) acc =
  parse_uint_loop s (acc * 16 ^ Z.of_nat k + n `mod` 16 ^ Z.of_nat k).
Proof.
  intros Hn. revert acc. induction k as [|k IH]; intros acc Hacc Hroom; simpl.
  { change (16 ^ Z.of_nat 0) with 1. rewrite Z.mod_1_r. f_equal. lia. }
  set (d := (n / 16 ^ Z.of_nat k) `mod` 16).
  assert (0 ≤ d < 16) by (apply Z.mod_pos_bound; lia).
  assert (0 < 16 ^ Z.of_nat k) by (apply Z.pow_pos_nonneg; lia).
  rewrite digit_of_hexdigit by done. rewrite pow16_S in *.
  destruct (Z.leb_spec 16 d); [lia|].
  assert (acc < 2 ^ 60) by nia.
  destruct (Z.leb_spec (max_uint64 / 16 + 1) acc) as [Hc|_].
  { change (max_uint64 / 16 + 1) with (2 ^ 60) in Hc. lia. }
  rewrite (u64_id (acc * 16)), (u64_id (acc * 16 + d)) by lia.
  destruct (Z.ltb_spec (acc * 16 + d) (acc * 16)); [lia|].
  destruct (Z.ltb_spec max_uint64 (acc * 16 + d)) as [Hm|_]; simpl.
  { unfold max_uint64 in Hm. lia. }
  rewrite IH by nia. f_equal. subst d.
  rewrite (Z.mul_comm 16 (16 ^ Z.of_nat k)), Z.rem_mul_r by lia. nia.
Qed.

Lemma ParseUint16_fmt n : 0 ≤ n < 2 ^ 64 → ParseUint16 (fmt_hex16 n) = (n, None).
Proof.
  intros Hn. pose proof (parse_hex_digits 16 n 0 "" ltac:(lia) ltac:(lia)) as H.
  change (16 ^ Z.of_nat 16) with (2 ^ 64) in H.
  rewrite Z.mod_small in H by lia. unfold fmt_hex16.
  assert (hex_digits 16 n +:+ "" = hex_digits 16 n) as He.
  { generalize (hex_digits 16 n) as s. induction s as [|c s IH]; [done|].
    change (String c (s +:+ "") = String c s). by f_equal. }
  rewrite He in H. rewrite <-(H ltac:(lia)) at 1. done.
Qed.

Lemma trim_r_fmt n : 0 ≤ n → trim_r (fmt_hex16 n) = fmt_hex16 n.
Proof.
  intros Hn. unfold fmt_hex16. cbn [hex_digits trim_r].
  destruct (Ascii.eqb_spec (hexdigit ((n / 16 ^ Z.of_nat 15) `mod` 16)) "r") as [He|]; [|done].
  apply hexdigit_ne_r in He; [done|]. apply Z.mod_pos_bound. lia.
Qed.

Lemma seqOf_fmt n : 0 ≤ n < 2 ^ 64 → seqOf (fmt_hex16 n) = n.
Proof. intros Hn. unfold seqOf. by rewrite ParseUint16_fmt. Qed.

Lemma fmt_hex16_inj n m :
  0 ≤ n < 2 ^ 64 → 0 ≤ m < 2 ^ 64 → fmt_hex16 n = fmt_hex16 m → n = m.
Proof. intros Hn Hm He. by rewrite <-(seqOf_fmt n), <-(seqOf_fmt m), He. Qed.

Lemma receipt_of_inj n m :
  0 ≤ n < 2 ^ 64 → 0 ≤ m < 2 ^ 64 → receipt_of n = receipt_of m → n = m.
Proof.
  intros Hn Hm He. apply (f_equal trim_r) in He.
  change (fmt_hex16 n = fmt_hex16 m) in He. by apply fmt_hex16_inj.
Qed.

Lemma fmt_ne_receipt n m : fmt_hex16 n ≠ receipt_of m.
Proof.
  intros He. apply (f_equal String.length) in He.
  unfold receipt_of, fmt_hex16 in He. cbn [String.length] in He.
  rewrite !length_hex_digits in He. lia.
Qed.

Lemma bumped_fmt seq n : 0 ≤ n < 2 ^ 64 → bumped seq (fmt_hex16 n) = Z.max seq n.
Proof.
  intros Hn. unfold bumped. rewrite trim_r_fmt, ParseUint16_fmt by lia.
  destruct (Z.ltb_spec seq n); lia.
Qed.

Lemma bumped_receipt seq n : 0 ≤ n < 2 ^ 64 → bumped seq (receipt_of n) = Z.max seq n.
Proof.
  intros Hn. unfold bumped, receipt_of, trim_r. rewrite Ascii.eqb_refl.
  rewrite ParseUint16_fmt by lia. destruct (Z.ltb_spec seq n); lia.
Qed.

Lemma parse_uint_loop_range s n :
  0 ≤ n < 2 ^ 64 → 0 ≤ fst (parse_uint_loop s n) < 2 ^ 64.
Proof.
  revert n. induction s as [|c s IH]; intros n Hn; simpl; [done|].
  repeat case_match; simpl; try (unfold max_uint64; lia). apply IH, u64_range.
Qed.

Lemma seqOf_range id : 0 ≤ seqOf id < 2 ^ 64.
Proof. unfold seqOf, ParseUint16. destruct id; [done|]. by apply parse_uint_loop_range. Qed.

Lemma bumped_mono seq id : seq ≤ bumped seq id.
Proof.
  unfold bumped. destruct (ParseUint16 (trim_r id)) as [n [e|]]; [done|].
  destruct (Z.ltb_spec seq n); lia.
Qed.

Lemma bumped_max seq id : 0 ≤ seq → bumped seq id = Z.max seq (bumped 0 id).
Proof.
  intros Hs. unfold bumped. destruct (ParseUint16 (trim_r id)) as [n [e|]]; [lia|].
  destruct (Z.ltb_spec seq n), (Z.ltb_spec 0 n); lia.
Qed.

Lemma bumped_lt seq id : seq < 2 ^ 64 → bumped seq id < 2 ^ 64.
Proof.
  intros Hs. unfold bumped. destruct (ParseUint16 (trim_r id)) as [n [e|]] eqn:Hp; [done|].
  pose proof (seqOf_range (trim_r id)) as Hr. unfold seqOf in Hr. rewrite Hp in Hr. simpl in Hr.
  destruct (Z.ltb_spec seq n); lia.
Qed.

#[export] Hint Resolve bumped_lt : duraq.
#[export] Hint Resolve seqOf_range bumped_mono : duraq.
#[export] Hint Rewrite seqOf_fmt bumped_fmt bumped_receipt using lia : duraq.
