(* ===== verification/WalRecord.v ===== *)
(** Records of the write-ahead log (internal/wal/record.go): the record type,
    the op names, Validate, and the encoding of message bodies, with the parts
    of unicode/utf8 and encoding/base64 it uses.  Theorems: base64 decoding
    undoes encoding, GetBody undoes SetBody on every payload. *)

From S2P Require Import Prelude.
From Stdlib Require String.

Local Open Scope Z_scope.

(** ** unicode/utf8: Valid *)

Section utf8.
(** A continuation byte in the range the first byte allows. *)
Definition cont (lo hi : Z) (c : ascii) : bool := (lo <=? code c) && (code c <=? hi).

(** Bytes that follow a first byte: how many, and the range of the next one
    (utf8.first and utf8.acceptRanges); [None] for an invalid first byte. *)
Definition utf8_first (c : ascii) : option (nat * Z * Z) :=
  let b := code c in
  if b <? 128 then Some (0%nat, 0, 0)
  else if (194 <=? b) && (b <=? 223) then Some (1%nat, 128, 191)
  else if b =? 224 then Some (2%nat, 160, 191)
  else if b =? 237 then Some (2%nat, 128, 159)
  else if (225 <=? b) && (b <=? 239) then Some (2%nat, 128, 191)
  else if b =? 240 then Some (3%nat, 144, 191)
  else if (241 <=? b) && (b <=? 243) then Some (3%nat, 128, 191)
  else if b =? 244 then Some (3%nat, 128, 143)
  else None.

Fixpoint utf8_Valid (p : bytes) : bool :=
  match p with
  | [] => true
  | c :: p =>
    match utf8_first c, p with
    | Some (0%nat, _, _), _ => utf8_Valid p
    | Some (1%nat, lo, hi), c1 :: p => cont lo hi c1 && utf8_Valid p
    | Some (2%nat, lo, hi), c1 :: c2 :: p =>
      cont lo hi c1 && cont 128 191 c2 && utf8_Valid p
    | Some (3%nat, lo, hi), c1 :: c2 :: c3 :: p =>
      cont lo hi c1 && cont 128 191 c2 && cont 128 191 c3 && utf8_Valid p
    | _, _ => false
    end
  end.
End utf8.

(** ** encoding/base64: StdEncoding *)

Section base64.
Definition b64_char (v : Z) : ascii :=
  if v <? 26 then char (65 + v)
  else if v <? 52 then char (71 + v)
  else if v <? 62 then char (v - 4)
  else if v =? 62 then "+"%char else "/"%char.

Definition b64_val (c : ascii) : option Z :=
  let b := code c in
  if (65 <=? b) && (b <=? 90) then Some (b - 65)
  else if (97 <=? b) && (b <=? 122) then Some (b - 71)
  else if (48 <=? b) && (b <=? 57) then Some (b + 4)
  else if b =? 43 then Some 62
  else if b =? 47 then Some 63
  else None.

Definition b64_pad : ascii := "="%char.

(** EncodeToString. *)
Fixpoint b64_encode (p : bytes) : bytes :=
  match p with
  | [] => []
  | [a] =>
    let a := code a in
    [b64_char (a / 4); b64_char (a `mod` 4 * 16); b64_pad; b64_pad]
  | [a; b] =>
    let a := code a in let b := code b in
    [b64_char (a / 4); b64_char (a `mod` 4 * 16 + b / 16);
     b64_char (b `mod` 16 * 4); b64_pad]
  | a :: b :: c :: p =>
    let a := code a in let b := code b in let c := code c in
    b64_char (a / 4) :: b64_char (a `mod` 4 * 16 + b / 16)
      :: b64_char (b `mod` 16 * 4 + c / 64) :: b64_char (c `mod` 64)
      :: b64_encode p
  end.

(** DecodeString, once the line breaks it ignores are taken out: groups of
    four, padding only in the last group; the padding bits are not checked
    (the encoding is not Strict). *)
Fixpoint b64_quanta (p : bytes) : option bytes :=
  match p with
  | [] => Some []
  | [c0; c1; c2; c3] =>
    v0 ← b64_val c0; v1 ← b64_val c1;
    let a := char (v0 * 4 + v1 / 16) in
    if Ascii.eqb c2 b64_pad then
      if Ascii.eqb c3 b64_pad then Some [a] else None
    else
      v2 ← b64_val c2;
      let b := char (v1 `mod` 16 * 16 + v2 / 4) in
      if Ascii.eqb c3 b64_pad then Some [a; b]
      else v3 ← b64_val c3; Some [a; b; char (v2 `mod` 4 * 64 + v3)]
  | c0 :: c1 :: c2 :: c3 :: p =>
    v0 ← b64_val c0; v1 ← b64_val c1; v2 ← b64_val c2; v3 ← b64_val c3;
    rest ← b64_quanta p;
    Some (char (v0 * 4 + v1 / 16) :: char (v1 `mod` 16 * 16 + v2 / 4)
            :: char (v2 `mod` 4 * 64 + v3) :: rest)
  | _ => None
  end.

Definition not_newline (c : ascii) : bool := negb ((code c =? 10) || (code c =? 13)).

Definition b64_decode (p : bytes) : option bytes :=
  b64_quanta (List.filter not_newline p).
End base64.

(** ** record.go *)

Definition OpQueueCreate : string := "qcreate".
Definition OpQueueDelete : string := "qdelete".
Definition OpSend : string := "send".
Definition OpReceive : string := "recv".
Definition OpAck : string := "ack".
Definition OpNack : string := "nack".
Definition OpExtend : string := "extend".
Definition OpDead : string := "dead".
Definition OpMove : string := "move".

(** type Record *)
Record WRecord := mkRecord {
  r_Op : string;
  r_Queue : string;
  r_ID : string;
  r_Body : string;
  r_BodyB64 : string;
  r_TS : Z;
  r_NBF : Z;
  r_Deadline : Z;
  r_Receipt : string;
  r_Count : Z;
  r_To : string;
  r_Config : bytes;
}.

#[export] Instance WRecord_eq_dec : EqDecision WRecord.
Proof. solve_decision. Defined.

(** A record literal with the zero value of every field but op and queue. *)
Definition zero_record (op q : string) : WRecord :=
  mkRecord op q "" "" "" 0 0 0 "" 0 "" [].

(** SetBody *)
Definition SetBody (b : bytes) (r : WRecord) : WRecord :=
  let '(body, b64) :=
    if utf8_Valid b then (String.string_of_list_ascii b, ""%string)
    else (""%string, String.string_of_list_ascii (b64_encode b)) in
  {| r_Op := r_Op r; r_Queue := r_Queue r; r_ID := r_ID r;
     r_Body := body; r_BodyB64 := b64;
     r_TS := r_TS r; r_NBF := r_NBF r; r_Deadline := r_Deadline r;
     r_Receipt := r_Receipt r; r_Count := r_Count r; r_To := r_To r;
     r_Config := r_Config r |}.

(** GetBody *)
Definition GetBody (r : WRecord) : result bytes :=
  if decide (r_BodyB64 r ≠ "")%string then
    match b64_decode (String.list_ascii_of_string (r_BodyB64 r)) with
    | Some b => Ok b
    | None => Err (Errorf "illegal base64 data" [])
    end
  else Ok (String.list_ascii_of_string (r_Body r)).

Definition queue_ops : list string := [OpQueueCreate; OpQueueDelete].
Definition message_ops : list string :=
  [OpSend; OpReceive; OpAck; OpNack; OpExtend; OpDead; OpMove].

(** Validate: the error, or [None] for nil. *)
Definition Validate (r : WRecord) : option error :=
  let early :=
    if decide (r_Op r ∈ queue_ops) then
      if decide (r_Queue r = "")%string
      then Some (Errorf "%s record missing queue name" [AStr (r_Op r)]) else None
    else if decide (r_Op r ∈ message_ops) then
      if decide (r_Queue r = "")%string
      then Some (Errorf "%s record missing queue name" [AStr (r_Op r)])
      else if decide (r_ID r = "")%string
      then Some (Errorf "%s record missing message id" [AStr (r_Op r)]) else None
    else if decide (r_Op r = "")%string then Some (Errorf "record missing op" [])
    else Some (Errorf "unknown op %q" [AStr (r_Op r)]) in
  match early with
  | Some e => Some e
  | None =>
    if decide (r_Op r = OpReceive ∧ r_Deadline r = 0)
    then Some (Errorf "recv record missing deadline" [])
    else if decide (r_Op r = OpMove ∧ r_To r = "")%string
    then Some (Errorf "move record missing target queue" [])
    else None
  end.

(** ** Theorems *)

(** A finite check over the 64 digit values. *)
Lemma digit64_ind (P : Z → Prop) :
  Forall P (seqZ 0 64) → ∀ v, 0 ≤ v < 64 → P v.
Proof. rewrite Forall_forall. intros H v Hv. apply H, elem_of_seqZ. lia. Qed.

Lemma b64_val_char v : 0 ≤ v < 64 → b64_val (b64_char v) = Some v.
Proof.
  apply (digit64_ind (λ v, b64_val (b64_char v) = Some v)). repeat constructor.
Qed.

Lemma b64_char_not_pad v : 0 ≤ v < 64 → Ascii.eqb (b64_char v) b64_pad = false.
Proof.
  apply (digit64_ind (λ v, Ascii.eqb (b64_char v) b64_pad = false)). repeat constructor.
Qed.

Lemma b64_char_not_newline v : 0 ≤ v < 64 → not_newline (b64_char v) = true.
Proof.
  apply (digit64_ind (λ v, not_newline (b64_char v) = true)). repeat constructor.
Qed.

(** The three bytes of a group come back from its four digits. *)
Lemma quantum_0 a b : 0 ≤ a < 256 → 0 ≤ b < 256 →
  a / 4 * 4 + (a `mod` 4 * 16 + b / 16) / 16 = a.
Proof. zdiv. Qed.

Lemma quantum_1 a b c : 0 ≤ a < 256 → 0 ≤ b < 256 → 0 ≤ c < 256 →
  (a `mod` 4 * 16 + b / 16) `mod` 16 * 16 + (b `mod` 16 * 4 + c / 64) / 4 = b.
Proof. zdiv. Qed.

Lemma quantum_2 b c : 0 ≤ b < 256 → 0 ≤ c < 256 →
  (b `mod` 16 * 4 + c / 64) `mod` 4 * 64 + c `mod` 64 = c.
Proof. zdiv. Qed.

(** Induction by groups of three bytes. *)
Lemma bytes3_ind (P : bytes → Prop) :
  P [] → (∀ a, P [a]) → (∀ a b, P [a; b]) →
  (∀ a b c p, P p → P (a :: b :: c :: p)) → ∀ p, P p.
Proof.
  intros H0 H1 H2 H3.
  enough (∀ n p, (length p ≤ n)%nat → P p) as H by (intros p; by apply (H (length p))).
  induction n as [|n IH]; intros [|a [|b [|c p]]] Hl; simpl in Hl; auto; try lia.
  apply H3, IH. lia.
Qed.

(** Every character of an encoding is kept by the line-break filter. *)
Lemma b64_encode_no_newline p : List.filter not_newline (b64_encode p) = b64_encode p.
Proof.
  induction p as [|a|a b|a b c p IH] using bytes3_ind; cbn [b64_encode List.filter];
    try pose proof (code_range a); try pose proof (code_range b);
    try pose proof (code_range c);
    rewrite ?b64_char_not_newline by zdiv; [done..|].
  by rewrite IH.
Qed.

Lemma b64_quanta_encode p : b64_quanta (b64_encode p) = Some p.
Proof.
  induction p as [|a|a b|a b c p IH] using bytes3_ind; [done|..];
    pose proof (code_range a); try pose proof (code_range b); try pose proof (code_range c).
  - cbn [b64_encode b64_quanta]. rewrite !b64_val_char by zdiv. cbn [mbind option_bind].
    rewrite !Ascii.eqb_refl. do 2 f_equal. rewrite <-(char_code a) at 3. f_equal. zdiv.
  - cbn [b64_encode b64_quanta]. rewrite !b64_val_char by zdiv. cbn [mbind option_bind].
    rewrite !Ascii.eqb_refl, b64_char_not_pad by zdiv. do 2 f_equal; [|f_equal].
    + rewrite quantum_0 by done. by rewrite char_code.
    + rewrite <-(char_code b) at 3. f_equal. zdiv.
  - assert (b64_quanta (b64_encode (a :: b :: c :: p)) =
            rest ← b64_quanta (b64_encode p); Some (a :: b :: c :: rest)) as ->.
    { cbn [b64_encode b64_quanta].
      rewrite !b64_val_char, !b64_char_not_pad by zdiv. cbn [mbind option_bind].
      rewrite quantum_0, quantum_1, quantum_2, !char_code by done.
      by destruct (b64_encode p) as [|? ?]. }
    by rewrite IH.
Qed.

Lemma b64_decode_encode p : b64_decode (b64_encode p) = Some p.
Proof. unfold b64_decode. by rewrite b64_encode_no_newline, b64_quanta_encode. Qed.

(** GetBody undoes SetBody, whatever the payload. *)
Lemma GetBody_SetBody b r : GetBody (SetBody b r) = Ok b.
Proof.
  unfold GetBody, SetBody. destruct (utf8_Valid b) eqn:Hv; cbn -[b64_decode].
  - by rewrite String.list_ascii_of_string_of_list_ascii.
  - rewrite decide_True.
    + by rewrite String.list_ascii_of_string_of_list_ascii, b64_decode_encode.
    + destruct b as [|a [|b [|c p]]]; done.
Qed.
