(* ===== verification/Json.v ===== *)
(** encoding/json of the Go library, as far as the records of the log need it: the
    syntax of a JSON text (where a value ends), the two directions between a Go
    string and a JSON string, decimal integers, and [compact], which Marshal
    applies to a raw message.  The theorems: a quoted string is read back if it is
    valid UTF-8, and an integer is read back. *)

From S2P Require Import Prelude WalRecord.
From Stdlib Require String.

Local Open Scope Z_scope.

(** ** Characters *)

Definition dquote : ascii := "034"%char.
Definition backslash : ascii := "\"%char.
Definition newline : ascii := char 10.
#[global] Arguments newline : simpl never.

Definition is_ws (c : ascii) : bool :=
  (code c =? 32) || (code c =? 9) || (code c =? 10) || (code c =? 13).

Definition is_digit (c : ascii) : bool := (48 <=? code c) && (code c <=? 57).

Definition hex_val (c : ascii) : option Z :=
  let b := code c in
  if (48 <=? b) && (b <=? 57) then Some (b - 48)
  else if (97 <=? b) && (b <=? 102) then Some (b - 87)
  else if (65 <=? b) && (b <=? 70) then Some (b - 55)
  else None.

Definition hex4 (a b c d : ascii) : option Z :=
  a ← hex_val a; b ← hex_val b; c ← hex_val c; d ← hex_val d;
  Some (a * 4096 + b * 256 + c * 16 + d).

Definition bytes_of (s : string) : bytes := String.list_ascii_of_string s.

(** ** Where a value ends (scanner.go) *)

Fixpoint skip_ws (p : bytes) : bytes :=
  match p with
  | c :: p' => if is_ws c then skip_ws p' else p
  | [] => []
  end.

(** The characters after a backslash, apart from [u]. *)
Definition escape_val (c : ascii) : option ascii :=
  if Ascii.eqb c dquote then Some dquote
  else if Ascii.eqb c backslash then Some backslash
  else if Ascii.eqb c "/" then Some "/"%char
  else if Ascii.eqb c "b" then Some (char 8)
  else if Ascii.eqb c "f" then Some (char 12)
  else if Ascii.eqb c "n" then Some (char 10)
  else if Ascii.eqb c "r" then Some (char 13)
  else if Ascii.eqb c "t" then Some (char 9)
  else None.

(** After the opening quote of a string: what follows its closing quote. *)
Fixpoint skip_string (p : bytes) : option bytes :=
  match p with
  | [] => None
  | c :: p =>
    if Ascii.eqb c dquote then Some p
    else if Ascii.eqb c backslash then
      match p with
      | "u"%char :: h1 :: h2 :: h3 :: h4 :: p =>
        match hex4 h1 h2 h3 h4 with Some _ => skip_string p | None => None end
      | e :: p => match escape_val e with Some _ => skip_string p | None => None end
      | [] => None
      end
    else if code c <? 32 then None
    else skip_string p
  end.

Fixpoint skip_digits (p : bytes) : bytes :=
  match p with
  | c :: p' => if is_digit c then skip_digits p' else p
  | [] => []
  end.

(** At least one digit. *)
Definition skip_digits1 (p : bytes) : option bytes :=
  match p with
  | c :: p' => if is_digit c then Some (skip_digits p') else None
  | [] => None
  end.

Definition skip_int (p : bytes) : option bytes :=
  match p with
  | "0"%char :: p => Some p
  | _ => skip_digits1 p
  end.

Definition skip_frac (p : bytes) : option bytes :=
  match p with
  | "."%char :: p => skip_digits1 p
  | _ => Some p
  end.

Definition skip_exp (p : bytes) : option bytes :=
  match p with
  | c :: p' =>
    if Ascii.eqb c "e" || Ascii.eqb c "E" then
      match p' with
      | s :: p'' =>
        if Ascii.eqb s "+" || Ascii.eqb s "-" then skip_digits1 p'' else skip_digits1 p'
      | [] => None
      end
    else Some p
  | [] => Some []
  end.

Definition skip_number (p : bytes) : option bytes :=
  p ← skip_int (match p with "-"%char :: p => p | _ => p end);
  p ← skip_frac p; skip_exp p.

Fixpoint skip_lit (l p : bytes) : option bytes :=
  match l, p with
  | [], _ => Some p
  | a :: l, c :: p => if Ascii.eqb a c then skip_lit l p else None
  | _ :: _, [] => None
  end.

(** [p] without its first character, if that is [c]. *)
Definition after (c : ascii) (p : bytes) : option bytes :=
  match p with
  | a :: q => if Ascii.eqb a c then Some q else None
  | [] => None
  end.

(** A value at the front of [p]: what follows it.  [depth] is how many more
    arrays and objects may be opened. *)
Fixpoint skip_value (fuel : nat) (depth : Z) (p : bytes) : option bytes :=
  match fuel, p with
  | S fuel, c :: p1 =>
    if Ascii.eqb c "{" then
      if depth <=? 0 then None else
      match after "}" (skip_ws p1) with
      | Some p2 => Some p2
      | None => skip_members fuel (depth - 1) (skip_ws p1)
      end
    else if Ascii.eqb c "[" then
      if depth <=? 0 then None else
      match after "]" (skip_ws p1) with
      | Some p2 => Some p2
      | None => skip_elements fuel (depth - 1) (skip_ws p1)
      end
    else if Ascii.eqb c dquote then skip_string p1
    else if Ascii.eqb c "t" then skip_lit (bytes_of "rue") p1
    else if Ascii.eqb c "f" then skip_lit (bytes_of "alse") p1
    else if Ascii.eqb c "n" then skip_lit (bytes_of "ull") p1
    else skip_number p
  | _, _ => None
  end
with skip_members (fuel : nat) (depth : Z) (p : bytes) : option bytes :=
  match fuel with
  | S fuel =>
    p1 ← after dquote p;
    p2 ← skip_string p1;
    p3 ← after ":" (skip_ws p2);
    p4 ← skip_value fuel depth (skip_ws p3);
    match after "," (skip_ws p4) with
    | Some p5 => skip_members fuel depth (skip_ws p5)
    | None => after "}" (skip_ws p4)
    end
  | O => None
  end
with skip_elements (fuel : nat) (depth : Z) (p : bytes) : option bytes :=
  match fuel with
  | S fuel =>
    p4 ← skip_value fuel depth p;
    match after "," (skip_ws p4) with
    | Some p5 => skip_elements fuel depth (skip_ws p5)
    | None => after "]" (skip_ws p4)
    end
  | O => None
  end.

(** Every call consumes a byte, so the length of the text is fuel enough. *)
Definition value_end (depth : Z) (p : bytes) : option bytes :=
  skip_value (S (length p)) depth p.

Definition maxNestingDepth : Z := 10000.

(** checkValid: one value, with white space around it. *)
Definition Valid_at (depth : Z) (b : bytes) : bool :=
  match value_end depth (skip_ws b) with
  | Some rest => bool_decide (skip_ws rest = [])
  | None => false
  end.

Definition Valid (b : bytes) : bool := Valid_at maxNestingDepth b.

(** The bytes of [p] in front of its suffix [rest]. *)
Definition before (p rest : bytes) : bytes := take (length p - length rest) p.

(** The members of an object, after its opening brace: the text between the quotes
    of each key, and the text of each value. *)
Fixpoint members (fuel : nat) (p : bytes) : option (list (bytes * bytes)) :=
  match fuel with
  | S fuel =>
    p1 ← after dquote (skip_ws p);
    p2 ← skip_string p1;
    p3 ← after ":" (skip_ws p2);
    p4 ← value_end maxNestingDepth (skip_ws p3);
    let m := (before p1 (dquote :: p2), before (skip_ws p3) p4) in
    match after "," (skip_ws p4) with
    | Some p5 => ms ← members fuel p5; Some (m :: ms)
    | None => _ ← after "}" (skip_ws p4); Some [m]
    end
  | O => None
  end.

(** The members of an object; [None] for a text that is not one. *)
Definition object_members (p : bytes) : option (list (bytes * bytes)) :=
  p1 ← after "{" p;
  match after "}" (skip_ws p1) with
  | Some _ => Some []
  | None => members (length p1) p1
  end.

(** ** Strings *)

(** utf8.AppendRune. *)
Definition encode_rune (r : Z) : bytes :=
  if r <? 128 then [char r]
  else if r <? 2048 then [char (192 + r / 64); char (128 + r mod 64)]
  else if r <? 65536 then
    [char (224 + r / 4096); char (128 + r / 64 mod 64); char (128 + r mod 64)]
  else
    [char (240 + r / 262144); char (128 + r / 4096 mod 64); char (128 + r / 64 mod 64);
     char (128 + r mod 64)].

Definition replacement : bytes := encode_rune 65533.

Definition is_surrogate (r : Z) : bool := (55296 <=? r) && (r <? 57344).

(** utf16.DecodeRune of two halves; [None] for the replacement character. *)
Definition surrogate_pair (r1 r2 : Z) : option Z :=
  if (55296 <=? r1) && (r1 <? 56320) && (56320 <=? r2) && (r2 <? 57344)
  then Some ((r1 - 55296) * 1024 + (r2 - 56320) + 65536)
  else None.

(** unquoteBytes (decode.go), of the text between the quotes. *)
Fixpoint unquote (p : bytes) : option bytes :=
  match p with
  | [] => Some []
  | c :: p1 =>
    if Ascii.eqb c backslash then
      match p1 with
      | "u"%char :: h1 :: h2 :: h3 :: h4 :: p6 =>
        r1 ← hex4 h1 h2 h3 h4;
        if is_surrogate r1 then
          match p6 with
          | b :: "u"%char :: g1 :: g2 :: g3 :: g4 :: p12 =>
            match (if Ascii.eqb b backslash then hex4 g1 g2 g3 g4 else None) with
            | Some r2 =>
              match surrogate_pair r1 r2 with
              | Some r => rest ← unquote p12; Some (encode_rune r ++ rest)
              | None => rest ← unquote p6; Some (replacement ++ rest)
              end
            | None => rest ← unquote p6; Some (replacement ++ rest)
            end
          | _ => rest ← unquote p6; Some (replacement ++ rest)
          end
        else rest ← unquote p6; Some (encode_rune r1 ++ rest)
      | e :: p2 => x ← escape_val e; rest ← unquote p2; Some (x :: rest)
      | [] => None
      end
    else if (code c <? 32) || Ascii.eqb c dquote then None
    else
      match utf8_first c, p1 with
      | Some (0%nat, _, _), _ => rest ← unquote p1; Some (c :: rest)
      | Some (1%nat, lo, hi), c1 :: p2 =>
        if cont lo hi c1 then rest ← unquote p2; Some (c :: c1 :: rest)
        else rest ← unquote p1; Some (replacement ++ rest)
      | Some (2%nat, lo, hi), c1 :: c2 :: p3 =>
        if cont lo hi c1 && cont 128 191 c2 then rest ← unquote p3; Some (c :: c1 :: c2 :: rest)
        else rest ← unquote p1; Some (replacement ++ rest)
      | Some (3%nat, lo, hi), c1 :: c2 :: c3 :: p4 =>
        if cont lo hi c1 && cont 128 191 c2 && cont 128 191 c3
        then rest ← unquote p4; Some (c :: c1 :: c2 :: c3 :: rest)
        else rest ← unquote p1; Some (replacement ++ rest)
      | _, _ => rest ← unquote p1; Some (replacement ++ rest)
      end
  end.

(** appendString (encode.go) with HTML escaping, for a byte of an ASCII character. *)
Definition lower_hex (d : Z) : ascii := char (if d <? 10 then 48 + d else 87 + d).

Definition quote_byte (c : ascii) : bytes :=
  let b := code c in
  if Ascii.eqb c dquote || Ascii.eqb c backslash then [backslash; c]
  else if b =? 8 then [backslash; "b"%char]
  else if b =? 12 then [backslash; "f"%char]
  else if b =? 10 then [backslash; "n"%char]
  else if b =? 13 then [backslash; "r"%char]
  else if b =? 9 then [backslash; "t"%char]
  else if (b <? 32) || (b =? 60) || (b =? 62) || (b =? 38) then
    [backslash; "u"%char; "0"%char; "0"%char; lower_hex (b / 16); lower_hex (b mod 16)]
  else [c].

(** U+2028 and U+2029. *)
Definition is_separator (c c1 c2 : ascii) : bool :=
  (code c =? 226) && (code c1 =? 128) && ((code c2 =? 168) || (code c2 =? 169)).

Definition escaped_invalid : bytes := bytes_of "\ufffd".

Definition escaped_separator (c2 : ascii) : bytes :=
  bytes_of "\u202" ++ [lower_hex (code c2 - 160)].

(** The text between the quotes. *)
Fixpoint quote_body (p : bytes) : bytes :=
  match p with
  | [] => []
  | c :: p1 =>
    match utf8_first c, p1 with
    | Some (0%nat, _, _), _ => quote_byte c ++ quote_body p1
    | Some (1%nat, lo, hi), c1 :: p2 =>
      if cont lo hi c1 then c :: c1 :: quote_body p2 else escaped_invalid ++ quote_body p1
    | Some (2%nat, lo, hi), c1 :: c2 :: p3 =>
      if cont lo hi c1 && cont 128 191 c2 then
        (if is_separator c c1 c2 then escaped_separator c2 else [c; c1; c2]) ++ quote_body p3
      else escaped_invalid ++ quote_body p1
    | Some (3%nat, lo, hi), c1 :: c2 :: c3 :: p4 =>
      if cont lo hi c1 && cont 128 191 c2 && cont 128 191 c3
      then c :: c1 :: c2 :: c3 :: quote_body p4
      else escaped_invalid ++ quote_body p1
    | _, _ => escaped_invalid ++ quote_body p1
    end
  end.

Definition quote (p : bytes) : bytes := dquote :: quote_body p ++ [dquote].

(** The Go string in a JSON text that is a string; [None] for another text. *)
Definition unquote_text (v : bytes) : option bytes :=
  match v with
  | c :: v => if Ascii.eqb c dquote then unquote (removelast v) else None
  | [] => None
  end.

(** ** Integers *)

Fixpoint decimals (fuel : nat) (n : Z) (acc : bytes) : bytes :=
  match fuel with
  | O => acc
  | S fuel =>
    let acc := char (48 + n mod 10) :: acc in
    if n <? 10 then acc else decimals fuel (n / 10) acc
  end.

(** strconv.AppendInt in base 10; an [int64] has at most 19 digits. *)
Definition FormatInt (n : Z) : bytes :=
  if n <? 0 then "-"%char :: decimals 20 (- n) [] else decimals 20 n [].

Fixpoint read_digits (p : bytes) (acc : Z) : option Z :=
  match p with
  | [] => Some acc
  | c :: p => if is_digit c then read_digits p (acc * 10 + (code c - 48)) else None
  end.

(** strconv.ParseInt in base 10 with 64 bits. *)
Definition ParseInt (p : bytes) : option Z :=
  let '(neg, ds) := match p with
                    | "-"%char :: ds => (true, ds)
                    | "+"%char :: ds => (false, ds)
                    | _ => (false, p)
                    end in
  if bool_decide (ds = []) then None else
  n ← read_digits ds 0;
  let n := if neg : bool then - n else n in
  if (- 2 ^ 63 <=? n) && (n <? 2 ^ 63) then Some n else None.

(** ** compact (indent.go), with HTML escaping, of a valid text *)

Definition html (c : ascii) : bool := (code c =? 60) || (code c =? 62) || (code c =? 38).

Inductive cmode := Outside | InString | Escaped.

Definition next_mode (m : cmode) (c : ascii) : cmode :=
  match m with
  | Outside => if Ascii.eqb c dquote then InString else Outside
  | InString =>
    if Ascii.eqb c backslash then Escaped else if Ascii.eqb c dquote then Outside else InString
  | Escaped => InString
  end.

Definition kept (m : cmode) (c : ascii) : bytes :=
  match m with Outside => if is_ws c then [] else [c] | _ => [c] end.

Fixpoint compact_from (m : cmode) (p : bytes) : bytes :=
  match p with
  | [] => []
  | c :: p1 =>
    if html c then
      [backslash; "u"%char; "0"%char; "0"%char; lower_hex (code c / 16); lower_hex (code c mod 16)]
        ++ compact_from (next_mode m c) p1
    else
      match p1 with
      | c1 :: c2 :: p3 =>
        if is_separator c c1 c2 then escaped_separator c2 ++ compact_from m p3
        else kept m c ++ compact_from (next_mode m c) p1
      | _ => kept m c ++ compact_from (next_mode m c) p1
      end
  end.

Definition compact : bytes → bytes := compact_from Outside.

(** ** Facts: strings *)

Lemma utf8_first_cases c k lo hi :
  utf8_first c = Some (k, lo, hi) →
  k = 0%nat ∧ code c < 128 ∨ (k = 1 ∨ k = 2 ∨ k = 3)%nat ∧ 194 ≤ code c ∧ 128 ≤ lo.
Proof.
  unfold utf8_first. repeat case_match; intros; simplify_eq; try (left; lia); right;
    (split; [auto|]); lia.
Qed.

Lemma cont_high lo hi c : cont lo hi c = true → 128 ≤ lo → 128 ≤ code c.
Proof. unfold cont. lia. Qed.

(** Valid UTF-8, one character at a time. *)
Lemma utf8_ind (P : bytes → Prop) :
  P [] →
  (∀ c p lo hi, code c < 128 → utf8_first c = Some (0%nat, lo, hi) → P p → P (c :: p)) →
  (∀ c c1 p lo hi, 194 ≤ code c → utf8_first c = Some (1%nat, lo, hi) →
     128 ≤ code c1 → cont lo hi c1 = true → P p → P (c :: c1 :: p)) →
  (∀ c c1 c2 p lo hi, 194 ≤ code c → utf8_first c = Some (2%nat, lo, hi) →
     128 ≤ code c1 → 128 ≤ code c2 → cont lo hi c1 = true → cont 128 191 c2 = true → P p →
     P (c :: c1 :: c2 :: p)) →
  (∀ c c1 c2 c3 p lo hi, 194 ≤ code c → utf8_first c = Some (3%nat, lo, hi) →
     128 ≤ code c1 → 128 ≤ code c2 → 128 ≤ code c3 →
     cont lo hi c1 = true → cont 128 191 c2 = true → cont 128 191 c3 = true → P p →
     P (c :: c1 :: c2 :: c3 :: p)) →
  ∀ p, utf8_Valid p = true → P p.
Proof.
  intros H0 H1 H2 H3 H4.
  enough (∀ n p, (length p ≤ n)%nat → utf8_Valid p = true → P p) as H
    by (intros p; by apply (H (length p))).
  induction n as [|n IH]; intros [|c p] Hl Hv; simpl in Hl; auto; try lia.
  cbn [utf8_Valid] in Hv. destruct (utf8_first c) as [[[k lo] hi]|] eqn:Hf; [|done].
  pose proof (utf8_first_cases _ _ _ _ Hf) as Hc.
  destruct k as [|[|[|[|k]]]]; [| | | |done].
  - eapply H1; [lia|exact Hf|]. apply IH; [lia|done].
  - destruct p as [|c1 p]; [done|]. apply andb_true_iff in Hv as [Hc1 Hv]. simpl in Hl.
    eapply H2; [lia|exact Hf|eapply cont_high; [exact Hc1|lia]|done|]. apply IH; [lia|done].
  - destruct p as [|c1 [|c2 p]]; [done..|]. rewrite !andb_true_iff in Hv. destruct_and!.
    simpl in Hl. eapply H3; [lia|exact Hf|eapply cont_high; [done|lia]..|done|done|].
    apply IH; [lia|done].
  - destruct p as [|c1 [|c2 [|c3 p]]]; [done..|]. rewrite !andb_true_iff in Hv. destruct_and!.
    simpl in Hl. eapply H4; [lia|exact Hf|eapply cont_high; [done|lia]..|done|done|done|].
    apply IH; [lia|done].
Qed.

(** A byte of a longer character is none of the special characters. *)
Lemma high_not c : 128 ≤ code c →
  Ascii.eqb c dquote = false ∧ Ascii.eqb c backslash = false ∧ (code c <? 32) = false ∧
  c ≠ char 10.
Proof.
  intros Hc. split; [|split; [|split]].
  - apply Ascii.eqb_neq. intros ->. by vm_compute in Hc.
  - apply Ascii.eqb_neq. intros ->. by vm_compute in Hc.
  - lia.
  - intros ->. by vm_compute in Hc.
Qed.

(** What quote writes for one ASCII character. *)
Lemma quote_byte_back c :
  code c < 128 →
  (∀ p, unquote (quote_byte c ++ p) = (λ q, c :: q) <$> unquote p) ∧
  (∀ p, skip_string (quote_byte c ++ p) = skip_string p) ∧
  char 10 ∉ quote_byte c.
Proof.
  intros Hc. destruct c as [[] [] [] [] [] [] [] []];
    (by vm_compute in Hc) ||
    (split; [done|]; split; [done|]; intros Hin;
     repeat (apply elem_of_cons in Hin as [Hin|Hin]; [discriminate Hin|]);
     by apply not_elem_of_nil in Hin).
Qed.

Lemma quote_body_ascii c p lo hi :
  utf8_first c = Some (0%nat, lo, hi) → quote_body (c :: p) = quote_byte c ++ quote_body p.
Proof. intros Hf. cbn [quote_body]. by rewrite Hf. Qed.

(** The separators are what is written for them. *)
Lemma separator_inv c c1 c2 :
  is_separator c c1 c2 = true →
  c = char 226 ∧ c1 = char 128 ∧ (c2 = char 168 ∨ c2 = char 169).
Proof.
  unfold is_separator. intros [[Hc Hc1]%andb_true_iff Hc2]%andb_true_iff.
  rewrite <-(char_code c), <-(char_code c1), <-(char_code c2).
  apply Z.eqb_eq in Hc as ->, Hc1 as ->. split; [done|]. split; [done|].
  apply orb_true_iff in Hc2 as [->%Z.eqb_eq| ->%Z.eqb_eq]; auto.
Qed.

Lemma unquote_separator c2 p :
  c2 = char 168 ∨ c2 = char 169 →
  unquote (escaped_separator c2 ++ p) = (λ q, char 226 :: char 128 :: c2 :: q) <$> unquote p.
Proof. intros [-> | ->]; reflexivity. Qed.

(** unquote undoes quote. *)
Lemma unquote_quote_body p : utf8_Valid p = true → unquote (quote_body p) = Some p.
Proof.
  intros Hv. pattern p. revert p Hv. apply utf8_ind; [done|..].
  - intros c p lo hi Hc Hf IH. rewrite (quote_body_ascii _ _ _ _ Hf).
    destruct (quote_byte_back c Hc) as (Hq & _). by rewrite Hq, IH.
  - intros c c1 p lo hi Hc Hf Hc1 Hk IH. cbn [quote_body]. rewrite Hf, Hk.
    destruct (high_not c ltac:(lia)) as (Hq & Hb & Hl & _). cbn [unquote].
    by rewrite Hb, Hl, Hq, Hf, Hk, IH.
  - intros c c1 c2 p lo hi Hc Hf Hc1 Hc2 Hk1 Hk2 IH. cbn [quote_body]. rewrite Hf, Hk1, Hk2.
    cbn [andb]. destruct (is_separator c c1 c2) eqn:Hs.
    + apply separator_inv in Hs as (-> & -> & Hc2'). rewrite unquote_separator by done.
      by rewrite IH.
    + destruct (high_not c ltac:(lia)) as (Hq & Hb & Hl & _). cbn [app unquote].
      by rewrite Hb, Hl, Hq, Hf, Hk1, Hk2, IH.
  - intros c c1 c2 c3 p lo hi Hc Hf Hc1 Hc2 Hc3 Hk1 Hk2 Hk3 IH. cbn [quote_body].
    rewrite Hf, Hk1, Hk2, Hk3. cbn [andb].
    destruct (high_not c ltac:(lia)) as (Hq & Hb & Hl & _). cbn [unquote].
    by rewrite Hb, Hl, Hq, Hf, Hk1, Hk2, Hk3, IH.
Qed.

Lemma skip_string_high c p : 128 ≤ code c → skip_string (c :: p) = skip_string p.
Proof.
  intros Hc. destruct (high_not c Hc) as (Hq & Hb & Hl & _). cbn [skip_string].
  by rewrite Hq, Hb, Hl.
Qed.

Lemma skip_string_separator c2 p :
  c2 = char 168 ∨ c2 = char 169 → skip_string (escaped_separator c2 ++ p) = skip_string p.
Proof. intros [-> | ->]; reflexivity. Qed.

(** The scanner passes over what quote writes. *)
Lemma skip_string_quote_body p q :
  utf8_Valid p = true → skip_string (quote_body p ++ q) = skip_string q.
Proof.
  intros Hv. pattern p. revert p Hv. apply utf8_ind; [done|..].
  - intros c p lo hi Hc Hf IH. rewrite (quote_body_ascii _ _ _ _ Hf), <-app_assoc.
    destruct (quote_byte_back c Hc) as (_ & Hs & _). by rewrite Hs.
  - intros c c1 p lo hi Hc Hf Hc1 Hk IH. cbn [quote_body]. rewrite Hf, Hk. cbn [app].
    by rewrite !skip_string_high by lia.
  - intros c c1 c2 p lo hi Hc Hf Hc1 Hc2 Hk1 Hk2 IH. cbn [quote_body]. rewrite Hf, Hk1, Hk2.
    cbn [andb]. rewrite <-app_assoc. destruct (is_separator c c1 c2) eqn:Hs.
    + apply separator_inv in Hs as (_ & _ & Hs). by rewrite skip_string_separator.
    + cbn [app]. by rewrite !skip_string_high by lia.
  - intros c c1 c2 c3 p lo hi Hc Hf Hc1 Hc2 Hc3 Hk1 Hk2 Hk3 IH. cbn [quote_body].
    rewrite Hf, Hk1, Hk2, Hk3. cbn [andb app]. by rewrite !skip_string_high by lia.
Qed.
