(* ===== verification/JsonValue.v ===== *)
(** Facts about JSON texts: an integer that is printed is parsed back, the end of a
    value does not depend on what follows it, and the members of an object that is
    written are found. *)

From S2P Require Import Prelude WalRecord Json.

Local Open Scope Z_scope.

(** ** Integers *)

Lemma digit_code n : 0 ≤ n < 10 → code (char (48 + n)) = 48 + n.
Proof. intros. apply code_char. lia. Qed.

Lemma is_digit_char n : 0 ≤ n < 10 → is_digit (char (48 + n)) = true.
Proof. intros. unfold is_digit. rewrite digit_code; lia. Qed.

Lemma read_digits_app ds t a b :
  read_digits ds a = Some b → read_digits (ds ++ t) a = read_digits t b.
Proof.
  revert a. induction ds as [|c ds IH]; intros a H; cbn in *; [by simplify_eq|].
  destruct (is_digit c); [|done]. by apply IH.
Qed.

(** The digits of a number: what they denote, and no leading zero. *)
Lemma decimals_spec fuel n acc :
  0 ≤ n < 10 ^ Z.of_nat fuel → (0 < fuel)%nat →
  ∃ c ds, decimals fuel n acc = c :: ds ++ acc ∧ read_digits (c :: ds) 0 = Some n ∧
          Forall is_digit (c :: ds) ∧ (c = "0"%char → ds = []).
Proof.
  revert n acc. induction fuel as [|fuel IH]; intros n acc Hn Hf; [lia|].
  cbn [decimals]. destruct (Z.ltb_spec n 10).
  - exists (char (48 + n mod 10)), []. rewrite Z.mod_small by lia. split; [done|].
    split; [|split; [|done]].
    + cbn. rewrite is_digit_char, digit_code by lia. f_equal. lia.
    + constructor; [|done]. rewrite is_digit_char by lia. done.
  - assert (0 < fuel)%nat as Hf'.
    { destruct fuel; [|lia]. change (Z.of_nat 1) with 1 in Hn. lia. }
    rewrite Nat2Z.inj_succ, Z.pow_succ_r in Hn by lia.
    destruct (IH (n / 10) (char (48 + n mod 10) :: acc)) as (c & ds & He & Hr & Hd & Hz);
      [zdiv|done|].
    assert (0 ≤ n mod 10 < 10) as Hm by (apply Z.mod_pos_bound; lia).
    exists c, (ds ++ [char (48 + n mod 10)]). rewrite He. split; [by rewrite <-app_assoc|].
    split; [|split].
    + change (read_digits ((c :: ds) ++ [char (48 + n mod 10)]) 0 = Some n).
      rewrite (read_digits_app _ _ _ _ Hr). cbn.
      rewrite is_digit_char, digit_code by done. f_equal. zdiv.
    + rewrite app_comm_cons. apply Forall_app. split; [done|]. constructor; [|done].
      by rewrite is_digit_char.
    + intros ->. specialize (Hz eq_refl) as ->. change (Some 0 = Some (n / 10)) in Hr.
      assert (n / 10 = 0) by congruence. zdiv.
Qed.

Lemma not_digit_minus c : is_digit c → Ascii.eqb c "-" = false ∧ Ascii.eqb c "+" = false.
Proof. intros Hd. destruct c as [[] [] [] [] [] [] [] []]; done. Qed.

(** The shape of a printed integer. *)
Lemma FormatInt_spec n :
  - 2 ^ 63 ≤ n < 2 ^ 63 →
  ∃ c ds, FormatInt n = (if n <? 0 then ["-"%char] else []) ++ c :: ds ∧
          read_digits (c :: ds) 0 = Some (Z.abs n) ∧
          Forall is_digit (c :: ds) ∧ (c = "0"%char → ds = []).
Proof.
  intros Hn. destruct (decimals_spec 20 (Z.abs n) []) as (c & ds & He & H); [lia|lia|].
  rewrite app_nil_r in He. exists c, ds. split; [|done]. unfold FormatInt.
  destruct (Z.ltb_spec n 0).
  - replace (- n) with (Z.abs n) by lia. by rewrite He.
  - replace n with (Z.abs n) at 1 by lia. by rewrite He.
Qed.

Lemma ParseInt_FormatInt n : - 2 ^ 63 ≤ n < 2 ^ 63 → ParseInt (FormatInt n) = Some n.
Proof.
  intros Hn. destruct (FormatInt_spec n Hn) as (c & ds & He & Hr & Hd & _). rewrite He.
  unfold ParseInt. destruct (Z.ltb_spec n 0); cbn [app].
  - rewrite bool_decide_eq_false_2 by done. rewrite Hr. cbn [mbind option_bind].
    replace (- Z.abs n) with n by lia.
    by rewrite (proj2 (Z.leb_le _ _)), (proj2 (Z.ltb_lt _ _)) by lia.
  - inversion Hd as [|? ? Hc Hds]; subst.
    assert (match c :: ds with
            | "-"%char :: ds0 => (true, ds0) | "+"%char :: ds0 => (false, ds0)
            | _ => (false, c :: ds) end = (false, c :: ds)) as ->.
    { clear -Hc. by destruct c as [[] [] [] [] [] [] [] []]. }
    rewrite bool_decide_eq_false_2 by done. rewrite Hr. cbn [mbind option_bind].
    replace (Z.abs n) with n by lia.
    by rewrite (proj2 (Z.leb_le _ _)), (proj2 (Z.ltb_lt _ _)) by lia.
Qed.

(** ** Where a value ends does not depend on what follows *)

(** What may follow a value inside a text. *)
Definition stop (t : bytes) : Prop :=
  match t with [] => True | c :: _ => c = ","%char ∨ c = "}"%char ∨ c = "]"%char end.

Ltac stop_cases t Hs :=
  destruct t as [|? ?]; [|destruct Hs as [->|[->| ->]]].

Lemma skip_ws_app p t : stop t → skip_ws (p ++ t) = skip_ws p ++ t.
Proof.
  intros Hs. induction p as [|c p IH]; cbn; [|by destruct (is_ws c)].
  by stop_cases t Hs.
Qed.

Lemma skip_string_app n : ∀ p t r,
  (length p ≤ n)%nat → skip_string p = Some r → skip_string (p ++ t) = Some (r ++ t).
Proof.
  induction n as [|n IH]; intros [|c p] t r Hl H; cbn [length] in Hl; [done|lia|done|].
  cbn [app]. cbn [skip_string] in *.
  destruct (Ascii.eqb c dquote); [by simplify_eq|].
  destruct (Ascii.eqb c backslash); [|destruct (code c <? 32); [done|apply IH; [lia|done]]].
  destruct p as [|e p]; [done|]. cbn [app].
  destruct (Ascii.eqb e "u"%char) eqn:He.
  - apply Ascii.eqb_eq in He as ->.
    destruct p as [|h1 [|h2 [|h3 [|h4 p]]]]; [done..|]. cbn [app].
    destruct (hex4 h1 h2 h3 h4); [|done]. apply IH; [cbn in Hl; lia|done].
  - assert (∀ q, match e :: q with
      | "u"%char :: h1 :: h2 :: h3 :: h4 :: p =>
        match hex4 h1 h2 h3 h4 with Some _ => skip_string p | None => None end
      | e :: p => match escape_val e with Some _ => skip_string p | None => None end
      | [] => None
      end = match escape_val e with Some _ => skip_string q | None => None end) as Hq.
    { intros. clear -He. destruct e as [[] [] [] [] [] [] [] []]; done. }
    rewrite Hq in H |- *. destruct (escape_val e); [|done].
    apply IH; [cbn in Hl; lia|done].
Qed.

Lemma skip_digits_app p t : stop t → skip_digits (p ++ t) = skip_digits p ++ t.
Proof.
  intros Hs. induction p as [|c p IH]; cbn; [|by destruct (is_digit c)].
  by stop_cases t Hs.
Qed.

Lemma skip_digits1_app p t r :
  stop t → skip_digits1 p = Some r → skip_digits1 (p ++ t) = Some (r ++ t).
Proof.
  intros Hs. destruct p as [|c p]; [done|]. cbn. destruct (is_digit c); [|done].
  intros. simplify_eq. by rewrite skip_digits_app.
Qed.

Lemma skip_int_cases p :
  (∃ q, p = "0"%char :: q ∧ skip_int p = Some q) ∨
  (match p with c :: _ => Ascii.eqb c "0" = false | [] => True end ∧
   skip_int p = skip_digits1 p).
Proof.
  destruct p as [|c p]; [by right|].
  destruct c as [[] [] [] [] [] [] [] []]; ((left; by eexists) || by right).
Qed.

Lemma skip_int_app p t r :
  stop t → skip_int p = Some r → skip_int (p ++ t) = Some (r ++ t).
Proof.
  intros Hs H. destruct (skip_int_cases p) as [(q & -> & Hq)|[Hc Hq]]; rewrite Hq in H.
  - by simplify_eq.
  - destruct p as [|c p]; [done|].
    destruct (skip_int_cases ((c :: p) ++ t)) as [(q' & [= ->] & _)|[_ ->]]; [done|].
    by apply skip_digits1_app.
Qed.

Lemma skip_frac_app p t r :
  stop t → skip_frac p = Some r → skip_frac (p ++ t) = Some (r ++ t).
Proof.
  intros Hs. destruct p as [|c p]; [cbn; intros; simplify_eq; by stop_cases t Hs|].
  destruct (Ascii.eqb c ".") eqn:Hc.
  - apply Ascii.eqb_eq in Hc as ->. by apply skip_digits1_app.
  - intros H. assert (∀ q, skip_frac (c :: q) = Some (c :: q)) as Hq.
    { intros. clear -Hc. destruct c as [[] [] [] [] [] [] [] []]; done. }
    rewrite Hq in H. cbn [app]. rewrite Hq. by simplify_eq.
Qed.

Lemma skip_exp_app p t r :
  stop t → skip_exp p = Some r → skip_exp (p ++ t) = Some (r ++ t).
Proof.
  intros Hs. destruct p as [|c p]; [cbn; intros; simplify_eq; by stop_cases t Hs|].
  cbn [app]. cbn [skip_exp].
  destruct (Ascii.eqb c "e" || Ascii.eqb c "E"); [|by intros; simplify_eq].
  destruct p as [|s p]; [done|]. cbn [app].
  destruct (Ascii.eqb s "+" || Ascii.eqb s "-"); [by apply skip_digits1_app|].
  apply (skip_digits1_app (s :: p)). done.
Qed.

Lemma skip_number_app p t r :
  stop t → skip_number p = Some r → skip_number (p ++ t) = Some (r ++ t).
Proof.
  intros Hs. unfold skip_number.
  assert (match p with "-"%char :: q => q | _ => p end ++ t =
          match p ++ t with "-"%char :: q => q | _ => p ++ t end) as <-.
  { destruct p as [|c p]; [by stop_cases t Hs|].
    destruct c as [[] [] [] [] [] [] [] []]; done. }
  destruct (skip_int _) as [p1|] eqn:H1; [|done]. rewrite (skip_int_app _ _ _ Hs H1).
  cbn [mbind option_bind].
  destruct (skip_frac p1) as [p2|] eqn:H2; [|done]. rewrite (skip_frac_app _ _ _ Hs H2).
  by apply skip_exp_app.
Qed.

Lemma skip_lit_app l p t r : skip_lit l p = Some r → skip_lit l (p ++ t) = Some (r ++ t).
Proof.
  revert p. induction l as [|a l IH]; intros [|c p] H; cbn in *; try by simplify_eq.
  destruct (Ascii.eqb a c); [|done]. by apply IH.
Qed.

Lemma after_app c p q t : after c p = Some q → after c (p ++ t) = Some (q ++ t).
Proof.
  destruct p as [|a p]; [done|]. cbn. destruct (Ascii.eqb a c); [|done]. by intros; simplify_eq.
Qed.

Lemma after_app_None c p t : after c p = None → p ≠ [] → after c (p ++ t) = None.
Proof. destruct p as [|a p]; [done|]. cbn. by destruct (Ascii.eqb a c). Qed.

Lemma after_cons c p : after c (c :: p) = Some p.
Proof. cbn. by rewrite Ascii.eqb_refl. Qed.

(** The end of a list of members or elements. *)
Lemma separated_app (f g : bytes → option bytes) close p t r :
  stop t →
  (∀ q, f q = Some r → g (q ++ t) = Some (r ++ t)) →
  match after "," (skip_ws p) with
  | Some q => f (skip_ws q) | None => after close (skip_ws p) end = Some r →
  match after "," (skip_ws (p ++ t)) with
  | Some q => g (skip_ws q) | None => after close (skip_ws (p ++ t)) end = Some (r ++ t).
Proof.
  intros Hs Hfg. rewrite skip_ws_app by done.
  destruct (after "," (skip_ws p)) as [q|] eqn:Ha.
  - rewrite (after_app _ _ _ _ Ha), skip_ws_app by done. apply Hfg.
  - intros Hc. destruct (decide (skip_ws p = [])) as [He|He]; [by rewrite He in Hc|].
    rewrite (after_app_None _ _ _ Ha He). by apply after_app.
Qed.

(** An array or object that is not empty. *)
Lemma opened_app (f g : bytes → option bytes) close p t r :
  stop t →
  f [] = None →
  (∀ q, f q = Some r → g (q ++ t) = Some (r ++ t)) →
  match after close (skip_ws p) with Some q => Some q | None => f (skip_ws p) end = Some r →
  match after close (skip_ws (p ++ t)) with
  | Some q => Some q | None => g (skip_ws (p ++ t)) end = Some (r ++ t).
Proof.
  intros Hs Hnil Hfg. rewrite skip_ws_app by done.
  destruct (after close (skip_ws p)) as [q|] eqn:Ha.
  - rewrite (after_app _ _ _ _ Ha). by intros [= ->].
  - intros Hc. destruct (decide (skip_ws p = [])) as [He|He]; [by rewrite He, Hnil in Hc|].
    rewrite (after_app_None _ _ _ Ha He). by apply Hfg.
Qed.

Lemma skip_members_nil fuel depth : skip_members fuel depth [] = None.
Proof. by destruct fuel. Qed.

Lemma skip_elements_nil fuel depth : skip_elements fuel depth [] = None.
Proof. by destruct fuel as [|[|fuel]]. Qed.

Lemma skip_value_app fuel : ∀ fuel' depth depth' p t r,
  (fuel ≤ fuel')%nat → depth ≤ depth' → stop t →
  (skip_value fuel depth p = Some r → skip_value fuel' depth' (p ++ t) = Some (r ++ t)) ∧
  (skip_members fuel depth p = Some r → skip_members fuel' depth' (p ++ t) = Some (r ++ t)) ∧
  (skip_elements fuel depth p = Some r →
     skip_elements fuel' depth' (p ++ t) = Some (r ++ t)).
Proof.
  induction fuel as [|fuel IH]; intros [|fuel'] depth depth' p t r Hf Hd Hs;
    [done|done|lia|].
  split_and!.
  - destruct p as [|c p]; [done|]. cbn [app]. cbn [skip_value].
    destruct (Ascii.eqb c "{"); [|destruct (Ascii.eqb c "[")].
    + destruct (Z.leb_spec depth 0); [done|]. rewrite (proj2 (Z.leb_gt _ _)) by lia.
      apply opened_app; [done|apply skip_members_nil|]. intros q. apply IH; [lia|lia|done].
    + destruct (Z.leb_spec depth 0); [done|]. rewrite (proj2 (Z.leb_gt _ _)) by lia.
      apply opened_app; [done|apply skip_elements_nil|]. intros q. apply IH; [lia|lia|done].
    + repeat case_match; try apply skip_lit_app; [by eapply skip_string_app|].
      by apply (skip_number_app (c :: p)).
  - cbn [skip_members]. destruct (after dquote p) as [p1|] eqn:H1; [|done].
    rewrite (after_app _ _ _ _ H1). cbn [mbind option_bind].
    destruct (skip_string p1) as [p2|] eqn:H2; [|done].
    rewrite (skip_string_app _ _ _ _ (le_n _) H2). cbn [mbind option_bind].
    destruct (after ":" (skip_ws p2)) as [p3|] eqn:H3; [|done].
    rewrite skip_ws_app, (after_app _ _ _ _ H3) by done. cbn [mbind option_bind].
    destruct (skip_value fuel depth (skip_ws p3)) as [p4|] eqn:H4; [|done].
    rewrite skip_ws_app by done.
    rewrite (proj1 (IH fuel' depth depth' _ t _ ltac:(lia) Hd Hs) H4). cbn [mbind option_bind].
    apply separated_app; [done|]. intros q. apply IH; [lia|lia|done].
  - cbn [skip_elements].
    destruct (skip_value fuel depth p) as [p4|] eqn:H4; [|done].
    rewrite (proj1 (IH fuel' depth depth' _ t _ ltac:(lia) Hd Hs) H4). cbn [mbind option_bind].
    apply separated_app; [done|]. intros q. apply IH; [lia|lia|done].
Qed.

(** ** Values that are written *)

(** A value and nothing else. *)
Definition bare (depth : Z) (v : bytes) : Prop := value_end depth v = Some [].

#[export] Instance bare_dec depth v : Decision (bare depth v).
Proof. unfold bare. apply _. Defined.

(** White space does not start a value. *)
Lemma skip_value_ws fuel depth c p : is_ws c = true → skip_value fuel depth (c :: p) = None.
Proof.
  intros Hc. destruct fuel as [|fuel]; [done|].
  destruct c as [[] [] [] [] [] [] [] []]; done.
Qed.

Lemma bare_skip_ws depth v t : bare depth v → skip_ws (v ++ t) = v ++ t.
Proof.
  unfold bare, value_end. intros Hv. destruct v as [|c v]; [done|]. cbn [app skip_ws].
  destruct (is_ws c) eqn:Hc; [|done]. by rewrite skip_value_ws in Hv.
Qed.

Lemma bare_end fuel depth depth' v t :
  bare depth v → depth ≤ depth' → stop t → (length v < fuel)%nat →
  skip_value fuel depth' (v ++ t) = Some t.
Proof.
  intros Hv Hd Hs Hf. change t with ([] ++ t) at 2.
  eapply skip_value_app; [exact Hf|exact Hd|done|exact Hv].
Qed.

Lemma bare_value_end depth v t :
  bare depth v → depth ≤ maxNestingDepth → stop t →
  value_end maxNestingDepth (v ++ t) = Some t.
Proof. intros. eapply bare_end; try done. rewrite length_app. lia. Qed.

Lemma quote_bare depth s : utf8_Valid s = true → bare depth (quote s).
Proof. intros Hs. unfold bare, value_end, quote. cbn. by rewrite skip_string_quote_body. Qed.

Lemma FormatInt_bare depth n : - 2 ^ 63 ≤ n < 2 ^ 63 → bare depth (FormatInt n).
Proof.
  intros Hn. destruct (FormatInt_spec n Hn) as (c & ds & He & _ & Hd & Hz). rewrite He.
  assert (skip_int (c :: ds) = Some []) as Hi.
  { destruct (skip_int_cases (c :: ds)) as [(q & [= -> ->] & Hq)|[_ ->]].
    - rewrite Hq. f_equal. by apply Hz.
    - inversion Hd as [|? ? Hc Hds]; subst. cbn. rewrite (Is_true_true_1 _ Hc). f_equal.
      clear -Hds. induction Hds as [|d ds Hc Hds IH]; [done|]. cbn.
      by rewrite (Is_true_true_1 _ Hc). }
  assert (is_digit c) as Hc by by inversion Hd.
  assert (∀ p, match c :: p with "-"%char :: q => q | _ => c :: p end = c :: p) as Hm.
  { intros. clear -Hc. by destruct c as [[] [] [] [] [] [] [] []]. }
  assert (skip_number ((if n <? 0 then ["-"%char] else []) ++ c :: ds) = Some []) as Hnum.
  { unfold skip_number. destruct (n <? 0); cbn [app]; rewrite ?Hm, Hi; done. }
  unfold bare, value_end. destruct (n <? 0); cbn [app length skip_value] in *; [done|].
  clear -Hnum Hc. by destruct c as [[] [] [] [] [] [] [] []].
Qed.

(** ** Objects that are written *)

Definition written_member (m : bytes * bytes) : bytes :=
  dquote :: m.1 ++ dquote :: ":"%char :: m.2.

Fixpoint written_members (ms : list (bytes * bytes)) : bytes :=
  match ms with
  | [] => []
  | [m] => written_member m
  | m :: ms => written_member m ++ ","%char :: written_members ms
  end.

Definition written_object (ms : list (bytes * bytes)) : bytes :=
  "{"%char :: written_members ms ++ ["}"%char].

(** A member with a key that needs no escape and a value that stands alone. *)
Definition good_member (depth : Z) (m : bytes * bytes) : Prop :=
  (∀ t, skip_string (m.1 ++ dquote :: t) = Some t) ∧ bare depth m.2.

Lemma before_app p q : before (p ++ q) q = p.
Proof.
  unfold before. rewrite length_app. replace (_ - _)%nat with (length p) by lia.
  by rewrite take_app_length.
Qed.

Lemma stop_skip_ws t : stop t → skip_ws t = t.
Proof. intros Hs. by stop_cases t Hs. Qed.

Section written.
Context (depth : Z) (Hdepth : depth ≤ maxNestingDepth).

(** The member in front of a text, for the scanner and for the decoder. *)
Lemma skip_member fuel m t :
  good_member depth m → stop t → (length (written_member m) < S fuel)%nat →
  skip_members (S fuel) depth (written_member m ++ t) =
  match after "," t with
  | Some p5 => skip_members fuel depth (skip_ws p5) | None => after "}" t end.
Proof.
  intros [Hk Hv] Hs Hf. unfold written_member in *. cbn [length app] in *.
  rewrite length_app in Hf. cbn [length] in Hf.
  cbn [skip_members]. rewrite after_cons. cbn [mbind option_bind]. rewrite <-app_assoc.
  cbn [app]. rewrite Hk. cbn [mbind option_bind]. change (skip_ws (":"%char :: ?x)) with (":"%char :: x).
  rewrite after_cons. cbn [mbind option_bind]. rewrite (bare_skip_ws _ _ _ Hv).
  rewrite (bare_end fuel depth depth) by (done || lia). cbn [mbind option_bind].
  by rewrite (stop_skip_ws t).
Qed.

Lemma read_member fuel m t :
  good_member depth m → stop t →
  members (S fuel) (written_member m ++ t) =
  match after "," t with
  | Some p5 => ms ← members fuel p5; Some (m :: ms)
  | None => _ ← after "}" t; Some [m] end.
Proof.
  intros [Hk Hv] Hs. unfold written_member.
  cbn [members app]. change (skip_ws (dquote :: ?x)) with (dquote :: x).
  rewrite after_cons. cbn [mbind option_bind]. rewrite <-app_assoc.
  cbn [app]. rewrite Hk. cbn [mbind option_bind]. change (skip_ws (":"%char :: ?x)) with (":"%char :: x).
  rewrite after_cons. cbn [mbind option_bind]. rewrite (bare_skip_ws _ _ _ Hv).
  rewrite (bare_value_end depth) by done. cbn [mbind option_bind].
  rewrite (stop_skip_ws t) by done. by rewrite !before_app, <-surjective_pairing.
Qed.

Lemma written_cons m ms t :
  written_members (m :: ms) ++ "}"%char :: t =
  written_member m ++
    match ms with [] => "}"%char :: t | _ => ","%char :: written_members ms ++ "}"%char :: t end.
Proof. destruct ms; cbn [written_members]; [done|]. by rewrite <-app_assoc. Qed.

Lemma skip_ws_written m ms t :
  skip_ws (written_members (m :: ms) ++ "}"%char :: t) =
  written_members (m :: ms) ++ "}"%char :: t.
Proof. by rewrite written_cons. Qed.

Lemma after_written m ms t :
  after "}" (written_members (m :: ms) ++ "}"%char :: t) = None.
Proof. by rewrite written_cons. Qed.

Lemma skip_written_members ms : ∀ fuel t,
  ms ≠ [] → Forall (good_member depth) ms → (length (written_members ms) < fuel)%nat →
  skip_members fuel depth (written_members ms ++ "}"%char :: t) = Some t.
Proof.
  induction ms as [|m ms IH]; intros [|fuel] t Hne Hg Hf; [done|done|lia|].
  apply Forall_cons in Hg as [Hm Hg]. rewrite written_cons.
  assert (length (written_member m) < S fuel)%nat as Hlm.
  { destruct ms; cbn [written_members] in Hf; rewrite ?length_app in Hf; lia. }
  destruct ms as [|m' ms].
  - rewrite skip_member by (done || cbn; auto). cbn [after]. by rewrite Ascii.eqb_refl.
  - rewrite skip_member by (done || cbn; auto). rewrite after_cons.
    rewrite skip_ws_written. apply IH; [done|done|].
    cbn [written_members] in Hf |- *. rewrite length_app in Hf. unfold written_member in Hf at 1.
    cbn [length] in Hf. lia.
Qed.

Lemma read_written_members ms : ∀ fuel t,
  ms ≠ [] → Forall (good_member depth) ms → (length ms ≤ fuel)%nat →
  members fuel (written_members ms ++ "}"%char :: t) = Some ms.
Proof.
  induction ms as [|m ms IH]; intros [|fuel] t Hne Hg Hf; [done|done|cbn in Hf; lia|].
  apply Forall_cons in Hg as [Hm Hg]. rewrite written_cons.
  destruct ms as [|m' ms].
  - rewrite read_member by (done || cbn; auto). done.
  - rewrite read_member by (done || cbn; auto). rewrite after_cons.
    rewrite IH; [done|done|done|cbn in Hf |- *; lia].
Qed.
End written.

Lemma length_written_members ms : (length ms ≤ length (written_members ms))%nat.
Proof.
  induction ms as [|m [|m' ms] IH]; [done|cbn; lia|].
  change (length (m :: m' :: ms)) with (S (length (m' :: ms))).
  change (written_members (m :: m' :: ms))
    with (written_member m ++ ","%char :: written_members (m' :: ms)).
  rewrite length_app. cbn [length]. cbn [length] in IH. lia.
Qed.

(** What is written is a valid text, whose members are found. *)
Lemma Valid_written depth ms :
  0 < depth → ms ≠ [] → Forall (good_member (depth - 1)) ms →
  Valid_at depth (written_object ms) = true.
Proof.
  intros Hd Hne Hg. unfold Valid_at, value_end, written_object.
  change (skip_ws ("{"%char :: ?x)) with ("{"%char :: x).
  cbn [skip_value]. rewrite (proj2 (Z.leb_gt _ _)) by lia. cbn [Ascii.eqb Bool.eqb].
  destruct ms as [|m ms]; [done|].
  rewrite skip_ws_written, after_written. rewrite skip_written_members; [done|done|done|].
  cbn [length]. rewrite length_app. lia.
Qed.

Lemma object_members_written depth ms :
  depth ≤ maxNestingDepth → ms ≠ [] → Forall (good_member depth) ms →
  object_members (written_object ms) = Some ms.
Proof.
  intros Hd Hne Hg. unfold object_members, written_object. rewrite after_cons.
  cbn [mbind option_bind]. destruct ms as [|m ms]; [done|].
  rewrite skip_ws_written, after_written. eapply read_written_members; [done|done|done|].
  rewrite length_app. pose proof (length_written_members (m :: ms)). lia.
Qed.
