(* ===== verification/JsonLine.v ===== *)
(** JSON texts on one line: neither a quoted string nor the compact form of a valid
    text holds a line break, whatever the string or the text. *)

From S2P Require Import Prelude WalRecord Json.

Local Open Scope Z_scope.

(** ** Strings *)

Lemma quote_body_lines p : newline ∉ quote_body p.
Proof.
  enough (∀ n p, (length p ≤ n)%nat → newline ∉ quote_body p) as H by by eapply H.
  assert (∀ c (q : bytes), 128 ≤ code c → newline ∉ q → newline ∉ c :: q) as Hhigh.
  { intros c q Hc Hq [He|Hin]%elem_of_cons; [|done].
    destruct (high_not c Hc) as (_ & _ & _ & Hn). by apply Hn. }
  assert (∀ q : bytes, newline ∉ q → newline ∉ escaped_invalid ++ q) as Hinv.
  { intros q Hq [Hin|?]%elem_of_app; [|done]. revert Hin.
    by apply (bool_decide_eq_true_1 (_ ∉ _)). }
  clear p. induction n as [|n IH]; intros [|c p] Hl; cbn in Hl;
    [by intros ?%elem_of_nil|lia|by intros ?%elem_of_nil|].
  cbn [quote_body]. destruct (utf8_first c) as [[[k lo] hi]|] eqn:Hf; [|apply Hinv, IH; lia].
  pose proof (utf8_first_cases _ _ _ _ Hf) as Hc. pose proof (cont_high lo hi) as Hh.
  destruct k as [|[|[|[|k]]]]; [| | | |lia].
  - destruct (quote_byte_back c ltac:(lia)) as (_ & _ & Hn). intros [?|Hin]%elem_of_app; [done|].
    revert Hin. apply IH. lia.
  - destruct p as [|c1 p]; [apply Hinv, IH; cbn; lia|].
    destruct (cont lo hi c1) eqn:Hc1; [|apply Hinv, IH; lia].
    specialize (Hh _ Hc1). cbn in Hl. apply Hhigh; [lia|]. apply Hhigh; [lia|]. apply IH. lia.
  - destruct p as [|c1 [|c2 p]]; [apply Hinv, IH; cbn in *; lia..|].
    destruct (cont lo hi c1 && cont 128 191 c2) eqn:Hk; [|apply Hinv, IH; lia].
    apply andb_true_iff in Hk as [Hc1 Hc2]. specialize (Hh _ Hc1). cbn in Hl.
    apply (cont_high _ _ _) in Hc2; [|lia]. destruct (is_separator c c1 c2) eqn:Hs.
    + apply separator_inv in Hs as (_ & _ & Hs). intros [Hin|Hin]%elem_of_app.
      * destruct Hs as [-> | ->]; revert Hin; by apply (bool_decide_eq_true_1 (_ ∉ _)).
      * revert Hin. apply IH. lia.
    + cbn [app]. do 3 (apply Hhigh; [lia|]). apply IH. lia.
  - destruct p as [|c1 [|c2 [|c3 p]]]; [apply Hinv, IH; cbn in *; lia..|].
    destruct (cont lo hi c1 && cont 128 191 c2 && cont 128 191 c3) eqn:Hk;
      [|apply Hinv, IH; lia].
    rewrite !andb_true_iff in Hk. destruct Hk as [[Hc1 Hc2] Hc3]. specialize (Hh _ Hc1).
    apply (cont_high _ _ _) in Hc2, Hc3; [|lia..]. cbn in Hl.
    do 4 (apply Hhigh; [lia|]). apply IH. lia.
Qed.

(** ** compact *)

(** A line break in the rest of the output. *)
Definition breaks (m : cmode) (p : bytes) : Prop := newline ∈ compact_from m p.

Lemma breaks_nil m : breaks m [] → False.
Proof. apply not_elem_of_nil. Qed.

Lemma kept_not m c : c ≠ newline ∨ m = Outside → newline ∉ kept m c.
Proof.
  intros Hc Hin. destruct m; cbn in Hin.
  - destruct (is_ws c) eqn:Hw; [by apply elem_of_nil in Hin|].
    apply list_elem_of_singleton in Hin as <-. done.
  - apply list_elem_of_singleton in Hin as <-. by destruct Hc.
  - apply list_elem_of_singleton in Hin as <-. by destruct Hc.
Qed.

Lemma hex_not c : newline ∉ [backslash; "u"%char; "0"%char; "0"%char;
                             lower_hex (code c / 16); lower_hex (code c mod 16)].
Proof.
  destruct c as [[] [] [] [] [] [] [] []]; by apply (bool_decide_eq_true_1 (_ ∉ _)).
Qed.

(** One character of the input. *)
Lemma breaks_cons m c p :
  m ≠ Escaped ∨ code c ≠ 226 → c ≠ newline ∨ m = Outside →
  breaks m (c :: p) → breaks (next_mode m c) p.
Proof.
  intros Hm Hc. unfold breaks. cbn [compact_from].
  destruct (html c); [intros [Hin|]%elem_of_app; [by apply hex_not in Hin|done]|].
  destruct p as [|c1 [|c2 p]];
    [intros [Hin|]%elem_of_app; [by apply kept_not in Hin|done]..|].
  destruct (is_separator c c1 c2) eqn:Hs;
    [|intros [Hin|]%elem_of_app; [by apply kept_not in Hin|done]].
  apply separator_inv in Hs as (-> & -> & Hc2). destruct Hm as [Hm|Hm]; [|done].
  intros [Hin|Hin]%elem_of_app.
  - exfalso. destruct Hc2 as [-> | ->]; revert Hin; by apply (bool_decide_eq_true_1 (_ ∉ _)).
  - assert (next_mode m (char 226) = m) as ->.
    { destruct m; [reflexivity|reflexivity|by destruct Hm]. }
    assert (∀ q, kept m (char 128) ++ q = char 128 :: q ∧ kept m c2 ++ q = c2 :: q ∧
                 next_mode m (char 128) = m ∧ next_mode m c2 = m) as Hk.
    { intros q. destruct m; [| |by destruct Hm]; destruct Hc2 as [-> | ->]; done. }
    assert (∀ d q, is_separator (char 128) d q = false ∧ is_separator c2 d q = false) as Hn.
    { intros d q. split; [done|]. by destruct Hc2 as [-> | ->]. }
    assert (compact_from m (char 128 :: c2 :: p) = char 128 :: c2 :: compact_from m p) as ->.
    { assert (compact_from m (c2 :: p) = c2 :: compact_from m p) as H2.
      { cbn [compact_from]. assert (html c2 = false) as -> by by destruct Hc2 as [-> | ->].
        destruct p as [|d1 [|d2 p]]; rewrite ?(proj2 (Hn _ _));
          by rewrite (proj1 (proj2 (Hk _))), (proj2 (proj2 (proj2 (Hk [])))). }
      rewrite <-H2. cbn [compact_from].
      change (html (char 128)) with false. cbn iota.
      destruct p as [|d1 p]; rewrite ?(proj1 (Hn _ _));
        by rewrite (proj1 (Hk _)), (proj1 (proj2 (proj2 (Hk [])))). }
    by do 2 right.
Qed.

(** A character that the scanner reads inside a string. *)
Lemma breaks_plain c p :
  Ascii.eqb c dquote = false → Ascii.eqb c backslash = false → c ≠ newline →
  breaks InString (c :: p) → breaks InString p.
Proof.
  intros Hq Hb Hn Hin. apply breaks_cons in Hin; [|by left..].
  cbn [next_mode] in Hin. by rewrite Hq, Hb in Hin.
Qed.

Lemma hex_plain c v : hex_val c = Some v →
  Ascii.eqb c dquote = false ∧ Ascii.eqb c backslash = false ∧ c ≠ newline.
Proof.
  intros Hv. assert (is_Some (hex_val c)) as Hc by eauto. clear v Hv.
  destruct c as [[] [] [] [] [] [] [] []]; try done; by destruct Hc.
Qed.

Lemma hex4_plain a b c d v p : hex4 a b c d = Some v →
  breaks InString (a :: b :: c :: d :: p) → breaks InString p.
Proof.
  unfold hex4. intros Hv. destruct (hex_val a) eqn:Ha, (hex_val b) eqn:Hb,
    (hex_val c) eqn:Hc, (hex_val d) eqn:Hd; try done.
  apply hex_plain in Ha as (? & ? & ?), Hb as (? & ? & ?), Hc as (? & ? & ?),
    Hd as (? & ? & ?).
  intros Hin. by do 4 (apply breaks_plain in Hin; [|done..]).
Qed.

Lemma escape_not e x : escape_val e = Some x → code e ≠ 226 ∧ e ≠ newline.
Proof.
  intros Hv. assert (is_Some (escape_val e)) as He by eauto. clear x Hv.
  destruct e as [[] [] [] [] [] [] [] []]; try done; by destruct He.
Qed.

Lemma skip_string_lines n : ∀ p r,
  (length p ≤ n)%nat → skip_string p = Some r → breaks InString p → breaks Outside r.
Proof.
  induction n as [|n IH]; intros [|c p] r Hl H Hin; cbn [length] in Hl; [done|lia|done|].
  cbn [skip_string] in H. destruct (Ascii.eqb c dquote) eqn:Hq.
  { apply Ascii.eqb_eq in Hq as ->. simplify_eq.
    apply (breaks_cons InString) in Hin; [done|by left..]. }
  destruct (Ascii.eqb c backslash) eqn:Hb.
  2: { destruct (Z.ltb_spec (code c) 32) as [|Hc]; [done|].
       eapply IH; [|exact H|]; [lia|]. eapply breaks_plain; [exact Hq|exact Hb| |exact Hin].
       intros ->. by vm_compute in Hc. }
  apply Ascii.eqb_eq in Hb as ->. apply (breaks_cons InString) in Hin; [|by left..].
  change (next_mode InString backslash) with Escaped in Hin.
  destruct p as [|e p]; [done|]. cbn in Hl.
  destruct (Ascii.eqb e "u"%char) eqn:He.
  - apply Ascii.eqb_eq in He as ->. apply (breaks_cons Escaped) in Hin; [|by right|by left].
    destruct p as [|h1 [|h2 [|h3 [|h4 p]]]]; [done..|].
    destruct (hex4 h1 h2 h3 h4) eqn:Hh; [|done]. eapply IH; [|exact H|]; [cbn in Hl; lia|].
    by eapply hex4_plain.
  - assert (match escape_val e with Some _ => skip_string p | None => None end = Some r) as Hx.
    { rewrite <-H. clear -He. destruct e as [[] [] [] [] [] [] [] []]; done. }
    destruct (escape_val e) eqn:Hev; [|done]. apply escape_not in Hev as [Hne Hnl].
    apply (breaks_cons Escaped) in Hin; [|by right|by left].
    eapply IH; [|exact Hx|done]. lia.
Qed.

(** A character outside a string. *)
Lemma breaks_outside c p :
  Ascii.eqb c dquote = false → breaks Outside (c :: p) → breaks Outside p.
Proof.
  intros Hq Hin. apply breaks_cons in Hin; [|by left|by right].
  cbn [next_mode] in Hin. by rewrite Hq in Hin.
Qed.

Lemma breaks_quote p : breaks Outside (dquote :: p) → breaks InString p.
Proof. intros Hin. apply breaks_cons in Hin; [done|by left|by right]. Qed.

Lemma skip_ws_lines p : breaks Outside p → breaks Outside (skip_ws p).
Proof.
  induction p as [|c p IH]; [done|]. intros Hin. cbn. destruct (is_ws c) eqn:Hw; [|done].
  apply IH. eapply breaks_outside; [|exact Hin]. apply Ascii.eqb_neq. intros ->. done.
Qed.

Lemma after_lines c p q :
  after c p = Some q → Ascii.eqb c dquote = false → breaks Outside p → breaks Outside q.
Proof.
  destruct p as [|a p]; [done|]. cbn. destruct (Ascii.eqb a c) eqn:Ha; [|done].
  apply Ascii.eqb_eq in Ha as ->. intros [= ->] Hc. by apply breaks_outside.
Qed.

Lemma after_quote_lines p q : after dquote p = Some q → breaks Outside p → breaks InString q.
Proof.
  destruct p as [|a p]; [done|]. cbn. destruct (Ascii.eqb a dquote) eqn:Ha; [|done].
  apply Ascii.eqb_eq in Ha as ->. intros [= ->]. apply breaks_quote.
Qed.

Lemma digit_not_quote c : is_digit c = true → Ascii.eqb c dquote = false.
Proof. destruct c as [[] [] [] [] [] [] [] []]; done. Qed.

Lemma skip_digits_lines p : breaks Outside p → breaks Outside (skip_digits p).
Proof.
  induction p as [|c p IH]; [done|]. intros Hin. cbn. destruct (is_digit c) eqn:Hd; [|done].
  apply IH. eapply breaks_outside; [by apply digit_not_quote|done].
Qed.

Lemma skip_digits1_lines p r : skip_digits1 p = Some r → breaks Outside p → breaks Outside r.
Proof.
  destruct p as [|c p]; [done|]. cbn. destruct (is_digit c) eqn:Hd; [|done]. intros [= <-] Hin.
  apply skip_digits_lines. eapply breaks_outside; [by apply digit_not_quote|done].
Qed.

(** One character may be passed over, or not. *)
Lemma skip_number_lines p r : skip_number p = Some r → breaks Outside p → breaks Outside r.
Proof.
  intros H Hin. unfold skip_number in H.
  assert (breaks Outside match p with "-"%char :: q => q | _ => p end) as Hin1.
  { destruct p as [|c p]; [done|]. clear -Hin. destruct c as [[] [] [] [] [] [] [] []]; try done.
    eapply breaks_outside; [|exact Hin]. done. }
  destruct (skip_int _) as [p1|] eqn:H1; [|done]. cbn [mbind option_bind] in H.
  assert (breaks Outside p1) as Hin2.
  { revert H1 Hin1. generalize (match p with "-"%char :: q => q | _ => p end). clear.
    intros q H1 Hin1. destruct q as [|c q]; [done|].
    destruct (Ascii.eqb c "0") eqn:Hc.
    - apply Ascii.eqb_eq in Hc as ->. cbn in H1. simplify_eq.
      eapply breaks_outside; [|exact Hin1]. done.
    - apply (skip_digits1_lines (c :: q)); [|done]. rewrite <-H1. clear -Hc.
      destruct c as [[] [] [] [] [] [] [] []]; done. }
  destruct (skip_frac p1) as [p2|] eqn:H2; [|done]. cbn [mbind option_bind] in H.
  assert (breaks Outside p2) as Hin3.
  { clear -H2 Hin2. destruct p1 as [|c q]; [by apply breaks_nil in Hin2|].
    destruct (Ascii.eqb c ".") eqn:Hc.
    - apply Ascii.eqb_eq in Hc as ->. eapply skip_digits1_lines; [exact H2|].
      eapply breaks_outside; [|exact Hin2]. done.
    - assert (Some (c :: q) = Some p2) as [= <-]; [|done]. rewrite <-H2. clear -Hc.
      destruct c as [[] [] [] [] [] [] [] []]; done. }
  clear -H Hin3. destruct p2 as [|c q]; [by apply breaks_nil in Hin3|]. cbn [skip_exp] in H.
  destruct (Ascii.eqb c "e" || Ascii.eqb c "E") eqn:Hc; [|by simplify_eq].
  assert (breaks Outside q) as Hin.
  { eapply breaks_outside; [|exact Hin3]. apply Ascii.eqb_neq. by intros ->. }
  destruct q as [|s q]; [done|].
  destruct (Ascii.eqb s "+" || Ascii.eqb s "-") eqn:Hs;
    [|by apply (skip_digits1_lines (s :: q))].
  eapply skip_digits1_lines; [exact H|]. eapply breaks_outside; [|exact Hin].
  apply Ascii.eqb_neq. by intros ->.
Qed.

Lemma skip_lit_lines l p r :
  Forall (λ a, Ascii.eqb a dquote = false) l →
  skip_lit l p = Some r → breaks Outside p → breaks Outside r.
Proof.
  intros Hl. revert p. induction Hl as [|a l Ha Hl IH]; intros [|c p] H Hin; cbn in H;
    try by simplify_eq.
  destruct (Ascii.eqb a c) eqn:Hc; [|done]. apply Ascii.eqb_eq in Hc as ->.
  eapply IH; [exact H|]. eapply breaks_outside; [exact Ha|exact Hin].
Qed.

(** A value. *)
Lemma separated_lines (f : bytes → option bytes) close p r :
  Ascii.eqb close dquote = false →
  (∀ q, f q = Some r → breaks Outside q → breaks Outside r) →
  match after "," (skip_ws p) with
  | Some q => f (skip_ws q) | None => after close (skip_ws p) end = Some r →
  breaks Outside p → breaks Outside r.
Proof.
  intros Hc Hf H Hin%skip_ws_lines. destruct (after "," (skip_ws p)) as [q|] eqn:Ha.
  - eapply Hf; [exact H|]. apply skip_ws_lines. by eapply after_lines.
  - by eapply after_lines.
Qed.

Lemma opened_lines (f : bytes → option bytes) close p r :
  Ascii.eqb close dquote = false →
  (∀ q, f q = Some r → breaks Outside q → breaks Outside r) →
  match after close (skip_ws p) with Some q => Some q | None => f (skip_ws p) end = Some r →
  breaks Outside p → breaks Outside r.
Proof.
  intros Hc Hf H Hin%skip_ws_lines. destruct (after close (skip_ws p)) as [q|] eqn:Ha.
  - simplify_eq. by eapply after_lines.
  - by eapply Hf.
Qed.

Lemma skip_value_lines fuel : ∀ depth p r,
  (skip_value fuel depth p = Some r → breaks Outside p → breaks Outside r) ∧
  (skip_members fuel depth p = Some r → breaks Outside p → breaks Outside r) ∧
  (skip_elements fuel depth p = Some r → breaks Outside p → breaks Outside r).
Proof.
  induction fuel as [|fuel IH]; intros depth p r; [done|].
  split_and!.
  - destruct p as [|c p]; [done|]. cbn [skip_value]. intros H Hin.
    destruct (Ascii.eqb c dquote) eqn:Hq.
    { apply Ascii.eqb_eq in Hq as ->. eapply skip_string_lines; [reflexivity|exact H|].
      by apply breaks_quote. }
    pose proof (breaks_outside _ _ Hq Hin) as Hin1.
    destruct (Ascii.eqb c "{"); [|destruct (Ascii.eqb c "[")].
    + destruct (depth <=? 0); [done|]. eapply opened_lines; [| |exact H|exact Hin1]; [done|].
      intros q. apply IH.
    + destruct (depth <=? 0); [done|]. eapply opened_lines; [| |exact H|exact Hin1]; [done|].
      intros q. apply IH.
    + repeat case_match; try (eapply skip_lit_lines; [|exact H|exact Hin1]; by repeat constructor).
      by apply (skip_number_lines (c :: p)).
  - cbn [skip_members]. intros H Hin. destruct (after dquote p) as [p1|] eqn:H1; [|done].
    apply (after_quote_lines _ _ H1) in Hin. cbn [mbind option_bind] in H.
    destruct (skip_string p1) as [p2|] eqn:H2; [|done]. cbn [mbind option_bind] in H.
    pose proof (skip_string_lines _ _ _ (le_n _) H2 Hin) as Hin2%skip_ws_lines.
    destruct (after ":" (skip_ws p2)) as [p3|] eqn:H3; [|done]. cbn [mbind option_bind] in H.
    eapply after_lines in Hin2; [|exact H3|done]. apply skip_ws_lines in Hin2.
    destruct (skip_value fuel depth (skip_ws p3)) as [p4|] eqn:H4; [|done].
    cbn [mbind option_bind] in H. apply (proj1 (IH _ _ _) H4) in Hin2.
    eapply separated_lines; [| |exact H|exact Hin2]; [done|]. intros q. apply IH.
  - cbn [skip_elements]. intros H Hin.
    destruct (skip_value fuel depth p) as [p4|] eqn:H4; [|done].
    cbn [mbind option_bind] in H. apply (proj1 (IH _ _ _) H4) in Hin.
    eapply separated_lines; [| |exact H|exact Hin]; [done|]. intros q. apply IH.
Qed.

Lemma compact_lines v : Valid v = true → newline ∉ compact v.
Proof.
  unfold Valid, Valid_at. destruct (value_end _ _) as [rest|] eqn:Hv; [|done].
  intros Hr%bool_decide_eq_true Hin. apply skip_ws_lines in Hin.
  apply (proj1 (skip_value_lines _ _ _ _) Hv), skip_ws_lines in Hin. rewrite Hr in Hin.
  by apply breaks_nil in Hin.
Qed.

(** ** Texts that are compact *)

Lemma compact_cons m c p :
  html c = false → code c ≠ 226 →
  compact_from m (c :: p) = kept m c ++ compact_from (next_mode m c) p.
Proof.
  intros Hh Hc. assert (∀ c1 c2, is_separator c c1 c2 = false) as Hs.
  { intros c1 c2. unfold is_separator. by rewrite (proj2 (Z.eqb_neq _ _) Hc). }
  cbn [compact_from]. rewrite Hh. by destruct p as [|c1 [|c2 p]]; rewrite ?Hs.
Qed.

(** A character that a JSON string holds as it is. *)
Definition plain_char (c : ascii) : bool :=
  (32 <=? code c) && (code c <? 127) && negb (html c) && negb (Ascii.eqb c dquote)
    && negb (Ascii.eqb c backslash).

Lemma plain_char_facts c : plain_char c = true →
  utf8_first c = Some (0%nat, 0, 0) ∧ quote_byte c = [c] ∧ html c = false ∧
  Ascii.eqb c dquote = false ∧ Ascii.eqb c backslash = false ∧ code c ≠ 226.
Proof. destruct c as [[] [] [] [] [] [] [] []]; done. Qed.

Lemma plain_quote_body p : Forall plain_char p → utf8_Valid p = true ∧ quote_body p = p.
Proof.
  induction 1 as [|c p Hc _ [IHu IHq]]; [done|]. apply Is_true_true_1, plain_char_facts in Hc.
  destruct Hc as (Hf & Hq & _). cbn [utf8_Valid quote_body]. rewrite Hf, Hq. split; [done|].
  cbn. by rewrite IHq.
Qed.

Lemma compact_plain_string p q :
  Forall plain_char p →
  compact_from InString (p ++ dquote :: q) = p ++ dquote :: compact_from Outside q.
Proof.
  induction 1 as [|c p Hc _ IH]; [cbn [app]; by rewrite compact_cons|].
  apply Is_true_true_1, plain_char_facts in Hc as (_ & _ & Hh & Hq & Hb & Hc).
  cbn [app]. rewrite compact_cons by done. cbn [kept next_mode]. by rewrite Hq, Hb, IH.
Qed.

Lemma compact_plain_quote p q :
  Forall plain_char p → compact_from Outside (quote p ++ q) = quote p ++ compact_from Outside q.
Proof.
  intros Hp. unfold quote. destruct (plain_quote_body p Hp) as [_ ->]. cbn [app].
  rewrite compact_cons by done. rewrite <-!app_assoc. cbn [app].
  change (next_mode Outside dquote) with InString. by rewrite compact_plain_string.
Qed.

Lemma compact_quote p : Forall plain_char p → compact (quote p) = quote p.
Proof.
  intros Hp. pose proof (compact_plain_quote p [] Hp) as H.
  change (compact_from Outside []) with (@nil ascii) in H. by rewrite !app_nil_r in H.
Qed.
