(* ===== verification/JsonStruct.v ===== *)
(** Go structs as JSON objects: json.Unmarshal into a struct whose fields are found by
    their names, and texts that Marshal's compact leaves as they are. *)

From S2P Require Import Prelude WalRecord Json JsonValue JsonLine.
From Stdlib Require String.

Local Open Scope Z_scope.

(** ** json.Unmarshal into a struct *)

(** foldName: letters that differ in case only are the same; two characters outside
    ASCII (U+017F and U+212A) fold to ASCII letters. *)
Definition upper (c : ascii) : ascii :=
  if (97 <=? code c) && (code c <=? 122) then char (code c - 32) else c.

Fixpoint fold_name (k : bytes) : bytes :=
  match k with
  | [] => []
  | c :: k1 =>
    match k1 with
    | c1 :: k2 =>
      if (code c =? 197) && (code c1 =? 191) then "S"%char :: fold_name k2
      else
        match k2 with
        | c2 :: k3 =>
          if (code c =? 226) && (code c1 =? 132) && (code c2 =? 170)
          then "K"%char :: fold_name k3
          else upper c :: fold_name k1
        | [] => upper c :: fold_name k1
        end
    | [] => [upper c]
    end
  end.

Definition null_text : bytes := bytes_of "null".

Section struct.
(** The fields of the struct with their names, and how the text of a value is stored in
    a field: [None] for a value of another type. *)
Context {F R : Type} (names : list (string * F)) (store : F → bytes → R → option R).

(** The field of a key: by its exact name, else by its folded name. *)
Definition find_in (key : bytes) : option F :=
  match List.find (λ nf, bool_decide (bytes_of nf.1 = key)) names with
  | Some nf => Some nf.2
  | None =>
    nf ← List.find (λ nf, bool_decide (fold_name (bytes_of nf.1) = fold_name key)) names;
    Some nf.2
  end.

(** The members one after the other; those of unknown names are skipped. *)
Fixpoint decode_members (ms : list (bytes * bytes)) (r : R) : option R :=
  match ms with
  | [] => Some r
  | (k, v) :: ms =>
    key ← unquote k;
    r ← match find_in key with Some f => store f v r | None => Some r end;
    decode_members ms r
  end.

(** json.Unmarshal(b, &r); null leaves the struct alone. *)
Definition decode_struct (b : bytes) (r : R) : option R :=
  if Valid b then
    match skip_lit null_text (skip_ws b) with
    | Some _ => Some r
    | None => ms ← object_members (skip_ws b); decode_members ms r
    end
  else None.

(** ** Members that are written are read back *)

(** A name that is written as it is. *)
Definition plain_name (name : string) (f : F) : Prop :=
  (∀ t, skip_string (bytes_of name ++ dquote :: t) = Some t) ∧
  unquote (bytes_of name) = Some (bytes_of name) ∧ find_in (bytes_of name) = Some f.

Lemma decode_member name f v ms r r' :
  plain_name name f → store f v r = Some r' →
  decode_members ((bytes_of name, v) :: ms) r = decode_members ms r'.
Proof.
  intros (_ & Hu & Hf) Hs. cbn [decode_members]. rewrite Hu.
  cbn [mbind option_bind]. rewrite Hf, Hs. done.
Qed.

Lemma decode_written ms r :
  ms ≠ [] → Forall (good_member (maxNestingDepth - 1)) ms →
  decode_struct (written_object ms) r = decode_members ms r.
Proof.
  intros Hne Hg. unfold decode_struct.
  assert (Valid (written_object ms) = true) as -> by by apply Valid_written.
  change (skip_ws (written_object ms)) with (written_object ms).
  change (skip_lit null_text (written_object ms)) with (@None bytes).
  by rewrite (object_members_written (maxNestingDepth - 1)).
Qed.
End struct.

Ltac field_in := repeat (apply elem_of_cons; first [left; reflexivity | right]).

(** ** Strings *)

Definition utf8 (s : string) : bool := utf8_Valid (bytes_of s).

Lemma bytes_of_inv s : String.string_of_list_ascii (bytes_of s) = s.
Proof. apply String.string_of_list_ascii_of_string. Qed.

Lemma unquote_text_quote p : utf8_Valid p = true → unquote_text (quote p) = Some p.
Proof.
  intros Hs. unfold unquote_text, quote. rewrite Ascii.eqb_refl, removelast_last.
  by apply unquote_quote_body.
Qed.

(** Texts of plain characters and micro signs, which are written as they are. *)
Inductive plain_text : bytes → Prop :=
  | plain_nil : plain_text []
  | plain_cons c p : plain_char c = true → plain_text p → plain_text (c :: p)
  | plain_micro p : plain_text p → plain_text (char 194 :: char 181 :: p).

Lemma Forall_plain p : Forall plain_char p → plain_text p.
Proof. induction 1; constructor; [by apply Is_true_true|done]. Qed.

Lemma plain_text_quote p : plain_text p → utf8_Valid p = true ∧ quote_body p = p.
Proof.
  induction 1 as [|c p Hc _ [IHu IHq]|p _ [IHu IHq]]; [done|..].
  - apply plain_char_facts in Hc as (Hf & Hq & _). cbn [utf8_Valid quote_body].
    rewrite Hf, Hq. split; [done|]. cbn. by rewrite IHq.
  - split; [exact IHu|].
    change (quote_body (char 194 :: char 181 :: p)) with (char 194 :: char 181 :: quote_body p).
    by rewrite IHq.
Qed.

(** ** Texts that are compact *)

Definition compact_ok (v : bytes) : Prop :=
  ∀ t, compact_from Outside (v ++ t) = v ++ compact_from Outside t.

Lemma compact_ok_nil : compact_ok [].
Proof. done. Qed.

Lemma compact_ok_app p q : compact_ok p → compact_ok q → compact_ok (p ++ q).
Proof. intros Hp Hq t. by rewrite <-!app_assoc, Hp, Hq. Qed.

Lemma compact_ok_cons c p :
  html c = false → code c ≠ 226 → is_ws c = false → Ascii.eqb c dquote = false →
  compact_ok p → compact_ok (c :: p).
Proof.
  intros Hh Hc Hw Hq Hp t. cbn [app]. rewrite compact_cons by done. cbn [kept next_mode].
  by rewrite Hw, Hq, Hp.
Qed.

Lemma compact_ok_compact v : compact_ok v → compact v = v.
Proof.
  intros Hv. specialize (Hv []). change (compact_from Outside []) with (@nil ascii) in Hv.
  by rewrite !app_nil_r in Hv.
Qed.

Lemma compact_in_string p q :
  plain_text p → compact_from InString (p ++ dquote :: q) = p ++ dquote :: compact_from Outside q.
Proof.
  induction 1 as [|c p Hc _ IH|p _ IH]; [cbn [app]; by rewrite compact_cons|..].
  - apply plain_char_facts in Hc as (_ & _ & Hh & Hq & Hb & Hc).
    cbn [app]. rewrite compact_cons by done. cbn [kept next_mode]. by rewrite Hq, Hb, IH.
  - cbn [app]. rewrite !compact_cons by done.
    change (kept InString (char 194)) with [char 194].
    change (next_mode InString (char 194)) with InString.
    change (kept InString (char 181)) with [char 181].
    change (next_mode InString (char 181)) with InString. by rewrite IH.
Qed.

Lemma compact_ok_quote p : plain_text p → compact_ok (quote p).
Proof.
  intros Hp t. unfold quote. destruct (plain_text_quote p Hp) as [_ ->]. cbn [app].
  rewrite compact_cons by done. rewrite <-!app_assoc. cbn [app].
  change (next_mode Outside dquote) with InString. by rewrite compact_in_string.
Qed.

Lemma compact_ok_digits ds : Forall is_digit ds → compact_ok ds.
Proof.
  induction 1 as [|c ds Hc _ IH]; [apply compact_ok_nil|].
  destruct c as [[] [] [] [] [] [] [] []]; try done; by apply compact_ok_cons.
Qed.

Lemma compact_ok_FormatInt n : - 2 ^ 63 ≤ n < 2 ^ 63 → compact_ok (FormatInt n).
Proof.
  intros Hn. destruct (FormatInt_spec n Hn) as (c & ds & -> & _ & Hd & _).
  apply compact_ok_app; [|by apply compact_ok_digits].
  destruct (n <? 0); [by apply compact_ok_cons|apply compact_ok_nil].
Qed.

(** A member with a plain key. *)
Lemma compact_ok_member k v :
  plain_text k → compact_ok v → compact_ok (written_member (k, v)).
Proof.
  intros Hk Hv t. unfold written_member. cbn [fst snd].
  destruct (plain_text_quote k Hk) as [_ Hq].
  assert (dquote :: k ++ dquote :: ":"%char :: v = quote k ++ ":"%char :: v) as ->.
  { unfold quote. rewrite Hq. cbn [app]. by rewrite <-app_assoc. }
  apply compact_ok_app; [by apply compact_ok_quote|]. by apply compact_ok_cons.
Qed.

Lemma compact_ok_written ms :
  Forall (λ m, plain_text m.1 ∧ compact_ok m.2) ms → compact_ok (written_object ms).
Proof.
  intros Hms. unfold written_object. apply compact_ok_cons; [done..|].
  apply compact_ok_app; [|by apply compact_ok_cons, compact_ok_nil].
  induction Hms as [|[k v] ms [Hk Hv] Hms IH]; [apply compact_ok_nil|].
  destruct ms as [|m' ms]; [by apply compact_ok_member|].
  change (compact_ok (written_member (k, v) ++ ","%char :: written_members (m' :: ms))).
  apply compact_ok_app; [by apply compact_ok_member|]. by apply compact_ok_cons.
Qed.

(** ** A text that can be the value of a raw message *)

Definition plain_json (v : bytes) : Prop :=
  bare (maxNestingDepth - 1) v ∧ compact v = v.

#[export] Instance plain_json_dec v : Decision (plain_json v).
Proof. unfold plain_json. apply _. Defined.

Lemma Valid_plain v : plain_json v → Valid v = true.
Proof.
  intros [Hb _]. unfold Valid, Valid_at.
  pose proof (bare_skip_ws _ v [] Hb) as Hw. rewrite app_nil_r in Hw. rewrite Hw.
  pose proof (bare_value_end _ v [] Hb ltac:(done) I) as Hv. rewrite app_nil_r in Hv.
  by rewrite Hv.
Qed.

Lemma written_bare depth ms :
  0 < depth → ms ≠ [] → Forall (good_member (depth - 1)) ms → bare depth (written_object ms).
Proof.
  intros Hd Hne Hg. unfold bare, value_end, written_object.
  cbn [skip_value]. rewrite (proj2 (Z.leb_gt _ _)) by lia. cbn [Ascii.eqb Bool.eqb].
  destruct ms as [|m ms]; [done|].
  rewrite skip_ws_written, after_written. rewrite skip_written_members; [done|done|done|].
  cbn [length]. rewrite length_app. lia.
Qed.
