(* ===== verification/JsonText.v ===== *)
(** JSON texts of several lines, as json.Encoder writes them after SetIndent("", "  "): the
    compact text of a value with line breaks and blanks put in, and that json.Unmarshal
    reads the value back from it. *)

From S2P Require Import Prelude WalRecord Json JsonValue JsonLine JsonStruct.

Local Open Scope Z_scope.

(** ** Values *)

(** What encoding/json sees of a Go value: strings, integers, booleans, slices and
    structs or maps with the members that are written; and the text that the method
    MarshalJSON of a value returns. *)
#[warnings="-register-all"]
Inductive json :=
  | JString (s : bytes)
  | JInt (n : Z)
  | JBool (b : bool)
  | JArray (js : list json)
  | JObject (ms : list (bytes * json))
  | JRaw (v : bytes).

Fixpoint join (sep : bytes) (l : list bytes) : bytes :=
  match l with
  | [] => []
  | [v] => v
  | v :: l => v ++ sep ++ join sep l
  end.

(** json.Marshal *)
Fixpoint Marshal (j : json) : bytes :=
  match j with
  | JString s => quote s
  | JInt n => FormatInt n
  | JBool b => bytes_of (if b then "true" else "false")%string
  | JArray js => "["%char :: join [","%char] (Marshal <$> js) ++ ["]"%char]
  | JObject ms =>
    "{"%char :: join [","%char] ((λ m, quote m.1 ++ ":"%char :: Marshal m.2) <$> ms) ++ ["}"%char]
  | JRaw v => compact v
  end.

(** ** appendIndent (indent.go) *)

(** appendNewline, with two blanks for each level. *)
Definition newline_at (depth : nat) : bytes := newline :: replicate (2 * depth) " "%char.

(** The scan of a valid text: [need] is needIndent, set behind an opening bracket. *)
Fixpoint indent_from (m : cmode) (need : bool) (depth : nat) (p : bytes) : bytes :=
  match p with
  | [] => []
  | c :: p =>
    match m with
    | Outside =>
      if is_ws c then indent_from Outside need depth p else
      let closes := Ascii.eqb c "}" || Ascii.eqb c "]" in
      let begins := need && negb closes in
      let depth := if begins then S depth else depth in
      (if begins then newline_at depth else []) ++
      if Ascii.eqb c "{" || Ascii.eqb c "[" then c :: indent_from Outside true depth p
      else if Ascii.eqb c "," then
        c :: newline_at depth ++ indent_from Outside false depth p
      else if Ascii.eqb c ":" then c :: " "%char :: indent_from Outside false depth p
      else if closes then
        if need then c :: indent_from Outside false depth p
        else newline_at (pred depth) ++ c :: indent_from Outside false (pred depth) p
      else c :: indent_from (next_mode Outside c) false depth p
    | _ => c :: indent_from (next_mode m c) need depth p
    end
  end.

(** Encoder.Encode: the line break that ends the value is kept. *)
Definition Encode (j : json) : bytes := indent_from Outside false 0 (Marshal j) ++ [newline].

Example Encode_nested :
  Encode (JObject [(bytes_of "a", JArray [JInt 1; JString (bytes_of "{x, y}")]); (bytes_of "b", JArray [])]) =
  bytes_of "{" ++ newline_at 1 ++ [dquote] ++ bytes_of "a" ++ [dquote] ++ bytes_of ": [" ++
  newline_at 2 ++ bytes_of "1," ++ newline_at 2 ++ [dquote] ++ bytes_of "{x, y}" ++ [dquote] ++
  newline_at 1 ++ bytes_of "]," ++ newline_at 1 ++ [dquote] ++ bytes_of "b" ++ [dquote] ++
  bytes_of ": []" ++ newline_at 0 ++ bytes_of "}" ++ [newline].
Proof. reflexivity. Qed.

(** ** json.Unmarshal into a value of any type *)

(** The texts of the elements of an array, after its opening bracket. *)
Fixpoint elements (fuel : nat) (p : bytes) : option (list bytes) :=
  match fuel with
  | S fuel =>
    p4 ← value_end maxNestingDepth (skip_ws p);
    let v := before (skip_ws p) p4 in
    match after "," (skip_ws p4) with
    | Some p5 => vs ← elements fuel p5; Some (v :: vs)
    | None => _ ← after "]" (skip_ws p4); Some [v]
    end
  | O => None
  end.

Definition array_elements (p : bytes) : option (list bytes) :=
  p1 ← after "[" p;
  match after "]" (skip_ws p1) with
  | Some _ => Some []
  | None => elements (length p1) p1
  end.

(** The value of a text, nested at most [fuel] deep; numbers are integers. *)
Fixpoint read_value (fuel : nat) (v : bytes) : option json :=
  match fuel, v with
  | S fuel, c :: _ =>
    if Ascii.eqb c "{" then
      ms ← object_members v;
      JObject <$> mapM (λ m, k ← unquote m.1; j ← read_value fuel m.2; Some (k, j)) ms
    else if Ascii.eqb c "[" then
      vs ← array_elements v; JArray <$> mapM (read_value fuel) vs
    else if Ascii.eqb c dquote then JString <$> unquote_text v
    else if Ascii.eqb c "t" then Some (JBool true)
    else if Ascii.eqb c "f" then Some (JBool false)
    else JInt <$> ParseInt v
  | _, _ => None
  end.

Definition Unmarshal (b : bytes) : option json :=
  if Valid b then
    let v := skip_ws b in
    read_value (S (Z.to_nat maxNestingDepth)) (before v (from_option id [] (value_end maxNestingDepth v)))
  else None.

(** ** The text of a value, level by level *)

Fixpoint pretty (n : nat) (j : json) : bytes :=
  match j with
  | JString s => quote s
  | JInt z => FormatInt z
  | JBool b => bytes_of (if b then "true" else "false")%string
  | JArray [] => ["["; "]"]%char
  | JArray js =>
    "["%char :: newline_at (S n) ++ join (","%char :: newline_at (S n)) (pretty (S n) <$> js) ++
    newline_at n ++ ["]"%char]
  | JObject [] => ["{"; "}"]%char
  | JObject ms =>
    "{"%char :: newline_at (S n) ++
    join (","%char :: newline_at (S n))
      ((λ m, quote m.1 ++ ":"%char :: " "%char :: pretty (S n) m.2) <$> ms) ++
    newline_at n ++ ["}"%char]
  | JRaw v => v
  end.

Section json_ind.
Context (P : json → Prop).
Hypothesis PString : ∀ s, P (JString s).
Hypothesis PInt : ∀ n, P (JInt n).
Hypothesis PBool : ∀ b, P (JBool b).
Hypothesis PArray : ∀ js, Forall P js → P (JArray js).
Hypothesis PObject : ∀ ms, Forall (λ m, P m.2) ms → P (JObject ms).
Hypothesis PRaw : ∀ v, P (JRaw v).

Lemma json_nested_ind : ∀ j, P j.
Proof using All.
  fix FIX 1. intros [s|n|b|js|ms|v]; [apply PString|apply PInt|apply PBool|apply PArray|apply PObject|apply PRaw].
  - induction js; by constructor.
  - induction ms; by constructor.
Qed.
End json_ind.

(** ** Strings *)

(** A Go string with every byte that is not part of a character replaced by U+FFFD. *)
Fixpoint to_valid (p : bytes) : bytes :=
  match p with
  | [] => []
  | c :: p1 =>
    match utf8_first c, p1 with
    | Some (0%nat, _, _), _ => c :: to_valid p1
    | Some (1%nat, lo, hi), c1 :: p2 =>
      if cont lo hi c1 then c :: c1 :: to_valid p2 else replacement ++ to_valid p1
    | Some (2%nat, lo, hi), c1 :: c2 :: p3 =>
      if cont lo hi c1 && cont 128 191 c2 then c :: c1 :: c2 :: to_valid p3
      else replacement ++ to_valid p1
    | Some (3%nat, lo, hi), c1 :: c2 :: c3 :: p4 =>
      if cont lo hi c1 && cont 128 191 c2 && cont 128 191 c3
      then c :: c1 :: c2 :: c3 :: to_valid p4
      else replacement ++ to_valid p1
    | _, _ => replacement ++ to_valid p1
    end
  end.

Lemma to_valid_utf8 p : utf8_Valid p = true → to_valid p = p.
Proof.
  intros Hv. pattern p. revert p Hv. apply utf8_ind; [done|..]; intros; cbn [to_valid];
    repeat match goal with H : _ = _ |- _ => rewrite H end; cbn [andb]; congruence.
Qed.

(** A part of a quoted string that stands for the text [v]: what reads or indents the
    string passes over it. *)
Record passes (q v : bytes) : Prop := {
  ps_unquote p : unquote (q ++ p) = app v <$> unquote p;
  ps_skip p : skip_string (q ++ p) = skip_string p;
  ps_indent d p : indent_from InString false d (q ++ p) = q ++ indent_from InString false d p;
}.

Lemma passes_nil : passes [] [].
Proof. split; [|done..]. intros p. cbn. by destruct (unquote p). Qed.

Lemma passes_app q1 v1 q2 v2 : passes q1 v1 → passes q2 v2 → passes (q1 ++ q2) (v1 ++ v2).
Proof.
  intros [U1 S1 I1] [U2 S2 I2]. split.
  - intros p. rewrite <-app_assoc, U1, U2. destruct (unquote p); cbn; by rewrite <-?app_assoc.
  - intros p. by rewrite <-app_assoc, S1, S2.
  - intros d p. by rewrite <-!app_assoc, I1, I2.
Qed.

Lemma passes_byte c : code c < 128 → passes (quote_byte c) [c].
Proof.
  intros Hc. destruct (quote_byte_back c Hc) as (Hu & Hs & _). split; [|done|].
  - intros p. rewrite Hu. by destruct (unquote p).
  - intros d p. clear Hu Hs. destruct c as [[] [] [] [] [] [] [] []]; (by vm_compute in Hc) || done.
Qed.

Lemma indent_high d c p :
  128 ≤ code c → indent_from InString false d (c :: p) = c :: indent_from InString false d p.
Proof.
  intros Hc. destruct (high_not c Hc) as (Hq & Hb & _). cbn [indent_from next_mode]. by rewrite Hq, Hb.
Qed.

Lemma passes_invalid : passes escaped_invalid replacement.
Proof. split; [|done..]. intros p. cbn. by destruct (unquote p). Qed.

Lemma passes_separator c2 :
  c2 = char 168 ∨ c2 = char 169 → passes (escaped_separator c2) [char 226; char 128; c2].
Proof.
  intros Hc. split.
  - intros p. rewrite unquote_separator by done. by destruct (unquote p).
  - intros p. by apply skip_string_separator.
  - intros d p. by destruct Hc as [-> | ->].
Qed.

(** The characters that are written as they are. *)
Lemma passes_high q :
  Forall (λ c, 128 ≤ code c) q → (∀ p, unquote (q ++ p) = app q <$> unquote p) → passes q q.
Proof.
  intros Hq Hu. split; [done|..]; clear Hu.
  - intros p. induction Hq as [|c q Hc _ IH]; [done|]. cbn [app]. by rewrite skip_string_high.
  - intros d p. induction Hq as [|c q Hc _ IH]; [done|]. cbn [app]. by rewrite indent_high, IH.
Qed.

Lemma passes_quote p : passes (quote_body p) (to_valid p).
Proof.
  enough (∀ n p, (length p ≤ n)%nat → passes (quote_body p) (to_valid p)) as H by by eapply H.
  clear p. induction n as [|n IH]; intros [|c p] Hl; try apply passes_nil; [cbn in Hl; lia|].
  assert (passes (escaped_invalid ++ quote_body p) (replacement ++ to_valid p)) as Hinv.
  { apply passes_app; [apply passes_invalid|apply IH]. cbn in Hl. lia. }
  cbn [quote_body to_valid]. destruct (utf8_first c) as [[[k lo] hi]|] eqn:Hf; [|exact Hinv].
  pose proof (utf8_first_cases _ _ _ _ Hf) as Hc.
  destruct k as [|[|[|[|k]]]]; [| | | |exact Hinv].
  - apply (passes_app _ [c]); [apply passes_byte; lia|apply IH; cbn in Hl; lia].
  - destruct p as [|c1 p]; [exact Hinv|]. destruct (cont lo hi c1) eqn:Hc1; [|exact Hinv].
    apply (passes_app [c; c1] [c; c1]); [|apply IH; cbn in Hl; lia].
    pose proof (cont_high _ _ _ Hc1 ltac:(lia)).
    destruct (high_not c ltac:(lia)) as (Hq & Hb & Hlt & _).
    apply passes_high; [repeat constructor; lia|]. intros r. cbn [app unquote].
    rewrite Hb, Hlt, Hq, Hf, Hc1. by destruct (unquote r).
  - destruct p as [|c1 [|c2 p]]; [exact Hinv..|].
    destruct (cont lo hi c1) eqn:Hc1; [|exact Hinv].
    destruct (cont 128 191 c2) eqn:Hc2; [|exact Hinv]. cbn [andb].
    apply (passes_app _ [c; c1; c2]); [|apply IH; cbn in Hl; lia].
    destruct (is_separator c c1 c2) eqn:Hs.
    { apply separator_inv in Hs as (-> & -> & Hs). by apply passes_separator. }
    pose proof (cont_high _ _ _ Hc1 ltac:(lia)). pose proof (cont_high _ _ _ Hc2 ltac:(lia)).
    destruct (high_not c ltac:(lia)) as (Hq & Hb & Hlt & _).
    apply passes_high; [repeat constructor; lia|]. intros r. cbn [app unquote].
    rewrite Hb, Hlt, Hq, Hf, Hc1, Hc2. by destruct (unquote r).
  - destruct p as [|c1 [|c2 [|c3 p]]]; [exact Hinv..|].
    destruct (cont lo hi c1) eqn:Hc1; [|exact Hinv].
    destruct (cont 128 191 c2) eqn:Hc2; [|exact Hinv].
    destruct (cont 128 191 c3) eqn:Hc3; [|exact Hinv]. cbn [andb].
    apply (passes_app [c; c1; c2; c3] [c; c1; c2; c3]); [|apply IH; cbn in Hl; lia].
    pose proof (cont_high _ _ _ Hc1 ltac:(lia)). pose proof (cont_high _ _ _ Hc2 ltac:(lia)).
    pose proof (cont_high _ _ _ Hc3 ltac:(lia)).
    destruct (high_not c ltac:(lia)) as (Hq & Hb & Hlt & _).
    apply passes_high; [repeat constructor; lia|]. intros r. cbn [app unquote].
    rewrite Hb, Hlt, Hq, Hf, Hc1, Hc2, Hc3. by destruct (unquote r).
Qed.

(** ** Indentation *)

(** Integers that fit 64 bits, and no text from elsewhere. *)
Fixpoint good (j : json) : bool :=
  match j with
  | JString _ | JBool _ => true
  | JInt n => (- 2 ^ 63 <=? n) && (n <? 2 ^ 63)
  | JArray js => forallb good js
  | JObject ms => forallb (λ m, good m.2) ms
  | JRaw _ => false
  end.

Lemma good_elements js : forallb good js = true → Forall (λ j, good j = true) js.
Proof. induction js as [|j js IH]; cbn; [done|]. intros [Hj Hjs]%andb_true_iff. constructor; auto. Qed.

Lemma good_members (ms : list (bytes * json)) :
  forallb (λ m, good m.2) ms = true → Forall (λ m, good m.2 = true) ms.
Proof. induction ms as [|j js IH]; cbn; [done|]. intros [Hj Hjs]%andb_true_iff. constructor; auto. Qed.

(** What is known of the elements of a list under an induction hypothesis. *)
Lemma Forall_mp {A} (P Q : A → Prop) l : Forall P l → Forall (λ x, P x → Q x) l → Forall Q l.
Proof. intros HP HQ. apply Forall_forall. intros x Hx. rewrite Forall_forall in HP, HQ. by apply HQ, HP. Qed.

(** A character that is no white space and no punctuation. *)
Definition in_scalar (c : ascii) : bool :=
  is_digit c || Ascii.eqb c "-" || ((97 <=? code c) && (code c <=? 122)).

Lemma indent_scalar d v t :
  Forall in_scalar v → indent_from Outside false d (v ++ t) = v ++ indent_from Outside false d t.
Proof.
  induction 1 as [|c v Hc _ IH]; [done|]. cbn [app]. rewrite <-IH. clear IH.
  by destruct c as [[] [] [] [] [] [] [] []].
Qed.

Lemma FormatInt_scalar n : - 2 ^ 63 ≤ n < 2 ^ 63 → Forall in_scalar (FormatInt n).
Proof.
  intros Hn. destruct (FormatInt_spec n Hn) as (c & ds & -> & _ & Hd & _).
  apply Forall_app. split; [by destruct (n <? 0); repeat constructor|].
  eapply Forall_impl; [exact Hd|]. intros x Hx. unfold in_scalar. by rewrite (Is_true_true_1 _ Hx).
Qed.

Lemma indent_quote d s t :
  indent_from Outside false d (quote s ++ t) = quote s ++ indent_from Outside false d t.
Proof.
  unfold quote. cbn [app]. rewrite <-!app_assoc.
  change (indent_from Outside false d (dquote :: ?p)) with (dquote :: indent_from InString false d p).
  by rewrite (ps_indent _ _ (passes_quote s)).
Qed.

(** The first character of a value begins the line behind an opening bracket. *)
Definition begins_value (c : ascii) : bool :=
  Ascii.eqb c dquote || Ascii.eqb c "{" || Ascii.eqb c "[" || in_scalar c.

Lemma indent_need d c p :
  begins_value c → indent_from Outside true d (c :: p) =
  newline_at (S d) ++ indent_from Outside false (S d) (c :: p).
Proof. intros Hc. by destruct c as [[] [] [] [] [] [] [] []]. Qed.

Lemma Marshal_begins j : good j = true → ∃ c p, Marshal j = c :: p ∧ begins_value c.
Proof.
  destruct j as [s|n|b|js|ms|v]; cbn [good Marshal]; intros Hg; [by eexists _, _| |by destruct b; eexists _, _|by eexists _, _..|done].
  assert (- 2 ^ 63 ≤ n < 2 ^ 63) as Hn by lia. pose proof (FormatInt_scalar n Hn) as Hs.
  destruct (FormatInt_spec n Hn) as (c & ds & E & _). destruct (FormatInt n) as [|a p]; [by destruct (n <? 0)|].
  exists a, p. split; [done|]. apply Forall_cons in Hs as [Hs _].
  unfold begins_value. by rewrite (Is_true_true_1 _ Hs), !orb_true_r.
Qed.

Lemma join_cons (sep v : bytes) vs :
  join sep (v :: vs) = v ++ match vs with [] => [] | _ => sep ++ join sep vs end.
Proof. destruct vs; cbn [join]; [by rewrite app_nil_r|done]. Qed.

Lemma length_join c sep vs : (length vs ≤ S (length (join (c :: sep) vs)))%nat.
Proof.
  induction vs as [|v vs IH]; [cbn; lia|]. rewrite join_cons. destruct vs as [|v' vs]; [cbn; lia|].
  rewrite !length_app. cbn [length] in *. lia.
Qed.

(** The elements of an array or an object, which are written by [f] and [g]. *)
Section join.
Context {A : Type} (f : A → bytes) (g : nat → A → bytes).

Definition indents (x : A) : Prop :=
  ∀ d t, indent_from Outside false d (f x ++ t) = g d x ++ indent_from Outside false d t.

Lemma indent_join l d t :
  Forall indents l →
  indent_from Outside false d (join [","%char] (f <$> l) ++ t) =
  join (","%char :: newline_at d) (g d <$> l) ++ indent_from Outside false d t.
Proof.
  induction 1 as [|x l Hx Hl IH]; [done|]. rewrite !fmap_cons, !join_cons.
  destruct l as [|y l]; [cbn; rewrite !app_nil_r; apply Hx|].
  rewrite <-!app_assoc, Hx. f_equal. cbn [fmap list_fmap app].
  change (indent_from Outside false d (","%char :: ?p))
    with (","%char :: newline_at d ++ indent_from Outside false d p).
  f_equal. rewrite <-app_assoc. f_equal. exact IH.
Qed.

Lemma indent_list (o c : ascii) l d t :
  (o = "["%char ∧ c = "]"%char ∨ o = "{"%char ∧ c = "}"%char) →
  l ≠ [] → Forall indents l → (∀ x, x ∈ l → ∃ a p, f x = a :: p ∧ begins_value a) →
  indent_from Outside false d (o :: join [","%char] (f <$> l) ++ c :: t) =
  o :: newline_at (S d) ++ join (","%char :: newline_at (S d)) (g (S d) <$> l) ++
  newline_at d ++ c :: indent_from Outside false d t.
Proof.
  intros Hoc Hne Hl Hb.
  assert (indent_from Outside false d (o :: join [","%char] (f <$> l) ++ c :: t) =
          o :: indent_from Outside true d (join [","%char] (f <$> l) ++ c :: t)) as ->
    by by destruct Hoc as [[-> ->]|[-> ->]].
  assert (∃ a p, join [","%char] (f <$> l) = a :: p ∧ begins_value a) as (a & p & Ha & Hba).
  { destruct l as [|x l]; [done|]. destruct (Hb x) as (a & p & E & Hba); [by left|].
    exists a. eexists. split; [|done]. rewrite fmap_cons, join_cons, E. reflexivity. }
  rewrite Ha. cbn [app]. rewrite indent_need by done. f_equal. f_equal.
  rewrite (app_comm_cons p), <-Ha, indent_join by done. f_equal.
  by destruct Hoc as [[-> ->]|[-> ->]].
Qed.
End join.

Lemma indent_Marshal j : good j = true → indents Marshal pretty j.
Proof.
  induction j as [s|n|b|js IH|ms IH|v] using json_nested_ind; cbn [good]; intros Hg d t; cbn [Marshal pretty].
  - apply indent_quote.
  - apply indent_scalar, FormatInt_scalar. lia.
  - apply indent_scalar. by destruct b; repeat constructor.
  - destruct js as [|j js]; [done|]. apply good_elements in Hg.
    rewrite <-app_comm_cons, <-app_assoc. cbn [app].
    rewrite (indent_list Marshal pretty); [by cbn [app]; rewrite <-!app_assoc|by left|done|by eapply Forall_mp|].
    intros x Hx. apply Marshal_begins. by eapply (proj1 (Forall_forall _ _) Hg).
  - destruct ms as [|m ms]; [done|]. apply good_members in Hg.
    rewrite <-app_comm_cons, <-app_assoc. cbn [app].
    rewrite (indent_list (λ m, quote m.1 ++ ":"%char :: Marshal m.2)
      (λ n m, quote m.1 ++ ":"%char :: " "%char :: pretty n m.2));
      [by cbn [app]; rewrite <-!app_assoc|by right|done| |intros x _; by eexists _, _].
    pose proof (Forall_mp _ _ _ Hg IH) as Hm. eapply Forall_impl; [exact Hm|].
    intros [k x] Hx d' t'. cbn [fst snd] in *. rewrite <-!app_assoc, indent_quote. f_equal.
    cbn [app]. change (indent_from Outside false d' (":"%char :: ?p))
      with (":"%char :: " "%char :: indent_from Outside false d' p). by rewrite Hx.
  - done.
Qed.

Lemma Encode_pretty j : good j = true → Encode j = pretty 0 j ++ [newline].
Proof.
  intros Hg. unfold Encode. pose proof (indent_Marshal j Hg 0%nat []) as H.
  cbn [indent_from] in H. rewrite !app_nil_r in H. by rewrite H.
Qed.

(** ** Reading an indented text *)

Lemma length_newline d : length (newline_at d) = S (2 * d).
Proof. unfold newline_at. cbn [length]. by rewrite length_replicate. Qed.

Ltac text_length Hf := cbn [length] in Hf; rewrite ?length_app, ?length_newline in Hf; cbn [length] in Hf; lia.

(** What may follow a value in such a text. *)
Definition ends (t : bytes) : Prop :=
  match t with
  | [] => True
  | c :: _ => c = ","%char ∨ c = "}"%char ∨ c = "]"%char ∨ c = newline
  end.

Lemma skip_ws_newline d t : skip_ws (newline_at d ++ t) = skip_ws t.
Proof. unfold newline_at. cbn [app]. change (skip_ws (newline :: ?p)) with (skip_ws p). by induction (2 * d)%nat. Qed.

Lemma skip_digits_ends ds t : Forall is_digit ds → ends t → skip_digits (ds ++ t) = t.
Proof.
  intros Hd Ht. induction Hd as [|c ds Hc _ IH]; cbn [app].
  - by destruct t as [|c t]; [|destruct Ht as [->|[->|[->| ->]]]].
  - cbn [skip_digits]. by rewrite (Is_true_true_1 _ Hc).
Qed.

Lemma skip_number_ends n t : - 2 ^ 63 ≤ n < 2 ^ 63 → ends t → skip_number (FormatInt n ++ t) = Some t.
Proof.
  intros Hn Ht. destruct (FormatInt_spec n Hn) as (c & ds & -> & _ & Hd & Hz).
  apply Forall_cons in Hd as [Hc Hd].
  assert (skip_int (c :: ds ++ t) = Some t) as Hi.
  { destruct (skip_int_cases (c :: ds ++ t)) as [(q & [= -> <-] & ->)|[_ ->]].
    - by rewrite (Hz eq_refl).
    - cbn. by rewrite (Is_true_true_1 _ Hc), skip_digits_ends. }
  assert (∀ p, match c :: p with "-"%char :: q => q | _ => c :: p end = c :: p) as Hm.
  { intros p. clear -Hc. by destruct c as [[] [] [] [] [] [] [] []]. }
  unfold skip_number. rewrite <-app_assoc. destruct (n <? 0); cbn [app]; rewrite ?Hm, Hi; cbn;
    by destruct t as [|a t]; [|destruct Ht as [->|[->|[->| ->]]]].
Qed.

(** A text that is passed over as one value, up to [depth] brackets deep. *)
Definition value_text (depth : Z) (v : bytes) : Prop :=
  (∃ c p, v = c :: p ∧ begins_value c) ∧
  ∀ fuel depth' t, (length v < fuel)%nat → depth ≤ depth' → ends t →
    skip_value fuel depth' (v ++ t) = Some t.

Lemma skip_ws_value depth v t : value_text depth v → skip_ws (v ++ t) = v ++ t.
Proof.
  intros [(c & p & -> & Hc) _]. cbn [app skip_ws].
  by destruct c as [[] [] [] [] [] [] [] []].
Qed.

Lemma value_end_text depth v t :
  value_text depth v → depth ≤ maxNestingDepth → ends t → value_end maxNestingDepth (v ++ t) = Some t.
Proof. intros [_ Hv] Hd Ht. apply Hv; [rewrite length_app; lia|done|done]. Qed.

Lemma quote_text s : value_text 0 (quote s).
Proof.
  split; [by eexists _, _|]. intros [|fuel] depth t Hf _ _; [lia|]. unfold quote. cbn [app skip_value].
  change (Ascii.eqb dquote "{") with false. change (Ascii.eqb dquote "[") with false.
  rewrite Ascii.eqb_refl, <-app_assoc, (ps_skip _ _ (passes_quote s)). cbn. done.
Qed.

Lemma FormatInt_text n : - 2 ^ 63 ≤ n < 2 ^ 63 → value_text 0 (FormatInt n).
Proof.
  intros Hn. pose proof (Marshal_begins (JInt n)) as Hb. cbn [good Marshal] in Hb.
  split; [apply Hb; lia|]. intros [|fuel] depth t Hf _ Ht; [lia|].
  pose proof (skip_number_ends n t Hn Ht) as Hk.
  destruct (FormatInt_spec n Hn) as (c & ds & E & _ & Hd & _). rewrite E in *.
  apply Forall_cons in Hd as [Hc _].
  destruct (n <? 0); [exact Hk|]. cbn [app skip_value] in *. clear -Hc Hk.
  by destruct c as [[] [] [] [] [] [] [] []].
Qed.

Lemma bool_text (b : bool) : value_text 0 (bytes_of (if b then "true" else "false")%string).
Proof. split; [by destruct b; eexists _, _|]. by intros [|fuel] depth t Hf _ _; [lia|destruct b]. Qed.


Lemma value_text_mono depth depth' v : value_text depth v → depth ≤ depth' → value_text depth' v.
Proof. intros [Hb Hv] Hd. split; [done|]. intros. apply Hv; [done|lia|done]. Qed.

(** A member of an object on its line. *)
Definition member_text (m : bytes * bytes) : bytes := quote m.1 ++ ":"%char :: " "%char :: m.2.

(** Lines that end with the closing bracket [c]. *)
Section lines.
Context (n m : nat) (depth : Z).

Definition lines (vs : list bytes) (c : ascii) (t : bytes) : bytes :=
  join (","%char :: newline_at n) vs ++ newline_at m ++ c :: t.

Lemma lines_cons v vs c t :
  lines (v :: vs) c t =
  v ++ match vs with [] => newline_at m ++ c :: t | _ => ","%char :: newline_at n ++ lines vs c t end.
Proof.
  unfold lines. rewrite join_cons. destruct vs as [|v' vs]; [by rewrite app_nil_r|].
  rewrite <-!app_assoc. cbn [app]. by rewrite <-?app_assoc.
Qed.

Lemma length_lines vs c t : (length t < length (lines vs c t))%nat.
Proof. unfold lines. rewrite !length_app. cbn. lia. Qed.

Lemma lines_app vs c t : lines vs c [] ++ t = lines vs c t.
Proof. unfold lines. by rewrite <-!app_assoc. Qed.

Lemma after_lines_end c t :
  c = "]"%char ∨ c = "}"%char →
  after "," (skip_ws (newline_at m ++ c :: t)) = None ∧ after c (skip_ws (newline_at m ++ c :: t)) = Some t.
Proof. intros Hc. rewrite skip_ws_newline. by destruct Hc as [-> | ->]. Qed.

Lemma after_lines_sep p :
  after "," (skip_ws (","%char :: newline_at n ++ p)) = Some (newline_at n ++ p).
Proof. apply after_cons. Qed.

Lemma skip_ws_lines_value v vs c t : value_text depth v → skip_ws (lines (v :: vs) c t) = lines (v :: vs) c t.
Proof. intros Hv. rewrite lines_cons. by eapply skip_ws_value. Qed.

Lemma skip_ws_lines_member x ms c t :
  skip_ws (lines (member_text <$> x :: ms) c t) = lines (member_text <$> x :: ms) c t.
Proof. rewrite fmap_cons, lines_cons. done. Qed.

(** Two ways to go over the lines of an array: the scanner and the decoder. *)
Lemma skip_lines vs : ∀ fuel depth' t,
  vs ≠ [] → Forall (value_text depth) vs → depth ≤ depth' → (length (lines vs "]"%char t) < fuel + length t)%nat →
  skip_elements fuel depth' (lines vs "]"%char t) = Some t.
Proof.
  induction vs as [|v vs IH]; intros [|fuel] depth' t Hne Hvs Hd Hf; try done;
    [pose proof (length_lines (v :: vs) "]"%char t); lia|].
  apply Forall_cons in Hvs as [Hv Hvs]. rewrite lines_cons in Hf |- *. rewrite length_app in Hf.
  cbn [skip_elements].
  destruct vs as [|v' vs].
  - rewrite (proj2 Hv) by (done || text_length Hf || (cbn; auto)). cbn [mbind option_bind].
    by destruct (after_lines_end "]"%char t) as [-> ->]; [left|].
  - pose proof (length_lines (v' :: vs) "]"%char t).
    rewrite (proj2 Hv) by (done || text_length Hf || (cbn; auto)). cbn [mbind option_bind].
    rewrite after_lines_sep, skip_ws_newline, skip_ws_lines_value by by eapply Forall_inv.
    apply IH; [done|done|done|]. text_length Hf.
Qed.

Lemma read_lines vs : ∀ fuel t,
  vs ≠ [] → Forall (value_text depth) vs → depth ≤ maxNestingDepth → (length vs ≤ fuel)%nat →
  elements fuel (newline_at n ++ lines vs "]"%char t) = Some vs.
Proof.
  induction vs as [|v vs IH]; intros [|fuel] t Hne Hvs Hd Hf; [done|done|cbn in Hf; lia|].
  apply Forall_cons in Hvs as [Hv Hvs]. cbn [elements].
  rewrite skip_ws_newline, skip_ws_lines_value, lines_cons by done.
  rewrite (value_end_text depth) by (done || (destruct vs; cbn; auto)). cbn [mbind option_bind].
  rewrite before_app. destruct vs as [|v' vs].
  - by destruct (after_lines_end "]"%char t) as [-> ->]; [left|].
  - rewrite after_lines_sep, IH by (done || (cbn in Hf |- *; lia)). done.
Qed.

(** The same for the lines of an object. *)
Lemma skip_member_line fuel depth' m0 t :
  value_text depth m0.2 → depth ≤ depth' → ends t → (length (member_text m0) ≤ fuel)%nat →
  skip_members (S fuel) depth' (member_text m0 ++ t) =
  match after "," (skip_ws t) with
  | Some p5 => skip_members fuel depth' (skip_ws p5) | None => after "}" (skip_ws t) end.
Proof.
  intros Hv Hd Ht Hf. unfold member_text, quote in *. cbn [app]. rewrite <-!app_assoc. cbn [app].
  cbn [skip_members]. rewrite after_cons. cbn [mbind option_bind].
  rewrite (ps_skip _ _ (passes_quote m0.1)). cbn [skip_string]. rewrite Ascii.eqb_refl. cbn [mbind option_bind].
  change (skip_ws (":"%char :: ?p)) with (":"%char :: p). rewrite after_cons. cbn [mbind option_bind].
  change (skip_ws (" "%char :: ?p)) with (skip_ws p). rewrite (skip_ws_value depth) by done.
  rewrite (proj2 Hv); [done| |done|done]. cbn [length app] in Hf. rewrite !length_app in Hf. cbn in Hf. lia.
Qed.

Lemma read_member_line fuel m0 t :
  value_text depth m0.2 → depth ≤ maxNestingDepth → ends t →
  members (S fuel) (newline_at n ++ member_text m0 ++ t) =
  match after "," (skip_ws t) with
  | Some p5 => ms ← members fuel p5; Some ((quote_body m0.1, m0.2) :: ms)
  | None => _ ← after "}" (skip_ws t); Some [(quote_body m0.1, m0.2)] end.
Proof.
  intros Hv Hd Ht. cbn [members]. rewrite skip_ws_newline.
  unfold member_text, quote. cbn [app]. rewrite <-!app_assoc. cbn [app].
  change (skip_ws (dquote :: ?p)) with (dquote :: p). rewrite after_cons. cbn [mbind option_bind].
  rewrite (ps_skip _ _ (passes_quote m0.1)). cbn [skip_string]. rewrite Ascii.eqb_refl. cbn [mbind option_bind].
  change (skip_ws (":"%char :: ?p)) with (":"%char :: p). rewrite after_cons. cbn [mbind option_bind].
  change (skip_ws (" "%char :: ?p)) with (skip_ws p). rewrite (skip_ws_value depth) by done.
  rewrite (value_end_text depth) by done. cbn [mbind option_bind]. by rewrite !before_app.
Qed.

Lemma skip_member_lines ms : ∀ fuel depth' t,
  ms ≠ [] → Forall (λ m0, value_text depth m0.2) ms → depth ≤ depth' →
  (length (lines (member_text <$> ms) "}"%char t) < fuel + length t)%nat →
  skip_members fuel depth' (lines (member_text <$> ms) "}"%char t) = Some t.
Proof.
  induction ms as [|m0 ms IH]; intros [|fuel] depth' t Hne Hvs Hd Hf; try done;
    [pose proof (length_lines (member_text <$> m0 :: ms) "}"%char t); lia|].
  apply Forall_cons in Hvs as [Hv Hvs]. rewrite fmap_cons, lines_cons in Hf |- *. rewrite length_app in Hf.
  destruct ms as [|m' ms].
  - cbn [fmap list_fmap] in Hf |- *. rewrite skip_member_line by (done || text_length Hf || (cbn; auto)).
    cbn [fmap list_fmap]. by destruct (after_lines_end "}"%char t) as [-> ->]; [right|].
  - pose proof (length_lines (member_text <$> m' :: ms) "}"%char t) as Hll.
    rewrite fmap_cons in Hf, Hll |- *. cbn beta iota in Hf.
    rewrite skip_member_line by (done || text_length Hf || (cbn; auto)).
    rewrite <-(fmap_cons member_text) in Hf |- *.
    rewrite after_lines_sep, skip_ws_newline, skip_ws_lines_member.
    apply IH; [done|done|done|]. text_length Hf.
Qed.

Lemma read_member_lines ms : ∀ fuel t,
  ms ≠ [] → Forall (λ m0, value_text depth m0.2) ms → depth ≤ maxNestingDepth → (length ms ≤ fuel)%nat →
  members fuel (newline_at n ++ lines (member_text <$> ms) "}"%char t) =
  Some ((λ m0, (quote_body m0.1, m0.2)) <$> ms).
Proof.
  induction ms as [|m0 ms IH]; intros [|fuel] t Hne Hvs Hd Hf; [done|done|cbn in Hf; lia|].
  apply Forall_cons in Hvs as [Hv Hvs]. rewrite fmap_cons, lines_cons.
  rewrite read_member_line by (done || (destruct ms; cbn; auto)).
  destruct ms as [|m' ms].
  - cbn [fmap list_fmap]. by destruct (after_lines_end "}"%char t) as [-> ->]; [right|].
  - rewrite fmap_cons. cbn beta iota. rewrite <-(fmap_cons member_text).
    rewrite after_lines_sep, IH by (done || (cbn in Hf |- *; lia)). done.
Qed.
End lines.

(** ** A value is read back *)

Fixpoint height (j : json) : nat :=
  match j with
  | JArray js => S (max_list_with height js)
  | JObject ms => S (max_list_with (λ m, height m.2) ms)
  | _ => 0
  end.

Lemma height_elements {A} (f : A → nat) l : Forall (λ x, (f x ≤ max_list_with f l)%nat) l.
Proof.
  induction l as [|x l IH]; constructor; [cbn; lia|]. eapply Forall_impl; [exact IH|].
  intros y Hy. cbn [max_list_with] in *. lia.
Qed.

(** The value with its strings made valid, as they are written. *)
Fixpoint clean (j : json) : json :=
  match j with
  | JString s => JString (to_valid s)
  | JArray js => JArray (clean <$> js)
  | JObject ms => JObject ((λ m, (to_valid m.1, clean m.2)) <$> ms)
  | _ => j
  end.

(** The members of an object as texts. *)
Definition pretty_members (n : nat) (ms : list (bytes * json)) : list (bytes * bytes) :=
  (λ m, (m.1, pretty n m.2)) <$> ms.

Lemma pretty_array n j js :
  pretty n (JArray (j :: js)) = "["%char :: newline_at (S n) ++ lines (S n) n (pretty (S n) <$> j :: js) "]" [].
Proof. done. Qed.

Lemma pretty_object n m ms :
  pretty n (JObject (m :: ms)) =
  "{"%char :: newline_at (S n) ++ lines (S n) n (member_text <$> pretty_members (S n) (m :: ms)) "}" [].
Proof. unfold pretty_members. by rewrite <-list_fmap_compose. Qed.

Lemma array_text depth n vs :
  0 ≤ depth → vs ≠ [] → Forall (value_text depth) vs →
  value_text (depth + 1) ("["%char :: newline_at (S n) ++ lines (S n) n vs "]" []).
Proof.
  intros Hd0 Hne Hvs. split; [by eexists _, _|]. intros [|fuel] d t Hf Hd _; [lia|].
  cbn [app skip_value]. rewrite (proj2 (Z.leb_gt _ _)) by lia.
  change (Ascii.eqb "[" "{") with false. change (Ascii.eqb "[" "[") with true. cbv iota.
  rewrite <-app_assoc, lines_app, skip_ws_newline. destruct vs as [|v vs]; [done|].
  rewrite (skip_ws_lines_value _ _ depth) by by eapply Forall_inv.
  assert (after "]" (lines (S n) n (v :: vs) "]" t) = None) as ->.
  { rewrite lines_cons. destruct (Forall_inv Hvs) as [(c & p & -> & Hc) _].
    clear -Hc. by destruct c as [[] [] [] [] [] [] [] []]. }
  apply (skip_lines _ _ depth); [done|done|lia|].
  rewrite <-(lines_app _ _ _ _ t), length_app. text_length Hf.
Qed.

Lemma object_text depth n ms :
  0 ≤ depth → ms ≠ [] → Forall (λ m, value_text depth m.2) ms →
  value_text (depth + 1) ("{"%char :: newline_at (S n) ++ lines (S n) n (member_text <$> ms) "}" []).
Proof.
  intros Hd0 Hne Hvs. split; [by eexists _, _|]. intros [|fuel] d t Hf Hd _; [lia|].
  cbn [app skip_value]. rewrite (proj2 (Z.leb_gt _ _)) by lia.
  change (Ascii.eqb "{" "{") with true. cbv iota.
  rewrite <-app_assoc, lines_app, skip_ws_newline. destruct ms as [|m ms]; [done|].
  rewrite skip_ws_lines_member.
  assert (after "}" (lines (S n) n (member_text <$> m :: ms) "}" t) = None) as ->
    by by rewrite fmap_cons, lines_cons.
  apply (skip_member_lines _ _ depth); [done|done|lia|].
  rewrite <-(lines_app _ _ _ _ t), length_app. text_length Hf.
Qed.

Lemma pretty_text j : good j = true → ∀ n, value_text (Z.of_nat (height j)) (pretty n j).
Proof.
  induction j as [s|z|b|js IH|ms IH|v] using json_nested_ind; intros Hg n; cbn [good] in Hg.
  - apply quote_text.
  - apply FormatInt_text. lia.
  - apply bool_text.
  - destruct js as [|j js].
    { split; [by eexists _, _|]. intros [|fuel] d t Hf Hd _; [lia|]. cbn [pretty app skip_value].
      by rewrite (proj2 (Z.leb_gt _ _)) by (cbn in Hd; lia). }
    apply good_elements in Hg. pose proof (Forall_mp _ _ _ Hg IH) as Hvs.
    rewrite pretty_array. cbn [height]. rewrite Nat2Z.inj_succ, <-Z.add_1_r.
    apply array_text; [lia|done|]. apply Forall_fmap.
    eapply Forall_mp; [exact (height_elements height (j :: js))|]. eapply Forall_impl; [exact Hvs|].
    intros x Hx Hle. eapply value_text_mono; [apply Hx|lia].
  - destruct ms as [|m ms].
    { split; [by eexists _, _|]. intros [|fuel] d t Hf Hd _; [lia|]. cbn [pretty app skip_value].
      by rewrite (proj2 (Z.leb_gt _ _)) by (cbn in Hd; lia). }
    apply good_members in Hg. pose proof (Forall_mp _ _ _ Hg IH) as Hvs.
    rewrite pretty_object. cbn [height]. rewrite Nat2Z.inj_succ, <-Z.add_1_r.
    apply object_text; [lia|done|]. apply Forall_fmap.
    eapply Forall_mp; [exact (height_elements (λ m, height m.2) (m :: ms))|]. eapply Forall_impl; [exact Hvs|].
    intros x Hx Hle. eapply value_text_mono; [apply Hx|]. cbn beta in *. lia.
  - done.
Qed.

Lemma array_elements_lines depth n vs :
  vs ≠ [] → Forall (value_text depth) vs → depth ≤ maxNestingDepth →
  array_elements ("["%char :: newline_at (S n) ++ lines (S n) n vs "]" []) = Some vs.
Proof.
  intros Hne Hvs Hd. unfold array_elements. rewrite after_cons. cbn [mbind option_bind].
  destruct vs as [|v vs]; [done|].
  rewrite skip_ws_newline, (skip_ws_lines_value _ _ depth) by by eapply Forall_inv.
  assert (after "]" (lines (S n) n (v :: vs) "]" []) = None) as ->.
  { rewrite lines_cons. destruct (Forall_inv Hvs) as [(c & p & -> & Hc) _].
    clear -Hc. by destruct c as [[] [] [] [] [] [] [] []]. }
  apply (read_lines _ _ depth); [done|done|done|].
  rewrite length_app. pose proof (length_join "," (newline_at (S n)) (v :: vs)).
  unfold lines. rewrite !length_app, !length_newline. cbn [length] in *. lia.
Qed.

Lemma object_members_lines depth n ms :
  ms ≠ [] → Forall (λ m, value_text depth m.2) ms → depth ≤ maxNestingDepth →
  object_members ("{"%char :: newline_at (S n) ++ lines (S n) n (member_text <$> ms) "}" []) =
  Some ((λ m, (quote_body m.1, m.2)) <$> ms).
Proof.
  intros Hne Hvs Hd. unfold object_members. rewrite after_cons. cbn [mbind option_bind].
  destruct ms as [|m ms]; [done|]. rewrite skip_ws_newline, skip_ws_lines_member.
  assert (after "}" (lines (S n) n (member_text <$> m :: ms) "}" []) = None) as ->
    by by rewrite fmap_cons, lines_cons.
  apply (read_member_lines _ _ depth); [done|done|done|].
  rewrite length_app. pose proof (length_join "," (newline_at (S n)) (member_text <$> m :: ms)) as Hl.
  rewrite length_fmap in Hl. unfold lines. rewrite !length_app, !length_newline. cbn [length] in *. lia.
Qed.

Lemma unquote_quote_text s : unquote_text (quote s) = Some (to_valid s).
Proof.
  unfold unquote_text, quote. rewrite Ascii.eqb_refl, removelast_last.
  pose proof (ps_unquote _ _ (passes_quote s) []) as H. rewrite app_nil_r in H. rewrite H. cbn.
  by rewrite app_nil_r.
Qed.

Lemma unquote_key s : unquote (quote_body s) = Some (to_valid s).
Proof.
  pose proof (ps_unquote _ _ (passes_quote s) []) as H. rewrite app_nil_r in H. rewrite H. cbn.
  by rewrite app_nil_r.
Qed.

Lemma mapM_read {A B C} (f : B → option C) (g : A → B) (h : A → C) l :
  Forall (λ x, f (g x) = Some (h x)) l → mapM f (g <$> l) = Some (h <$> l).
Proof. intros Hl. apply mapM_Some, Forall2_fmap, Forall_Forall2_diag, Hl. Qed.

Lemma read_pretty j : good j = true → ∀ n fuel,
  (height j < fuel)%nat → Z.of_nat (height j) ≤ maxNestingDepth →
  read_value fuel (pretty n j) = Some (clean j).
Proof.
  induction j as [s|z|b|js IH|ms IH|v] using json_nested_ind; intros Hg n [|fuel] Hf Hd; try lia; cbn [good] in Hg.
  - cbn [pretty read_value clean]. unfold quote at 1. rewrite unquote_quote_text. done.
  - assert (- 2 ^ 63 ≤ z < 2 ^ 63) as Hz by lia. cbn [pretty read_value clean].
    rewrite ParseInt_FormatInt by done. pose proof (FormatInt_spec z Hz) as (c & ds & -> & _ & Hc & _).
    apply Forall_cons in Hc as [Hc _]. destruct (z <? 0); [done|].
    clear -Hc. by destruct c as [[] [] [] [] [] [] [] []].
  - by destruct b.
  - destruct js as [|j js]; [done|]. apply good_elements in Hg. rewrite pretty_array.
    pose proof (height_elements height (j :: js)) as Hh.
    cbn [read_value height] in *. change (Ascii.eqb "[" "{") with false. change (Ascii.eqb "[" "[") with true.
    cbv iota. rewrite (array_elements_lines (Z.of_nat (max_list_with height (j :: js)))); [|done| |lia].
    + cbn [mbind option_bind]. rewrite (mapM_read _ _ clean); [done|].
      eapply Forall_mp; [exact Hh|]. eapply Forall_mp; [exact Hg|]. eapply Forall_impl; [exact IH|].
      intros x Hx Hgx Hhx. apply Hx; [done|lia|lia].
    + apply Forall_fmap. eapply Forall_mp; [exact Hh|]. eapply Forall_impl; [exact Hg|].
      intros x Hx Hhx. eapply value_text_mono; [by apply pretty_text|lia].
  - destruct ms as [|m ms]; [done|]. apply good_members in Hg. rewrite pretty_object.
    pose proof (height_elements (λ m, height m.2) (m :: ms)) as Hh.
    cbn [read_value height] in *. change (Ascii.eqb "{" "{") with true.
    cbv iota. rewrite (object_members_lines (Z.of_nat (max_list_with (λ m, height m.2) (m :: ms)))); [|done| |lia].
    + cbn [mbind option_bind]. unfold pretty_members. rewrite <-list_fmap_compose.
      rewrite (mapM_read _ _ (λ m, (to_valid m.1, clean m.2))); [done|].
      eapply Forall_mp; [exact Hh|]. eapply Forall_mp; [exact Hg|]. eapply Forall_impl; [exact IH|].
      intros x Hx Hgx Hhx. cbn beta in *. cbn [fst snd compose]. rewrite unquote_key. cbn [mbind option_bind].
      rewrite Hx; [done|done|lia|lia].
    + apply Forall_fmap. eapply Forall_mp; [exact Hh|]. eapply Forall_impl; [exact Hg|].
      intros x Hx Hhx. cbn beta in *. eapply value_text_mono; [by apply pretty_text|]. lia.
  - done.
Qed.

(** What Encode writes is a valid text, which Unmarshal reads. *)
Lemma Unmarshal_Encode j :
  good j = true → Z.of_nat (height j) ≤ maxNestingDepth → Unmarshal (Encode j) = Some (clean j).
Proof.
  intros Hg Hh. rewrite Encode_pretty by done. pose proof (pretty_text j Hg 0%nat) as Ht.
  assert (ends [newline]) as He by (cbn; auto).
  unfold Unmarshal, Valid, Valid_at. rewrite (skip_ws_value _ _ _ Ht).
  rewrite (value_end_text _ _ _ Ht Hh He). cbn [from_option id].
  change (skip_ws [newline]) with (@nil ascii). rewrite bool_decide_eq_true_2 by done.
  rewrite before_app. apply read_pretty; [done|lia|done].
Qed.
