(* ===== verification/TimeFormat.v ===== *)
(** time.Time in the answers of the server: Format(time.RFC3339Nano) in UTC, and that the
    text of a time is read back to the nanosecond. *)

From S2P Require Import Prelude WalRecord Json JsonValue.

Local Open Scope Z_scope.

(** ** The calendar (absDate of time.go) *)

Definition daysPer400Years : Z := 146097.
Definition daysPer100Years : Z := 36524.
Definition daysPer4Years : Z := 1461.

Definition daysBefore : list Z := [0; 31; 59; 90; 120; 151; 181; 212; 243; 273; 304; 334; 365].

Definition days_before (month : Z) : Z := nth (Z.to_nat month) daysBefore 365.

Definition isLeap (year : Z) : bool :=
  (year mod 4 =? 0) && (negb (year mod 100 =? 0) || (year mod 400 =? 0)).

(** The month and the day of the month of a day of the year. *)
Definition month_day (leap : bool) (yday : Z) : Z * Z :=
  if leap && (yday =? 31 + 29 - 1) then (2, 29)
  else
    let day := if leap && (31 + 29 - 1 <? yday) then yday - 1 else yday in
    let month := day / 31 in
    let '(month, begin) :=
      if days_before (month + 1) <=? day then (month + 1, days_before (month + 1))
      else (month, days_before month) in
    (month + 1, day - begin + 1).

(** The year and the day of the year, of a number of days since 1 January 1; the library
    counts from a year 400 * n + 1 long ago. *)
Definition year_day (days : Z) : Z * Z :=
  let n400 := days / daysPer400Years in
  let d := days - daysPer400Years * n400 in
  let n100 := d / daysPer100Years in
  let n100 := n100 - Z.shiftr n100 2 in
  let d := d - daysPer100Years * n100 in
  let n4 := d / daysPer4Years in
  let d := d - daysPer4Years * n4 in
  let n1 := d / 365 in
  let n1 := n1 - Z.shiftr n1 2 in
  (400 * n400 + 100 * n100 + 4 * n4 + n1 + 1, d - 365 * n1).

(** 1 January 1970 *)
Definition unix_days : Z := 719162.

(** ** Format *)

(** appendInt (format.go) *)
Definition appendInt (x : Z) (width : nat) : bytes :=
  let ds := decimals 20 (Z.abs x) [] in
  (if x <? 0 then ["-"%char] else []) ++ replicate (width - length ds) "0"%char ++ ds.

Fixpoint drop_zeros (p : bytes) : bytes :=
  match p with
  | c :: p' => if Ascii.eqb c "0" then drop_zeros p' else p
  | [] => []
  end.

(** appendNano, without trailing zeros. *)
Definition appendNano (ns : Z) : bytes :=
  if ns =? 0 then [] else "."%char :: reverse (drop_zeros (reverse (appendInt ns 9))).

(** appendFormatRFC3339 with nanoseconds, of a time in UTC given in nanoseconds since
    1970. *)
Definition Format (t : Z) : bytes :=
  let sec := t / 10 ^ 9 in
  let '(year, yday) := year_day (unix_days + sec / 86400) in
  let '(month, day) := month_day (isLeap year) yday in
  let s := sec mod 86400 in
  appendInt year 4 ++ "-"%char :: appendInt month 2 ++ "-"%char :: appendInt day 2 ++
  "T"%char :: appendInt (s / 3600) 2 ++ ":"%char :: appendInt (s / 60 mod 60) 2 ++
  ":"%char :: appendInt (s mod 60) 2 ++ appendNano (t mod 10 ^ 9) ++ ["Z"%char].

Example Format_epoch : Format 0 = bytes_of "1970-01-01T00:00:00Z".
Proof. reflexivity. Qed.
Example Format_leap : Format (1709210096 * 10 ^ 9 + 120 * 10 ^ 6) = bytes_of "2024-02-29T12:34:56.12Z".
Proof. reflexivity. Qed.
Example Format_year_end : Format 1735689599999000000 = bytes_of "2024-12-31T23:59:59.999Z".
Proof. reflexivity. Qed.

(** ** Reading a time *)

(** The number in the first [n] characters, and what follows them. *)
Definition read_fixed (n : nat) (p : bytes) : option (Z * bytes) :=
  if (length p <? n)%nat then None else
  x ← read_digits (take n p) 0; Some (x, drop n p).

Definition expect (c : ascii) (p : bytes) : option bytes :=
  match p with a :: p => if Ascii.eqb a c then Some p else None | [] => None end.

Fixpoint span_digits (p : bytes) : bytes * bytes :=
  match p with
  | c :: p' => if is_digit c then let '(ds, r) := span_digits p' in (c :: ds, r) else ([], p)
  | [] => ([], [])
  end.

(** The days before a date, counted from 1 January 1. *)
Definition days_since (year month day : Z) : Z :=
  let y := year - 1 in
  365 * y + y / 4 - y / 100 + y / 400 +
  days_before (month - 1) + (if isLeap year && (2 <? month) then 1 else 0) + day - 1.

Definition read_fraction (p : bytes) : option (Z * bytes) :=
  match p with
  | c :: p' =>
    if Ascii.eqb c "." then
      let '(ds, r) := span_digits p' in
      if (9 <? length ds)%nat then None
      else n ← read_digits ds 0; Some (n * 10 ^ (9 - Z.of_nat (length ds)), r)
    else Some (0, p)
  | [] => Some (0, [])
  end.

(** A time in UTC, in nanoseconds since 1970. *)
Definition read_time (p : bytes) : option Z :=
  '(year, p) ← read_fixed 4 p; p ← expect "-" p;
  '(month, p) ← read_fixed 2 p; p ← expect "-" p;
  '(day, p) ← read_fixed 2 p; p ← expect "T" p;
  '(hour, p) ← read_fixed 2 p; p ← expect ":" p;
  '(min, p) ← read_fixed 2 p; p ← expect ":" p;
  '(sec, p) ← read_fixed 2 p; '(ns, p) ← read_fraction p; p ← expect "Z" p;
  if bool_decide (p = []) then
    Some ((((days_since year month day - unix_days) * 24 + hour) * 60 + min) * 60 * 10 ^ 9
          + sec * 10 ^ 9 + ns)
  else None.

Example read_time_leap : read_time (bytes_of "2024-02-29T12:34:56.12Z") = Some (1709210096 * 10 ^ 9 + 120 * 10 ^ 6).
Proof. reflexivity. Qed.

(** ** The calendar is right *)

(** The years before a year, in days. *)
Definition year_start (year : Z) : Z :=
  let y := year - 1 in 365 * y + y / 4 - y / 100 + y / 400.

(** A year in its cycles of 400, 100 and 4 years. *)
Lemma year_parts a b c e :
  0 ≤ b ≤ 3 → 0 ≤ c ≤ 24 → 0 ≤ e ≤ 3 →
  let y := 400 * a + 100 * b + 4 * c + e in
  y / 4 = 100 * a + 25 * b + c ∧ y / 100 = 4 * a + b ∧ y / 400 = a.
Proof. intros Hb Hc He. cbn zeta. zdiv. Qed.

Lemma isLeap_parts a b c e :
  0 ≤ b ≤ 3 → 0 ≤ c ≤ 24 → 0 ≤ e ≤ 3 →
  isLeap (400 * a + 100 * b + 4 * c + e + 1) = (e =? 3) && (negb (c =? 24) || (b =? 3)).
Proof.
  intros Hb Hc He. unfold isLeap. set (y := 400 * a + 100 * b + 4 * c + e + 1).
  assert ((y mod 4 =? 0) = (e =? 3)) as -> by (apply eq_true_iff_eq; rewrite !Z.eqb_eq; subst y; split; zdiv).
  destruct (Z.eqb_spec e 3) as [->|]; [|done]. cbn [andb].
  assert ((y mod 100 =? 0) = (c =? 24)) as -> by (apply eq_true_iff_eq; rewrite !Z.eqb_eq; subst y; split; zdiv).
  destruct (Z.eqb_spec c 24) as [->|]; [|done]. cbn [negb orb].
  apply eq_true_iff_eq. rewrite !Z.eqb_eq. subst y. split; zdiv.
Qed.

(** One of four parts, the last of which may be longer. *)
Lemma quarter d part extra :
  0 < part → 0 ≤ extra → 4 * extra < part → 0 ≤ d < 4 * part + extra →
  let n := d / part - Z.shiftr (d / part) 2 in
  0 ≤ n ≤ 3 ∧ 0 ≤ d - part * n ∧ (d - part * n < part ∨ n = 3 ∧ d - part * n < part + extra).
Proof.
  intros Hp He Hlt Hd. cbn zeta. rewrite Z.shiftr_div_pow2 by lia. change (2 ^ 2) with 4.
  assert (0 ≤ d / part ≤ 4) as Hq.
  { split; [apply Z.div_pos; lia|]. apply Z.lt_succ_r, Z.div_lt_upper_bound; lia. }
  pose proof (Z.mul_div_le d part ltac:(lia)). pose proof (Z.mul_succ_div_gt d part ltac:(lia)).
  assert (d / part / 4 = if d / part =? 4 then 1 else 0) as ->.
  { destruct (Z.eqb_spec (d / part) 4) as [->|]; [done|]. apply Z.div_small. lia. }
  destruct (Z.eqb_spec (d / part) 4) as [E|]; [rewrite E in *|]; nia.
Qed.

Lemma year_day_spec days :
  let '(year, yday) := year_day days in
  year_start year + yday = days ∧ 0 ≤ yday < 365 + (if isLeap year then 1 else 0).
Proof.
  unfold year_day, daysPer400Years, daysPer100Years, daysPer4Years.
  set (a := days / 146097). set (d := days - 146097 * a).
  assert (0 ≤ d < 4 * 36524 + 1) as Hd by (subst d a; zdiv).
  pose proof (quarter d 36524 1 ltac:(lia) ltac:(lia) ltac:(lia) Hd) as (Hb & Hd1 & Hd1').
  cbn zeta in *. set (b := d / 36524 - Z.shiftr (d / 36524) 2) in *.
  set (d1 := d - 36524 * b) in *. set (c := d1 / 1461) in *. set (d2 := d1 - 1461 * c) in *.
  assert (0 ≤ d2 < 4 * 365 + 1 ∧ 0 ≤ c ≤ 24) as [Hd2 Hc] by (subst d2 c; zdiv).
  pose proof (quarter d2 365 1 ltac:(lia) ltac:(lia) ltac:(lia) Hd2) as (He & Hd3 & Hd3').
  cbn zeta in *. set (e := d2 / 365 - Z.shiftr (d2 / 365) 2) in *.
  rewrite isLeap_parts by done. unfold year_start. rewrite Z.add_simpl_r.
  destruct (year_parts a b c e) as (-> & -> & ->); [done..|].
  split; [subst d d1 d2; lia|]. split; [lia|].
  destruct (Z.eqb_spec e 3); destruct (Z.eqb_spec c 24); destruct (Z.eqb_spec b 3); cbn; lia.
Qed.

(** The days of a year, one by one. *)
Definition right_day (leap : bool) (yday : Z) : bool :=
  let '(month, day) := month_day leap yday in
  (days_before (month - 1) + (if leap && (2 <? month) then 1 else 0) + day - 1 =? yday)
  && (1 <=? month) && (month <=? 12) && (1 <=? day) && (day <=? 31).

Lemma all_days : forallb (right_day false) (seqZ 0 365) && forallb (right_day true) (seqZ 0 366) = true.
Proof. vm_compute. reflexivity. Qed.

Lemma month_day_spec (leap : bool) yday :
  0 ≤ yday < 365 + (if leap then 1 else 0) →
  let '(month, day) := month_day leap yday in
  days_before (month - 1) + (if leap && (2 <? month) then 1 else 0) + day - 1 = yday ∧
  1 ≤ month ≤ 12 ∧ 1 ≤ day ≤ 31.
Proof.
  intros Hy. assert (right_day leap yday = true) as Hr.
  { pose proof all_days as [H1 H2]%andb_true_iff. rewrite !forallb_forall in H1, H2.
    destruct leap; [apply H2|apply H1]; apply list_elem_of_In, elem_of_seqZ; lia. }
  unfold right_day in Hr. destruct (month_day leap yday) as [month day]. lia.
Qed.

(** A year of four digits. *)
Lemma year_day_bounds t :
  0 ≤ t < 253402300800 * 10 ^ 9 →
  let '(year, _) := year_day (unix_days + t / 10 ^ 9 / 86400) in 1 ≤ year ≤ 9999.
Proof.
  intros Ht. pose proof (year_day_spec (unix_days + t / 10 ^ 9 / 86400)) as Hs.
  destruct (year_day _) as [year yday]. destruct Hs as [Hs Hy].
  assert (0 ≤ t / 10 ^ 9 / 86400 ≤ 2932896) as Hd.
  { rewrite Z.div_div by lia. split; [apply Z.div_pos; lia|].
    apply Z.lt_succ_r, Z.div_lt_upper_bound; lia. }
  unfold year_start, unix_days in Hs.
  assert (yday ≤ 365) by (destruct (isLeap year); lia).
  revert Hs. generalize (t / 10 ^ 9 / 86400) Hd. intros d Hd'. zdiv.
Qed.

(** ** Numbers of a fixed width *)

Lemma read_digits_bounds ds : ∀ a n,
  Forall is_digit ds → read_digits ds a = Some n →
  a * 10 ^ Z.of_nat (length ds) ≤ n < (a + 1) * 10 ^ Z.of_nat (length ds).
Proof.
  induction ds as [|c ds IH]; intros a n Hd Hr; [cbn in *; simplify_eq; lia|].
  apply Forall_cons in Hd as [Hc Hd]. cbn [read_digits] in Hr.
  rewrite (Is_true_true_1 _ Hc) in Hr. apply IH in Hr; [|done].
  cbn [length]. rewrite Nat2Z.inj_succ, Z.pow_succ_r by lia.
  assert (48 ≤ code c ≤ 57) by (unfold is_digit in Hc; apply Is_true_true_1 in Hc; lia). nia.
Qed.

Lemma read_zeros k p : read_digits (replicate k "0"%char ++ p) 0 = read_digits p 0.
Proof. by induction k. Qed.

Lemma read_scaled ds k a n :
  read_digits (ds ++ replicate k "0"%char) a = Some n →
  ∃ m, read_digits ds a = Some m ∧ n = m * 10 ^ Z.of_nat k.
Proof.
  revert a. induction ds as [|c ds IH]; intros a; cbn [app].
  - intros Hr. exists a. split; [done|]. revert a Hr. induction k as [|k IH]; intros a Hr.
    + cbn in *. simplify_eq. lia.
    + rewrite Nat2Z.inj_succ, Z.pow_succ_r by lia. cbn [replicate read_digits] in Hr.
      change (is_digit "0"%char) with true in Hr. apply IH in Hr. change (code "0"%char) with 48 in Hr. lia.
  - cbn [read_digits]. destruct (is_digit c); [|done]. apply IH.
Qed.

Lemma digits_length n w :
  (0 < w ≤ 19)%nat → 0 ≤ n < 10 ^ Z.of_nat w → (length (decimals 20 n []) ≤ w)%nat.
Proof.
  intros Hw Hn. assert (10 ^ Z.of_nat w ≤ 10 ^ 19) by (apply Z.pow_le_mono_r; lia).
  destruct (decimals_spec 20 n []) as (c & ds & -> & Hr & Hd & Hz);
    [change (Z.of_nat 20) with 20; lia|lia|].
  rewrite app_nil_r. destruct (decide (c = "0"%char)) as [Hc|Hc].
  - specialize (Hz Hc) as ->. cbn. lia.
  - apply Forall_cons in Hd as [Hcd Hd]. cbn [read_digits] in Hr.
    rewrite (Is_true_true_1 _ Hcd) in Hr. apply read_digits_bounds in Hr; [|done].
    assert (1 ≤ code c - 48).
    { unfold is_digit in Hcd. apply Is_true_true_1 in Hcd.
      assert (code c ≠ 48) by (intros E; apply Hc; by rewrite <-(char_code c), E). lia. }
    cbn [length]. apply Nat2Z.inj_lt, (Z.pow_lt_mono_r_iff 10); [lia|lia|nia].
Qed.

Lemma appendInt_digits x w :
  (0 < w ≤ 19)%nat → 0 ≤ x < 10 ^ Z.of_nat w →
  length (appendInt x w) = w ∧ Forall is_digit (appendInt x w) ∧
  read_digits (appendInt x w) 0 = Some x.
Proof.
  intros Hw Hx. pose proof (digits_length x w Hw Hx) as Hl.
  assert (10 ^ Z.of_nat w ≤ 10 ^ 19) by (apply Z.pow_le_mono_r; lia).
  destruct (decimals_spec 20 x []) as (c & ds & He & Hr & Hd & _);
    [change (Z.of_nat 20) with 20; lia|lia|].
  rewrite app_nil_r in He. unfold appendInt. rewrite Z.abs_eq by lia.
  rewrite (proj2 (Z.ltb_ge _ _)) by lia. cbn [app]. split; [|split].
  - rewrite length_app, length_replicate. lia.
  - apply Forall_app. split; [by apply Forall_replicate|]. by rewrite He.
  - by rewrite read_zeros, He.
Qed.

Lemma read_fixed_appendInt x w t :
  (0 < w ≤ 19)%nat → 0 ≤ x < 10 ^ Z.of_nat w → read_fixed w (appendInt x w ++ t) = Some (x, t).
Proof.
  intros Hw Hx. destruct (appendInt_digits x w Hw Hx) as (Hl & _ & Hr).
  unfold read_fixed. rewrite length_app, Hl. rewrite (proj2 (Nat.ltb_ge _ _)) by lia.
  rewrite take_app_length' by done. rewrite drop_app_length' by done. by rewrite Hr.
Qed.

(** ** The fraction of a second *)

Lemma drop_zeros_spec p : ∃ k, p = replicate k "0"%char ++ drop_zeros p.
Proof.
  induction p as [|c p (k & IH)]; [by exists 0%nat|]. cbn [drop_zeros].
  destruct (Ascii.eqb_spec c "0"%char) as [->|]; [|by exists 0%nat].
  exists (S k). cbn. by f_equal.
Qed.

Lemma trimmed p : ∃ k, p = reverse (drop_zeros (reverse p)) ++ replicate k "0"%char.
Proof.
  destruct (drop_zeros_spec (reverse p)) as (k & Hk). exists k.
  rewrite <-(reverse_involutive p) at 1. rewrite Hk at 1. by rewrite reverse_app, reverse_replicate.
Qed.

Lemma span_digits_app ds c t :
  Forall is_digit ds → is_digit c = false → span_digits (ds ++ c :: t) = (ds, c :: t).
Proof.
  intros Hd Hc. induction Hd as [|d ds Hd _ IH]; cbn; [by rewrite Hc|].
  by rewrite (Is_true_true_1 _ Hd), IH.
Qed.

Lemma read_fraction_appendNano ns :
  0 ≤ ns < 10 ^ 9 → read_fraction (appendNano ns ++ ["Z"%char]) = Some (ns, ["Z"%char]).
Proof.
  intros Hns. unfold appendNano. destruct (Z.eqb_spec ns 0) as [->|]; [done|].
  destruct (appendInt_digits ns 9) as (Hl & Hd & Hr); [lia|done|].
  destruct (trimmed (appendInt ns 9)) as (k & Hk). set (ds := reverse _) in *. clearbody ds.
  rewrite Hk in Hl, Hd, Hr. apply Forall_app in Hd as [Hd _].
  rewrite length_app, length_replicate in Hl. apply read_scaled in Hr as (m & Hm & ->).
  cbn [app read_fraction]. rewrite Ascii.eqb_refl, span_digits_app by done.
  rewrite (proj2 (Nat.ltb_ge _ _)) by lia. rewrite Hm. cbn [mbind option_bind].
  by replace (9 - Z.of_nat (length ds)) with (Z.of_nat k) by lia.
Qed.

(** ** A time is read back *)

Lemma read_time_Format t : 0 ≤ t < 253402300800 * 10 ^ 9 → read_time (Format t) = Some t.
Proof.
  intros Ht. unfold Format. pose proof (year_day_bounds t Ht) as Hyb.
  pose proof (year_day_spec (unix_days + t / 10 ^ 9 / 86400)) as Hys.
  destruct (year_day _) as [year yday]. destruct Hys as [Hys Hyd].
  pose proof (month_day_spec (isLeap year) yday Hyd) as Hmd.
  destruct (month_day _ _) as [month day]. destruct Hmd as (Hmd & Hm & Hd).
  assert (0 ≤ t / 10 ^ 9 mod 86400 < 86400) as Hs by (apply Z.mod_pos_bound; lia).
  assert (0 ≤ t mod 10 ^ 9 < 10 ^ 9) as Hns by (apply Z.mod_pos_bound; lia).
  set (s := t / 10 ^ 9 mod 86400) in *.
  assert (0 ≤ s / 3600 < 100 ∧ 0 ≤ s / 60 mod 60 < 100 ∧ 0 ≤ s mod 60 < 100) as (H1 & H2 & H3)
    by (clearbody s; split_and!; zdiv).
  unfold read_time.
  rewrite read_fixed_appendInt by (change (10 ^ Z.of_nat 4) with 10000; lia).
  cbn [mbind option_bind expect]. rewrite Ascii.eqb_refl. cbn [mbind option_bind].
  do 4 (rewrite read_fixed_appendInt by (change (10 ^ Z.of_nat 2) with 100; lia);
        cbn [mbind option_bind expect]; rewrite Ascii.eqb_refl; cbn [mbind option_bind]).
  rewrite read_fixed_appendInt by (change (10 ^ Z.of_nat 2) with 100; lia).
  cbn [mbind option_bind]. rewrite read_fraction_appendNano by done.
  cbn [mbind option_bind expect]. rewrite Ascii.eqb_refl. cbn [mbind option_bind].
  rewrite bool_decide_eq_true_2 by done. f_equal.
  assert (days_since year month day = unix_days + t / 10 ^ 9 / 86400) as ->.
  { unfold year_start in Hys. unfold days_since. lia. }
  assert (s = 3600 * (s / 3600) + 60 * (s / 60 mod 60) + s mod 60) as Hsp by (clearbody s; zdiv).
  pose proof (Z.div_mod (t / 10 ^ 9) 86400 ltac:(lia)) as Hday. fold s in Hday.
  pose proof (Z.div_mod t (10 ^ 9) ltac:(lia)). lia.
Qed.
