(* ===== verification/WalJson.v ===== *)
(** The text of a record of the log: json.Marshal and json.Unmarshal on the struct
    Record of internal/wal/record.go, whose struct tags give the names of the fields
    and leave out the empty ones.  The theorem: a record that can be logged is
    written on one line and read back. *)

From S2P Require Import Prelude WalRecord Json JsonValue JsonLine JsonStruct.
From Stdlib Require String.

Local Open Scope Z_scope.

(** ** The fields and their names *)

Inductive string_field := FOp | FQueue | FID | FBody | FBodyB64 | FReceipt | FTo.
Inductive int_field := FTS | FNBF | FDeadline | FCount.
Inductive field := FString (f : string_field) | FInt (f : int_field) | FConfig.

(** The struct tags. *)
Definition field_names : list (string * field) :=
  [("op", FString FOp); ("q", FString FQueue); ("id", FString FID);
   ("body", FString FBody); ("body_b64", FString FBodyB64); ("ts", FInt FTS);
   ("nbf", FInt FNBF); ("deadline", FInt FDeadline); ("receipt", FString FReceipt);
   ("count", FInt FCount); ("to", FString FTo); ("cfg", FConfig)]%string.

Definition set_string (f : string_field) (s : string) (r : WRecord) : WRecord :=
  let '(mkRecord op q id body b64 ts nbf deadline receipt count to cfg) := r in
  match f with
  | FOp => mkRecord s q id body b64 ts nbf deadline receipt count to cfg
  | FQueue => mkRecord op s id body b64 ts nbf deadline receipt count to cfg
  | FID => mkRecord op q s body b64 ts nbf deadline receipt count to cfg
  | FBody => mkRecord op q id s b64 ts nbf deadline receipt count to cfg
  | FBodyB64 => mkRecord op q id body s ts nbf deadline receipt count to cfg
  | FReceipt => mkRecord op q id body b64 ts nbf deadline s count to cfg
  | FTo => mkRecord op q id body b64 ts nbf deadline receipt count s cfg
  end.

Definition set_int (f : int_field) (n : Z) (r : WRecord) : WRecord :=
  let '(mkRecord op q id body b64 ts nbf deadline receipt count to cfg) := r in
  match f with
  | FTS => mkRecord op q id body b64 n nbf deadline receipt count to cfg
  | FNBF => mkRecord op q id body b64 ts n deadline receipt count to cfg
  | FDeadline => mkRecord op q id body b64 ts nbf n receipt count to cfg
  | FCount => mkRecord op q id body b64 ts nbf deadline receipt n to cfg
  end.

Definition set_config (v : bytes) (r : WRecord) : WRecord :=
  let '(mkRecord op q id body b64 ts nbf deadline receipt count to cfg) := r in
  mkRecord op q id body b64 ts nbf deadline receipt count to v.

(** ** json.Marshal *)

Definition string_member (name s : string) : list (bytes * bytes) :=
  if decide (s = "")%string then [] else [(bytes_of name, quote (bytes_of s))].

Definition int_member (name : string) (n : Z) : list (bytes * bytes) :=
  if decide (n = 0) then [] else [(bytes_of name, FormatInt n)].

Definition raw_member (name : string) (v : bytes) : list (bytes * bytes) :=
  if decide (v = []) then [] else [(bytes_of name, compact v)].

Definition record_members (r : WRecord) : list (bytes * bytes) :=
  (bytes_of "op", quote (bytes_of (r_Op r)))
  :: string_member "q" (r_Queue r)
  ++ string_member "id" (r_ID r)
  ++ string_member "body" (r_Body r)
  ++ string_member "body_b64" (r_BodyB64 r)
  ++ int_member "ts" (r_TS r)
  ++ int_member "nbf" (r_NBF r)
  ++ int_member "deadline" (r_Deadline r)
  ++ string_member "receipt" (r_Receipt r)
  ++ int_member "count" (r_Count r)
  ++ string_member "to" (r_To r)
  ++ raw_member "cfg" (r_Config r).

(** A raw message that is not valid JSON is an error. *)
Definition Marshal_record (r : WRecord) : option bytes :=
  if decide (r_Config r = []) then Some (written_object (record_members r))
  else if Valid (r_Config r) then Some (written_object (record_members r))
  else None.

(** ** json.Unmarshal *)

Definition find_field (key : bytes) : option field := find_in field_names key.

(** The text of a value is stored in a field: [None] for a value of another type.
    null leaves strings and integers alone. *)
Definition store (f : field) (v : bytes) (r : WRecord) : option WRecord :=
  match f with
  | FString f =>
    if decide (v = null_text) then Some r
    else s ← unquote_text v; Some (set_string f (String.string_of_list_ascii s) r)
  | FInt f =>
    if decide (v = null_text) then Some r else n ← ParseInt v; Some (set_int f n r)
  | FConfig => Some (set_config v r)
  end.

Definition store_members (ms : list (bytes * bytes)) (r : WRecord) : option WRecord :=
  decode_members field_names store ms r.

(** Into a fresh Record. *)
Definition Unmarshal_record (b : bytes) : option WRecord :=
  decode_struct field_names store b (zero_record "" "").

(** ** A record that is written is read back *)

Definition int64 (n : Z) : bool := (- 2 ^ 63 <=? n) && (n <? 2 ^ 63).

Record loggable (r : WRecord) : Prop := {
  lg_Op : utf8 (r_Op r) = true;
  lg_Queue : utf8 (r_Queue r) = true;
  lg_ID : utf8 (r_ID r) = true;
  lg_Body : utf8 (r_Body r) = true;
  lg_BodyB64 : utf8 (r_BodyB64 r) = true;
  lg_TS : int64 (r_TS r) = true;
  lg_NBF : int64 (r_NBF r) = true;
  lg_Deadline : int64 (r_Deadline r) = true;
  lg_Receipt : utf8 (r_Receipt r) = true;
  lg_Count : int64 (r_Count r) = true;
  lg_To : utf8 (r_To r) = true;
  lg_Config : r_Config r = [] ∨ plain_json (r_Config r);
}.

(** A name that is written as it is. *)
Lemma plain_names : Forall (λ nf, plain_name field_names nf.1 nf.2) field_names.
Proof. by repeat constructor. Qed.

Lemma field_name name f : (name, f) ∈ field_names → plain_name field_names name f.
Proof. intros Hin. exact (proj1 (Forall_forall _ _) plain_names _ Hin). Qed.

Lemma good_quote name f s :
  (name, f) ∈ field_names → utf8 s = true →
  good_member (maxNestingDepth - 1) (bytes_of name, quote (bytes_of s)).
Proof. intros Hn Hs. split; [apply (field_name _ _ Hn)|by apply quote_bare]. Qed.

Lemma string_member_good name f s :
  (name, f) ∈ field_names → utf8 s = true →
  Forall (good_member (maxNestingDepth - 1)) (string_member name s).
Proof.
  intros Hn Hs. unfold string_member. case_decide; [done|].
  constructor; [by eapply good_quote|done].
Qed.

Lemma int64_range n : int64 n = true → - 2 ^ 63 ≤ n < 2 ^ 63.
Proof. unfold int64. lia. Qed.

Lemma int_member_good name f n :
  (name, f) ∈ field_names → int64 n = true →
  Forall (good_member (maxNestingDepth - 1)) (int_member name n).
Proof.
  intros Hn Hs%int64_range. unfold int_member. case_decide; [done|].
  constructor; [|done]. split; [apply (field_name _ _ Hn)|by apply FormatInt_bare].
Qed.

Lemma raw_member_good name f v :
  (name, f) ∈ field_names → v = [] ∨ plain_json v →
  Forall (good_member (maxNestingDepth - 1)) (raw_member name v).
Proof.
  intros Hn Hv. unfold raw_member. case_decide; [done|].
  destruct Hv as [->|[Hb Hc]]; [done|].
  constructor; [|done]. split; [apply (field_name _ _ Hn)|by rewrite Hc].
Qed.

Lemma record_members_good r :
  loggable r → Forall (good_member (maxNestingDepth - 1)) (record_members r).
Proof.
  intros []. unfold record_members.
  constructor; [eapply good_quote; [field_in|done]|].
  repeat (apply Forall_app; split);
    first [eapply string_member_good; [field_in|done]
          |eapply int_member_good; [field_in|done]
          |eapply raw_member_good; [field_in|done]].
Qed.

(** Each member puts its field back; a field that is left out is empty already. *)
Lemma store_quote f s r :
  utf8 s = true → store (FString f) (quote (bytes_of s)) r = Some (set_string f s r).
Proof.
  intros Hs. unfold store. rewrite decide_False by done.
  rewrite unquote_text_quote by done. cbn [mbind option_bind]. by rewrite bytes_of_inv.
Qed.

Lemma store_FormatInt f n r :
  int64 n = true → store (FInt f) (FormatInt n) r = Some (set_int f n r).
Proof.
  intros Hn%int64_range. unfold store. rewrite decide_False.
  - by rewrite ParseInt_FormatInt.
  - intros He. pose proof (ParseInt_FormatInt n Hn) as Hp. by rewrite He in Hp.
Qed.

Lemma store_member name f v ms r r' :
  (name, f) ∈ field_names → store f v r = Some r' →
  store_members ((bytes_of name, v) :: ms) r = store_members ms r'.
Proof. intros Hn%field_name. by apply decode_member. Qed.

Lemma store_string_member name f s ms r :
  (name, FString f) ∈ field_names → utf8 s = true → set_string f "" r = r →
  store_members (string_member name s ++ ms) r = store_members ms (set_string f s r).
Proof.
  intros Hn Hs Hr. unfold string_member. case_decide as He; [by subst; rewrite Hr|].
  cbn [app]. eapply store_member; [exact Hn|by apply store_quote].
Qed.

Lemma store_int_member name f n ms r :
  (name, FInt f) ∈ field_names → int64 n = true → set_int f 0 r = r →
  store_members (int_member name n ++ ms) r = store_members ms (set_int f n r).
Proof.
  intros Hn Hs Hr. unfold int_member. case_decide as He; [by subst; rewrite Hr|].
  cbn [app]. eapply store_member; [exact Hn|by apply store_FormatInt].
Qed.

Lemma store_raw_member v r :
  v = [] ∨ plain_json v → set_config [] r = r →
  store_members (raw_member "cfg" v) r = Some (set_config v r).
Proof.
  intros Hv Hr. unfold raw_member. case_decide as He; [by subst; rewrite Hr|].
  destruct Hv as [|[_ Hc]]; [done|].
  erewrite store_member; [|field_in|reflexivity]. by rewrite Hc.
Qed.

Lemma store_record_members r :
  loggable r → store_members (record_members r) (zero_record "" "") = Some r.
Proof.
  intros []. destruct r as [op q id body b64 ts nbf deadline receipt count to cfg].
  cbn [r_Op r_Queue r_ID r_Body r_BodyB64 r_TS r_NBF r_Deadline r_Receipt r_Count r_To
         r_Config] in *.
  unfold record_members. cbn [r_Op r_Queue r_ID r_Body r_BodyB64 r_TS r_NBF r_Deadline
    r_Receipt r_Count r_To r_Config].
  erewrite (store_member "op"); [|field_in|by apply (store_quote FOp)].
  repeat first
    [erewrite store_string_member; [|field_in|done|reflexivity]
    |erewrite store_int_member; [|field_in|done|reflexivity]].
  by rewrite store_raw_member.
Qed.

(** ** One record, one line *)

Definition one_line (m : bytes * bytes) : Prop := (newline ∉ m.1) ∧ (newline ∉ m.2).

Lemma not_in_cons (c : ascii) p : newline ≠ c → newline ∉ p → newline ∉ c :: p.
Proof. intros Hc Hp [?|?]%elem_of_cons; auto. Qed.

Lemma not_in_app (p q : bytes) : newline ∉ p → newline ∉ q → newline ∉ p ++ q.
Proof. intros Hp Hq [?|?]%elem_of_app; auto. Qed.

Lemma not_in_nil : newline ∉ ([] : bytes).
Proof. by intros ?%elem_of_nil. Qed.

Lemma written_member_one_line m : one_line m → newline ∉ written_member m.
Proof.
  intros [Hk Hv]. unfold written_member.
  repeat first [apply not_in_cons; [done|] | apply not_in_app]; done.
Qed.

Lemma written_object_one_line ms : Forall one_line ms → newline ∉ written_object ms.
Proof.
  intros Hms. unfold written_object. apply not_in_cons; [done|].
  apply not_in_app; [|by apply not_in_cons, not_in_nil].
  induction Hms as [|m ms Hm Hms IH]; [apply not_in_nil|].
  destruct ms as [|m' ms]; [by apply written_member_one_line|].
  change (newline ∉ written_member m ++ ","%char :: written_members (m' :: ms)).
  apply not_in_app; [by apply written_member_one_line|]. by apply not_in_cons.
Qed.

Lemma FormatInt_one_line n : newline ∉ FormatInt n.
Proof.
  assert (∀ fuel m acc, newline ∉ acc → newline ∉ decimals fuel m acc) as Hd.
  { induction fuel as [|fuel IH]; intros m acc Hacc; [done|]. cbn [decimals].
    assert (newline ∉ char (48 + m mod 10) :: acc) as Hc.
    { apply not_in_cons; [|done]. intros Hc%(f_equal code).
      rewrite digit_code in Hc by (apply Z.mod_pos_bound; lia).
      change (code newline) with 10 in Hc. pose proof (Z.mod_pos_bound m 10). lia. }
    destruct (m <? 10); [done|]. by apply IH. }
  unfold FormatInt. destruct (n <? 0); [apply not_in_cons; [done|]|];
    apply Hd, not_in_nil.
Qed.

Lemma quote_one_line s : newline ∉ quote s.
Proof.
  apply not_in_cons; [done|].
  apply not_in_app; [apply quote_body_lines|by apply not_in_cons, not_in_nil].
Qed.

Lemma names_one_line : Forall (λ nf, newline ∉ bytes_of nf.1) field_names.
Proof. apply (bool_decide_eq_true_1 _). vm_compute. reflexivity. Qed.

Lemma name_one_line name f v :
  (name, f) ∈ field_names → newline ∉ v → Forall one_line [(bytes_of name, v)].
Proof.
  intros Hn Hv. constructor; [|done]. split; [|done].
  exact (proj1 (Forall_forall _ _) names_one_line _ Hn).
Qed.

Lemma record_members_one_line r :
  r_Config r = [] ∨ Valid (r_Config r) = true → Forall one_line (record_members r).
Proof.
  intros Hcfg. unfold record_members.
  apply (Forall_app_2 _ [_]); [eapply name_one_line; [field_in|apply quote_one_line]|].
  assert (∀ s name f, (name, f) ∈ field_names → Forall one_line (string_member name s)) as Hs.
  { intros s name f Hn. unfold string_member. case_decide; [done|].
    eapply name_one_line; [exact Hn|apply quote_one_line]. }
  assert (∀ n name f, (name, f) ∈ field_names → Forall one_line (int_member name n)) as Hi.
  { intros n name f Hn. unfold int_member. case_decide; [done|].
    eapply name_one_line; [exact Hn|apply FormatInt_one_line]. }
  repeat (apply Forall_app; split);
    try (eapply Hs; field_in); try (eapply Hi; field_in).
  unfold raw_member. case_decide as Hc; [done|]. destruct Hcfg as [|Hv]; [done|].
  eapply name_one_line; [field_in|]. by apply compact_lines.
Qed.

(** Whatever the record, its text is on one line. *)
Lemma Marshal_one_line r b : Marshal_record r = Some b → newline ∉ b.
Proof.
  unfold Marshal_record. intros H. case_decide as Hc.
  - simplify_eq. apply written_object_one_line, record_members_one_line. by left.
  - destruct (Valid (r_Config r)) eqn:Hv; [|done]. simplify_eq.
    apply written_object_one_line, record_members_one_line. by right.
Qed.

Definition record_text (r : WRecord) : bytes := written_object (record_members r).

Lemma Marshal_loggable r : loggable r → Marshal_record r = Some (record_text r).
Proof.
  intros []. unfold Marshal_record. case_decide; [done|].
  destruct lg_Config0 as [|Hp]; [done|]. by rewrite (Valid_plain _ Hp).
Qed.

Lemma Unmarshal_text r : loggable r → Unmarshal_record (record_text r) = Some r.
Proof.
  intros Hr. unfold Unmarshal_record, record_text.
  rewrite decode_written; [by apply store_record_members|done|by apply record_members_good].
Qed.

#[export] Hint Resolve Marshal_loggable Unmarshal_text : duraq.
