(* ===== verification/Os.v ===== *)
(** The operating system as the log sees it: files, descriptors, system calls that
    may fail, and machines that may stop in the middle of a call; and bufio.Writer
    of the Go library.

    The environment answers every system call: it succeeds, it fails (a write may
    have written a part of its data), or the machine stops during the call.  What a
    machine that stops leaves of a file is a prefix of what was written to it, at
    least what was there at the last fsync ([crash]); names of files are durable. *)

From S2P Require Import Prelude.

Local Open Scope nat_scope.

(** ** The state *)

(** What a file holds, and how much of it is known to be on the disk. *)
Record inode := mkInode { i_data : bytes; i_synced : nat }.

(** An open file: what it refers to, its offset, and whether it was opened with
    O_APPEND. *)
Record file := mkFile { f_inode : nat; f_off : nat; f_append : bool }.

(** An answer of the environment; the number says how far a call got. *)
Inductive answer := Done | Fails (n : nat) | Stops (n : nat).

Record os := mkOs {
  o_names : gmap string nat;    (* the directory *)
  o_inodes : gmap nat inode;
  o_files : gmap nat file;      (* open files *)
  o_next : nat;                 (* the next inode and descriptor *)
  o_answers : list answer;      (* of all calls but fsync; an empty list is Done *)
  o_syncs : list answer;        (* of fsync *)
  o_temps : list string;        (* random parts of temporary names *)
}.

Definition set_names m s :=
  mkOs m (o_inodes s) (o_files s) (o_next s) (o_answers s) (o_syncs s) (o_temps s).
Definition set_inodes m s :=
  mkOs (o_names s) m (o_files s) (o_next s) (o_answers s) (o_syncs s) (o_temps s).
Definition set_files m s :=
  mkOs (o_names s) (o_inodes s) m (o_next s) (o_answers s) (o_syncs s) (o_temps s).
Definition set_next n s :=
  mkOs (o_names s) (o_inodes s) (o_files s) n (o_answers s) (o_syncs s) (o_temps s).
Definition set_answers l s :=
  mkOs (o_names s) (o_inodes s) (o_files s) (o_next s) l (o_syncs s) (o_temps s).
Definition set_syncs l s :=
  mkOs (o_names s) (o_inodes s) (o_files s) (o_next s) (o_answers s) l (o_temps s).
Definition set_temps l s :=
  mkOs (o_names s) (o_inodes s) (o_files s) (o_next s) (o_answers s) (o_syncs s) l.

(** ** Programs: they return, or the machine stops, or they panic *)

Inductive outcome (A : Type) := Returns (a : A) | Dies | Panics.
Arguments Returns {A} a.
Arguments Dies {A}.
Arguments Panics {A}.

Definition IO (A : Type) : Type := os → outcome A * os.

#[export] Instance IO_ret : MRet IO := λ A a s, (Returns a, s).
#[export] Instance IO_bind : MBind IO := λ A B f c s,
  match c s with
  | (Returns a, s') => f a s'
  | (Dies, s') => (Dies, s')
  | (Panics, s') => (Panics, s')
  end.

(** [io c Q C s]: run in [s], the program does not panic; if it returns, [Q] holds,
    and if the machine stops, [C] holds. *)
Definition io {A} (c : IO A) (Q : A → os → Prop) (C : os → Prop) (s : os) : Prop :=
  match c s with (Returns a, s') => Q a s' | (Dies, s') => C s' | (Panics, _) => False end.

Lemma io_bind {A B} (c : IO A) (f : A → IO B) Q C s :
  io c (λ a, io (f a) Q C) C s → io (c ≫= f) Q C s.
Proof. unfold io, mbind, IO_bind. by destruct (c s) as [[] ?]. Qed.

Lemma io_ret {A} (a : A) (Q : A → os → Prop) C s : Q a s → io (mret a) Q C s.
Proof. done. Qed.

Lemma io_mono {A} (c : IO A) (P Q : A → os → Prop) (C D : os → Prop) s :
  io c P C s → (∀ a s', P a s' → Q a s') → (∀ s', C s' → D s') → io c Q D s.
Proof. unfold io. destruct (c s) as [[] ?]; auto. Qed.

Lemma io_use {A} (c : IO A) (Q : A → os → Prop) C s a s' :
  io c Q C s → c s = (Returns a, s') → Q a s'.
Proof. unfold io. intros H E. by rewrite E in H. Qed.

Lemma io_dies {A} (c : IO A) (Q : A → os → Prop) C s s' :
  io c Q C s → c s = (Dies, s') → C s'.
Proof. unfold io. intros H E. by rewrite E in H. Qed.

(** ** System calls *)

Definition os_error (call : string) : error := Errorf "%s: input/output error" [AStr call].
Definition not_found : error := Errorf "open: no such file or directory" [].
Definition is_closed : error := Errorf "file already closed" [].

Definition ask : IO answer := λ s,
  match o_answers s with
  | [] => (Returns Done, s)
  | a :: l => (Returns a, set_answers l s)
  end.

Definition ask_sync : IO answer := λ s,
  match o_syncs s with
  | [] => (Returns Done, s)
  | a :: l => (Returns a, set_syncs l s)
  end.

Definition get_os : IO os := λ s, (Returns s, s).
Definition put_os (s : os) : IO () := λ _, (Returns (), s).
Definition stop_at (s : os) : IO () := λ _, (Dies, s).
Definition io_panic {A} : IO A := λ s, (Panics, s).

(** The bytes of [d] after [p] was written at offset [off]; a gap is filled with
    zero bytes. *)
Definition write_at (off : nat) (p d : bytes) : bytes :=
  resize off "000"%char d ++ p ++ drop (off + length p) d.

Definition put_file (f : nat) (fl : file) (s : os) : os := set_files (<[f := fl]> (o_files s)) s.
Definition put_inode (i : nat) (d : inode) (s : os) : os := set_inodes (<[i := d]> (o_inodes s)) s.

(** The state after [p] was written through the descriptor [f]. *)
Definition written (f : nat) (p : bytes) (s : os) : os :=
  match o_files s !! f with
  | Some fl =>
    match o_inodes s !! f_inode fl with
    | Some ino =>
      let off := if f_append fl then length (i_data ino) else f_off fl in
      put_file f (mkFile (f_inode fl) (off + length p) (f_append fl))
        (put_inode (f_inode fl)
           (mkInode (write_at off p (i_data ino)) (i_synced ino `min` off)) s)
    | None => s
    end
  | None => s
  end.

(** os.File.Write: it returns fewer bytes than it was given with an error only. *)
Definition Write (f : nat) (p : bytes) : IO (nat * option error) :=
  s ← get_os;
  match o_files s !! f with
  | None => mret (0, Some is_closed)
  | Some _ =>
    a ← ask; s ← get_os;
    match a with
    | Done => _ ← put_os (written f p s); mret (length p, None)
    | Fails n =>
      let n := n `min` pred (length p) in
      _ ← put_os (written f (take n p) s); mret (n, Some (os_error "write"))
    | Stops n => _ ← stop_at (written f (take n p) s); mret (0, None)
    end
  end.

(** os.File.Sync *)
Definition Sync (f : nat) : IO (option error) :=
  s ← get_os;
  match o_files s !! f with
  | None => mret (Some is_closed)
  | Some fl =>
    a ← ask_sync; s ← get_os;
    let synced :=
      match o_inodes s !! f_inode fl with
      | Some ino => put_inode (f_inode fl) (mkInode (i_data ino) (length (i_data ino))) s
      | None => s
      end in
    match a with
    | Done => _ ← put_os synced; mret None
    | Fails _ => mret (Some (os_error "fsync"))
    | Stops _ => _ ← stop_at s; mret None
    end
  end.

(** os.File.Close *)
Definition Close (f : nat) : IO (option error) :=
  s ← get_os;
  match o_files s !! f with
  | None => mret (Some is_closed)
  | Some _ =>
    a ← ask; s ← get_os;
    let s' := set_files (delete f (o_files s)) s in
    match a with
    | Done => _ ← put_os s'; mret None
    | Fails _ => _ ← put_os s'; mret (Some (os_error "close"))
    | Stops _ => _ ← stop_at s; mret None
    end
  end.

(** os.File.Truncate *)
Definition Truncate (f : nat) (n : nat) : IO (option error) :=
  s ← get_os;
  match o_files s !! f with
  | None => mret (Some is_closed)
  | Some fl =>
    a ← ask; s ← get_os;
    let s' :=
      match o_inodes s !! f_inode fl with
      | Some ino =>
        put_inode (f_inode fl)
          (mkInode (resize n "000"%char (i_data ino)) (i_synced ino `min` n)) s
      | None => s
      end in
    match a with
    | Done => _ ← put_os s'; mret None
    | Fails _ => mret (Some (os_error "truncate"))
    | Stops _ => _ ← stop_at s; mret None
    end
  end.

(** os.File.Seek from the start of the file *)
Definition Seek (f : nat) (n : nat) : IO (option error) :=
  s ← get_os;
  match o_files s !! f with
  | None => mret (Some is_closed)
  | Some fl =>
    a ← ask; s ← get_os;
    match a with
    | Done => _ ← put_os (put_file f (mkFile (f_inode fl) n (f_append fl)) s); mret None
    | Fails _ => mret (Some (os_error "seek"))
    | Stops _ => _ ← stop_at s; mret None
    end
  end.

(** The result of os.ReadFile: the test os.IsNotExist is the first case. *)
Inductive read_result := NotExist | Contents (b : bytes) | ReadError (e : error).

Definition ReadFile (path : string) : IO read_result :=
  a ← ask; s ← get_os;
  match a with
  | Done =>
    match o_names s !! path with
    | None => mret NotExist
    | Some i => mret (Contents (from_option i_data [] (o_inodes s !! i)))
    end
  | Fails _ => mret (ReadError (os_error "read"))
  | Stops _ => _ ← stop_at s; mret NotExist
  end.

(** A descriptor for the inode [i]. *)
Definition opened (i : nat) (append : bool) (s : os) : os :=
  set_next (S (o_next s)) (put_file (o_next s) (mkFile i 0 append) s).

(** A new, empty file. *)
Definition created (path : string) (s : os) : os :=
  set_next (S (o_next s))
    (put_inode (o_next s) (mkInode [] 0) (set_names (<[path := o_next s]> (o_names s)) s)).

(** os.OpenFile for writing, with O_CREATE or O_APPEND. *)
Definition OpenFile (path : string) (create append : bool) : IO (result nat) :=
  a ← ask; s ← get_os;
  match a with
  | Fails _ => mret (Err (os_error "open"))
  | Stops _ => _ ← stop_at s; mret (Err not_found)
  | Done =>
    match o_names s !! path with
    | Some i => _ ← put_os (opened i append s); mret (Ok (o_next s))
    | None =>
      if create then
        _ ← put_os (opened (o_next s) append (created path s)); mret (Ok (S (o_next s)))
      else mret (Err not_found)
    end
  end.

(** os.CreateTemp: the first random name that is not taken. *)
Definition CreateTemp (prefix : string) : IO (result (string * nat)) :=
  a ← ask; s ← get_os;
  match a with
  | Fails _ => mret (Err (os_error "createtemp"))
  | Stops _ => _ ← stop_at s; mret (Err not_found)
  | Done =>
    match List.find (λ r, bool_decide (o_names s !! (prefix +:+ r) = None)) (o_temps s) with
    | None => mret (Err (Errorf "createtemp: file exists" []))
    | Some r =>
      let path := prefix +:+ r in
      _ ← put_os (opened (o_next s) false (created path s)); mret (Ok (path, S (o_next s)))
    end
  end.

(** os.Rename *)
Definition Rename (old new : string) : IO (option error) :=
  a ← ask; s ← get_os;
  match o_names s !! old with
  | None => mret (Some not_found)
  | Some i =>
    let s' := set_names (<[new := i]> (delete old (o_names s))) s in
    match a with
    | Done => _ ← put_os s'; mret None
    | Fails _ => mret (Some (os_error "rename"))
    | Stops 0 => _ ← stop_at s; mret None
    | Stops _ => _ ← stop_at s'; mret None
    end
  end.

(** os.Remove *)
Definition Remove (path : string) : IO (option error) :=
  a ← ask; s ← get_os;
  match o_names s !! path with
  | None => mret (Some not_found)
  | Some _ =>
    match a with
    | Done => _ ← put_os (set_names (delete path (o_names s)) s); mret None
    | Fails _ => mret (Some (os_error "remove"))
    | Stops _ => _ ← stop_at s; mret None
    end
  end.

(** os.MkdirAll: the directory is there, or it is not. *)
Definition MkdirAll : IO (option error) :=
  a ← ask; s ← get_os;
  match a with
  | Done => mret None
  | Fails _ => mret (Some (os_error "mkdir"))
  | Stops _ => _ ← stop_at s; mret None
  end.

(** What is left after the machine has stopped. *)
Record crash (s s' : os) : Prop := {
  cr_names : o_names s' = o_names s;
  cr_inodes i : match o_inodes s !! i, o_inodes s' !! i with
                | Some a, Some b => ∃ n, i_synced a ≤ n ∧ b = mkInode (take n (i_data a)) (length (take n (i_data a)))
                | None, None => True
                | _, _ => False
                end;
}.

(** ** bufio.Writer *)

Record Writer := mkWriter { w_fd : nat; w_buf : bytes; w_err : option error }.

Definition bufio_size : nat := 4096.
#[global] Arguments bufio_size : simpl never.
Definition NewWriter (f : nat) : Writer := mkWriter f [] None.
Definition ErrShortWrite : error := Errorf "short write" [].

(** Flush.  The error of a write is kept and every later call returns it. *)
Definition Flush (w : Writer) : IO (Writer * option error) :=
  match w_err w with
  | Some e => mret (w, Some e)
  | None =>
    if decide (w_buf w = []) then mret (w, None) else
    '(n, err) ← Write (w_fd w) (w_buf w);
    let err := if (n <? length (w_buf w)) && bool_decide (err = None)
               then Some ErrShortWrite else err in
    match err with
    | Some e => mret (mkWriter (w_fd w) (drop n (w_buf w)) (Some e), Some e)
    | None => mret (mkWriter (w_fd w) [] None, None)
    end
  end.

(** The loop of Write, with what is left of the data when it ends. *)
Fixpoint write_loop (fuel : nat) (w : Writer) (p : bytes) : IO (Writer * bytes) :=
  let available := bufio_size - length (w_buf w) in
  if (available <? length p) && bool_decide (w_err w = None) then
    match fuel with
    | O => io_panic
    | S fuel =>
      if decide (w_buf w = []) then
        '(n, err) ← Write (w_fd w) p;
        write_loop fuel (mkWriter (w_fd w) [] err) (drop n p)
      else
        '(w, _) ← Flush (mkWriter (w_fd w) (w_buf w ++ take available p) None);
        write_loop fuel w (drop available p)
    end
  else mret (w, p).

(** Write: at most two turns, to fill the buffer and to write the rest. *)
Definition buf_Write (w : Writer) (p : bytes) : IO (Writer * option error) :=
  '(w, p) ← write_loop 2 w p;
  match w_err w with
  | Some e => mret (w, Some e)
  | None => mret (mkWriter (w_fd w) (w_buf w ++ p) None, None)
  end.

(** WriteByte *)
Definition buf_WriteByte (w : Writer) (c : ascii) : IO (Writer * option error) :=
  match w_err w with
  | Some e => mret (w, Some e)
  | None =>
    if bufio_size - length (w_buf w) <=? 0 then
      '(w, err) ← Flush w;
      match err with
      | Some e => mret (w, Some e)
      | None => mret (mkWriter (w_fd w) (w_buf w ++ [c]) None, None)
      end
    else mret (mkWriter (w_fd w) (w_buf w ++ [c]) None, None)
  end.
