(* ===== verification/OsFacts.v ===== *)
(** What the system calls and bufio.Writer do to a file that is written at its end:
    the data arrives in order, and a failure or a stop of the machine leaves a part
    of it. *)

From S2P Require Import Prelude Os.

Local Open Scope nat_scope.

(** ** Running programs *)

Lemma io_get (Q : os → os → Prop) C s : Q s s → io get_os Q C s.
Proof. done. Qed.

Lemma io_put s' (Q : () → os → Prop) C s : Q () s' → io (put_os s') Q C s.
Proof. done. Qed.

Lemma io_stop s' (Q : () → os → Prop) (C : os → Prop) s : C s' → io (stop_at s') Q C s.
Proof. done. Qed.

(** A machine that does not stop, and whose fsync does not fail. *)
Definition calm (s : os) : Prop :=
  (∀ n, Stops n ∉ o_answers s) ∧ Forall (eq Done) (o_syncs s).

(** A machine whose fsync does not fail; it may stop. *)
Definition flushes (s : os) : Prop := ∀ n, Fails n ∉ o_syncs s.

(** A machine on which every call succeeds. *)
Definition willing (s : os) : Prop := o_answers s = [] ∧ o_syncs s = [].

Lemma calm_flushes s : calm s → flushes s.
Proof. intros [_ Hs] n Hin. rewrite Forall_forall in Hs. by specialize (Hs _ Hin). Qed.

(** The environment has answered. *)
Definition asked (s : os) (a : answer) (s1 : os) : Prop :=
  (∃ l, s1 = set_answers l s ∧ l `suffix_of` o_answers s) ∧ (calm s → ∀ n, a ≠ Stops n) ∧
  (willing s → a = Done).

Lemma io_ask (Q : answer → os → Prop) C s :
  (∀ a s1, asked s a s1 → Q a s1) → io ask Q C s.
Proof.
  intros HQ. unfold io, ask. destruct (o_answers s) as [|a l] eqn:Ha; apply HQ.
  - split; [exists []; split; [|apply suffix_nil]; rewrite <-Ha; by destruct s|done].
  - split; [exists l; split; [done|rewrite Ha; by apply suffix_cons_r]|]. split.
    + intros [Hc _] n ->. apply (Hc n). rewrite Ha. by left.
    + intros [Hw _]. congruence.
Qed.

Definition asked_sync (s : os) (a : answer) (s1 : os) : Prop :=
  (∃ l, s1 = set_syncs l s ∧ l `suffix_of` o_syncs s) ∧ (calm s → a = Done) ∧
  (willing s → a = Done) ∧ (flushes s → ∀ n, a ≠ Fails n).

Lemma io_ask_sync (Q : answer → os → Prop) C s :
  (∀ a s1, asked_sync s a s1 → Q a s1) → io ask_sync Q C s.
Proof.
  intros HQ. unfold io, ask_sync. destruct (o_syncs s) as [|a l] eqn:Ha; apply HQ.
  - split; [exists []; split; [|apply suffix_nil]; rewrite <-Ha; by destruct s|done].
  - split; [exists l; split; [done|rewrite Ha; by apply suffix_cons_r]|].
    split.
    + intros [_ Hc]. rewrite Ha in Hc. by apply Forall_cons in Hc as [<- _].
    + split; [intros [_ Hw]; congruence|]. intros Hf n ->. apply (Hf n). rewrite Ha. by left.
Qed.

Ltac io_step :=
  lazymatch goal with
  | |- io (mbind _ _) _ _ _ => apply io_bind
  | |- io (mret _) _ _ _ => apply io_ret
  | |- io get_os _ _ _ => apply io_get
  | |- io (put_os _) _ _ _ => apply io_put
  | |- io (stop_at _) _ _ _ => apply io_stop
  end.
Ltac io_steps := repeat (io_step; cbn beta).

(** ** What a call leaves alone *)

(** All but the open file [f] and the contents of the inode [i]. *)
Record frame (f i : nat) (s s' : os) : Prop := {
  fr_names : o_names s' = o_names s;
  fr_inodes j : j ≠ i → o_inodes s' !! j = o_inodes s !! j;
  fr_files g : g ≠ f → o_files s' !! g = o_files s !! g;
  fr_next : o_next s' = o_next s;
  fr_answers : o_answers s' `suffix_of` o_answers s;
  fr_syncs : o_syncs s' `suffix_of` o_syncs s;
}.

Lemma frame_refl f i s : frame f i s s.
Proof. by split. Qed.

Lemma frame_trans f i s1 s2 s3 : frame f i s1 s2 → frame f i s2 s3 → frame f i s1 s3.
Proof.
  intros [H1 H2 H3 H4 H5 H6] [K1 K2 K3 K4 K5 K6].
  split; [congruence| | |congruence|by trans (o_answers s2)|by trans (o_syncs s2)].
  - intros j Hj. by rewrite K2, H2.
  - intros g Hg. by rewrite K3, H3.
Qed.

Lemma calm_suffix s s' :
  o_answers s' `suffix_of` o_answers s → o_syncs s' `suffix_of` o_syncs s → calm s → calm s'.
Proof.
  intros [l Hl] [l' Hl'] [Hc Hs]. split.
  - intros n Hin. apply (Hc n). rewrite Hl. apply elem_of_app. by right.
  - rewrite Hl' in Hs. by apply Forall_app in Hs as [_ ?].
Qed.

Lemma frame_calm f i s s' : frame f i s s' → calm s → calm s'.
Proof. intros Hf. apply calm_suffix; apply Hf. Qed.

Lemma flushes_suffix s s' : o_syncs s' `suffix_of` o_syncs s → flushes s → flushes s'.
Proof. intros [l Hl] Hs n Hin. apply (Hs n). rewrite Hl. apply elem_of_app. by right. Qed.

Lemma frame_flushes f i s s' : frame f i s s' → flushes s → flushes s'.
Proof. intros Hf. apply flushes_suffix, Hf. Qed.

Lemma frame_willing f i s s' : frame f i s s' → willing s → willing s'.
Proof.
  intros Hf [Ha Hs]. pose proof (fr_answers _ _ _ _ Hf) as Ha'.
  pose proof (fr_syncs _ _ _ _ Hf) as Hs'. rewrite Ha in Ha'. rewrite Hs in Hs'.
  split; by apply suffix_nil_inv.
Qed.

Lemma asked_frame f i s a s1 : asked s a s1 → frame f i s s1.
Proof. intros [(l & -> & Hl) _]. by split. Qed.

Lemma asked_sync_frame f i s a s1 : asked_sync s a s1 → frame f i s s1.
Proof. intros [(l & -> & Hl) _]. by split. Qed.

#[export] Hint Resolve frame_refl asked_frame asked_sync_frame : duraq.

(** ** Files that are written at their end *)

(** The descriptor [f] writes at the end of the inode [i], which holds [d]; the
    first [sy] bytes are on the disk. *)
Definition at_end (s : os) (f i : nat) (d : bytes) (sy : nat) : Prop :=
  (∃ off ap, o_files s !! f = Some (mkFile i off ap) ∧ (ap = true ∨ off = length d)) ∧
  o_inodes s !! i = Some (mkInode d sy) ∧ sy ≤ length d.

Lemma asked_at_end s a s1 f i d sy : asked s a s1 → at_end s f i d sy → at_end s1 f i d sy.
Proof. by intros [(l & -> & _) _]. Qed.

Lemma asked_sync_at_end s a s1 f i d sy :
  asked_sync s a s1 → at_end s f i d sy → at_end s1 f i d sy.
Proof. by intros [(l & -> & _) _]. Qed.

Lemma written_at_end s f i d sy p :
  at_end s f i d sy →
  at_end (written f p s) f i (d ++ p) sy ∧ frame f i s (written f p s).
Proof.
  intros ((off & ap & Hf & Hoff) & Hi & Hsy). unfold written. rewrite Hf. cbn [f_inode f_append f_off].
  rewrite Hi. cbn [i_data i_synced].
  assert ((if ap then length d else off) = length d) as -> by by destruct ap, Hoff.
  assert (write_at (length d) p d = d ++ p) as ->.
  { unfold write_at. rewrite resize_all, drop_ge, app_nil_r by lia. done. }
  rewrite Nat.min_l by lia. split.
  - split; [|split].
    + exists (length d + length p), ap. cbn. rewrite lookup_insert_eq. split; [done|].
      right. by rewrite length_app.
    + cbn. by rewrite lookup_insert_eq.
    + rewrite length_app. lia.
  - split; cbn; try done; intros; by rewrite lookup_insert_ne.
Qed.

(** The machine stops while [T] is being written to the inode [i], which held [d]. *)
Record stopped (i : nat) (s : os) (d T : bytes) (sy : nat) (s' : os) : Prop := {
  sd_calm : ¬ calm s;
  sd_names : o_names s' = o_names s;
  sd_inodes j : j ≠ i → o_inodes s' !! j = o_inodes s !! j;
  sd_data : ∃ d', o_inodes s' !! i = Some (mkInode d' sy) ∧ sy ≤ length d' ∧
              d `prefix_of` d' ∧ d' `prefix_of` T;
}.

Lemma at_end_stopped i s f d sy s' f' T d0 :
  ¬ calm s → at_end s' f i d sy → frame f' i s s' →
  d0 `prefix_of` d → d `prefix_of` T → stopped i s d0 T sy s'.
Proof.
  intros Hc (_ & Hi & Hsy) [? ? _ _ _ _] Hp HT. split; [done..|]. by exists d.
Qed.

(** A stop after some more steps. *)
Lemma stopped_later f i s s1 d d1 T sy s' :
  frame f i s s1 → d `prefix_of` d1 → stopped i s1 d1 T sy s' → stopped i s d T sy s'.
Proof.
  intros Hf Hp [Hc Hn Hi (d' & Hd & Hsy & Hp1 & HT)]. split.
  - intros Hcs. by apply Hc, (frame_calm _ _ _ _ Hf).
  - rewrite Hn. apply Hf.
  - intros j Hj. rewrite Hi by done. by apply Hf.
  - exists d'. repeat split; try done. by trans d1.
Qed.

Lemma prefix_app_take (d p : bytes) n : d ++ take n p `prefix_of` d ++ p.
Proof. apply prefix_app, prefix_take. Qed.

Lemma io_Write s f i d sy p :
  at_end s f i d sy →
  io (Write f p)
     (λ r s', at_end s' f i (d ++ take r.1 p) sy ∧ frame f i s s' ∧
        match r.2 with
        | None => r.1 = length p
        | Some _ => (r.1 = 0 ∨ r.1 < length p) ∧ ¬ willing s
        end)
     (stopped i s d (d ++ p) sy) s.
Proof.
  intros Hs. unfold Write. io_steps.
  pose proof Hs as ((off & ap & Hf & _) & _). rewrite Hf. io_steps. apply io_ask.
  intros a s1 Ha. io_steps.
  pose proof (asked_at_end _ _ _ _ _ _ _ Ha Hs) as Hs1.
  pose proof (asked_frame f i _ _ _ Ha) as Hf1.
  assert (∀ q, at_end (written f q s1) f i (d ++ q) sy ∧ frame f i s (written f q s1)) as Hw.
  { intros q. destruct (written_at_end _ _ _ _ _ q Hs1) as [? ?]. split; [done|].
    by eapply frame_trans. }
  destruct a as [|n|n]; io_steps.
  - cbn [fst snd]. rewrite take_ge by done. split_and!; [apply Hw..|done].
  - cbn [fst snd]. split_and!; [apply Hw..|destruct p; cbn; lia|].
    intros Hwl. by apply (proj2 (proj2 Ha)) in Hwl.
  - destruct (Hw (take n p)). eapply at_end_stopped; try done.
    + intros Hc. by apply (proj1 (proj2 Ha) Hc n).
    + by apply prefix_app_r.
    + apply prefix_app_take.
Qed.

(** ** bufio.Writer *)

(** The writer is at the end of the file, and has not failed. *)
Definition pending (s : os) (w : Writer) (i : nat) (d : bytes) (sy : nat) : Prop :=
  at_end s (w_fd w) i d sy ∧ w_err w = None ∧ length (w_buf w) ≤ bufio_size.

(** The stream [T] is in the file and the buffer. *)
Definition sent (i : nat) (s : os) (w : Writer) (d T : bytes) (sy : nat) (w' : Writer)
    (s' : os) : Prop :=
  w_fd w' = w_fd w ∧ frame (w_fd w) i s s' ∧
  ∃ d', pending s' w' i d' sy ∧ d `prefix_of` d' ∧ d' ++ w_buf w' = T.

(** A write has failed: a part of [T] is in the file, and the error is kept.  This
    does not happen on a machine on which every call succeeds. *)
Definition failed (i : nat) (s : os) (w : Writer) (d T : bytes) (sy : nat) (w' : Writer)
    (s' : os) : Prop :=
  w_fd w' = w_fd w ∧ frame (w_fd w) i s s' ∧ (is_Some (w_err w') ∧ ¬ willing s) ∧
  ∃ d', at_end s' (w_fd w) i d' sy ∧ d `prefix_of` d' ∧ d' `prefix_of` T ∧ length d' < length T.

(** The result of a call of the writer. *)
Definition accepts (i : nat) (s : os) (w : Writer) (d T : bytes) (sy : nat)
    (r : Writer * option error) (s' : os) : Prop :=
  match r.2 with
  | None => sent i s w d T sy r.1 s'
  | Some _ => failed i s w d T sy r.1 s'
  end.

Lemma failed_weaken i s w d T T' sy w' s' :
  T `prefix_of` T' → failed i s w d T sy w' s' → failed i s w d T' sy w' s'.
Proof.
  intros HT (? & ? & ? & d' & ? & ? & Hp & Hl). split; [done|]. split; [done|].
  split; [done|]. exists d'. split; [done|]. split; [done|]. split; [by trans T|].
  apply prefix_length in HT. lia.
Qed.

Lemma stopped_weaken i s d T T' sy s' :
  T `prefix_of` T' → stopped i s d T sy s' → stopped i s d T' sy s'.
Proof.
  intros HT [? ? ? (d' & ? & ? & ? & ?)]. split; try done. exists d'. split_and!; try done.
  by trans T.
Qed.

Lemma failed_later i s s1 w d d1 T sy w1 w' s' :
  frame (w_fd w) i s s1 → w_fd w1 = w_fd w → d `prefix_of` d1 →
  failed i s1 w1 d1 T sy w' s' → failed i s w d T sy w' s'.
Proof.
  intros Hf Hfd Hp (H1 & H2 & H3 & d' & H4 & H5 & H6). rewrite Hfd in *.
  split; [done|]. split; [by eapply frame_trans|]. split.
  { destruct H3 as [? H3]. split; [done|]. intros Hw. by apply H3, (frame_willing _ _ _ _ Hf). }
  exists d'. split; [done|]. split; [by trans d1|done].
Qed.

Lemma sent_later i s s1 w d d1 T sy w1 w' s' :
  frame (w_fd w) i s s1 → w_fd w1 = w_fd w → d `prefix_of` d1 →
  sent i s1 w1 d1 T sy w' s' → sent i s w d T sy w' s'.
Proof.
  intros Hf Hfd Hp (H1 & H2 & d' & H4 & H5 & H6). rewrite Hfd in *.
  split; [done|]. split; [by eapply frame_trans|]. exists d'.
  split; [done|]. split; [by trans d1|done].
Qed.

Lemma accepts_later i s s1 w d d1 T sy w1 r s' :
  frame (w_fd w) i s s1 → w_fd w1 = w_fd w → d `prefix_of` d1 →
  accepts i s1 w1 d1 T sy r s' → accepts i s w d T sy r s'.
Proof. unfold accepts. destruct r.2; eauto using failed_later, sent_later. Qed.

Lemma io_Flush s w i d sy :
  pending s w i d sy →
  io (Flush w)
     (λ r s', accepts i s w d (d ++ w_buf w) sy r s' ∧ (r.2 = None → w_buf r.1 = []) ∧
              (r.2 = None ↔ w_err r.1 = None))
     (stopped i s d (d ++ w_buf w) sy) s.
Proof.
  intros (Hs & Herr & Hl). unfold Flush. rewrite Herr. case_decide as Hb.
  { io_steps. unfold accepts. cbn [fst snd]. rewrite Hb, app_nil_r. split; [|done].
    split; [done|]. split; [apply frame_refl|]. exists d. rewrite Hb, app_nil_r. done. }
  apply io_bind. eapply io_mono; [by apply io_Write| |done].
  intros [n err] s' (He & Hf & Hn). cbn [fst snd] in *.
  destruct err as [e|].
  - rewrite bool_decide_eq_false_2, andb_false_r by done. io_steps. unfold accepts.
    cbn [fst snd w_fd w_buf w_err]. split; [|done]. split; [done|]. split; [done|].
    split; [split; [by eexists|apply Hn]|]. exists (d ++ take n (w_buf w)). split; [done|].
    split; [by apply prefix_app_r|]. split; [apply prefix_app_take|].
    assert (n < length (w_buf w)) by (destruct (w_buf w); [done|cbn in *; lia]).
    rewrite !length_app, length_take. lia.
  - subst n. rewrite Nat.ltb_irrefl. cbn [andb]. io_steps. unfold accepts.
    cbn [fst snd w_fd w_buf w_err]. rewrite take_ge in He by done. split; [|done].
    split; [done|]. split; [done|]. exists (d ++ w_buf w). split.
    + split; [done|]. split; [done|]. cbn. unfold bufio_size. lia.
    + split; [by apply prefix_app_r|]. cbn. by rewrite app_nil_r.
Qed.

(** The loop ends with the rest of the data fitting into the buffer, or with an
    error. *)
Definition looped (i : nat) (s : os) (w : Writer) (d T : bytes) (sy : nat)
    (r : Writer * bytes) (s' : os) : Prop :=
  match w_err r.1 with
  | None => ∃ T', sent i s w d T' sy r.1 s' ∧ T' ++ r.2 = T ∧
                  length (w_buf r.1) + length r.2 ≤ bufio_size
  | Some _ => failed i s w d T sy r.1 s'
  end.

Lemma looped_later i s s1 w d d1 T sy w1 r s' :
  frame (w_fd w) i s s1 → w_fd w1 = w_fd w → d `prefix_of` d1 →
  looped i s1 w1 d1 T sy r s' → looped i s w d T sy r s'.
Proof.
  unfold looped. intros Hf Hw Hp. destruct (w_err r.1); [by eapply failed_later|].
  intros (T' & ? & ?). exists T'. split; [|done]. by eapply sent_later.
Qed.

(** The loop is over. *)
Lemma io_loop_done s w p i d sy fuel :
  pending s w i d sy → length (w_buf w) + length p ≤ bufio_size →
  io (write_loop fuel w p) (looped i s w d (d ++ w_buf w ++ p) sy)
     (stopped i s d (d ++ w_buf w ++ p) sy) s.
Proof.
  intros Hp Hl. assert ((bufio_size - length (w_buf w) <? length p) = false) as Hlt.
  { apply Nat.ltb_ge. lia. }
  destruct fuel; cbn [write_loop]; rewrite Hlt; cbn [andb]; apply io_ret; unfold looped; cbn [fst snd];
    rewrite (proj1 (proj2 Hp)); exists (d ++ w_buf w); rewrite <-app_assoc;
    (split; [|done]); (split; [done|]); (split; [apply frame_refl|]); by exists d.
Qed.

Lemma write_loop_err fuel w p e : w_err w = Some e → write_loop fuel w p = mret (w, p).
Proof.
  intros He. destruct fuel; cbn [write_loop]; rewrite He;
    by rewrite bool_decide_eq_false_2, andb_false_r.
Qed.

(** Large data goes straight to the file when the buffer is empty. *)
Lemma io_loop_direct s w p i d sy fuel :
  pending s w i d sy → w_buf w = [] →
  io (write_loop (S fuel) w p) (looped i s w d (d ++ p) sy) (stopped i s d (d ++ p) sy) s.
Proof.
  intros Hp Hb. destruct (Nat.ltb_spec bufio_size (length p)) as [Hlt|Hle].
  2: { pose proof (io_loop_done s w p i d sy (S fuel) Hp) as H. rewrite Hb in H. by apply H. }
  pose proof Hp as (Hs & Herr & _). cbn [write_loop]. rewrite Herr, Hb.
  rewrite (proj2 (Nat.ltb_lt _ _)) by (cbn [length]; lia). rewrite bool_decide_eq_true_2 by done.
  cbn [andb]. rewrite decide_True by done. apply io_bind.
  eapply io_mono; [by apply io_Write| |done].
  intros [n err] s' (He & Hf & Hn). cbn [fst snd] in *. destruct err as [e|].
  - erewrite write_loop_err by done. apply io_ret. unfold looped. cbn [fst snd w_err].
    split; [done|]. split; [done|]. split; [split; [by eexists|apply Hn]|]. exists (d ++ take n p).
    split; [done|]. split; [by apply prefix_app_r|]. split; [apply prefix_app_take|].
    rewrite !length_app, length_take. lia.
  - subst n. rewrite take_ge in He by done. rewrite drop_ge by done.
    assert (pending s' (mkWriter (w_fd w) [] None) i (d ++ p) sy) as Hp'.
    { split; [done|]. split; [done|]. cbn. lia. }
    pose proof (io_loop_done _ _ [] _ _ _ fuel Hp') as H. cbn [w_buf app] in H.
    rewrite app_nil_r in H. eapply io_mono; [apply H; cbn; lia|..].
    + intros r s'' Hr. eapply looped_later; [exact Hf|done| |exact Hr]. by apply prefix_app_r.
    + intros s'' Hr. eapply stopped_later; [exact Hf| |exact Hr]. by apply prefix_app_r.
Qed.

(** A buffer that is not empty is filled and written. *)
Lemma write_loop_fill fuel w p :
  w_err w = None → w_buf w ≠ [] → length (w_buf w) ≤ bufio_size →
  bufio_size < length (w_buf w) + length p →
  write_loop (S fuel) w p =
  (let available := bufio_size - length (w_buf w) in
   '(w, _) ← Flush (mkWriter (w_fd w) (w_buf w ++ take available p) None);
   write_loop fuel w (drop available p)).
Proof.
  intros Herr Hb Hle Hlt. cbn [write_loop]. rewrite Herr, (proj2 (Nat.ltb_lt _ _)) by lia.
  rewrite bool_decide_eq_true_2 by done. cbn [andb]. by rewrite decide_False.
Qed.

Lemma io_write_loop s w p i d sy :
  pending s w i d sy →
  io (write_loop 2 w p) (looped i s w d (d ++ w_buf w ++ p) sy)
     (stopped i s d (d ++ w_buf w ++ p) sy) s.
Proof.
  intros Hp. destruct (decide (w_buf w = [])) as [Hb|Hb].
  { rewrite Hb. by apply io_loop_direct. }
  destruct (Nat.leb_spec (length (w_buf w) + length p) bufio_size) as [Hle|Hlt].
  { by apply io_loop_done. }
  pose proof Hp as (Hs & Herr & Hl). rewrite write_loop_fill by done.
  cbv zeta. remember (bufio_size - length (w_buf w)) as av eqn:Hav. set (w1 := mkWriter (w_fd w) (w_buf w ++ take av p) None).
  assert (pending s w1 i d sy) as Hp1.
  { split; [done|]. split; [done|]. cbn. rewrite length_app, length_take. lia. }
  assert (d ++ w_buf w1 `prefix_of` d ++ w_buf w ++ p) as Hpre.
  { cbn. rewrite (app_assoc d (w_buf w) p), (app_assoc d (w_buf w)). apply prefix_app_take. }
  apply io_bind. eapply io_mono; [by apply io_Flush| |by intros; eapply stopped_weaken].
  intros [w2 err] s2 (Hacc & Hbuf & Herr2). unfold accepts in Hacc. cbn [fst snd] in *.
  destruct err as [e|].
  - pose proof Hacc as (_ & _ & [[e' He'] _] & _). erewrite write_loop_err by done. apply io_ret.
    unfold looped. cbn [fst snd]. rewrite He'. by eapply failed_weaken.
  - destruct Hacc as (Hfd & Hf & d2 & Hp2 & Hpre2 & He2). specialize (Hbuf eq_refl).
    rewrite Hbuf, app_nil_r in He2. subst d2. cbn in Hfd.
    pose proof (io_loop_direct s2 w2 (drop av p) i _ sy 0 Hp2 Hbuf) as H.
    assert ((d ++ w_buf w1) ++ drop av p = d ++ w_buf w ++ p) as HT.
    { cbn. rewrite <-!app_assoc. by rewrite take_drop. }
    rewrite HT in H. eapply io_mono; [exact H|..].
    + intros r s'' Hr. eapply looped_later; [exact Hf|done| |exact Hr]. done.
    + intros s'' Hr. eapply stopped_later; [exact Hf| |exact Hr]. done.
Qed.

Lemma io_buf_Write s w p i d sy :
  pending s w i d sy →
  io (buf_Write w p) (accepts i s w d (d ++ w_buf w ++ p) sy)
     (stopped i s d (d ++ w_buf w ++ p) sy) s.
Proof.
  intros Hp. unfold buf_Write. apply io_bind.
  eapply io_mono; [by apply io_write_loop| |done]. intros [w' q] s' Hl. unfold looped in Hl.
  cbn [fst snd] in Hl. destruct (w_err w') as [e|] eqn:He; apply io_ret; unfold accepts;
    cbn [fst snd]; [done|].
  destruct Hl as (T' & (Hfd & Hf & d' & (Hs & _ & Hlen) & Hpre & HT) & HT' & Hq).
  split; [done|]. split; [done|]. exists d'. split; [split; [done|split; [done|]]|].
  - cbn. rewrite length_app. lia.
  - split; [done|]. cbn. rewrite app_assoc, HT. done.
Qed.

Lemma io_buf_WriteByte s w c i d sy :
  pending s w i d sy →
  io (buf_WriteByte w c) (accepts i s w d (d ++ w_buf w ++ [c]) sy)
     (stopped i s d (d ++ w_buf w ++ [c]) sy) s.
Proof.
  intros Hp. pose proof Hp as (Hs & Herr & Hl). unfold buf_WriteByte. rewrite Herr.
  destruct (Nat.leb_spec (bufio_size - length (w_buf w)) 0) as [Hle|Hlt].
  - assert (d ++ w_buf w `prefix_of` d ++ w_buf w ++ [c]) as Hpre.
    { rewrite (app_assoc d). by apply prefix_app_r. }
    apply io_bind. eapply io_mono; [by apply io_Flush| |by intros; eapply stopped_weaken].
    intros [w2 err] s2 (Hacc & Hbuf & Herr2). unfold accepts in Hacc. cbn [fst snd] in *.
    destruct err as [e|]; apply io_ret; unfold accepts; cbn [fst snd].
    + by eapply failed_weaken.
    + destruct Hacc as (Hfd & Hf & d2 & (Hs2 & He2 & Hl2) & Hpre2 & HT).
      specialize (Hbuf eq_refl). rewrite Hbuf, app_nil_r in HT. subst d2.
      split; [done|]. split; [done|]. eexists. split; [split; [exact Hs2|]|].
      * split; [done|]. rewrite Hbuf. cbn. unfold bufio_size. lia.
      * split; [by apply prefix_app_r|]. cbn. by rewrite Hbuf, <-app_assoc.
  - apply io_ret. unfold accepts. cbn [fst snd]. split; [done|]. split; [apply frame_refl|].
    exists d. split; [split; [done|split; [done|]]|].
    + cbn. rewrite length_app. cbn. lia.
    + done.
Qed.

Lemma io_Sync s f i d sy :
  at_end s f i d sy →
  io (Sync f)
     (λ err s', frame f i s s' ∧ at_end s' f i d (match err with Some _ => sy | None => length d end) ∧
        (flushes s → err = None) ∧ (willing s → err = None))
     (stopped i s d d sy) s.
Proof.
  intros Hs. unfold Sync. io_steps.
  pose proof Hs as ((off & ap & Hf & Hoff) & Hi & Hsy). rewrite Hf. io_steps.
  apply io_ask_sync. intros a s1 Ha. io_steps. cbn [f_inode].
  pose proof (asked_sync_at_end _ _ _ _ _ _ _ Ha Hs) as Hs1.
  pose proof (asked_sync_frame f i _ _ _ Ha) as Hf1.
  destruct a as [|n|n]; io_steps.
  - destruct Hs1 as (Hfile & Hi1 & _). rewrite Hi1. cbn [i_data]. split.
    + eapply frame_trans; [exact Hf1|]. split; cbn; try done. intros. by rewrite lookup_insert_ne.
    + split; [|done]. split; [done|]. split; [|done]. cbn. by rewrite lookup_insert_eq.
  - split; [done|]. split; [done|]. split; intros Hc.
    + by apply (proj2 (proj2 (proj2 Ha))) with (n := n) in Hc.
    + by apply (proj1 (proj2 (proj2 Ha))) in Hc.
  - eapply at_end_stopped; try done. intros Hc. by apply (proj1 (proj2 Ha)) in Hc.
Qed.
