(* ===== verification/Wal.v ===== *)
(** The write-ahead log (internal/wal/wal.go): reading the file, opening it with
    recovery from a torn tail, appending, and compaction, over the operating system
    of [Os].  The theorems are in [WalFacts] and [WalCrash]. *)

From S2P Require Import Prelude WalRecord Json WalJson Os.
From Stdlib Require String.

Local Open Scope Z_scope.

(** ** path/filepath (Unix) *)

Definition slash : ascii := "/"%char.

(** The elements of a path. *)
Fixpoint elements (p : bytes) : list bytes :=
  match p with
  | [] => [[]]
  | c :: p =>
    if Ascii.eqb c slash then [] :: elements p
    else match elements p with e :: es => (c :: e) :: es | [] => [[c]] end
  end.

Fixpoint clean_elements (rooted : bool) (es out : list bytes) : list bytes :=
  match es with
  | [] => rev out
  | e :: es =>
    if decide (e = [] ∨ e = bytes_of ".") then clean_elements rooted es out
    else if decide (e = bytes_of "..") then
      match out with
      | o :: out' =>
        if decide (o = bytes_of "..") then clean_elements rooted es (e :: out)
        else clean_elements rooted es out'
      | [] => clean_elements rooted es (if rooted then [] else [e])
      end
    else clean_elements rooted es (e :: out)
  end.

Fixpoint join_elements (es : list bytes) : bytes :=
  match es with
  | [] => []
  | [e] => e
  | e :: es => e ++ slash :: join_elements es
  end.

Definition Clean (path : string) : string :=
  let p := bytes_of path in
  let rooted := bool_decide (head p = Some slash) in
  let q := join_elements (clean_elements rooted (elements p) []) in
  String.string_of_list_ascii
    (if rooted then slash :: q else if decide (q = []) then bytes_of "." else q).

(** Join of two elements, the second one not empty. *)
Definition Join (dir name : string) : string :=
  if decide (dir = "")%string then Clean name else Clean (dir +:+ "/" +:+ name).

(** [path] up to and with its last slash, cleaned. *)
Fixpoint up_to_slash (p : bytes) : bytes :=
  match p with
  | [] => []
  | c :: p =>
    if decide (slash ∈ p) then c :: up_to_slash p
    else if Ascii.eqb c slash then [c] else []
  end.

Definition Dir (path : string) : string :=
  Clean (String.string_of_list_ascii (up_to_slash (bytes_of path))).

(** The name that os.CreateTemp makes of a directory and the part of its pattern in
    front of the star. *)
Definition temp_prefix (dir prefix : string) : string :=
  if decide (last (bytes_of dir) = Some slash) then dir +:+ prefix else dir +:+ "/" +:+ prefix.

(** ** wal.go *)

Definition FileName : string := "wal.ndjson".

(** type Log *)
Record Log := mkLog { l_path : string; l_f : nat; l_w : Writer; l_syncEach : bool }.

(** bytes.IndexByte *)
Fixpoint IndexByte (p : bytes) (c : ascii) : option nat :=
  match p with
  | [] => None
  | a :: p => if Ascii.eqb a c then Some 0%nat else S <$> IndexByte p c
  end.

(** The loop of ReadAll: the records, the length of what is good, and whether the
    tail is torn.  [None] when the fuel is used up.  The texts of the errors of
    json.Unmarshal and Validate are not kept. *)
Fixpoint read_lines (fuel : nat) (path : string) (lineNo : Z) (data : bytes)
    (recs : list WRecord) (offset : Z) : option (result (list WRecord * Z * bool)) :=
  if decide (data = []) then Some (Ok (recs, offset, false)) else
  match fuel with
  | O => None
  | S fuel =>
    match IndexByte data newline with
    | None => Some (Ok (recs, offset, true))
    | Some i =>
      let line := take i data in
      let rest := drop (i + 1) data in
      match Unmarshal_record line with
      | None =>
        if decide (length rest = 0%nat) then Some (Ok (recs, offset, true))
        else Some (Err (Errorf "%s:%d: corrupt record: %v" [AStr path; AInt lineNo]))
      | Some r =>
        match Validate r with
        | Some _ => Some (Err (Errorf "%s:%d: %v" [AStr path; AInt lineNo]))
        | None =>
          read_lines fuel path (lineNo + 1) rest (recs ++ [r])
            (offset + Z.of_nat (length line) + 1)
        end
      end
    end
  end.

(** ReadAll, of the contents of the file. *)
Definition read_data (path : string) (data : bytes) : option (result (list WRecord * Z * bool)) :=
  read_lines (length data) path 1 data [] 0.

(** ReadAll *)
Definition ReadAll (path : string) : IO (result (list WRecord * Z * bool)) :=
  data ← ReadFile path;
  match data with
  | NotExist => mret (Ok ([], 0, false))
  | ReadError e => mret (Err e)
  | Contents data =>
    match read_data path data with
    | Some r => mret r
    | None => io_panic
    end
  end.

(** Open *)
Definition Open (dir : string) (syncEach : bool) : IO (result (Log * list WRecord * bool)) :=
  err ← MkdirAll;
  match err with
  | Some e => mret (Err e)
  | None =>
    let path := Join dir FileName in
    r ← ReadAll path;
    match r with
    | Err e => mret (Err e)
    | Ok (recs, validLen, torn) =>
      f ← OpenFile path true false;
      match f with
      | Err e => mret (Err e)
      | Ok f =>
        err ← (if torn : bool then Truncate f (Z.to_nat validLen) else mret None);
        match err with
        | Some e => _ ← Close f; mret (Err (Wrapf "truncate torn tail: %w" [] e))
        | None =>
          err ← Seek f (Z.to_nat validLen);
          match err with
          | Some e => _ ← Close f; mret (Err e)
          | None => mret (Ok (mkLog path f (NewWriter f) syncEach, recs, torn))
          end
        end
      end
    end
  end.

Definition marshal_error : error := Errorf "json: error calling MarshalJSON" [].

Definition set_w (w : Writer) (l : Log) : Log := mkLog (l_path l) (l_f l) w (l_syncEach l).

(** Append *)
Definition Append_log (r : WRecord) (l : Log) : IO (Log * option error) :=
  match Validate r with
  | Some e => mret (l, Some (Wrapf "refusing to append invalid record: %w" [] e))
  | None =>
    match Marshal_record r with
    | None => mret (l, Some marshal_error)
    | Some b =>
      '(w, err) ← buf_Write (l_w l) b;
      match err with
      | Some e => mret (set_w w l, Some e)
      | None =>
        '(w, err) ← buf_WriteByte w newline;
        match err with
        | Some e => mret (set_w w l, Some e)
        | None =>
          '(w, err) ← Flush w;
          match err with
          | Some e => mret (set_w w l, Some e)
          | None =>
            if l_syncEach l then err ← Sync (l_f l); mret (set_w w l, err)
            else mret (set_w w l, None)
          end
        end
      end
    end
  end.

(** The loop of Compact. *)
Fixpoint write_records (recs : list WRecord) (w : Writer) : IO (Writer * option error) :=
  match recs with
  | [] => mret (w, None)
  | r :: recs =>
    match Marshal_record r with
    | None => mret (w, Some marshal_error)
    | Some b =>
      '(w, err) ← buf_Write w (b ++ [newline]);
      match err with
      | Some e => mret (w, Some e)
      | None => write_records recs w
      end
    end
  end.

(** Compact, once the temporary file is there. *)
Definition compact_file (l : Log) (recs : list WRecord) (name : string) (tmp : nat) :
    IO (Log * option error) :=
  '(w, err) ← write_records recs (NewWriter tmp);
  match err with
  | Some e => _ ← Close tmp; mret (l, Some e)
  | None =>
    '(_, err) ← Flush w;
    match err with
    | Some e => _ ← Close tmp; mret (l, Some e)
    | None =>
      err ← Sync tmp;
      match err with
      | Some e => _ ← Close tmp; mret (l, Some e)
      | None =>
        err ← Close tmp;
        match err with
        | Some e => mret (l, Some e)
        | None =>
          err ← Rename name (l_path l);
          match err with
          | Some e => mret (l, Some e)
          | None =>
            f ← OpenFile (l_path l) false true;
            match f with
            | Err e => mret (l, Some e)
            | Ok f =>
              _ ← Close (l_f l);
              mret (mkLog (l_path l) f (NewWriter f) (l_syncEach l), None)
            end
          end
        end
      end
    end
  end.

(** Compact *)
Definition Compact (l : Log) (recs : list WRecord) : IO (Log * option error) :=
  t ← CreateTemp (temp_prefix (Dir (l_path l)) (FileName +:+ ".compact-"));
  match t with
  | Err e => mret (l, Some e)
  | Ok (name, tmp) =>
    r ← compact_file l recs name tmp;
    _ ← Remove name;
    mret r
  end.

(** Close *)
Definition Close_log (l : Log) : IO (Log * option error) :=
  '(w, err) ← Flush (l_w l);
  match err with
  | Some e => _ ← Close (l_f l); mret (set_w w l, Some e)
  | None => err ← Close (l_f l); mret (set_w w l, err)
  end.

(** ** The bytes of a log *)

Definition line_of (r : WRecord) : bytes := default [] (Marshal_record r) ++ [newline].

Definition text_of_log (recs : list WRecord) : bytes := concat (line_of <$> recs).

(** Records that are read back. *)
Definition readable_record (r : WRecord) : Prop := loggable r ∧ Validate r = None.
