(* ===== verification/WalFacts.v ===== *)
(** Facts about the log: ReadAll is a scan of the lines of the file, a log that was
    written is read back, and what Append leaves in the file, whatever the operating
    system answers. *)

From S2P Require Import Prelude WalRecord Json JsonValue JsonLine WalJson Os OsFacts Wal.

Local Open Scope Z_scope.

(** ** ReadAll, line by line *)

(** The complete lines of a file, and what follows the last one. *)
Fixpoint split_lines (data : bytes) : list bytes * bytes :=
  match data with
  | [] => ([], [])
  | c :: data =>
    let '(ls, tail) := split_lines data in
    if Ascii.eqb c newline then ([] :: ls, tail)
    else match ls with l :: ls => ((c :: l) :: ls, tail) | [] => ([], c :: tail) end
  end.

(** A line holds a record, or no record, or a record that Validate rejects. *)
Inductive line_kind := Good (r : WRecord) | Corrupt | Invalid.

Definition line_kind_of (l : bytes) : line_kind :=
  match Unmarshal_record l with
  | None => Corrupt
  | Some r => match Validate r with None => Good r | Some _ => Invalid end
  end.

(** What ReadAll makes of the lines: it stops at the first line that is not a record,
    without an error if nothing follows. *)
Fixpoint read_split (path : string) (n : Z) (ls : list bytes) (tail : bytes)
    (recs : list WRecord) (offset : Z) : result (list WRecord * Z * bool) :=
  match ls with
  | [] => Ok (recs, offset, bool_decide (tail ≠ []))
  | l :: ls =>
    match line_kind_of l with
    | Good r => read_split path (n + 1) ls tail (recs ++ [r]) (offset + Z.of_nat (length l) + 1)
    | Corrupt =>
      if bool_decide (ls = []) && bool_decide (tail = []) then Ok (recs, offset, true)
      else Err (Errorf "%s:%d: corrupt record: %v" [AStr path; AInt n])
    | Invalid => Err (Errorf "%s:%d: %v" [AStr path; AInt n])
    end
  end.

Lemma split_lines_nil data : split_lines data = ([], []) ↔ data = [].
Proof.
  split; [|by intros ->]. destruct data as [|c data]; [done|]. cbn.
  by destruct (split_lines data) as [[|l ls] tail], (Ascii.eqb c newline).
Qed.

(** The first line, as IndexByte finds it. *)
Lemma split_lines_index data :
  split_lines data =
  match IndexByte data newline with
  | None => ([], data)
  | Some i => let '(ls, tail) := split_lines (drop (i + 1) data) in (take i data :: ls, tail)
  end.
Proof.
  induction data as [|c data IH]; [done|]. cbn [split_lines IndexByte]. rewrite IH.
  destruct (Ascii.eqb c newline) eqn:Hc.
  - change (drop (0 + 1) (c :: data)) with data. cbn [take]. rewrite <-IH.
    by destruct (split_lines data).
  - destruct (IndexByte data newline) as [i|]; [|done].
    change (S <$> Some i) with (Some (S i)). cbn [take drop Nat.add].
    by destruct (split_lines (drop (i + 1) data)).
Qed.

Lemma IndexByte_length data i : IndexByte data newline = Some i → (i < length data)%nat.
Proof.
  revert i. induction data as [|c data IH]; intros i; [done|]. cbn.
  destruct (Ascii.eqb c newline); [intros [= <-]; lia|].
  destruct (IndexByte data newline) as [j|]; [|done]. intros [= <-].
  specialize (IH j eq_refl). lia.
Qed.

Lemma read_lines_split fuel path : ∀ n data recs offset,
  (length data ≤ fuel)%nat →
  read_lines fuel path n data recs offset =
  Some (read_split path n (split_lines data).1 (split_lines data).2 recs offset).
Proof.
  induction fuel as [|fuel IH]; intros n data recs offset Hl.
  { by destruct data; [|cbn in Hl; lia]. }
  cbn [read_lines]. case_decide as Hd; [by subst|].
  rewrite (split_lines_index data). destruct (IndexByte data newline) as [i|] eqn:Hi.
  2: { cbn [fst snd read_split]. by rewrite bool_decide_eq_true_2. }
  pose proof (IndexByte_length _ _ Hi) as Hil.
  pose proof (split_lines_nil (drop (i + 1) data)) as Hnil.
  specialize (IH (n + 1) (drop (i + 1) data)).
  destruct (split_lines (drop (i + 1) data)) as [ls tail]. cbn [fst snd read_split] in *.
  unfold line_kind_of. destruct (Unmarshal_record (take i data)) as [r|].
  - destruct (Validate r); [done|]. apply IH. rewrite length_drop. lia.
  - case_decide as Hr.
    + apply nil_length_inv, Hnil in Hr as [= -> ->]. done.
    + destruct (bool_decide (ls = []) && bool_decide (tail = [])) eqn:Hb; [|done].
      apply andb_true_iff in Hb as [->%bool_decide_eq_true ->%bool_decide_eq_true].
      rewrite (proj1 Hnil eq_refl) in Hr. done.
Qed.

Lemma read_data_split path data :
  read_data path data =
  Some (read_split path 1 (split_lines data).1 (split_lines data).2 [] 0).
Proof. by apply read_lines_split. Qed.

(** ** A log that was written *)

Lemma split_lines_app l data :
  newline ∉ l → split_lines (l ++ newline :: data) =
  (l :: (split_lines data).1, (split_lines data).2).
Proof.
  induction l as [|c l IH]; intros Hl.
  - cbn. by destruct (split_lines data).
  - cbn [app split_lines]. rewrite IH by (intros ?; apply Hl; by right).
    destruct (Ascii.eqb c newline) eqn:Hc; [|done]. apply Ascii.eqb_eq in Hc as ->.
    destruct Hl. by left.
Qed.

Lemma split_lines_tail part : newline ∉ part → split_lines part = ([], part).
Proof.
  induction part as [|c part IH]; intros Hl; [done|]. cbn.
  rewrite IH by (intros ?; apply Hl; by right).
  destruct (Ascii.eqb c newline) eqn:Hc; [|done]. apply Ascii.eqb_eq in Hc as ->.
  destruct Hl. by left.
Qed.

Lemma text_of_log_cons r recs : text_of_log (r :: recs) = line_of r ++ text_of_log recs.
Proof. done. Qed.

Lemma text_of_log_app recs1 recs2 :
  text_of_log (recs1 ++ recs2) = text_of_log recs1 ++ text_of_log recs2.
Proof. unfold text_of_log. by rewrite fmap_app, concat_app. Qed.

Lemma text_of_log_snoc recs r : text_of_log (recs ++ [r]) = text_of_log recs ++ line_of r.
Proof. rewrite text_of_log_app. unfold text_of_log at 2. cbn. by rewrite app_nil_r. Qed.

Lemma line_of_text r : newline ∉ default [] (Marshal_record r).
Proof.
  destruct (Marshal_record r) eqn:Hm; [by eapply Marshal_one_line|by intros ?%elem_of_nil].
Qed.

Lemma split_written recs part :
  newline ∉ part →
  split_lines (text_of_log recs ++ part) =
  ((λ r, default [] (Marshal_record r)) <$> recs, part).
Proof.
  intros Hp. induction recs as [|r recs IH]; [by apply split_lines_tail|].
  rewrite text_of_log_cons. unfold line_of. rewrite <-!app_assoc.
  change ([newline] ++ text_of_log recs ++ part) with (newline :: text_of_log recs ++ part).
  rewrite split_lines_app by apply line_of_text. by rewrite IH.
Qed.

Lemma line_kind_written r :
  readable_record r → line_kind_of (default [] (Marshal_record r)) = Good r.
Proof.
  intros [Hl Hv]. unfold line_kind_of. rewrite (Marshal_loggable _ Hl). cbn [from_option id].
  by rewrite (Unmarshal_text _ Hl), Hv.
Qed.

Lemma read_split_written path recs part : ∀ n recs0 offset,
  Forall readable_record recs →
  read_split path n ((λ r, default [] (Marshal_record r)) <$> recs) part recs0 offset =
  Ok (recs0 ++ recs, offset + Z.of_nat (length (text_of_log recs)), bool_decide (part ≠ [])).
Proof.
  induction recs as [|r recs IH]; intros n recs0 offset Hr.
  - cbn. by rewrite app_nil_r, Z.add_0_r.
  - apply Forall_cons in Hr as [Hr Hrs]. rewrite fmap_cons. cbn [read_split].
    rewrite (line_kind_written _ Hr), IH by done. rewrite <-app_assoc. do 3 f_equal.
    rewrite text_of_log_cons, length_app. unfold line_of. rewrite length_app. cbn [length]. lia.
Qed.

(** Records that were written are read back, and a torn tail is found. *)
Lemma read_written path recs part :
  Forall readable_record recs → newline ∉ part →
  read_data path (text_of_log recs ++ part) =
  Some (Ok (recs, Z.of_nat (length (text_of_log recs)), bool_decide (part ≠ []))).
Proof.
  intros Hr Hp. rewrite read_data_split, split_written by done. cbn [fst snd].
  by rewrite read_split_written.
Qed.

(** ** A log that was cut *)

Lemma line_prefix r p : p `prefix_of` line_of r → p = line_of r ∨ newline ∉ p.
Proof.
  intros [k Hk]. unfold line_of in *. destruct k as [|c k _] using rev_ind.
  - left. by rewrite app_nil_r in Hk.
  - right. rewrite app_assoc in Hk. apply app_inj_tail in Hk as [Hk _].
    intros Hin. apply (line_of_text r). rewrite Hk. apply elem_of_app. by left.
Qed.

(** A prefix of a log is a shorter log with a torn tail. *)
Lemma cut_log recs d :
  d `prefix_of` text_of_log recs →
  ∃ k part, (k ≤ length recs)%nat ∧ d = text_of_log (take k recs) ++ part ∧ newline ∉ part.
Proof.
  revert d. induction recs as [|r recs IH]; intros d Hd.
  - apply prefix_nil_inv in Hd as ->. exists 0%nat, []. split; [done|]. split; [done|].
    by intros ?%elem_of_nil.
  - rewrite text_of_log_cons in Hd.
    destruct (prefix_weak_total d (line_of r) _ Hd (prefix_app_r _ _ _ (reflexivity _))) as [Hp|[d' ->]].
    + destruct (line_prefix _ _ Hp) as [->|Hn].
      * exists 1%nat, []. split; [cbn; lia|]. split; [|by intros ?%elem_of_nil].
        unfold text_of_log. cbn. by rewrite !app_nil_r.
      * exists 0%nat, d. split; [lia|]. by split.
    + apply prefix_app_inv in Hd. destruct (IH _ Hd) as (k & part & Hk & -> & Hn).
      exists (S k), part. split; [cbn; lia|]. split; [|done].
      cbn [take]. by rewrite text_of_log_cons, app_assoc.
Qed.
