(* ===== verification/WalCrash.v ===== *)
(** Append and a machine that may stop at any moment: what is in the file, what is on
    the disk, and what the next start reads. *)

From S2P Require Import Prelude WalRecord Json JsonValue JsonLine WalJson Os OsFacts Wal.
From S2P Require Import WalFacts.

Local Open Scope nat_scope.

(** ** The states of a log *)

(** The file of the log holds the lines of [recs], then nothing, or after a failed
    write a part of a line; the lines of [safe] are on the disk. *)
Definition log_holds (s : os) (l : Log) (safe recs : list WRecord) : Prop :=
  ∃ i part sy,
    o_names s !! l_path l = Some i ∧ w_fd (l_w l) = l_f l ∧
    at_end s (l_f l) i (text_of_log recs ++ part) sy ∧ (newline ∉ part) ∧
    (w_err (l_w l) = None → part = [] ∧ w_buf (l_w l) = []) ∧
    safe `prefix_of` recs ∧ length (text_of_log safe) ≤ sy.

(** The file at [path] holds at least the lines of [safe], on the disk, and at most
    those of [all] and a part of a line. *)
Definition disk (s : os) (path : string) (safe all : list WRecord) : Prop :=
  ∃ i d sy part,
    o_names s !! path = Some i ∧ o_inodes s !! i = Some (mkInode d sy) ∧
    safe `prefix_of` all ∧ text_of_log safe `prefix_of` d ∧ length (text_of_log safe) ≤ sy ∧
    d `prefix_of` text_of_log all ++ part ∧ (newline ∉ part) ∧ sy ≤ length d.

(** The contents of a file. *)
Definition contents (s : os) (path : string) : option bytes :=
  i ← o_names s !! path; i_data <$> o_inodes s !! i.

Lemma text_of_log_prefix a b : a `prefix_of` b → text_of_log a `prefix_of` text_of_log b.
Proof. intros [k ->]. rewrite text_of_log_app. by apply prefix_app_r. Qed.

Lemma log_holds_disk s l safe recs : log_holds s l safe recs → disk s (l_path l) safe recs.
Proof.
  intros (i & part & sy & Hn & Hw & (_ & Hi & Hsy) & Hp & _ & Hsafe & Hlen).
  exists i, (text_of_log recs ++ part), sy, part. split_and!; try done.
  by apply prefix_app_r, text_of_log_prefix.
Qed.

(** ** Cutting a log *)

Lemma cut_log_part recs part d :
  d `prefix_of` text_of_log recs ++ part → newline ∉ part →
  ∃ recs' part', recs' `prefix_of` recs ∧ d = text_of_log recs' ++ part' ∧ newline ∉ part'.
Proof.
  intros Hd Hp.
  destruct (prefix_weak_total d (text_of_log recs) _ Hd (prefix_app_r _ _ _ (reflexivity _)))
    as [Hc|[d' ->]].
  - destruct (cut_log _ _ Hc) as (k & part' & _ & -> & Hp'). exists (take k recs), part'.
    split; [apply prefix_take|done].
  - apply prefix_app_inv in Hd as [q ->]. exists recs, d'. split; [done|]. split; [done|].
    intros Hin. apply Hp, elem_of_app. by left.
Qed.

(** Lines that are in front of a cut are not lost. *)
Lemma cut_log_keeps a b c part :
  a `prefix_of` c → b `prefix_of` c → newline ∉ part →
  text_of_log a `prefix_of` text_of_log b ++ part → a `prefix_of` b.
Proof.
  intros Ha Hb Hp Ht. destruct (prefix_weak_total _ _ _ Ha Hb) as [?|[x ->]]; [done|].
  rewrite text_of_log_app in Ht. apply prefix_app_inv in Ht as [q Hq].
  destruct x as [|y ys]; [by rewrite app_nil_r|]. exfalso. apply Hp. rewrite Hq.
  rewrite text_of_log_cons. unfold line_of. rewrite !elem_of_app. do 2 left. right. by left.
Qed.

(** What can be read from the file. *)
Lemma disk_read s path safe all :
  disk s path safe all → Forall readable_record all →
  ∃ recs part,
    safe `prefix_of` recs ∧ recs `prefix_of` all ∧ (newline ∉ part) ∧
    contents s path = Some (text_of_log recs ++ part) ∧
    read_data path (text_of_log recs ++ part) =
      Some (Ok (recs, Z.of_nat (length (text_of_log recs)), bool_decide (part ≠ []))).
Proof.
  intros (i & d & sy & part & Hn & Hi & Hsafe & Hd & _ & Hall & Hp & _) Hr.
  destruct (cut_log_part _ _ _ Hall Hp) as (recs & part' & Hpre & -> & Hp').
  exists recs, part'. split; [by eapply cut_log_keeps|]. split; [done|]. split; [done|]. split.
  - unfold contents. rewrite Hn. cbn. by rewrite Hi.
  - apply read_written; [|done]. destruct Hpre as [k ->]. by apply Forall_app in Hr as [? _].
Qed.

(** A crash leaves what is on the disk. *)
Lemma crash_disk s s' path safe all :
  disk s path safe all → crash s s' → disk s' path safe all.
Proof.
  intros (i & d & sy & part & Hn & Hi & Hsafe & Hd & Hsy & Hall & Hp & Hle') [Hcn Hci].
  specialize (Hci i). rewrite Hi in Hci.
  destruct (o_inodes s' !! i) as [b|] eqn:Hb; [|done]. destruct Hci as (n & Hle & ->).
  cbn [i_data i_synced] in *. exists i, (take n d), (length (take n d)), part.
  rewrite Hcn. split_and!; try done.
  - destruct Hd as [k ->]. rewrite take_app, take_ge by lia. by apply prefix_app_r.
  - rewrite length_take. apply prefix_length in Hd. lia.
  - trans d; [apply prefix_take|done].
Qed.

(** ** Append *)

(** A step that leaves the names alone and goes from one state of the file to
    another keeps the log, its sticky error included. *)
Lemma log_holds_intro s s' l w i d sy part recs safe :
  o_names s !! l_path l = Some i → o_names s' = o_names s →
  w_fd w = l_f l → at_end s' (l_f l) i d sy → d = text_of_log recs ++ part → newline ∉ part →
  (w_err w = None → part = [] ∧ w_buf w = []) → safe `prefix_of` recs →
  length (text_of_log safe) ≤ sy →
  log_holds s' (set_w w l) safe recs.
Proof. intros Hn Hn' ? ? -> ? ? ? ?. exists i, part, sy. by rewrite Hn'. Qed.

(** What a failed or interrupted write of a line leaves. *)
Lemma part_of_line recs r d :
  text_of_log recs `prefix_of` d → d `prefix_of` text_of_log recs ++ line_of r →
  length d < length (text_of_log recs ++ line_of r) →
  ∃ part, d = text_of_log recs ++ part ∧ newline ∉ part.
Proof.
  intros [part ->] Hd Hl. exists part. split; [done|]. apply prefix_app_inv in Hd.
  destruct (line_prefix _ _ Hd) as [->|]; [|done]. rewrite !length_app in Hl. lia.
Qed.

(** Why Append fails: the record, an earlier error, or the operating system. *)
Definition refused (s : os) (l : Log) (r : WRecord) : Prop :=
  Validate r ≠ None ∨ Marshal_record r = None ∨ w_err (l_w l) ≠ None ∨ ¬ willing s.

(** Append has returned. *)
Definition appended (s : os) (l : Log) (safe recs : list WRecord) (r : WRecord)
    (res : Log * option error) (s' : os) : Prop :=
  l_path res.1 = l_path l ∧ l_syncEach res.1 = l_syncEach l ∧ (calm s → calm s') ∧
  (flushes s → flushes s') ∧
  match res.2 with
  | None =>
    log_holds s' res.1 (if l_syncEach l then recs ++ [r] else safe) (recs ++ [r]) ∧
    w_err (l_w res.1) = None
  | Some _ =>
    refused s l r ∧
    (log_holds s' res.1 safe recs ∨
     l_syncEach l = true ∧ ¬ flushes s ∧ log_holds s' res.1 safe (recs ++ [r]))
  end.

(** The machine has stopped in Append. *)
Definition append_stopped (s : os) (l : Log) (safe recs : list WRecord) (r : WRecord)
    (s' : os) : Prop :=
  ¬ calm s ∧ disk s' (l_path l) safe (recs ++ [r]).

Lemma failed_appended s l safe recs r i sy w' s' T e (w : Writer) :
  o_names s !! l_path l = Some i → w_fd w = l_f l →
  T `prefix_of` text_of_log recs ++ line_of r →
  safe `prefix_of` recs → length (text_of_log safe) ≤ sy →
  failed i s w (text_of_log recs) T sy w' s' →
  appended s l safe recs r (set_w w' l, Some e) s'.
Proof.
  intros Hn Hw HT Hsafe Hsy (Hfd & Hf & [[e' He'] Hwl] & d' & Hs' & Hd & HdT & Hlt).
  pose proof (prefix_length _ _ HT) as HTl.
  destruct (part_of_line recs r d') as (part & -> & Hp); [done|by trans T|lia|].
  split; [done|]. split; [done|]. split; [by eapply frame_calm|].
  split; [by eapply frame_flushes|]. split; [by do 3 right|]. left.
  eapply log_holds_intro; [exact Hn|apply Hf| | |reflexivity|exact Hp| |done|exact Hsy].
  - by rewrite Hfd.
  - by rewrite <-Hw.
  - by rewrite He'.
Qed.

Lemma stopped_append s l safe recs r i sy s' T :
  o_names s !! l_path l = Some i → T `prefix_of` text_of_log recs ++ line_of r →
  safe `prefix_of` recs → length (text_of_log safe) ≤ sy →
  stopped i s (text_of_log recs) T sy s' →
  append_stopped s l safe recs r s'.
Proof.
  intros Hn HT Hsafe Hsy [Hc Hn' _ (d & Hi & Hle & Hd & HdT)]. split; [done|].
  exists i, d, sy, []. rewrite Hn'. split_and!; try done.
  - by apply prefix_app_r.
  - trans (text_of_log recs); [by apply text_of_log_prefix|done].
  - rewrite app_nil_r, text_of_log_snoc. by trans T.
  - by intros ?%elem_of_nil.
Qed.

Lemma appended_same s l safe recs r e :
  log_holds s l safe recs → refused s l r → appended s l safe recs r (l, Some e) s.
Proof. intros Hl. do 5 (split; [done|]). by left. Qed.

(** A sticky error is returned by every later Append. *)
Lemma io_buf_Write_err w p e (Q : Writer * option error → os → Prop) C s :
  w_err w = Some e → Q (w, Some e) s → io (buf_Write w p) Q C s.
Proof.
  intros He HQ. unfold buf_Write. apply io_bind. erewrite write_loop_err by done.
  apply io_ret. rewrite He. by apply io_ret.
Qed.

Lemma set_w_same l : set_w (l_w l) l = l.
Proof. by destruct l. Qed.

(** The last part of Append: the line is in the file. *)
Lemma io_append_sync s0 s l safe recs r i sy w :
  o_names s !! l_path l = Some i → w_fd w = l_f l → w_err w = None → w_buf w = [] →
  at_end s (l_f l) i (text_of_log (recs ++ [r])) sy → safe `prefix_of` recs →
  length (text_of_log safe) ≤ sy → (calm s0 → calm s) → (flushes s0 → flushes s) → (willing s0 → willing s) →
  io (if l_syncEach l then err ← Sync (l_f l); mret (set_w w l, err)
      else mret (set_w w l, None))
     (appended s0 l safe recs r) (append_stopped s0 l safe recs r) s.
Proof.
  intros Hn Hw He Hb Hs Hsafe Hsy Hcalm Hflush Hwl.
  assert (safe `prefix_of` recs ++ [r]) as Hsafe' by by apply prefix_app_r.
  destruct (l_syncEach l) eqn:Hsync; io_steps.
  - eapply io_mono; [by apply io_Sync|..].
    + intros err s' (Hf & Hs' & Hok & Hok'). apply io_ret. split; [done|]. split; [done|].
      split; [intros Hc; by eapply frame_calm, Hcalm|].
      split; [intros Hc; by eapply frame_flushes, Hflush|]. cbn [fst snd].
      destruct err as [e|].
      * split; [do 3 right; intros Hc; by specialize (Hok' (Hwl Hc))|].
        right. split; [done|]. split; [intros Hc; by specialize (Hok (Hflush Hc))|].
        eapply log_holds_intro; [exact Hn|apply Hf|done|exact Hs'|by rewrite app_nil_r| |done|done|done].
        by intros ?%elem_of_nil.
      * rewrite Hsync. split; [|done]. eapply log_holds_intro;
          [exact Hn|apply Hf|done|exact Hs'|by rewrite app_nil_r| |done|done|done].
        by intros ?%elem_of_nil.
    + intros s' [Hc Hn' _ (d & Hi & Hsyd & Hd & HdT)]. split; [intros Hc0; by apply Hc, Hcalm|].
      exists i, d, sy, []. rewrite Hn'. split_and!; try done.
      * trans (text_of_log (recs ++ [r])); [by apply text_of_log_prefix|done].
      * by rewrite app_nil_r.
      * by intros ?%elem_of_nil.
  - do 4 (split; [done|]). cbn [fst snd]. rewrite Hsync.
    split; [|done].
    eapply log_holds_intro; [exact Hn|done|done|exact Hs|by rewrite app_nil_r| |done|done|done].
    by intros ?%elem_of_nil.
Qed.

Lemma io_Append s l safe recs r :
  log_holds s l safe recs →
  io (Append_log r l) (appended s l safe recs r) (append_stopped s l safe recs r) s.
Proof.
  intros Hh. unfold Append_log.
  destruct (Validate r) as [e|] eqn:Hv; [apply io_ret, appended_same; [done|by left; rewrite Hv]|].
  destruct (Marshal_record r) as [b|] eqn:Hm;
    [|by apply io_ret, appended_same; [done|right; left]].
  pose proof Hh as (i & part & sy & Hn & Hw & Hs & Hp & Hwe & Hsafe & Hsy).
  destruct (w_err (l_w l)) as [e|] eqn:He.
  { io_steps. eapply io_buf_Write_err; [done|]. io_steps. rewrite set_w_same.
    apply appended_same; [done|]. right; right; left. by rewrite He. }
  destruct (Hwe eq_refl) as [-> Hb]. rewrite app_nil_r in Hs.
  assert (pending s (l_w l) i (text_of_log recs) sy) as Hpend.
  { split; [by rewrite Hw|]. split; [done|]. rewrite Hb. cbn. unfold bufio_size. lia. }
  assert (line_of r = b ++ [newline]) as Hline by (unfold line_of; by rewrite Hm).
  assert (text_of_log recs ++ b `prefix_of` text_of_log recs ++ line_of r) as Hpre.
  { rewrite Hline. apply prefix_app. by apply prefix_app_r. }
  io_steps. eapply io_mono; [by apply io_buf_Write| |].
  2: { intros s' Hst. rewrite Hb in Hst. by eapply stopped_append. }
  intros [w1 err] s1 H1. unfold accepts in H1. cbn [fst snd] in H1. rewrite Hb in H1.
  cbn [app] in H1. destruct err as [e|]; io_steps; [by eapply failed_appended|].
  destruct H1 as (Hfd1 & Hf1 & d1 & Hp1 & Hd1 & HT1).
  assert (d1 ++ w_buf w1 ++ [newline] = text_of_log recs ++ line_of r) as HT2.
  { rewrite Hline, !app_assoc, HT1. done. }
  eapply io_mono; [by apply io_buf_WriteByte| |].
  2: { intros s' Hst. rewrite HT2 in Hst. eapply stopped_append; [done| |done..|];
       [reflexivity|]. by eapply stopped_later. }
  intros [w2 err] s2 H2. unfold accepts in H2. cbn [fst snd] in H2. rewrite HT2 in H2.
  rewrite <-Hfd1 in Hf1.
  destruct err as [e|]; io_steps.
  { eapply failed_appended; [done| |reflexivity|done|done|]; [exact Hw|].
    eapply failed_later; [|exact Hfd1|exact Hd1|exact H2]. by rewrite <-Hfd1. }
  destruct H2 as (Hfd2 & Hf2 & d2 & Hp2 & Hd2 & HT3).
  assert (frame (w_fd (l_w l)) i s s2) as Hf02.
  { rewrite <-Hfd1. by eapply frame_trans. }
  assert (w_fd w2 = w_fd (l_w l)) as Hfd02 by congruence.
  assert (text_of_log recs `prefix_of` d2) as Hd02 by by trans d1.
  eapply io_mono; [by apply io_Flush| |].
  2: { intros s' Hst. rewrite HT3 in Hst. eapply stopped_append; [done| |done..|];
       [reflexivity|]. by eapply stopped_later. }
  intros [w3 err] s3 (H3 & Hbuf & Herr). unfold accepts in H3. cbn [fst snd] in *.
  rewrite HT3 in H3. destruct err as [e|]; io_steps.
  { eapply failed_appended; [done| |reflexivity|done|done|]; [exact Hw|].
    by eapply failed_later. }
  specialize (Hbuf eq_refl). destruct H3 as (Hfd3 & Hf3 & d3 & Hp3 & Hd3 & HT4).
  rewrite Hbuf, app_nil_r in HT4. subst d3. destruct Hp3 as (Hs3 & He3 & _).
  assert (frame (w_fd (l_w l)) i s s3) as Hf03.
  { rewrite Hfd02 in Hf3. by eapply frame_trans. }
  rewrite <-text_of_log_snoc in Hs3.
  assert (w_fd w3 = l_f l) as Hfd03 by congruence.
  eapply io_append_sync; try done.
  - by rewrite (fr_names _ _ _ _ Hf03).
  - by rewrite <-Hfd03.
  - by eapply frame_calm.
  - by eapply frame_flushes.
  - by eapply frame_willing.
Qed.
