(* ===== verification/WalCompact.v ===== *)
(** Compact replaces the log atomically: whatever the operating system answers and
    wherever the machine stops, the name of the log refers to the old file or to a
    complete new one. *)

From S2P Require Import Prelude WalRecord Json JsonValue JsonLine WalJson Os OsFacts Wal.
From S2P Require Import WalFacts WalCrash.

Local Open Scope nat_scope.

(** ** Closing and opening *)

(** Names and descriptors that are given out are below the next number. *)
Record os_ok (s : os) : Prop := {
  ok_names path i : o_names s !! path = Some i → i < o_next s;
  ok_files f fl : o_files s !! f = Some fl → f < o_next s;
}.

(** The machine stops, and nothing but the open file [f] and the inode [i] has
    changed. *)
Definition stopped_aside (i : nat) (s s' : os) : Prop :=
  ¬ calm s ∧ o_names s' = o_names s ∧ ∀ j, j ≠ i → o_inodes s' !! j = o_inodes s !! j.

Lemma stopped_stopped_aside i s d T sy s' : stopped i s d T sy s' → stopped_aside i s s'.
Proof. by intros [? ? ? _]. Qed.

Lemma stopped_aside_later f i s s1 s' :
  frame f i s s1 → stopped_aside i s1 s' → stopped_aside i s s'.
Proof.
  intros Hf (Hc & Hn & Hi). split; [intros Hcs; by eapply Hc, frame_calm|]. split.
  - rewrite Hn. apply Hf.
  - intros j Hj. rewrite Hi by done. by apply Hf.
Qed.

Lemma io_Close f i s :
  io (Close f) (λ _ s', frame f i s s' ∧ o_inodes s' = o_inodes s)
     (λ s', stopped_aside i s s' ∧ o_inodes s' = o_inodes s) s.
Proof.
  unfold Close. io_steps. destruct (o_files s !! f); io_steps; [|by split; [apply frame_refl|]].
  apply io_ask. intros a s1 Ha. io_steps.
  pose proof (asked_frame f i _ _ _ Ha) as Hf1.
  assert (o_inodes s1 = o_inodes s) as Hin by by destruct Ha as [(l & -> & _) _].
  assert (frame f i s (set_files (delete f (o_files s1)) s1)) as Hf2.
  { eapply frame_trans; [exact Hf1|]. split; cbn; try done. intros g Hg.
    by rewrite lookup_delete_ne. }
  destruct a as [|n|n]; io_steps; [done..|]. split; [|done].
  split; [intros Hc; by apply (proj1 (proj2 Ha) Hc n)|]. split; [apply Hf1|]. by rewrite Hin.
Qed.

(** A temporary file has been made. *)
Record temp_made (s : os) (name : string) (f : nat) (s1 : os) : Prop := {
  tm_name : o_names s !! name = None;
  tm_fd : f = S (o_next s);
  tm_names : o_names s1 = <[name := o_next s]> (o_names s);
  tm_inodes : o_inodes s1 = <[o_next s := mkInode [] 0]> (o_inodes s);
  tm_files : o_files s1 = <[f := mkFile (o_next s) 0 false]> (o_files s);
  tm_next : o_next s1 = S (S (o_next s));
  tm_calm : calm s → calm s1;
}.

Lemma io_CreateTemp prefix s :
  io (CreateTemp prefix)
     (λ r s1, match r with
              | Ok (name, f) => temp_made s name f s1
              | Err _ => ∀ f i, frame f i s s1 ∧ o_inodes s1 = o_inodes s
              end)
     (λ s1, ¬ calm s ∧ o_names s1 = o_names s ∧ o_inodes s1 = o_inodes s) s.
Proof.
  unfold CreateTemp. io_steps. apply io_ask. intros a s1 Ha. io_steps.
  pose proof Ha as ((l & -> & Hl) & Hstop & Hwill).
  destruct a as [|n|n]; io_steps.
  - destruct (List.find _ (o_temps _)) as [r|] eqn:Hr; io_steps.
    + apply List.find_some in Hr as [_ Hr%bool_decide_eq_true]. cbn in Hr.
      split; try done. cbn. intros [Hc1 Hc2]. split; cbn; [|done].
      intros n Hn. apply (Hc1 n). destruct Hl as [k ->]. apply elem_of_app. by right.
    + intros f i. by split; [by split|].
  - intros f i. by split; [by split|].
  - split; [|done]. intros Hc. by apply (Hstop Hc n).
Qed.

Lemma io_Rename old new i s :
  o_names s !! old = Some i →
  io (Rename old new)
     (λ err s', o_inodes s' = o_inodes s ∧ o_files s' = o_files s ∧ o_next s' = o_next s ∧
        (calm s → calm s') ∧
        o_names s' = match err with None => <[new := i]> (delete old (o_names s))
                               | Some _ => o_names s end)
     (λ s', ¬ calm s ∧ o_inodes s' = o_inodes s ∧
        (o_names s' = o_names s ∨ o_names s' = <[new := i]> (delete old (o_names s)))) s.
Proof.
  intros Hi. unfold Rename. io_steps. apply io_ask. intros a s1 Ha. io_steps.
  pose proof Ha as ((l & -> & Hl) & Hstop & Hwill). cbn [set_answers o_names]. rewrite Hi.
  assert (∀ m, calm s → calm (set_names m (set_answers l s))) as Hcalm.
  { intros m. by apply calm_suffix. }
  destruct a as [|n|n]; io_steps.
  - split_and!; try done. apply Hcalm.
  - split_and!; try done. by apply calm_suffix.
  - destruct n; io_steps.
    + split; [intros Hc; by apply (Hstop Hc 0)|]. split; [done|]. by left.
    + split; [intros Hc; by apply (Hstop Hc (S n))|]. split; [done|]. by right.
Qed.

Lemma io_Remove path s :
  io (Remove path)
     (λ _ s', o_inodes s' = o_inodes s ∧ o_files s' = o_files s ∧ (calm s → calm s') ∧
        ∀ p, p ≠ path → o_names s' !! p = o_names s !! p)
     (λ s', ¬ calm s ∧ o_inodes s' = o_inodes s ∧ o_names s' = o_names s) s.
Proof.
  unfold Remove. io_steps. apply io_ask. intros a s1 Ha. io_steps.
  pose proof Ha as ((l & -> & Hl) & Hstop & Hwill). cbn [set_answers o_names].
  assert (∀ m, calm s → calm (set_names m (set_answers l s))) as Hcalm.
  { intros m. by apply calm_suffix. }
  assert (calm s → calm (set_answers l s)) as Hcalm' by by apply calm_suffix.
  destruct (o_names s !! path) eqn:Hp; [|io_steps; by split_and!].
  destruct a as [|n'|n']; io_steps.
  - split_and!; try done. intros p Hne. cbn. by rewrite lookup_delete_ne.
  - by split_and!.
  - split; [|done]. intros Hc. by apply (Hstop Hc n').
Qed.

(** Opening the log again, at its end. *)
Lemma io_OpenFile_append path i s :
  o_names s !! path = Some i →
  io (OpenFile path false true)
     (λ r s', o_names s' = o_names s ∧ o_inodes s' = o_inodes s ∧ (calm s → calm s') ∧
        match r with
        | Ok f => f = o_next s ∧ o_files s' = <[f := mkFile i 0 true]> (o_files s)
        | Err _ => o_files s' = o_files s
        end)
     (λ s', ¬ calm s ∧ o_names s' = o_names s ∧ o_inodes s' = o_inodes s) s.
Proof.
  intros Hi. unfold OpenFile. io_steps. apply io_ask. intros a s1 Ha. io_steps.
  pose proof Ha as ((l & -> & Hl) & Hstop & Hwill).
  destruct a as [|n|n]; io_steps.
  - cbn [set_answers o_names]. rewrite Hi. io_steps. split_and!; try done.
    by apply calm_suffix.
  - split_and!; try done. by apply calm_suffix.
  - split; [|done]. intros Hc. by apply (Hstop Hc n).
Qed.

(** ** The new file *)

(** The records of a snapshot go to the file in order. *)
Lemma io_write_records snap : ∀ s w i d sy,
  pending s w i d sy →
  io (write_records snap w)
     (λ r s', match r.2 with
              | None => sent i s w d (d ++ w_buf w ++ text_of_log snap) sy r.1 s'
              | Some _ => frame (w_fd w) i s s'
              end)
     (stopped_aside i s) s.
Proof.
  induction snap as [|r snap IH]; intros s w i d sy Hp; cbn [write_records].
  - apply io_ret. cbn [fst snd]. split; [done|]. split; [apply frame_refl|]. exists d.
    split; [done|]. split; [done|]. by rewrite app_nil_r.
  - destruct (Marshal_record r) as [b|] eqn:Hm; [|apply io_ret, frame_refl].
    apply io_bind. eapply io_mono; [by apply io_buf_Write| |apply stopped_stopped_aside].
    intros [w1 err] s1 H1. unfold accepts in H1. cbn [fst snd] in H1.
    destruct err as [e|]; [apply io_ret, H1|].
    destruct H1 as (Hfd & Hf & d1 & Hp1 & Hd1 & HT).
    eapply io_mono; [by apply IH| |].
    + intros [w2 err] s2 H2. cbn [fst snd] in *. rewrite Hfd in H2. destruct err as [e|].
      * by eapply frame_trans.
      * rewrite <-Hfd in Hf. rewrite app_assoc, HT, <-!app_assoc in H2.
        eapply sent_later; [rewrite <-Hfd; exact Hf|exact Hfd|exact Hd1|].
        rewrite text_of_log_cons. unfold line_of. rewrite Hm. cbn [from_option id].
        by rewrite <-!app_assoc.
    + intros s2 H2. by eapply stopped_aside_later.
Qed.

(** ** The log is left alone *)

Lemma at_end_same s s' f i d sy :
  o_files s' !! f = o_files s !! f → o_inodes s' !! i = o_inodes s !! i →
  at_end s f i d sy → at_end s' f i d sy.
Proof. intros Hf Hi. unfold at_end. by rewrite Hf, Hi. Qed.

(** The descriptor, the name and the inode of the log are as they were. *)
Lemma log_holds_same s s' l safe recs :
  o_names s' !! l_path l = o_names s !! l_path l →
  o_files s' !! l_f l = o_files s !! l_f l →
  (∀ i, o_names s !! l_path l = Some i → o_inodes s' !! i = o_inodes s !! i) →
  log_holds s l safe recs → log_holds s' l safe recs.
Proof.
  intros Hn Hf Hi (i & part & sy & Hp & ? & Hs & ?). exists i, part, sy.
  rewrite Hn. split; [done|]. split; [done|]. split; [|done].
  eapply at_end_same; [exact Hf|by apply Hi|done].
Qed.

Lemma disk_same s s' path safe all :
  o_names s' !! path = o_names s !! path →
  (∀ i, o_names s !! path = Some i → o_inodes s' !! i = o_inodes s !! i) →
  disk s path safe all → disk s' path safe all.
Proof.
  intros Hn Hi (i & d & sy & part & Hp & Hd & ?). exists i, d, sy, part.
  rewrite Hn, (Hi _ Hp). done.
Qed.

(** A log next to the file [f] of the inode [i]. *)
Record beside (s : os) (l : Log) (f i : nat) : Prop := {
  bs_fd : l_f l ≠ f;
  bs_inode : o_names s !! l_path l ≠ Some i;
}.

Lemma beside_holds f i s s' l safe recs :
  beside s l f i → frame f i s s' → log_holds s l safe recs → log_holds s' l safe recs.
Proof.
  intros [Hf Hi] Hfr. apply log_holds_same; [by rewrite (fr_names _ _ _ _ Hfr)|by apply Hfr|].
  intros j Hj. apply Hfr. congruence.
Qed.

Lemma beside_later f i s s' l : beside s l f i → frame f i s s' → beside s' l f i.
Proof. intros [Hf Hi] Hfr. split; [done|]. by rewrite (fr_names _ _ _ _ Hfr). Qed.

Lemma beside_stopped f i s s' l safe recs :
  beside s l f i → stopped_aside i s s' → log_holds s l safe recs →
  disk s' (l_path l) safe recs.
Proof.
  intros [Hf Hi] (_ & Hn & Hin) Hh%log_holds_disk. eapply disk_same; [|..|exact Hh].
  - by rewrite Hn.
  - intros j Hj. apply Hin. congruence.
Qed.

Lemma temp_beside s name f s1 l safe recs :
  os_ok s → temp_made s name f s1 → log_holds s l safe recs →
  beside s1 l f (o_next s) ∧ log_holds s1 l safe recs ∧ name ≠ l_path l.
Proof.
  intros [Hon Hof] [Hname Hfd Hn Hi Hf _ _] Hh.
  pose proof Hh as (i & part & sy & Hp & _ & ((off & ap & Hfile & _) & _) & _).
  assert (name ≠ l_path l) as Hne by (intros ->; congruence).
  pose proof (Hon _ _ Hp). pose proof (Hof _ _ Hfile). split; [|split; [|done]].
  - split; [subst f; lia|]. rewrite Hn, lookup_insert_ne by done. intros Hx. simplify_eq. lia.
  - eapply log_holds_same; [..|exact Hh].
    + by rewrite Hn, lookup_insert_ne.
    + rewrite Hf, lookup_insert_ne; [done|]. subst f. lia.
    + intros j Hj. rewrite Hi, lookup_insert_ne; [done|]. simplify_eq. lia.
Qed.

(** ** Compact *)

(** The log writes to another file than the one that has its name. *)
Definition stale (s : os) (l : Log) : Prop :=
  w_fd (l_w l) = l_f l ∧
  ∃ fl i, o_files s !! l_f l = Some fl ∧ o_names s !! l_path l = Some i ∧ f_inode fl ≠ i.

(** Compact returns: with the new log, or with an error and the old log; if the new
    file is in place but could not be opened, the log still writes to the old one. *)
Definition compacted (l : Log) (safe recs snap : list WRecord) (res : Log * option error)
    (s' : os) : Prop :=
  l_path res.1 = l_path l ∧ l_syncEach res.1 = l_syncEach l ∧
  match res.2 with
  | None => log_holds s' res.1 snap snap
  | Some _ =>
    res.1 = l ∧
    (log_holds s' l safe recs ∨
     disk s' (l_path l) snap snap ∧ contents s' (l_path l) = Some (text_of_log snap) ∧ stale s' l)
  end.

Definition old_or_new (l : Log) (safe recs snap : list WRecord) (s' : os) : Prop :=
  disk s' (l_path l) safe recs ∨ disk s' (l_path l) snap snap.

Lemma compact_fails l safe recs snap e s' :
  log_holds s' l safe recs → compacted l safe recs snap (l, Some e) s'.
Proof. intros Hh. split_and!; try done. split; [done|]. by left. Qed.

(** The new file is complete and on the disk; it takes the name of the log. *)
Lemma io_compact_rename s l safe recs snap name i :
  os_ok s → log_holds s l safe recs → name ≠ l_path l → o_names s !! l_path l ≠ Some i →
  o_names s !! name = Some i →
  o_inodes s !! i = Some (mkInode (text_of_log snap) (length (text_of_log snap))) →
  io (err ← Rename name (l_path l);
      match err with
      | Some e => mret (l, Some e)
      | None =>
        f ← OpenFile (l_path l) false true;
        match f with
        | Err e => mret (l, Some e)
        | Ok f =>
          _ ← Close (l_f l);
          mret (mkLog (l_path l) f (NewWriter f) (l_syncEach l), None)
        end
      end)
     (compacted l safe recs snap) (old_or_new l safe recs snap) s.
Proof.
  intros Hok Hh Hne Hother Hname Hino.
  assert (∀ s', o_names s' !! l_path l = Some i → o_inodes s' = o_inodes s →
            disk s' (l_path l) snap snap) as Hnew.
  { intros s' Hn' Hi'. exists i, (text_of_log snap), (length (text_of_log snap)), [].
    rewrite Hi', app_nil_r. split_and!; try done. by intros ?%elem_of_nil. }
  assert (o_files s !! l_f l ≠ None) as Hfd.
  { destruct Hh as (? & ? & ? & _ & _ & ((? & ? & -> & _) & _) & _). done. }
  io_steps. eapply io_mono; [by apply io_Rename| |].
  2: { intros s' (_ & Hi' & [Hn'|Hn']).
       - left. eapply disk_same; [|..|by apply log_holds_disk]; [by rewrite Hn'|by rewrite Hi'].
       - right. apply Hnew; [|done]. by rewrite Hn', lookup_insert_eq. }
  intros err s1 (Hi1 & Hf1 & Hx1 & _ & Hn1). destruct err as [e|]; io_steps.
  { apply compact_fails. eapply log_holds_same; [..|exact Hh]; [by rewrite Hn1|by rewrite Hf1|].
    by rewrite Hi1. }
  assert (o_names s1 !! l_path l = Some i) as Hp1 by by rewrite Hn1, lookup_insert_eq.
  eapply io_mono; [by apply io_OpenFile_append| |].
  2: { intros s' (_ & Hn' & Hi'). right. apply Hnew; [by rewrite Hn'|by rewrite Hi']. }
  intros [f|e] s2 (Hn2 & Hi2 & _ & Hf2); io_steps.
  2: { split; [done|]. split; [done|]. split; [done|]. right.
       split; [apply Hnew; [by rewrite Hn2|by rewrite Hi2]|]. split.
       - unfold contents. rewrite Hn2, Hp1. cbn [mbind option_bind]. by rewrite Hi2, Hi1, Hino.
       - destruct Hh as (i0 & part & sy & Hp & Hw & ((off & ap & Hfile & _) & _) & _).
         split; [done|]. exists (mkFile i0 off ap), i. rewrite Hf2, Hf1, Hn2, Hp1.
         split_and!; [done..|]. cbn. congruence. }
  destruct Hf2 as [-> Hf2].
  assert (l_f l ≠ o_next s1) as Hne'.
  { destruct (o_files s !! l_f l) as [fl|] eqn:Hfl; [|done]. apply ok_files in Hfl; [|done].
    rewrite Hx1. lia. }
  eapply io_mono; [apply (io_Close _ i)| |].
  2: { intros s' [(_ & Hn' & _) Hi']. right.
       apply Hnew; [by rewrite Hn', Hn2|by rewrite Hi', Hi2]. }
  intros _ s3 [Hf3 Hi3]. io_steps. split; [done|]. split; [done|]. cbn [fst snd].
  exists i, [], (length (text_of_log snap)). cbn [l_path l_f l_w w_fd w_err w_buf NewWriter].
  split; [by rewrite (fr_names _ _ _ _ Hf3), Hn2|]. split; [done|]. rewrite app_nil_r.
  split_and!; try done.
  - split; [|split; [by rewrite Hi3, Hi2, Hi1|lia]]. exists 0, true. split; [|by left].
    rewrite (fr_files _ _ _ _ Hf3) by done. by rewrite Hf2, lookup_insert_eq.
  - by intros ?%elem_of_nil.
Qed.

(** A file that cannot be written is closed, and the log stays. *)
Lemma io_compact_abort s l safe recs snap f i e :
  beside s l f i → log_holds s l safe recs →
  io (_ ← Close f; mret (l, Some e))
     (compacted l safe recs snap) (old_or_new l safe recs snap) s.
Proof.
  intros Hb Hh. io_steps. eapply io_mono; [apply (io_Close f i)|..].
  - intros _ s' [Hf _]. io_steps. apply compact_fails. by eapply beside_holds.
  - intros s' [Hst _]. left. by eapply beside_stopped.
Qed.

Lemma io_compact_file s l safe recs snap name f i :
  os_ok s → beside s l f i → log_holds s l safe recs → name ≠ l_path l →
  o_names s !! name = Some i → at_end s f i [] 0 →
  io (compact_file l snap name f)
     (compacted l safe recs snap) (old_or_new l safe recs snap) s.
Proof.
  intros Hok Hb Hh Hne Hname Hend. unfold compact_file.
  assert (∀ s1 s', frame f i s s1 → stopped_aside i s1 s' → old_or_new l safe recs snap s') as Hstop.
  { intros s1 s' Hf Hst. left. eapply beside_stopped; [exact Hb| |exact Hh].
    by eapply stopped_aside_later. }
  assert (∀ s1 e, frame f i s s1 →
    io (_ ← Close f; mret (l, Some e)) (compacted l safe recs snap)
       (old_or_new l safe recs snap) s1) as Habort.
  { intros s1 e Hf. eapply io_compact_abort; [by eapply beside_later|by eapply beside_holds]. }
  assert (pending s (NewWriter f) i [] 0) as Hp.
  { split; [done|]. split; [done|]. cbn. lia. }
  io_steps. eapply io_mono; [by apply io_write_records| |by eauto using frame_refl].
  intros [w1 err] s1 H1. cbn [fst snd NewWriter w_fd w_buf] in H1.
  destruct err as [e|]; [by apply Habort|].
  destruct H1 as (Hfd1 & Hf1 & d1 & Hp1 & _ & HT). cbn in Hfd1, Hf1.
  io_steps. eapply io_mono; [by apply io_Flush| |].
  2: { intros s' Hst. eapply Hstop; [exact Hf1|]. by eapply stopped_stopped_aside. }
  intros [w2 err] s2 (H2 & Hbuf & _). unfold accepts in H2. cbn [fst snd] in *.
  assert (frame f i s s2) as Hf2.
  { eapply frame_trans; [exact Hf1|]. rewrite <-Hfd1. by destruct err; apply H2. }
  destruct err as [e|]; [by apply Habort|].
  destruct H2 as (Hfd2 & _ & d2 & (Hs2 & _) & _ & HT2).
  rewrite (Hbuf eq_refl), app_nil_r, HT in HT2. cbn [app] in HT2. subst d2.
  rewrite Hfd2, Hfd1 in Hs2.
  io_steps. eapply io_mono; [by apply io_Sync| |].
  2: { intros s' Hst. eapply Hstop; [exact Hf2|]. by eapply stopped_stopped_aside. }
  intros err s3 (Hf3 & Hs3 & _).
  assert (frame f i s s3) as Hf03 by by eapply frame_trans.
  destruct err as [e|]; [by apply Habort|].
  io_steps. eapply io_mono; [apply (io_Close f i)| |].
  2: { intros s' [Hst _]. by eapply Hstop. }
  intros err s4 [Hf4 Hi4].
  assert (frame f i s s4) as Hf04 by by eapply frame_trans.
  assert (log_holds s4 l safe recs) as Hh4 by by eapply beside_holds.
  destruct err as [e|]; [by io_steps; apply compact_fails|].
  eapply io_compact_rename; [|done|done| | |].
  - destruct Hok as [Hn Hf]. split.
    + intros p j. rewrite (fr_names _ _ _ _ Hf04), (fr_next _ _ _ _ Hf04). apply Hn.
    + intros g fl. rewrite (fr_next _ _ _ _ Hf04). destruct (decide (g = f)) as [->|Hg].
      * intros _. destruct Hend as ((off & ap & Hfile & _) & _). by eapply Hf.
      * rewrite (fr_files _ _ _ _ Hf04) by done. apply Hf.
  - rewrite (fr_names _ _ _ _ Hf04). apply Hb.
  - by rewrite (fr_names _ _ _ _ Hf04).
  - rewrite Hi4. apply Hs3.
Qed.

(** Compaction leaves the old log or the new one. *)
Lemma io_Compact s l safe recs snap :
  os_ok s → log_holds s l safe recs →
  io (Compact l snap) (compacted l safe recs snap) (old_or_new l safe recs snap) s.
Proof.
  intros Hok Hh. unfold Compact. io_steps. eapply io_mono; [apply io_CreateTemp| |].
  2: { intros s' (_ & Hn & Hi). left. eapply disk_same; [| |by apply log_holds_disk].
       - by rewrite Hn.
       - by rewrite Hi. }
  intros [[name f]|e] s1 H1; io_steps.
  2: { destruct (H1 (S (l_f l)) (S (o_next s))) as [Hf Hi]. apply compact_fails.
       eapply log_holds_same; [| | |exact Hh].
       - by rewrite (fr_names _ _ _ _ Hf).
       - apply Hf. lia.
       - by rewrite Hi. }
  destruct (temp_beside _ _ _ _ _ _ _ Hok H1 Hh) as (Hb & Hh1 & Hne).
  pose proof H1 as [_ -> Hn1 Hi1 Hf1 Hx1 _].
  eapply io_mono; [eapply io_compact_file; [|exact Hb|exact Hh1|exact Hne|..]|..].
  - destruct Hok as [Hon Hof]. split.
    + intros p j. rewrite Hn1, Hx1. destruct (decide (p = name)) as [->|Hp].
      * rewrite lookup_insert_eq. intros [= <-]. lia.
      * rewrite lookup_insert_ne by done. intros ?%Hon. lia.
    + intros g fl. rewrite Hf1, Hx1. destruct (decide (g = S (o_next s))) as [->|Hg]; [lia|].
      rewrite lookup_insert_ne by done. intros ?%Hof. lia.
  - by rewrite Hn1, lookup_insert_eq.
  - split; [|split; [|done]].
    + exists 0, false. rewrite Hf1, lookup_insert_eq. split; [done|by right].
    + by rewrite Hi1, lookup_insert_eq.
  - intros [l' err] s2 (Hp2 & Hsy2 & H2). io_steps. cbn [fst snd] in *.
    eapply io_mono; [apply io_Remove| |].
    + intros _ s3 (Hi3 & Hf3 & _ & Hn3). io_steps. split; [done|]. split; [done|]. cbn [fst snd].
      assert (∀ l1 sf rs, l_path l1 = l_path l → log_holds s2 l1 sf rs → log_holds s3 l1 sf rs) as Hsame.
      { intros l1 sf rs Hl1. apply log_holds_same; [by rewrite Hl1, Hn3|by rewrite Hf3|by rewrite Hi3]. }
      destruct err as [e|]; [|by apply Hsame]. destruct H2 as [-> [H2|H2]]; (split; [done|]).
      * left. by apply Hsame.
      * right. destruct H2 as (Hd2 & Hc2 & Hw & fl & i & Hfl & Hi & Hne2). split; [|split].
        -- eapply disk_same; [| |exact Hd2]; [by rewrite Hn3|by rewrite Hi3].
        -- unfold contents in *. by rewrite Hn3, Hi3 by done.
        -- split; [done|]. exists fl, i. by rewrite Hf3, Hn3 by done.
    + intros s3 (_ & Hi3 & Hn3). unfold old_or_new.
      assert (∀ sf rs, disk s2 (l_path l) sf rs → disk s3 (l_path l) sf rs) as Hsame.
      { intros sf rs. apply disk_same; [by rewrite Hn3|by rewrite Hi3]. }
      destruct err as [e|].
      * destruct H2 as [-> [H2%log_holds_disk|[H2 _]]]; auto.
      * apply log_holds_disk in H2. rewrite Hp2 in H2. auto.
  - done.
Qed.
