(* ===== verification/WalOpen.v ===== *)
(** Open: the records in the file are returned, a torn tail is cut off, and the log
    is ready for appending. *)

From S2P Require Import Prelude WalRecord Json JsonValue JsonLine WalJson Os OsFacts Wal.
From S2P Require Import WalFacts WalCrash WalCompact.

Local Open Scope nat_scope.

(** There is no log yet, or there is one on the disk. *)
Definition log_file (s : os) (path : string) (safe all : list WRecord) : Prop :=
  o_names s !! path = None ∧ safe = [] ∨ disk s path safe all.

Lemma log_file_same s s' path safe all :
  o_names s' !! path = o_names s !! path →
  (∀ i, o_names s !! path = Some i → o_inodes s' !! i = o_inodes s !! i) →
  log_file s path safe all → log_file s' path safe all.
Proof.
  intros Hn Hi [[H ->]|H]; [left; by rewrite Hn|right; by eapply disk_same].
Qed.

Lemma crash_log_file s s' path safe all :
  log_file s path safe all → crash s s' → log_file s' path safe all.
Proof.
  intros [[Hn ->]|Hd] Hc; [left|right; by eapply crash_disk].
  by rewrite (cr_names _ _ Hc).
Qed.

(** Names and inodes are the same. *)
Definition same_disk (s s' : os) : Prop := o_names s' = o_names s ∧ o_inodes s' = o_inodes s.

Lemma same_disk_log s s' path safe all :
  same_disk s s' → log_file s path safe all → log_file s' path safe all.
Proof. intros [Hn Hi]. apply log_file_same; [by rewrite Hn|by rewrite Hi]. Qed.

(** The environment goes on as it was. *)
Definition steady (s s' : os) : Prop :=
  (calm s → calm s') ∧ (flushes s → flushes s') ∧ (willing s → willing s').

Lemma steady_suffix s s' :
  o_answers s' `suffix_of` o_answers s → o_syncs s' `suffix_of` o_syncs s → steady s s'.
Proof.
  intros Ha Hs. split; [by apply calm_suffix|]. split; [by apply flushes_suffix|]. intros [Hwa Hws]. rewrite Hwa in Ha.
  rewrite Hws in Hs. split; by apply suffix_nil_inv.
Qed.

Lemma steady_trans s1 s2 s3 : steady s1 s2 → steady s2 s3 → steady s1 s3.
Proof. unfold steady. naive_solver. Qed.

Lemma frame_steady f i s s' : frame f i s s' → steady s s'.
Proof.
  intros Hf. split; [by eapply frame_calm|].
  split; [by eapply frame_flushes|by eapply frame_willing].
Qed.

Lemma io_MkdirAll s :
  io MkdirAll
     (λ err s', same_disk s s' ∧ o_files s' = o_files s ∧ o_next s' = o_next s ∧ steady s s' ∧
        (willing s → err = None))
     (same_disk s) s.
Proof.
  unfold MkdirAll. io_steps. apply io_ask. intros a s1 Ha. io_steps.
  pose proof Ha as ((l & -> & Hl) & Hstop & Hwill).
  assert (steady s (set_answers l s)) as Hst by by apply steady_suffix.
  destruct a; io_steps; try done; split_and!; try done. by intros Hw%Hwill.
Qed.

(** ReadAll of a log on the disk. *)
Lemma io_ReadAll s path safe all :
  log_file s path safe all → Forall readable_record all →
  io (ReadAll path)
     (λ r s', same_disk s s' ∧ o_files s' = o_files s ∧ o_next s' = o_next s ∧
        steady s s' ∧
        match r with
        | Ok (recs, n, torn) =>
          safe `prefix_of` recs ∧ recs `prefix_of` all ∧
          n = Z.of_nat (length (text_of_log recs)) ∧
          ∃ part, (newline ∉ part) ∧ torn = bool_decide (part ≠ []) ∧
            match o_names s !! path with
            | Some _ => contents s path = Some (text_of_log recs ++ part)
            | None => recs = [] ∧ part = []
            end
        | Err _ => ¬ willing s
        end)
     (same_disk s) s.
Proof.
  intros Hlog Hr. unfold ReadAll, ReadFile. io_steps. apply io_ask. intros a s1 Ha. io_steps.
  pose proof Ha as ((l & -> & Hl) & Hstop & Hwill). cbn [set_answers o_names o_inodes].
  assert (steady s (set_answers l s)) as Hst by by apply steady_suffix.
  destruct a as [|n|n]; io_steps; [|split_and!; try done; by intros Hw%Hwill|done].
  destruct Hlog as [[Hn ->]|Hd].
  - rewrite Hn. io_steps. split_and!; try done; [apply prefix_nil..|].
    exists []. split; [by intros ?%elem_of_nil|done].
  - destruct (disk_read _ _ _ _ Hd Hr) as (recs & part & Hs & Ha' & Hp & Hc & Hread).
    unfold contents in Hc. destruct (o_names s !! path) as [i|] eqn:Hi; [|done].
    cbn in Hc. destruct (o_inodes s !! i) as [ino|] eqn:Hino; [|done].
    cbn in Hc. injection Hc as Hc. io_steps. cbn [from_option]. rewrite Hc, Hread. io_steps.
    split_and!; try done. exists part. split; [done|]. split; [done|].
    unfold contents. rewrite Hi. cbn. rewrite Hino. cbn. by rewrite Hc.
Qed.

(** The file of the log has been opened. *)
Record file_opened (path : string) (s : os) (f : nat) (s' : os) : Prop := {
  fo_ok : os_ok s → os_ok s';
  fo_steady : steady s s';
  fo_file : ∃ i, o_names s' !! path = Some i ∧ o_files s' !! f = Some (mkFile i 0 false) ∧
              match o_names s !! path with
              | Some j => j = i ∧ o_inodes s' = o_inodes s
              | None => o_inodes s' !! i = Some (mkInode [] 0)
              end;
}.

Lemma io_OpenFile_create path s :
  io (OpenFile path true false)
     (λ r s', match r with
              | Ok f => file_opened path s f s'
              | Err _ => same_disk s s' ∧ ¬ willing s
              end)
     (same_disk s) s.
Proof.
  unfold OpenFile. io_steps. apply io_ask. intros a s1 Ha. io_steps.
  pose proof Ha as ((l & -> & Hl) & Hstop & Hwill). cbn [set_answers o_names o_next].
  destruct a as [|n|n]; [|io_steps; split; [done|by intros Hw%Hwill]|io_steps; done].
  destruct (o_names s !! path) as [i|] eqn:Hi; io_steps.
  - split.
    + intros [Hon Hof]. split; cbn.
      * intros p j Hp. apply Hon in Hp. lia.
      * intros g fl. destruct (decide (g = o_next s)) as [->|Hg]; [lia|].
        rewrite lookup_insert_ne by done. intros ?%Hof. lia.
    + by apply steady_suffix.
    + exists i. rewrite Hi. cbn. by rewrite lookup_insert_eq.
  - split.
    + intros [Hon Hof]. split; cbn.
      * intros p j. destruct (decide (p = path)) as [->|Hp].
        { rewrite lookup_insert_eq. intros [= <-]. lia. }
        rewrite lookup_insert_ne by done. intros ?%Hon. lia.
      * intros g fl. destruct (decide (g = S (o_next s))) as [->|Hg]; [lia|].
        rewrite lookup_insert_ne by done. intros ?%Hof. lia.
    + by apply steady_suffix.
    + exists (o_next s). rewrite Hi. cbn. by rewrite !lookup_insert_eq.
Qed.

(** ** Cutting off the tail *)

Lemma io_Truncate s f i off ap d sy n :
  o_files s !! f = Some (mkFile i off ap) → o_inodes s !! i = Some (mkInode d sy) →
  n ≤ length d →
  io (Truncate f n)
     (λ err s', frame f i s s' ∧ o_files s' = o_files s ∧
        o_inodes s' !! i =
          Some (match err with None => mkInode (take n d) (sy `min` n) | Some _ => mkInode d sy end) ∧
        (willing s → err = None))
     (same_disk s) s.
Proof.
  intros Hf Hi Hn. unfold Truncate. io_steps. rewrite Hf. io_steps. apply io_ask.
  intros a s1 Ha. io_steps. pose proof (asked_frame f i _ _ _ Ha) as Hfr.
  pose proof Ha as ((l & -> & Hl) & Hstop & Hwill). cbn [f_inode set_answers o_inodes]. rewrite Hi.
  cbn [i_data i_synced]. rewrite resize_le by done.
  destruct a as [|k|k]; io_steps; [| |done].
  - split; [|split; [done|split; [cbn; by rewrite lookup_insert_eq|done]]].
    split; cbn; try done. intros. by rewrite lookup_insert_ne.
  - split_and!; try done. by intros Hw%Hwill.
Qed.

Lemma io_Seek s f i off ap n :
  o_files s !! f = Some (mkFile i off ap) →
  io (Seek f n)
     (λ err s', frame f i s s' ∧ o_inodes s' = o_inodes s ∧
        (err = None → o_files s' !! f = Some (mkFile i n ap)) ∧ (willing s → err = None))
     (same_disk s) s.
Proof.
  intros Hf. unfold Seek. io_steps. rewrite Hf. io_steps. apply io_ask.
  intros a s1 Ha. io_steps. pose proof (asked_frame f i _ _ _ Ha) as Hfr.
  pose proof Ha as ((l & -> & Hl) & Hstop & Hwill). cbn [f_inode f_append].
  destruct a as [|k|k]; io_steps; [| |done].
  - split; [|split; [done|split; [intros _; cbn; by rewrite lookup_insert_eq|done]]].
    split; cbn; try done. intros. by rewrite lookup_insert_ne.
  - split_and!; try done. by intros Hw%Hwill.
Qed.

Lemma frame_ok f i s s' :
  is_Some (o_files s !! f) → frame f i s s' → os_ok s → os_ok s'.
Proof.
  intros [fl Hfl] Hfr [Hn Hf]. split.
  - intros p j. rewrite (fr_names _ _ _ _ Hfr), (fr_next _ _ _ _ Hfr). apply Hn.
  - intros g fl'. rewrite (fr_next _ _ _ _ Hfr). destruct (decide (g = f)) as [->|Hg].
    + intros _. by eapply Hf.
    + rewrite (fr_files _ _ _ _ Hfr) by done. apply Hf.
Qed.

(** ** Open *)

(** Open returns a log that holds the records it returns, which are those
    on the disk; if it fails, which is the fault of the operating system, the file
    still holds them. *)
Definition log_opened (s : os) (path : string) (syncEach : bool) (safe all : list WRecord)
    (r : result (Log * list WRecord * bool)) (s' : os) : Prop :=
  match r with
  | Ok (l, recs, torn) =>
    l_path l = path ∧ l_syncEach l = syncEach ∧ safe `prefix_of` recs ∧ recs `prefix_of` all ∧
    log_holds s' l safe recs ∧ w_err (l_w l) = None ∧ (os_ok s → os_ok s') ∧ steady s s'
  | Err _ => log_file s' path safe all ∧ ¬ willing s
  end.

(** The file, once it is cut after the last record, at the place of the next one. *)
Lemma io_open_seek s0 s path syncEach safe recs all f i sy torn :
  o_names s !! path = Some i → o_files s !! f = Some (mkFile i 0 false) →
  o_inodes s !! i = Some (mkInode (text_of_log recs) sy) →
  safe `prefix_of` recs → recs `prefix_of` all → length (text_of_log safe) ≤ sy →
  sy ≤ length (text_of_log recs) →
  (os_ok s0 → os_ok s) → steady s0 s →
  io (err ← Seek f (length (text_of_log recs));
      match err with
      | Some e => _ ← Close f; mret (Err e)
      | None => mret (Ok (mkLog path f (NewWriter f) syncEach, recs, torn))
      end)
     (log_opened s0 path syncEach safe all) (λ s', log_file s' path safe all) s.
Proof.
  intros Hn Hf Hi Hsafe Hall Hlen Hsy Hok Hcalm.
  assert (log_file s path safe all) as Hlog.
  { right. exists i, (text_of_log recs), sy, []. rewrite app_nil_r. split_and!; try done.
    - by trans recs.
    - by apply text_of_log_prefix.
    - by apply text_of_log_prefix.
    - by intros ?%elem_of_nil. }
  io_steps. eapply io_mono; [by eapply io_Seek| |by intros; eapply same_disk_log].
  intros [e|] s1 (Hfr & Hi1 & Hf1 & Hw1).
  - assert (log_file s1 path safe all) as Hlog1.
    { eapply same_disk_log; [|exact Hlog]. split; [apply Hfr|done]. }
    io_steps. eapply io_mono; [apply (io_Close f i)| |].
    + intros _ s2 [Hfr2 Hi2]. io_steps. split.
      * eapply same_disk_log; [|exact Hlog1]. split; [apply Hfr2|done].
      * intros Hw%Hcalm. by specialize (Hw1 Hw).
    + intros s2 [(_ & Hn2 & _) Hi2]. by eapply same_disk_log.
  - io_steps. split; [done|]. split; [done|]. split; [done|]. split; [done|].
    split; [|split; [done|split]].
    + exists i, [], sy. cbn. rewrite app_nil_r, (fr_names _ _ _ _ Hfr).
      split_and!; try done; [|by intros ?%elem_of_nil].
      split; [|by rewrite Hi1]. exists (length (text_of_log recs)), false. split; [by apply Hf1|].
      by right.
    + intros Hok0. eapply frame_ok; [|exact Hfr|by apply Hok]. by eexists.
    + eapply steady_trans; [exact Hcalm|by eapply frame_steady].
Qed.

Lemma io_Open s dir syncEach safe all :
  log_file s (Join dir FileName) safe all → Forall readable_record all →
  io (Open dir syncEach)
     (log_opened s (Join dir FileName) syncEach safe all)
     (λ s', log_file s' (Join dir FileName) safe all) s.
Proof.
  intros Hlog Hr. unfold Open. set (path := Join dir FileName) in *. io_steps.
  eapply io_mono; [apply io_MkdirAll| |by intros; eapply same_disk_log].
  intros [e|] s1 (Hd1 & Hf1 & Hx1 & Hc1 & Hw1).
  { io_steps. split; [by eapply same_disk_log|]. by intros Hw%Hw1. }
  pose proof (same_disk_log _ _ _ _ _ Hd1 Hlog) as Hlog1.
  assert (os_ok s → os_ok s1) as Hok1.
  { destruct Hd1 as [Hn _]. intros [Hon Hof]. split; [intros p j|intros g fl].
    - rewrite Hn, Hx1. apply Hon.
    - rewrite Hf1, Hx1. apply Hof. }
  io_steps. eapply io_mono; [by apply io_ReadAll| |by intros; eapply same_disk_log].
  intros [[[recs n] torn]|e] s2 (Hd2 & Hf2 & Hx2 & Hc2 & Hread).
  2: { io_steps. split; [by eapply same_disk_log|]. by intros Hw%Hc1. }
  destruct Hread as (Hsafe & Hall & -> & part & Hp & -> & Hpart).
  pose proof (same_disk_log _ _ _ _ _ Hd2 Hlog1) as Hlog2.
  assert (os_ok s1 → os_ok s2) as Hok2.
  { destruct Hd2 as [Hn _]. intros [Hon Hof]. split; [intros p j|intros g fl].
    - rewrite Hn, Hx2. apply Hon.
    - rewrite Hf2, Hx2. apply Hof. }
  io_steps. eapply io_mono; [apply io_OpenFile_create| |by intros; eapply same_disk_log].
  intros [f|e] s3 H3.
  2: { io_steps. destruct H3 as [H3 Hw3]. split; [by eapply same_disk_log|].
       by intros Hw%Hc1%Hc2. }
  destruct H3 as [Hok3 Hc3 (i & Hn3 & Hf3 & Hi3)]. rewrite Nat2Z.id.
  (* what the file holds now *)
  assert (∃ sy, o_inodes s3 !! i = Some (mkInode (text_of_log recs ++ part) sy) ∧
            length (text_of_log safe) ≤ sy ∧ sy ≤ length (text_of_log recs ++ part) ∧
            log_file s3 path safe all) as Hino.
  { destruct (o_names s2 !! path) as [j|] eqn:Hj.
    - destruct Hi3 as [-> Hi3]. destruct Hd2 as [Hn2 Hi2]. rewrite <-Hn2, Hj in Hpart.
      pose proof Hlog2 as [[Hno _]|(j & d & sy & q & Hj' & Hd & _ & _ & Hsy & _ & _ & Hle)];
        [congruence|]. rewrite Hj in Hj'. injection Hj' as <-.
      unfold contents in Hpart. rewrite <-Hn2, Hj in Hpart. cbn in Hpart.
      rewrite <-Hi2, Hd in Hpart. cbn in Hpart. injection Hpart as <-.
      exists sy. rewrite Hi3, Hd. split_and!; try done.
      eapply log_file_same; [| |exact Hlog2]; [congruence|]. by rewrite Hi3.
    - destruct Hd2 as [Hn2 Hi2]. rewrite <-Hn2, Hj in Hpart. destruct Hpart as [-> ->].
      apply prefix_nil_inv in Hsafe as ->. exists 0. rewrite Hi3.
      split_and!; try done. right. exists i, [], 0, []. split_and!; try done;
        try apply prefix_nil; by intros ?%elem_of_nil. }
  destruct Hino as (sy & Hino & Hsy & Hle & Hlog3).
  assert (length (text_of_log safe) ≤ length (text_of_log recs)) as Hlen
    by by apply prefix_length, text_of_log_prefix.
  io_steps. case_bool_decide as Hpe.
  - eapply io_mono; [eapply io_Truncate; [done|done|rewrite length_app; lia]| |
      by intros; eapply same_disk_log].
    assert (steady s s3) as Hst3 by eauto using steady_trans.
    intros [e|] s4 (Hfr & Hf4 & Hi4 & Hw4).
    + io_steps. assert (log_file s4 path safe all) as Hlog4.
      { eapply log_file_same; [| |exact Hlog3]; [by rewrite (fr_names _ _ _ _ Hfr)|].
        intros j Hj. simplify_eq. by rewrite Hi4. }
      eapply io_mono; [apply (io_Close f i)| |].
      * intros _ s5 [Hfr5 Hi5]. io_steps. split.
        -- eapply same_disk_log; [|exact Hlog4]. split; [apply Hfr5|done].
        -- intros Hw%Hst3. by specialize (Hw4 Hw).
      * intros s5 [(_ & Hn5 & _) Hi5]. by eapply same_disk_log.
    + rewrite take_app_length in Hi4.
      eapply io_open_seek; [|by rewrite Hf4|exact Hi4|done|done|lia|lia|..].
      * by rewrite (fr_names _ _ _ _ Hfr).
      * intros Hok. eapply frame_ok; [|exact Hfr|by auto]. by eexists.
      * eapply steady_trans; [exact Hst3|by eapply frame_steady].
  - subst part. rewrite app_nil_r in *. apply io_ret.
    eapply io_open_seek; eauto using steady_trans.
Qed.
