(* ===== verification/Config.v ===== *)
(** Queue configuration (internal/queue/config.go): the queue-name syntax, the
    configuration record, its defaults and the range checks of ParseConfig.
    The JSON text of a configuration is behind the interface [ConfigJSON]
    (MarshalJSON and UnmarshalJSON), whose contract is [ConfigJSONLaws]. *)

From S2P Require Import Prelude JsonStruct.
From Stdlib Require String.

Local Open Scope Z_scope.

Definition second : Z := 10 ^ 9.
Definition DefaultVisibility : Z := 30 * second.
Definition MaxVisibility : Z := 12 * 3600 * second.
Definition MaxDelay : Z := 15 * 60 * second.

(** ** Queue names: [^[A-Za-z0-9][A-Za-z0-9._-]{0,119}$] *)

Definition in_range (lo hi : Z) (c : ascii) : bool := (lo <=? code c) && (code c <=? hi).

Definition name_first (c : ascii) : bool :=
  in_range 65 90 c || in_range 97 122 c || in_range 48 57 c.

Definition name_rest (c : ascii) : bool :=
  name_first c || (code c =? 46) || (code c =? 95) || (code c =? 45).

Definition ValidName (s : string) : bool :=
  match s with
  | EmptyString => false
  | String c s =>
    name_first c && forallb name_rest (String.list_ascii_of_string s)
      && (Nat.leb (String.length s) 119)
  end.

(** ** The configuration *)

Record Config := mkConfig {
  c_Visibility : Z;
  c_MaxReceives : Z;
  c_DeadLetter : string;
}.

#[export] Instance Config_eq_dec : EqDecision Config.
Proof. solve_decision. Defined.

Definition DefaultConfig : Config := mkConfig DefaultVisibility 0 "".

(** What the JSON encoder and decoder of [Config] provide to the engine. *)
Class ConfigJSON := {
  Marshal_config : Config → bytes;
  Unmarshal_config : bytes → result Config;
}.

Definition ParseConfig `{ConfigJSON} (b : bytes) : result Config :=
  let parsed := if decide (b = []) then Ok DefaultConfig else Unmarshal_config b in
  match parsed with
  | Err e => Err e
  | Ok c =>
    let vis := if c_Visibility c =? 0 then DefaultVisibility else c_Visibility c in
    if (vis <? 0) || (MaxVisibility <? vis) then
      Err (Errorf "visibility_timeout must be between 0s and %s" [ADur MaxVisibility])
    else if c_MaxReceives c <? 0 then Err (Errorf "max_receives must be >= 0" [])
    else if negb (bool_decide (c_DeadLetter c = "")) && negb (ValidName (c_DeadLetter c)) then
      Err (Errorf "dead_letter %q is not a valid queue name" [AStr (c_DeadLetter c)])
    else Ok (mkConfig vis (c_MaxReceives c) (c_DeadLetter c))
  end.

(** The configurations that ParseConfig lets through. *)
Record valid_config (c : Config) : Prop := {
  vc_visibility : 0 < c_Visibility c ≤ MaxVisibility;
  vc_max_receives : 0 ≤ c_MaxReceives c;
  vc_dead_letter : c_DeadLetter c = "" ∨ ValidName (c_DeadLetter c) = true;
}.

(** The contract of the JSON encoding: a valid configuration whose limit fits
    Go's [int] is written as a JSON text without white space, and read back
    unchanged. *)
Class ConfigJSONLaws `{ConfigJSON} : Prop := {
  Marshal_config_nonempty c : Marshal_config c ≠ [];
  Unmarshal_Marshal c :
    valid_config c → c_MaxReceives c < 2 ^ 63 →
    Unmarshal_config (Marshal_config c) = Ok c;
  Marshal_config_plain c :
    valid_config c → c_MaxReceives c < 2 ^ 63 → plain_json (Marshal_config c);
}.

(** ** Theorems *)

Lemma DefaultConfig_valid : valid_config DefaultConfig.
Proof. split; [done|done|by left]. Qed.

Section theorems.
Context `{ConfigJSON}.

(** ParseConfig only returns configurations in range. *)
Lemma ParseConfig_valid b c : ParseConfig b = Ok c → valid_config c.
Proof.
  unfold ParseConfig. destruct (if decide _ then _ else _) as [c0|e]; [|done].
  intros Hp. set (vis := if c_Visibility c0 =? 0 then _ else _) in Hp.
  assert (vis ≠ 0) as Hvis.
  { subst vis. destruct (Z.eqb_spec (c_Visibility c0) 0); [done|lia]. }
  destruct (Z.ltb_spec vis 0); [done|].
  destruct (Z.ltb_spec MaxVisibility vis); [done|].
  destruct (Z.ltb_spec (c_MaxReceives c0) 0); [done|].
  case_bool_decide; destruct (ValidName (c_DeadLetter c0)) eqn:Hn; simplify_eq/=;
    split; simpl; auto; lia.
Qed.

(** A valid configuration passes the checks unchanged. *)
Lemma ParseConfig_of_valid b c :
  b ≠ [] → Unmarshal_config b = Ok c → valid_config c → ParseConfig b = Ok c.
Proof.
  intros Hb Hu [Hv Hm Hd]. unfold ParseConfig. rewrite decide_False, Hu by done.
  destruct (Z.eqb_spec (c_Visibility c) 0); [lia|].
  destruct (Z.ltb_spec (c_Visibility c) 0); [lia|].
  destruct (Z.ltb_spec MaxVisibility (c_Visibility c)); [lia|].
  destruct (Z.ltb_spec (c_MaxReceives c) 0); [lia|]. simpl.
  destruct c as [vis mr dl]. simpl in *.
  case_bool_decide; [done|]. destruct Hd as [|Hd]; [done|]. by rewrite Hd.
Qed.

Lemma ParseConfig_Marshal `{!ConfigJSONLaws} c :
  valid_config c → c_MaxReceives c < 2 ^ 63 → ParseConfig (Marshal_config c) = Ok c.
Proof.
  intros Hv Hm. apply ParseConfig_of_valid; [apply Marshal_config_nonempty| |done].
  by apply Unmarshal_Marshal.
Qed.

Lemma ParseConfig_empty : ParseConfig [] = Ok DefaultConfig.
Proof. done. Qed.
End theorems.

(** A name never starts with punctuation, holds 1 to 120 bytes, and neither a
    slash nor a blank. *)
Lemma ValidName_spec s :
  ValidName s = true ↔
  ∃ c s', s = String c s' ∧ name_first c = true ∧
    Forall (λ c, name_rest c = true) (String.list_ascii_of_string s') ∧
    (String.length s ≤ 120)%nat.
Proof.
  destruct s as [|c s]; simpl.
  - split; [done|]. by intros (? & ? & ? & _).
  - rewrite !andb_true_iff, forallb_forall, Nat.leb_le. setoid_rewrite Forall_forall.
    setoid_rewrite list_elem_of_In. split.
    + intros [[? ?] ?]. exists c, s. split_and!; auto. lia.
    + intros (? & ? & [= <- <-] & ? & ? & ?). split_and!; auto. lia.
Qed.
