(* ===== verification/Float64.v ===== *)
(** float64 of Go, as far as durations need it: rounding of a quotient to the nearest
    double, multiplication and division, conversion to integers, strconv.ParseFloat,
    and the shortest decimal that fmt prints for a number.  The theorems: an operation
    on integers with an exact result is exact, and a text that ends with a letter that
    no number has is not a number. *)

From S2P Require Import Prelude Json.

Local Open Scope Z_scope.

(** ** Numbers *)

(** NaN, an infinity, or (-1)^neg * m * 2^e. *)
Inductive float := FNaN | FInf (neg : bool) | FFin (neg : bool) (m e : Z).

(** The magnitude of a finite number is [num m e / den e]. *)
Definition num (m e : Z) : Z := if 0 <=? e then m * 2 ^ e else m.
Definition den (e : Z) : Z := if 0 <=? e then 1 else 2 ^ (- e).

(** The logarithm of n/d to base 2, rounded down. *)
Definition log2_ratio (n d : Z) : Z :=
  let l := Z.log2 n - Z.log2 d in
  if (if 0 <=? l then d * 2 ^ l <=? n else d <=? n * 2 ^ (- l)) then l else l - 1.

(** n/d rounded to an integer, halves to the even one. *)
Definition half_even (n d : Z) : Z :=
  let q := n / d in
  let r := n mod d in
  if (d <? 2 * r) || ((2 * r =? d) && Z.odd q) then q + 1 else q.

(** The double that is nearest to n/d: 53 bits, exponent at least -1074, and an
    infinity from 2^1024 on. *)
Definition round (neg : bool) (n d : Z) : float :=
  if n =? 0 then FFin neg 0 0 else
  let e := Z.max (log2_ratio n d - 52) (-1074) in
  let m := if 0 <=? e then half_even n (d * 2 ^ e) else half_even (n * 2 ^ (- e)) d in
  if den e * 2 ^ 1024 <=? num m e then FInf neg else FFin neg m e.

Definition of_Z (n : Z) : float := round (n <? 0) (Z.abs n) 1.

Definition fmul (a b : float) : float :=
  match a, b with
  | FFin s m e, FFin s' m' e' => round (xorb s s') (num m e * num m' e') (den e * den e')
  | FInf s, FFin s' m _ | FFin s' m _, FInf s => if m =? 0 then FNaN else FInf (xorb s s')
  | FInf s, FInf s' => FInf (xorb s s')
  | FNaN, _ | _, FNaN => FNaN
  end.

Definition fdiv (a b : float) : float :=
  match a, b with
  | FFin s m e, FFin s' m' e' =>
    if m' =? 0 then if m =? 0 then FNaN else FInf (xorb s s')
    else round (xorb s s') (num m e * den e') (den e * num m' e')
  | FInf s, FFin s' _ _ => FInf (xorb s s')
  | FFin s _ _, FInf s' => FFin (xorb s s') 0 0
  | FInf _, FInf _ => FNaN
  | FNaN, _ | _, FNaN => FNaN
  end.

(** The integer part; [None] for NaN and infinities. *)
Definition trunc (f : float) : option Z :=
  match f with
  | FFin neg m e => let z := num m e / den e in Some (if neg : bool then - z else z)
  | _ => None
  end.

(** What Go leaves to the machine: the conversion to an integer of a float that is
    out of range. *)
Class Machine := {
  out_of_range : float → Z;
  out_of_range_int64 f : - 2 ^ 63 ≤ out_of_range f < 2 ^ 63;
}.

(** int64(f) *)
Definition to_int64 `{Machine} (f : float) : Z :=
  match trunc f with
  | Some z => if (- 2 ^ 63 <=? z) && (z <? 2 ^ 63) then z else out_of_range f
  | None => out_of_range f
  end.

(** uint64(f) *)
Definition to_uint64 `{Machine} (f : float) : Z :=
  match trunc f with
  | Some z => if (0 <=? z) && (z <? 2 ^ 64) then z else u64 (out_of_range f)
  | None => u64 (out_of_range f)
  end.

(** ** strconv.ParseFloat *)

Definition lower (c : ascii) : ascii := char (Z.lor (code c) 32).

(** A syntactically correct number: sign, hexadecimal, its digits, how many of them
    are behind the point, exponent. *)
Record literal := mkLiteral {
  lit_neg : bool; lit_hex : bool; lit_mantissa : Z; lit_frac : Z; lit_exp : Z;
}.

(** The digits of a number: the mantissa, the digits behind the point, and whether
    there are a point, a digit and an underscore. *)
Record scan := mkScan {
  sc_mantissa : Z; sc_frac : Z; sc_dot : bool; sc_digits : bool; sc_under : bool;
}.

Definition digit_of (hex : bool) (c : ascii) : option Z :=
  if is_digit c then Some (code c - 48)
  else if hex && (97 <=? code (lower c)) && (code (lower c) <=? 102) then Some (code (lower c) - 87)
  else None.

Fixpoint scan_digits (hex : bool) (p : bytes) (s : scan) : scan * bytes :=
  match p with
  | [] => (s, [])
  | c :: p' =>
    if Ascii.eqb c "_" then
      scan_digits hex p'
        (mkScan (sc_mantissa s) (sc_frac s) (sc_dot s) (sc_digits s) true)
    else if Ascii.eqb c "." then
      if sc_dot s then (s, p)
      else scan_digits hex p' (mkScan (sc_mantissa s) (sc_frac s) true (sc_digits s) (sc_under s))
    else
      match digit_of hex c with
      | Some d =>
        scan_digits hex p'
          (mkScan (sc_mantissa s * (if hex then 16 else 10) + d)
             (if sc_dot s then sc_frac s + 1 else sc_frac s) (sc_dot s) true (sc_under s))
      | None => (s, p)
      end
  end.

(** The digits of an exponent, which stops growing from 10000 on; and whether there
    is an underscore. *)
Fixpoint scan_exp (p : bytes) (e : Z) (under : bool) : Z * bool * bytes :=
  match p with
  | [] => (e, under, [])
  | c :: p' =>
    if Ascii.eqb c "_" then scan_exp p' e true
    else if is_digit c then scan_exp p' (if e <? 10000 then e * 10 + (code c - 48) else e) under
    else (e, under, p)
  end.

(** underscoreOK: an underscore follows a digit, or a base prefix, and a digit follows
    it.  [last] is the class of the character in front: a digit (or the prefix), an
    underscore, or something else. *)
Inductive char_class := CDigit | CUnder | COther.

Fixpoint underscores_ok (hex : bool) (p : bytes) (last : char_class) : bool :=
  match p with
  | [] => if last is CUnder then false else true
  | c :: p =>
    if is_digit c || (hex && (97 <=? code (lower c)) && (code (lower c) <=? 102)) then
      underscores_ok hex p CDigit
    else if Ascii.eqb c "_" then
      if last is CDigit then underscores_ok hex p CUnder else false
    else if last is CUnder then false else underscores_ok hex p COther
  end.

Definition sign_of (p : bytes) : bool * bytes :=
  match p with
  | c :: p' => if Ascii.eqb c "+" then (false, p') else if Ascii.eqb c "-" then (true, p')
               else (false, p)
  | [] => (false, [])
  end.

(** Without the sign: a base prefix 0b, 0o or 0x, and what follows it. *)
Definition base_prefix (p : bytes) : option (bool * bytes) :=
  match p with
  | c0 :: c1 :: p =>
    if Ascii.eqb c0 "0" then
      if Ascii.eqb (lower c1) "x" then Some (true, p)
      else if Ascii.eqb (lower c1) "b" || Ascii.eqb (lower c1) "o" then Some (false, p)
      else None
    else None
  | _ => None
  end.

Definition underscoreOK (p : bytes) : bool :=
  match base_prefix (sign_of p).2 with
  | Some (hex, p) => underscores_ok hex p CDigit
  | None => underscores_ok false (sign_of p).2 COther
  end.

(** readFloat: the number at the front of [p] and what follows it. *)
Definition readFloat (p : bytes) : option (literal * bytes) :=
  let '(neg, q) := sign_of p in
  let '(hex, q) :=
    match q with
    | c0 :: c1 :: c2 :: q' =>
      if Ascii.eqb c0 "0" && Ascii.eqb (lower c1) "x" then (true, c2 :: q') else (false, q)
    | _ => (false, q)
    end in
  let '(s, q) := scan_digits hex q (mkScan 0 0 false false false) in
  if negb (sc_digits s) then None else
  e ← match q with
      | c :: q' =>
        if Ascii.eqb (lower c) (if hex : bool then "p" else "e") then
          let '(eneg, q') := sign_of q' in
          match q' with
          | d :: _ =>
            if is_digit d then
              let '(e, under, q') := scan_exp q' 0 (sc_under s) in
              Some (if eneg : bool then - e else e, under, q')
            else None
          | [] => None
          end
        else if hex : bool then None else Some (0, sc_under s, q)
      | [] => if hex : bool then None else Some (0, sc_under s, q)
      end;
  let '(e, under, rest) := e in
  if (under : bool) && negb (underscoreOK (before p rest)) then None
  else Some (mkLiteral neg hex (sc_mantissa s) (sc_frac s) e, rest).

(** The value of a number, rounded. *)
Definition value_of (l : literal) : float :=
  let m := lit_mantissa l in
  let '(base, e) := if lit_hex l then (2, lit_exp l - 4 * lit_frac l)
                    else (10, lit_exp l - lit_frac l) in
  if 0 <=? e then round (lit_neg l) (m * base ^ e) 1 else round (lit_neg l) m (base ^ (- e)).

(** Infinities and NaN, in letters of either case. *)
Definition special (p : bytes) : option float :=
  let same q w := bool_decide (lower <$> q = bytes_of w) in
  if same p "nan"%string then Some FNaN
  else if same (sign_of p).2 "inf"%string || same (sign_of p).2 "infinity"%string
  then Some (FInf (sign_of p).1)
  else None.

(** ParseFloat(s, 64): [None] for an error of syntax or range. *)
Definition ParseFloat (p : bytes) : option float :=
  match special p with
  | Some f => Some f
  | None =>
    match readFloat p with
    | Some (l, []) =>
      match value_of l with FInf _ => None | f => Some f end
    | _ => None
    end
  end.

(** ** fmt's %v of a float64 *)

(** 10^k <= n/d *)
Definition pow10_le (k n d : Z) : bool :=
  if 0 <=? k then d * 10 ^ k <=? n else d <=? n * 10 ^ (- k).

(** The [dp] with 10^(dp-1) <= n/d < 10^dp, near the estimate by the logarithm. *)
Definition decimal_point (n d : Z) : Z :=
  let k := log2_ratio n d * 30103 / 100000 in
  if pow10_le (k + 1) n d then k + 2 else if pow10_le k n d then k + 1 else k.

(** c * 10^k as a double, and the comparison with a given one. *)
Definition scaled (c k : Z) : float :=
  if 0 <=? k then round false (c * 10 ^ k) 1 else round false c (10 ^ (- k)).

Definition same_value (m e : Z) (f : float) : bool :=
  match f with FFin _ m' e' => num m e * den e' =? num m' e' * den e | _ => false end.

(** The decimal of at most [nd] digits that is nearest among those that are read back
    as m * 2^e: its digits as an integer; [None] if there is none. *)
Definition candidate (m e dp nd : Z) : option Z :=
  let k := dp - nd in
  let '(n, d) := if 0 <=? k then (num m e, den e * 10 ^ k) else (num m e * 10 ^ (- k), den e) in
  let c := n / d in
  let down := same_value m e (scaled c k) in
  let up := same_value m e (scaled (c + 1) k) in
  if down && up then
    Some (if (2 * (n - c * d) <? d) || ((2 * (n - c * d) =? d) && Z.even c) then c else c + 1)
  else if down then Some c
  else if up then Some (c + 1)
  else None.

Fixpoint shortest (fuel : nat) (m e dp nd : Z) : Z * Z :=
  match fuel with
  | O => (0, nd)
  | S fuel =>
    match candidate m e dp nd with
    | Some c => (c, nd)
    | None => shortest fuel m e dp (nd + 1)
    end
  end.

(** The digits of the shortest decimal, without zeros at the end. *)
Fixpoint strip_zeros (p : bytes) : bytes :=
  match p with
  | [] => []
  | c :: p =>
    match strip_zeros p with
    | [] => if Ascii.eqb c "0" then [] else [c]
    | q => c :: q
    end
  end.

(** Seventeen digits are always enough.  The result is 0.digits * 10^dp; rounding up
    may have given one more digit. *)
Definition shortest_digits (m e : Z) : bytes * Z :=
  if m =? 0 then ([], 0) else
  let dp := decimal_point (num m e) (den e) in
  let '(c, nd) := shortest 17 m e dp 1 in
  let ds := decimals 20 c [] in
  (strip_zeros ds, dp + (Z.of_nat (length ds) - nd)).

Definition zeros (n : Z) : bytes := replicate (Z.to_nat n) "0"%char.

(** fmtF with all digits *)
Definition fmtF (ds : bytes) (dp : Z) : bytes :=
  let whole := if 0 <? dp then take (Z.to_nat dp) ds ++ zeros (dp - Z.of_nat (length ds))
               else ["0"%char] in
  let frac := zeros (- dp) ++ drop (Z.to_nat dp) ds in
  if Z.of_nat (length ds) <=? dp then whole else whole ++ "."%char :: frac.

(** fmtE with all digits *)
Definition fmtE (ds : bytes) (dp : Z) : bytes :=
  let exp := dp - 1 in
  let mant := match ds with
              | [] => ["0"%char]
              | [d] => [d]
              | d :: ds => d :: "."%char :: ds
              end in
  let e := decimals 20 (Z.abs exp) [] in
  mant ++ "e"%char :: (if exp <? 0 then "-"%char else "+"%char)
    :: (if Z.abs exp <? 10 then "0"%char :: e else e).

(** FormatFloat(f, 'g', -1, 64) *)
Definition FormatFloat (f : float) : bytes :=
  match f with
  | FNaN => bytes_of "NaN"
  | FInf neg => if neg then bytes_of "-Inf" else bytes_of "+Inf"
  | FFin neg m e =>
    let '(ds, dp) := shortest_digits m e in
    (if neg : bool then ["-"%char] else []) ++
    if (dp - 1 <? -4) || (6 <=? dp - 1) then fmtE ds dp else fmtF ds dp
  end.

(** ** Exact operations *)

(** [f] is the integer [k], which is not negative. *)
Definition exactly (f : float) (k : Z) : Prop :=
  ∃ m e, f = FFin false m e ∧ num m e = k * den e.

Lemma den_pos e : 0 < den e.
Proof. unfold den. destruct (Z.leb_spec 0 e); lia. Qed.

Lemma half_even_exact k d : 0 < d → half_even (k * d) d = k.
Proof.
  intros Hd. unfold half_even. rewrite Z.mod_mul, Z.div_mul by lia.
  destruct (Z.ltb_spec d (2 * 0)); [lia|]. destruct (Z.eqb_spec (2 * 0) d); [lia|done].
Qed.

Lemma log2_ratio_bound k d : 0 < k < 2 ^ 53 → 0 < d → log2_ratio (k * d) d ≤ 52.
Proof.
  intros Hk Hd. unfold log2_ratio.
  assert (Z.log2 (k * d) ≤ Z.log2 k + Z.log2 d + 1) by (apply Z.log2_mul_above; lia).
  assert (Z.log2 k < 53) by (apply Z.log2_lt_pow2; lia).
  set (l := Z.log2 (k * d) - Z.log2 d) in *. destruct (Z.leb_spec 0 l); [|case_match; lia].
  destruct (Z.leb_spec (d * 2 ^ l) (k * d)) as [Hle|]; [|lia].
  destruct (Z.lt_ge_cases 52 l) as [Hl|]; [|lia]. exfalso.
  assert (2 ^ 53 ≤ 2 ^ l) by (apply Z.pow_le_mono_r; lia). nia.
Qed.

Lemma round_exact k d : 0 ≤ k < 2 ^ 53 → 0 < d → exactly (round false (k * d) d) k.
Proof.
  intros Hk Hd. unfold round.
  destruct (Z.eqb_spec (k * d) 0) as [H0|H0].
  { exists 0, 0. split; [done|]. assert (k = 0) as -> by nia. done. }
  assert (k ≠ 0) by (intros ->; lia).
  pose proof (log2_ratio_bound k d ltac:(lia) Hd) as Hl.
  set (e := Z.max (log2_ratio (k * d) d - 52) (-1074)). assert (e ≤ 0) as He by lia. cbv zeta.
  assert ((if 0 <=? e then half_even (k * d) (d * 2 ^ e) else half_even (k * d * 2 ^ (- e)) d) =
          k * 2 ^ (- e)) as ->.
  { destruct (Z.leb_spec 0 e).
    - replace e with 0 by lia. cbn [Z.opp Z.pow]. rewrite !Z.mul_1_r. by apply half_even_exact.
    - replace (k * d * 2 ^ (- e)) with (k * 2 ^ (- e) * d) by ring. by apply half_even_exact. }
  assert (num (k * 2 ^ (- e)) e = k * den e) as Hn.
  { unfold num, den. destruct (Z.leb_spec 0 e); [|done]. replace e with 0 by lia.
    cbn [Z.opp Z.pow]. lia. }
  destruct (Z.leb_spec (den e * 2 ^ 1024) (num (k * 2 ^ (- e)) e)) as [Hbig|].
  { rewrite Hn in Hbig. pose proof (den_pos e).
    assert (2 ^ 53 < 2 ^ 1024) by (apply Z.pow_lt_mono_r; lia). nia. }
  by exists (k * 2 ^ (- e)), e.
Qed.

Lemma of_Z_exact k : 0 ≤ k < 2 ^ 53 → exactly (of_Z k) k.
Proof.
  intros Hk. unfold of_Z. destruct (Z.ltb_spec k 0); [lia|]. rewrite Z.abs_eq by lia.
  rewrite <-(Z.mul_1_r k) at 1. apply round_exact; lia.
Qed.

Lemma fmul_exact a b x y :
  exactly a x → exactly b y → 0 ≤ x * y < 2 ^ 53 → exactly (fmul a b) (x * y).
Proof.
  intros (m & e & -> & Hx) (m' & e' & -> & Hy) Hk. cbn [fmul xorb]. rewrite Hx, Hy.
  replace (x * den e * (y * den e')) with (x * y * (den e * den e')) by ring.
  pose proof (den_pos e). pose proof (den_pos e'). apply round_exact; [done|lia].
Qed.

Lemma fdiv_exact a b q y :
  exactly a (q * y) → exactly b y → 0 < y → 0 ≤ q < 2 ^ 53 → exactly (fdiv a b) q.
Proof.
  intros (m & e & -> & Hx) (m' & e' & -> & Hy) Hpos Hq. cbn [fdiv xorb].
  pose proof (den_pos e). pose proof (den_pos e').
  destruct (Z.eqb_spec m' 0) as [->|_]; [unfold num in Hy; case_match; nia|].
  rewrite Hx, Hy. replace (q * y * den e * den e') with (q * (den e * (y * den e'))) by ring.
  apply round_exact; [done|nia].
Qed.

Lemma trunc_exact f k : exactly f k → trunc f = Some k.
Proof.
  intros (m & e & -> & Hk). cbn. pose proof (den_pos e). by rewrite Hk, Z.div_mul by lia.
Qed.

(** ** A text that ends with the letter s is not a number *)

Definition letter_s : ascii := "s"%char.

Lemma last_tail (c c' : ascii) p : last (c :: c' :: p) = last (c' :: p).
Proof. done. Qed.

Lemma last_lower p : last p = Some letter_s → last (lower <$> p) = Some letter_s.
Proof. intros Hp. by rewrite fmap_last, Hp. Qed.

Lemma not_same p w :
  last p = Some letter_s → last (bytes_of w) ≠ Some letter_s →
  bool_decide (lower <$> p = bytes_of w) = false.
Proof. intros Hp Hw. apply bool_decide_eq_false_2. intros He. by rewrite <-He, last_lower in Hw. Qed.

Lemma last_sign p : last p = Some letter_s → last (sign_of p).2 = Some letter_s.
Proof.
  intros Hp. destruct p as [|c p]; [done|]. cbn. destruct (Ascii.eqb c "+") eqn:Hc.
  { apply Ascii.eqb_eq in Hc as ->. by destruct p. }
  destruct (Ascii.eqb c "-") eqn:Hc'; [|done]. apply Ascii.eqb_eq in Hc' as ->. by destruct p.
Qed.

Lemma last_cons_s c p : last (c :: p) = Some letter_s → c ≠ letter_s → last p = Some letter_s.
Proof. destruct p as [|c' p]; [by intros [= ->]|done]. Qed.

Lemma last_scan hex p : ∀ s, last p = Some letter_s → last (scan_digits hex p s).2 = Some letter_s.
Proof.
  induction p as [|c p IH]; intros s Hp; [done|]. cbn [scan_digits].
  destruct (Ascii.eqb c "_") eqn:H1.
  { apply IH. apply last_cons_s in Hp; [done|]. by apply Ascii.eqb_eq in H1 as ->. }
  destruct (Ascii.eqb c ".") eqn:H2.
  { destruct (sc_dot s); [done|]. apply IH. apply last_cons_s in Hp; [done|].
    by apply Ascii.eqb_eq in H2 as ->. }
  destruct (digit_of hex c) eqn:Hd; [|done]. apply IH. apply last_cons_s in Hp; [done|].
  intros ->. by destruct hex.
Qed.

Lemma last_exp p : ∀ e u, last p = Some letter_s → last (scan_exp p e u).2 = Some letter_s.
Proof.
  induction p as [|c p IH]; intros e u Hp; [done|]. cbn [scan_exp].
  destruct (Ascii.eqb c "_") eqn:H1.
  { apply IH. apply last_cons_s in Hp; [done|]. by apply Ascii.eqb_eq in H1 as ->. }
  destruct (is_digit c) eqn:Hd; [|done]. apply IH. apply last_cons_s in Hp; [done|]. by intros ->.
Qed.

Lemma readFloat_s p l rest : last p = Some letter_s → readFloat p = Some (l, rest) → rest ≠ [].
Proof.
  intros Hp%last_sign. unfold readFloat. destruct (sign_of p) as [neg q]. cbn [snd] in Hp.
  set (hq := match q with _ :: _ => _ | _ => _ end).
  assert (last hq.2 = Some letter_s) as Hq.
  { subst hq. destruct q as [|c0 [|c1 [|c2 q]]]; try done. by destruct (_ && _). }
  clearbody hq. destruct hq as [hex q1]. cbn [snd] in Hq.
  pose proof (last_scan hex q1 (mkScan 0 0 false false false) Hq) as Hs.
  destruct (scan_digits hex q1 _) as [s q2]. cbn [snd] in Hs.
  destruct (negb (sc_digits s)); [done|].
  destruct q2 as [|c q2]; [done|].
  destruct (Ascii.eqb (lower c) (if hex then "p" else "e")) eqn:Hc.
  2: { destruct hex; [done|]. cbn. destruct (sc_under s && _); [done|]. by intros [= <- <-]. }
  apply last_cons_s in Hs; [|intros ->; by destruct hex]. apply last_sign in Hs.
  destruct (sign_of q2) as [eneg q3]. cbn [snd] in Hs. destruct q3 as [|d q3]; [done|].
  destruct (is_digit d); [|done].
  pose proof (last_exp (d :: q3) 0 (sc_under s) Hs) as Hx.
  destruct (scan_exp (d :: q3) 0 (sc_under s)) as [[e u] q4]. cbn [snd] in Hx. cbn.
  destruct (u && _); [done|]. intros [= <- <-]. by intros ->.
Qed.

Lemma ParseFloat_s p : last p = Some letter_s → ParseFloat p = None.
Proof.
  intros Hp. unfold ParseFloat, special. pose proof (last_sign p Hp) as Hs.
  rewrite !not_same by done. cbn [orb].
  destruct (readFloat p) as [[l [|c rest]]|] eqn:Hr; [|done..].
  by destruct (readFloat_s p l [] Hp Hr).
Qed.
