(* ===== verification/DurationFacts.v ===== *)
(** Duration.String is undone by ParseDuration and by Parse; and what Parse returns. *)

From S2P Require Import Prelude Json JsonValue Float64 Duration.
From Stdlib Require String.

Local Open Scope Z_scope.

(** ** Digits *)

Definition no_digit (t : bytes) : Prop := match t with [] => True | c :: _ => is_digit c = false end.

Lemma digit_range c : is_digit c → 0 ≤ code c - 48 < 10.
Proof. intros H%Is_true_true. unfold is_digit in H. lia. Qed.

Lemma read_digits_mono ds : ∀ x v, 0 ≤ x → read_digits ds x = Some v → x ≤ v.
Proof.
  induction ds as [|c ds IH]; intros x v Hx; cbn; [intros [= ->]; lia|].
  destruct (is_digit c) eqn:Hc; [|done]. pose proof (digit_range c ltac:(by rewrite Hc)).
  intros Hr. apply IH in Hr; lia.
Qed.

Lemma read_digits_bound ds : ∀ x v,
  0 ≤ x → read_digits ds x = Some v → v < (x + 1) * 10 ^ Z.of_nat (length ds).
Proof.
  induction ds as [|c ds IH]; intros x v Hx; cbn [read_digits length]; [intros [= ->]; lia|].
  destruct (is_digit c) eqn:Hc; [|done]. pose proof (digit_range c ltac:(by rewrite Hc)) as Hr.
  intros Hv%IH; [|lia]. rewrite Nat2Z.inj_succ, Z.pow_succ_r by lia.
  assert (0 < 10 ^ Z.of_nat (length ds)) by lia. nia.
Qed.

Lemma leadingInt_digits ds t : ∀ x v,
  Forall is_digit ds → read_digits ds x = Some v → 0 ≤ x → v ≤ 2 ^ 63 → no_digit t →
  leadingInt (ds ++ t) x = Some (v, t).
Proof.
  induction ds as [|c ds IH]; intros x v Hd Hr Hx Hv Ht.
  - cbn in Hr |- *. simplify_eq. destruct t as [|c t]; [done|]. cbn in Ht |- *. by rewrite Ht.
  - apply Forall_cons in Hd as [Hc Hd]. pose proof (digit_range c Hc).
    cbn [app leadingInt read_digits] in *. rewrite (Is_true_true_1 _ Hc) in *. cbv zeta.
    assert (x * 10 + (code c - 48) ≤ v) by (eapply read_digits_mono; [|exact Hr]; lia).
    destruct (Z.ltb_spec (2 ^ 63 / 10) x).
    { pose proof (Z.div_le_lower_bound (2 ^ 63) 10 x ltac:(lia) ltac:(lia)). lia. }
    destruct (Z.ltb_spec (2 ^ 63) (x * 10 + (code c - 48))); [lia|]. apply IH; try done; lia.
Qed.

Lemma leadingFraction_digits ds t : ∀ x f scale k,
  Forall is_digit ds → read_digits ds x = Some f → 0 ≤ x → f < 2 ^ 63 → no_digit t →
  exactly scale k → 0 < k → k * 10 ^ Z.of_nat (length ds) < 2 ^ 53 →
  ∃ scale', leadingFraction (ds ++ t) x scale false = (f, scale', t) ∧
            exactly scale' (k * 10 ^ Z.of_nat (length ds)).
Proof.
  induction ds as [|c ds IH]; intros x f scale k Hd Hr Hx Hv Ht Hs Hk Hl.
  - cbn in Hr |- *. simplify_eq. exists scale. rewrite Z.mul_1_r. split; [|done].
    destruct t as [|c t]; [done|]. cbn in Ht |- *. by rewrite Ht.
  - apply Forall_cons in Hd as [Hc Hd]. pose proof (digit_range c Hc).
    cbn [app leadingFraction read_digits length] in *. rewrite (Is_true_true_1 _ Hc) in *. cbv zeta.
    assert (x * 10 + (code c - 48) ≤ f) by (eapply read_digits_mono; [|exact Hr]; lia).
    destruct (Z.ltb_spec ((2 ^ 63 - 1) / 10) x).
    { pose proof (Z.div_le_lower_bound (2 ^ 63 - 1) 10 x ltac:(lia) ltac:(lia)). lia. }
    destruct (Z.ltb_spec (2 ^ 63) (x * 10 + (code c - 48))); [lia|].
    rewrite Nat2Z.inj_succ, Z.pow_succ_r, Z.mul_assoc in * by lia.
    assert (0 < 10 ^ Z.of_nat (length ds)) by lia.
    apply IH; try done; [lia| |lia].
    apply fmul_exact; [done|by apply of_Z_exact|]. nia.
Qed.

(** ** The digits behind the point *)

Lemma fmtFrac_print prec : ∀ v buf,
  0 ≤ v →
  ∃ ds, fmtFrac prec v true buf = (point :: ds ++ buf, v / 10 ^ Z.of_nat prec) ∧
        Forall is_digit ds ∧ length ds = prec ∧
        read_digits ds 0 = Some (v mod 10 ^ Z.of_nat prec).
Proof.
  induction prec as [|prec IH]; intros v buf Hv.
  - exists []. cbn. rewrite Z.div_1_r, Z.mod_1_r. done.
  - pose proof (Z.mod_pos_bound v 10 ltac:(lia)) as Hm.
    destruct (IH (v / 10) (char (48 + v mod 10) :: buf)) as (ds & He & Hd & Hl & Hr);
      [apply Z.div_pos; lia|].
    exists (ds ++ [char (48 + v mod 10)]). cbn [fmtFrac orb]. cbv zeta. rewrite He.
    assert (0 < 10 ^ Z.of_nat prec) by lia.
    rewrite Nat2Z.inj_succ, Z.pow_succ_r by lia. split_and!.
    + rewrite <-app_assoc, Z.div_div by lia. done.
    + apply Forall_app. split; [done|]. constructor; [|done].
      rewrite is_digit_char by lia. done.
    + rewrite length_app, Hl. cbn. lia.
    + erewrite read_digits_app; [|exact Hr]. cbn [read_digits].
      rewrite is_digit_char, digit_code by lia. f_equal.
      rewrite (Z.rem_mul_r v 10) by lia. lia.
Qed.

(** The text of a fraction. *)
Definition fraction (fs : bytes) : bytes := match fs with [] => [] | _ => point :: fs end.

Lemma fmtFrac_spec prec : ∀ v buf,
  0 ≤ v →
  ∃ fs f, fmtFrac prec v false buf = (fraction fs ++ buf, v / 10 ^ Z.of_nat prec) ∧
    Forall is_digit fs ∧ (length fs ≤ prec)%nat ∧ read_digits fs 0 = Some f ∧
    f * 10 ^ Z.of_nat (prec - length fs) = v mod 10 ^ Z.of_nat prec ∧ (fs ≠ [] → 0 < f).
Proof.
  induction prec as [|prec IH]; intros v buf Hv.
  - exists [], 0. cbn. rewrite Z.div_1_r, Z.mod_1_r. done.
  - cbn [fmtFrac orb]. cbv zeta. pose proof (Z.mod_pos_bound v 10 ltac:(lia)) as Hm.
    assert (0 < 10 ^ Z.of_nat prec) by lia.
    assert (v mod (10 ^ Z.of_nat (S prec)) = v mod 10 + 10 * ((v / 10) mod 10 ^ Z.of_nat prec)) as Hmod.
    { rewrite Nat2Z.inj_succ, Z.pow_succ_r by lia. apply Z.rem_mul_r; lia. }
    assert (v / 10 ^ Z.of_nat (S prec) = v / 10 / 10 ^ Z.of_nat prec) as Hdiv.
    { rewrite Nat2Z.inj_succ, Z.pow_succ_r, Z.div_div by lia. done. }
    destruct (Z.eqb_spec (v mod 10) 0) as [H0|H0]; cbn [negb].
    + destruct (IH (v / 10) buf) as (fs & f & He & Hd & Hl & Hr & Hf & Hne); [apply Z.div_pos; lia|].
      exists fs, f. rewrite He, Hdiv. split_and!; try done; [lia|].
      rewrite Nat.sub_succ_l, Nat2Z.inj_succ, Z.pow_succ_r, Hmod, <-Hf by lia. lia.
    + destruct (fmtFrac_print prec (v / 10) (char (48 + v mod 10) :: buf)) as (ds & He & Hd & Hl & Hr);
        [apply Z.div_pos; lia|].
      exists (ds ++ [char (48 + v mod 10)]), (v mod 10 ^ Z.of_nat (S prec)). rewrite He, Hdiv.
      assert (length (ds ++ [char (48 + v mod 10)]) = S prec) as Hlen
        by (rewrite length_app, Hl; cbn; lia).
      split_and!.
      * f_equal. unfold fraction. destruct (ds ++ [_]) as [|c ds'] eqn:E; [done|].
        rewrite <-E. cbn [app]. by rewrite <-app_assoc.
      * apply Forall_app. split; [done|]. constructor; [|done]. by rewrite is_digit_char by lia.
      * lia.
      * erewrite read_digits_app; [|exact Hr]. cbn [read_digits].
        rewrite is_digit_char, digit_code by lia. f_equal. lia.
      * rewrite Hlen, Nat.sub_diag. cbn. lia.
      * intros _. pose proof (Z.mod_pos_bound (v / 10) (10 ^ Z.of_nat prec)). lia.
Qed.

(** ** One number and its unit *)

(** The name of a unit in front of the next number. *)
Record unit_text (name : bytes) (unit : Z) (t : bytes) : Prop := {
  ut_name : unit_name (name ++ t) = (name, t);
  ut_unit : unit_of name = Some unit;
  ut_pos : 0 < unit < 2 ^ 53;
  ut_starts : ∃ c u, name = c :: u ∧ is_digit c = false ∧ Ascii.eqb c point = false;
}.

Section term.
Context `{Machine}.

Lemma fraction_value f k unit q scale :
  exactly scale k → 0 < k → unit = q * k → 0 < q → 0 ≤ f → f * q < 2 ^ 53 → unit < 2 ^ 53 →
  to_uint64 (fmul (of_Z f) (fdiv (of_Z unit) scale)) = f * q.
Proof.
  intros Hs Hk Hu Hq Hf Hb Hub. unfold to_uint64.
  rewrite (trunc_exact _ (f * q)).
  - destruct (Z.leb_spec 0 (f * q)); [|nia]. destruct (Z.ltb_spec (f * q) (2 ^ 64)); [done|lia].
  - apply fmul_exact; [apply of_Z_exact; nia| |nia].
    apply fdiv_exact with (y := k); [|done|done|nia]. rewrite <-Hu. apply of_Z_exact. nia.
Qed.

Lemma duration_term_spec c ds fs f name unit q t v :
  Forall is_digit (c :: ds) → read_digits (c :: ds) 0 = Some v →
  Forall is_digit fs → read_digits fs 0 = Some f → (fs ≠ [] → 0 < f) →
  unit_text name unit t → unit = q * 10 ^ Z.of_nat (length fs) → 0 < q → f * q < 2 ^ 53 →
  v * unit + f * q ≤ 2 ^ 63 →
  duration_term (c :: ds ++ fraction fs ++ name ++ t) = Some (v * unit + f * q, t).
Proof.
  intros Hd Hr Hfd Hfr Hf0 [Hn Hu Hup (c' & u & -> & Hc'd & Hc'p)] Hq Hq0 Hfq Hb.
  pose proof (read_digits_mono _ 0 _ ltac:(lia) Hr) as Hv0.
  pose proof (read_digits_mono _ 0 _ ltac:(lia) Hfr) as Hf0'.
  assert (is_digit c) as Hc by by apply Forall_cons in Hd as [? _].
  unfold duration_term. rewrite (Is_true_true_1 _ Hc), orb_true_r.
  assert (no_digit (fraction fs ++ (c' :: u) ++ t)) as Hnd by by destruct fs.
  change (c :: ds ++ ?x) with ((c :: ds) ++ x).
  rewrite (leadingInt_digits _ _ 0 v) by (try done; nia). cbn [mbind option_bind].
  rewrite bool_decide_eq_true_2 by (rewrite !length_app; cbn; lia). cbn [negb andb].
  assert (v ≤ 2 ^ 63 / unit) as Hvu by (apply Z.div_le_lower_bound; nia).
  assert (u64 (v * unit) = v * unit) as Hu64 by (apply u64_id; nia).
  destruct fs as [|c0 fs].
  - injection Hfr as <-. cbn [fraction app]. cbn [app] in Hn. rewrite Hc'p, Hn.
    rewrite bool_decide_eq_false_2 by done. rewrite Hu. cbn [mbind option_bind].
    destruct (Z.ltb_spec (2 ^ 63 / unit) v); [lia|]. cbv zeta.
    change (0 <? 0) with false. cbv iota. rewrite Hu64. by rewrite Z.mul_0_l, Z.add_0_r.
  - specialize (Hf0 ltac:(done)). assert (0 < 10 ^ Z.of_nat (length (c0 :: fs))) by lia.
    unfold fraction. cbn [app]. rewrite Ascii.eqb_refl.
    destruct (leadingFraction_digits (c0 :: fs) ((c' :: u) ++ t) 0 f (of_Z 1) 1)
      as (scale & Hl & Hs); try done; [nia|by apply of_Z_exact|nia|].
    rewrite Z.mul_1_l in Hs. cbn [app] in Hl, Hn. rewrite Hl. cbv zeta. rewrite Hn.
    rewrite bool_decide_eq_false_2 by done. rewrite Hu. cbn [mbind option_bind].
    destruct (Z.ltb_spec (2 ^ 63 / unit) v); [lia|]. destruct (Z.ltb_spec 0 f); [|lia].
    rewrite (fraction_value f (10 ^ Z.of_nat (length (c0 :: fs))) unit q) by (try done; lia).
    rewrite Hu64, u64_id by nia.
    destruct (Z.ltb_spec (2 ^ 63) (v * unit + f * q)); [lia|done].
Qed.

Lemma duration_loop_term fuel p t d x :
  duration_term p = Some (x, t) → 0 ≤ d → 0 ≤ x → d + x ≤ 2 ^ 63 →
  duration_loop (S fuel) p d = duration_loop fuel t (d + x).
Proof.
  intros Ht Hd Hx Hs. destruct p as [|c p]; [done|]. cbn [duration_loop]. rewrite Ht.
  cbn [mbind option_bind]. cbv zeta. rewrite u64_id by lia.
  by destruct (Z.ltb_spec (2 ^ 63) (d + x)); [lia|].
Qed.

Lemma duration_loop_mono fuel : ∀ p d r,
  duration_loop fuel p d = Some r → ∀ fuel', (fuel ≤ fuel')%nat → duration_loop fuel' p d = Some r.
Proof.
  induction fuel as [|fuel IH]; intros p d r Hr fuel' Hle; destruct p as [|c p];
    destruct fuel' as [|fuel']; try done; [lia|].
  cbn [duration_loop] in *. destruct (duration_term (c :: p)) as [[v rest]|]; [|done].
  cbn [mbind option_bind] in *. cbv zeta in *. destruct (2 ^ 63 <? u64 (d + v)); [done|].
  apply IH; [done|lia].
Qed.

(** A text in front of [t]: [n] terms that are worth [x] nanoseconds. *)
Definition worth (n : nat) (p t : bytes) (x : Z) : Prop :=
  0 ≤ x ∧ (∃ c q, p = c :: q ∧ is_digit c) ∧ (n + length t < length p)%nat ∧
  ∀ fuel d, 0 ≤ d → d + x ≤ 2 ^ 63 → duration_loop (n + fuel) p d = duration_loop fuel t (d + x).

Lemma worth_term v fs f name unit q t :
  0 ≤ v < 10 ^ 20 → Forall is_digit fs → read_digits fs 0 = Some f → (fs ≠ [] → 0 < f) →
  unit_text name unit t → unit = q * 10 ^ Z.of_nat (length fs) → 0 < q → f * q < 2 ^ 53 →
  worth 1 (fmtInt (fraction fs ++ name ++ t) v) t (v * unit + f * q).
Proof.
  intros Hv Hfd Hfr Hf0 Hu Hq Hq0 Hfq.
  destruct (decimals_spec 20 v (fraction fs ++ name ++ t)) as (c & ds & He & Hr & Hd & _); [done|lia|].
  unfold fmtInt. rewrite He. pose proof (read_digits_mono _ 0 _ ltac:(lia) Hfr).
  pose proof Hu as [_ _ Hup (c' & u & -> & _)].
  split; [nia|]. split; [exists c, (ds ++ fraction fs ++ (c' :: u) ++ t)|].
  { split; [done|]. by apply Forall_cons in Hd as [? _]. }
  split; [cbn; rewrite !length_app; cbn; rewrite length_app; lia|].
  intros fuel d Hd0 Hs. apply duration_loop_term; [|done|nia|done].
  eapply duration_term_spec; try done. lia.
Qed.

Lemma worth_app n p n' p' t x x' :
  worth n p p' x → worth n' p' t x' → worth (n + n') p t (x + x').
Proof.
  intros (Hx & Hp & Hl & Hrun) (Hx' & _ & Hl' & Hrun'). split; [lia|]. split; [done|].
  split; [lia|]. intros fuel d Hd Hs.
  rewrite <-Nat.add_assoc, Hrun, Hrun' by lia. by rewrite Z.add_assoc.
Qed.

(** A whole number of a unit in front of another number. *)
Lemma worth_whole v name unit t :
  0 ≤ v < 10 ^ 20 → unit_text name unit t → worth 1 (fmtInt (name ++ t) v) t (v * unit).
Proof.
  intros Hv Hu. pose proof (worth_term v [] 0 name unit unit t) as Hw.
  cbn [fraction app length] in Hw. rewrite Z.mul_0_l, Z.add_0_r in Hw.
  apply Hw; try done; [cbn; lia|apply Hu].
Qed.

(** A number with a fraction. *)
Lemma worth_frac prec w v name t :
  0 ≤ w < 10 ^ 20 → 0 ≤ v → (prec ≤ 9)%nat → unit_text name (10 ^ Z.of_nat prec) t →
  ∃ buf, fmtFrac prec v false (name ++ t) = (buf, v / 10 ^ Z.of_nat prec) ∧
    worth 1 (fmtInt buf w) t (w * 10 ^ Z.of_nat prec + v mod 10 ^ Z.of_nat prec).
Proof.
  intros Hw Hv Hp Hu.
  destruct (fmtFrac_spec prec v (name ++ t) Hv) as (fs & f & He & Hd & Hl & Hr & Hf & Hne).
  eexists. split; [exact He|]. rewrite <-Hf.
  pose proof (Z.mod_pos_bound v (10 ^ Z.of_nat prec) ltac:(lia)) as Hm.
  assert (10 ^ Z.of_nat prec ≤ 10 ^ 9) by (apply Z.pow_le_mono_r; lia).
  apply worth_term; try done; [|lia..].
  rewrite <-Z.pow_add_r by lia. f_equal. lia.
Qed.

Lemma unit_text_end name unit :
  unit_name name = (name, []) → unit_of name = Some unit → 0 < unit < 2 ^ 53 →
  (∃ c u, name = c :: u ∧ is_digit c = false ∧ Ascii.eqb c point = false) →
  unit_text name unit [].
Proof. intros. split; try done. by rewrite app_nil_r. Qed.

Lemma unit_text_letter c unit p :
  is_digit c = false → Ascii.eqb c point = false → unit_of [c] = Some unit → 0 < unit < 2 ^ 53 →
  (∃ c' q, p = c' :: q ∧ is_digit c') → unit_text [c] unit p.
Proof.
  intros Hc Hp Hu Hpos (c' & q & -> & Hd). split; [|done|done|by exists c, []].
  cbn. rewrite Hc, Hp. cbn. rewrite (Is_true_true_1 _ Hd), orb_true_r. done.
Qed.

Ltac unit_end := apply unit_text_end; [done|done|done|by do 2 eexists].

(** From a second on: hours and minutes are left out if there are none. *)
Lemma long_worth d :
  Second ≤ d < 2 ^ 63 → ∃ n, worth n (Duration_String d) [] d.
Proof.
  intros Hd. pose proof (eq_refl : Second = 10 ^ 9) as HS. unfold Duration_String.
  destruct (Z.ltb_spec d 0); [lia|]. rewrite u64_id by lia.
  destruct (Z.ltb_spec d Second); [lia|].
  assert (0 ≤ d / 10 ^ 9 < 10 ^ 20) as Hs by zdiv.
  assert (unit_text (bytes_of "s") (10 ^ Z.of_nat 9) []) as Hu by unit_end.
  destruct (worth_frac 9 (d / 10 ^ 9 mod 60) d (bytes_of "s") [] ltac:(zdiv) ltac:(lia) ltac:(lia) Hu)
    as (buf & He & Hw).
  rewrite app_nil_r in He. rewrite He. cbv zeta. change (Z.of_nat 9) with 9 in *.
  set (s := d / 10 ^ 9) in *. set (secs := fmtInt buf (s mod 60)) in *.
  assert (d = s * 10 ^ 9 + d mod 10 ^ 9) as Hds by (subst s; zdiv).
  destruct (Z.ltb_spec 0 (s / 60)) as [Hm|Hm].
  2: { exists 1%nat. assert (s mod 60 = s) as Hs60 by (clearbody s; zdiv). rewrite Hs60 in Hw.
       by rewrite <-Hds in Hw. }
  assert (unit_text ["m"%char] Minute secs) as Hum by by apply unit_text_letter, Hw.
  pose proof (worth_whole (s / 60 mod 60) _ _ _ ltac:(clearbody s; zdiv) Hum) as Hwm.
  cbn [app] in Hwm. set (mins := fmtInt ("m"%char :: secs) (s / 60 mod 60)) in *.
  destruct (Z.ltb_spec 0 (s / 60 / 60)) as [Hh|Hh].
  - assert (unit_text ["h"%char] Hour mins) as Huh by by apply unit_text_letter, Hwm.
    pose proof (worth_whole (s / 60 / 60) _ _ _ ltac:(clearbody s; zdiv) Huh) as Hwh.
    exists (1 + (1 + 1))%nat.
    replace d with (s / 60 / 60 * Hour + (s / 60 mod 60 * Minute + (s mod 60 * 10 ^ 9 + d mod 10 ^ 9))).
    + eapply worth_app; [exact Hwh|]. eapply worth_app; [exact Hwm|exact Hw].
    + unfold Hour, Minute. rewrite HS. clearbody s. rewrite Hds at 2. zdiv.
  - exists (1 + 1)%nat.
    replace d with (s / 60 mod 60 * Minute + (s mod 60 * 10 ^ 9 + d mod 10 ^ 9)).
    + eapply worth_app; [exact Hwm|exact Hw].
    + unfold Minute. rewrite HS. clearbody s. rewrite Hds at 2. zdiv.
Qed.

(** Below a second: one number, in the largest unit that is not larger. *)
Lemma short_worth d : 0 ≤ d < Second → ∃ n, worth n (Duration_String d) [] d.
Proof.
  intros Hd. pose proof (eq_refl : Second = 10 ^ 9) as HS. exists 1%nat. unfold Duration_String.
  destruct (Z.ltb_spec d 0); [lia|]. rewrite u64_id by lia.
  destruct (Z.ltb_spec d Second); [|lia]. destruct (Z.eqb_spec d 0) as [->|Hd0].
  { change (bytes_of "0s") with (fmtInt (bytes_of "s" ++ []) 0).
    change 0 with (0 * Second) at 2. apply worth_whole; [lia|unit_end]. }
  assert (∀ prec name, (prec ≤ 9)%nat → unit_text name (10 ^ Z.of_nat prec) [] →
            worth 1 (let '(buf, u) := fmtFrac prec d false name in fmtInt buf u) [] d) as Hf.
  { intros prec name Hp Hu.
    assert (0 < 10 ^ Z.of_nat prec) by lia.
    assert (0 ≤ d / 10 ^ Z.of_nat prec < 10 ^ 20).
    { split; [apply Z.div_pos; lia|]. apply Z.div_lt_upper_bound; nia. }
    destruct (worth_frac prec (d / 10 ^ Z.of_nat prec) d name []) as (buf & He & Hw); try done.
    rewrite app_nil_r in He. rewrite He.
    replace d with (d / 10 ^ Z.of_nat prec * 10 ^ Z.of_nat prec + d mod 10 ^ Z.of_nat prec) at 2
      by (rewrite Z.mul_comm; symmetry; apply Z.div_mod; lia). done. }
  destruct (d <? Microsecond); [|destruct (d <? Millisecond)]; apply Hf; try lia; unit_end.
Qed.

(** The text of a duration ends with the letter s. *)
Lemma last_decimals fuel : ∀ n acc, acc ≠ [] → last (decimals fuel n acc) = last acc.
Proof.
  induction fuel as [|fuel IH]; intros n acc Ha; [done|]. cbn [decimals]. cbv zeta.
  destruct acc as [|c acc]; [done|]. destruct (n <? 10); [done|]. by rewrite IH.
Qed.

Lemma last_fmtFrac prec : ∀ v b buf, buf ≠ [] → last (fmtFrac prec v b buf).1 = last buf ∧
  (fmtFrac prec v b buf).1 ≠ [].
Proof.
  induction prec as [|prec IH]; intros v b buf Hb; cbn [fmtFrac]; cbv zeta.
  - destruct b; [|done]. by destruct buf.
  - set (b' := b || _). destruct (IH (v / 10) b' (if b' then char (48 + v mod 10) :: buf else buf))
      as [-> Hne]; [by destruct b'|]. split; [|done]. destruct b'; [by destruct buf|done].
Qed.

Lemma last_frac_int prec v name w :
  last name = Some letter_s →
  last (fmtInt (fmtFrac prec v false name).1 w) = Some letter_s.
Proof.
  intros Hn. destruct (last_fmtFrac prec v false name) as [Hl Hne]; [by intros ->|].
  unfold fmtInt. rewrite last_decimals by done. by rewrite Hl.
Qed.

Lemma last_unit c buf w :
  last buf = Some letter_s → last (fmtInt (c :: buf) w) = Some letter_s.
Proof. intros Hb. unfold fmtInt. rewrite last_decimals by done. by destruct buf. Qed.

Lemma Duration_String_s d : last (Duration_String d) = Some letter_s.
Proof.
  assert (∀ p, last p = Some letter_s → last ("-"%char :: p) = Some letter_s) as Hneg.
  { intros p Hp. by destruct p. }
  assert (∀ (b : bool) p, last p = Some letter_s →
            last (if b then "-"%char :: p else p) = Some letter_s) as Hif.
  { intros [] p Hp; [by apply Hneg|done]. }
  unfold Duration_String. cbv zeta. apply Hif.
  set (u := if d <? 0 then _ else _). clearbody u.
  assert (∀ prec name w, last name = Some letter_s →
            last (fmtInt (fmtFrac prec u false name).1 w) = Some letter_s) as Hfrac
    by (intros; by apply last_frac_int).
  destruct (u <? Second).
  - destruct (u =? 0); [done|].
    set (pu := if u <? Microsecond then _ else _).
    assert (last pu.2 = Some letter_s) as Hp.
    { subst pu. destruct (u <? Microsecond); [done|]. by destruct (u <? Millisecond). }
    destruct pu as [prec name]. specialize (Hfrac prec name).
    destruct (fmtFrac prec u false name) as [buf w]. by apply Hfrac.
  - specialize (Hfrac 9%nat (bytes_of "s")). destruct (fmtFrac 9 u false (bytes_of "s")) as [buf w].
    cbn [fst] in Hfrac. specialize (Hfrac (w mod 60) eq_refl).
    destruct (0 <? w / 60); [|done]. destruct (0 <? w / 60 / 60); repeat apply last_unit; done.
Qed.

Lemma ParseDuration_String d :
  0 ≤ d < 2 ^ 63 → ParseDuration (Duration_String d) = Some d.
Proof.
  intros Hd. assert (∃ n, worth n (Duration_String d) [] d) as (n & _ & (c & q & Hc & Hcd) & Hl & Hw).
  { destruct (Z.lt_ge_cases d Second); [apply short_worth|apply long_worth]; lia. }
  pose proof (Duration_String_s d) as Hs. rewrite Hc in *. unfold ParseDuration.
  assert (sign_of (c :: q) = (false, c :: q)) as ->.
  { cbn. destruct (not_digit_minus c Hcd) as [-> ->]. done. }
  rewrite bool_decide_eq_false_2 by (intros [= -> ->]; done).
  rewrite bool_decide_eq_false_2 by done.
  assert (duration_loop (n + 0) (c :: q) 0 = Some d) as Hrun.
  { rewrite Hw by lia. by rewrite Z.add_0_l. }
  rewrite (duration_loop_mono _ _ _ _ Hrun) by (cbn [length] in *; lia).
  cbn [mbind option_bind]. by destruct (Z.ltb_spec (2 ^ 63 - 1) d); [lia|].
Qed.

Lemma Parse_text p d :
  last p = Some letter_s → ParseDuration p = Some d → 0 ≤ d →
  Parse (String.string_of_list_ascii p) = Ok d.
Proof.
  intros Hs Hp Hd. unfold Parse.
  rewrite bool_decide_eq_false_2; [|by destruct p].
  assert (bytes_of (String.string_of_list_ascii p) = p) as ->
    by apply String.list_ascii_of_string_of_list_ascii.
  rewrite ParseFloat_s by done. rewrite Hp. by destruct (Z.ltb_spec d 0); [lia|].
Qed.

(** Parse undoes String. *)
Lemma Parse_String d :
  0 ≤ d < 2 ^ 63 → Parse (String.string_of_list_ascii (Duration_String d)) = Ok d.
Proof.
  intros Hd. apply Parse_text; [apply Duration_String_s|by apply ParseDuration_String|lia].
Qed.

(** ** Bare numbers *)

Lemma scan_digits_all ds : ∀ s n,
  Forall is_digit ds → read_digits ds (sc_mantissa s) = Some n → ds ≠ [] → sc_dot s = false →
  scan_digits false ds s = (mkScan n (sc_frac s) false true (sc_under s), []).
Proof.
  induction ds as [|c ds IH]; intros s n Hd Hr Hne Hdot; [done|].
  apply Forall_cons in Hd as [Hc Hd]. cbn [scan_digits read_digits] in *.
  rewrite (Is_true_true_1 _ Hc) in Hr. unfold digit_of. rewrite (Is_true_true_1 _ Hc).
  assert (Ascii.eqb c "_" = false ∧ Ascii.eqb c "." = false) as [-> ->]
    by (by destruct c as [[] [] [] [] [] [] [] []]).
  rewrite Hdot. destruct ds as [|c' ds].
  - cbn in Hr |- *. simplify_eq. done.
  - rewrite (IH _ n) by done. done.
Qed.

Lemma digits_special ds : Forall is_digit ds → ds ≠ [] → special ds = None.
Proof.
  intros Hd Hne. destruct ds as [|c ds]; [done|]. apply Forall_cons in Hd as [Hc _].
  unfold special. assert (sign_of (c :: ds) = (false, c :: ds)) as ->.
  { cbn. by destruct (not_digit_minus c Hc) as [-> ->]. }
  cbn [snd fst]. assert (∀ w a v, bytes_of w = a :: v → lower c ≠ a →
    bool_decide (lower <$> c :: ds = bytes_of w) = false) as Hno.
  { intros w a v Hw Ha. apply bool_decide_eq_false_2. rewrite Hw. intros [= ? ?]. done. }
  assert (lower c ≠ "n"%char ∧ lower c ≠ "i"%char) as [Hn Hi]
    by (by destruct c as [[] [] [] [] [] [] [] []]).
  by rewrite (Hno "nan"%string _ _ eq_refl Hn), (Hno "inf"%string _ _ eq_refl Hi),
    (Hno "infinity"%string _ _ eq_refl Hi).
Qed.

Lemma readFloat_digits ds n :
  Forall is_digit ds → read_digits ds 0 = Some n → ds ≠ [] →
  readFloat ds = Some (mkLiteral false false n 0 0, []).
Proof.
  intros Hd Hr Hne. unfold readFloat.
  assert (sign_of ds = (false, ds)) as ->.
  { destruct ds as [|c ds]; [done|]. apply Forall_cons in Hd as [Hc _]. cbn.
    by destruct (not_digit_minus c Hc) as [-> ->]. }
  set (hq := match ds with _ :: _ => _ | _ => _ end).
  assert (hq = (false, ds)) as ->.
  { subst hq. destruct ds as [|c0 [|c1 [|c2 ds]]]; [done..|].
    assert (Ascii.eqb (lower c1) "x" = false) as ->; [|by rewrite andb_false_r].
    do 2 apply Forall_cons in Hd as [? Hd]. by destruct c1 as [[] [] [] [] [] [] [] []]. }
  by rewrite (scan_digits_all _ (mkScan 0 0 false false false) n).
Qed.

Lemma ParseFloat_digits ds n :
  Forall is_digit ds → read_digits ds 0 = Some n → ds ≠ [] → n < 2 ^ 53 →
  ∃ f, ParseFloat ds = Some f ∧ exactly f n.
Proof.
  intros Hd Hr Hne Hn. pose proof (read_digits_mono _ 0 _ ltac:(lia) Hr).
  unfold ParseFloat. rewrite digits_special, (readFloat_digits _ n) by done.
  unfold value_of. cbn. rewrite Z.mul_1_r.
  pose proof (round_exact n 1 ltac:(lia) ltac:(lia)) as Hx. rewrite Z.mul_1_r in Hx.
  exists (round false n 1). split; [|done]. by destruct Hx as (m & e & -> & _).
Qed.

(** A bare number of seconds means the same as with its unit. *)
Lemma Parse_bare ds n :
  Forall is_digit ds → read_digits ds 0 = Some n → ds ≠ [] → n * Second < 2 ^ 53 →
  Parse (String.string_of_list_ascii ds) = Ok (n * Second) ∧
  Parse (String.string_of_list_ascii (ds ++ bytes_of "s")) = Ok (n * Second).
Proof.
  intros Hd Hr Hne Hn. pose proof (read_digits_mono _ 0 _ ltac:(lia) Hr) as H0.
  pose proof (eq_refl : Second = 10 ^ 9) as HS. split.
  - destruct (ParseFloat_digits ds n) as (f & Hf & Hx); try done; [lia|].
    unfold Parse. rewrite bool_decide_eq_false_2; [|by destruct ds].
    assert (bytes_of (String.string_of_list_ascii ds) = ds) as ->
      by apply String.list_ascii_of_string_of_list_ascii.
    rewrite Hf. assert (to_int64 (fmul f (of_Z Second)) = n * Second) as ->.
    { unfold to_int64. rewrite (trunc_exact _ (n * Second)).
      - destruct (Z.leb_spec (- 2 ^ 63) (n * Second)); [|lia].
        by destruct (Z.ltb_spec (n * Second) (2 ^ 63)); [|lia].
      - apply fmul_exact; [done|by apply of_Z_exact|lia]. }
    by destruct (Z.ltb_spec (n * Second) 0); [lia|].
  - destruct ds as [|c ds]; [done|]. pose proof Hd as [Hc _]%Forall_cons.
    apply Parse_text; [by rewrite last_app|..|lia].
    assert (unit_text (bytes_of "s") Second []) as Hu by unit_end.
    assert (duration_term (c :: ds ++ fraction [] ++ bytes_of "s" ++ []) =
              Some (n * Second + 0 * Second, [])) as Ht.
    { eapply duration_term_spec; try done. lia. }
    cbn [fraction app] in Ht. rewrite app_nil_r, Z.mul_0_l, Z.add_0_r in Ht.
    unfold ParseDuration. cbn [app].
    assert (sign_of (c :: ds ++ bytes_of "s") = (false, c :: ds ++ bytes_of "s")) as ->.
    { cbn. by destruct (not_digit_minus c Hc) as [-> ->]. }
    rewrite bool_decide_eq_false_2 by (intros [= -> He]; by destruct ds).
    rewrite bool_decide_eq_false_2 by done. cbn [length].
    rewrite (duration_loop_term _ _ [] 0 (n * Second)) by (done || lia).
    destruct (length (ds ++ bytes_of "s")); cbn [duration_loop mbind option_bind];
      rewrite Z.add_0_l; by destruct (Z.ltb_spec (2 ^ 63 - 1) (n * Second)); [lia|].
Qed.

(** ** The range *)

Lemma duration_loop_range fuel : ∀ p d r,
  0 ≤ d → duration_loop fuel p d = Some r → 0 ≤ r.
Proof.
  induction fuel as [|fuel IH]; intros p d r Hd Hr; destruct p as [|c p];
    cbn [duration_loop] in Hr; simplify_eq; try done.
  destruct (duration_term (c :: p)) as [[v rest]|]; [|done].
  cbn [mbind option_bind] in Hr. cbv zeta in Hr. destruct (2 ^ 63 <? u64 (d + v)); [done|].
  eapply IH; [|exact Hr]. apply u64_range.
Qed.

Lemma ParseDuration_range p d : ParseDuration p = Some d → - 2 ^ 63 ≤ d < 2 ^ 63.
Proof.
  unfold ParseDuration. destruct (sign_of p) as [neg q]. case_bool_decide; [intros [= <-]; lia|].
  case_bool_decide; [done|]. destruct (duration_loop (length q) q 0) as [r|] eqn:Hr; [|done].
  apply duration_loop_range in Hr; [|done]. cbn [mbind option_bind]. destruct neg.
  - intros [= <-]. apply i64_range.
  - destruct (Z.ltb_spec (2 ^ 63 - 1) r); [done|]. intros [= <-]. lia.
Qed.

Lemma to_int64_range f : - 2 ^ 63 ≤ to_int64 f < 2 ^ 63.
Proof.
  unfold to_int64. pose proof (out_of_range_int64 f). destruct (trunc f) as [z|]; [|done].
  destruct (Z.leb_spec (- 2 ^ 63) z); [|done]. by destruct (Z.ltb_spec z (2 ^ 63)).
Qed.

(** Parse returns durations that are not negative. *)
Lemma Parse_range s d : Parse s = Ok d → 0 ≤ d < 2 ^ 63.
Proof.
  unfold Parse. case_bool_decide; [done|]. destruct (ParseFloat (bytes_of s)) as [f|].
  - pose proof (to_int64_range (fmul f (of_Z Second))).
    destruct (Z.ltb_spec (to_int64 (fmul f (of_Z Second))) 0); [done|]. intros [= <-]. lia.
  - destruct (ParseDuration (bytes_of s)) as [r|] eqn:Hr; [|done].
    apply ParseDuration_range in Hr. destruct (Z.ltb_spec r 0); [done|]. intros [= <-]. lia.
Qed.
End term.
