(* ===== verification/ConfigWire.v ===== *)
(** The JSON text of a configuration (MarshalJSON and UnmarshalJSON of
    internal/queue/config.go), and that it meets the contract [ConfigJSONLaws], on
    which the theorems about the engine rely. *)

From S2P Require Import Prelude WalRecord Json JsonValue JsonLine JsonStruct.
From S2P Require Import Float64 Duration DurationFacts Config.
From Stdlib Require String.

Local Open Scope Z_scope.

(** ** MarshalJSON *)

(** type configWire, as json.Marshal writes it. *)
Definition wire_members (c : Config) : list (bytes * bytes) :=
  [(bytes_of "visibility_timeout", quote (Duration_String (c_Visibility c)));
   (bytes_of "max_receives", FormatInt (c_MaxReceives c))] ++
  if decide (c_DeadLetter c = "")%string then []
  else [(bytes_of "dead_letter", quote (bytes_of (c_DeadLetter c)))].

Definition MarshalJSON (c : Config) : bytes := written_object (wire_members c).

(** ** UnmarshalJSON *)

(** The struct of UnmarshalJSON. *)
Record wire := mkWire { w_Visibility : bytes; w_MaxReceives : Z; w_DeadLetter : string }.

Inductive wire_field := WVisibility | WMaxReceives | WDeadLetter.

Definition wire_names : list (string * wire_field) :=
  [("visibility_timeout", WVisibility); ("max_receives", WMaxReceives);
   ("dead_letter", WDeadLetter)]%string.

Definition store_wire (f : wire_field) (v : bytes) (w : wire) : option wire :=
  match f with
  | WVisibility => Some (mkWire v (w_MaxReceives w) (w_DeadLetter w))
  | WMaxReceives =>
    if decide (v = null_text) then Some w
    else n ← ParseInt v; Some (mkWire (w_Visibility w) n (w_DeadLetter w))
  | WDeadLetter =>
    if decide (v = null_text) then Some w
    else s ← unquote_text v;
         Some (mkWire (w_Visibility w) (w_MaxReceives w) (String.string_of_list_ascii s))
  end.

(** json.Unmarshal(w.Visibility, &s) and json.Unmarshal(w.Visibility, &n) *)
Definition decode_string (v : bytes) : option bytes :=
  if decide (v = null_text) then Some [] else unquote_text v.

Definition decode_number (v : bytes) : option float :=
  match v with
  | c :: _ => if Ascii.eqb c "-" || is_digit c then ParseFloat v else None
  | [] => None
  end.

Definition json_error : error := Errorf "json: cannot unmarshal" [].

Section unmarshal.
Context `{Machine}.

(** UnmarshalJSON: a number of seconds is printed, with the unit behind it. *)
Definition UnmarshalJSON (b : bytes) : result Config :=
  match decode_struct wire_names store_wire b (mkWire [] 0 "") with
  | None => Err json_error
  | Some w =>
    if decide (w_Visibility w = []) then Ok (mkConfig 0 (w_MaxReceives w) (w_DeadLetter w)) else
    let s :=
      match decode_string (w_Visibility w) with
      | Some s => Some s
      | None =>
        match decode_number (w_Visibility w) with
        | Some n => Some (FormatFloat n ++ bytes_of "s")
        | None => None
        end
      end in
    match s with
    | None => Err (Errorf "visibility_timeout must be a duration string or seconds" [])
    | Some s =>
      match Parse (String.string_of_list_ascii s) with
      | Err e => Err e
      | Ok d => Ok (mkConfig d (w_MaxReceives w) (w_DeadLetter w))
      end
    end
  end.

(** json.Unmarshal(b, &c): the text is checked, and its value given to UnmarshalJSON. *)
Definition Unmarshal_value (b : bytes) : result Config :=
  if Valid b then
    let v := skip_ws b in
    UnmarshalJSON (before v (from_option id [] (value_end maxNestingDepth v)))
  else Err json_error.

(** json.Marshal compacts what MarshalJSON returns. *)
#[export] Instance WireConfig : ConfigJSON := {
  Marshal_config c := compact (MarshalJSON c);
  Unmarshal_config := Unmarshal_value;
}.

(** ** The text of a configuration *)

Lemma digit_plain c : is_digit c → plain_char c = true.
Proof. destruct c as [[] [] [] [] [] [] [] []]; done. Qed.

Lemma decimals_plain fuel : ∀ n p, 0 ≤ n → plain_text p → plain_text (decimals fuel n p).
Proof.
  induction fuel as [|fuel IH]; intros n p Hn Hp; [done|]. cbn [decimals]. cbv zeta.
  pose proof (Z.mod_pos_bound n 10 ltac:(lia)).
  assert (plain_text (char (48 + n mod 10) :: p)).
  { constructor; [|done]. apply digit_plain. by rewrite is_digit_char. }
  destruct (n <? 10); [done|]. apply IH; [|done]. apply Z.div_pos; lia.
Qed.

Lemma fmtFrac_plain prec : ∀ v b buf, 0 ≤ v → plain_text buf →
  plain_text (fmtFrac prec v b buf).1 ∧ 0 ≤ (fmtFrac prec v b buf).2.
Proof.
  induction prec as [|prec IH]; intros v b buf Hv Hb; cbn [fmtFrac]; cbv zeta.
  - split; [|done]. destruct b; [by constructor|done].
  - apply IH; [apply Z.div_pos; lia|]. pose proof (Z.mod_pos_bound v 10 ltac:(lia)).
    destruct (b || _); [|done]. constructor; [|done]. apply digit_plain. by rewrite is_digit_char.
Qed.

Lemma Duration_plain d : plain_text (Duration_String d).
Proof.
  unfold Duration_String. cbv zeta.
  assert (∀ (b : bool) p, plain_text p → plain_text (if b then "-"%char :: p else p)) as Hif.
  { intros [] p Hp; [by constructor|done]. }
  apply Hif. set (u := if d <? 0 then _ else _).
  assert (0 ≤ u) as Hu by (subst u; destruct (d <? 0); apply u64_range). clearbody u.
  assert (∀ prec name, plain_text name →
            plain_text (fmtFrac prec u false name).1 ∧ 0 ≤ (fmtFrac prec u false name).2) as Hf
    by (intros; by apply fmtFrac_plain).
  assert (∀ w buf, 0 ≤ w → plain_text buf → plain_text (fmtInt buf w)) as Hi
    by (intros; by apply decimals_plain).
  destruct (u <? Second).
  - destruct (u =? 0); [by repeat constructor|].
    set (pu := if u <? Microsecond then _ else _).
    assert (plain_text pu.2) as Hp.
    { subst pu. destruct (u <? Microsecond); [by repeat constructor|].
      destruct (u <? Millisecond); [|by repeat constructor].
      cbn [snd]. change (micro_sign ++ bytes_of "s") with (char 194 :: char 181 :: ["s"%char]).
      by do 3 constructor. }
    destruct pu as [prec name]. specialize (Hf prec name Hp).
    destruct (fmtFrac prec u false name) as [buf w]. destruct Hf as [Hb Hw]. by apply Hi.
  - specialize (Hf 9%nat (bytes_of "s") ltac:(by repeat constructor)).
    destruct (fmtFrac 9 u false (bytes_of "s")) as [buf w]. destruct Hf as [Hb Hw]. cbn [fst snd] in *.
    assert (plain_text (fmtInt buf (w mod 60))) as H1 by (apply Hi; [zdiv|done]).
    destruct (0 <? w / 60); [|done].
    assert (plain_text (fmtInt ("m"%char :: fmtInt buf (w mod 60)) (w / 60 mod 60))) as H2
      by (apply Hi; [zdiv|by constructor]).
    destruct (0 <? w / 60 / 60); [|done]. apply Hi; [zdiv|by constructor].
Qed.

Lemma name_plain c : name_rest c = true → plain_char c.
Proof. intros Hc. by destruct c as [[] [] [] [] [] [] [] []]. Qed.

Lemma ValidName_plain s : ValidName s = true → Forall plain_char (bytes_of s).
Proof.
  intros (c & s' & -> & Hc & Hs & _)%ValidName_spec. cbn. constructor.
  - apply name_plain. unfold name_rest. by rewrite Hc.
  - eapply Forall_impl; [exact Hs|]. apply name_plain.
Qed.

Lemma dead_letter_plain c : valid_config c → plain_text (bytes_of (c_DeadLetter c)).
Proof.
  intros [_ _ [->|Hd]]; [constructor|]. by apply Forall_plain, ValidName_plain.
Qed.

Lemma wire_plain_names : Forall (λ nf, plain_name wire_names nf.1 nf.2) wire_names.
Proof. by repeat constructor. Qed.

Lemma wire_name name f : (name, f) ∈ wire_names → plain_name wire_names name f.
Proof. intros Hin. exact (proj1 (Forall_forall _ _) wire_plain_names _ Hin). Qed.

Section valid.
Context (c : Config) (Hc : valid_config c) (Hm : c_MaxReceives c < 2 ^ 63).

Lemma wire_good depth : Forall (good_member depth) (wire_members c).
Proof.
  pose proof Hc as [_ Hm0 _].
  assert (∀ name f v, (name, f) ∈ wire_names → bare depth v → good_member depth (bytes_of name, v)) as Hg.
  { intros name f v Hn Hv. split; [apply (wire_name _ _ Hn)|done]. }
  unfold wire_members. apply Forall_app. split.
  - constructor; [eapply Hg; [field_in|apply quote_bare, plain_text_quote, Duration_plain]|].
    constructor; [|done]. eapply Hg; [field_in|apply FormatInt_bare; lia].
  - case_decide; [done|]. constructor; [|done].
    eapply Hg; [field_in|apply quote_bare, plain_text_quote, dead_letter_plain, Hc].
Qed.

Lemma MarshalJSON_compact : compact (MarshalJSON c) = MarshalJSON c.
Proof.
  pose proof Hc as [_ Hm0 _]. apply compact_ok_compact, compact_ok_written.
  assert (∀ name, plain_text (bytes_of name) → ∀ v, compact_ok v →
    plain_text (bytes_of name, v).1 ∧ compact_ok (bytes_of name, v).2) as Hk by done.
  unfold wire_members. apply Forall_app. split.
  - constructor; [apply Hk; [by repeat constructor|apply compact_ok_quote, Duration_plain]|].
    constructor; [|done]. apply Hk; [by repeat constructor|apply compact_ok_FormatInt; lia].
  - case_decide; [done|]. constructor; [|done].
    apply Hk; [by repeat constructor|apply compact_ok_quote, dead_letter_plain, Hc].
Qed.

Lemma wire_decoded :
  decode_members wire_names store_wire (wire_members c) (mkWire [] 0 "") =
    Some (mkWire (quote (Duration_String (c_Visibility c))) (c_MaxReceives c) (c_DeadLetter c)).
Proof.
  pose proof Hc as [_ Hm0 _]. unfold wire_members.
  cbn [app]. erewrite decode_member; [|apply wire_name; field_in|reflexivity].
  erewrite decode_member; [|apply wire_name; field_in|].
  2: { cbn [store_wire]. assert (FormatInt (c_MaxReceives c) ≠ null_text) as Hn.
       { intros He. pose proof (ParseInt_FormatInt (c_MaxReceives c) ltac:(lia)) as Hp.
         by rewrite He in Hp. }
       rewrite decide_False by done. by rewrite ParseInt_FormatInt by lia. }
  case_decide as Hd; [by rewrite Hd|].
  erewrite decode_member; [|apply wire_name; field_in|].
  2: { cbn [store_wire]. rewrite decide_False by done.
       rewrite unquote_text_quote by apply plain_text_quote, dead_letter_plain, Hc.
       cbn [mbind option_bind]. by rewrite bytes_of_inv. }
  done.
Qed.

(** UnmarshalJSON undoes MarshalJSON. *)
Lemma UnmarshalJSON_MarshalJSON : UnmarshalJSON (MarshalJSON c) = Ok c.
Proof.
  pose proof Hc as [Hv _ _]. unfold UnmarshalJSON, MarshalJSON.
  rewrite decode_written; [|done|apply wire_good]. rewrite wire_decoded.
  cbn [w_Visibility w_MaxReceives w_DeadLetter]. rewrite decide_False by done.
  unfold decode_string. rewrite decide_False by done.
  rewrite unquote_text_quote by apply plain_text_quote, Duration_plain.
  pose proof (eq_refl : MaxVisibility = 12 * 3600 * 10 ^ 9).
  rewrite Parse_String by lia. by destruct c.
Qed.

Lemma MarshalJSON_bare : bare (maxNestingDepth - 1) (MarshalJSON c).
Proof. apply written_bare; [done|done|apply wire_good]. Qed.

Lemma MarshalJSON_plain : plain_json (MarshalJSON c).
Proof. split; [apply MarshalJSON_bare|apply MarshalJSON_compact]. Qed.

Lemma Unmarshal_MarshalJSON : Unmarshal_value (MarshalJSON c) = Ok c.
Proof.
  unfold Unmarshal_value. rewrite (Valid_plain _ MarshalJSON_plain).
  pose proof MarshalJSON_bare as Hb.
  pose proof (bare_skip_ws _ _ [] Hb) as Hw. rewrite app_nil_r in Hw. rewrite Hw.
  pose proof (bare_value_end _ _ [] Hb ltac:(done) I) as Hv. rewrite app_nil_r in Hv. rewrite Hv.
  cbn [from_option id]. replace (before (MarshalJSON c) []) with (MarshalJSON c).
  - apply UnmarshalJSON_MarshalJSON.
  - pose proof (before_app (MarshalJSON c) []) as Ha. by rewrite app_nil_r in Ha.
Qed.
End valid.

(** The contract of the JSON encoding. *)
#[export] Instance WireConfig_Laws : ConfigJSONLaws.
Proof.
  split.
  - intros c. unfold Marshal_config, WireConfig, MarshalJSON, written_object, compact.
    by rewrite compact_cons.
  - intros c Hc Hm. unfold Unmarshal_config, Marshal_config, WireConfig.
    by rewrite MarshalJSON_compact, Unmarshal_MarshalJSON.
  - intros c Hc Hm. unfold Marshal_config, WireConfig. rewrite MarshalJSON_compact by done.
    by apply MarshalJSON_plain.
Qed.
End unmarshal.
