(* ===== verification/Message.v ===== *)
(** Messages and per-queue state (internal/queue/message.go).

    A message is shared, through a pointer, by the maps [byID] and [pending] and
    by the ready heap of its queue, and mutated through any of them; the model
    keeps the messages in a store indexed by pointers, and the maps and the heap
    hold pointers. *)

From S2P Require Import Prelude GoHeap Ids Config.

Local Open Scope Z_scope.

Abbreviation ptr := positive (only parsing).

Inductive state := stateReady | stateDelayed | stateLeased.

#[export] Instance state_eq_dec : EqDecision state.
Proof. solve_decision. Defined.

Record message := mkMessage {
  m_ID : string;
  m_Seq : Z;
  m_Body : bytes;
  m_SentAt : Z;
  m_NotBefore : Z;
  m_state : state;
  m_Receipt : string;
  m_Deadline : Z;
  m_Receives : Z;
}.

(** The store: every message ever allocated, by pointer. *)
Abbreviation store := (gmap positive message) (only parsing).

(** ** readyHeap: Less compares the sequence numbers of the messages that two
    pointers of the slice lead to. *)

Definition readyLess (st : store) (p1 p2 : ptr) : option bool :=
  m1 ← st !! p1; m2 ← st !! p2; Some (m_Seq m1 <? m_Seq m2).

Definition readyPush (st : store) (h : list ptr) (p : ptr) : option (list ptr) :=
  heap_Push (readyLess st) h p.

Definition readyPop (st : store) (h : list ptr) : option (ptr * list ptr) :=
  heap_Pop (readyLess st) h.

(** The heap key of a pointer. *)
Definition seq_of (st : store) (p : ptr) : Z := from_option m_Seq 0 (st !! p).

(** ** queueState *)

Record queueState := mkQueue {
  q_name : string;
  q_cfg : Config;
  q_byID : gmap string ptr;
  q_ready : list ptr;
  q_pending : gmap string ptr;
  q_wake : positive;
  q_totalSent : Z;
  q_totalAcked : Z;
  q_totalDead : Z;
}.

(** newQueueState, given the channel that [make] returned. *)
Definition newQueueState (name : string) (cfg : Config) (wake : positive) : queueState :=
  mkQueue name cfg ∅ [] ∅ wake 0 0 0.

(** Field updates of a message and of a queue. *)
Definition m_to_ready (m : message) : message :=
  mkMessage (m_ID m) (m_Seq m) (m_Body m) (m_SentAt m) (m_NotBefore m) stateReady
    "" zeroTime (m_Receives m).

Definition m_to_leased (receipt : string) (deadline receives : Z) (m : message) : message :=
  mkMessage (m_ID m) (m_Seq m) (m_Body m) (m_SentAt m) (m_NotBefore m) stateLeased
    receipt deadline receives.

Definition m_set_receives (n : Z) (m : message) : message :=
  mkMessage (m_ID m) (m_Seq m) (m_Body m) (m_SentAt m) (m_NotBefore m) (m_state m)
    (m_Receipt m) (m_Deadline m) n.

Definition m_set_deadline (t : Z) (m : message) : message :=
  mkMessage (m_ID m) (m_Seq m) (m_Body m) (m_SentAt m) (m_NotBefore m) (m_state m)
    (m_Receipt m) t (m_Receives m).

(** A message that arrives in another queue: new position, no delay. *)
Definition m_moved (seq receives : Z) (m : message) : message :=
  mkMessage (m_ID m) seq (m_Body m) (m_SentAt m) zeroTime (m_state m)
    (m_Receipt m) (m_Deadline m) receives.

Definition q_set_cfg (c : Config) (q : queueState) : queueState :=
  mkQueue (q_name q) c (q_byID q) (q_ready q) (q_pending q) (q_wake q)
    (q_totalSent q) (q_totalAcked q) (q_totalDead q).

Definition q_set_byID (m : gmap string ptr) (q : queueState) : queueState :=
  mkQueue (q_name q) (q_cfg q) m (q_ready q) (q_pending q) (q_wake q)
    (q_totalSent q) (q_totalAcked q) (q_totalDead q).

Definition q_set_ready (h : list ptr) (q : queueState) : queueState :=
  mkQueue (q_name q) (q_cfg q) (q_byID q) h (q_pending q) (q_wake q)
    (q_totalSent q) (q_totalAcked q) (q_totalDead q).

Definition q_set_pending (m : gmap string ptr) (q : queueState) : queueState :=
  mkQueue (q_name q) (q_cfg q) (q_byID q) (q_ready q) m (q_wake q)
    (q_totalSent q) (q_totalAcked q) (q_totalDead q).

Definition q_set_wake (c : positive) (q : queueState) : queueState :=
  mkQueue (q_name q) (q_cfg q) (q_byID q) (q_ready q) (q_pending q) c
    (q_totalSent q) (q_totalAcked q) (q_totalDead q).

Definition q_set_totals (sent acked dead : Z) (q : queueState) : queueState :=
  mkQueue (q_name q) (q_cfg q) (q_byID q) (q_ready q) (q_pending q) (q_wake q)
    sent acked dead.

(** counts: ready, delayed and leased messages; a dangling pointer panics. *)
Fixpoint count_pending (st : store) (ps : list ptr) (delayed leased : Z) : option (Z * Z) :=
  match ps with
  | [] => Some (delayed, leased)
  | p :: ps =>
    m ← st !! p;
    if decide (m_state m = stateDelayed)
    then count_pending st ps (delayed + 1) leased
    else count_pending st ps delayed (leased + 1)
  end.

Definition counts (st : store) (q : queueState) : option (Z * Z * Z) :=
  '(delayed, leased) ← count_pending st (map_to_list (q_pending q)).*2 0 0;
  Some (Z.of_nat (length (q_ready q)), delayed, leased).
