(* ===== verification/Engine.v ===== *)
(** The queue engine (internal/queue/engine.go): its state and every operation
    on it, in the monad of the prelude.

    [core] is the mutable state of Engine that operations share: the queues, the
    ID counter, the message store and the channels that [make] returned (with
    whether each is closed).  A [world] adds what surrounds it: the log (nil or
    an appender), the injected clock and the orders in which Go's [range] visits
    maps, which the environment chooses.  A queue pointer is the queue's name in
    [k_queues]; a message pointer is an index of [k_msgs].  Every exported
    operation holds the mutex from start to end (Receive: at every turn of its
    loop), so it is one atomic function on the world. *)

From S2P Require Import Prelude GoHeap Ids WalRecord Config Message.
From stdpp Require Import fin_maps.
From Stdlib Require String.

Local Open Scope Z_scope.

(** The slice of the log that the engine needs: Appender. *)
Class Appender (L : Type) := Append : WRecord → L → option error * L.

Record Env := mkEnv {
  env_now : nat → Z;             (* what the n-th call of [now] returns *)
  env_range : nat → list string; (* the order of the n-th [range] over a map *)
}.

Record core := mkCore {
  k_queues : gmap string queueState;
  k_seq : Z;
  k_msgs : gmap positive message;
  k_chans : gmap positive bool;
}.

Definition k_set_queues (qs : gmap string queueState) (k : core) : core :=
  mkCore qs (k_seq k) (k_msgs k) (k_chans k).
Definition k_set_seq (s : Z) (k : core) : core :=
  mkCore (k_queues k) s (k_msgs k) (k_chans k).
Definition k_set_msgs (st : gmap positive message) (k : core) : core :=
  mkCore (k_queues k) (k_seq k) st (k_chans k).
Definition k_set_chans (cs : gmap positive bool) (k : core) : core :=
  mkCore (k_queues k) (k_seq k) (k_msgs k) cs.

Record world (L : Type) := mkWorld {
  w_env : Env;
  w_tick : nat;
  w_rng : nat;
  w_log : option L;
  w_core : core;
}.
Arguments mkWorld {L}. Arguments w_env {L}. Arguments w_tick {L}.
Arguments w_rng {L}. Arguments w_log {L}. Arguments w_core {L}.

(** type Delivery *)
Record Delivery := mkDelivery {
  d_ID : string; d_Receipt : string; d_Body : bytes; d_Receives : Z; d_SentAt : Z;
}.

(** type Stats *)
Record Stats := mkStats {
  s_Name : string; s_Config : Config;
  s_Ready : Z; s_Delayed : Z; s_InFlight : Z;
  s_TotalSent : Z; s_TotalAcked : Z; s_TotalDead : Z;
}.

(** ms *)
Definition ms (t : Z) : Z := if IsZero t then 0 else t / 10 ^ 6.

(** ** The records the engine writes *)

Definition rec_create (q : string) (cfg : bytes) (ts : Z) : WRecord :=
  mkRecord OpQueueCreate q "" "" "" ts 0 0 "" 0 "" cfg.
Definition rec_delete (q : string) (ts : Z) : WRecord :=
  mkRecord OpQueueDelete q "" "" "" ts 0 0 "" 0 "" [].
Definition rec_send (q id : string) (body : bytes) (ts nbf : Z) : WRecord :=
  SetBody body (mkRecord OpSend q id "" "" ts nbf 0 "" 0 "" []).
Definition rec_recv (q id : string) (ts : Z) (receipt : string) (deadline count : Z)
    : WRecord :=
  mkRecord OpReceive q id "" "" ts 0 deadline receipt count "" [].
Definition rec_ack (q id receipt : string) (ts : Z) : WRecord :=
  mkRecord OpAck q id "" "" ts 0 0 receipt 0 "" [].
Definition rec_nack (q id receipt : string) (ts : Z) : WRecord :=
  mkRecord OpNack q id "" "" ts 0 0 receipt 0 "" [].
Definition rec_extend (q id receipt : string) (deadline ts : Z) : WRecord :=
  mkRecord OpExtend q id "" "" ts 0 deadline receipt 0 "" [].
Definition rec_dead (q id to : string) (ts : Z) : WRecord :=
  mkRecord OpDead q id "" "" ts 0 0 "" 0 to [].
Definition rec_move (q id to : string) (ts : Z) : WRecord :=
  mkRecord OpMove q id "" "" ts 0 0 "" 0 to [].

Section engine.
Context {L : Type} `{!Appender L} `{!ConfigJSON}.

Abbreviation M := (GoM (world L)).

(** New: no queues, the counter at 0. *)
Definition New (log : option L) (env : Env) : world L :=
  mkWorld env 0 0 log (mkCore ∅ 0 ∅ ∅).

(** ** Access to the parts of the world *)

Definition now : M Z := λ w,
  Some (env_now (w_env w) (w_tick w),
        mkWorld (w_env w) (S (w_tick w)) (w_rng w) (w_log w) (w_core w)).

Definition range_order {A} (m : gmap string A) : M (list string) := λ w,
  Some (range_keys (env_range (w_env w) (w_rng w)) m,
        mkWorld (w_env w) (w_tick w) (S (w_rng w)) (w_log w) (w_core w)).

(** append: a no-op without a log. *)
Definition append (r : WRecord) : M (option error) := λ w,
  match w_log w with
  | None => Some (None, w)
  | Some l =>
    let '(err, l') := Append r l in
    Some (err, mkWorld (w_env w) (w_tick w) (w_rng w) (Some l') (w_core w))
  end.

Definition get_core : M core := λ w, Some (w_core w, w).
Definition put_core (k : core) : M () := λ w,
  Some ((), mkWorld (w_env w) (w_tick w) (w_rng w) (w_log w) k).

Definition lookup_queue (name : string) : M (option queueState) :=
  k ← get_core; mret (k_queues k !! name).
Definition deref_queue (name : string) : M queueState :=
  k ← get_core; go_opt (k_queues k !! name).
Definition put_queue (name : string) (q : queueState) : M () :=
  k ← get_core; put_core (k_set_queues (<[name := q]> (k_queues k)) k).

Definition load (p : ptr) : M message :=
  k ← get_core; go_opt (k_msgs k !! p).
Definition save (p : ptr) (m : message) : M () :=
  k ← get_core; put_core (k_set_msgs (<[p := m]> (k_msgs k)) k).
Definition new_message (m : message) : M ptr :=
  k ← get_core;
  let p := fresh (dom (k_msgs k)) in
  _ ← put_core (k_set_msgs (<[p := m]> (k_msgs k)) k); mret p.

Definition make_chan : M positive :=
  k ← get_core;
  let c := fresh (dom (k_chans k)) in
  _ ← put_core (k_set_chans (<[c := false]> (k_chans k)) k); mret c.

(** Closing a closed channel panics. *)
Definition close_chan (c : positive) : M () :=
  k ← get_core;
  match k_chans k !! c with
  | Some false => put_core (k_set_chans (<[c := true]> (k_chans k)) k)
  | _ => go_panic
  end.

Definition get_seq : M Z := k ← get_core; mret (k_seq k).
Definition set_seq (s : Z) : M () := k ← get_core; put_core (k_set_seq s k).

(** e.seq++ *)
Definition incr_seq : M Z :=
  s ← get_seq; _ ← set_seq (u64 (s + 1)); get_seq.

Definition nextID : M string := s ← incr_seq; mret (fmt_hex16 s).
Definition nextReceipt : M string := s ← incr_seq; mret (receipt_of s).
Definition bumpSeq (id : string) : M () := s ← get_seq; set_seq (bumped s id).

(** ** queueState methods *)

(** broadcast, on a queue that is still in the map ... *)
Definition broadcast (name : string) : M () :=
  q ← deref_queue name;
  _ ← close_chan (q_wake q);
  c ← make_chan;
  put_queue name (q_set_wake c q).

(** ... and on one that was just taken out of it (DeleteQueue). *)
Definition broadcast_detached (q : queueState) : M () :=
  _ ← close_chan (q_wake q); _ ← make_chan; mret ().

Definition pushReady (name : string) (p : ptr) : M () :=
  m ← load p;
  _ ← save p (m_to_ready m);
  q ← deref_queue name;
  k ← get_core;
  h ← go_opt (readyPush (k_msgs k) (q_ready q) p);
  put_queue name (q_set_ready h q).

(** [m] arrives in queue [to], ready: the message is saved, indexed by its ID
    and pushed (the end of deadLetter, of the Redrive loop and of a replayed
    dead or move record). *)
Definition arrive (to : string) (p : ptr) (m : message) : M () :=
  _ ← save p m;
  dst ← deref_queue to;
  _ ← put_queue to (q_set_byID (<[m_ID m := p]> (q_byID dst)) dst);
  pushReady to p.

Definition popReady (name : string) : M ptr :=
  q ← deref_queue name;
  k ← get_core;
  '(p, h) ← go_opt (readyPop (k_msgs k) (q_ready q));
  _ ← put_queue name (q_set_ready h q); mret p.

(** removeReady *)
Definition removeReady (name : string) (p : ptr) : M () :=
  q ← deref_queue name;
  match list_find (eq p) (q_ready q) with
  | None => mret ()
  | Some (i, _) =>
    k ← get_core;
    '(_, h) ← go_opt (heap_Remove (readyLess (k_msgs k)) (q_ready q) i);
    put_queue name (q_set_ready h q)
  end.

(** A queue that newQueueState allocates, put in the map. *)
Definition add_queue (name : string) (cfg : Config) : M () :=
  c ← make_chan; put_queue name (newQueueState name cfg c).

(** ** Time-based transitions *)

(** deadLetter *)
Definition deadLetter (qn : string) (p : ptr) : M (option error) :=
  q ← deref_queue qn;
  let target := c_DeadLetter (q_cfg q) in
  created ← (if decide (target = "") then mret None else
             t ← lookup_queue target;
             match t with
             | Some _ => mret None
             | None =>
               ts ← now;
               err ← append (rec_create target (Marshal_config DefaultConfig) (ms ts));
               match err with
               | Some e => mret (Some e)
               | None => _ ← add_queue target DefaultConfig; mret None
               end
             end);
  match created with
  | Some e => mret (Some e)
  | None =>
    m ← load p;
    ts ← now;
    err ← append (rec_dead qn (m_ID m) target (ms ts));
    match err with
    | Some e => mret (Some e)
    | None =>
      q ← deref_queue qn;
      _ ← put_queue qn
            (q_set_totals (q_totalSent q) (q_totalAcked q) (i64 (q_totalDead q + 1))
              (q_set_pending (delete (m_ID m) (q_pending q))
                (q_set_byID (delete (m_ID m) (q_byID q)) q)));
      if decide (target = "") then mret None else
      s ← incr_seq;
      _ ← arrive target p (m_moved s (m_Receives m) m);
      _ ← broadcast target;
      mret None
    end
  end.

(** The moment a pending message becomes due. *)
Definition due_of (m : message) : Z :=
  match m_state m with
  | stateDelayed => m_NotBefore m
  | stateLeased => m_Deadline m
  | stateReady => zeroTime
  end.

(** The dead-letter policy: received as often as the queue allows. *)
Definition exhausted (cfg : Config) (receives : Z) : bool :=
  (0 <? c_MaxReceives cfg) && (c_MaxReceives cfg <=? receives).

(** The loop of sweepQueue over [q.pending], in the order [ids]. *)
Fixpoint sweep_loop (qn : string) (at_ : Z) (ids : list string) (next : Z) (woke : bool)
    : M (Z * bool) :=
  match ids with
  | [] => mret (next, woke)
  | id :: ids =>
    q ← deref_queue qn;
    match q_pending q !! id with
    | None => sweep_loop qn at_ ids next woke
    | Some p =>
      m ← load p;
      if After (due_of m) at_ then
        let next' := if IsZero next || Before (due_of m) next then due_of m else next in
        sweep_loop qn at_ ids next' woke
      else if bool_decide (m_state m = stateLeased) && exhausted (q_cfg q) (m_Receives m) then
        _ ← deadLetter qn p; sweep_loop qn at_ ids next woke
      else
        _ ← put_queue qn (q_set_pending (delete id (q_pending q)) q);
        _ ← pushReady qn p;
        sweep_loop qn at_ ids next true
    end
  end.

(** sweepQueue *)
Definition sweepQueue (qn : string) (at_ : Z) : M Z :=
  q ← deref_queue qn;
  ids ← range_order (q_pending q);
  '(next, woke) ← sweep_loop qn at_ ids zeroTime false;
  _ ← (if woke : bool then broadcast qn else mret ());
  mret next.

Fixpoint sweep_all (at_ : Z) (names : list string) (next : Z) : M Z :=
  match names with
  | [] => mret next
  | n :: names =>
    q ← lookup_queue n;
    match q with
    | None => sweep_all at_ names next
    | Some _ =>
      d ← sweepQueue n at_;
      let next' := if negb (IsZero d) && (IsZero next || Before d next) then d else next in
      sweep_all at_ names next'
    end
  end.

(** Sweep *)
Definition Sweep (at_ : Z) : M Z :=
  k ← get_core;
  names ← range_order (k_queues k);
  sweep_all at_ names zeroTime.

(** ** Queue lifecycle *)

(** CreateQueue *)
Definition CreateQueue (name : string) (cfg : Config) : M (result bool) :=
  if negb (ValidName name) then mret (Err (Wrapf "%w: %q" [AStr name] ErrBadName))
  else if decide (c_DeadLetter cfg = name) then
    mret (Err (Errorf "queue %q cannot be its own dead_letter" [AStr name]))
  else
    ts ← now;
    err ← append (rec_create name (Marshal_config cfg) (ms ts));
    match err with
    | Some e => mret (Err e)
    | None =>
      oq ← lookup_queue name;
      match oq with
      | Some q => _ ← put_queue name (q_set_cfg cfg q); mret (Ok false)
      | None => _ ← add_queue name cfg; mret (Ok true)
      end
    end.

(** DeleteQueue *)
Definition DeleteQueue (name : string) : M (option error) :=
  oq ← lookup_queue name;
  match oq with
  | None => mret (Some ErrQueueNotFound)
  | Some q =>
    ts ← now;
    err ← append (rec_delete name (ms ts));
    match err with
    | Some e => mret (Some e)
    | None =>
      k ← get_core;
      _ ← put_core (k_set_queues (delete name (k_queues k)) k);
      _ ← broadcast_detached q;
      mret None
    end
  end.

(** statsOf *)
Definition statsOf (name : string) : M Stats :=
  q ← deref_queue name;
  k ← get_core;
  '(ready, delayed, leased) ← go_opt (counts (k_msgs k) q);
  mret (mkStats (q_name q) (q_cfg q) ready delayed leased
          (q_totalSent q) (q_totalAcked q) (q_totalDead q)).

(** Stats *)
Definition QueueStats (name : string) : M (result Stats) :=
  oq ← lookup_queue name;
  match oq with
  | None => mret (Err ErrQueueNotFound)
  | Some _ =>
    t ← now; _ ← sweepQueue name t; s ← statsOf name; mret (Ok s)
  end.

Fixpoint list_stats_loop (at_ : Z) (names : list string) (out : list Stats)
    : M (list Stats) :=
  match names with
  | [] => mret out
  | n :: names =>
    q ← lookup_queue n;
    match q with
    | None => list_stats_loop at_ names out
    | Some _ =>
      _ ← sweepQueue n at_; s ← statsOf n; list_stats_loop at_ names (out ++ [s])
    end
  end.

Definition stats_le (s1 s2 : Stats) : Prop := String.leb (s_Name s1) (s_Name s2) = true.

#[export] Instance stats_le_dec : RelDecision stats_le.
Proof. intros ??. unfold stats_le. apply _. Defined.

(** ListStats *)
Definition ListStats : M (list Stats) :=
  t ← now;
  k ← get_core;
  names ← range_order (k_queues k);
  out ← list_stats_loop t names [];
  mret (merge_sort stats_le out).

(** ** Producing *)

(** Send *)
Definition Send (queue : string) (body : bytes) (delay : Z) : M (result string) :=
  if (delay <? 0) || (MaxDelay <? delay) then
    mret (Err (Errorf "delay must be between 0s and %s" [ADur MaxDelay]))
  else
    oq ← lookup_queue queue;
    match oq with
    | None => mret (Err ErrQueueNotFound)
    | Some _ =>
      t ← now;
      id ← nextID;
      s ← get_seq;
      let nbf := if 0 <? delay then t + delay else zeroTime in
      let m := mkMessage id s body t nbf stateReady "" zeroTime 0 in
      err ← append (rec_send queue id body (ms t) (ms nbf));
      match err with
      | Some e => s ← get_seq; _ ← set_seq (u64 (s - 1)); mret (Err e)
      | None =>
        p ← new_message m;
        q ← deref_queue queue;
        _ ← put_queue queue
              (q_set_totals (i64 (q_totalSent q + 1)) (q_totalAcked q) (q_totalDead q)
                (q_set_byID (<[id := p]> (q_byID q)) q));
        if 0 <? delay then
          _ ← save p (mkMessage id s body t nbf stateDelayed "" zeroTime 0);
          q ← deref_queue queue;
          _ ← put_queue queue (q_set_pending (<[id := p]> (q_pending q)) q);
          mret (Ok id)
        else
          _ ← pushReady queue p;
          _ ← broadcast queue;
          mret (Ok id)
      end
    end.

(** ** Consuming *)

(** The loop of lease; at most one turn per ready message. *)
Fixpoint lease_loop (fuel : nat) (qn : string) (max visibility at_ : Z)
    (ds : list Delivery) : M (list Delivery * option error) :=
  match fuel with
  | O => go_panic
  | S fuel =>
    q ← deref_queue qn;
    if (Z.of_nat (length ds) <? max) && (0 <? Z.of_nat (length (q_ready q))) then
      p ← popReady qn;
      m0 ← load p;
      receipt ← nextReceipt;
      let m := m_to_leased receipt (at_ + visibility) (i64 (m_Receives m0 + 1)) m0 in
      _ ← save p m;
      err ← append (rec_recv (q_name q) (m_ID m) (ms at_) (m_Receipt m)
                      (ms (m_Deadline m)) (m_Receives m));
      match err with
      | Some e =>
        _ ← save p (m_set_receives (i64 (m_Receives m - 1)) m);
        _ ← pushReady qn p;
        mret (ds, Some e)
      | None =>
        q ← deref_queue qn;
        _ ← put_queue qn (q_set_pending (<[m_ID m := p]> (q_pending q)) q);
        lease_loop fuel qn max visibility at_
          (ds ++ [mkDelivery (m_ID m) (m_Receipt m) (m_Body m) (m_Receives m) (m_SentAt m)])
      end
    else mret (ds, None)
  end.

(** lease *)
Definition lease (qn : string) (max visibility at_ : Z)
    : M (list Delivery * option error) :=
  q ← deref_queue qn;
  let visibility := if visibility =? 0 then c_Visibility (q_cfg q) else visibility in
  lease_loop (S (length (q_ready q))) qn max visibility at_ [].

(** The argument checks before the loop of Receive: the effective [max]. *)
Definition Receive_args (max visibility : Z) : result Z :=
  let max := if max <? 1 then 1 else max in
  if (visibility <? 0) || (MaxVisibility <? visibility) then
    Err (Errorf "visibility must be between 0s and %s" [ADur MaxVisibility])
  else Ok max.

(** One turn of the loop of Receive under the lock: the deliveries and the
    channel to wait on when there are none. *)
Definition Receive_once (queue : string) (max visibility : Z)
    : M (result (list Delivery * positive)) :=
  oq ← lookup_queue queue;
  match oq with
  | None => mret (Err ErrQueueNotFound)
  | Some _ =>
    t ← now;
    _ ← sweepQueue queue t;
    '(ds, err) ← lease queue max visibility t;
    q ← deref_queue queue;
    match err with
    | Some e => mret (Err e)
    | None => mret (Ok (ds, q_wake q))
    end
  end.

(** Receive with [wait <= 0]: one turn, whose deliveries are returned. *)
Definition Receive_nowait (queue : string) (max visibility : Z)
    : M (result (list Delivery)) :=
  match Receive_args max visibility with
  | Err e => mret (Err e)
  | Ok max =>
    r ← Receive_once queue max visibility;
    match r with
    | Err e => mret (Err e)
    | Ok (ds, _) => mret (Ok ds)
    end
  end.

(** lookupLease; the queue is known by its name. *)
Definition lookupLease (queue id receipt : string) : M (result ptr) :=
  oq ← lookup_queue queue;
  match oq with
  | None => mret (Err ErrQueueNotFound)
  | Some _ =>
    t ← now;
    _ ← sweepQueue queue t;
    q ← deref_queue queue;
    match q_byID q !! id with
    | None => mret (Err ErrMessageNotFound)
    | Some p =>
      m ← load p;
      if decide (m_state m ≠ stateLeased) then mret (Err ErrNotLeased)
      else if decide (m_Receipt m ≠ receipt) then mret (Err ErrWrongReceipt)
      else mret (Ok p)
    end
  end.

(** Ack *)
Definition Ack (queue id receipt : string) : M (option error) :=
  r ← lookupLease queue id receipt;
  match r with
  | Err e => mret (Some e)
  | Ok p =>
    t ← now;
    err ← append (rec_ack queue id receipt (ms t));
    match err with
    | Some e => mret (Some e)
    | None =>
      m ← load p;
      q ← deref_queue queue;
      _ ← put_queue queue
            (q_set_totals (q_totalSent q) (i64 (q_totalAcked q + 1)) (q_totalDead q)
              (q_set_pending (delete (m_ID m) (q_pending q))
                (q_set_byID (delete (m_ID m) (q_byID q)) q)));
      mret None
    end
  end.

(** Nack *)
Definition Nack (queue id receipt : string) : M (option error) :=
  r ← lookupLease queue id receipt;
  match r with
  | Err e => mret (Some e)
  | Ok p =>
    q ← deref_queue queue;
    m ← load p;
    if exhausted (q_cfg q) (m_Receives m) then deadLetter queue p
    else
      t ← now;
      err ← append (rec_nack queue id receipt (ms t));
      match err with
      | Some e => mret (Some e)
      | None =>
        q ← deref_queue queue;
        _ ← put_queue queue (q_set_pending (delete (m_ID m) (q_pending q)) q);
        _ ← pushReady queue p;
        _ ← broadcast queue;
        mret None
      end
  end.

(** Extend *)
Definition Extend (queue id receipt : string) (visibility : Z) : M (option error) :=
  if (visibility <=? 0) || (MaxVisibility <? visibility) then
    mret (Some (Errorf "visibility must be greater than 0s and at most %s"
                  [ADur MaxVisibility]))
  else
    r ← lookupLease queue id receipt;
    match r with
    | Err e => mret (Some e)
    | Ok p =>
      t ← now;
      let deadline := t + visibility in
      t' ← now;
      err ← append (rec_extend queue id receipt (ms deadline) (ms t'));
      match err with
      | Some e => mret (Some e)
      | None => m ← load p; _ ← save p (m_set_deadline deadline m); mret None
      end
    end.

(** The loop of Redrive; at most one turn per ready message of the source. *)
Fixpoint redrive_loop (fuel : nat) (from to : string) (max moved : Z)
    : M (Z * option error) :=
  match fuel with
  | O => go_panic
  | S fuel =>
    src ← deref_queue from;
    if ((max <=? 0) || (moved <? max)) && (0 <? Z.of_nat (length (q_ready src))) then
      p ← popReady from;
      m ← load p;
      t ← now;
      err ← append (rec_move from (m_ID m) to (ms t));
      match err with
      | Some e => _ ← pushReady from p; mret (moved, Some e)
      | None =>
        src ← deref_queue from;
        _ ← put_queue from (q_set_byID (delete (m_ID m) (q_byID src)) src);
        s ← incr_seq;
        _ ← arrive to p (m_moved s 0 m);
        redrive_loop fuel from to max (moved + 1)
      end
    else mret (moved, None)
  end.

(** Redrive: the number moved, with the error if any. *)
Definition Redrive (from to : string) (max : Z) : M (Z * option error) :=
  if decide (from = to) then
    mret (0, Some (Errorf "cannot redrive a queue into itself" []))
  else
    osrc ← lookup_queue from;
    match osrc with
    | None => mret (0, Some ErrQueueNotFound)
    | Some _ =>
      odst ← lookup_queue to;
      match odst with
      | None => mret (0, Some (Wrapf "%w: target %q" [AStr to] ErrQueueNotFound))
      | Some _ =>
        t ← now;
        _ ← sweepQueue from t;
        src ← deref_queue from;
        '(moved, err) ← redrive_loop (S (length (q_ready src))) from to max 0;
        match err with
        | Some e => mret (moved, Some e)
        | None => _ ← (if 0 <? moved then broadcast to else mret ()); mret (moved, None)
        end
      end
    end.

(** ** Persistence *)

(** The part of apply common to dead and move records, once the message is
    out of its queue. *)
Definition apply_transfer (r : WRecord) (p : ptr) : M (option error) :=
  if decide (r_To r = "") then mret None else
  dst ← lookup_queue (r_To r);
  match dst with
  | None => mret (Some (Wrapf "%w: target %q" [AStr (r_To r)] ErrQueueNotFound))
  | Some _ =>
    s ← incr_seq;
    m ← load p;
    _ ← arrive (r_To r) p
          (m_moved s (if decide (r_Op r = OpMove) then 0 else m_Receives m) m);
    mret None
  end.

(** apply, for an op on the message [p] of queue [qn]. *)
Definition apply_message (r : WRecord) (qn : string) (p : ptr) : M (option error) :=
  if decide (r_Op r = OpReceive) then
    _ ← bumpSeq (r_Receipt r);
    _ ← removeReady qn p;
    m ← load p;
    _ ← save p (m_to_leased (r_Receipt r) (UnixMilli (r_Deadline r)) (r_Count r) m);
    q ← deref_queue qn;
    _ ← put_queue qn (q_set_pending (<[m_ID m := p]> (q_pending q)) q);
    mret None
  else if decide (r_Op r = OpAck) then
    m ← load p;
    q ← deref_queue qn;
    _ ← put_queue qn
          (q_set_pending (delete (m_ID m) (q_pending q))
            (q_set_byID (delete (m_ID m) (q_byID q)) q));
    _ ← removeReady qn p;
    q ← deref_queue qn;
    _ ← put_queue qn
          (q_set_totals (q_totalSent q) (i64 (q_totalAcked q + 1)) (q_totalDead q) q);
    mret None
  else if decide (r_Op r = OpNack) then
    m ← load p;
    q ← deref_queue qn;
    _ ← put_queue qn (q_set_pending (delete (m_ID m) (q_pending q)) q);
    _ ← pushReady qn p;
    mret None
  else if decide (r_Op r = OpExtend) then
    m ← load p;
    _ ← save p (m_set_deadline (UnixMilli (r_Deadline r)) m);
    mret None
  else if decide (r_Op r = OpDead ∨ r_Op r = OpMove) then
    m ← load p;
    q ← deref_queue qn;
    _ ← put_queue qn
          (q_set_pending (delete (m_ID m) (q_pending q))
            (q_set_byID (delete (m_ID m) (q_byID q)) q));
    _ ← removeReady qn p;
    q ← deref_queue qn;
    _ ← (if decide (r_Op r = OpDead)
         then put_queue qn
                (q_set_totals (q_totalSent q) (q_totalAcked q) (i64 (q_totalDead q + 1)) q)
         else mret ());
    apply_transfer r p
  else mret None.

(** apply: replay of one record. *)
Definition apply (r : WRecord) : M (option error) :=
  if decide (r_Op r = OpQueueCreate) then
    match ParseConfig (r_Config r) with
    | Err e => mret (Some e)
    | Ok cfg =>
      oq ← lookup_queue (r_Queue r);
      match oq with
      | Some q => _ ← put_queue (r_Queue r) (q_set_cfg cfg q); mret None
      | None => _ ← add_queue (r_Queue r) cfg; mret None
      end
    end
  else if decide (r_Op r = OpQueueDelete) then
    oq ← lookup_queue (r_Queue r);
    match oq with
    | None => mret (Some ErrQueueNotFound)
    | Some _ =>
      k ← get_core;
      _ ← put_core (k_set_queues (delete (r_Queue r) (k_queues k)) k);
      mret None
    end
  else
    oq ← lookup_queue (r_Queue r);
    match oq with
    | None => mret (Some ErrQueueNotFound)
    | Some q =>
      if decide (r_Op r = OpSend) then
        match GetBody r with
        | Err e => mret (Some e)
        | Ok body =>
          _ ← bumpSeq (r_ID r);
          let nbf := if 0 <? r_NBF r then UnixMilli (r_NBF r) else zeroTime in
          p ← new_message (mkMessage (r_ID r) (seqOf (r_ID r)) body (UnixMilli (r_TS r)) nbf
                             stateDelayed "" zeroTime (r_Count r));
          _ ← put_queue (r_Queue r)
                (q_set_totals (i64 (q_totalSent q + 1)) (q_totalAcked q) (q_totalDead q)
                  (q_set_pending (<[r_ID r := p]> (q_pending q))
                    (q_set_byID (<[r_ID r := p]> (q_byID q)) q)));
          mret None
        end
      else
        match q_byID q !! r_ID r with
        | None => mret (Some ErrMessageNotFound)
        | Some p => apply_message r (r_Queue r) p
        end
    end.

Fixpoint load_from (i : Z) (recs : list WRecord) : M (option error) :=
  match recs with
  | [] => mret None
  | r :: recs =>
    err ← apply r;
    match err with
    | Some e =>
      mret (Some (Wrapf "replay record %d (%s %s/%s): %w"
                    [AInt (i + 1); AStr (r_Op r); AStr (r_Queue r); AStr (r_ID r)] e))
    | None => load_from (i + 1) recs
    end
  end.

(** Load *)
Definition Load (recs : list WRecord) : M (option error) := load_from 0 recs.

(** The records of one message in a snapshot. *)
Definition snapshot_message (qn : string) (m : message) : list WRecord :=
  let send := mkRecord OpSend qn (m_ID m) "" "" (ms (m_SentAt m)) (ms (m_NotBefore m)) 0 ""
                (if decide (m_state m = stateLeased) then 0 else m_Receives m) "" [] in
  SetBody (m_Body m) send ::
  (if decide (m_state m = stateLeased)
   then [mkRecord OpReceive qn (m_ID m) "" "" 0 0 (ms (m_Deadline m)) (m_Receipt m)
           (m_Receives m) "" []]
   else []).

Definition seq_le (m1 m2 : message) : Prop := m_Seq m1 ≤ m_Seq m2.
Definition str_le (s1 s2 : string) : Prop := String.leb s1 s2 = true.

#[export] Instance seq_le_dec : RelDecision seq_le.
Proof. intros ??. unfold seq_le. apply _. Defined.
#[export] Instance str_le_dec : RelDecision str_le.
Proof. intros ??. unfold str_le. apply _. Defined.

(** The messages behind a list of pointers; a dangling one panics. *)
Definition load_all (st : store) (ps : list ptr) : option (list message) :=
  mapM (λ p, st !! p) ps.

Definition snapshot_queue (st : store) (n : string) (q : queueState)
    : option (list WRecord) :=
  msgs ← load_all st (map_to_list (q_byID q)).*2;
  Some (mkRecord OpQueueCreate n "" "" "" 0 0 0 "" 0 "" (Marshal_config (q_cfg q))
          :: concat (snapshot_message n <$> merge_sort seq_le msgs)).

Fixpoint snapshot_queues (k : core) (names : list string) : option (list WRecord) :=
  match names with
  | [] => Some []
  | n :: names =>
    q ← k_queues k !! n;
    recs ← snapshot_queue (k_msgs k) n q;
    rest ← snapshot_queues k names;
    Some (recs ++ rest)
  end.

(** Snapshot *)
Definition Snapshot : M (list WRecord) :=
  k ← get_core;
  go_opt (snapshot_queues k (merge_sort str_le (map_keys (k_queues k)))).
End engine.
