(* ===== verification/Spec.v ===== *)
(** The abstract queue machine: what the engine promises, without pointers,
    heaps, wake-up channels or a log.  A state maps every queue name to its
    configuration and its messages by ID; a step is labelled with what the
    engine writes to the log for it, or with the unlogged transition it is (a
    message whose time has come, a counter value given up). *)

From S2P Require Import Prelude Ids WalRecord Config Message Engine.
From stdpp Require Import fin_maps.

Local Open Scope Z_scope.

(** ** States *)

Inductive astatus := AReady | ADelayed | ALeased (receipt : string) (deadline : Z).

#[export] Instance astatus_eq_dec : EqDecision astatus.
Proof. solve_decision. Defined.

Record amsg := mkAmsg {
  a_Seq : Z; a_Body : bytes; a_Sent : Z; a_NBF : Z; a_Receives : Z; a_Status : astatus;
}.

Record aqueue := mkAqueue { aq_cfg : Config; aq_msgs : gmap string amsg }.

Record astate := mkAstate { as_queues : gmap string aqueue; as_seq : Z }.

Definition a_empty : astate := mkAstate ∅ 0.

Definition a_lookup (A : astate) (n id : string) : option amsg :=
  q ← as_queues A !! n; aq_msgs q !! id.

Definition a_cfg (A : astate) (n : string) : option Config := aq_cfg <$> as_queues A !! n.

(** ** Updates *)

Definition a_set_seq (s : Z) (A : astate) : astate := mkAstate (as_queues A) s.

Definition a_put (n id : string) (m : amsg) (A : astate) : astate :=
  mkAstate (alter (λ q, mkAqueue (aq_cfg q) (<[id := m]> (aq_msgs q))) n (as_queues A))
    (as_seq A).

Definition a_del (n id : string) (A : astate) : astate :=
  mkAstate (alter (λ q, mkAqueue (aq_cfg q) (delete id (aq_msgs q))) n (as_queues A))
    (as_seq A).

(** Creating a queue, or replacing the configuration of one that exists. *)
Definition a_create (n : string) (c : Config) (A : astate) : astate :=
  mkAstate (partial_alter (λ oq, Some (mkAqueue c (from_option aq_msgs ∅ oq))) n (as_queues A))
    (as_seq A).

Definition a_delete (n : string) (A : astate) : astate :=
  mkAstate (delete n (as_queues A)) (as_seq A).

Definition am_set_status (s : astatus) (m : amsg) : amsg :=
  mkAmsg (a_Seq m) (a_Body m) (a_Sent m) (a_NBF m) (a_Receives m) s.

Definition am_lease (receipt : string) (deadline : Z) (m : amsg) : amsg :=
  mkAmsg (a_Seq m) (a_Body m) (a_Sent m) (a_NBF m) (i64 (a_Receives m + 1))
    (ALeased receipt deadline).

(** A message put at the back of another queue. *)
Definition am_moved (seq receives : Z) (m : amsg) : amsg :=
  mkAmsg seq (a_Body m) (a_Sent m) zeroTime receives AReady.

(** The moment a message that is not ready becomes due. *)
Definition a_due (m : amsg) : Z :=
  match a_Status m with
  | AReady => zeroTime
  | ADelayed => a_NBF m
  | ALeased _ deadline => deadline
  end.

Definition is_leased (m : amsg) : Prop :=
  match a_Status m with ALeased _ _ => True | _ => False end.

(** ** Steps *)

(** Times are instants; the records hold milliseconds. *)
Inductive label :=
  | LCreate (q : string) (cfg : Config) (ts : Z)
  | LDelete (q : string) (ts : Z)
  | LSend (q id : string) (body : bytes) (ts delay : Z)
  | LRecv (q id receipt : string) (ts deadline count : Z)
  | LAck (q id receipt : string) (ts : Z)
  | LNack (q id receipt : string) (ts : Z)
  | LExtend (q id receipt : string) (deadline ts : Z)
  | LDead (q id to : string) (ts : Z)
  | LMove (q id to : string) (ts : Z)
  | LSettle (q id : string) (at_ : Z)
  | LBurn.

Definition nbf_of (ts delay : Z) : Z := if 0 <? delay then ts + delay else zeroTime.

(** What is written to the log for a step. *)
Definition label_records `{ConfigJSON} (l : label) : list WRecord :=
  match l with
  | LCreate q cfg ts => [rec_create q (Marshal_config cfg) (ms ts)]
  | LDelete q ts => [rec_delete q (ms ts)]
  | LSend q id body ts delay => [rec_send q id body (ms ts) (ms (nbf_of ts delay))]
  | LRecv q id receipt ts deadline count => [rec_recv q id (ms ts) receipt (ms deadline) count]
  | LAck q id receipt ts => [rec_ack q id receipt (ms ts)]
  | LNack q id receipt ts => [rec_nack q id receipt (ms ts)]
  | LExtend q id receipt deadline ts => [rec_extend q id receipt (ms deadline) (ms ts)]
  | LDead q id to ts => [rec_dead q id to (ms ts)]
  | LMove q id to ts => [rec_move q id to (ms ts)]
  | LSettle _ _ _ | LBurn => []
  end.

(** The ready message of a queue that comes first in send order. *)
Definition a_first (A : astate) (n id : string) (m : amsg) : Prop :=
  a_lookup A n id = Some m ∧ a_Status m = AReady ∧
  ∀ id' m', a_lookup A n id' = Some m' → a_Status m' = AReady → a_Seq m ≤ a_Seq m'.

(** The next counter value, which must not wrap around. *)
Definition a_next (A : astate) (s : Z) : Prop := s = as_seq A + 1 ∧ s < 2 ^ 64.

(** The name of a new queue is valid, or another queue names it for its dead
    letters. *)
Definition a_named (A : astate) (n : string) : Prop :=
  ValidName n = true ∨ ∃ n' c, a_cfg A n' = Some c ∧ c_DeadLetter c = n.

Inductive astep (A : astate) : label → astate → Prop :=
  | step_create n c ts :
      n ≠ "" → a_named A n → astep A (LCreate n c ts) (a_create n c A)
  | step_delete n ts :
      is_Some (as_queues A !! n) →
      astep A (LDelete n ts) (a_delete n A)
  | step_send n s body ts delay :
      is_Some (as_queues A !! n) → a_next A s →
      astep A (LSend n (fmt_hex16 s) body ts delay)
        (a_put n (fmt_hex16 s)
           (mkAmsg s body ts (nbf_of ts delay) 0 (if 0 <? delay then ADelayed else AReady))
           (a_set_seq s A))
  | step_recv n id m s ts deadline :
      a_first A n id m → a_next A s →
      astep A (LRecv n id (receipt_of s) ts deadline (i64 (a_Receives m + 1)))
        (a_put n id (am_lease (receipt_of s) deadline m) (a_set_seq s A))
  | step_ack n id m receipt deadline ts :
      a_lookup A n id = Some m → a_Status m = ALeased receipt deadline →
      astep A (LAck n id receipt ts) (a_del n id A)
  | step_nack n id m receipt deadline ts :
      a_lookup A n id = Some m → a_Status m = ALeased receipt deadline →
      astep A (LNack n id receipt ts) (a_put n id (am_set_status AReady m) A)
  | step_extend n id m receipt deadline deadline' ts :
      a_lookup A n id = Some m → a_Status m = ALeased receipt deadline →
      astep A (LExtend n id receipt deadline' ts)
        (a_put n id (am_set_status (ALeased receipt deadline') m) A)
  | step_drop n id m c ts :
      a_lookup A n id = Some m → is_leased m → a_cfg A n = Some c →
      exhausted c (a_Receives m) = true → c_DeadLetter c = "" →
      astep A (LDead n id "" ts) (a_del n id A)
  | step_dead n id m c s ts :
      a_lookup A n id = Some m → is_leased m → a_cfg A n = Some c →
      exhausted c (a_Receives m) = true → c_DeadLetter c ≠ "" →
      is_Some (as_queues A !! c_DeadLetter c) → a_next A s →
      astep A (LDead n id (c_DeadLetter c) ts)
        (a_put (c_DeadLetter c) id (am_moved s (a_Receives m) m) (a_set_seq s (a_del n id A)))
  | step_move n id m to s ts :
      a_first A n id m → n ≠ to → to ≠ "" → is_Some (as_queues A !! to) → a_next A s →
      astep A (LMove n id to ts)
        (a_put to id (am_moved s 0 m) (a_set_seq s (a_del n id A)))
  | step_settle n id m c at_ :
      a_lookup A n id = Some m → a_Status m ≠ AReady → a_due m ≤ at_ →
      a_cfg A n = Some c → (is_leased m → exhausted c (a_Receives m) = false) →
      astep A (LSettle n id at_) (a_put n id (am_set_status AReady m) A)
  | step_burn s :
      a_next A s → astep A LBurn (a_set_seq s A).

(** Sequences of steps. *)
Inductive asteps : astate → list label → astate → Prop :=
  | asteps_nil A : asteps A [] A
  | asteps_cons A l B ls C : astep A l B → asteps B ls C → asteps A (l :: ls) C.

Lemma asteps_one A l B : astep A l B → asteps A [l] B.
Proof. intros H. by eapply asteps_cons; [|apply asteps_nil]. Qed.

Lemma asteps_app A ls B ls' C : asteps A ls B → asteps B ls' C → asteps A (ls ++ ls') C.
Proof. induction 1; simpl; [done|]. intros. eapply asteps_cons; eauto. Qed.

Lemma asteps_app_inv A ls ls' C :
  asteps A (ls ++ ls') C → ∃ B, asteps A ls B ∧ asteps B ls' C.
Proof.
  revert A. induction ls as [|l ls IH]; intros A Hst; simpl in Hst.
  - exists A. split; [constructor|done].
  - inversion Hst as [|? ? A1 ? ? Hone Hrest]; subst. destruct (IH _ Hrest) as (B & ? & ?).
    exists B. split; [by eapply asteps_cons|done].
Qed.

Definition records `{ConfigJSON} (ls : list label) : list WRecord := ls ≫= label_records.

Lemma records_app `{ConfigJSON} ls ls' : records (ls ++ ls') = records ls ++ records ls'.
Proof. apply bind_app. Qed.

#[export] Hint Constructors asteps : duraq.
#[export] Hint Resolve asteps_one asteps_app : duraq.

(** ** Lookups through the updates *)

Lemma as_queues_is_Some_put n id m A n' :
  is_Some (as_queues (a_put n id m A) !! n') ↔ is_Some (as_queues A !! n').
Proof. unfold a_put. simpl. rewrite lookup_alter. case_decide; subst; [|done]. by rewrite fmap_is_Some. Qed.

Lemma as_queues_is_Some_del n id A n' :
  is_Some (as_queues (a_del n id A) !! n') ↔ is_Some (as_queues A !! n').
Proof. unfold a_del. simpl. rewrite lookup_alter. case_decide; subst; [|done]. by rewrite fmap_is_Some. Qed.

Lemma a_lookup_is_Some A n id m : a_lookup A n id = Some m → is_Some (as_queues A !! n).
Proof. unfold a_lookup. destruct (as_queues A !! n); [eauto|done]. Qed.

Lemma a_lookup_put n id m A n' id' :
  is_Some (as_queues A !! n) →
  a_lookup (a_put n id m A) n' id' =
  if decide (n' = n ∧ id' = id) then Some m else a_lookup A n' id'.
Proof.
  intros [q Hq]. unfold a_lookup, a_put. simpl. rewrite lookup_alter.
  destruct (decide (n = n')) as [<-|Hn].
  - rewrite Hq. simpl. rewrite lookup_insert.
    repeat case_decide; destruct_and?; subst; try done; exfalso; auto.
  - rewrite decide_False by (intros [-> _]; done). done.
Qed.

Lemma a_lookup_del n id A n' id' :
  a_lookup (a_del n id A) n' id' =
  if decide (n' = n ∧ id' = id) then None else a_lookup A n' id'.
Proof.
  unfold a_lookup, a_del. simpl. rewrite lookup_alter.
  destruct (decide (n = n')) as [<-|Hn].
  - destruct (as_queues A !! n) as [q|]; simpl; [|case_decide; simpl; reflexivity].
    rewrite lookup_delete.
    repeat case_decide; destruct_and?; subst; try done; exfalso; auto.
  - rewrite decide_False by (intros [-> _]; done). done.
Qed.

Lemma a_lookup_set_seq s A n id : a_lookup (a_set_seq s A) n id = a_lookup A n id.
Proof. done. Qed.

Lemma a_lookup_create n c A n' id : a_lookup (a_create n c A) n' id = a_lookup A n' id.
Proof.
  unfold a_lookup, a_create. simpl. rewrite lookup_partial_alter.
  destruct (decide (n = n')) as [<-|]; [|done].
  by destruct (as_queues A !! n) as [q|].
Qed.

Lemma a_lookup_delete n A n' id :
  a_lookup (a_delete n A) n' id = if decide (n' = n) then None else a_lookup A n' id.
Proof.
  unfold a_lookup, a_delete. simpl. rewrite lookup_delete.
  repeat case_decide; subst; done.
Qed.

#[export] Hint Rewrite a_lookup_del a_lookup_set_seq a_lookup_create a_lookup_delete : duraq.

(** ** Well-formed abstract states *)

Record awf (A : astate) : Prop := {
  aw_seq : 0 ≤ as_seq A < 2 ^ 64;
  aw_name : as_queues A !! "" = None;
  (* an ID is in one queue *)
  aw_unique n1 n2 id m1 m2 :
    a_lookup A n1 id = Some m1 → a_lookup A n2 id = Some m2 → n1 = n2;
  (* IDs and positions come from the counter *)
  aw_msg n id m :
    a_lookup A n id = Some m →
    0 < a_Seq m ≤ as_seq A ∧ ∃ j, 0 < j ≤ as_seq A ∧ id = fmt_hex16 j;
  (* positions are distinct *)
  aw_inj n1 id1 m1 n2 id2 m2 :
    a_lookup A n1 id1 = Some m1 → a_lookup A n2 id2 = Some m2 →
    a_Seq m1 = a_Seq m2 → id1 = id2;
  (* receive counts are machine integers *)
  aw_recv n id m : a_lookup A n id = Some m → i64 (a_Receives m) = a_Receives m;
}.

Lemma awf_empty : awf a_empty.
Proof.
  split; [done|done| | | |]; unfold a_lookup; simpl; intros *; rewrite !lookup_empty; done.
Qed.

(** Well-formedness only depends on where the IDs are and on their positions. *)
Lemma awf_sub A B :
  awf A → as_seq A ≤ as_seq B < 2 ^ 64 → as_queues B !! "" = None →
  (∀ n id m', a_lookup B n id = Some m' →
     ∃ m, a_lookup A n id = Some m ∧ a_Seq m = a_Seq m' ∧ i64 (a_Receives m') = a_Receives m') →
  awf B.
Proof.
  intros [Hs Hn Hu Hm Hi _] Hseq HnB Hsub. split; [lia|done|..].
  - intros n1 n2 id m1 m2 (? & ? & _)%Hsub (? & ? & _)%Hsub. eauto.
  - intros n id m' (m & Hl & <- & _)%Hsub. destruct (Hm _ _ _ Hl) as (? & j & ? & ->).
    split; [lia|]. exists j. split; [lia|done].
  - intros n1 id1 m1 n2 id2 m2 (? & ? & <- & _)%Hsub (? & ? & <- & _)%Hsub. eauto.
  - by intros n id m' (? & ? & _ & ?)%Hsub.
Qed.

(** A message at a position that no other message has, under an ID found nowhere
    else. *)
Lemma awf_put_new A n id m s j :
  awf A → as_seq A ≤ s < 2 ^ 64 → is_Some (as_queues A !! n) →
  (∀ n', a_lookup A n' id = None) →
  (∀ n' id' m', a_lookup A n' id' = Some m' → a_Seq m' ≠ a_Seq m) → 0 < a_Seq m ≤ s →
  i64 (a_Receives m) = a_Receives m →
  id = fmt_hex16 j → 0 < j ≤ s → awf (a_put n id m (a_set_seq s A)).
Proof.
  intros [Hs Hn Hu Hm Hi Hr] Hlt Hq Hfresh Hother Hseq Hrecv Hid Hj.
  pose proof (λ n' id', a_lookup_put n id m (a_set_seq s A) n' id' Hq) as Hl.
  split; [simpl; lia| | | | |].
  - destruct (as_queues (a_put n id m _) !! "") as [q|] eqn:He; [|done].
    pose proof (as_queues_is_Some_put n id m (a_set_seq s A) "") as [H _].
    rewrite He in H. destruct H as [? H]; [eauto|]. simpl in H. congruence.
  - intros n1 n2 id' m1 m2. rewrite !Hl, !a_lookup_set_seq.
    repeat case_decide; destruct_and?; subst; rewrite ?Hfresh; [done..|]. eauto.
  - intros n' id' m'. rewrite Hl, a_lookup_set_seq. simpl. case_decide; destruct_and?; subst.
    + intros [= <-]. split; [lia|]. exists j. split; [lia|done].
    + intros (? & j' & ? & ->)%Hm. split; [lia|]. exists j'. split; [lia|done].
  - intros n1 id1 m1 n2 id2 m2. rewrite !Hl, !a_lookup_set_seq.
    repeat case_decide; destruct_and?; subst; [done| | |eauto].
    + intros [= <-] H2 He. by destruct (Hother _ _ _ H2).
    + intros H1 [= <-] He. by destruct (Hother _ _ _ H1).
  - intros n' id' m'. rewrite Hl, a_lookup_set_seq. case_decide; [by intros [= <-]|eauto].
Qed.

(** A message at the back. *)
Lemma awf_put_fresh A n id m s j :
  awf A → as_seq A < s < 2 ^ 64 → is_Some (as_queues A !! n) →
  (∀ n', a_lookup A n' id = None) → a_Seq m = s → i64 (a_Receives m) = a_Receives m →
  id = fmt_hex16 j → 0 < j ≤ s → awf (a_put n id m (a_set_seq s A)).
Proof.
  intros HA Hlt Hq Hfresh Hseq Hrecv Hid Hj. pose proof (aw_seq _ HA).
  eapply awf_put_new; try done; [lia| |lia].
  intros n' id' m' Hl. destruct (aw_msg _ HA _ _ _ Hl). lia.
Qed.

Lemma awf_del A n id : awf A → awf (a_del n id A).
Proof.
  intros HA. pose proof (aw_seq _ HA). apply (awf_sub A); [done|simpl; lia| |].
  - pose proof (aw_name _ HA). destruct (as_queues (a_del n id A) !! "") eqn:He; [|done].
    pose proof (as_queues_is_Some_del n id A "") as [H1 _]. rewrite He in H1.
    destruct H1; [eauto|]. congruence.
  - intros n' id' m'. rewrite a_lookup_del. case_decide; [done|]. eauto using aw_recv.
Qed.

(** A change of a message that keeps its position. *)
Lemma awf_put_same A n id m m' s :
  awf A → a_lookup A n id = Some m → a_Seq m' = a_Seq m →
  i64 (a_Receives m') = a_Receives m' → as_seq A ≤ s < 2 ^ 64 →
  awf (a_put n id m' (a_set_seq s A)).
Proof.
  intros HA Hl Hs Hr Hseq. apply (awf_sub A); [done|simpl; lia| |].
  - pose proof (aw_name _ HA).
    destruct (as_queues (a_put n id m' (a_set_seq s A)) !! "") eqn:He; [|done].
    pose proof (as_queues_is_Some_put n id m' (a_set_seq s A) "") as [H1 _]. rewrite He in H1.
    destruct H1 as [? H1]; [eauto|]. simpl in H1. congruence.
  - intros n' id' m''. rewrite a_lookup_put by (simpl; eauto using a_lookup_is_Some).
    case_decide; destruct_and?; subst; [|eauto using aw_recv]. intros [= <-]. eauto.
Qed.

Lemma a_put_seq n id m A : a_put n id m A = a_put n id m (a_set_seq (as_seq A) A).
Proof. by destruct A. Qed.

(** The counter names an ID that no message has. *)
Lemma fresh_id A s n : awf A → a_next A s → a_lookup A n (fmt_hex16 s) = None.
Proof.
  intros HA [-> Hs]. destruct (a_lookup A n _) as [m|] eqn:Hl; [|done].
  destruct (aw_msg _ HA _ _ _ Hl) as (_ & j & Hj & He).
  apply fmt_hex16_inj in He; pose proof (aw_seq _ HA); lia.
Qed.

Lemma gone_after_del A n id m n' :
  awf A → a_lookup A n id = Some m → a_lookup (a_del n id A) n' id = None.
Proof.
  intros HA Hl. rewrite a_lookup_del. case_decide; [done|].
  destruct (a_lookup A n' id) eqn:He; [|done].
  pose proof (aw_unique _ HA _ _ _ _ _ Hl He). subst. exfalso. auto.
Qed.

(** A message transferred to another queue gets a fresh position. *)
Lemma awf_transfer A n id m m' to s :
  awf A → a_lookup A n id = Some m → a_next A s → is_Some (as_queues A !! to) →
  a_Seq m' = s → i64 (a_Receives m') = a_Receives m' → awf (a_put to id m' (a_set_seq s (a_del n id A))).
Proof.
  intros HA Hl Hs Hto Hseq Hr. destruct (aw_msg _ HA _ _ _ Hl) as (_ & j & Hj & Hid).
  apply (awf_put_fresh _ _ _ _ _ j); try done.
  - by apply awf_del.
  - destruct Hs. simpl. lia.
  - by apply as_queues_is_Some_del.
  - intros n'. by eapply gone_after_del.
  - destruct Hs. lia.
Qed.

Lemma awf_create A n c : awf A → n ≠ "" → awf (a_create n c A).
Proof.
  intros HA Hn. pose proof (aw_seq _ HA). apply (awf_sub A); [done|simpl; lia| |].
  - unfold a_create. simpl. rewrite lookup_partial_alter_ne by done. apply HA.
  - intros *. rewrite a_lookup_create. eauto using aw_recv.
Qed.

(** Every step of the machine keeps its states well-formed. *)
Lemma astep_awf A l B : awf A → astep A l B → awf B.
Proof.
  intros HA Hst. pose proof (aw_seq _ HA). destruct Hst.
  - by apply awf_create.
  - apply (awf_sub A); [done|simpl; lia| |].
    + unfold a_delete. simpl. rewrite lookup_delete. case_decide; [done|]. apply HA.
    + intros *. rewrite a_lookup_delete. case_decide; [done|]. eauto using aw_recv.
  - apply (awf_put_fresh _ _ _ _ _ s); try done;
      [match goal with H : a_next _ _ |- _ => destruct H end; lia|by intros; apply fresh_id|].
    match goal with H : a_next _ _ |- _ => destruct H end. lia.
  - match goal with H : a_first _ _ _ _ |- _ => destruct H as [Hl _] end.
    eapply awf_put_same; [done..|apply i64_id, i64_range|]. match goal with H : a_next _ _ |- _ => destruct H end. lia.
  - by apply awf_del.
  - rewrite a_put_seq. eapply awf_put_same; [done..|simpl; eauto using aw_recv|lia].
  - rewrite a_put_seq. eapply awf_put_same; [done..|simpl; eauto using aw_recv|lia].
  - by apply awf_del.
  - eapply awf_transfer; [done..|]. simpl. eauto using aw_recv.
  - match goal with H : a_first _ _ _ _ |- _ => destruct H as [Hl _] end.
    by eapply awf_transfer.
  - rewrite a_put_seq. eapply awf_put_same; [done..|simpl; eauto using aw_recv|lia].
  - match goal with H : a_next _ _ |- _ => destruct H end.
    apply (awf_sub A); [done|simpl; lia|apply HA|eauto using aw_recv].
Qed.

Lemma asteps_awf A ls B : awf A → asteps A ls B → awf B.
Proof. intros HA. induction 1; [done|]. eauto using astep_awf. Qed.

#[export] Hint Resolve astep_awf asteps_awf awf_empty : duraq.
