(* ===== verification/Invariant.v ===== *)
(** The engine's invariant and its abstraction.

    [abs] forgets pointers, heaps and channels; [wf] says that the three views a
    queue has of its messages ([byID], [pending], the ready heap) agree, that the
    heap is ordered, that no wake-up channel in use is closed or shared, and that
    the abstract state is well-formed.  The lemmas of this file are the updates
    the operations are made of: each keeps [wf] and is an update of [abs]. *)

From S2P Require Import Prelude GoHeap Ids WalRecord Config Message Engine Spec.
From stdpp Require Import fin_maps.

Local Open Scope Z_scope.

(** ** Abstraction *)

Definition abs_status (m : message) : astatus :=
  match m_state m with
  | stateReady => AReady
  | stateDelayed => ADelayed
  | stateLeased => ALeased (m_Receipt m) (m_Deadline m)
  end.

Definition abs_msg (m : message) : amsg :=
  mkAmsg (m_Seq m) (m_Body m) (m_SentAt m) (m_NotBefore m) (m_Receives m) (abs_status m).

Definition abs_queue (st : store) (q : queueState) : aqueue :=
  mkAqueue (q_cfg q) (omap (λ p, abs_msg <$> st !! p) (q_byID q)).

Definition abs (k : core) : astate :=
  mkAstate (abs_queue (k_msgs k) <$> k_queues k) (k_seq k).

Lemma abs_queues_is_Some k n : is_Some (as_queues (abs k) !! n) ↔ is_Some (k_queues k !! n).
Proof. unfold abs. simpl. by rewrite lookup_fmap, fmap_is_Some. Qed.

Lemma a_cfg_abs k n : a_cfg (abs k) n = q_cfg <$> k_queues k !! n.
Proof. unfold a_cfg, abs. simpl. rewrite lookup_fmap. by destruct (k_queues k !! n). Qed.

Lemma a_lookup_abs k n id :
  a_lookup (abs k) n id =
  (q ← k_queues k !! n; p ← q_byID q !! id; abs_msg <$> k_msgs k !! p).
Proof.
  unfold a_lookup, abs. simpl. rewrite lookup_fmap.
  destruct (k_queues k !! n) as [q|]; simpl; [|done]. by rewrite lookup_omap.
Qed.

Lemma a_lookup_abs_Some k n q id p m :
  k_queues k !! n = Some q → q_byID q !! id = Some p → k_msgs k !! p = Some m →
  a_lookup (abs k) n id = Some (abs_msg m).
Proof. intros Hq Hp Hm. rewrite a_lookup_abs, Hq. simpl. rewrite Hp. simpl. by rewrite Hm. Qed.

Lemma a_lookup_abs_inv k n id am :
  a_lookup (abs k) n id = Some am →
  ∃ q p m, k_queues k !! n = Some q ∧ q_byID q !! id = Some p ∧ k_msgs k !! p = Some m ∧
           am = abs_msg m.
Proof.
  rewrite a_lookup_abs. intros H.
  destruct (k_queues k !! n) as [q|]; simplify_eq/=.
  destruct (q_byID q !! id) as [p|] eqn:Hp; simplify_eq/=.
  destruct (k_msgs k !! p) as [m|] eqn:Hm; simplify_eq/=. eauto 10.
Qed.

(** Abstract states are determined by counter, configurations and lookups. *)
Lemma astate_eq A B :
  as_seq A = as_seq B → (∀ n, a_cfg A n = a_cfg B n) →
  (∀ n id, a_lookup A n id = a_lookup B n id) → A = B.
Proof.
  destruct A as [qa sa], B as [qb sb]. unfold a_cfg, a_lookup. simpl.
  intros -> Hc Hl. f_equal. apply map_eq. intros n.
  specialize (Hc n). specialize (Hl n).
  destruct (qa !! n) as [[ca ma]|], (qb !! n) as [[cb mb]|]; simplify_eq/=; [|done].
  do 2 f_equal. by apply map_eq.
Qed.

Lemma a_cfg_put n id m A n' : a_cfg (a_put n id m A) n' = a_cfg A n'.
Proof.
  unfold a_cfg, a_put. simpl. rewrite lookup_alter. case_decide; subst; [|done].
  by destruct (as_queues A !! n').
Qed.

Lemma a_cfg_del n id A n' : a_cfg (a_del n id A) n' = a_cfg A n'.
Proof.
  unfold a_cfg, a_del. simpl. rewrite lookup_alter. case_decide; subst; [|done].
  by destruct (as_queues A !! n').
Qed.

Lemma a_cfg_create n c A n' :
  a_cfg (a_create n c A) n' = if decide (n' = n) then Some c else a_cfg A n'.
Proof.
  unfold a_cfg, a_create. simpl. rewrite lookup_partial_alter.
  repeat case_decide; subst; done.
Qed.

Lemma a_cfg_delete n A n' :
  a_cfg (a_delete n A) n' = if decide (n' = n) then None else a_cfg A n'.
Proof.
  unfold a_cfg, a_delete. simpl. rewrite lookup_delete. repeat case_decide; subst; done.
Qed.

#[export] Hint Rewrite a_cfg_put a_cfg_del a_cfg_create a_cfg_delete : duraq.

(** ** The invariant *)

(** Where a message of a state is to be found in its queue. *)
Definition located (q : queueState) (id : string) (p : ptr) (s : state) : Prop :=
  match s with
  | stateReady => p ∈ q_ready q ∧ q_pending q !! id = None
  | _ => (p ∉ q_ready q) ∧ q_pending q !! id = Some p
  end.

Record wf_queue (st : store) (n : string) (q : queueState) : Prop := {
  wq_name : q_name q = n;
  wq_byID id p : q_byID q !! id = Some p →
    ∃ m, st !! p = Some m ∧ m_ID m = id ∧ located q id p (m_state m);
  wq_pending id p : q_pending q !! id = Some p → q_byID q !! id = Some p;
  wq_ready p : p ∈ q_ready q → ∃ m, st !! p = Some m ∧ q_byID q !! m_ID m = Some p;
  wq_nodup : NoDup (q_ready q);
  wq_heap : heap_ordered (seq_of st) (q_ready q);
}.

Record wf (k : core) : Prop := {
  wf_queues n q : k_queues k !! n = Some q → wf_queue (k_msgs k) n q;
  wf_abs : awf (abs k);
  wf_open n q : k_queues k !! n = Some q → k_chans k !! q_wake q = Some false;
  wf_wake n1 q1 n2 q2 :
    k_queues k !! n1 = Some q1 → k_queues k !! n2 = Some q2 →
    q_wake q1 = q_wake q2 → n1 = n2;
}.

Lemma wf_empty : wf (mkCore ∅ 0 ∅ ∅).
Proof.
  split; simpl; try (intros *; rewrite lookup_empty; done).
  unfold abs. simpl. rewrite fmap_empty. apply awf_empty.
Qed.

(** What the invariant knows of a message found by its ID. *)
Lemma wf_lookup k n q id p :
  wf k → k_queues k !! n = Some q → q_byID q !! id = Some p →
  ∃ m, k_msgs k !! p = Some m ∧ m_ID m = id ∧ located q id p (m_state m) ∧
       a_lookup (abs k) n id = Some (abs_msg m).
Proof.
  intros Hwf Hq Hp. destruct (wq_byID _ _ _ (wf_queues _ Hwf _ _ Hq) _ _ Hp) as (m & Hm & Hid & Hl).
  exists m. eauto using a_lookup_abs_Some.
Qed.

(** A message pointer belongs to one queue, under one ID. *)
Lemma wf_owner k n1 q1 id1 n2 q2 id2 p :
  wf k → k_queues k !! n1 = Some q1 → k_queues k !! n2 = Some q2 →
  q_byID q1 !! id1 = Some p → q_byID q2 !! id2 = Some p → n1 = n2 ∧ id1 = id2.
Proof.
  intros Hwf Hq1 Hq2 Hp1 Hp2.
  destruct (wf_lookup _ _ _ _ _ Hwf Hq1 Hp1) as (m1 & Hm1 & <- & _ & Hl1).
  destruct (wf_lookup _ _ _ _ _ Hwf Hq2 Hp2) as (m2 & Hm2 & <- & _ & Hl2).
  simplify_eq. split; [|done]. by eapply (aw_unique _ (wf_abs _ Hwf)).
Qed.

Lemma wf_owner_queue k n1 q1 id1 n2 q2 id2 p :
  wf k → k_queues k !! n1 = Some q1 → k_queues k !! n2 = Some q2 →
  q_byID q1 !! id1 = Some p → q_byID q2 !! id2 = Some p → n1 = n2.
Proof. intros Hwf H1 H2 H3 H4. by destruct (wf_owner _ _ _ _ _ _ _ _ Hwf H1 H2 H3 H4). Qed.

(** The heap's Less works on the ready messages. *)
Lemma wq_less st n q : wf_queue st n q → less_on (readyLess st) (seq_of st) (q_ready q).
Proof.
  intros Hq a b (ma & Ha & _)%(wq_ready _ _ _ Hq) (mb & Hb & _)%(wq_ready _ _ _ Hq).
  unfold readyLess, seq_of. by rewrite Ha, Hb.
Qed.

(** A queue does not see changes to messages it does not hold. *)
Lemma wq_frame st st' n q :
  wf_queue st n q → (∀ id p, q_byID q !! id = Some p → st' !! p = st !! p) →
  wf_queue st' n q.
Proof.
  intros [Hn Hb Hp Hr Hnd Hh] Hst.
  assert (∀ p, p ∈ q_ready q → st' !! p = st !! p) as Hrs.
  { intros p (m & _ & ?)%Hr. eauto. }
  split; [done| |done| |done|].
  - intros id p Hid. rewrite (Hst _ _ Hid). eauto.
  - intros p Hin. rewrite (Hrs _ Hin). eauto.
  - apply (heap_ordered_ext (seq_of st)); [|done].
    intros p Hin. unfold seq_of. by rewrite (Hrs _ Hin).
Qed.

(** ** Updates of one queue *)

(** [q'] is [q] with message [id] put where its state [s] wants it. *)
Record relocated (q q' : queueState) (id : string) (p : ptr) (s : state) : Prop := {
  re_name : q_name q' = q_name q;
  re_cfg : q_cfg q' = q_cfg q;
  re_wake : q_wake q' = q_wake q;
  re_byID : q_byID q' = q_byID q;
  re_pending : q_pending q' = if decide (s = stateReady) then delete id (q_pending q)
                              else <[id := p]> (q_pending q);
  re_ready p' : p' ≠ p → p' ∈ q_ready q' ↔ p' ∈ q_ready q;
  re_self : p ∈ q_ready q' ↔ s = stateReady;
  re_nodup : NoDup (q_ready q');
}.

(** [q'] is [q] without message [id]. *)
Record removed (q q' : queueState) (id : string) (p : ptr) : Prop := {
  rm_name : q_name q' = q_name q;
  rm_cfg : q_cfg q' = q_cfg q;
  rm_wake : q_wake q' = q_wake q;
  rm_byID : q_byID q' = delete id (q_byID q);
  rm_pending : q_pending q' = delete id (q_pending q);
  rm_ready p' : p' ∈ q_ready q' ↔ p' ∈ q_ready q ∧ p' ≠ p;
  rm_nodup : NoDup (q_ready q');
}.

(** [q'] is [q] with the new message [id]. *)
Record inserted (q q' : queueState) (id : string) (p : ptr) (s : state) : Prop := {
  in_name : q_name q' = q_name q;
  in_cfg : q_cfg q' = q_cfg q;
  in_wake : q_wake q' = q_wake q;
  in_byID : q_byID q' = <[id := p]> (q_byID q);
  in_pending : q_pending q' = if decide (s = stateReady) then q_pending q
                              else <[id := p]> (q_pending q);
  in_ready p' : p' ∈ q_ready q' ↔ p' ∈ q_ready q ∨ (p' = p ∧ s = stateReady);
  in_nodup : NoDup (q_ready q');
}.

Section queue_updates.
Context (st : store) (n : string) (q : queueState) (Hq : wf_queue st n q).

(** Two IDs of a queue never share a message. *)
Lemma wq_byID_inj id1 id2 p :
  q_byID q !! id1 = Some p → q_byID q !! id2 = Some p → id1 = id2.
Proof.
  intros (m1 & Hm1 & <- & _)%(wq_byID _ _ _ Hq) (m2 & Hm2 & <- & _)%(wq_byID _ _ _ Hq).
  congruence.
Qed.

(** [located] only looks at one pointer of the heap and one ID. *)
Lemma located_iff q' id p s :
  (p ∈ q_ready q' ↔ p ∈ q_ready q) → q_pending q' !! id = q_pending q !! id →
  located q id p s → located q' id p s.
Proof. intros H1 H2. destruct s; simpl; rewrite H2; tauto. Qed.

Lemma wq_relocate q' id p m' :
  q_byID q !! id = Some p → m_ID m' = id → relocated q q' id p (m_state m') →
  heap_ordered (seq_of (<[p := m']> st)) (q_ready q') →
  wf_queue (<[p := m']> st) n q'.
Proof.
  intros Hp Hid [Hn _ _ Hb Hpe Hr Hs Hnd] Hh. split; [by rewrite Hn; apply Hq| | | |done|done].
  - intros id' p'. rewrite Hb. intros Hp'. destruct (decide (p' = p)) as [->|Hne].
    + rewrite lookup_insert_eq. exists m'.
      assert (id' = id) as -> by (by eapply wq_byID_inj). split; [done|]. split; [done|].
      unfold located. rewrite Hpe.
      destruct (m_state m');
        [rewrite decide_True by done|rewrite decide_False by done..];
        rewrite ?lookup_delete_eq, ?lookup_insert_eq; (split; [|done]); by rewrite Hs.
    + rewrite lookup_insert_ne by done.
      destruct (wq_byID _ _ _ Hq _ _ Hp') as (m & Hm & Hmid & Hl).
      exists m. split; [done|]. split; [done|]. eapply located_iff, Hl; [by apply Hr|].
      assert (id' ≠ id) by congruence.
      rewrite Hpe. case_decide; [by rewrite lookup_delete_ne|by rewrite lookup_insert_ne].
  - intros id' p'. rewrite Hpe, Hb. case_decide.
    + intros [_ H']%lookup_delete_Some. by apply (wq_pending _ _ _ Hq).
    + intros [[<- <-]|[_ H']]%lookup_insert_Some; [done|]. by apply (wq_pending _ _ _ Hq).
  - intros p' Hin. rewrite Hb. destruct (decide (p' = p)) as [->|Hne].
    + rewrite lookup_insert_eq. exists m'. by rewrite Hid.
    + rewrite lookup_insert_ne by done. apply Hr in Hin; [|done].
      by apply (wq_ready _ _ _ Hq).
Qed.

Lemma wq_remove q' id p :
  q_byID q !! id = Some p → removed q q' id p →
  heap_ordered (seq_of st) (q_ready q') → wf_queue st n q'.
Proof.
  intros Hp [Hn _ _ Hb Hpe Hr Hnd] Hh. split; [by rewrite Hn; apply Hq| | | |done|done].
  - intros id' p'. rewrite Hb. intros [Hne Hp']%lookup_delete_Some.
    destruct (wq_byID _ _ _ Hq _ _ Hp') as (m & Hm & Hmid & Hl).
    exists m. split; [done|]. split; [done|].
    assert (p' ≠ p) by (intros ->; by eapply Hne, wq_byID_inj).
    eapply located_iff, Hl; [rewrite Hr; tauto|]. by rewrite Hpe, lookup_delete_ne.
  - intros id' p'. rewrite Hpe, Hb. intros [Hne H']%lookup_delete_Some.
    rewrite lookup_delete_ne by done. by apply (wq_pending _ _ _ Hq).
  - intros p' [Hin Hne]%Hr. destruct (wq_ready _ _ _ Hq _ Hin) as (m & Hm & Hb').
    exists m. split; [done|]. rewrite Hb, lookup_delete_ne; [done|].
    congruence.
Qed.

Lemma wq_insert q' id p m' :
  (∀ id', q_byID q !! id' ≠ Some p) → q_byID q !! id = None → m_ID m' = id →
  inserted q q' id p (m_state m') →
  heap_ordered (seq_of (<[p := m']> st)) (q_ready q') →
  wf_queue (<[p := m']> st) n q'.
Proof.
  intros Hp Hnone Hid [Hn _ _ Hb Hpe Hr Hnd] Hh.
  assert (p ∉ q_ready q) as Hpr.
  { intros (m & _ & Hm)%(wq_ready _ _ _ Hq). by eapply Hp. }
  assert (q_pending q !! id = None) as Hpn.
  { destruct (q_pending q !! id) eqn:He; [|done].
    apply (wq_pending _ _ _ Hq) in He. congruence. }
  split; [by rewrite Hn; apply Hq| | | |done|done].
  - intros id' p'. rewrite Hb. intros [[<- <-]|[Hne Hp']]%lookup_insert_Some.
    + rewrite lookup_insert_eq. exists m'. split; [done|]. split; [done|].
      unfold located. rewrite Hpe.
      destruct (m_state m');
        [rewrite decide_True by done|rewrite decide_False by done..];
        rewrite ?lookup_insert_eq; (split; [|done]); rewrite Hr; [by right|..];
        by intros [?|[_ ?]].
    + assert (p' ≠ p) by (intros ->; by eapply Hp).
      rewrite lookup_insert_ne by done.
      destruct (wq_byID _ _ _ Hq _ _ Hp') as (m & Hm & Hmid & Hl).
      exists m. split; [done|]. split; [done|].
      eapply located_iff, Hl; [rewrite Hr; tauto|].
      rewrite Hpe. case_decide; [done|by rewrite lookup_insert_ne].
  - intros id' p'. rewrite Hpe, Hb. case_decide; intros He.
    + apply (wq_pending _ _ _ Hq) in He. rewrite lookup_insert_ne; [done|]. congruence.
    + apply lookup_insert_Some in He as [[<- <-]|[? He]]; [by rewrite lookup_insert_eq|].
      rewrite lookup_insert_ne by done. by apply (wq_pending _ _ _ Hq).
  - intros p' [Hin|[-> _]]%Hr.
    + assert (p' ≠ p) by (intros ->; done).
      destruct (wq_ready _ _ _ Hq _ Hin) as (m & Hm & Hb').
      exists m. rewrite lookup_insert_ne by done. split; [done|].
      rewrite Hb, lookup_insert_ne; [done|]. congruence.
    + exists m'. rewrite lookup_insert_eq, Hid. split; [done|].
      by rewrite Hb, lookup_insert_eq.
Qed.
End queue_updates.

(** ** Updates of the core *)

(** The core after queue [n] became [q'], a message changed and the counter
    moved to [s]. *)
Definition k_upd (n : string) (q' : queueState) (s : Z) (st : store) (k : core) : core :=
  mkCore (<[n := q']> (k_queues k)) s st (k_chans k).

Section core_updates.
Context (k : core) (n : string) (q : queueState) (Hwf : wf k) (Hq : k_queues k !! n = Some q).

Lemma queue_present s : is_Some (as_queues (a_set_seq s (abs k)) !! n).
Proof. apply (abs_queues_is_Some k n). eauto. Qed.

(** The channel part of the invariant, when [q'] waits on the channel of [q]. *)
Lemma k_upd_wf q' s st :
  q_wake q' = q_wake q → wf_queue st n q' →
  (∀ n' q2, n' ≠ n → k_queues k !! n' = Some q2 → wf_queue st n' q2) →
  awf (abs (k_upd n q' s st k)) → wf (k_upd n q' s st k).
Proof.
  intros Hw Hq' Hothers Ha. split; simpl; [|done| |].
  - intros n' q2 [[<- <-]|[Hne H2]]%lookup_insert_Some; [done|]. eauto.
  - intros n' q2 [[<- <-]|[Hne H2]]%lookup_insert_Some.
    + rewrite Hw. by apply (wf_open _ Hwf n).
    + by apply (wf_open _ Hwf n').
  - intros n1 q1 n2 q2 [[<- <-]|[? H1]]%lookup_insert_Some
      [[<- <-]|[? H2]]%lookup_insert_Some; rewrite ?Hw; [done|..];
      by apply (wf_wake _ Hwf).
Qed.

(** Lookups of the other messages are not touched by a change of message [p]
    that only queue [n] holds. *)
Lemma k_upd_lookup q' s p m' n' id' :
  (∀ n2 q2 id2, n2 ≠ n → k_queues k !! n2 = Some q2 → q_byID q2 !! id2 ≠ Some p) →
  a_lookup (abs (k_upd n q' s (<[p := m']> (k_msgs k)) k)) n' id' =
  if decide (n' = n)
  then p' ← q_byID q' !! id'; abs_msg <$> <[p := m']> (k_msgs k) !! p'
  else a_lookup (abs k) n' id'.
Proof.
  intros Hno. rewrite !a_lookup_abs. simpl. rewrite lookup_insert.
  repeat case_decide; subst; try done.
  destruct (k_queues k !! n') as [q2|] eqn:H2; simpl; [|done].
  destruct (q_byID q2 !! id') as [p2|] eqn:Hp2; simpl; [|done].
  rewrite lookup_insert_ne; [done|]. intros ->. by eapply (Hno n' q2).
Qed.

Lemma k_upd_cfg q' s st n' :
  q_cfg q' = q_cfg q → a_cfg (abs (k_upd n q' s st k)) n' = a_cfg (abs k) n'.
Proof.
  intros Hc. rewrite !a_cfg_abs. simpl. rewrite lookup_insert.
  case_decide; [|done]. subst. rewrite Hq. simpl. by rewrite Hc.
Qed.

(** A message of queue [n] changes in place. *)
Lemma core_relocate id p m' q' s (B := a_put n id (abs_msg m') (a_set_seq s (abs k))) :
  q_byID q !! id = Some p → m_ID m' = id → relocated q q' id p (m_state m') →
  heap_ordered (seq_of (<[p := m']> (k_msgs k))) (q_ready q') → awf B →
  wf (k_upd n q' s (<[p := m']> (k_msgs k)) k) ∧
  abs (k_upd n q' s (<[p := m']> (k_msgs k)) k) = B.
Proof.
  intros Hp Hid Hre Hh HB.
  assert (abs (k_upd n q' s (<[p := m']> (k_msgs k)) k) = B) as Habs.
  { apply astate_eq; [done| |].
    - intros n'. rewrite k_upd_cfg by apply Hre. subst B. by rewrite a_cfg_put.
    - intros n' id'. rewrite k_upd_lookup.
      2: { intros n2 q2 id2 Hne H2 Hp2. destruct Hne. by eapply wf_owner_queue. }
      subst B. rewrite a_lookup_put by apply queue_present.
      destruct (decide (n' = n)) as [->|Hne];
        [|rewrite decide_False by (intros [? _]; done); done].
      rewrite (re_byID _ _ _ _ _ Hre).
      destruct (decide (id' = id)) as [->|Hid'].
      + rewrite decide_True, Hp by done. simpl. by rewrite lookup_insert_eq.
      + rewrite decide_False, a_lookup_set_seq, a_lookup_abs, Hq by (intros [_ ?]; done). simpl.
        destruct (q_byID q !! id') as [p'|] eqn:Hp'; simpl; [|done].
        rewrite lookup_insert_ne; [done|]. intros ->. destruct Hid'.
        by eapply wq_byID_inj; [apply (wf_queues _ Hwf)|..]. }
  split; [|done]. apply k_upd_wf; [by apply Hre| | |by rewrite Habs].
  - eapply wq_relocate; eauto using wf_queues.
  - intros n' q2 Hne H2. eapply wq_frame; [by apply (wf_queues _ Hwf)|].
    intros id2 p2 Hp2. rewrite lookup_insert_ne; [done|]. intros <-.
    destruct Hne. by eapply wf_owner_queue.
Qed.

(** A message of queue [n] goes away; the counter may move. *)
Lemma core_remove id p q' s (B := a_set_seq s (a_del n id (abs k))) :
  q_byID q !! id = Some p → removed q q' id p →
  heap_ordered (seq_of (k_msgs k)) (q_ready q') → awf B →
  wf (k_upd n q' s (k_msgs k) k) ∧ abs (k_upd n q' s (k_msgs k) k) = B.
Proof.
  intros Hp Hrm Hh HB.
  assert (abs (k_upd n q' s (k_msgs k) k) = B) as Habs.
  { apply astate_eq; [done| |].
    - intros n'. rewrite k_upd_cfg by apply Hrm. subst B. by rewrite <-(a_cfg_del n id).
    - intros n' id'. subst B. rewrite a_lookup_set_seq, a_lookup_del, !a_lookup_abs. simpl.
      rewrite lookup_insert. destruct (decide (n = n')) as [<-|Hne].
      + simpl. rewrite (rm_byID _ _ _ _ Hrm), Hq, lookup_delete. simpl.
        repeat case_decide; destruct_and?; subst; try done; exfalso; auto.
      + rewrite (decide_False (P := n' = n ∧ id' = id)) by (intros [-> _]; done). done. }
  split; [|done]. apply k_upd_wf; [by apply Hrm| | |by rewrite Habs].
  - eapply wq_remove; eauto using wf_queues.
  - intros n' q2 _ H2. by apply (wf_queues _ Hwf).
Qed.

(** A message that no queue holds comes to queue [n]. *)
Lemma core_insert id p m' q' s (B := a_put n id (abs_msg m') (a_set_seq s (abs k))) :
  (∀ n2 q2 id2, k_queues k !! n2 = Some q2 → q_byID q2 !! id2 ≠ Some p) →
  q_byID q !! id = None → m_ID m' = id → inserted q q' id p (m_state m') →
  heap_ordered (seq_of (<[p := m']> (k_msgs k))) (q_ready q') → awf B →
  wf (k_upd n q' s (<[p := m']> (k_msgs k)) k) ∧
  abs (k_upd n q' s (<[p := m']> (k_msgs k)) k) = B.
Proof.
  intros Hno Hnone Hid Hin Hh HB.
  assert (abs (k_upd n q' s (<[p := m']> (k_msgs k)) k) = B) as Habs.
  { apply astate_eq; [done| |].
    - intros n'. rewrite k_upd_cfg by apply Hin. subst B. by rewrite a_cfg_put.
    - intros n' id'. rewrite k_upd_lookup by eauto.
      subst B. rewrite a_lookup_put by apply queue_present.
      destruct (decide (n' = n)) as [->|Hne];
        [|rewrite decide_False by (intros [? _]; done); done].
      rewrite (in_byID _ _ _ _ _ Hin), lookup_insert.
      destruct (decide (id = id')) as [<-|Hid'].
      + rewrite decide_True by done. simpl. by rewrite lookup_insert_eq.
      + rewrite decide_False, a_lookup_set_seq, a_lookup_abs, Hq
          by (intros [_ ->]; done). simpl.
        destruct (q_byID q !! id') as [p'|] eqn:Hp'; simpl; [|done].
        rewrite lookup_insert_ne; [done|]. intros ->. by eapply Hno. }
  split; [|done]. apply k_upd_wf; [by apply Hin| | |by rewrite Habs].
  - eapply wq_insert; eauto using wf_queues.
  - intros n' q2 Hne H2. eapply wq_frame; [by apply (wf_queues _ Hwf)|].
    intros id2 p2 Hp2. rewrite lookup_insert_ne; [done|]. intros <-. by eapply Hno.
Qed.
End core_updates.

(** ** Counter, channels, and the set of queues *)

Lemma core_set_seq k s :
  wf k → awf (a_set_seq s (abs k)) →
  wf (k_set_seq s k) ∧ abs (k_set_seq s k) = a_set_seq s (abs k).
Proof. intros [Hq Ha Ho Hw] Hs. split; [|done]. split; [apply Hq|done|apply Ho|apply Hw]. Qed.

Lemma fresh_chan (cs : gmap positive bool) c b : cs !! c = Some b → fresh (dom cs) ≠ c.
Proof.
  intros Hc He. apply (is_fresh (dom cs)). rewrite He. apply elem_of_dom. eauto.
Qed.

Lemma abs_same_queues k k' :
  k_seq k' = k_seq k → k_msgs k' = k_msgs k →
  (∀ n, abs_queue (k_msgs k) <$> k_queues k' !! n = abs_queue (k_msgs k) <$> k_queues k !! n) →
  abs k' = abs k.
Proof.
  intros Hs Hm Hq. unfold abs. rewrite Hs, Hm. f_equal. apply map_eq. intros n.
  by rewrite !lookup_fmap.
Qed.

(** A queue gets a new wake-up channel. *)
Definition k_rewake (n : string) (q : queueState) (k : core) : core :=
  let cs := <[q_wake q := true]> (k_chans k) in
  let c := fresh (dom cs) in
  mkCore (<[n := q_set_wake c q]> (k_queues k)) (k_seq k) (k_msgs k) (<[c := false]> cs).

Lemma core_rewake k n q :
  wf k → k_queues k !! n = Some q → wf (k_rewake n q k) ∧ abs (k_rewake n q k) = abs k.
Proof.
  intros Hwf Hq.
  set (cs := <[q_wake q := true]> (k_chans k)). set (c := fresh (dom cs)).
  assert (abs (k_rewake n q k) = abs k) as Habs.
  { apply abs_same_queues; [done..|]. intros n'. simpl. rewrite lookup_insert.
    case_decide; [|done]. subst. by rewrite Hq. }
  assert (∀ n' q', n' ≠ n → k_queues k !! n' = Some q' → cs !! q_wake q' = Some false) as Hcs.
  { intros n' q' Hne Hq'. unfold cs. rewrite lookup_insert_ne; [by apply (wf_open _ Hwf n')|].
    intros He. destruct Hne. symmetry. by eapply (wf_wake _ Hwf). }
  assert (∀ n' q', n' ≠ n → k_queues k !! n' = Some q' → c ≠ q_wake q') as Hc.
  { intros n' q' Hne Hq'. eapply fresh_chan. by eapply Hcs. }
  split; [|done]. unfold k_rewake. fold cs c. split; simpl.
  - intros n' q' [[<- <-]|[Hne Hq']]%lookup_insert_Some; [|by apply (wf_queues _ Hwf)].
    destruct (wf_queues _ Hwf _ _ Hq). by split.
  - change (awf (abs (k_rewake n q k))). rewrite Habs. apply Hwf.
  - intros n' q' [[<- <-]|[Hne Hq']]%lookup_insert_Some; [by rewrite lookup_insert_eq|].
    rewrite lookup_insert_ne by eauto. eauto.
  - intros n1 q1 n2 q2 [[<- <-]|[? H1]]%lookup_insert_Some
      [[<- <-]|[? H2]]%lookup_insert_Some; simpl; intros He; [done| | |].
    + by destruct (Hc n2 q2).
    + by destruct (Hc n1 q1).
    + by eapply (wf_wake _ Hwf).
Qed.

(** A queue is created. *)
Definition k_add_queue (n : string) (cfg : Config) (k : core) : core :=
  let c := fresh (dom (k_chans k)) in
  mkCore (<[n := newQueueState n cfg c]> (k_queues k)) (k_seq k) (k_msgs k)
    (<[c := false]> (k_chans k)).

Lemma wq_new st n cfg c : wf_queue st n (newQueueState n cfg c).
Proof.
  split; simpl; [done| | | |constructor|by intros i Hi; simpl in Hi; lia].
  - intros *. by rewrite lookup_empty.
  - intros *. by rewrite lookup_empty.
  - intros p Hp. by apply not_elem_of_nil in Hp.
Qed.

Lemma core_add_queue k n cfg :
  wf k → k_queues k !! n = None → awf (a_create n cfg (abs k)) →
  wf (k_add_queue n cfg k) ∧ abs (k_add_queue n cfg k) = a_create n cfg (abs k).
Proof.
  intros Hwf Hn HA. set (c := fresh (dom (k_chans k))).
  assert (abs (k_add_queue n cfg k) = a_create n cfg (abs k)) as Habs.
  { apply astate_eq; [done| |].
    - intros n'. rewrite a_cfg_create, !a_cfg_abs. simpl. rewrite lookup_insert.
      repeat case_decide; subst; done.
    - intros n' id. rewrite a_lookup_create, !a_lookup_abs. simpl. rewrite lookup_insert.
      case_decide; subst; [|done]. simpl. by rewrite lookup_empty, Hn. }
  assert (∀ n' q', k_queues k !! n' = Some q' → c ≠ q_wake q') as Hc.
  { intros n' q' Hq'. eapply fresh_chan. by apply (wf_open _ Hwf n'). }
  split; [|done]. split; simpl.
  - intros n' q' [[<- <-]|[Hne Hq']]%lookup_insert_Some; [apply wq_new|].
    by apply (wf_queues _ Hwf).
  - change (awf (abs (k_add_queue n cfg k))). by rewrite Habs.
  - intros n' q' [[<- <-]|[Hne Hq']]%lookup_insert_Some; [by rewrite lookup_insert_eq|].
    fold c. rewrite lookup_insert_ne by eauto. by apply (wf_open _ Hwf n').
  - fold c. intros n1 q1 n2 q2 [[<- <-]|[? H1]]%lookup_insert_Some
      [[<- <-]|[? H2]]%lookup_insert_Some; simpl; intros He; [done| | |].
    + by destruct (Hc n2 q2).
    + by destruct (Hc n1 q1).
    + by eapply (wf_wake _ Hwf).
Qed.

(** A queue is reconfigured. *)
Lemma core_set_cfg k n q cfg (k' := k_set_queues (<[n := q_set_cfg cfg q]> (k_queues k)) k) :
  wf k → k_queues k !! n = Some q → awf (a_create n cfg (abs k)) →
  wf k' ∧ abs k' = a_create n cfg (abs k).
Proof.
  intros Hwf Hq HA.
  assert (abs k' = a_create n cfg (abs k)) as Habs.
  { apply astate_eq; [done| |].
    - intros n'. rewrite a_cfg_create, !a_cfg_abs. simpl. rewrite lookup_insert.
      repeat case_decide; subst; done.
    - intros n' id. rewrite a_lookup_create, !a_lookup_abs. simpl. rewrite lookup_insert.
      case_decide; subst; [|done]. by rewrite Hq. }
  split; [|done]. split; [|by rewrite Habs| |]; simpl.
  - intros n' q' [[<- <-]|[Hne Hq']]%lookup_insert_Some; [|by apply (wf_queues _ Hwf)].
    destruct (wf_queues _ Hwf _ _ Hq). by split.
  - intros n' q' [[<- <-]|[Hne Hq']]%lookup_insert_Some; [|by apply (wf_open _ Hwf n')].
    exact (wf_open _ Hwf n q Hq).
  - intros n1 q1 n2 q2 [[<- <-]|[? H1]]%lookup_insert_Some
      [[<- <-]|[? H2]]%lookup_insert_Some; simpl; [done|..];
      [apply (wf_wake _ Hwf n q n2 q2 Hq H2)|apply (wf_wake _ Hwf n1 q1 n q H1 Hq)|by apply (wf_wake _ Hwf)].
Qed.

(** A queue is deleted; the channels of the others stay open. *)
Lemma core_delete k n cs (k' := mkCore (delete n (k_queues k)) (k_seq k) (k_msgs k) cs) :
  wf k → (∀ n' q', n' ≠ n → k_queues k !! n' = Some q' → cs !! q_wake q' = Some false) →
  awf (a_delete n (abs k)) → wf k' ∧ abs k' = a_delete n (abs k).
Proof.
  intros Hwf Hcs HA.
  assert (abs k' = a_delete n (abs k)) as Habs.
  { apply astate_eq; [done| |].
    - intros n'. rewrite a_cfg_delete, !a_cfg_abs. simpl. rewrite lookup_delete.
      repeat case_decide; subst; done.
    - intros n' id. rewrite a_lookup_delete, !a_lookup_abs. simpl. rewrite lookup_delete.
      repeat case_decide; subst; done. }
  split; [|done]. split; [|by rewrite Habs| |]; simpl.
  - intros n' q' [Hne Hq']%lookup_delete_Some. by apply (wf_queues _ Hwf).
  - intros n' q' [Hne Hq']%lookup_delete_Some. by apply (Hcs n').
  - intros n1 q1 n2 q2 [_ H1]%lookup_delete_Some [_ H2]%lookup_delete_Some.
    by apply (wf_wake _ Hwf).
Qed.
