(* ===== verification/Refine.v ===== *)
(** Refinement, first part: what the building blocks of the engine do to the
    core and to the log, and the relation [evolves] between two worlds that every
    operation is shown to establish: a sequence of steps of the abstract machine
    whose records are exactly what was appended. *)

From S2P Require Import Prelude GoHeap Ids WalRecord Config Message Engine Spec Invariant.
From stdpp Require Import fin_maps.

Local Open Scope Z_scope.

(** What the log promises to the engine: the records it holds, in order; an
    append that succeeds adds its record, one that fails adds nothing. *)
Class LogLaws (L : Type) `{Appender L} := {
  committed : L → list WRecord;
  Append_ok r l l' : Append r l = (None, l') → committed l' = committed l ++ [r];
  Append_err r l l' e : Append r l = (Some e, l') → committed l' = committed l;
}.

Section refine.
Context {L : Type} `{!Appender L} `{!LogLaws L} `{!ConfigJSON}.
Implicit Types w : world L.
Implicit Types k : core.

(** ** Worlds that differ in the log and the clock only *)

(** What an engine does with its log: a record that it gives to Append, and the
    error that Append returns for it, if any. *)
Definition attempt : Type := WRecord * option error.

Inductive attempts : L → list attempt → L → Prop :=
  | attempts_nil l : attempts l [] l
  | attempts_cons r err l l1 ats l2 :
      Append r l = (err, l1) → attempts l1 ats l2 → attempts l ((r, err) :: ats) l2.

(** The records whose Append succeeded. *)
Definition succeeded (ats : list attempt) : list WRecord :=
  omap (λ a, match a.2 with None => Some a.1 | Some _ => None end) ats.

Lemma attempts_app l1 ats1 l2 ats2 l3 :
  attempts l1 ats1 l2 → attempts l2 ats2 l3 → attempts l1 (ats1 ++ ats2) l3.
Proof. induction 1; simpl; [done|]. intros. econstructor; eauto. Qed.

Lemma attempts_committed l ats l' :
  attempts l ats l' → committed l' = committed l ++ succeeded ats.
Proof.
  induction 1 as [l|r err l l1 ats l2 Ha _ IH]; [by rewrite app_nil_r|].
  rewrite IH. unfold succeeded. destruct err as [e|]; cbn; fold (succeeded ats).
  - by rewrite (Append_err _ _ _ _ Ha).
  - by rewrite (Append_ok _ _ _ Ha), <-app_assoc.
Qed.

(** The engine leads the log from [o] to [o'] with its calls of Append, of which those
    for [rs], in this order, and no others succeed. *)
Definition logged (o : option L) (rs : list WRecord) (o' : option L) : Prop :=
  match o, o' with
  | None, None => True
  | Some l, Some l' => ∃ ats, attempts l ats l' ∧ succeeded ats = rs
  | _, _ => False
  end.

Lemma logged_committed l rs l' :
  logged (Some l) rs (Some l') → committed l' = committed l ++ rs.
Proof. intros (ats & Ha & <-). by apply attempts_committed. Qed.

Lemma logged_nil o : logged o [] o.
Proof. destruct o; simpl; [|done]. exists []. by split; [constructor|]. Qed.

Lemma logged_app o1 rs1 o2 rs2 o3 :
  logged o1 rs1 o2 → logged o2 rs2 o3 → logged o1 (rs1 ++ rs2) o3.
Proof.
  destruct o1, o2, o3; simpl; try done. intros (ats1 & H1 & <-) (ats2 & H2 & <-).
  exists (ats1 ++ ats2). split; [by eapply attempts_app|apply omap_app].
Qed.

Record grows w (rs : list WRecord) w' : Prop := {
  gr_core : w_core w' = w_core w;
  gr_env : w_env w' = w_env w;
  gr_tick : (w_tick w ≤ w_tick w')%nat;
  gr_log : logged (w_log w) rs (w_log w');
}.

Lemma grows_refl w : grows w [] w.
Proof. split; [done..|apply logged_nil]. Qed.

Lemma grows_trans w1 rs1 w2 rs2 w3 :
  grows w1 rs1 w2 → grows w2 rs2 w3 → grows w1 (rs1 ++ rs2) w3.
Proof.
  intros [] []. split; [congruence..|lia|by eapply logged_app].
Qed.

Definition with_core w k : world L :=
  mkWorld (w_env w) (w_tick w) (w_rng w) (w_log w) k.

(** ** Worlds related by steps of the abstract machine *)

Record evolves w (ls : list label) w' : Prop := {
  ev_wf : wf (w_core w');
  ev_steps : asteps (abs (w_core w)) ls (abs (w_core w'));
  ev_env : w_env w' = w_env w;
  ev_tick : (w_tick w ≤ w_tick w')%nat;
  ev_log : logged (w_log w) (records ls) (w_log w');
}.

Lemma evolves_refl w : wf (w_core w) → evolves w [] w.
Proof. intros. split; [done|constructor|done..|apply logged_nil]. Qed.

Lemma evolves_trans w1 ls1 w2 ls2 w3 :
  evolves w1 ls1 w2 → evolves w2 ls2 w3 → evolves w1 (ls1 ++ ls2) w3.
Proof.
  intros [] []. split; [done|by eapply asteps_app|congruence|lia|].
  rewrite records_app. by eapply logged_app.
Qed.

Lemma evolves_grows w w' : wf (w_core w) → grows w [] w' → evolves w [] w'.
Proof. intros Hwf [Hc ? ? ?]. split; [by rewrite Hc|rewrite Hc; constructor|done..]. Qed.

Lemma evolves_step w w1 l k' :
  grows w (label_records l) w1 → wf k' → astep (abs (w_core w)) l (abs k') →
  evolves w [l] (with_core w1 k').
Proof.
  intros [Hc ? ? ?] Hwf Hst. split; simpl; [done|by apply asteps_one|done..|].
  unfold records. simpl. by rewrite app_nil_r.
Qed.

(** A change of the core that the abstraction does not see. *)
Lemma evolves_core w k' : wf k' → abs k' = abs (w_core w) → evolves w [] (with_core w k').
Proof.
  intros Hwf Ha. split; simpl; [done|rewrite Ha; constructor|done..|apply logged_nil].
Qed.

Lemma evolves_nil_r w1 ls w2 w3 : evolves w1 ls w2 → evolves w2 [] w3 → evolves w1 ls w3.
Proof. intros H1 H2. rewrite <-(app_nil_r ls). by eapply evolves_trans. Qed.

Lemma evolves_cons w1 l w2 ls w3 :
  evolves w1 [l] w2 → evolves w2 ls w3 → evolves w1 (l :: ls) w3.
Proof. intros H1 H2. change (l :: ls) with ([l] ++ ls). by eapply evolves_trans. Qed.

Lemma grows_evolves w w1 ls w2 : grows w [] w1 → evolves w1 ls w2 → evolves w ls w2.
Proof.
  intros [Hc ? ? ?] []. split; [done|by rewrite <-Hc|congruence|lia|].
  by eapply (logged_app _ []).
Qed.

(** ** Appends that failed *)

(** Among the calls of Append that lead from [w] to [w'], the one for the record of
    the step [l] returned the error [e]. *)
Definition append_failed w (l : label) (e : error) w' : Prop :=
  ∃ l0 l1 ats r, w_log w = Some l0 ∧ w_log w' = Some l1 ∧ attempts l0 ats l1 ∧
    label_records l = [r] ∧ (r, Some e) ∈ ats.

Lemma failed_before w rs w1 l e w' :
  logged (w_log w) rs (w_log w1) → append_failed w1 l e w' → append_failed w l e w'.
Proof.
  intros Hlog (l0 & l1 & ats & r & H0 & H1 & Ha & Hr & Hin).
  rewrite H0 in Hlog. destruct (w_log w) as [l2|] eqn:Hw; [|done]. destruct Hlog as (ats0 & Ha0 & _).
  exists l2, l1, (ats0 ++ ats), r. split_and!; [done..| |done|by apply elem_of_app; right].
  by eapply attempts_app.
Qed.

Lemma failed_after w l e w1 rs w' :
  append_failed w l e w1 → logged (w_log w1) rs (w_log w') → append_failed w l e w'.
Proof.
  intros (l0 & l1 & ats & r & H0 & H1 & Ha & Hr & Hin) Hlog.
  rewrite H1 in Hlog. destruct (w_log w') as [l2|] eqn:Hw; [|done]. destruct Hlog as (ats2 & Ha2 & _).
  exists l0, l2, (ats ++ ats2), r. split_and!; [done..| |done|by apply elem_of_app; left].
  by eapply attempts_app.
Qed.

(** ** The primitives *)

(** The next reading of the clock. *)
Definition clock w : Z := env_now (w_env w) (w_tick w).

Lemma wp_now (Q : Z → world L → Prop) w :
  (∀ w', grows w [] w' → w_tick w' = S (w_tick w) → Q (env_now (w_env w) (w_tick w)) w') →
  wp now Q w.
Proof.
  intros HQ. apply HQ; [|done]. split; simpl; [done|done|lia|apply logged_nil].
Qed.

Lemma wp_range_order {A} (m : gmap string A) (Q : list string → world L → Prop) w :
  (∀ w', grows w [] w' → Q (range_keys (env_range (w_env w) (w_rng w)) m) w') →
  wp (range_order m) Q w.
Proof. intros HQ. apply HQ. split; simpl; [done|done|lia|apply logged_nil]. Qed.

Lemma wp_append r (Q : option error → world L → Prop) w :
  (∀ w', grows w [r] w' → Q None w') →
  (∀ e w', grows w [] w' → (∀ l, label_records l = [r] → append_failed w l e w') → Q (Some e) w') →
  wp (append r) Q w.
Proof.
  intros Hok Herr. unfold wp, append. destruct (w_log w) as [l|] eqn:Hl.
  - destruct (Append r l) as [[e|] l'] eqn:Ha.
    + assert (attempts l [(r, Some e)] l') as Hat by (repeat econstructor; exact Ha).
      apply Herr; [split; simpl; [done..|]; rewrite Hl; by exists [(r, Some e)]|].
      intros la Hla. exists l, l', [(r, Some e)], r. split_and!; try done. by left.
    + apply Hok. split; simpl; [done..|]. rewrite Hl. exists [(r, None)].
      split; [|done]. by repeat econstructor.
  - apply Hok. split; [done..|]. by rewrite Hl.
Qed.

Lemma wp_get_core (Q : core → world L → Prop) w : Q (w_core w) w → wp get_core Q w.
Proof. done. Qed.

Lemma wp_put_core k (Q : () → world L → Prop) w : Q () (with_core w k) → wp (put_core k) Q w.
Proof. done. Qed.

Lemma wp_lookup_queue n (Q : option queueState → world L → Prop) w :
  Q (k_queues (w_core w) !! n) w → wp (lookup_queue n) Q w.
Proof. done. Qed.

Lemma wp_deref_queue n q (Q : queueState → world L → Prop) w :
  k_queues (w_core w) !! n = Some q → Q q w → wp (deref_queue n) Q w.
Proof.
  intros Hq HQ. unfold deref_queue. apply wp_bind, wp_get_core. by eapply wp_opt.
Qed.

Lemma wp_put_queue n q (Q : () → world L → Prop) w :
  Q () (with_core w (k_upd n q (k_seq (w_core w)) (k_msgs (w_core w)) (w_core w))) →
  wp (put_queue n q) Q w.
Proof. done. Qed.

Lemma wp_load p m (Q : message → world L → Prop) w :
  k_msgs (w_core w) !! p = Some m → Q m w → wp (load p) Q w.
Proof. intros Hm HQ. unfold load. apply wp_bind, wp_get_core. by eapply wp_opt. Qed.

Lemma wp_save p m (Q : () → world L → Prop) w :
  Q () (with_core w (k_set_msgs (<[p := m]> (k_msgs (w_core w))) (w_core w))) →
  wp (save p m) Q w.
Proof. done. Qed.

Lemma wp_incr_seq (Q : Z → world L → Prop) w :
  Q (u64 (k_seq (w_core w) + 1))
    (with_core w (k_set_seq (u64 (k_seq (w_core w) + 1)) (w_core w))) →
  wp incr_seq Q w.
Proof. done. Qed.

Lemma wp_make_chan (Q : positive → world L → Prop) w c :
  c = fresh (dom (k_chans (w_core w))) →
  Q c (with_core w (k_set_chans (<[c := false]> (k_chans (w_core w))) (w_core w))) →
  wp make_chan Q w.
Proof. intros ->. done. Qed.

Lemma wp_close_chan c (Q : () → world L → Prop) w :
  k_chans (w_core w) !! c = Some false →
  Q () (with_core w (k_set_chans (<[c := true]> (k_chans (w_core w))) (w_core w))) →
  wp (close_chan c) Q w.
Proof.
  intros Hc HQ. unfold close_chan. apply wp_bind, wp_get_core. rewrite Hc. by apply wp_put_core.
Qed.

Lemma wp_add_queue n cfg (Q : () → world L → Prop) w :
  Q () (with_core w (k_add_queue n cfg (w_core w))) → wp (add_queue n cfg) Q w.
Proof. done. Qed.

Lemma wp_broadcast n q (Q : () → world L → Prop) w :
  wf (w_core w) → k_queues (w_core w) !! n = Some q →
  Q () (with_core w (k_rewake n q (w_core w))) → wp (broadcast n) Q w.
Proof.
  intros Hwf Hq HQ. unfold broadcast. apply wp_bind. eapply wp_deref_queue; [done|].
  apply wp_bind, wp_close_chan; [by eapply wf_open|]. done.
Qed.

(** ** The ready heap *)

Lemma less_on_present st h :
  (∀ p, p ∈ h → is_Some (st !! p)) → less_on (readyLess st) (seq_of st) h.
Proof.
  intros Hin a b Ha Hb. destruct (Hin a Ha) as [ma Hma]. destruct (Hin b Hb) as [mb Hmb].
  unfold readyLess, seq_of. by rewrite Hma, Hmb.
Qed.

Lemma heap_ordered_insert st p m' h :
  p ∉ h → heap_ordered (seq_of st) h → heap_ordered (seq_of (<[p := m']> st)) h.
Proof.
  intros Hp. apply heap_ordered_ext. intros p' Hp'. unfold seq_of.
  rewrite lookup_insert_ne; [done|]. by intros <-.
Qed.

Lemma wp_pushReady n p m q (Q : () → world L → Prop) w :
  k_msgs (w_core w) !! p = Some m → k_queues (w_core w) !! n = Some q →
  p ∉ q_ready q → (∀ p', p' ∈ q_ready q → is_Some (k_msgs (w_core w) !! p')) →
  heap_ordered (seq_of (k_msgs (w_core w))) (q_ready q) →
  (∀ h, h ≡ₚ p :: q_ready q →
     heap_ordered (seq_of (<[p := m_to_ready m]> (k_msgs (w_core w)))) h →
     Q () (with_core w (k_upd n (q_set_ready h q) (k_seq (w_core w))
                         (<[p := m_to_ready m]> (k_msgs (w_core w))) (w_core w)))) →
  wp (pushReady n p) Q w.
Proof.
  intros Hm Hq Hp Hpres Hh HQ. unfold pushReady.
  apply wp_bind. eapply wp_load; [done|]. apply wp_bind, wp_save.
  apply wp_bind. eapply wp_deref_queue; [done|]. apply wp_bind, wp_get_core. simpl.
  set (st' := <[p := m_to_ready m]> (k_msgs (w_core w))).
  destruct (heap_Push_ok (readyLess st') (seq_of st') (q_ready q) p) as (h & Hpush & Hperm & Ho).
  - apply less_on_present. intros p' Hp'. unfold st'. destruct (decide (p' = p)) as [->|Hne].
    + rewrite lookup_insert_eq. eauto.
    + rewrite lookup_insert_ne by done. apply elem_of_cons in Hp' as [?|?]; [done|auto].
  - by apply heap_ordered_insert.
  - apply wp_bind. eapply wp_opt; [exact Hpush|]. apply wp_put_queue. by apply HQ.
Qed.

Lemma wp_popReady n q (Q : ptr → world L → Prop) w :
  wf_queue (k_msgs (w_core w)) n q → k_queues (w_core w) !! n = Some q → q_ready q ≠ [] →
  (∀ p h, q_ready q ≡ₚ p :: h → heap_ordered (seq_of (k_msgs (w_core w))) h →
     (∀ p', p' ∈ q_ready q →
        seq_of (k_msgs (w_core w)) p ≤ seq_of (k_msgs (w_core w)) p') →
     Q p (with_core w (k_upd n (q_set_ready h q) (k_seq (w_core w))
                        (k_msgs (w_core w)) (w_core w)))) →
  wp (popReady n) Q w.
Proof.
  intros Hwq Hq Hne HQ. unfold popReady.
  apply wp_bind. eapply wp_deref_queue; [done|]. apply wp_bind, wp_get_core.
  destruct (heap_Pop_ok (readyLess (k_msgs (w_core w))) (seq_of (k_msgs (w_core w))) (q_ready q))
    as (p & h & Hpop & Hperm & Ho & Hmin); [by eapply wq_less|by eapply wq_heap|done|].
  apply wp_bind. eapply wp_opt; [exact Hpop|]. apply wp_bind, wp_put_queue, wp_ret. by apply HQ.
Qed.

Lemma k_upd_upd n q1 s1 st1 q2 s2 st2 k :
  k_upd n q2 s2 st2 (k_upd n q1 s1 st1 k) = k_upd n q2 s2 st2 k.
Proof. unfold k_upd. simpl. by rewrite insert_insert_eq. Qed.

(** A message that no queue holds arrives, ready, in queue [to]. *)
Lemma wp_arrive to p m (Q : () → world L → Prop) w :
  wf (w_core w) → is_Some (k_queues (w_core w) !! to) →
  (∀ n2 q2 id2, k_queues (w_core w) !! n2 = Some q2 → q_byID q2 !! id2 ≠ Some p) →
  a_lookup (abs (w_core w)) to (m_ID m) = None →
  awf (a_put to (m_ID m) (abs_msg (m_to_ready m)) (abs (w_core w))) →
  (∀ k', wf k' → abs k' = a_put to (m_ID m) (abs_msg (m_to_ready m)) (abs (w_core w)) →
     (∀ n, n ≠ to → k_queues k' !! n = k_queues (w_core w) !! n) →
     Q () (with_core w k')) →
  wp (arrive to p m) Q w.
Proof.
  intros Hwf [q Hq] Hno Hfresh HA HQ. unfold arrive.
  pose proof (wf_queues _ Hwf _ _ Hq) as Hwq.
  assert (p ∉ q_ready q) as Hp.
  { intros (m0 & _ & Hm0)%(wq_ready _ _ _ Hwq). by eapply Hno. }
  assert (q_byID q !! m_ID m = None) as Hid.
  { destruct (q_byID q !! m_ID m) as [p'|] eqn:He; [|done].
    destruct (wf_lookup _ _ _ _ _ Hwf Hq He) as (? & _ & _ & _ & Hl). congruence. }
  apply wp_bind, wp_save. apply wp_bind. eapply wp_deref_queue; [done|].
  apply wp_bind, wp_put_queue. eapply wp_pushReady.
  - simpl. by rewrite lookup_insert_eq.
  - simpl. by rewrite lookup_insert_eq.
  - done.
  - simpl. intros p' Hp'. destruct (wq_ready _ _ _ Hwq _ Hp') as (m' & Hm' & _).
    rewrite lookup_insert_ne; [eauto|]. by intros <-.
  - simpl. apply heap_ordered_insert; [done|by apply Hwq].
  - simpl. intros h Hperm Ho. rewrite insert_insert_eq in *.
    assert (∀ k', k' = k_upd to (q_set_ready h (q_set_byID (<[m_ID m := p]> (q_byID q)) q))
              (k_seq (w_core w)) (<[p := m_to_ready m]> (k_msgs (w_core w))) (w_core w) →
            (wf k' ∧ abs k' = a_put to (m_ID m) (abs_msg (m_to_ready m)) (abs (w_core w))) ∧
            (∀ n, n ≠ to → k_queues k' !! n = k_queues (w_core w) !! n))
      as Hk.
    { intros k' ->. split; [|intros n Hn; simpl; by rewrite lookup_insert_ne].
      rewrite (a_put_seq to (m_ID m)) in HA |- *.
      apply (core_insert _ _ q); try done.
      split; simpl; try done.
      - intros p'. rewrite Hperm, elem_of_cons. tauto.
      - rewrite Hperm. apply NoDup_cons. split; [done|apply Hwq]. }
    match goal with |- Q _ (with_core _ ?k') => destruct (Hk k') as [[Hk1 Hk2] Hk3] end.
    { unfold k_upd. simpl. by rewrite insert_insert_eq. }
    by apply (HQ _ Hk1 Hk2 Hk3).
Qed.
End refine.
