(* ===== verification/RefineTime.v ===== *)
(** Refinement, second part: the time-based transitions (deadLetter and
    sweepQueue of internal/queue/engine.go).  A sweep is a sequence of settle,
    dead-letter and create steps, and when it is over every message of the queue
    that is still waiting either is not due or is an exhausted lease whose
    dead-letter record could not be written. *)

From S2P Require Import Prelude GoHeap Ids WalRecord Config Message Engine Spec Invariant.
From S2P Require Import Refine.
From stdpp Require Import fin_maps.

Local Open Scope Z_scope.

(** ** Steps of a sweep *)

Definition is_sweep (n : string) (at_ : Z) (l : label) : Prop :=
  match l with
  | LCreate _ c _ => c = DefaultConfig
  | LDead n' _ _ _ => n' = n
  | LSettle n' _ at' => n' = n ∧ at' = at_
  | _ => False
  end.

(** No queue that exists is reconfigured. *)
Definition cfg_kept (A B : astate) : Prop :=
  ∀ n c, a_cfg A n = Some c → a_cfg B n = Some c.

Lemma cfg_kept_refl A : cfg_kept A A.
Proof. by intros n c. Qed.

Lemma cfg_kept_trans A B C : cfg_kept A B → cfg_kept B C → cfg_kept A C.
Proof. unfold cfg_kept. auto. Qed.

Lemma a_cfg_set_seq s A n : a_cfg (a_set_seq s A) n = a_cfg A n.
Proof. done. Qed.

Lemma a_set_seq_same s A : s = as_seq A → a_set_seq s A = A.
Proof. intros ->. by destruct A. Qed.

Lemma a_cfg_is_Some A n : is_Some (a_cfg A n) ↔ is_Some (as_queues A !! n).
Proof. unfold a_cfg. apply fmap_is_Some. Qed.

(** Messages wait (delayed or leased) where they waited before. *)
Definition waiting_kept (A B : astate) : Prop :=
  ∀ n id m, a_lookup B n id = Some m → a_Status m ≠ AReady → a_lookup A n id = Some m.

Lemma waiting_kept_refl A : waiting_kept A A.
Proof. by intros n id m. Qed.

Lemma waiting_kept_trans A B C : waiting_kept A B → waiting_kept B C → waiting_kept A C.
Proof. unfold waiting_kept. auto. Qed.

Lemma astep_sweep_waiting A l B n at_ :
  astep A l B → is_sweep n at_ l → waiting_kept A B.
Proof.
  intros Hst Hl n' id' m'. destruct Hst; simpl in Hl; try done.
  - by rewrite a_lookup_create.
  - rewrite a_lookup_del. by case_decide.
  - rewrite a_lookup_put by (by apply as_queues_is_Some_del). case_decide.
    + by intros [= <-] [].
    + rewrite a_lookup_set_seq, a_lookup_del. by case_decide.
  - rewrite a_lookup_put by eauto using a_lookup_is_Some. case_decide; [|done].
    by intros [= <-] [].
Qed.

Lemma asteps_sweep_waiting A ls B n at_ :
  asteps A ls B → Forall (is_sweep n at_) ls → waiting_kept A B.
Proof.
  induction 1; intros Hls; [apply waiting_kept_refl|]. apply Forall_cons in Hls as [? ?].
  eauto using waiting_kept_trans, astep_sweep_waiting.
Qed.

(** ** Room left in the counter

    A loop takes at most one counter value per message that satisfies [P] (and
    no longer does afterwards), so the values it takes can be counted ahead. *)

Definition room (P : string → amsg → Prop) (A : astate) (N : Z) : Prop :=
  ∃ l : list string,
    (∀ n id m, a_lookup A n id = Some m → P n m → id ∈ l) ∧
    as_seq A + Z.of_nat (length l) < N.

(** Messages satisfy [P] where they satisfied it before. *)
Definition fewer (P : string → amsg → Prop) (A B : astate) : Prop :=
  ∀ n id m, a_lookup B n id = Some m → P n m → ∃ m', a_lookup A n id = Some m' ∧ P n m'.

Definition waits (_ : string) (m : amsg) : Prop := a_Status m ≠ AReady.
Definition ready_in (qn : string) (n : string) (m : amsg) : Prop :=
  n = qn ∧ a_Status m = AReady.

Lemma waiting_kept_fewer A B : waiting_kept A B → fewer waits A B.
Proof. intros H n id m Hl Hw. eauto. Qed.

Section room.
Context (P : string → amsg → Prop).

Lemma room_init A : awf A → room P A (2 * as_seq A + 1).
Proof.
  intros HA. pose proof (aw_seq _ HA). exists (fmt_hex16 <$> seqZ 1 (as_seq A)). split.
  - intros n id m Hl _. destruct (aw_msg _ HA _ _ _ Hl) as (_ & j & Hj & ->).
    apply list_elem_of_fmap. exists j. split; [done|]. apply elem_of_seqZ. lia.
  - rewrite length_fmap, length_seqZ. lia.
Qed.

Lemma room_weaken A N N' : room P A N → N ≤ N' → room P A N'.
Proof. intros (l & Hl & Hn) ?. exists l. split; [done|lia]. Qed.

Lemma room_seq A N : room P A N → as_seq A < N.
Proof. intros (l & _ & Hn). lia. Qed.

Lemma room_kept A B N : fewer P A B → as_seq B ≤ as_seq A → room P A N → room P B N.
Proof.
  intros Hw Hs (l & Hl & Hn). exists l. split; [|lia].
  intros n id m Hb HP. destruct (Hw _ _ _ Hb HP) as (m' & ? & ?). eauto.
Qed.

(** A message that satisfies [P] no longer pays for one step of the counter. *)
Lemma room_spend A B N n id m :
  fewer P A B → as_seq B ≤ as_seq A + 1 → a_lookup A n id = Some m → P n m →
  (∀ n' m', a_lookup B n' id = Some m' → ¬ P n' m') →
  room P A N → room P B N.
Proof.
  intros Hw Hs Hl Hst Hgone (l & Hin & Hn).
  exists (filter (λ i, i ≠ id) l). split.
  - intros n' id' m' Hl' Hst'. apply list_elem_of_filter.
    destruct (Hw _ _ _ Hl' Hst') as (m'' & ? & ?). split; [|eauto]. intros ->.
    by eapply Hgone.
  - assert (length (filter (λ i, i ≠ id) l) < length l)%nat; [|lia].
    eapply length_filter_lt; [by eapply Hin|]. intros Hne. by apply Hne.
Qed.

Lemma room_next A N n id m :
  room P A N → a_lookup A n id = Some m → P n m → as_seq A + 1 < N.
Proof.
  intros (l & Hin & Hn) Hl Hst. specialize (Hin _ _ _ Hl Hst).
  destruct l as [|? l]; [by apply not_elem_of_nil in Hin|]. simpl in Hn. lia.
Qed.
End room.

(** ** deadLetter *)

(** The steps of a dead-letter transfer of message [id] out of queue [n], towards
    [to]: the target queue may have to be created first, and either append may
    fail, which leaves the message where it is. *)
Definition dead_steps (A : astate) (n id to : string) (err : option error) (ls : list label)
    : Prop :=
  ∃ pre ts,
    (pre = [] ∨
     ∃ ts', pre = [LCreate to DefaultConfig ts'] ∧ to ≠ "" ∧ as_queues A !! to = None) ∧
    ls = pre ++ match err with None => [LDead n id to ts] | Some _ => [] end.

Lemma dead_steps_sweep A n id to err ls at_ :
  dead_steps A n id to err ls → Forall (is_sweep n at_) ls.
Proof.
  intros (pre & ts & Hpre & ->). apply Forall_app. split.
  - destruct Hpre as [->|(ts' & -> & _)]; by repeat constructor.
  - destruct err; by repeat constructor.
Qed.

(** What a dead-letter transfer does to the abstract state. *)
Record dead_effect (A B : astate) (n id : string) (err : option error) : Prop := {
  de_cfg : cfg_kept A B;
  de_seq : as_seq B ≤ as_seq A + match err with None => 1 | Some _ => 0 end;
  de_waiting : waiting_kept A B;
  de_gone : err = None → ∀ n' m, a_lookup B n' id = Some m → a_Status m = AReady;
  de_stays : is_Some err → ∀ n' id', a_lookup B n' id' = a_lookup A n' id';
}.

Lemma dead_steps_effect A n id to err ls B :
  awf A → asteps A ls B → dead_steps A n id to err ls → dead_effect A B n id err.
Proof.
  intros HA Hst Hds. pose proof (dead_steps_sweep _ _ _ _ _ _ 0 Hds) as Hsw.
  pose proof (asteps_sweep_waiting _ _ _ _ _ Hst Hsw) as Hwk.
  destruct Hds as (pre & ts & Hpre & ->).
  assert (∃ C, asteps C (match err with None => [LDead n id to ts] | Some _ => [] end) B ∧
               awf C ∧ cfg_kept A C ∧ as_seq C = as_seq A ∧
               ∀ n' id', a_lookup C n' id' = a_lookup A n' id') as (C & HC & HwC & Hk & Hs & Hl).
  { destruct Hpre as [->|(ts' & -> & Hne & Hno)].
    - exists A. split; [done|]. split; [done|]. split; [apply cfg_kept_refl|]. by split.
    - inversion Hst as [|? ? C ? ? Hone Hrest]; subst. exists C.
      inversion Hone; subst. split; [done|]. split; [eauto with duraq|]. split; [|split; [done|]].
      + intros n' c Hc. rewrite a_cfg_create. case_decide; [|done].
        subst. unfold a_cfg in Hc. by rewrite Hno in Hc.
      + intros. by rewrite a_lookup_create. }
  destruct err as [e|].
  - inversion HC; subst. split; [done|lia|done|done|]. intros _. done.
  - inversion HC as [|? ? D ? ? Hone Hrest]; subst. inversion Hrest; subst.
    inversion Hone; subst; split; simpl; try (by intros [? ?]); try done; try lia.
    + intros n' c' Hc. rewrite a_cfg_del. auto.
    + intros _ n' m' Hl'. by erewrite gone_after_del in Hl'.
    + intros n' c' Hc. rewrite a_cfg_put, a_cfg_set_seq, a_cfg_del. auto.
    + match goal with H : a_next _ _ |- _ => destruct H end. lia.
    + intros _ n' m'. rewrite a_lookup_put by (by apply as_queues_is_Some_del).
      case_decide; [by intros [= <-]|]. rewrite a_lookup_set_seq.
      by erewrite gone_after_del.
Qed.

Lemma settle_effect A B n id m at_ :
  a_lookup A n id = Some m → asteps A [LSettle n id at_] B →
  B = a_put n id (am_set_status AReady m) A.
Proof.
  intros Hl Hst. inversion Hst as [|? ? ? ? ? Hone Hrest]; subst. inversion Hrest; subst.
  inversion Hone; subst. congruence.
Qed.

(** ** What a sweep leaves behind *)

(** A [next] deadline that is set and not after [d]. *)
Definition covers (next d : Z) : Prop := next ≠ zeroTime ∧ next ≤ d.

(** From [A] to [B], a sweep at time [at_] has seen the messages in [Cov]: those
    that still wait are not due, or are exhausted leases whose transfer to the
    dead-letter queue did not go through, which is what [Left n id to] says; [next]
    became [next'], which is not after any of their due times and comes from one of
    them. *)
Record swept (A B : astate) (at_ : Z) (Left : string → string → string → Prop)
    (Cov : string → string → Prop) (next next' : Z) : Prop := {
  sw_cfg : cfg_kept A B;
  sw_waiting : waiting_kept A B;
  sw_done n id m c :
    Cov n id → a_lookup B n id = Some m → a_Status m ≠ AReady → a_cfg B n = Some c →
    at_ < a_due m ∨
    is_leased m ∧ exhausted c (a_Receives m) = true ∧ Left n id (c_DeadLetter c);
  sw_lower n id m :
    zeroTime ≤ at_ → Cov n id → a_lookup B n id = Some m → a_Status m ≠ AReady →
    at_ < a_due m → covers next' (a_due m);
  sw_mono : zeroTime ≤ at_ → next ≠ zeroTime → covers next' next;
  sw_from :
    next' = next ∨
    ∃ n id m, a_lookup A n id = Some m ∧ a_Status m ≠ AReady ∧ at_ < a_due m ∧
              next' = a_due m;
}.

Lemma covers_trans a b c : covers a b → b ≤ c → covers a c.
Proof. intros [] ?. split; [done|lia]. Qed.

Lemma swept_trans A B C at_ (X1 X2 X : string → string → string → Prop) P1 P2 P next1 next2 next3 :
  swept A B at_ X1 P1 next1 next2 → swept B C at_ X2 P2 next2 next3 →
  (∀ n id to, X1 n id to → X n id to) → (∀ n id to, X2 n id to → X n id to) →
  (∀ n id, P n id → P1 n id ∨ P2 n id) → swept A C at_ X P next1 next3.
Proof.
  intros [C1 W1 D1 L1 M1 F1] [C2 W2 D2 L2 M2 F2] HX1 HX2 HP. split.
  - by eapply cfg_kept_trans.
  - by eapply waiting_kept_trans.
  - intros n id m c HPn Hl Hs Hc. destruct (HP _ _ HPn) as [HP1|HP2].
    + pose proof (W2 _ _ _ Hl Hs) as HlB.
      assert (is_Some (a_cfg B n)) as [cB HcB]
        by (apply a_cfg_is_Some; eauto using a_lookup_is_Some).
      rewrite (C2 _ _ HcB) in Hc. injection Hc as <-.
      destruct (D1 _ _ _ _ HP1 HlB Hs HcB) as [?|(? & ? & ?)]; eauto 6.
    + destruct (D2 _ _ _ _ HP2 Hl Hs Hc) as [?|(? & ? & ?)]; eauto 6.
  - intros n id m Hz HPn Hl Hs Hd. destruct (HP _ _ HPn) as [HP1|HP2]; [|eauto].
    destruct (L1 n id m Hz HP1 (W2 _ _ _ Hl Hs) Hs Hd) as [Hne Hle].
    eapply covers_trans; eauto.
  - intros Hz Hne. destruct (M1 Hz Hne) as [Hne2 Hle2]. eapply covers_trans; eauto.
  - destruct F2 as [->|(n & id & m & Hl & Hs & Hd & ->)]; [done|].
    right. exists n, id, m. eauto.
Qed.

Lemma swept_weaken A B at_ X P P' next next' :
  swept A B at_ X P next next' → (∀ n id, P' n id → P n id) → swept A B at_ X P' next next'.
Proof. intros [] HP. split; eauto. Qed.

(** Nothing is left of the covered messages, or nothing happened to them. *)
Lemma swept_gone A B at_ X (P : string → string → Prop) next :
  cfg_kept A B → waiting_kept A B →
  (∀ n id m, P n id → a_lookup B n id = Some m → a_Status m = AReady) →
  swept A B at_ X P next next.
Proof.
  intros Hc Hw HP. split; [done|done| | |split; [done|lia]|by left].
  - intros n id m c ? ? Hs. destruct Hs. eauto.
  - intros n id m ? ? ? Hs. destruct Hs. eauto.
Qed.

Definition earliest (next d : Z) : Z := if IsZero next || Before d next then d else next.

(** A message that is not due is accounted for in [next]. *)
Lemma swept_undue A at_ X n id m next :
  a_lookup A n id = Some m → a_Status m ≠ AReady → at_ < a_due m →
  swept A A at_ X (λ n' id', n' = n ∧ id' = id) next (earliest next (a_due m)).
Proof.
  intros Hl Hs Hd.
  assert (earliest next (a_due m) = a_due m ∧ (next = zeroTime ∨ a_due m < next) ∨
          earliest next (a_due m) = next ∧ next ≠ zeroTime ∧ next ≤ a_due m) as Hcase.
  { unfold earliest, IsZero, Before.
    destruct (Z.eqb_spec next zeroTime), (Z.ltb_spec (a_due m) next); simpl; lia. }
  split.
  - apply cfg_kept_refl.
  - apply waiting_kept_refl.
  - intros n' id' m' c [-> ->] Hl' _ _. left. congruence.
  - intros n' id' m' Hz [-> ->] Hl' _ _. assert (m' = m) as -> by congruence. unfold covers. lia.
  - unfold covers. lia.
  - destruct Hcase as [[-> _]|[-> _]]; [|by left]. right. by exists n, id, m.
Qed.

(** The running minimum over several queues. *)
Lemma swept_combine A B at_ X P next d :
  swept A B at_ X P zeroTime d →
  swept A B at_ X P next (if negb (IsZero d) && (IsZero next || Before d next) then d else next).
Proof.
  intros [C W D Lo M F].
  set (r := if negb (IsZero d) && (IsZero next || Before d next) then d else next).
  assert (r = d ∧ d ≠ zeroTime ∧ (next = zeroTime ∨ d < next) ∨
          r = next ∧ (d = zeroTime ∨ next ≠ zeroTime ∧ next ≤ d)) as Hr.
  { subst r. unfold IsZero, Before.
    destruct (Z.eqb_spec d zeroTime), (Z.eqb_spec next zeroTime), (Z.ltb_spec d next); simpl; lia. }
  clearbody r. split; [done..| | |].
  - intros n id m Hz HP Hl Hs Hd. destruct (Lo n id m Hz HP Hl Hs Hd) as [? ?].
    unfold covers. lia.
  - unfold covers. lia.
  - destruct Hr as [(-> & Hd & _)|[-> _]]; [|by left]. destruct F as [?|?]; [done|by right].
Qed.

Section time.
Context {L : Type} `{!Appender L} `{!LogLaws L} `{!ConfigJSON}.
Implicit Types w : world L.

(** A message of queue [n], as an operation on it finds it. *)
Record holds w (n : string) (q : queueState) (id : string) (p : ptr) (m : message) : Prop := {
  ho_wf : wf (w_core w);
  ho_queue : k_queues (w_core w) !! n = Some q;
  ho_byID : q_byID q !! id = Some p;
  ho_msg : k_msgs (w_core w) !! p = Some m;
}.

Lemma ho_lookup w n q id p m :
  holds w n q id p m →
  m_ID m = id ∧ located q id p (m_state m) ∧
  a_lookup (abs (w_core w)) n id = Some (abs_msg m) ∧
  a_cfg (abs (w_core w)) n = Some (q_cfg q).
Proof.
  intros [Hwf Hq Hp Hm]. destruct (wf_lookup _ _ _ _ _ Hwf Hq Hp) as (m' & Hm' & ? & ? & ?).
  rewrite a_cfg_abs, Hq. assert (m' = m) as -> by congruence. done.
Qed.

Lemma holds_core w n q id p m w' :
  holds w n q id p m → w_core w' = w_core w → holds w' n q id p m.
Proof. intros [] Hc. split; by rewrite ?Hc. Qed.

Lemma u64_next s : 0 ≤ s → s + 1 < 2 ^ 64 → u64 (s + 1) = s + 1.
Proof. intros. unfold u64. rewrite Z.mod_small; lia. Qed.

(** A message taken out of its queue ([q'] is what is left of it) gets the next
    counter value and arrives in queue [to]. *)
Lemma wp_transfer w n q id p m q' to r
    (s := k_seq (w_core w) + 1) (A := abs (w_core w)) :
  holds w n q id p m → removed q q' id p →
  heap_ordered (seq_of (k_msgs (w_core w))) (q_ready q') →
  is_Some (k_queues (w_core w) !! to) → s < 2 ^ 64 → i64 r = r →
  wp incr_seq
    (λ s' w', wp (arrive to p (m_moved s' r m))
      (λ _ w'', ∃ k', w'' = with_core w k' ∧ wf k' ∧
         abs k' = a_put to id (am_moved s r (abs_msg m)) (a_set_seq s (a_del n id A)) ∧
         (∀ n', n' ≠ to → k_queues k' !! n' = <[n := q']> (k_queues (w_core w)) !! n')) w')
    (with_core w (k_upd n q' (k_seq (w_core w)) (k_msgs (w_core w)) (w_core w))).
Proof.
  intros Hho Hrm Hheap Hto Hs Hr. pose proof Hho as [Hwf Hq Hp Hm].
  destruct (ho_lookup _ _ _ _ _ _ Hho) as (Hid & _ & Hl & _).
  pose proof (wf_abs _ Hwf : awf A) as HA. pose proof (aw_seq _ HA) as Hseq. simpl in Hseq.
  destruct (core_remove _ _ _ Hwf Hq id p q' (k_seq (w_core w)) Hp Hrm Hheap) as [Hwf1 Habs1].
  { by apply awf_del. }
  set (k1 := k_upd n q' _ _ _) in *.
  assert (a_next A s) as Hnext by (by split).
  destruct (core_set_seq k1 s Hwf1) as [Hwf2 Habs2].
  { rewrite Habs1. change (awf (a_set_seq s (a_del n id A))).
    eapply astep_awf, (step_burn _ s); [by apply awf_del|done]. }
  rewrite Habs1 in Habs2.
  change (abs (k_set_seq s k1) = a_set_seq s (a_del n id A)) in Habs2.
  apply wp_incr_seq. rewrite u64_next by (subst k1; simpl; lia).
  apply wp_arrive; simpl; change (k_seq (w_core w) + 1) with s.
  - done.
  - subst k1. simpl. rewrite lookup_insert. case_decide; [eauto|done].
  - intros n2 q2 id2 [[<- <-]|[Hne H2]]%lookup_insert_Some Hp2.
    + rewrite (rm_byID _ _ _ _ Hrm) in Hp2. apply lookup_delete_Some in Hp2 as [Hne Hp2].
      destruct (wf_owner _ _ _ _ _ _ _ _ Hwf Hq Hq Hp Hp2) as [_ ?]. done.
    + by destruct (wf_owner _ _ _ _ _ _ _ _ Hwf Hq H2 Hp Hp2) as [? _].
  - rewrite Habs2, Hid, a_lookup_set_seq. by eapply gone_after_del.
  - rewrite Habs2, Hid. eapply awf_transfer; [done..| |done|exact Hr].
    by apply (abs_queues_is_Some (w_core w)).
  - intros k' Hk' Ha' Hq'. exists k'. split; [done|]. split; [done|].
    split; [by rewrite Ha', Habs2, Hid|]. intros n' Hn'. by rewrite Hq'.
Qed.

Lemma core_take w n q id p m q' (k' := k_upd n q' (k_seq (w_core w)) (k_msgs (w_core w)) (w_core w)) :
  holds w n q id p m → removed q q' id p →
  heap_ordered (seq_of (k_msgs (w_core w))) (q_ready q') →
  wf k' ∧ abs k' = a_del n id (abs (w_core w)).
Proof.
  intros [Hwf Hq Hp _] Hrm Hh.
  rewrite <-(a_set_seq_same (k_seq (w_core w)) (a_del n id (abs (w_core w)))) by done.
  apply (core_remove _ _ _ Hwf Hq id p); [done..|].
  rewrite a_set_seq_same by done. apply awf_del, wf_abs, Hwf.
Qed.

(** A lease gets another deadline. *)
Lemma core_deadline w n q id p m d (m' := m_set_deadline d m)
    (k' := k_set_msgs (<[p := m']> (k_msgs (w_core w))) (w_core w)) :
  holds w n q id p m → m_state m = stateLeased →
  wf k' ∧ abs k' = a_put n id (abs_msg m') (abs (w_core w)).
Proof.
  intros Hho Hst. pose proof Hho as [Hwf Hq Hp Hm].
  destruct (ho_lookup _ _ _ _ _ _ Hho) as (Hid & Hloc & Hl & _).
  assert (k' = k_upd n q (k_seq (w_core w)) (<[p := m']> (k_msgs (w_core w))) (w_core w)) as ->.
  { unfold k', k_upd, k_set_msgs. by rewrite (insert_id (k_queues _) n q Hq). }
  rewrite (a_put_seq n id). apply (core_relocate _ _ _ Hwf Hq id p m' q _ Hp Hid).
  - simpl. rewrite Hst in *. destruct Hloc as [Hnr Hpe].
    split; try done; [by rewrite insert_id|apply (wf_queues _ Hwf _ _ Hq)].
  - eapply heap_ordered_ext; [|apply (wf_queues _ Hwf _ _ Hq)].
    intros p' _. unfold seq_of. rewrite lookup_insert. case_decide; [|done]. subst.
    by rewrite Hm.
  - eapply awf_put_same; [apply Hwf|exact Hl|done|exact (aw_recv _ (wf_abs _ Hwf) _ _ _ Hl)|].
    pose proof (aw_seq _ (wf_abs _ Hwf)). simpl in *. lia.
Qed.

(** A queue without a message of its pending map. *)
Lemma removed_pending w n q id p m q' :
  holds w n q id p m → m_state m ≠ stateReady →
  q_name q' = q_name q → q_cfg q' = q_cfg q → q_wake q' = q_wake q →
  q_byID q' = delete id (q_byID q) → q_pending q' = delete id (q_pending q) →
  q_ready q' = q_ready q → removed q q' id p.
Proof.
  intros Hho Hst ? ? ? ? ? Hr. destruct (ho_lookup _ _ _ _ _ _ Hho) as (_ & Hloc & _).
  destruct Hho as [Hwf Hq _ _]. split; try done.
  - intros p'. rewrite Hr. split; [|tauto]. intros Hin. split; [done|]. intros ->.
    destruct (m_state m); [done|by destruct Hloc..].
  - rewrite Hr. by apply (wf_queues _ Hwf _ _ Hq).
Qed.

(** The first part of deadLetter: the target queue is created if it has to be. *)
Lemma wp_ensure_target w n q id p m to :
  holds w n q id p m → c_DeadLetter (q_cfg q) = to →
  wp (if decide (to = "") then mret None else
      t ← lookup_queue to;
      match t with
      | Some _ => mret None
      | None =>
        ts ← now;
        err ← append (rec_create to (Marshal_config DefaultConfig) (ms ts));
        match err with
        | Some e => mret (Some e)
        | None => _ ← add_queue to DefaultConfig; mret None
        end
      end)
    (λ created w', ∃ pre, evolves w pre w' ∧ holds w' n q id p m ∧
       k_seq (w_core w') = k_seq (w_core w) ∧
       (pre = [] ∨ ∃ ts, pre = [LCreate to DefaultConfig ts] ∧ to ≠ "" ∧
                         as_queues (abs (w_core w)) !! to = None) ∧
       (∀ e, created = Some e → ∃ ts, append_failed w (LCreate to DefaultConfig ts) e w') ∧
       (created = None → to ≠ "" → is_Some (k_queues (w_core w') !! to))) w.
Proof.
  intros Hho Hdl. pose proof Hho as [Hwf Hq Hp Hm].
  case_decide as Hto; [|apply wp_bind, wp_lookup_queue; destruct (k_queues _ !! to) eqn:Ht].
  - apply wp_ret. exists []. split; [by apply evolves_refl|].
    split; [done|]. split; [done|]. by split; [left|].
  - apply wp_ret. exists []. split; [by apply evolves_refl|].
    split; [done|]. split; [done|]. split; [by left|]. split; [done|]. by rewrite Ht.
  - apply wp_bind, wp_now. intros w1 Hg1 _.
    apply wp_bind, wp_append; [intros w2 Hg2|intros e w2 Hg2 Hrf].
    + pose proof (grows_trans _ _ _ _ _ Hg1 Hg2) as Hg. simpl in Hg.
      pose proof (gr_core _ _ _ Hg) as Hc2.
      apply wp_bind, wp_add_queue, wp_ret. rewrite Hc2.
      set (ts := env_now _ _) in *.
      assert (astep (abs (w_core w)) (LCreate to DefaultConfig ts)
                (a_create to DefaultConfig (abs (w_core w)))) as Hstep.
      { constructor; [done|]. right. exists n, (q_cfg q). by rewrite a_cfg_abs, Hq. }
      destruct (core_add_queue (w_core w) to DefaultConfig Hwf Ht) as [Hwf' Habs'].
      { by eapply astep_awf, Hstep; apply Hwf. }
      exists [LCreate to DefaultConfig ts]. split_and!.
      * eapply evolves_step; [exact Hg|done|]. by rewrite Habs'.
      * split; simpl; [done| |done..]. rewrite lookup_insert_ne; [done|].
        intros ->. congruence.
      * done.
      * right. exists ts. split; [done|]. split; [done|]. simpl.
        by rewrite lookup_fmap, Ht.
      * done.
      * intros _ _. simpl. rewrite lookup_insert_eq. eauto.
    + pose proof (grows_trans _ _ _ _ _ Hg1 Hg2) as Hg. simpl in Hg.
      apply wp_ret. exists []. split; [by apply evolves_grows|].
      split; [by eapply holds_core, Hg|]. split; [by rewrite (gr_core _ _ _ Hg)|].
      split; [by left|]. split; [|done]. intros e' [= <-]. eexists.
      eapply failed_before; [exact (gr_log _ _ _ Hg1)|by apply Hrf].
Qed.

(** The append of one of the records of a dead-letter transfer failed with [e]: the
    record that creates the target queue, or the one of the transfer. *)
Definition dead_failed w (n id to : string) (e : error) w' : Prop :=
  ∃ ts, append_failed w (LCreate to DefaultConfig ts) e w' ∨ append_failed w (LDead n id to ts) e w'.

Lemma dead_failed_before w rs w1 n id to e w' :
  logged (w_log w) rs (w_log w1) → dead_failed w1 n id to e w' → dead_failed w n id to e w'.
Proof. intros Hl (ts & [Hr|Hr]); exists ts; [left|right]; by eapply failed_before. Qed.

Lemma dead_failed_after w n id to e w1 rs w' :
  dead_failed w n id to e w1 → logged (w_log w1) rs (w_log w') → dead_failed w n id to e w'.
Proof. intros (ts & [Hr|Hr]) Hl; exists ts; [left|right]; by eapply failed_after. Qed.

Lemma wp_deadLetter w n q id p m :
  holds w n q id p m → is_leased (abs_msg m) → exhausted (q_cfg q) (m_Receives m) = true →
  k_seq (w_core w) + 1 < 2 ^ 64 →
  wp (deadLetter n p)
    (λ err w', ∃ ls, evolves w ls w' ∧
       dead_steps (abs (w_core w)) n id (c_DeadLetter (q_cfg q)) err ls ∧
       ∀ e, err = Some e → dead_failed w n id (c_DeadLetter (q_cfg q)) e w') w.
Proof.
  intros Hho Hle Hex Hseq. unfold deadLetter.
  apply wp_bind. eapply wp_deref_queue; [apply Hho|]. set (to := c_DeadLetter (q_cfg q)).
  apply wp_bind. eapply wp_mono; [by apply wp_ensure_target|].
  intros created w1 (pre & Hev1 & Hho1 & Hs1 & Hpre & Hrf1 & Hpres). clear Hho.
  destruct created as [e|].
  { apply wp_ret. exists pre. split; [done|]. split.
    - exists pre, 0. by rewrite app_nil_r.
    - intros e' He. destruct (Hrf1 _ He) as [ts Hts]. exists ts. by left. }
  specialize (Hpres eq_refl). rewrite <-Hs1 in Hseq. clear Hs1.
  pose proof Hho1 as [Hwf Hq Hp Hm].
  destruct (ho_lookup _ _ _ _ _ _ Hho1) as (Hid & Hloc & Hl & Hc).
  apply wp_bind. eapply wp_load; [done|]. apply wp_bind, wp_now. intros w2 Hg2 _.
  set (ts := env_now _ _).
  apply wp_bind, wp_append; [intros w3 Hg3|intros e w3 Hg3 Hrf];
    pose proof (grows_trans _ _ _ _ _ Hg2 Hg3) as Hg; simpl in Hg.
  2: { apply wp_ret. exists pre. split; [|split; [exists pre, 0; by rewrite app_nil_r|]].
       - eapply evolves_nil_r; [done|]. by apply evolves_grows.
       - intros e' [= <-]. exists ts. right. eapply failed_before; [exact (ev_log _ _ _ Hev1)|].
         eapply failed_before; [exact (gr_log _ _ _ Hg2)|]. apply Hrf. by rewrite Hid. }
  clear Hg2 Hg3 w2.
  rewrite Hid in Hg |- *.
  change (grows w1 (label_records (LDead n id to ts)) w3) in Hg.
  pose proof (gr_core _ _ _ Hg) as Hc3.
  assert (∀ k', wf k' → astep (abs (w_core w1)) (LDead n id to ts) (abs k') →
            ∃ ls, evolves w ls (with_core w3 k') ∧
                  dead_steps (abs (w_core w)) n id to None ls ∧
                  ∀ e, None = Some e → dead_failed w n id to e (with_core w3 k')) as Hdone.
  { intros k' Hk' Hst. exists (pre ++ [LDead n id to ts]). split; [|by split; [exists pre, ts|]].
    eapply evolves_trans; [done|]. by eapply evolves_step. }
  rewrite <-Hc3 in *. pose proof (holds_core _ _ _ _ _ _ _ Hho1 Hc3) as Hho3.
  apply wp_bind. eapply wp_deref_queue; [done|]. apply wp_bind, wp_put_queue.
  set (q' := q_set_totals _ _ _ _).
  assert (removed q q' id p) as Hrm.
  { eapply removed_pending; try done. intros Hst. unfold is_leased in Hle. simpl in Hle.
    unfold abs_status in Hle. by rewrite Hst in Hle. }
  assert (heap_ordered (seq_of (k_msgs (w_core w3))) (q_ready q')) as Hheap
    by (apply (wf_queues _ Hwf _ _ Hq)).
  case_decide as Hto0.
  - destruct (core_take _ _ _ _ _ _ q' Hho3 Hrm Hheap) as [Hwf' Habs].
    apply wp_ret, Hdone; [done|]. rewrite Habs, Hto0.
    by apply (step_drop _ _ _ (abs_msg m) (q_cfg q)).
  - apply wp_bind. eapply wp_mono; [apply (wp_transfer _ n q id p m q' to (m_Receives m)); auto;
      exact (aw_recv _ (wf_abs _ Hwf) _ _ _ Hl)|].
    intros s w4 Htr. apply wp_bind. eapply wp_mono; [exact Htr|].
    intros _ w5 (k5 & -> & Hwf5 & Habs5 & _).
    assert (is_Some (k_queues k5 !! to)) as [q5 Hq5].
    { rewrite <-abs_queues_is_Some, Habs5, as_queues_is_Some_put.
      apply as_queues_is_Some_del, abs_queues_is_Some. auto. }
    apply wp_bind. eapply wp_broadcast; [done..|]. apply wp_ret.
    destruct (core_rewake _ _ _ Hwf5 Hq5) as [Hwf6 Habs6].
    apply (Hdone (k_rewake to q5 k5)); [done|]. rewrite Habs6, Habs5.
    apply (step_dead _ _ _ (abs_msg m) (q_cfg q)); try done.
    apply abs_queues_is_Some; auto.
Qed.

(** A message of the pending map becomes ready: the end of sweepQueue's loop
    body and of Nack. *)
Lemma wp_settle w n q id p m :
  holds w n q id p m → m_state m ≠ stateReady →
  wp (put_queue n (q_set_pending (delete id (q_pending q)) q) ≫= λ _, pushReady n p)
    (λ _ w', ∃ k', w' = with_core w k' ∧ wf k' ∧
       abs k' = a_put n id (am_set_status AReady (abs_msg m)) (abs (w_core w))) w.
Proof.
  intros Hho Hst. pose proof Hho as [Hwf Hq Hp Hm].
  destruct (ho_lookup _ _ _ _ _ _ Hho) as (Hid & Hloc & Hl & _).
  assert (p ∉ q_ready q) as Hnr by (by destruct (m_state m); [|destruct Hloc..]).
  pose proof (wf_queues _ Hwf _ _ Hq) as Hwq.
  apply wp_bind, wp_put_queue. eapply wp_pushReady; simpl.
  - done.
  - by rewrite lookup_insert_eq.
  - done.
  - intros p' Hp'. destruct (wq_ready _ _ _ Hwq _ Hp') as (m' & Hm' & _). eauto.
  - apply Hwq.
  - intros h Hperm Ho. eexists. split; [reflexivity|].
    match goal with |- wf ?k ∧ _ => replace k with
      (k_upd n (q_set_ready h (q_set_pending (delete id (q_pending q)) q)) (k_seq (w_core w))
         (<[p := m_to_ready m]> (k_msgs (w_core w))) (w_core w))
      by (unfold k_upd; simpl; by rewrite insert_insert_eq) end.
    rewrite (a_put_seq n id). change (am_set_status AReady (abs_msg m)) with
      (abs_msg (m_to_ready m)).
    apply (core_relocate _ _ _ Hwf Hq); [done|done| |done|].
    + split; simpl; try done.
      * intros p' Hne. rewrite Hperm, elem_of_cons. tauto.
      * rewrite Hperm, elem_of_cons. tauto.
      * rewrite Hperm. apply NoDup_cons. split; [done|apply Hwq].
    + eapply awf_put_same; [apply Hwf|exact Hl|done|exact (aw_recv _ (wf_abs _ Hwf) _ _ _ Hl)|].
      pose proof (aw_seq _ (wf_abs _ Hwf)).
      lia.
Qed.

Lemma due_of_abs m : a_due (abs_msg m) = due_of m.
Proof. unfold a_due, due_of. simpl. unfold abs_status. by destruct (m_state m). Qed.

Lemma abs_waits m : a_Status (abs_msg m) ≠ AReady ↔ m_state m ≠ stateReady.
Proof. simpl. unfold abs_status. by destruct (m_state m). Qed.

Lemma abs_leased m : is_leased (abs_msg m) ↔ m_state m = stateLeased.
Proof. unfold is_leased. simpl. unfold abs_status. by destruct (m_state m). Qed.

(** A message that waits is in the pending map of its queue. *)
Lemma waiting_pending k n q id m :
  wf k → k_queues k !! n = Some q → a_lookup (abs k) n id = Some m → a_Status m ≠ AReady →
  is_Some (q_pending q !! id).
Proof.
  intros Hwf Hq Hl Hs.
  destruct (a_lookup_abs_inv _ _ _ _ Hl) as (q' & p & m' & Hq' & Hp & Hm & ->).
  assert (q' = q) as -> by congruence. apply abs_waits in Hs.
  destruct (wf_lookup _ _ _ _ _ Hwf Hq Hp) as (m2 & Hm2 & _ & Hloc & _).
  assert (m2 = m') as -> by congruence.
  destruct (m_state m'); [done|destruct Hloc; eauto..].
Qed.

(** A message of the pending map waits. *)
Lemma pending_holds w n q id p :
  wf (w_core w) → k_queues (w_core w) !! n = Some q → q_pending q !! id = Some p →
  ∃ m, holds w n q id p m ∧ m_state m ≠ stateReady.
Proof.
  intros Hwf Hq Hp. pose proof (wq_pending _ _ _ (wf_queues _ Hwf _ _ Hq) _ _ Hp) as Hb.
  destruct (wf_lookup _ _ _ _ _ Hwf Hq Hb) as (m & Hm & _ & Hloc & _).
  exists m. split; [by split|]. intros Hs. rewrite Hs in Hloc. destruct Hloc. congruence.
Qed.

(** Between [w] and [w'] the dead-letter transfer of the message failed. *)
Definition left_behind w w' (n id to : string) : Prop := ∃ e, dead_failed w n id to e w'.

(** The result of a sweep of the messages in [P]. *)
Definition sweeps w at_ N (P : string → string → Prop) (ok : label → Prop) next next' w' : Prop :=
  ∃ ls, evolves w ls w' ∧ Forall ok ls ∧ room waits (abs (w_core w')) N ∧
        swept (abs (w_core w)) (abs (w_core w')) at_ (left_behind w w') P next next'.

Lemma sweeps_trans w1 w2 w3 at_ N P1 P2 P ok next1 next2 next3 :
  sweeps w1 at_ N P1 ok next1 next2 w2 → sweeps w2 at_ N P2 ok next2 next3 w3 →
  (∀ n id, P n id → P1 n id ∨ P2 n id) → sweeps w1 at_ N P ok next1 next3 w3.
Proof.
  intros (ls1 & E1 & F1 & R1 & S1) (ls2 & E2 & F2 & R2 & S2) HP. exists (ls1 ++ ls2).
  split; [by eapply evolves_trans|]. split; [by apply Forall_app|]. split; [done|].
  eapply swept_trans; [exact S1|exact S2|..|exact HP]; intros n id to [e He]; exists e.
  - eapply dead_failed_after; [exact He|apply E2].
  - eapply dead_failed_before; [apply E1|exact He].
Qed.

(** The world may have grown before, and messages that do not wait need not be covered. *)
Lemma sweeps_grows w w1 at_ N (P P' : string → string → Prop) ok next next' w' :
  grows w [] w1 → sweeps w1 at_ N P ok next next' w' →
  (∀ n id m, P' n id → a_lookup (abs (w_core w')) n id = Some m → a_Status m ≠ AReady → P n id) →
  sweeps w at_ N P' ok next next' w'.
Proof.
  intros Hg (ls & Hev & Hok & Hr & [C W D Lo M F]) HP. rewrite (gr_core _ _ _ Hg) in *.
  exists ls. split; [by eapply grows_evolves|]. split; [done|]. split; [done|]. split; try done; eauto.
  intros n id m c HPn Hl Hs Hc. destruct (D n id m c) as [?|(? & ? & e & He)]; eauto.
  right. split; [done|]. split; [done|]. exists e. eapply dead_failed_before; [apply Hg|exact He].
Qed.

(** One turn of the loop of sweepQueue, on a message of the pending map. *)
Lemma sweep_dead w w' n q id p m at_ N ls err next :
  holds w n q id p m → is_leased (abs_msg m) → exhausted (q_cfg q) (m_Receives m) = true →
  a_due (abs_msg m) ≤ at_ → room waits (abs (w_core w)) N →
  evolves w ls w' → dead_steps (abs (w_core w)) n id (c_DeadLetter (q_cfg q)) err ls →
  (∀ e, err = Some e → dead_failed w n id (c_DeadLetter (q_cfg q)) e w') →
  sweeps w at_ N (λ n' id', n' = n ∧ id' = id) (is_sweep n at_) next next w'.
Proof.
  intros Hho Hle Hex Hdue Hroom Hev Hds Hrf. pose proof (ho_wf _ _ _ _ _ _ Hho) as Hwf.
  destruct (ho_lookup _ _ _ _ _ _ Hho) as (_ & _ & Hl & Hc).
  assert (a_Status (abs_msg m) ≠ AReady) as Hw by (apply abs_waits; apply abs_leased in Hle; congruence).
  destruct (dead_steps_effect _ _ _ _ _ _ _ (wf_abs _ Hwf) (ev_steps _ _ _ Hev) Hds)
    as [Dc Ds Dw Dg Dst].
  exists ls. split; [done|]. split; [by eapply dead_steps_sweep|]. destruct err as [e|].
  - assert (a_lookup (abs (w_core w')) n id = Some (abs_msg m)) as Hl' by (rewrite Dst; eauto).
    split; [eapply room_kept; eauto using waiting_kept_fewer; lia|].
    split; [done|done| | |by split|by left].
    + intros n' id' m' c [-> ->] Hm' _ Hc'. right.
      assert (m' = abs_msg m) as -> by congruence. split; [done|].
      rewrite (Dc _ _ Hc) in Hc'. injection Hc' as <-. split; [done|]. exists e. by apply Hrf.
    + intros n' id' m' Hz [-> ->] Hm' _ Hd. assert (m' = abs_msg m) as -> by congruence. lia.
  - split; [|apply swept_gone; [done..|]; intros n' id' m' [_ ->]; by apply Dg].
    eapply room_spend; eauto using waiting_kept_fewer.
Qed.

Lemma sweep_settle w w' n q id p m at_ N next :
  holds w n q id p m → a_Status (abs_msg m) ≠ AReady → a_due (abs_msg m) ≤ at_ →
  (is_leased (abs_msg m) → exhausted (q_cfg q) (m_Receives m) = false) →
  room waits (abs (w_core w)) N → evolves w [LSettle n id at_] w' →
  sweeps w at_ N (λ n' id', n' = n ∧ id' = id) (is_sweep n at_) next next w'.
Proof.
  intros Hho Hw Hdue Hex Hroom Hev. pose proof (ev_steps _ _ _ Hev) as Hst.
  pose proof (asteps_sweep_waiting _ _ _ n at_ Hst) as Hwk.
  specialize (Hwk ltac:(by repeat constructor)).
  destruct (ho_lookup _ _ _ _ _ _ Hho) as (_ & _ & Hl & _).
  apply (settle_effect _ _ _ _ _ _ Hl) in Hst.
  exists [LSettle n id at_]. split; [done|]. split; [by repeat constructor|]. split.
  - eapply room_kept; [by apply waiting_kept_fewer|by rewrite Hst|done].
  - apply swept_gone; [|done|]; rewrite Hst.
    + intros n' c Hc. by rewrite a_cfg_put.
    + intros n' id' m' [-> ->]. rewrite a_lookup_put by eauto using a_lookup_is_Some.
      rewrite decide_True by done. by intros [= <-].
Qed.

Lemma sweeps_refl w at_ N (P : string → string → Prop) ok next :
  wf (w_core w) → room waits (abs (w_core w)) N →
  (∀ n id m, P n id → a_lookup (abs (w_core w)) n id = Some m → a_Status m = AReady) →
  sweeps w at_ N P ok next next w.
Proof.
  intros Hwf Hr HP. exists []. split; [by apply evolves_refl|]. split; [done|].
  split; [done|]. by apply swept_gone; [apply cfg_kept_refl|apply waiting_kept_refl|].
Qed.

Lemma swept_queue w n w' at_ N P ok next next' :
  is_Some (k_queues (w_core w) !! n) → sweeps w at_ N P ok next next' w' →
  wf (w_core w') ∧ is_Some (k_queues (w_core w') !! n) ∧ room waits (abs (w_core w')) N.
Proof.
  intros Hq (ls & Hev & _ & Hr & [Hc _ _ _ _ _]). split; [apply Hev|]. split; [|done].
  destruct Hq as [q Hq]. rewrite <-abs_queues_is_Some, <-a_cfg_is_Some.
  exists (q_cfg q). apply Hc. by rewrite a_cfg_abs, Hq.
Qed.

Lemma wp_sweep_loop n at_ N ids : N ≤ 2 ^ 64 → ∀ w next woke,
  wf (w_core w) → is_Some (k_queues (w_core w) !! n) → room waits (abs (w_core w)) N →
  wp (sweep_loop n at_ ids next woke)
    (λ r w', sweeps w at_ N (λ n' id, n' = n ∧ id ∈ ids) (is_sweep n at_) next r.1 w') w.
Proof.
  intros HN. induction ids as [|id ids IH]; intros w next woke Hwf [q Hq] Hroom;
    cbn [sweep_loop].
  { apply wp_ret. apply sweeps_refl; [done..|]. intros n' id m [_ Hin].
    by apply not_elem_of_nil in Hin. }
  assert (∀ w1 next1 woke1,
    sweeps w at_ N (λ n' id', n' = n ∧ id' = id) (is_sweep n at_) next next1 w1 →
    wp (sweep_loop n at_ ids next1 woke1)
      (λ r w', sweeps w at_ N (λ n' id', n' = n ∧ id' ∈ id :: ids) (is_sweep n at_)
                 next r.1 w') w1) as Hnext.
  { intros w1 next1 woke1 Hs1.
    destruct (swept_queue _ _ _ _ _ _ _ _ _ (mk_is_Some _ _ Hq) Hs1) as (? & ? & ?).
    eapply wp_mono; [by apply IH|]. intros r w' Hs2. eapply sweeps_trans; [exact Hs1|exact Hs2|].
    intros n' id' [-> Hin]. apply elem_of_cons in Hin as [->|?]; auto. }
  clear IH. apply wp_bind. eapply wp_deref_queue; [done|].
  destruct (q_pending q !! id) as [p|] eqn:Hp.
  2: { apply Hnext, sweeps_refl; [done..|]. intros n' id' m [-> ->] Hl.
       destruct (decide (a_Status m = AReady)) as [|Hs]; [done|].
       destruct (waiting_pending _ _ _ _ _ Hwf Hq Hl Hs). congruence. }
  destruct (pending_holds _ _ _ _ _ Hwf Hq Hp) as (m & Hho & Hst).
  destruct (ho_lookup _ _ _ _ _ _ Hho) as (Hid & _ & Hl & Hc).
  pose proof (proj2 (abs_waits m) Hst) as Hw.
  apply wp_bind. eapply wp_load; [apply Hho|]. unfold After.
  destruct (Z.ltb_spec at_ (due_of m)) as [Hd|Hd]; rewrite <-due_of_abs in Hd.
  { apply Hnext. exists []. split; [by apply evolves_refl|]. split; [done|]. split; [done|].
    rewrite <-due_of_abs. by eapply swept_undue. }
  destruct (bool_decide (m_state m = stateLeased) && exhausted (q_cfg q) (m_Receives m)) eqn:Hex.
  - apply andb_true_iff in Hex as [Hle%bool_decide_eq_true Hex].
    apply abs_leased in Hle.
    assert (k_seq (w_core w) + 1 < N) 
      by (by apply (room_next waits (abs (w_core w)) N n id (abs_msg m))).
    apply wp_bind. eapply wp_mono; [apply (wp_deadLetter w n q id p m); [done..|lia]|].
    intros err w1 (ls & Hev & Hds & Hrf). apply Hnext. by eapply sweep_dead.
  - apply wp_bind.
    assert (∀ Q, wp (put_queue n (q_set_pending (delete id (q_pending q)) q) ≫=
                     λ _, pushReady n p) Q w →
            wp (put_queue n (q_set_pending (delete id (q_pending q)) q))
               (λ _, wp (pushReady n p) Q) w) as Hjoin by done.
    eapply wp_mono; [apply Hjoin; by eapply wp_settle|].
    intros [] w1 Hw1. apply wp_bind. eapply wp_mono; [exact Hw1|].
    intros _ w2 (k' & -> & Hk' & Habs').
    apply Hnext. eapply sweep_settle; [done..| |done|].
    + intros Hle%abs_leased. rewrite bool_decide_eq_true_2 in Hex by done. done.
    + eapply evolves_step; [apply grows_refl|done|]. rewrite Habs'.
      eapply step_settle; [done..|]. intros Hle%abs_leased.
      rewrite bool_decide_eq_true_2 in Hex by done. done.
Qed.

(** sweepQueue: every message of the queue that was waiting is seen. *)
Lemma wp_sweepQueue n at_ N w :
  N ≤ 2 ^ 64 → wf (w_core w) → is_Some (k_queues (w_core w) !! n) →
  room waits (abs (w_core w)) N →
  wp (sweepQueue n at_)
    (λ next w', sweeps w at_ N (λ n' _, n' = n) (is_sweep n at_) zeroTime next w') w.
Proof.
  intros HN Hwf [q Hq] Hroom. unfold sweepQueue.
  apply wp_bind. eapply wp_deref_queue; [done|].
  apply wp_bind, wp_range_order. intros w1 Hg. pose proof (gr_core _ _ _ Hg) as Hc1.
  set (ids := range_keys _ _).
  apply wp_bind. eapply wp_mono; [apply (wp_sweep_loop n at_ N ids HN); rewrite Hc1; eauto|].
  intros [next woke] w2 Hs. simpl in Hs.
  assert (sweeps w at_ N (λ n' _, n' = n) (is_sweep n at_) zeroTime next w2) as Hs'.
  { eapply sweeps_grows; [exact Hg|exact Hs|]. intros n' id m -> Hl Hst. split; [done|].
    apply elem_of_range_keys. right. destruct Hs as (ls & Hev & _ & _ & Hsw).
    eapply waiting_pending; eauto. rewrite <-Hc1. by eapply sw_waiting. }
  clear Hs. destruct (swept_queue _ n _ _ _ _ _ _ _ (mk_is_Some _ _ Hq) Hs') as (Hwf2 & [q2 Hq2] & _).
  destruct woke; apply wp_bind.
  - eapply wp_broadcast; [done..|]. apply wp_ret.
    destruct (core_rewake _ _ _ Hwf2 Hq2) as [Hwf3 Habs3].
    destruct Hs' as (ls & Hev & Hok & Hr & Hsw). exists ls. simpl. rewrite Habs3.
    split; [|done]. eapply evolves_nil_r; [done|]. by apply evolves_core.
  - by apply wp_ret, wp_ret.
Qed.

Lemma sweeps_combine w w' at_ N P (ok ok' : label → Prop) next d :
  sweeps w at_ N P ok zeroTime d w' → (∀ l, ok l → ok' l) →
  sweeps w at_ N P ok' next
    (if negb (IsZero d) && (IsZero next || Before d next) then d else next) w'.
Proof.
  intros (ls & Hev & Hok & Hr & Hsw) Himp. exists ls. split; [done|].
  split; [by eapply Forall_impl|]. split; [done|]. by apply swept_combine.
Qed.

Lemma wp_sweep_all at_ N names : N ≤ 2 ^ 64 → ∀ w next,
  wf (w_core w) → room waits (abs (w_core w)) N →
  wp (sweep_all at_ names next)
    (λ next' w', sweeps w at_ N (λ n _, n ∈ names) (λ l, ∃ n, is_sweep n at_ l)
                   next next' w') w.
Proof.
  intros HN. induction names as [|n names IH]; intros w next Hwf Hroom; cbn [sweep_all].
  { apply wp_ret, sweeps_refl; [done..|]. intros n id m Hin. by apply not_elem_of_nil in Hin. }
  apply wp_bind, wp_lookup_queue. destruct (k_queues (w_core w) !! n) as [q|] eqn:Hq.
  - apply wp_bind. eapply wp_mono; [apply wp_sweepQueue; eauto|].
    intros d w1 Hs1.
    destruct (swept_queue _ _ _ _ _ _ _ _ _ (mk_is_Some _ _ Hq) Hs1) as (? & ? & ?).
    apply (sweeps_combine _ _ _ _ _ _ (λ l, ∃ n, is_sweep n at_ l) next) in Hs1; [|by exists n].
    eapply wp_mono; [by apply IH|]. intros next' w2 Hs2.
    eapply sweeps_trans; [exact Hs1|exact Hs2|].
    intros n' id Hin. by apply elem_of_cons in Hin.
  - eapply wp_mono; [by apply IH|]. intros next' w2 Hs2.
    eapply (sweeps_trans _ _ _ _ _ (λ n' _, n' = n));
      [|exact Hs2|intros n' id Hin; by apply elem_of_cons in Hin].
    apply sweeps_refl; [done..|]. intros n' id m -> Hl.
    destruct (proj1 (abs_queues_is_Some _ _) (a_lookup_is_Some _ _ _ _ Hl)). congruence.
Qed.

(** Sweep: every message that was waiting anywhere is seen. *)
Lemma wp_Sweep at_ N w :
  N ≤ 2 ^ 64 → wf (w_core w) → room waits (abs (w_core w)) N →
  wp (Sweep at_)
    (λ next w', sweeps w at_ N (λ _ _, True) (λ l, ∃ n, is_sweep n at_ l)
                  zeroTime next w') w.
Proof.
  intros HN Hwf Hroom. unfold Sweep.
  apply wp_bind, wp_get_core, wp_bind, wp_range_order. intros w1 Hg.
  pose proof (gr_core _ _ _ Hg) as Hc1.
  eapply wp_mono; [apply (wp_sweep_all at_ N); rewrite ?Hc1; done|].
  intros next w2 Hs. eapply sweeps_grows; [exact Hg|exact Hs|].
  intros n id m _ Hl Hst. apply elem_of_range_keys. right.
  destruct Hs as (ls & Hev & _ & _ & Hsw). pose proof (sw_waiting _ _ _ _ _ _ _ Hsw _ _ _ Hl Hst) as Hl1.
  apply abs_queues_is_Some. rewrite <-Hc1. eauto using a_lookup_is_Some.
Qed.
End time.
