(* ===== verification/RefineOps.v ===== *)
(** Refinement, third part: the producer and the settlement operations of the
    engine (CreateQueue, DeleteQueue, Send, lookupLease, Ack, Nack, Extend of
    internal/queue/engine.go).  Each lemma gives, for a well-formed world, the
    steps of the abstract machine that the operation performs on every branch. *)

From S2P Require Import Prelude GoHeap Ids WalRecord Config Message Engine Spec Invariant.
From S2P Require Import Refine RefineTime.
From stdpp Require Import fin_maps.

Local Open Scope Z_scope.

(** What lookupLease decides about message [om] of the queue. *)
Definition lease_check (om : option amsg) (receipt : string) : option error :=
  match om with
  | None => Some ErrMessageNotFound
  | Some m =>
    match a_Status m with
    | ALeased r _ => if decide (r = receipt) then None else Some ErrWrongReceipt
    | _ => Some ErrNotLeased
    end
  end.

Lemma lease_check_None om receipt :
  lease_check om receipt = None ↔
  ∃ m deadline, om = Some m ∧ a_Status m = ALeased receipt deadline.
Proof.
  unfold lease_check. split.
  - destruct om as [m|]; [|done]. destruct (a_Status m) as [| |r d] eqn:Hs; try done.
    case_decide; [|done]. subst. eauto.
  - intros (m & d & -> & ->). by rewrite decide_True.
Qed.

Section ops.
Context {L : Type} `{!Appender L} `{!LogLaws L} `{!ConfigJSON}.
Implicit Types w : world L.

(** The worlds an operation starts from: the invariant holds and the counter is
    far from wrapping around. *)
Record roomy w : Prop := {
  ro_wf : wf (w_core w);
  ro_seq : k_seq (w_core w) < 2 ^ 62;
}.

Lemma roomy_room w P : roomy w → room P (abs (w_core w)) (2 ^ 63).
Proof.
  intros [Hwf Hs]. eapply room_weaken; [apply room_init, Hwf|]. simpl. lia.
Qed.

(** ** CreateQueue and DeleteQueue *)

Lemma wp_CreateQueue name cfg w :
  wf (w_core w) →
  wp (CreateQueue name cfg)
    (λ r w',
      match r with
      | Ok created =>
        evolves w [LCreate name cfg (clock w)] w' ∧ ValidName name = true ∧
          c_DeadLetter cfg ≠ name ∧
          (created = true ↔ k_queues (w_core w) !! name = None)
      | Err e => evolves w [] w' ∧
          (ValidName name = false ∧ Is e ErrBadName = true ∨
           ValidName name = true ∧
             (c_DeadLetter cfg = name ∨ append_failed w (LCreate name cfg (clock w)) e w'))
      end) w.
Proof.
  intros Hwf. unfold CreateQueue.
  destruct (ValidName name) eqn:Hv; simpl;
    [|by apply wp_ret; split; [apply evolves_refl|left]].
  case_decide as Hd; [by apply wp_ret; split; [apply evolves_refl|right; split; [|left]]|].
  apply wp_bind, wp_now. intros w1 Hg1 _. set (ts := env_now _ _).
  apply wp_bind, wp_append; [intros w2 Hg2|intros e w2 Hg2 Hrf];
    pose proof (grows_trans _ _ _ _ _ Hg1 Hg2) as Hg; simpl in Hg;
    pose proof (gr_core _ _ _ Hg) as Hc.
  2: { apply wp_ret. split; [by apply evolves_grows|]. right. split; [done|right].
       eapply failed_before; [exact (gr_log _ _ _ Hg1)|by apply Hrf]. }
  clear Hg1 Hg2.
  assert (name ≠ "") as Hne by (by intros ->).
  assert (astep (abs (w_core w)) (LCreate name cfg ts) (a_create name cfg (abs (w_core w))))
    as Hst by (constructor; [done|by left]).
  pose proof (astep_awf _ _ _ (wf_abs _ Hwf) Hst) as HA.
  apply wp_bind, wp_lookup_queue. destruct (k_queues (w_core w2) !! name) as [q|] eqn:Hq;
    rewrite Hc in Hq; apply wp_bind; [apply wp_put_queue|apply wp_add_queue]; apply wp_ret;
    rewrite Hc.
  - destruct (core_set_cfg (w_core w) name q cfg Hwf Hq HA) as [Hwf' Habs'].
    split; [|by rewrite Hq]. eapply evolves_step; [exact Hg|exact Hwf'|].
    change (k_upd name (q_set_cfg cfg q) (k_seq (w_core w)) (k_msgs (w_core w)) (w_core w))
      with (k_set_queues (<[name := q_set_cfg cfg q]> (k_queues (w_core w))) (w_core w)).
    by rewrite Habs'.
  - destruct (core_add_queue (w_core w) name cfg Hwf Hq HA) as [Hwf' Habs'].
    split; [|by rewrite Hq]. eapply evolves_step; [exact Hg|done|]. by rewrite Habs'.
Qed.

Lemma wp_DeleteQueue name w :
  wf (w_core w) →
  wp (DeleteQueue name)
    (λ r w',
      match r with
      | None => evolves w [LDelete name (clock w)] w'
      | Some e => evolves w [] w' ∧
          match k_queues (w_core w) !! name with
          | None => e = ErrQueueNotFound
          | Some _ => append_failed w (LDelete name (clock w)) e w'
          end
      end) w.
Proof.
  intros Hwf. unfold DeleteQueue. apply wp_bind, wp_lookup_queue.
  destruct (k_queues (w_core w) !! name) as [q|] eqn:Hq;
    [|by apply wp_ret; split; [apply evolves_refl|]].
  apply wp_bind, wp_now. intros w1 Hg1 _. set (ts := env_now _ _).
  apply wp_bind, wp_append; [intros w2 Hg2|intros e w2 Hg2 Hrf];
    pose proof (grows_trans _ _ _ _ _ Hg1 Hg2) as Hg; simpl in Hg;
    pose proof (gr_core _ _ _ Hg) as Hc.
  2: { apply wp_ret. split; [by apply evolves_grows|].
       eapply failed_before; [exact (gr_log _ _ _ Hg1)|by apply Hrf]. }
  clear Hg1 Hg2.
  apply wp_bind, wp_get_core, wp_bind, wp_put_core. rewrite Hc.
  assert (astep (abs (w_core w)) (LDelete name ts) (a_delete name (abs (w_core w)))) as Hst.
  { constructor. apply abs_queues_is_Some. eauto. }
  pose proof (astep_awf _ _ _ (wf_abs _ Hwf) Hst) as HA.
  unfold broadcast_detached. apply wp_bind, wp_bind, wp_close_chan.
  { by apply (wf_open _ Hwf name). }
  apply wp_bind. eapply wp_make_chan; [reflexivity|]. apply wp_ret, wp_ret.
  match goal with |- evolves _ _ (with_core _ (k_set_chans ?cs _)) =>
    destruct (core_delete (w_core w) name cs Hwf) as [Hwf' Habs']; [|done|] end.
  - intros n' q' Hne Hq'. simpl. pose proof (wf_open _ Hwf _ _ Hq') as Ho.
    assert (q_wake q' ≠ q_wake q) as Hw by (intros Hw; by apply Hne, (wf_wake _ Hwf n' q' name q)).
    assert (<[q_wake q := true]> (k_chans (w_core w)) !! q_wake q' = Some false) as Ho'
      by (by rewrite lookup_insert_ne).
    rewrite lookup_insert_ne; [done|]. by eapply fresh_chan.
  - refine (evolves_step w w2 (LDelete name ts) _ Hg Hwf' _). by rewrite Habs'.
Qed.

(** ** Send *)

(** The core may change between a read of the clock and an append. *)
Lemma grows_across w w1 k1 rs w2 :
  grows w [] w1 → grows (with_core w1 k1) rs w2 → grows w rs (with_core w2 (w_core w)).
Proof.
  intros [C1 E1 T1 L1] [C2 E2 T2 L2]. simpl in *. split; simpl; [done|congruence|lia|].
  by eapply (logged_app _ []).
Qed.

Lemma fresh_ptr k (p := fresh (dom (k_msgs k))) :
  wf k → k_msgs k !! p = None ∧
  (∀ n q id, k_queues k !! n = Some q → q_byID q !! id ≠ Some p) ∧
  (∀ n q, k_queues k !! n = Some q → p ∉ q_ready q).
Proof.
  intros Hwf. assert (k_msgs k !! p = None) as Hp by (apply not_elem_of_dom, is_fresh).
  split; [done|]. split.
  - intros n q id Hq Hid. destruct (wf_lookup _ _ _ _ _ Hwf Hq Hid) as (m & Hm & _). congruence.
  - intros n q Hq Hin. destruct (wq_ready _ _ _ (wf_queues _ Hwf _ _ Hq) _ Hin) as (m & Hm & _).
    congruence.
Qed.

(** The message that Send puts in the abstract queue. *)
Definition sent (s : Z) (body : bytes) (ts delay : Z) : amsg :=
  mkAmsg s body ts (nbf_of ts delay) 0 (if 0 <? delay then ADelayed else AReady).

Lemma send_effect A queue id body ts delay B :
  asteps A [LSend queue id body ts delay] B →
  is_Some (as_queues A !! queue) ∧
  B = a_put queue id (sent (as_seq A + 1) body ts delay) (a_set_seq (as_seq A + 1) A).
Proof.
  intros Hst. inversion Hst as [|? ? C ? ? Hone Hrest]; subst. inversion Hrest; subst.
  inversion Hone as [| |? s ? ? ? Hq [-> _]| | | | | | | | |]; subst. done.
Qed.

(** The end of Send, once the record is in the log. *)
Lemma wp_enqueue queue q id s body t delay w w2 (nbf := nbf_of t delay)
    (m := mkMessage id s body t nbf stateReady "" zeroTime 0) (Q : result string → world L → Prop) :
  wf (w_core w) → k_queues (w_core w) !! queue = Some q →
  w_core w2 = k_set_seq s (w_core w) →
  awf (a_put queue id (sent s body t delay) (a_set_seq s (abs (w_core w)))) →
  a_lookup (abs (w_core w)) queue id = None →
  (∀ k', wf k' →
     abs k' = a_put queue id (sent s body t delay) (a_set_seq s (abs (w_core w))) →
     Q (Ok id) (with_core w2 k')) →
  wp (p ← new_message m;
      q ← deref_queue queue;
      _ ← put_queue queue
            (q_set_totals (i64 (q_totalSent q + 1)) (q_totalAcked q) (q_totalDead q)
              (q_set_byID (<[id := p]> (q_byID q)) q));
      if 0 <? delay then
        _ ← save p (mkMessage id s body t nbf stateDelayed "" zeroTime 0);
        q ← deref_queue queue;
        _ ← put_queue queue (q_set_pending (<[id := p]> (q_pending q)) q);
        mret (Ok id)
      else
        _ ← pushReady queue p;
        _ ← broadcast queue;
        mret (Ok id)) Q w2.
Proof.
  intros Hwf Hq Hc2 HA Hfresh HQ. unfold new_message.
  destruct (fresh_ptr _ Hwf) as (Hp & Hno & Hnr). set (p := fresh _) in *.
  pose proof (wf_queues _ Hwf _ _ Hq) as Hwq.
  assert (q_byID q !! id = None) as Hid.
  { destruct (q_byID q !! id) as [p'|] eqn:He; [|done].
    destruct (wf_lookup _ _ _ _ _ Hwf Hq He) as (? & _ & _ & _ & Hl). congruence. }
  apply wp_bind, wp_bind, wp_get_core, wp_bind, wp_put_core, wp_ret.
  rewrite Hc2. simpl. fold p.
  apply wp_bind. eapply wp_deref_queue; [done|]. apply wp_bind, wp_put_queue.
  set (q1 := q_set_totals _ _ _ _). unfold sent in *.
  destruct (0 <? delay).
  - apply wp_bind, wp_save, wp_bind. eapply wp_deref_queue; [simpl; by rewrite lookup_insert_eq|].
    apply wp_bind, wp_put_queue, wp_ret.
    set (m' := mkMessage id s body t nbf stateDelayed "" zeroTime 0).
    set (q' := q_set_pending (<[id := p]> (q_pending q1)) q1).
    destruct (core_insert _ _ _ Hwf Hq id p m' q' s Hno Hid eq_refl) as [Hwf' Habs'].
    + split; simpl; try done; [|apply Hwq]. intros p'. split; [by left|by intros [?|[_ ?]]].
    + simpl. apply heap_ordered_insert; [exact (Hnr _ _ Hq)|apply Hwq].
    + exact HA.
    + match goal with |- Q _ (with_core _ ?k) => replace k with
        (k_upd queue q' s (<[p := m']> (k_msgs (w_core w))) (w_core w)) end.
      { by apply HQ. }
      unfold k_upd. simpl. by rewrite !insert_insert_eq.
  - apply wp_bind. eapply (wp_pushReady _ _ m).
    + simpl. by rewrite lookup_insert_eq.
    + simpl. by rewrite lookup_insert_eq.
    + exact (Hnr _ _ Hq).
    + simpl. intros p' Hp'. destruct (wq_ready _ _ _ Hwq _ Hp') as (m' & Hm' & _).
      rewrite lookup_insert_ne; [eauto|]. intros He. apply (Hnr _ _ Hq). by rewrite He.
    + simpl. apply heap_ordered_insert; [exact (Hnr _ _ Hq)|apply Hwq].
    + simpl. intros h Hperm Ho. rewrite insert_insert_eq in *.
      destruct (core_insert _ _ _ Hwf Hq id p (m_to_ready m) (q_set_ready h q1) s Hno Hid eq_refl)
        as [Hwf' Habs']; [|done|exact HA|].
      { split; simpl; try done.
        - intros p'. rewrite Hperm, elem_of_cons. tauto.
        - rewrite Hperm. apply NoDup_cons. split; [exact (Hnr _ _ Hq)|apply Hwq]. }
      match goal with |- wp _ _ (with_core _ ?k) => replace k with
        (k_upd queue (q_set_ready h q1) s (<[p := m_to_ready m]> (k_msgs (w_core w))) (w_core w))
        by (unfold k_upd; simpl; by rewrite !insert_insert_eq) end.
      assert (k_queues (k_upd queue (q_set_ready h q1) s (<[p := m_to_ready m]>
                (k_msgs (w_core w))) (w_core w)) !! queue = Some (q_set_ready h q1)) as Hq2
        by apply lookup_insert_eq.
      destruct (core_rewake _ _ _ Hwf' Hq2) as [Hwf3 Habs3].
      apply wp_bind. eapply wp_broadcast; [done|exact Hq2|]. apply wp_ret.
      exact (HQ _ Hwf3 (eq_trans Habs3 Habs')).
Qed.

Lemma wp_Send queue body delay w :
  wf (w_core w) → k_seq (w_core w) + 1 < 2 ^ 64 →
  wp (Send queue body delay)
    (λ r w',
      match r with
      | Ok id =>
        evolves w [LSend queue id body (clock w) delay] w' ∧
          id = fmt_hex16 (k_seq (w_core w) + 1) ∧ 0 ≤ delay ≤ MaxDelay
      | Err e => evolves w [] w' ∧ w_core w' = w_core w ∧
          (0 ≤ delay ≤ MaxDelay →
             match k_queues (w_core w) !! queue with
             | None => e = ErrQueueNotFound
             | Some _ =>
               append_failed w (LSend queue (fmt_hex16 (k_seq (w_core w) + 1)) body (clock w) delay) e w'
             end)
      end) w.
Proof.
  intros Hwf Hseq. unfold Send.
  destruct ((delay <? 0) || (MaxDelay <? delay)) eqn:Hd.
  { apply wp_ret. split; [by apply evolves_refl|]. split; [done|].
    apply orb_true_iff in Hd as [?%Z.ltb_lt|?%Z.ltb_lt]; lia. }
  apply orb_false_iff in Hd as [?%Z.ltb_ge ?%Z.ltb_ge].
  apply wp_bind, wp_lookup_queue. destruct (k_queues (w_core w) !! queue) as [q|] eqn:Hq.
  2: { apply wp_ret. by split; [apply evolves_refl|]. }
  pose proof (aw_seq _ (wf_abs _ Hwf)) as Hs0. simpl in Hs0.
  apply wp_bind, wp_now. intros w1 Hg1 _. set (t := env_now _ _).
  pose proof (gr_core _ _ _ Hg1) as Hc1.
  apply wp_bind. unfold nextID. apply wp_bind, wp_incr_seq, wp_ret.
  rewrite Hc1, u64_next by lia. set (s := k_seq (w_core w) + 1). set (id := fmt_hex16 s).
  unfold get_seq at 1. apply wp_bind, wp_bind, wp_get_core, wp_ret. simpl.
  apply wp_bind, wp_append; [intros w2 Hg2|intros e w2 Hg2 Hrf];
    pose proof (grows_across _ _ _ _ _ Hg1 Hg2) as Hg;
    pose proof (gr_core _ _ _ Hg2) as Hc2; simpl in Hc2.
  - assert (astep (abs (w_core w)) (LSend queue id body t delay)
              (a_put queue id (sent s body t delay) (a_set_seq s (abs (w_core w))))) as Hst.
    { apply step_send; [|by split]. apply abs_queues_is_Some. eauto. }
    apply (wp_enqueue queue q id s body t delay w w2); [done|done|done| | |].
    + by eapply astep_awf, Hst; apply Hwf.
    + apply (fresh_id _ s); [apply Hwf|by split].
    + intros k' Hk' Ha'. split; [|by split].
      refine (evolves_step w (with_core w2 (w_core w)) (LSend queue id body t delay) k' Hg Hk' _). by rewrite Ha'.
  - unfold get_seq, set_seq. apply wp_bind, wp_bind, wp_get_core, wp_ret.
    apply wp_bind, wp_bind, wp_get_core, wp_put_core, wp_ret. rewrite Hc2. simpl.
    assert (k_set_seq (u64 (s - 1)) (k_set_seq s (w_core w)) = w_core w) as ->.
    { replace (u64 (s - 1)) with (k_seq (w_core w)); [by destruct (w_core w)|].
      unfold u64, s. rewrite Z.mod_small; lia. }
    split; [|split; [done|]]; [by apply evolves_grows|]. intros _.
    eapply failed_before; [exact (gr_log _ _ _ Hg1)|exact (Hrf (LSend queue id body t delay) eq_refl)].
Qed.

(** ** Operations on a lease *)

(** The sweep of its queue that an operation starts with, at the time [t] that the
    clock shows then. *)
Definition first_sweep w (n : string) (t : Z) w1 : Prop :=
  t = clock w ∧ ∃ next, sweeps w t (2 ^ 63) (λ n' _, n' = n) (is_sweep n t) zeroTime next w1.

Lemma first_sweep_inv w n t w1 :
  first_sweep w n t w1 →
  ∃ ls, evolves w ls w1 ∧ Forall (is_sweep n t) ls ∧ k_seq (w_core w1) < 2 ^ 63.
Proof.
  intros (_ & next & ls & Hev & Hok & Hr & _). exists ls. split; [done|]. split; [done|].
  by apply room_seq in Hr.
Qed.

(** What an operation on the lease of a message establishes, given the effect
    [done] of a success and [failed] of an append error. *)
Definition on_lease w (n id receipt : string) (err : option error)
    (success : world L → Prop) (failure : error → world L → Prop) w' : Prop :=
  match err with
  | None =>
    ∃ t w1, first_sweep w n t w1 ∧
      lease_check (a_lookup (abs (w_core w1)) n id) receipt = None ∧ success w1
  | Some e =>
    k_queues (w_core w) !! n = None ∧ e = ErrQueueNotFound ∧ w' = w ∨
    ∃ t w1, first_sweep w n t w1 ∧
      (lease_check (a_lookup (abs (w_core w1)) n id) receipt = Some e ∧ w' = w1 ∨
       lease_check (a_lookup (abs (w_core w1)) n id) receipt = None ∧ failure e w1)
  end.

Lemma wp_now_sweep {A} n w (f : Z → GoM (world L) A) (Q : A → world L → Prop) :
  roomy w → is_Some (k_queues (w_core w) !! n) →
  (∀ t w1, first_sweep w n t w1 → is_Some (k_queues (w_core w1) !! n) → wp (f t) Q w1) →
  wp (t ← now; _ ← sweepQueue n t; f t) Q w.
Proof.
  intros Hro Hq HQ. apply wp_bind, wp_now. intros w1 Hg _. set (t := env_now _ _).
  pose proof (gr_core _ _ _ Hg) as Hc.
  apply wp_bind. eapply wp_mono.
  { apply (wp_sweepQueue n t (2 ^ 63)); rewrite ?Hc; [done|apply Hro|done|by apply roomy_room]. }
  intros next w2 Hs. eapply (sweeps_grows w) in Hs; [|exact Hg|intros ? ? ? Hn _ _; exact Hn].
  destruct (swept_queue _ _ _ _ _ _ _ _ _ Hq Hs) as (_ & Hq2 & _).
  apply HQ; [by split; [|exists next]|done].
Qed.

Lemma wp_lookupLease queue id receipt w :
  roomy w →
  wp (lookupLease queue id receipt)
    (λ r w',
      match r with
      | Err e =>
        k_queues (w_core w) !! queue = None ∧ e = ErrQueueNotFound ∧ w' = w ∨
        ∃ t, first_sweep w queue t w' ∧
          lease_check (a_lookup (abs (w_core w')) queue id) receipt = Some e
      | Ok p =>
        ∃ t q m, first_sweep w queue t w' ∧ holds w' queue q id p m ∧
          m_state m = stateLeased ∧ m_Receipt m = receipt
      end) w.
Proof.
  intros Hro. unfold lookupLease. apply wp_bind, wp_lookup_queue.
  destruct (k_queues (w_core w) !! queue) as [q0|] eqn:Hq0; [|by apply wp_ret; left].
  apply wp_now_sweep; [done|eauto|]. intros t w1 Hfs [q Hq].
  destruct (first_sweep_inv _ _ _ _ Hfs) as (ls & Hev & _). pose proof (ev_wf _ _ _ Hev) as Hwf.
  apply wp_bind. eapply wp_deref_queue; [done|].
  destruct (q_byID q !! id) as [p|] eqn:Hp.
  2: { apply wp_ret. right. exists t. split; [done|].
       rewrite a_lookup_abs, Hq. simpl. by rewrite Hp. }
  destruct (wf_lookup _ _ _ _ _ Hwf Hq Hp) as (m & Hm & Hid & Hloc & Hl).
  apply wp_bind. eapply wp_load; [done|].
  repeat case_decide; apply wp_ret.
  - right. exists t. split; [done|]. rewrite Hl. unfold lease_check. simpl. unfold abs_status.
    by destruct (m_state m).
  - right. exists t. split; [done|]. rewrite Hl. unfold lease_check. simpl. unfold abs_status.
    destruct (m_state m); try by exfalso; auto. by rewrite decide_False.
  - exists t, q, m. split; [done|]. split; [by split|].
    split; [by destruct (decide (m_state m = stateLeased))|].
    by destruct (decide (m_Receipt m = receipt)).
Qed.

Lemma holds_lease w n q id p m receipt :
  holds w n q id p m → m_state m = stateLeased → m_Receipt m = receipt →
  a_Status (abs_msg m) = ALeased receipt (m_Deadline m) ∧
  lease_check (a_lookup (abs (w_core w)) n id) receipt = None.
Proof.
  intros Hho Hst Hr. destruct (ho_lookup _ _ _ _ _ _ Hho) as (_ & _ & Hl & _).
  assert (a_Status (abs_msg m) = ALeased receipt (m_Deadline m)) as Hs
    by (simpl; unfold abs_status; by rewrite Hst, Hr).
  split; [done|]. rewrite Hl. apply lease_check_None. eauto.
Qed.

Lemma wp_Ack queue id receipt w :
  roomy w →
  wp (Ack queue id receipt)
    (λ err w', on_lease w queue id receipt err
       (λ w1, evolves w1 [LAck queue id receipt (clock w1)] w')
       (λ e w1, evolves w1 [] w' ∧ append_failed w1 (LAck queue id receipt (clock w1)) e w') w') w.
Proof.
  intros Hro. unfold Ack. apply wp_bind. eapply wp_mono; [by apply wp_lookupLease|].
  intros [p|e] w1.
  2: { intros [Hnone|(t & Hfs & Hck)]; apply wp_ret; [by left|right]. exists t, w1. auto. }
  intros (t & q & m & Hfs & Hho & Hst & Hr).
  destruct (holds_lease _ _ _ _ _ _ _ Hho Hst Hr) as [Hs Hck].
  destruct (ho_lookup _ _ _ _ _ _ Hho) as (Hid & _ & Hl & _).
  apply wp_bind, wp_now. intros w2 Hg2 _. set (ts := env_now _ _).
  apply wp_bind, wp_append; [intros w3 Hg3|intros e w3 Hg3 Hrf];
    pose proof (grows_trans _ _ _ _ _ Hg2 Hg3) as Hg; simpl in Hg;
    pose proof (gr_core _ _ _ Hg) as Hc.
  2: { apply wp_ret. right. exists t, w1. split; [done|]. right. split; [done|].
       split; [apply evolves_grows; [apply Hho|done]|].
       eapply failed_before; [exact (gr_log _ _ _ Hg2)|by apply Hrf]. }
  clear Hg2 Hg3. pose proof Hho as [Hwf Hq Hp Hm].
  apply wp_bind. eapply wp_load; [by rewrite Hc|].
  apply wp_bind. eapply wp_deref_queue; [by rewrite Hc|].
  apply wp_bind, wp_put_queue, wp_ret. rewrite Hc, Hid. exists t, w1. split; [done|].
  split; [done|]. set (q' := q_set_totals _ _ _ _).
  destruct (core_take w1 queue q id p m q' Hho) as [Hwf' Habs'].
  - eapply removed_pending; try done. congruence.
  - apply (wf_queues _ Hwf _ _ Hq).
  - refine (evolves_step w1 w3 (LAck queue id receipt ts) _ Hg Hwf' _).
    rewrite Habs'. by eapply step_ack.
Qed.

Lemma wp_Nack queue id receipt w :
  roomy w →
  wp (Nack queue id receipt)
    (λ err w', on_lease w queue id receipt err
       (λ w1, ∃ m c, a_lookup (abs (w_core w1)) queue id = Some m ∧
          a_cfg (abs (w_core w1)) queue = Some c ∧
          if exhausted c (a_Receives m)
          then ∃ ls, evolves w1 ls w' ∧
                 dead_steps (abs (w_core w1)) queue id (c_DeadLetter c) None ls
          else evolves w1 [LNack queue id receipt (clock w1)] w')
       (λ e w1, ∃ m c, a_lookup (abs (w_core w1)) queue id = Some m ∧
          a_cfg (abs (w_core w1)) queue = Some c ∧
          if exhausted c (a_Receives m)
          then ∃ ls, evolves w1 ls w' ∧
                 dead_steps (abs (w_core w1)) queue id (c_DeadLetter c) (Some e) ls ∧
                 dead_failed w1 queue id (c_DeadLetter c) e w'
          else evolves w1 [] w' ∧ append_failed w1 (LNack queue id receipt (clock w1)) e w') w') w.
Proof.
  intros Hro. unfold Nack. apply wp_bind. eapply wp_mono; [by apply wp_lookupLease|].
  intros [p|e] w1.
  2: { intros [Hnone|(t & Hfs & Hck)]; apply wp_ret; [by left|right]. exists t, w1. auto. }
  intros (t & q & m & Hfs & Hho & Hst & Hr).
  destruct (holds_lease _ _ _ _ _ _ _ Hho Hst Hr) as [Hs Hck].
  destruct (ho_lookup _ _ _ _ _ _ Hho) as (Hid & _ & Hl & Hcfg).
  destruct (first_sweep_inv _ _ _ _ Hfs) as (_ & _ & _ & Hseq).
  apply wp_bind. eapply wp_deref_queue; [apply Hho|].
  apply wp_bind. eapply wp_load; [apply Hho|].
  destruct (exhausted (q_cfg q) (m_Receives m)) eqn:Hex.
  { eapply wp_mono; [apply (wp_deadLetter w1 queue q id p m); try done;
      [by apply abs_leased|lia]|].
    intros [e|] w' (ls & Hev & Hds & Hrf).
    - right. exists t, w1. split; [done|]. right. split; [done|]. exists (abs_msg m), (q_cfg q).
      split; [done|]. split; [done|]. simpl. rewrite Hex. eauto.
    - exists t, w1. split; [done|]. split; [done|]. exists (abs_msg m), (q_cfg q).
      split; [done|]. split; [done|]. simpl. rewrite Hex. eauto. }
  apply wp_bind, wp_now. intros w2 Hg2 _. set (ts := env_now _ _).
  apply wp_bind, wp_append; [intros w3 Hg3|intros e w3 Hg3 Hrf];
    pose proof (grows_trans _ _ _ _ _ Hg2 Hg3) as Hg; simpl in Hg;
    pose proof (gr_core _ _ _ Hg) as Hc.
  2: { apply wp_ret. right. exists t, w1. split; [done|]. right. split; [done|].
       exists (abs_msg m), (q_cfg q). split; [done|]. split; [done|]. simpl. rewrite Hex.
       split; [apply evolves_grows; [apply Hho|done]|].
       eapply failed_before; [exact (gr_log _ _ _ Hg2)|]. by apply Hrf. }
  clear Hg2 Hg3.
  pose proof (holds_core _ _ _ _ _ _ _ Hho Hc) as Hho3.
  apply wp_bind. eapply wp_deref_queue; [apply Hho3|]. rewrite Hid.
  assert (∀ Q, wp (put_queue queue (q_set_pending (delete id (q_pending q)) q) ≫=
                   λ _, pushReady queue p) Q w3 →
          wp (put_queue queue (q_set_pending (delete id (q_pending q)) q))
             (λ _, wp (pushReady queue p) Q) w3) as Hjoin by done.
  apply wp_bind. eapply wp_mono; [apply Hjoin; eapply wp_settle; [done|congruence]|].
  intros [] w4 Hw4. apply wp_bind. eapply wp_mono; [exact Hw4|].
  intros _ w5 (k' & -> & Hk' & Habs'). rewrite Hc in Habs'.
  assert (is_Some (k_queues k' !! queue)) as [q5 Hq5].
  { rewrite <-abs_queues_is_Some, Habs', as_queues_is_Some_put.
    eauto using a_lookup_is_Some. }
  apply wp_bind. eapply wp_broadcast; [done|exact Hq5|]. apply wp_ret.
  destruct (core_rewake _ _ _ Hk' Hq5) as [Hwf6 Habs6].
  exists t, w1. split; [done|]. split; [done|]. exists (abs_msg m), (q_cfg q).
  split; [done|]. split; [done|]. simpl. rewrite Hex.
  refine (evolves_step w1 w3 (LNack queue id receipt ts) _ Hg Hwf6 _).
  rewrite Habs6, Habs'. by eapply step_nack.
Qed.

(** The step of Extend: the new deadline is counted from the first reading of the clock
    after the sweep, the record has the time of the second. *)
Definition extended w (queue id receipt : string) (visibility : Z) : label :=
  LExtend queue id receipt (clock w + visibility) (env_now (w_env w) (S (w_tick w))).

Lemma wp_Extend queue id receipt visibility w :
  roomy w →
  wp (Extend queue id receipt visibility)
    (λ err w',
      if (0 <? visibility) && (visibility <=? MaxVisibility)
      then on_lease w queue id receipt err
             (λ w1, evolves w1 [extended w1 queue id receipt visibility] w')
             (λ e w1, evolves w1 [] w' ∧ append_failed w1 (extended w1 queue id receipt visibility) e w') w'
      else w' = w ∧ is_Some err) w.
Proof.
  intros Hro. unfold Extend.
  assert ((visibility <=? 0) || (MaxVisibility <? visibility) =
          negb ((0 <? visibility) && (visibility <=? MaxVisibility))) as ->
    by (rewrite negb_andb, !Z.leb_antisym, negb_involutive; done).
  destruct ((0 <? visibility) && _); cbn [negb]; [|by apply wp_ret; eauto].
  apply wp_bind. eapply wp_mono; [by apply wp_lookupLease|].
  intros [p|e] w1.
  2: { intros [Hnone|(t & Hfs & Hck)]; apply wp_ret; [by left|right]. exists t, w1. auto. }
  intros (t & q & m & Hfs & Hho & Hst & Hr).
  destruct (holds_lease _ _ _ _ _ _ _ Hho Hst Hr) as [Hs Hck].
  destruct (ho_lookup _ _ _ _ _ _ Hho) as (Hid & Hloc & Hl & _).
  apply wp_bind, wp_now. intros w2 Hg2 Htick. set (ts := env_now _ _).
  apply wp_bind, wp_now. intros w2' Hg2' _. rewrite Htick, (gr_env _ _ _ Hg2).
  set (ts' := env_now _ _).
  apply wp_bind, wp_append; [intros w3 Hg3|intros e w3 Hg3 Hrf];
    pose proof (grows_trans _ _ _ _ _ Hg2 (grows_trans _ _ _ _ _ Hg2' Hg3)) as Hg;
    simpl in Hg; pose proof (gr_core _ _ _ Hg) as Hc.
  2: { apply wp_ret. right. exists t, w1. split; [done|]. right. split; [done|].
       split; [apply evolves_grows; [apply Hho|done]|].
       eapply failed_before; [exact (gr_log _ _ _ (grows_trans _ _ _ _ _ Hg2 Hg2'))|by apply Hrf]. }
  clear Hg2 Hg2' Hg3. pose proof Hho as [Hwf Hq Hp Hm].
  apply wp_bind. eapply wp_load; [by rewrite Hc|].
  apply wp_bind, wp_save, wp_ret. rewrite Hc. exists t, w1. split; [done|].
  split; [done|]. set (m' := m_set_deadline (ts + visibility) m).
  destruct (core_deadline w1 queue q id p m (ts + visibility) Hho Hst) as [Hwf' Habs'].
  refine (evolves_step w1 w3 (LExtend queue id receipt (ts + visibility) ts') _ Hg Hwf' _).
  rewrite Habs'.
  change (m_set_deadline (ts + visibility) m) with m'.
  replace (abs_msg m') with (am_set_status (ALeased receipt (ts + visibility)) (abs_msg m)).
  { by eapply step_extend. }
  unfold abs_msg, am_set_status, abs_status. simpl. by rewrite Hst, Hr.
Qed.
End ops.
