(* ===== verification/RefineRecv.v ===== *)
(** Refinement, fourth part: the operations that take messages off the ready heap
    (lease and Receive, Redrive of internal/queue/engine.go).  A message is taken
    in send order; a failed append puts it back and leaves the queue as it was. *)

From S2P Require Import Prelude GoHeap Ids WalRecord Config Message Engine Spec Invariant.
From S2P Require Import Refine RefineTime RefineOps.
From stdpp Require Import fin_maps.

Local Open Scope Z_scope.

Lemma a_put_same n id m A : a_lookup A n id = Some m → a_put n id m A = A.
Proof.
  intros Hl. apply astate_eq; [done|intros n'; apply a_cfg_put|].
  intros n' id'. rewrite a_lookup_put by eauto using a_lookup_is_Some.
  by case_decide as He; [destruct He as [-> ->]|].
Qed.

Lemma i64_retract r : i64 r = r → i64 (i64 (r + 1) - 1) = r.
Proof. intros Hr. rewrite <-Hr at 2. unfold i64. zdiv. Qed.

Lemma burn_effect A B : asteps A [LBurn] B → B = a_set_seq (as_seq A + 1) A.
Proof.
  intros Hst. inversion Hst as [|? ? ? ? ? Hone Hrest]; subst. inversion Hrest; subst.
  inversion Hone as [| | | | | | | | | | |? [-> _]]; by subst.
Qed.

Section recv.
Context {L : Type} `{!Appender L} `{!LogLaws L} `{!ConfigJSON}.
Implicit Types w : world L.

(** ** Taking a message off the heap, and putting it back *)

(** What popReady finds: the first message in send order. *)
Record popped w (n : string) (q : queueState) (id : string) (p : ptr) (m : message)
    (h : list ptr) : Prop := {
  po_holds : holds w n q id p m;
  po_ready : m_state m = stateReady;
  po_perm : q_ready q ≡ₚ p :: h;
  po_heap : heap_ordered (seq_of (k_msgs (w_core w))) h;
  po_first : a_first (abs (w_core w)) n id (abs_msg m);
}.

Lemma ready_holds w n q p :
  wf (w_core w) → k_queues (w_core w) !! n = Some q → p ∈ q_ready q →
  ∃ m, holds w n q (m_ID m) p m ∧ m_state m = stateReady.
Proof.
  intros Hwf Hq Hp. destruct (wq_ready _ _ _ (wf_queues _ Hwf _ _ Hq) _ Hp) as (m & Hm & Hb).
  exists m. split; [by split|].
  destruct (wf_lookup _ _ _ _ _ Hwf Hq Hb) as (m' & Hm' & _ & Hloc & _).
  assert (m' = m) as -> by congruence. destruct (m_state m); [done|by destruct Hloc..].
Qed.

Lemma wp_pop n q (Q : ptr → world L → Prop) w :
  wf (w_core w) → k_queues (w_core w) !! n = Some q → q_ready q ≠ [] →
  (∀ id p m h, popped w n q id p m h →
     Q p (with_core w (k_upd n (q_set_ready h q) (k_seq (w_core w))
                        (k_msgs (w_core w)) (w_core w)))) →
  wp (popReady n) Q w.
Proof.
  intros Hwf Hq Hne HQ. eapply wp_popReady; [by apply (wf_queues _ Hwf)|done|done|].
  intros p h Hperm Hh Hmin.
  assert (p ∈ q_ready q) as Hp by (rewrite Hperm; left).
  destruct (ready_holds _ _ _ _ Hwf Hq Hp) as (m & Hho & Hst).
  apply (HQ (m_ID m) p m h). split; try done.
  destruct (ho_lookup _ _ _ _ _ _ Hho) as (_ & _ & Hl & _). split; [done|].
  split; [simpl; unfold abs_status; by rewrite Hst|].
  intros id' am' Hl' Hst'.
  destruct (a_lookup_abs_inv _ _ _ _ Hl') as (q' & p' & m' & Hq' & Hp' & Hm' & ->).
  assert (q' = q) as -> by congruence.
  destruct (wf_lookup _ _ _ _ _ Hwf Hq Hp') as (m2 & Hm2 & _ & Hloc & _).
  assert (m2 = m') as -> by congruence.
  assert (p' ∈ q_ready q) as Hin.
  { simpl in Hst'. unfold abs_status in Hst'. destruct (m_state m'); [apply Hloc|done..]. }
  specialize (Hmin p' Hin). destruct Hho as [_ _ _ Hm]. unfold seq_of in Hmin.
  by rewrite Hm, Hm' in Hmin.
Qed.

Lemma popped_fresh w n q id p m h :
  popped w n q id p m h →
  (p ∉ h) ∧ q_pending q !! id = None ∧ NoDup h ∧
  (∀ p', p' ∈ h → is_Some (k_msgs (w_core w) !! p')).
Proof.
  intros [Hho Hst Hperm _ _]. destruct (ho_lookup _ _ _ _ _ _ Hho) as (_ & Hloc & _).
  destruct Hho as [Hwf Hq _ _]. pose proof (wf_queues _ Hwf _ _ Hq) as Hwq.
  pose proof (wq_nodup _ _ _ Hwq) as Hnd. rewrite Hperm in Hnd.
  apply NoDup_cons in Hnd as [Hp Hnd]. rewrite Hst in Hloc. destruct Hloc as [_ Hpe].
  split; [done|]. split; [done|]. split; [done|]. intros p' Hp'.
  destruct (wq_ready _ _ _ Hwq p') as (m' & Hm' & _); [rewrite Hperm; by right|eauto].
Qed.

(** The message comes back, with the fields that count unchanged. *)
Lemma wp_push_back w n q id p m h m' s w1 (Q : () → world L → Prop) :
  popped w n q id p m h → m_ID m' = id → abs_msg (m_to_ready m') = abs_msg m →
  w_core w1 = k_upd n (q_set_ready h q) s (<[p := m']> (k_msgs (w_core w))) (w_core w) →
  k_seq (w_core w) ≤ s < 2 ^ 64 →
  (∀ k', wf k' → abs k' = a_set_seq s (abs (w_core w)) → Q () (with_core w1 k')) →
  wp (pushReady n p) Q w1.
Proof.
  intros Hpo Hid Hm' Hc Hs HQ. destruct (popped_fresh _ _ _ _ _ _ _ Hpo) as (Hp & Hpe & Hnd & Hin).
  destruct Hpo as [Hho Hst Hperm Hh _].
  destruct (ho_lookup _ _ _ _ _ _ Hho) as (_ & _ & Hl & _). destruct Hho as [Hwf Hq Hb Hm].
  eapply (wp_pushReady _ _ m' (q_set_ready h q)); rewrite ?Hc; simpl.
  - by rewrite lookup_insert_eq.
  - by rewrite lookup_insert_eq.
  - done.
  - intros p' Hp'. rewrite lookup_insert. case_decide; eauto.
  - by apply heap_ordered_insert.
  - intros h2 Hperm2 Ho2. rewrite insert_insert_eq in *. rewrite k_upd_upd.
    destruct (core_relocate _ _ _ Hwf Hq id p (m_to_ready m') (q_set_ready h2 q) s Hb Hid)
      as [Hwf' Habs'].
    + split; simpl; try done.
      * by rewrite delete_id.
      * intros p' Hne. rewrite Hperm2, Hperm, !elem_of_cons. tauto.
      * rewrite Hperm2, elem_of_cons. tauto.
      * rewrite Hperm2. by apply NoDup_cons.
    + done.
    + rewrite Hm'. eapply awf_put_same; [apply Hwf|exact Hl|done| |done].
      exact (aw_recv _ (wf_abs _ Hwf) _ _ _ Hl).
    + rewrite Hm', a_put_same in Habs' by done. by apply HQ.
Qed.

(** ** lease *)

(** Delivery [d] is what the record of label [l] says, of a message that was
    ready in [B]. *)
Definition delivered (B : astate) (n : string) (t vis : Z) (d : Delivery) (l : label) : Prop :=
  ∃ m, a_lookup B n (d_ID d) = Some m ∧ a_Status m = AReady ∧
    d_Body d = a_Body m ∧ d_SentAt d = a_Sent m ∧ d_Receives d = i64 (a_Receives m + 1) ∧
    l = LRecv n (d_ID d) (d_Receipt d) t (t + vis) (d_Receives d).

Definition no_ready (A : astate) (n : string) : Prop :=
  ∀ id m, a_lookup A n id = Some m → a_Status m ≠ AReady.

Definition leases w (n : string) (max vis t : Z) (ds : list Delivery)
    (r : list Delivery * option error) w' : Prop :=
  ∃ new ls, r.1 = ds ++ new ∧ Forall2 (delivered (abs (w_core w)) n t vis) new ls ∧
    (new ≠ [] → Z.of_nat (length r.1) ≤ max) ∧
    match r.2 with
    | None => evolves w ls w' ∧
        (max ≤ Z.of_nat (length r.1) ∨ no_ready (abs (w_core w')) n)
    | Some e => evolves w (ls ++ [LBurn]) w' ∧ Z.of_nat (length r.1) < max ∧
        ∃ id receipt count, append_failed w (LRecv n id receipt t (t + vis) count) e w'
    end.

(** A lease of one message. *)
Definition a_lease (n id : string) (m : amsg) (s t vis : Z) (A : astate) : astate :=
  a_put n id (am_lease (receipt_of s) (t + vis) m) (a_set_seq s A).

Lemma lease_fewer A n id m s t vis :
  a_lookup A n id = Some m → a_Status m = AReady →
  ∀ n' id' m', a_lookup (a_lease n id m s t vis A) n' id' = Some m' → a_Status m' = AReady →
  ¬ (n' = n ∧ id' = id) ∧ a_lookup A n' id' = Some m'.
Proof.
  intros Hl Hst n' id' m'. unfold a_lease.
  rewrite a_lookup_put by (simpl; eauto using a_lookup_is_Some).
  case_decide as Hid; [by intros [= <-]|]. by intros Hl' _.
Qed.

Lemma lease_room A n id m s t vis N :
  a_first A n id m → s = as_seq A + 1 → room (ready_in n) A N →
  awf A → room (ready_in n) (a_lease n id m s t vis A) N.
Proof.
  intros (Hl & Hst & _) -> Hr HA. pose proof (lease_fewer A n id m (as_seq A + 1) t vis Hl Hst) as Hf.
  apply (room_spend _ A _ _ n id m); [|unfold a_lease; simpl; lia|exact Hl|by split| |done].
  - intros n' id' m' Hl' [-> Hs']. destruct (Hf _ _ _ Hl' Hs'). by exists m'.
  - intros n' m' Hl' [-> Hs']. destruct (Hf _ _ _ Hl' Hs') as [[] _]. done.
Qed.

Lemma delivered_before A n id m s t vis d l :
  a_lookup A n id = Some m → a_Status m = AReady →
  delivered (a_lease n id m s t vis A) n t vis d l → delivered A n t vis d l.
Proof.
  intros Hl Hst (m' & Hl' & Hst' & Hrest).
  destruct (lease_fewer _ _ _ _ _ _ _ Hl Hst _ _ _ Hl' Hst') as [_ ?]. by exists m'.
Qed.

(** The core after a message is taken off the heap and leased. *)
Lemma core_lease w n q id p m h t vis (s := k_seq (w_core w) + 1) :
  popped w n q id p m h → s < 2 ^ 64 →
  let k' := k_upd n (q_set_pending (<[id := p]> (q_pending q)) (q_set_ready h q)) s
              (<[p := m_to_leased (receipt_of s) (t + vis) (i64 (m_Receives m + 1)) m]>
                 (k_msgs (w_core w))) (w_core w) in
  wf k' ∧ abs k' = a_lease n id (abs_msg m) s t vis (abs (w_core w)) ∧
  astep (abs (w_core w))
    (LRecv n id (receipt_of s) t (t + vis) (i64 (a_Receives (abs_msg m) + 1))) (abs k').
Proof.
  intros Hpo Hs. destruct (popped_fresh _ _ _ _ _ _ _ Hpo) as (Hp & Hpe & Hnd & Hin).
  destruct Hpo as [Hho Hst Hperm Hh Hfirst].
  destruct (ho_lookup _ _ _ _ _ _ Hho) as (Hid & _ & Hl & _). destruct Hho as [Hwf Hq Hb Hm].
  assert (astep (abs (w_core w))
    (LRecv n id (receipt_of s) t (t + vis) (i64 (a_Receives (abs_msg m) + 1)))
    (a_lease n id (abs_msg m) s t vis (abs (w_core w)))) as Hstep by (by apply step_recv).
  set (m' := m_to_leased _ _ _ _). set (q' := q_set_pending _ _).
  destruct (core_relocate _ _ _ Hwf Hq id p m' q' s Hb Hid) as [Hwf' Habs'].
  - split; simpl; try done. intros p' Hne. rewrite Hperm, elem_of_cons. tauto.
  - by apply heap_ordered_insert.
  - by eapply astep_awf, Hstep; apply Hwf.
  - intros k'. split; [done|]. change (abs k' = a_lease n id (abs_msg m) s t vis (abs (w_core w)))
      in Habs'. by rewrite Habs'.
Qed.

Lemma wp_lease_loop n max vis t N : N ≤ 2 ^ 64 → ∀ fuel w q ds,
  wf (w_core w) → k_queues (w_core w) !! n = Some q → (length (q_ready q) < fuel)%nat →
  room (ready_in n) (abs (w_core w)) N →
  wp (lease_loop fuel n max vis t ds) (leases w n max vis t ds) w.
Proof.
  intros HN. induction fuel as [|fuel IH]; intros w q ds Hwf Hq Hfuel Hroom; [lia|].
  cbn [lease_loop]. apply wp_bind. eapply wp_deref_queue; [done|].
  destruct (_ && _) eqn:Hcond.
  2: { apply wp_ret. exists [], []. rewrite app_nil_r. split; [done|]. split; [done|].
       split; [done|]. split; [by apply evolves_refl|]. simpl.
       apply andb_false_iff in Hcond as [?%Z.ltb_ge|Hcond%Z.ltb_ge]; [by left|right].
       destruct (q_ready q) as [|p h] eqn:Hr; [|simpl in Hcond; lia].
       intros id m Hl Hst. destruct (a_lookup_abs_inv _ _ _ _ Hl) as (q' & p & m' & Hq' & Hp & Hm & ->).
       assert (q' = q) as -> by congruence.
       destruct (wf_lookup _ _ _ _ _ Hwf Hq Hp) as (m2 & Hm2 & _ & Hloc & _).
       assert (m2 = m') as -> by congruence. simpl in Hst. unfold abs_status in Hst.
       destruct (m_state m'); [|done..]. destruct Hloc as [Hin _]. rewrite Hr in Hin.
       by apply not_elem_of_nil in Hin. }
  apply andb_true_iff in Hcond as [Hlt%Z.ltb_lt Hpos%Z.ltb_lt].
  assert (q_ready q ≠ []) as Hne by (intros He; rewrite He in Hpos; simpl in Hpos; lia).
  apply wp_bind, (wp_pop n q); [done..|]. intros id p m h Hpo.
  pose proof (po_holds _ _ _ _ _ _ _ Hpo) as Hho. pose proof (po_first _ _ _ _ _ _ _ Hpo) as Hfirst.
  pose proof Hfirst as (Hl & Hst & _).
  assert (k_seq (w_core w) + 1 < N) as Hs
    by (apply (room_next (ready_in n) (abs (w_core w)) N n id (abs_msg m)); done).
  pose proof (aw_seq _ (wf_abs _ Hwf)) as Hs0. simpl in Hs0.
  pose proof (ho_msg _ _ _ _ _ _ Hho) as Hm.
  destruct (ho_lookup _ _ _ _ _ _ Hho) as (Hid & _ & _ & _).
  set (s := k_seq (w_core w) + 1).
  apply wp_bind. eapply wp_load; [exact Hm|].
  unfold nextReceipt. apply wp_bind, wp_bind, wp_incr_seq, wp_ret. simpl.
  rewrite u64_next by lia. fold s. apply wp_bind, wp_save. simpl.
  rewrite Hid, (wq_name _ _ _ (wf_queues _ Hwf _ _ Hq)).
  set (m' := m_to_leased _ _ _ _).
  match goal with |- wp _ _ (with_core (with_core (with_core w _) _) ?k1) =>
    change (with_core (with_core (with_core w _) _) k1) with (with_core w k1) end.
  apply wp_bind, wp_append; [intros w2 Hg2|intros e w2 Hg2 Hrf];
    pose proof (grows_across _ _ _ _ _ (grows_refl w) Hg2) as Hg;
    pose proof (gr_core _ _ _ Hg2) as Hc2; simpl in Hc2.
  - apply wp_bind. eapply wp_deref_queue; [rewrite Hc2; simpl; by rewrite lookup_insert_eq|].
    apply wp_bind, wp_put_queue. rewrite Hc2. simpl.
    destruct (core_lease w n q id p m h t vis Hpo) as (Hwf3 & Habs3 & Hstep); [lia|].
    fold s m' in Hwf3, Habs3, Hstep.
    set (k3 := k_upd n _ s _ _) in Hwf3, Habs3, Hstep.
    match goal with |- wp _ _ (with_core _ ?k) =>
      replace k with k3 by (unfold k_upd, k3; simpl; by rewrite insert_insert_eq) end.
    pose proof (evolves_step w (with_core w2 (w_core w))
      (LRecv n id (receipt_of s) t (t + vis) (i64 (m_Receives m + 1))) k3 Hg Hwf3 Hstep) as Hev.
    change (with_core (with_core w2 (w_core w)) k3) with (with_core w2 k3) in Hev.
    eapply wp_mono.
    { eapply (IH (with_core w2 k3)); simpl; [done|by rewrite lookup_insert_eq| |].
      - simpl. rewrite (po_perm _ _ _ _ _ _ _ Hpo) in Hfuel. simpl in Hfuel. lia.
      - rewrite Habs3. apply lease_room; [done..|apply Hwf]. }
    intros r w4 (new & ls & Hr & Hds & Hmax & Hend). simpl in Hds. rewrite Habs3 in Hds.
    rewrite <-app_assoc in Hr.
    exists (mkDelivery id (receipt_of s) (m_Body m) (i64 (m_Receives m + 1)) (m_SentAt m) :: new).
    eexists (_ :: ls). split; [exact Hr|]. split; [|split].
    + constructor; [by exists (abs_msg m)|]. eapply Forall2_impl; [exact Hds|].
      intros d l. by apply delivered_before.
    + intros _. destruct new as [|d new]; [|by apply Hmax].
      rewrite Hr, length_app. simpl. lia.
    + destruct r.2 as [e|].
      * destruct Hend as (Hend & ? & i0 & rc & c0 & Hrf). split; [by eapply evolves_cons|].
        split; [done|]. exists i0, rc, c0. eapply failed_before; [apply Hev|exact Hrf].
      * destruct Hend as [Hend ?]. split; [|done]. by eapply evolves_cons.
  - apply wp_bind, wp_save. rewrite Hc2. simpl.
    match goal with |- wp _ _ (with_core _ ?k) => set (k2 := k) end.
    assert (a_next (abs (w_core w)) s) as Hnext by (split; [done|simpl; lia]).
    apply wp_bind. eapply (wp_push_back w n q id p m h (m_set_receives (i64 (i64 (m_Receives m + 1) - 1)) m') s
      (with_core w2 k2)); [done|done| | |simpl; lia|].
    + unfold abs_msg. simpl. rewrite i64_retract; [|exact (aw_recv _ (wf_abs _ Hwf) _ _ _ Hl)].
      f_equal. unfold abs_status. simpl. by rewrite (po_ready _ _ _ _ _ _ _ Hpo).
    + subst k2. unfold k_upd, k_set_msgs. simpl. by rewrite insert_insert_eq.
    + intros k' Hk' Ha'. apply wp_ret. exists [], []. rewrite app_nil_r. split; [done|].
      split; [done|]. split; [done|]. split; [|split; [done|]]; simpl.
      * refine (evolves_step w (with_core w2 (w_core w)) LBurn k' Hg Hk' _).
        rewrite Ha'. by constructor.
      * do 3 eexists. apply (Hrf (LRecv n id _ t (t + vis) _) eq_refl).
Qed.

(** The position in send order of a delivered message. *)
Definition position (B : astate) (n : string) (d : Delivery) : Z :=
  from_option a_Seq 0 (a_lookup B n (d_ID d)).

(** The ready messages of [B] are among those of [A]. *)
Definition ready_within (A B : astate) (n : string) : Prop :=
  ∀ id m, a_lookup B n id = Some m → a_Status m = AReady → a_lookup A n id = Some m.

Record in_order (B0 B C : astate) (n : string) (ds : list Delivery) : Prop := {
  io_sorted : StronglySorted (λ d1 d2, position B0 n d1 < position B0 n d2) ds;
  io_ready d : d ∈ ds →
    ∃ m, a_lookup B n (d_ID d) = Some m ∧ a_Status m = AReady ∧ position B0 n d = a_Seq m;
  io_within : ready_within B C n;
  io_left d id m : d ∈ ds → a_lookup C n id = Some m → a_Status m = AReady →
    position B0 n d < a_Seq m;
}.

Lemma lease_order B0 B n t vis ds ls C :
  awf B → ready_within B0 B n → Forall2 (delivered B0 n t vis) ds ls → asteps B ls C →
  in_order B0 B C n ds.
Proof.
  intros HB Hin Hds Hst. revert ds Hds.
  induction Hst as [B|B l B1 ls C Hone Hrest IH]; intros ds Hds.
  { inversion Hds; subst. split; [constructor|by intros d ?%not_elem_of_nil| |
      by intros d id m ?%not_elem_of_nil]. by intros id m. }
  pose proof (astep_awf _ _ _ HB Hone) as HB1.
  inversion Hds as [|d ? ds' ? (m0 & _ & _ & _ & _ & _ & ->) Hds']; subst.
  inversion Hone as [| | |? ? m s ? ? Hfirst Hs| | | | | | | |]; subst.
  pose proof Hfirst as (Hl & Hr & Hmin).
  assert (∀ id' m', a_lookup (a_put n (d_ID d) (am_lease (receipt_of s) (t + vis) m) (a_set_seq s B))
            n id' = Some m' → a_Status m' = AReady →
            a_lookup B n id' = Some m' ∧ a_Seq m < a_Seq m') as Hlater.
  { intros id' m' Hl' Hr'.
    destruct (lease_fewer B n (d_ID d) m s t vis Hl Hr n id' m' Hl' Hr') as [Hne HlB].
    split; [done|]. specialize (Hmin _ _ HlB Hr').
    assert (a_Seq m ≠ a_Seq m'); [|lia]. intros He. apply Hne. split; [done|].
    symmetry. exact (aw_inj _ HB _ _ _ _ _ _ Hl HlB He). }
  destruct (IH HB1) with (ds := ds') as [Hsort Hready Hwithin Hleft]; [|done|].
  { intros id' m' Hl' Hr'. destruct (Hlater _ _ Hl' Hr'). by apply Hin. }
  assert (position B0 n d = a_Seq m) as Hpos
    by (unfold position; by rewrite (Hin _ _ Hl Hr)).
  split.
  - constructor; [done|]. apply Forall_forall. intros d' Hd'.
    destruct (Hready _ Hd') as (m' & Hl' & Hr' & ->). rewrite Hpos. by apply (Hlater (d_ID d')).
  - intros d' [->|Hd']%elem_of_cons; [by exists m|].
    destruct (Hready _ Hd') as (m' & Hl' & Hr' & ?). exists m'. split; [|done].
    by apply Hlater.
  - intros id' m' Hl' Hr'. specialize (Hwithin _ _ Hl' Hr'). by apply Hlater.
  - intros d' id' m' [->|Hd']%elem_of_cons Hl' Hr'; [|eauto].
    rewrite Hpos. apply (Hlater id'); [by apply Hwithin|done].
Qed.

(** A step that leases a message, and what it changes. *)
Lemma recv_step A n id receipt ts deadline count B :
  astep A (LRecv n id receipt ts deadline count) B →
  ∃ m, a_lookup A n id = Some m ∧ a_Status m = AReady ∧ count = i64 (a_Receives m + 1) ∧
    ∀ n' id', a_lookup B n' id' =
      if decide (n' = n ∧ id' = id) then Some (am_lease receipt deadline m) else a_lookup A n' id'.
Proof.
  inversion 1 as [| | |? ? m s ? ? (Hl & Hr & _) _| | | | | | | |]; subst. exists m.
  split_and!; [done..|]. intros n' id'.
  by rewrite a_lookup_put by (simpl; eauto using a_lookup_is_Some).
Qed.

(** What is leased stays as it is while others are leased. *)
Lemma leased_kept B0 B n t vis ds ls C id m :
  Forall2 (delivered B0 n t vis) ds ls → asteps B ls C →
  a_lookup B n id = Some m → a_Status m ≠ AReady → a_lookup C n id = Some m.
Proof.
  intros Hds Hst. revert ds Hds. induction Hst as [|B l B1 ls C Hone _ IH]; intros ds Hds Hm Hs; [done|].
  inversion Hds as [|d ? ds' ? (m0 & _ & _ & _ & _ & _ & ->) Hds']; subst.
  apply recv_step in Hone as (m1 & Hl & Hr & _ & Hlook). eapply IH; [exact Hds'| |done].
  rewrite Hlook, decide_False; [done|]. intros [_ ->]. congruence.
Qed.

(** The message of a delivery: leased under its receipt, with its content. *)
Definition holds_delivery (C : astate) (n : string) (deadline : Z) (d : Delivery) : Prop :=
  ∃ m, a_lookup C n (d_ID d) = Some m ∧ a_Status m = ALeased (d_Receipt d) deadline ∧
    a_Body m = d_Body d ∧ a_Sent m = d_SentAt d ∧ a_Receives m = d_Receives d.

Lemma deliveries_held B0 B n t vis ds ls C :
  ready_within B0 B n → Forall2 (delivered B0 n t vis) ds ls → asteps B ls C →
  Forall (holds_delivery C n (t + vis)) ds.
Proof.
  intros Hin Hds Hst. revert ds Hds Hin.
  induction Hst as [|B l B1 ls C Hone Hrest IH]; intros ds Hds Hin; [by inversion Hds|].
  inversion Hds as [|d ? ds' ? (m0 & Hm0 & Hs0 & Hb & Ht & Hc & ->) Hds']; subst.
  apply recv_step in Hone as (m & Hl & Hr & _ & Hlook).
  rewrite (Hin _ _ Hl Hr) in Hm0. injection Hm0 as <-.
  constructor.
  - exists (am_lease (d_Receipt d) (t + vis) m). split; [|by rewrite Hb, Ht, Hc].
    eapply leased_kept; [exact Hds'|exact Hrest| |done]. by rewrite Hlook, decide_True.
  - apply IH; [done|]. intros id' m' Hl' Hr'. rewrite Hlook in Hl'.
    case_decide; [by simplify_eq|]. by apply Hin.
Qed.

(** The visibility timeout of a lease: the queue's own by default. *)
Definition effective (c : Config) (vis : Z) : Z := if vis =? 0 then c_Visibility c else vis.

Lemma wp_lease n q max vis t w :
  wf (w_core w) → k_queues (w_core w) !! n = Some q → k_seq (w_core w) < 2 ^ 63 →
  wp (lease n max vis t) (leases w n max (effective (q_cfg q) vis) t []) w.
Proof.
  intros Hwf Hq Hs. unfold lease. apply wp_bind. eapply wp_deref_queue; [done|].
  apply (wp_lease_loop n max _ t (2 ^ 64) ltac:(lia) _ w q); [done|done|lia|].
  eapply room_weaken; [apply room_init, Hwf|]. simpl. lia.
Qed.

Lemma leases_evolves w n max vis t ds r w' :
  leases w n max vis t ds r w' → ∃ ls, evolves w ls w'.
Proof.
  intros (new & ls & _ & _ & _ & Hend). destruct r.2; destruct Hend as [Hev _]; eauto.
Qed.

(** No step of a lease touches the configurations. *)
Lemma delivered_cfg B n t vis ds ls A A' :
  Forall2 (delivered B n t vis) ds ls → asteps A ls A' → ∀ n', a_cfg A' n' = a_cfg A n'.
Proof.
  intros Hds Hst. revert ds Hds. induction Hst as [|A l A1 ls A' Hone Hrest IH]; [done|].
  intros ds Hds n'. inversion Hds as [|d ? ds' ? Hd Hds']; subst.
  rewrite (IH _ Hds'). destruct Hd as (m & _ & _ & _ & _ & _ & ->).
  inversion Hone; subst. by rewrite a_cfg_put.
Qed.

Lemma leases_queue w n max vis t ds r w' n' :
  leases w n max vis t ds r w' → is_Some (k_queues (w_core w) !! n') →
  is_Some (k_queues (w_core w') !! n').
Proof.
  intros (new & ls & _ & Hds & _ & Hend) Hq.
  rewrite <-abs_queues_is_Some, <-a_cfg_is_Some in Hq |- *.
  assert (∃ B, asteps (abs (w_core w)) ls B ∧ a_cfg (abs (w_core w')) n' = a_cfg B n')
    as (B & HB & Hc).
  { destruct r.2 as [e|]; destruct Hend as [Hev _]; pose proof (ev_steps _ _ _ Hev) as Hst.
    - apply asteps_app_inv in Hst as (B & HB & HB'). exists B. split; [done|].
      by rewrite (burn_effect _ _ HB').
    - eexists. by split; [exact Hst|]. }
  rewrite Hc. by rewrite (delivered_cfg _ _ _ _ _ _ _ _ Hds HB).
Qed.

Lemma wp_Receive_once queue max vis w :
  roomy w →
  wp (Receive_once queue max vis)
    (λ r w',
      k_queues (w_core w) !! queue = None ∧ r = Err ErrQueueNotFound ∧ w' = w ∨
      ∃ t w1 c, first_sweep w queue t w1 ∧ a_cfg (abs (w_core w1)) queue = Some c ∧
        match r with
        | Ok (ds, wake) =>
          leases w1 queue max (effective c vis) t [] (ds, None) w' ∧
          ∃ q', k_queues (w_core w') !! queue = Some q' ∧ q_wake q' = wake
        | Err e => ∃ ds, leases w1 queue max (effective c vis) t [] (ds, Some e) w'
        end) w.
Proof.
  intros Hro. unfold Receive_once. apply wp_bind, wp_lookup_queue.
  destruct (k_queues (w_core w) !! queue) as [q0|] eqn:Hq0; [|by apply wp_ret; left].
  apply wp_now_sweep; [done|eauto|]. intros t w1 Hfs [q Hq].
  destruct (first_sweep_inv _ _ _ _ Hfs) as (ls & Hev & _ & Hs). pose proof (ev_wf _ _ _ Hev) as Hwf.
  apply wp_bind. eapply wp_mono; [by apply (wp_lease queue q max vis t)|].
  intros [ds err] w2 Hle. destruct (leases_queue _ _ _ _ _ _ _ _ queue Hle) as [q2 Hq2]; [eauto|].
  apply wp_bind. eapply wp_deref_queue; [done|].
  assert (a_cfg (abs (w_core w1)) queue = Some (q_cfg q)) as Hc by (by rewrite a_cfg_abs, Hq).
  destruct err as [e|]; apply wp_ret; right; exists t, w1, (q_cfg q); (split; [done|]);
    (split; [done|]); eauto.
Qed.

Lemma wp_Receive_nowait queue max vis w (max' := if max <? 1 then 1 else max) :
  roomy w →
  wp (Receive_nowait queue max vis)
    (λ r w',
      if (0 <=? vis) && (vis <=? MaxVisibility) then
        k_queues (w_core w) !! queue = None ∧ r = Err ErrQueueNotFound ∧ w' = w ∨
        ∃ t w1 c, first_sweep w queue t w1 ∧ a_cfg (abs (w_core w1)) queue = Some c ∧
          match r with
          | Ok ds => leases w1 queue max' (effective c vis) t [] (ds, None) w'
          | Err e => ∃ ds, leases w1 queue max' (effective c vis) t [] (ds, Some e) w'
          end
      else w' = w ∧ ∃ e, r = Err e) w.
Proof.
  intros Hro. unfold Receive_nowait, Receive_args. fold max'.
  assert ((vis <? 0) || (MaxVisibility <? vis) =
          negb ((0 <=? vis) && (vis <=? MaxVisibility))) as ->
    by (rewrite negb_andb, !Z.leb_antisym, !negb_involutive; done).
  destruct (_ && _); cbn [negb]; [|by apply wp_ret; eauto].
  apply wp_bind. eapply wp_mono; [by apply wp_Receive_once|].
  intros [[ds wake]|e] w' Hr; apply wp_ret.
  - destruct Hr as [(_ & ? & _)|(t & w1 & c & Hfs & Hc & Hle & _)]; [done|].
    right. eauto 10.
  - destruct Hr as [(? & ? & ?)|(t & w1 & c & Hfs & Hc & ds & Hle)]; [left|right; eauto 10].
    split; [done|]. split; [congruence|done].
Qed.

(** ** Redrive *)

Definition moves (from to : string) (l : label) : Prop :=
  ∃ id ts, l = LMove from id to ts.

Definition a_move (from to id : string) (m : amsg) (s : Z) (A : astate) : astate :=
  a_put to id (am_moved s 0 m) (a_set_seq s (a_del from id A)).

Lemma move_room A from to id m s N :
  a_first A from id m → from ≠ to → is_Some (as_queues A !! to) → s = as_seq A + 1 →
  room (ready_in from) A N → room (ready_in from) (a_move from to id m s A) N.
Proof.
  intros (Hl & Hst & _) Hne Hto -> Hr. unfold a_move.
  assert (∀ n' id' m', a_lookup (a_move from to id m (as_seq A + 1) A) n' id' = Some m' →
            n' = from → id' ≠ id ∧ a_lookup A n' id' = Some m') as Hf.
  { intros n' id' m' Hl' ->. unfold a_move in Hl'.
    rewrite a_lookup_put in Hl' by (by apply as_queues_is_Some_del).
    rewrite decide_False, a_lookup_set_seq, a_lookup_del in Hl' by (intros [-> _]; done).
    case_decide; [done|]. split; [|done]. intros ->. auto. }
  apply (room_spend _ A _ _ from id m); [|simpl; lia|done|by split| |done].
  - intros n' id' m' Hl' [-> Hs']. destruct (Hf _ _ _ Hl' eq_refl). by exists m'.
  - intros n' m' Hl' [-> Hs']. destruct (Hf _ _ _ Hl' eq_refl). done.
Qed.

Definition redriven w from to max moved (r : Z * option error) w' : Prop :=
  ∃ ls, evolves w ls w' ∧ Forall (moves from to) ls ∧
    r.1 = moved + Z.of_nat (length ls) ∧ (ls ≠ [] → 0 < max → r.1 ≤ max) ∧
    match r.2 with
    | None => (0 < max ∧ max ≤ r.1) ∨ no_ready (abs (w_core w')) from
    | Some e => ∃ id ts, append_failed w (LMove from id to ts) e w'
    end.

Lemma empty_heap_no_ready k n q :
  wf k → k_queues k !! n = Some q → q_ready q = [] → no_ready (abs k) n.
Proof.
  intros Hwf Hq Hr id m Hl Hst.
  destruct (a_lookup_abs_inv _ _ _ _ Hl) as (q' & p & m' & Hq' & Hp & Hm & ->).
  assert (q' = q) as -> by congruence.
  destruct (wf_lookup _ _ _ _ _ Hwf Hq Hp) as (m2 & Hm2 & _ & Hloc & _).
  assert (m2 = m') as -> by congruence. simpl in Hst. unfold abs_status in Hst.
  destruct (m_state m'); [|done..]. destruct Hloc as [Hin _]. rewrite Hr in Hin.
  by apply not_elem_of_nil in Hin.
Qed.

Lemma wp_redrive_loop from to max N : N ≤ 2 ^ 64 → from ≠ to → to ≠ "" → ∀ fuel w q moved,
  wf (w_core w) → k_queues (w_core w) !! from = Some q →
  is_Some (k_queues (w_core w) !! to) → (length (q_ready q) < fuel)%nat →
  room (ready_in from) (abs (w_core w)) N →
  wp (redrive_loop fuel from to max moved)
    (λ r w', redriven w from to max moved r w' ∧ is_Some (k_queues (w_core w') !! to)) w.
Proof.
  intros HN Hft Hto. induction fuel as [|fuel IH]; intros w q moved Hwf Hq Hqto Hfuel Hroom; [lia|].
  cbn [redrive_loop]. apply wp_bind. eapply wp_deref_queue; [done|].
  destruct (_ && _) eqn:Hcond.
  2: { apply wp_ret. split; [|done]. exists []. split; [by apply evolves_refl|]. split; [done|].
       split; [simpl; lia|]. split; [done|]. simpl.
       apply andb_false_iff in Hcond as [Hcond|Hcond%Z.ltb_ge].
       - apply orb_false_iff in Hcond as [?%Z.leb_gt ?%Z.ltb_ge]. by left.
       - right. eapply empty_heap_no_ready; [done..|].
         destruct (q_ready q); [done|simpl in Hcond; lia]. }
  apply andb_true_iff in Hcond as [Hlt Hpos%Z.ltb_lt].
  assert (0 < max → moved < max) as Hmax by (intros ?; apply orb_true_iff in Hlt as [?|?]; lia).
  assert (q_ready q ≠ []) as Hne by (intros He; rewrite He in Hpos; simpl in Hpos; lia).
  apply wp_bind, (wp_pop from q); [done..|]. intros id p m h Hpo.
  pose proof (po_holds _ _ _ _ _ _ _ Hpo) as Hho. pose proof (po_first _ _ _ _ _ _ _ Hpo) as Hfirst.
  pose proof Hfirst as (Hl & Hst & _).
  assert (k_seq (w_core w) + 1 < N) as Hs
    by (apply (room_next (ready_in from) (abs (w_core w)) N from id (abs_msg m)); done).
  pose proof (aw_seq _ (wf_abs _ Hwf)) as Hs0. simpl in Hs0.
  pose proof (ho_msg _ _ _ _ _ _ Hho) as Hm.
  destruct (ho_lookup _ _ _ _ _ _ Hho) as (Hid & _ & _ & _).
  destruct (popped_fresh _ _ _ _ _ _ _ Hpo) as (Hp & Hpe & Hnd & Hin).
  apply wp_bind. eapply wp_load; [exact Hm|].
  apply wp_bind, wp_now. intros w1 Hg1 _. set (ts := env_now _ _).
  set (k1 := k_upd from (q_set_ready h q) _ _ _) in Hg1.
  pose proof (gr_core _ _ _ Hg1) as Hc1. simpl in Hc1. rewrite Hid.
  apply wp_bind, wp_append; [intros w2 Hg2|intros e w2 Hg2 Hrf];
    pose proof (grows_across _ _ _ _ _ (grows_refl w) (grows_trans _ _ _ _ _ Hg1 Hg2)) as Hg;
    pose proof (gr_core _ _ _ Hg2) as Hc2; rewrite Hc1 in Hc2; simpl in Hg.
  - apply wp_bind. eapply wp_deref_queue; [rewrite Hc2; simpl; by rewrite lookup_insert_eq|].
    apply wp_bind, wp_put_queue. rewrite Hc2. subst k1. rewrite k_upd_upd. simpl.
    set (q' := q_set_byID _ _).
    set (w3 := with_core w2 (w_core w)).
    assert (holds w3 from q id p m) as Hho3 by (by eapply holds_core).
    apply wp_bind. eapply wp_mono.
    { apply (wp_transfer w3 from q id p m q' to 0); try done.
      - split; simpl; try done; [by rewrite delete_id|]. intros p'.
        rewrite (po_perm _ _ _ _ _ _ _ Hpo), elem_of_cons. split; [|tauto].
        intros Hp'. split; [by right|]. by intros ->.
      - apply (po_heap _ _ _ _ _ _ _ Hpo).
      - simpl. clear -Hs HN. lia. }
    intros s w4 Htr. apply wp_bind. eapply wp_mono; [exact Htr|].
    intros _ w5 (k5 & -> & Hwf5 & Habs5 & Hother). clear Htr s w4.
    simpl in Habs5. set (s := k_seq (w_core w) + 1) in *.
    change (abs k5 = a_move from to id (abs_msg m) s (abs (w_core w))) in Habs5.
    assert (is_Some (as_queues (abs (w_core w)) !! to)) as Hato by (by apply abs_queues_is_Some).
    assert (astep (abs (w_core w)) (LMove from id to ts) (abs k5)) as Hstep.
    { rewrite Habs5. apply step_move; try done. split; [done|simpl; lia]. }
    assert (evolves w [LMove from id to ts] (with_core w3 k5)) as Hev
      by (exact (evolves_step w w3 (LMove from id to ts) k5 Hg Hwf5 Hstep)).
    assert (∃ q5, k_queues k5 !! from = Some q5 ∧ (length (q_ready q5) < fuel)%nat) as (q5 & Hq5 & Hlen).
    { exists q'. split; [by rewrite Hother; [apply lookup_insert_eq|]|].
      simpl. rewrite (po_perm _ _ _ _ _ _ _ Hpo) in Hfuel. simpl in Hfuel. lia. }
    eapply wp_mono.
    { apply (IH (with_core w3 k5) q5); [done|done| |done|].
      - simpl. apply abs_queues_is_Some. rewrite Habs5. unfold a_move.
        by apply as_queues_is_Some_put, as_queues_is_Some_del.
      - simpl. rewrite Habs5. by apply move_room. }
    intros r w6 ((ls & Hev6 & Hok & Hr & Hmax6 & Hend) & Hq6). split; [|done].
    exists (LMove from id to ts :: ls). split; [by eapply evolves_cons|].
    split; [constructor; [by exists id, ts|done]|]. split; [simpl; lia|]. split.
    + intros _ Hpos'. destruct ls; [simpl in Hr; lia|]. by apply Hmax6.
    + destruct r.2 as [e|]; [|done]. destruct Hend as (i0 & ts0 & Hrf). exists i0, ts0.
      eapply failed_before; [apply Hev|exact Hrf].
  - subst k1. apply wp_bind.
    eapply (wp_push_back w from q id p m h m (k_seq (w_core w)) w2); [done|done| | |lia|].
    + unfold abs_msg. simpl. unfold abs_status. simpl. by rewrite (po_ready _ _ _ _ _ _ _ Hpo).
    + rewrite Hc2. by rewrite insert_id.
    + intros k' Hk' Ha'. rewrite a_set_seq_same in Ha' by done. apply wp_ret. split.
      * exists []. split; [|split; [done|split; [simpl; lia|split; [done|]]]].
        -- destruct Hg as [_ Henv Htick Hlog]. split; simpl; try done.
           rewrite Ha'. constructor.
        -- simpl. exists id, ts. eapply failed_before; [exact (gr_log _ _ _ Hg1)|].
           exact (Hrf (LMove from id to ts) eq_refl).
      * simpl. apply abs_queues_is_Some. rewrite Ha'. by apply abs_queues_is_Some.
Qed.

(** What Redrive does once the batch is over. *)
Definition redrive_end (to : string) (r : Z * option error) : GoM (world L) (Z * option error) :=
  match r.2 with
  | Some e => mret (r.1, Some e)
  | None => _ ← (if 0 <? r.1 then broadcast to else mret ()); mret (r.1, None)
  end.

(** The parts of Redrive: the checks; then a sweep of the source, after which the
    batch [redrive_loop] starts on a world [w1]. *)
Lemma wp_Redrive_parts from to max w (Q : Z * option error → world L → Prop) :
  roomy w →
  (∀ e, from = to ∨ k_queues (w_core w) !! from = None ∨ k_queues (w_core w) !! to = None →
     (from ≠ to → Is e ErrQueueNotFound = true) → Q (0, Some e) w) →
  (∀ t w1 q, from ≠ to → to ≠ "" → first_sweep w from t w1 → wf (w_core w1) →
     k_seq (w_core w1) < 2 ^ 63 → k_queues (w_core w1) !! from = Some q →
     is_Some (k_queues (w_core w1) !! to) →
     wp (redrive_loop (S (length (q_ready q))) from to max 0) (λ r, wp (redrive_end to r) Q) w1) →
  wp (Redrive from to max) Q w.
Proof.
  intros Hro Hno Hyes. unfold Redrive. case_decide as Hft.
  { apply wp_ret, Hno; [by left|done]. }
  apply wp_bind, wp_lookup_queue. destruct (k_queues (w_core w) !! from) as [q0|] eqn:Hq0.
  2: { apply wp_ret, Hno; [by right; left|done]. }
  apply wp_bind, wp_lookup_queue. destruct (k_queues (w_core w) !! to) as [q1|] eqn:Hq1.
  2: { apply wp_ret, Hno; [by right; right|done]. }
  apply wp_now_sweep; [done|eauto|]. intros t w1 Hfs [q Hq].
  pose proof Hfs as (_ & next & Hsw).
  destruct (swept_queue _ to _ _ _ _ _ _ _ (mk_is_Some _ _ Hq1) Hsw) as (Hwf & Hto & _).
  destruct (first_sweep_inv _ _ _ _ Hfs) as (_ & _ & _ & Hs).
  apply wp_bind. eapply wp_deref_queue; [done|].
  assert (to ≠ "") as Hne.
  { intros ->. pose proof (aw_name _ (wf_abs _ Hwf)) as Hn. apply abs_queues_is_Some in Hto.
    rewrite Hn in Hto. by destruct Hto. }
  apply wp_bind. eapply wp_mono; [by apply (Hyes t w1 q)|]. by intros [moved [e|]] w2.
Qed.

Lemma wp_Redrive from to max w :
  roomy w →
  wp (Redrive from to max)
    (λ r w',
      (from = to ∨ k_queues (w_core w) !! from = None ∨ k_queues (w_core w) !! to = None) ∧
        w' = w ∧ r.1 = 0 ∧ is_Some r.2 ∧
        (from ≠ to → ∃ e, r.2 = Some e ∧ Is e ErrQueueNotFound = true) ∨
      from ≠ to ∧ ∃ t w1, first_sweep w from t w1 ∧ redriven w1 from to max 0 r w') w.
Proof.
  intros Hro. apply wp_Redrive_parts; [done|intros e Hno He; left; simpl; split_and!; eauto|].
  intros t w1 q Hft Hne Hfs Hwf Hs Hq Hto. eapply wp_mono.
  { apply (wp_redrive_loop from to max (2 ^ 64) ltac:(lia) Hft Hne _ w1 q); [done..|lia|].
    eapply room_weaken; [apply room_init, Hwf|]. simpl. lia. }
  intros [moved err] w2 [Hrd [q2 Hq2]].
  assert (wf (w_core w2)) as Hwf2 by (destruct Hrd as (ls & Hev & _); apply Hev).
  destruct err as [e|]; [by apply wp_ret; right; eauto|]. unfold redrive_end. simpl.
  destruct (0 <? moved); apply wp_bind; [|by apply wp_ret, wp_ret; right; eauto].
  eapply wp_broadcast; [done..|]. apply wp_ret. right. split; [done|].
  exists t, w1. split; [done|]. destruct (core_rewake _ _ _ Hwf2 Hq2) as [Hwf3 Habs3].
  destruct Hrd as (ls & Hev & Hok & Hr & Hmax & Hend). exists ls. simpl. rewrite Habs3.
  split; [|done]. eapply evolves_nil_r; [done|]. by apply evolves_core.
Qed.
End recv.
