(* ===== verification/RefineStats.v ===== *)
(** Refinement, fifth part: the read-outs (counts, Stats and ListStats of
    internal/queue): the lengths that the engine reports are the numbers of
    messages of the abstract queue in each state. *)

From S2P Require Import Prelude GoHeap Ids WalRecord Config Message Engine Spec Invariant.
From S2P Require Import Refine RefineTime RefineOps.
From stdpp Require Import fin_maps sorting.

Local Open Scope Z_scope.

(** The number of messages of queue [n] whose status satisfies [P]. *)
Definition a_count (P : astatus → Prop) `{∀ s, Decision (P s)} (A : astate) (n : string) : Z :=
  match as_queues A !! n with
  | Some q => Z.of_nat (size (filter (λ kv, P (a_Status kv.2)) (aq_msgs q)))
  | None => 0
  end.

Definition st_ready (s : astatus) : Prop := s = AReady.
Definition st_delayed (s : astatus) : Prop := s = ADelayed.
Definition st_leased (s : astatus) : Prop := match s with ALeased _ _ => True | _ => False end.

#[export] Instance st_ready_dec s : Decision (st_ready s).
Proof. unfold st_ready. apply _. Defined.
#[export] Instance st_delayed_dec s : Decision (st_delayed s).
Proof. unfold st_delayed. apply _. Defined.
#[export] Instance st_leased_dec s : Decision (st_leased s).
Proof. unfold st_leased. destruct s; apply _. Defined.

(** ** Sizes of maps and lengths of lists *)

Lemma size_omap {A B} (f : A → option B) (M : gmap string A) :
  size (omap f M) = length (omap f (map_to_list M).*2).
Proof.
  induction M as [|k x M Hk IH] using map_ind; [by rewrite omap_empty|].
  assert (length (omap f (map_to_list (<[k:=x]> M)).*2) =
          length (omap f (x :: (map_to_list M).*2))) as ->.
  { apply Permutation_length, omap_Permutation. by rewrite map_to_list_insert. }
  simpl. destruct (f x) as [y|] eqn:Hf.
  - rewrite omap_insert_Some with (y := y) by done. rewrite map_size_insert_None; [by rewrite IH|].
    rewrite lookup_omap, Hk. done.
  - rewrite omap_insert_None by done. rewrite delete_id; [done|].
    by rewrite lookup_omap, Hk.
Qed.

(** The pending map, state by state. *)
Definition in_state (st : store) (s : state) (p : ptr) : option amsg :=
  m ← st !! p; if decide (m_state m = s) then Some (abs_msg m) else None.

Lemma count_pending_spec st ps d l :
  (∀ p, p ∈ ps → ∃ m, st !! p = Some m ∧ m_state m ≠ stateReady) →
  count_pending st ps d l =
  Some (d + Z.of_nat (length (omap (in_state st stateDelayed) ps)),
        l + Z.of_nat (length (omap (in_state st stateLeased) ps))).
Proof.
  revert d l. induction ps as [|p ps IH]; intros d l Hps; simpl.
  { by rewrite !Z.add_0_r. }
  destruct (Hps p) as (m & Hm & Hst); [by left|].
  assert (∀ p', p' ∈ ps → ∃ m, st !! p' = Some m ∧ m_state m ≠ stateReady) as Hps'
    by (intros; apply Hps; by right).
  assert (∀ s, in_state st s p = if decide (m_state m = s) then Some (abs_msg m) else None)
    as Hin by (intros s; unfold in_state; by rewrite Hm).
  rewrite Hm, !Hin. simpl.
  destruct (m_state m) eqn:Hs; [done| |]; simpl; rewrite IH by done; f_equal; f_equal; rewrite ?Nat2Z.inj_succ; unfold omap; lia.
Qed.

Section counts.
Context (k : core) (n : string) (q : queueState) (Hwf : wf k) (Hq : k_queues k !! n = Some q).

Lemma pending_filter (P : astatus → Prop) `{∀ s, Decision (P s)} (s : state) :
  s ≠ stateReady → (∀ m, P (abs_status m) ↔ m_state m = s) →
  filter (λ kv, P (a_Status kv.2)) (aq_msgs (abs_queue (k_msgs k) q)) =
  omap (in_state (k_msgs k) s) (q_pending q).
Proof.
  intros Hs HP. apply map_eq. intros id. simpl.
  assert (∀ x : option amsg, (∀ y, filter (λ kv, P (a_Status kv.2))
    (omap (λ p, abs_msg <$> k_msgs k !! p) (q_byID q)) !! id = Some y ↔ x = Some y) →
    filter (λ kv, P (a_Status kv.2)) (omap (λ p, abs_msg <$> k_msgs k !! p) (q_byID q)) !! id = x)
    as Hext by (intros x Hx; by apply option_eq).
  apply Hext. clear Hext. intros am. rewrite map_lookup_filter_Some, !lookup_omap. simpl.
  unfold in_state. split.
  - intros [Hl HPm]. destruct (q_byID q !! id) as [p|] eqn:Hp; [|done]. simpl in Hl.
    destruct (wf_lookup _ _ _ _ _ Hwf Hq Hp) as (m & Hm & _ & Hloc & _).
    rewrite Hm in Hl. injection Hl as <-. apply HP in HPm.
    rewrite HPm in Hloc. destruct s; [done|..]; destruct Hloc as [_ ->]; simpl;
      rewrite Hm; simpl; by rewrite decide_True.
  - intros Hl. destruct (q_pending q !! id) as [p|] eqn:Hp; [|done]. simpl in Hl.
    pose proof (wq_pending _ _ _ (wf_queues _ Hwf _ _ Hq) _ _ Hp) as ->. simpl.
    destruct (k_msgs k !! p) as [m|] eqn:Hm; [|done]. simpl in *.
    case_decide as Hst; [|done]. injection Hl as <-. split; [done|]. by apply HP.
Qed.

Lemma ready_count :
  length (q_ready q) =
  size (filter (λ kv, st_ready (a_Status kv.2)) (aq_msgs (abs_queue (k_msgs k) q))).
Proof.
  set (M := filter _ _). pose proof (wf_queues _ Hwf _ _ Hq) as Hwq.
  set (idof := λ p, from_option m_ID "" (k_msgs k !! p)).
  assert (∀ p, p ∈ q_ready q → q_byID q !! idof p = Some p) as Hid.
  { intros p Hp. destruct (wq_ready _ _ _ Hwq _ Hp) as (m & Hm & Hb).
    unfold idof. by rewrite Hm. }
  assert (NoDup (idof <$> q_ready q)) as Hnd.
  { apply NoDup_fmap_2_strong; [|apply Hwq]. intros p1 p2 H1%Hid H2%Hid He.
    rewrite He in H1. congruence. }
  rewrite <-(length_fmap idof), <-(size_list_to_set (C := gset string) _ Hnd), <-size_dom.
  f_equal. apply set_eq. intros id. rewrite elem_of_list_to_set, list_elem_of_fmap, elem_of_dom.
  unfold M. split.
  - intros (p & -> & Hp). pose proof (Hid _ Hp) as Hb.
    destruct (wf_lookup _ _ _ _ _ Hwf Hq Hb) as (m & Hm & _ & Hloc & _).
    exists (abs_msg m). apply map_lookup_filter_Some. simpl. rewrite lookup_omap, Hb. simpl.
    rewrite Hm. split; [done|]. unfold st_ready. simpl. unfold abs_status.
    destruct (m_state m); [done|by destruct Hloc..].
  - intros [am [Hl Hst]%map_lookup_filter_Some]. simpl in *. rewrite lookup_omap in Hl.
    destruct (q_byID q !! id) as [p|] eqn:Hb; [|done]. simpl in Hl.
    destruct (wf_lookup _ _ _ _ _ Hwf Hq Hb) as (m & Hm & Hmid & Hloc & _).
    rewrite Hm in Hl. injection Hl as <-. exists p. unfold idof. rewrite Hm. split; [done|].
    unfold st_ready in Hst. simpl in Hst. unfold abs_status in Hst.
    destruct (m_state m); [apply Hloc|done..].
Qed.

Lemma counts_spec :
  counts (k_msgs k) q =
  Some (a_count st_ready (abs k) n, a_count st_delayed (abs k) n, a_count st_leased (abs k) n).
Proof.
  unfold counts. rewrite count_pending_spec.
  2: { intros p ([id p'] & -> & Hin%elem_of_map_to_list)%list_elem_of_fmap. simpl.
       pose proof (wq_pending _ _ _ (wf_queues _ Hwf _ _ Hq) _ _ Hin) as Hb.
       destruct (wf_lookup _ _ _ _ _ Hwf Hq Hb) as (m & Hm & _ & Hloc & _).
       exists m. split; [done|]. intros Hs. rewrite Hs in Hloc. destruct Hloc. congruence. }
  cbn [mbind option_bind]. rewrite <-!size_omap, !Z.add_0_l, ready_count.
  unfold a_count, abs. simpl. rewrite lookup_fmap, Hq. simpl.
  rewrite <-(pending_filter st_delayed stateDelayed), <-(pending_filter st_leased stateLeased);
    try done; intros m; unfold abs_status; by destruct (m_state m).
Qed.
End counts.

(** ** Stats and ListStats *)

(** What a read-out of queue [n] says in state [A]. *)
Record stats_match (A : astate) (n : string) (s : Stats) : Prop := {
  sm_name : s_Name s = n;
  sm_cfg : a_cfg A n = Some (s_Config s);
  sm_ready : s_Ready s = a_count st_ready A n;
  sm_delayed : s_Delayed s = a_count st_delayed A n;
  sm_leased : s_InFlight s = a_count st_leased A n;
}.

Section stats.
Context {L : Type} `{!Appender L} `{!LogLaws L} `{!ConfigJSON}.
Implicit Types w : world L.

Lemma wp_statsOf n w (Q : Stats → world L → Prop) :
  wf (w_core w) → is_Some (k_queues (w_core w) !! n) →
  (∀ s, stats_match (abs (w_core w)) n s → Q s w) → wp (statsOf n) Q w.
Proof.
  intros Hwf [q Hq] HQ. unfold statsOf. apply wp_bind. eapply wp_deref_queue; [done|].
  apply wp_bind, wp_get_core. apply wp_bind. eapply wp_opt; [by eapply counts_spec|].
  apply wp_ret, HQ. split; simpl; [apply (wf_queues _ Hwf _ _ Hq)|by rewrite a_cfg_abs, Hq|done..].
Qed.

Lemma wp_QueueStats name w :
  roomy w →
  wp (QueueStats name)
    (λ r w',
      match r with
      | Err e => k_queues (w_core w) !! name = None ∧ e = ErrQueueNotFound ∧ w' = w
      | Ok s => ∃ t, first_sweep w name t w' ∧ stats_match (abs (w_core w')) name s
      end) w.
Proof.
  intros Hro. unfold QueueStats. apply wp_bind, wp_lookup_queue.
  destruct (k_queues (w_core w) !! name) as [q|] eqn:Hq; [|by apply wp_ret].
  apply wp_now_sweep; [done|eauto|]. intros t w1 Hfs Hq1.
  destruct (first_sweep_inv _ _ _ _ Hfs) as (ls & Hev & _).
  apply wp_bind, wp_statsOf; [apply Hev|done|]. intros s Hs. apply wp_ret. eauto.
Qed.

(** A read-out taken between two worlds. *)
Definition seen w w' (s : Stats) : Prop :=
  ∃ w1 ls1 ls2, evolves w ls1 w1 ∧ evolves w1 ls2 w' ∧
    stats_match (abs (w_core w1)) (s_Name s) s.

(** The steps of sweeps at time [t]. *)
Definition sweeping (t : Z) (l : label) : Prop := ∃ n, is_sweep n t l.

Lemma is_sweep_sweeping n t ls : Forall (is_sweep n t) ls → Forall (sweeping t) ls.
Proof. intros Hls. eapply Forall_impl; [exact Hls|]. intros l Hl. by exists n. Qed.

Lemma wp_list_stats_loop t names : ∀ w out,
  wf (w_core w) → room waits (abs (w_core w)) (2 ^ 63) →
  wp (list_stats_loop t names out)
    (λ r w', ∃ new ls, r = out ++ new ∧ (evolves w ls w' ∧ Forall (sweeping t) ls) ∧
       Forall (seen w w') new ∧
       sublist (s_Name <$> new) names ∧
       ∀ n, n ∈ names → is_Some (k_queues (w_core w) !! n) → n ∈ s_Name <$> new) w.
Proof.
  induction names as [|n names IH]; intros w out Hwf Hroom; cbn [list_stats_loop].
  { apply wp_ret. exists [], []. rewrite app_nil_r. split; [done|].
    split; [by split; [apply evolves_refl|]|]. split; [done|]. split; [constructor|].
    by intros n Hn%not_elem_of_nil. }
  apply wp_bind, wp_lookup_queue. destruct (k_queues (w_core w) !! n) as [q|] eqn:Hq.
  - apply wp_bind. eapply wp_mono; [apply (wp_sweepQueue n t (2 ^ 63)); [done|done|eauto|done]|].
    intros d w1 Hs1.
    destruct (swept_queue _ _ _ _ _ _ _ _ _ (mk_is_Some _ _ Hq) Hs1) as (Hwf1 & Hq1 & Hr1).
    destruct Hs1 as (ls1 & Hev1 & Hok1%is_sweep_sweeping & _ & Hsw1).
    apply wp_bind, wp_statsOf; [done..|]. intros s Hs.
    eapply wp_mono; [by apply IH|]. intros r w2 (new & ls2 & -> & [Hev2 Hok2] & Hnew & Hsub & Hall).
    exists (s :: new), (ls1 ++ ls2). rewrite <-app_assoc. split; [done|].
    split; [split; [by eapply evolves_trans|by apply Forall_app]|]. split; [|split].
    + constructor.
      * exists w1, ls1, ls2. rewrite (sm_name _ _ _ Hs). done.
      * eapply Forall_impl; [exact Hnew|]. intros s' (w3 & l1 & l2 & He1 & He2 & Hm).
        exists w3, (ls1 ++ l1), l2. split; [by eapply evolves_trans|done].
    + simpl. rewrite (sm_name _ _ _ Hs). by constructor.
    + intros n' [->|Hn']%elem_of_cons Hq'; simpl; rewrite elem_of_cons, (sm_name _ _ _ Hs);
        [by left|right]. apply Hall; [done|].
      rewrite <-abs_queues_is_Some, <-a_cfg_is_Some in Hq' |- *. destruct Hq' as [c Hc].
      exists c. by apply (sw_cfg _ _ _ _ _ _ _ Hsw1).
  - eapply wp_mono; [by apply IH|]. intros r w2 (new & ls2 & -> & Hev2 & Hnew & Hsub & Hall).
    exists new, ls2. split; [done|]. split; [done|]. split; [done|].
    split; [by constructor|]. intros n' [->|Hn']%elem_of_cons Hq'; [|by apply Hall].
    rewrite Hq in Hq'. by destruct Hq'.
Qed.

#[local] Instance stats_le_total : Total (@stats_le).
Proof.
  intros s1 s2. unfold stats_le. destruct (String.leb_total (s_Name s1) (s_Name s2)); auto.
Qed.

Lemma wp_ListStats w :
  roomy w →
  wp ListStats
    (λ r w', ∃ ls, (evolves w ls w' ∧ Forall (sweeping (clock w)) ls) ∧ Forall (seen w w') r ∧
       Sorted stats_le r ∧ NoDup (s_Name <$> r) ∧
       ∀ n, is_Some (k_queues (w_core w) !! n) → n ∈ s_Name <$> r) w.
Proof.
  intros Hro. unfold ListStats. apply wp_bind, wp_now. intros w1 Hg1 _. set (t := env_now _ _).
  apply wp_bind, wp_get_core, wp_bind, wp_range_order. intros w2 Hg2.
  pose proof (grows_trans _ _ _ _ _ Hg1 Hg2) as Hg. simpl in Hg.
  pose proof (gr_core _ _ _ Hg) as Hc. pose proof (gr_core _ _ _ Hg1) as Hc1.
  rewrite Hc1. set (names := range_keys _ _).
  apply wp_bind. eapply wp_mono.
  { apply wp_list_stats_loop; rewrite Hc; [apply Hro|by apply roomy_room]. }
  intros r w3 (new & ls & -> & [Hev Hok] & Hnew & Hsub & Hall). rewrite Hc in Hall. apply wp_ret.
  simpl. pose proof (merge_sort_Permutation stats_le new) as Hperm.
  assert (∀ ls' w', evolves w2 ls' w' → evolves w ls' w') as Hpre
    by (intros; by eapply grows_evolves).
  exists ls. split; [auto|]. split; [|split; [apply Sorted_merge_sort, _|split]].
  - rewrite Hperm. eapply Forall_impl; [exact Hnew|]. intros s (w4 & l1 & l2 & He1 & He2 & Hm).
    exists w4, l1, l2. split; [auto|done].
  - rewrite Hperm. apply (sublist_NoDup _ names); [apply NoDup_range_keys|exact Hsub].
  - intros n Hn. rewrite Hperm. apply Hall; [|done]. apply elem_of_range_keys. by right.
Qed.
End stats.
