(* ===== verification/Trace.v ===== *)
(** Histories of the abstract queue machine: what holds along every sequence of
    its steps.  Identifiers and receipts are never reused, a message that is
    leased is delivered to nobody else, a message leaves the system only by a
    step that is meant to remove it, and delivery follows send order. *)

From S2P Require Import Prelude Ids WalRecord Config Message Engine Spec.
From stdpp Require Import fin_maps.

Local Open Scope Z_scope.

(** ** What a label is about *)

Definition label_id (l : label) : option string :=
  match l with
  | LCreate _ _ _ | LDelete _ _ | LBurn => None
  | LSend _ id _ _ _ | LRecv _ id _ _ _ _ | LAck _ id _ _ | LNack _ id _ _
  | LExtend _ id _ _ _ | LDead _ id _ _ | LMove _ id _ _ | LSettle _ id _ => Some id
  end.

Definition sent_id (l : label) : option string :=
  match l with LSend _ id _ _ _ => Some id | _ => None end.

Definition issued_receipt (l : label) : option string :=
  match l with LRecv _ _ receipt _ _ _ => Some receipt | _ => None end.

(** The label takes message [id], found in queue [n], out of the system. *)
Definition removes (n id : string) (l : label) : Prop :=
  match l with
  | LAck _ id' _ _ => id' = id
  | LDead _ id' to _ => id' = id ∧ to = ""
  | LDelete n' _ => n' = n
  | _ => False
  end.

(** The label ends the lease of message [id]. *)
Definition releases (n id : string) (l : label) : Prop :=
  match l with
  | LAck _ id' _ _ | LNack _ id' _ _ | LDead _ id' _ _ | LSettle _ id' _ => id' = id
  | LDelete n' _ => n' = n
  | _ => False
  end.

(** The deadline of the lease of a message after a step, and after some steps, none of
    which ends the lease: it is the one that was given last. *)
Definition extended_to (id : string) (d : Z) (l : label) : Z :=
  match l with LExtend _ id' _ d' _ => if decide (id' = id) then d' else d | _ => d end.

Definition deadline_after (id : string) (d : Z) (ls : list label) : Z :=
  foldl (extended_to id) d ls.

(** ** The counter *)

Lemma astep_seq A l B : astep A l B → as_seq A ≤ as_seq B.
Proof.
  intros Hst; destruct Hst; simpl; try lia;
    match goal with H : a_next _ _ |- _ => destruct H end; lia.
Qed.

Lemma asteps_seq A ls B : asteps A ls B → as_seq A ≤ as_seq B.
Proof. induction 1 as [|A l B ls C Hst _ IH]; [lia|]. apply astep_seq in Hst. lia. Qed.

Lemma sent_id_fresh A l B id :
  astep A l B → sent_id l = Some id → ∃ s, id = fmt_hex16 s ∧ as_seq A < s ≤ as_seq B.
Proof.
  intros Hst Hid; destruct Hst; simpl in Hid; try done. injection Hid as <-.
  match goal with H : a_next _ _ |- _ => destruct H as [-> _] end.
  eexists. split; [done|]. simpl. lia.
Qed.

Lemma receipt_fresh A l B r :
  astep A l B → issued_receipt l = Some r → ∃ s, r = receipt_of s ∧ as_seq A < s ≤ as_seq B.
Proof.
  intros Hst Hid; destruct Hst; simpl in Hid; try done. injection Hid as <-.
  match goal with H : a_next _ _ |- _ => destruct H as [-> _] end.
  eexists. split; [done|]. simpl. lia.
Qed.

(** Values that a step takes from the counter, named by an injective [name], are
    all different along a history. *)
Section fresh_names.
Context (name : Z → string) (pick : label → option string).
Context (name_inj : ∀ i j, 0 ≤ i < 2 ^ 64 → 0 ≤ j < 2 ^ 64 → name i = name j → i = j).
Context (pick_fresh : ∀ A l B x, astep A l B → pick l = Some x →
                       ∃ s, x = name s ∧ as_seq A < s ≤ as_seq B).

Lemma picks_fresh A ls B x :
  asteps A ls B → x ∈ omap pick ls → ∃ s, x = name s ∧ as_seq A < s ≤ as_seq B.
Proof.
  induction 1 as [|A l B ls C Hst Hsts IH]; simpl; [by intros ?%not_elem_of_nil|].
  pose proof (astep_seq _ _ _ Hst). pose proof (asteps_seq _ _ _ Hsts).
  destruct (pick l) as [y|] eqn:Hp.
  - intros [->|Hx]%elem_of_cons.
    + destruct (pick_fresh _ _ _ _ Hst Hp) as (s & -> & ?). exists s. split; [done|lia].
    + destruct (IH Hx) as (s & -> & ?). exists s. split; [done|lia].
  - intros Hx. destruct (IH Hx) as (s & -> & ?). exists s. split; [done|lia].
Qed.

Lemma picks_NoDup A ls B : awf A → asteps A ls B → NoDup (omap pick ls).
Proof.
  intros HA Hsts. induction Hsts as [|A l B ls C Hst Hsts IH]; simpl; [constructor|].
  pose proof (astep_awf _ _ _ HA Hst) as HB. specialize (IH HB).
  destruct (pick l) as [y|] eqn:Hp; [|done]. constructor; [|done]. intros Hy.
  destruct (pick_fresh _ _ _ _ Hst Hp) as (s & -> & ?).
  destruct (picks_fresh _ _ _ _ Hsts Hy) as (s' & Hn & ?).
  pose proof (aw_seq _ HA). pose proof (aw_seq _ HB).
  pose proof (aw_seq _ (asteps_awf _ _ _ HB Hsts)).
  apply name_inj in Hn; lia.
Qed.
End fresh_names.

(** ** A message that is gone *)

(** No queue holds [id], and the counter has passed it. *)
Definition gone (A : astate) (id : string) : Prop :=
  (∀ n, a_lookup A n id = None) ∧ ∃ j, 0 < j ≤ as_seq A ∧ id = fmt_hex16 j.

Lemma label_id_present A l B id :
  astep A l B → label_id l = Some id →
  (∃ n m, a_lookup A n id = Some m) ∨ id = fmt_hex16 (as_seq A + 1) ∧ as_seq A + 1 < 2 ^ 64.
Proof.
  intros Hst Hid; destruct Hst; simpl in Hid; try done; injection Hid as <-; try by left; eauto.
  - match goal with H : a_next _ _ |- _ => destruct H as [-> ?] end. by right.
  - match goal with H : a_first _ _ _ _ |- _ => destruct H as [? _] end. eauto.
  - match goal with H : a_first _ _ _ _ |- _ => destruct H as [? _] end. eauto.
Qed.

(** Lookups elsewhere than at the label's message, and outside a deleted queue,
    are the same after a step. *)
Lemma astep_other A l B n id :
  astep A l B → label_id l ≠ Some id → (∀ ts, l ≠ LDelete n ts) →
  a_lookup B n id = a_lookup A n id.
Proof.
  intros Hst Hid Hdel.
  destruct Hst; simpl in Hid; rewrite ?a_lookup_create, ?a_lookup_delete;
    repeat match goal with
    | H : a_first _ _ _ _ |- _ => destruct H as [H _]
    end;
    try (rewrite a_lookup_put;
         [|first [by apply as_queues_is_Some_del|simpl; eauto using a_lookup_is_Some]]);
    rewrite ?a_lookup_set_seq, ?a_lookup_del; try done;
    repeat case_decide; destruct_and?; subst; try done; exfalso; by eapply Hdel.
Qed.

Lemma astep_delete_none A n ts B id : astep A (LDelete n ts) B → a_lookup B n id = None.
Proof. intros Hst. inversion Hst; subst. by rewrite a_lookup_delete, decide_True. Qed.

Lemma gone_not_touched A l B id :
  awf A → gone A id → astep A l B → label_id l ≠ Some id.
Proof.
  intros HA [Hno (j & Hj & ->)] Hst Hid.
  destruct (label_id_present _ _ _ _ Hst Hid) as [(n & m & Hl)|[He Hlt]].
  - by rewrite Hno in Hl.
  - pose proof (aw_seq _ HA). apply fmt_hex16_inj in He; lia.
Qed.

Lemma gone_step A l B id : awf A → gone A id → astep A l B → gone B id.
Proof.
  intros HA Hg Hst. pose proof (gone_not_touched _ _ _ _ HA Hg Hst) as Hid.
  destruct Hg as [Hno (j & Hj & ->)]. pose proof (astep_seq _ _ _ Hst). split.
  - intros n. destruct (a_lookup B n _) as [m|] eqn:Hl; [|done].
    destruct l as [|n' ts| | | | | | | | |]; try (by rewrite (astep_other _ _ _ n _ Hst Hid), Hno in Hl).
    destruct (decide (n' = n)) as [->|Hne].
    + by erewrite astep_delete_none in Hl.
    + rewrite (astep_other _ _ _ n _ Hst Hid), Hno in Hl; [done|]. congruence.
  - exists j. split; [lia|done].
Qed.

Lemma gone_forever A ls B id :
  awf A → gone A id → asteps A ls B → Forall (λ l, label_id l ≠ Some id) ls ∧ gone B id.
Proof.
  intros HA Hg Hsts. induction Hsts as [|A l B ls C Hst Hsts IH]; [by split|].
  destruct IH as [? ?]; [by eapply astep_awf|by eapply gone_step|]. split; [|done].
  constructor; [by eapply gone_not_touched|done].
Qed.

(** A step that removes a message that was there leaves it gone. *)
Lemma removed_gone A l B n id m :
  awf A → a_lookup A n id = Some m → astep A l B → removes n id l → gone B id.
Proof.
  intros HA Hl Hst Hrm. pose proof (astep_seq _ _ _ Hst) as Hseq.
  destruct (aw_msg _ HA _ _ _ Hl) as (_ & j & Hj & Hid). split; [|exists j; split; [lia|done]].
  intros n'. destruct Hst; simpl in Hrm; try done.
  - subst. rewrite a_lookup_delete. case_decide as Hn; [done|].
    destruct (a_lookup A n' _) as [m'|] eqn:Hl'; [|done].
    by destruct (Hn (aw_unique _ HA _ _ _ _ _ Hl' Hl)).
  - subst. by eapply gone_after_del.
  - destruct Hrm as [-> _]. by eapply gone_after_del.
  - by destruct Hrm.
Qed.

(** ** Messages that stay *)

(** Two lookups of one ID find the same message in the same queue. *)
Lemma same_message A n1 n2 id m1 m2 :
  awf A → a_lookup A n1 id = Some m1 → a_lookup A n2 id = Some m2 → n1 = n2 ∧ m1 = m2.
Proof.
  intros HA H1 H2. pose proof (aw_unique _ HA _ _ _ _ _ H1 H2). subst. split; [done|congruence].
Qed.

(** What is left of message [m] in [m']: the content, and no earlier position. *)
Record carried (m m' : amsg) : Prop := {
  ca_body : a_Body m' = a_Body m;
  ca_sent : a_Sent m' = a_Sent m;
  ca_seq : a_Seq m ≤ a_Seq m';
}.

Lemma carried_refl m : carried m m.
Proof. by split. Qed.

Lemma carried_trans m1 m2 m3 : carried m1 m2 → carried m2 m3 → carried m1 m3.
Proof. intros [] []. split; [congruence|congruence|lia]. Qed.

(** A message that a step does not remove is still somewhere. *)
Lemma kept_step A l B n id m :
  awf A → a_lookup A n id = Some m → astep A l B → ¬ removes n id l →
  ∃ n' m', a_lookup B n' id = Some m' ∧ carried m m'.
Proof.
  intros HA Hl Hst Hrm. destruct (decide (label_id l = Some id)) as [Hid|Hid].
  2: { exists n, m. split; [|by apply carried_refl]. rewrite (astep_other _ _ _ n _ Hst Hid); [done|].
       intros ts ->. by apply Hrm. }
  destruct (aw_msg _ HA _ _ _ Hl) as (Hms & _).
  assert (∀ n1 m1, a_lookup A n1 id = Some m1 → m1 = m) as Hm
    by (intros n1 m1 H1; by destruct (same_message _ _ _ _ _ _ HA H1 Hl)).
  assert (∀ to id' m1 C, is_Some (as_queues C !! to) → id' = id → carried m m1 →
            ∃ n' m', a_lookup (a_put to id' m1 C) n' id = Some m' ∧ carried m m') as Hput.
  { intros to id' m1 C Hto -> Hm1. exists to, m1. split; [|done].
    by rewrite a_lookup_put, decide_True. }
  destruct Hst as [| |? ? ? ? ? ? Hn|? ? m1 ? ? ? [H1 _] [-> _]| |? ? m1 ? ? ? H1|? ? m1 ? ? ? ? H1|
    |? ? m1 c ? ? H1 ? ? ? ? ? [-> _]|? ? m1 ? ? ? [H1 _] ? ? ? [-> _]|? ? m1 ? ? H1|];
    simpl in Hid; try done; injection Hid as Hid; subst;
    try (apply Hm in H1 as Hm1; subst m1); try (by exfalso; apply Hrm).
  - exfalso. rewrite (fresh_id _ _ _ HA Hn) in Hl. done.
  - apply Hput; [simpl; eauto using a_lookup_is_Some|done|by split].
  - apply Hput; [eauto using a_lookup_is_Some|done|by split].
  - apply Hput; [eauto using a_lookup_is_Some|done|by split].
  - apply Hput; [by apply as_queues_is_Some_del|done|split; [done|done|simpl; lia]].
  - apply Hput; [by apply as_queues_is_Some_del|done|split; [done|done|simpl; lia]].
  - apply Hput; [eauto using a_lookup_is_Some|done|by split].
Qed.

(** No message is lost: along a history, a message is either still in some queue,
    with the content it was sent with, or a step removed it from the queue that
    held it (an acknowledgement, a dead-letter without target, the deletion of
    the queue). *)
Lemma kept_history A ls B n id m :
  awf A → a_lookup A n id = Some m → asteps A ls B →
  (∃ n' m', a_lookup B n' id = Some m' ∧ carried m m') ∨
  ∃ ls1 l ls2 C n' m', ls = ls1 ++ l :: ls2 ∧ asteps A ls1 C ∧
    a_lookup C n' id = Some m' ∧ removes n' id l.
Proof.
  intros HA Hl Hsts. revert n m Hl. induction Hsts as [|A l B ls C Hst Hsts IH]; intros n m Hl.
  { left. exists n, m. split; [done|by apply carried_refl]. }
  assert (removes n id l ∨ ¬ removes n id l) as [Hrm|Hrm].
  { destruct l; simpl; try tauto; match goal with |- ?P ∨ _ => destruct (decide P); auto end. }
  - right. exists [], l, ls, A, n, m. split; [done|]. split; [constructor|done].
  - destruct (kept_step _ _ _ _ _ _ HA Hl Hst Hrm) as (n1 & m1 & Hl1 & Hc1).
    destruct (IH (astep_awf _ _ _ HA Hst) _ _ Hl1)
      as [(n2 & m2 & Hl2 & Hc2)|(ls1 & l' & ls2 & D & n' & m' & -> & HD & Hl' & Hrm')].
    + left. exists n2, m2. split; [done|by eapply carried_trans].
    + right. exists (l :: ls1), l', ls2, D, n', m'. split; [done|].
      split; [by eapply asteps_cons|done].
Qed.

(** ** Leases *)

(** While a step does not release it, a leased message keeps its place and its
    receipt, and is not delivered again. *)
Lemma lease_step A l B n id m r d :
  awf A → a_lookup A n id = Some m → a_Status m = ALeased r d → astep A l B →
  ¬ releases n id l →
  (∃ m', a_lookup B n id = Some m' ∧ a_Status m' = ALeased r (extended_to id d l) ∧
         a_Receives m' = a_Receives m) ∧
  (∀ n' r' ts d' c, l ≠ LRecv n' id r' ts d' c).
Proof.
  intros HA Hl Hs Hst Hrel. destruct (decide (label_id l = Some id)) as [Hid|Hid].
  2: { split; [|by intros * ->]. exists m. split; [|split; [rewrite Hs; f_equal|done]].
       2: { destruct l; try done. simpl in *. rewrite decide_False by congruence. done. }
       rewrite (astep_other _ _ _ n _ Hst Hid); [done|]. intros ts ->. by apply Hrel. }
  assert (∀ n1 m1, a_lookup A n1 id = Some m1 → n1 = n ∧ m1 = m) as Hm
    by (intros n1 m1 H1; by apply (same_message A n1 n id)).
  destruct Hst as [| |? ? ? ? ? ? Hn|? ? m1 ? ? ? (H1 & Hr1 & _) [-> _]| |
    |? ? m1 ? ? ? ? H1 Hs1| | |? ? m1 ? ? ? (H1 & Hr1 & _)| |];
    simpl in Hid, Hrel; try done; injection Hid as Hid; subst; try done.
  - rewrite (fresh_id _ _ _ HA Hn) in Hl. done.
  - apply Hm in H1 as [-> ->]. congruence.
  - apply Hm in H1 as [-> ->]. split; [|done]. eexists. split; [|split].
    + rewrite a_lookup_put by eauto using a_lookup_is_Some. by rewrite decide_True.
    + simpl. rewrite decide_True by done. f_equal. congruence.
    + done.
  - apply Hm in H1 as [-> ->]. congruence.
Qed.

Lemma lease_history A ls B n id m r d :
  awf A → a_lookup A n id = Some m → a_Status m = ALeased r d → asteps A ls B →
  Forall (λ l, ¬ releases n id l) ls →
  (∃ m', a_lookup B n id = Some m' ∧ a_Status m' = ALeased r (deadline_after id d ls) ∧
         a_Receives m' = a_Receives m) ∧
  Forall (λ l, ∀ n' r' ts d' c, l ≠ LRecv n' id r' ts d' c) ls.
Proof.
  intros HA Hl Hs Hsts. revert m d Hl Hs.
  induction Hsts as [|A l B ls C Hst Hsts IH]; intros m d Hl Hs Hrel; [eauto 10|].
  apply Forall_cons in Hrel as [Hrel1 Hrel2].
  destruct (lease_step _ _ _ _ _ _ _ _ HA Hl Hs Hst Hrel1) as [(m1 & Hl1 & Hs1 & Hr1) Hno].
  destruct (IH (astep_awf _ _ _ HA Hst) _ _ Hl1 Hs1 Hrel2) as [(m2 & ? & ? & ?) ?].
  split; [|by constructor]. exists m2. repeat split; [done..|congruence].
Qed.

(** A lease that a sweep ends was due. *)
Lemma settle_due A n id at_ B m :
  a_lookup A n id = Some m → astep A (LSettle n id at_) B → a_due m ≤ at_.
Proof. intros Hl Hst. inversion Hst; subst. congruence. Qed.

(** ** Order of delivery *)

Lemma untouched_history A ls B n id m :
  a_lookup A n id = Some m → asteps A ls B →
  Forall (λ l, label_id l ≠ Some id ∧ ∀ ts, l ≠ LDelete n ts) ls →
  a_lookup B n id = Some m.
Proof.
  intros Hl Hsts. induction Hsts as [|A l B ls C Hst Hsts IH]; intros Hls; [done|].
  apply Forall_cons in Hls as [[Hid Hdel] Hls]. apply IH; [|done].
  by rewrite (astep_other _ _ _ _ _ Hst Hid).
Qed.

(** A message that is in a queue at two moments did not move forward. *)
Lemma seq_history A ls B n id m n' m' :
  awf A → a_lookup A n id = Some m → asteps A ls B → a_lookup B n' id = Some m' →
  a_Seq m ≤ a_Seq m'.
Proof.
  intros HA Hl Hsts. revert n m Hl. induction Hsts as [|A l B ls C Hst Hsts IH]; intros n m Hl Hl'.
  { destruct (same_message _ _ _ _ _ _ HA Hl Hl'). subst. lia. }
  pose proof (astep_awf _ _ _ HA Hst) as HB.
  assert (removes n id l ∨ ¬ removes n id l) as [Hrm|Hrm].
  { destruct l; simpl; try tauto; match goal with |- ?P ∨ _ => destruct (decide P); auto end. }
  - pose proof (removed_gone _ _ _ _ _ _ HA Hl Hst Hrm) as Hg.
    destruct (gone_forever _ _ _ _ HB Hg Hsts) as [_ [Hno _]]. by rewrite Hno in Hl'.
  - destruct (kept_step _ _ _ _ _ _ HA Hl Hst Hrm) as (n1 & m1 & Hl1 & Hc).
    specialize (IH HB _ _ Hl1 Hl'). pose proof (ca_seq _ _ Hc). lia.
Qed.

(** The step changes message [id] or deletes queue [n]. *)
Definition touches (n id : string) (l : label) : Prop :=
  label_id l = Some id ∨ match l with LDelete n' _ => n' = n | _ => False end.

#[export] Instance touches_dec n id l : Decision (touches n id l).
Proof. unfold touches. destruct l; apply _. Defined.

(** First in, first out: of two messages that are ready in a queue, the later one
    is not delivered from it before something has happened to the earlier one. *)
Lemma fifo_history A ls C B n id1 m1 id2 m2 r ts d c :
  awf A → a_lookup A n id1 = Some m1 → a_Status m1 = AReady →
  a_lookup A n id2 = Some m2 → a_Seq m1 < a_Seq m2 →
  asteps A ls C → astep C (LRecv n id2 r ts d c) B →
  Exists (touches n id1) ls.
Proof.
  intros HA Hl1 Hs1 Hl2 Hlt Hsts Hst.
  destruct (decide (Exists (touches n id1) ls)) as [|Hall]; [done|exfalso].
  rewrite <-Forall_Exists_neg in Hall.
  assert (a_lookup C n id1 = Some m1) as HlC.
  { apply (untouched_history A ls C); [done..|]. eapply Forall_impl; [exact Hall|].
    intros l Hn. split; [intros He; apply Hn; by left|intros t ->; apply Hn; by right]. }
  inversion Hst as [| | |? ? m2' ? ? ? (Hl2' & _ & Hmin) _| | | | | | | |]; subst.
  specialize (Hmin _ _ HlC Hs1). pose proof (seq_history _ _ _ _ _ _ _ _ HA Hl2 Hsts Hl2'). lia.
Qed.
