(* ===== verification/Replay.v ===== *)
(** Recovery, the abstract part: what replaying the record of a step does to the
    abstract state, and the relation between the state the engine had and the one
    that replay rebuilds.  The two have the same queues, configurations, message
    IDs, bodies and receive counts, in the same order of delivery; times are cut
    to milliseconds; a message whose time had come may still be waiting, with a
    due time in the past, until the next sweep settles it again. *)

From S2P Require Import Prelude Ids WalRecord Config Message Engine Spec Invariant Trace.
From S2P Require Import RefineTime.
From stdpp Require Import fin_maps.

Local Open Scope Z_scope.

(** ** Replaying a step *)

(** A time written in milliseconds and read back. *)
Definition cut (t : Z) : Z := UnixMilli (ms t).

(** The not-before time that the record of a send carries. *)
Definition cut_nbf (t : Z) : Z := if 0 <? ms t then cut t else zeroTime.

Definition am_replay_lease (receipt : string) (deadline receives : Z) (m : amsg) : amsg :=
  mkAmsg (a_Seq m) (a_Body m) (a_Sent m) (a_NBF m) receives (ALeased receipt deadline).

Definition am_extend (deadline : Z) (m : amsg) : amsg :=
  match a_Status m with
  | ALeased r _ => am_set_status (ALeased r deadline) m
  | _ => m
  end.

Definition update_msg (n id : string) (f : amsg → amsg) (R : astate) : astate :=
  match a_lookup R n id with Some m => a_put n id (f m) R | None => R end.

Definition replay_transfer (n id to : string) (f : Z → amsg → amsg) (R : astate) : astate :=
  match a_lookup R n id with
  | Some m =>
    if decide (to = "") then a_del n id R
    else a_put to id (f (as_seq R + 1) m) (a_set_seq (as_seq R + 1) (a_del n id R))
  | None => R
  end.

(** What apply does for the record of a step. *)
Definition replay_label (l : label) (R : astate) : astate :=
  match l with
  | LCreate n c _ => a_create n c R
  | LDelete n _ => a_delete n R
  | LSend n id body ts delay =>
    a_put n id (mkAmsg (seqOf id) body (cut ts) (cut_nbf (nbf_of ts delay)) 0 ADelayed)
      (a_set_seq (bumped (as_seq R) id) R)
  | LRecv n id receipt _ deadline count =>
    a_set_seq (bumped (as_seq R) receipt)
      (update_msg n id (am_replay_lease receipt (cut deadline) count) R)
  | LAck n id _ _ => a_del n id R
  | LNack n id _ _ => update_msg n id (am_set_status AReady) R
  | LExtend n id _ deadline _ => update_msg n id (am_extend (cut deadline)) R
  | LDead n id to _ => replay_transfer n id to (λ s m, am_moved s (a_Receives m) m) R
  | LMove n id to _ => replay_transfer n id to (λ s m, am_moved s 0 m) R
  | LSettle _ _ _ | LBurn => R
  end.

(** ** The recovered state *)

(** A time is cut when it is written to the log, or it is what an earlier replay
    read there. *)
Definition stored (f : Z → Z) (t t' : Z) : Prop := t' = t ∨ t' = f t.

(** [m'] is what replay makes of [m]; [T] is a time by which everything that was
    settled was due. *)
Record recovered (T : Z) (m m' : amsg) : Prop := {
  rc_body : a_Body m' = a_Body m;
  rc_sent : stored cut (a_Sent m) (a_Sent m');
  rc_nbf : stored cut_nbf (a_NBF m) (a_NBF m');
  rc_receives : a_Receives m' = a_Receives m;
  rc_status :
    match a_Status m with
    | AReady => a_Status m' = AReady ∨ a_due m' ≤ T
    | ADelayed => a_Status m' = ADelayed
    | ALeased r d => ∃ d', a_Status m' = ALeased r d' ∧ stored cut d d'
    end;
}.

Record sim (T : Z) (A R : astate) : Prop := {
  si_awf : awf R;
  si_cfg n : a_cfg R n = a_cfg A n;
  si_seq : as_seq R ≤ as_seq A;
  si_fwd n id m : a_lookup A n id = Some m → ∃ m', a_lookup R n id = Some m' ∧ recovered T m m';
  si_bwd n id : is_Some (a_lookup R n id) → is_Some (a_lookup A n id);
  si_order n1 id1 m1 m1' n2 id2 m2 m2' :
    a_lookup A n1 id1 = Some m1 → a_lookup R n1 id1 = Some m1' →
    a_lookup A n2 id2 = Some m2 → a_lookup R n2 id2 = Some m2' →
    a_Seq m1 < a_Seq m2 → a_Seq m1' < a_Seq m2';
}.

Lemma cut_le T t : 0 ≤ T → t ≤ T → cut t ≤ T.
Proof.
  intros HT Ht. unfold cut, ms, UnixMilli. case_match; [lia|].
  pose proof (Z.mul_div_le t (10 ^ 6)). lia.
Qed.

Lemma cut_nbf_le T t : 0 ≤ T → t ≤ T → cut_nbf t ≤ T.
Proof.
  intros HT Ht. unfold cut_nbf. case_match; [by apply cut_le|]. unfold zeroTime. lia.
Qed.

Lemma stored_le f T t t' : (t ≤ T → f t ≤ T) → t ≤ T → stored f t t' → t' ≤ T.
Proof. intros Hf Ht [->| ->]; auto. Qed.

Lemma stored_cut f t : stored f t (f t).
Proof. by right. Qed.

Lemma recovered_refl T m : recovered T m m.
Proof.
  split; try done; [by left..|]. destruct (a_Status m) as [| |r d]; [by left|done|].
  exists d. by split; [|left].
Qed.

Lemma sim_refl T A : awf A → sim T A A.
Proof.
  intros HA. split; try done; [|naive_solver].
  intros n id m Hl. exists m. split; [done|apply recovered_refl].
Qed.

Lemma sim_queue T A R n :
  sim T A R → is_Some (as_queues R !! n) ↔ is_Some (as_queues A !! n).
Proof. intros Hs. by rewrite <-!a_cfg_is_Some, (si_cfg _ _ _ Hs). Qed.

Lemma recovered_weaken T T' m m' : recovered T m m' → T ≤ T' → recovered T' m m'.
Proof.
  intros [Hb Hs Hn Hr Hst] HT. split; try done. destruct (a_Status m); [|done..].
  destruct Hst; [by left|right; lia].
Qed.

Lemma sim_weaken T T' A R : sim T A R → T ≤ T' → sim T' A R.
Proof.
  intros [Hw Hc Hs Hf Hb Ho] HT. split; try done. intros n id m Hl.
  destruct (Hf _ _ _ Hl) as (m' & ? & ?). eauto using recovered_weaken.
Qed.

Lemma sim_empty T : sim T a_empty a_empty.
Proof.
  split; try done; apply awf_empty.
Qed.

(** ** Matching updates *)

Lemma a_lookup_update A n id m0 m s n' id' :
  a_lookup A n id = Some m0 →
  a_lookup (a_put n id m (a_set_seq s A)) n' id' =
  if decide (n' = n ∧ id' = id) then Some m else a_lookup A n' id'.
Proof.
  intros Hl. pose proof (a_lookup_is_Some _ _ _ _ Hl) as Hn.
  exact (a_lookup_put n id m (a_set_seq s A) n' id' Hn).
Qed.

(** A message changes on both sides and keeps its positions. *)
Lemma sim_update T A R n id m m' m1 m1' s s' :
  sim T A R → a_lookup A n id = Some m → a_lookup R n id = Some m' →
  a_Seq m1 = a_Seq m → a_Seq m1' = a_Seq m' → recovered T m1 m1' →
  i64 (a_Receives m1') = a_Receives m1' → as_seq A ≤ s → as_seq R ≤ s' ≤ s → s < 2 ^ 64 →
  sim T (a_put n id m1 (a_set_seq s A)) (a_put n id m1' (a_set_seq s' R)).
Proof.
  intros Hsim Hl Hl' Hq Hq' Hrec Hr Hs Hs' Hlt. pose proof Hsim as [Hw Hc Hsq Hf Hb Ho].
  assert (∀ n' id', a_lookup (a_put n id m1 (a_set_seq s A)) n' id' =
    if decide (n' = n ∧ id' = id) then Some m1 else a_lookup A n' id') as HA
    by (intros; by eapply a_lookup_update).
  assert (∀ n' id', a_lookup (a_put n id m1' (a_set_seq s' R)) n' id' =
    if decide (n' = n ∧ id' = id) then Some m1' else a_lookup R n' id') as HR
    by (intros; by eapply a_lookup_update).
  split.
  - eapply awf_put_same; [done..|lia].
  - intros n'. rewrite !a_cfg_put. apply Hc.
  - simpl. lia.
  - intros n' id' m2. rewrite HA, HR. case_decide; [intros [= <-]; eauto|apply Hf].
  - intros n' id'. rewrite HA, HR. case_decide; [eauto|apply Hb].
  - intros n1 id1 ma ma' n2 id2 mb mb'. rewrite !HA, !HR.
    repeat case_decide; intros H1 H1' H2 H2'; simplify_eq/=; destruct_and?; subst;
      rewrite ?Hq, ?Hq'; eauto; lia.
Qed.

(** A message arrives on both sides behind all others. *)
Lemma sim_insert T A R n id m m' s s' j :
  sim T A R → is_Some (as_queues A !! n) → (∀ n', a_lookup A n' id = None) →
  (∀ n2 id2 m2, a_lookup A n2 id2 = Some m2 → a_Seq m2 ≤ as_seq A) →
  a_Seq m = s → a_Seq m' = s' → recovered T m m' → i64 (a_Receives m') = a_Receives m' →
  as_seq A < s → as_seq R < s' ≤ s → s < 2 ^ 64 → id = fmt_hex16 j → 0 < j ≤ s' →
  sim T (a_put n id m (a_set_seq s A)) (a_put n id m' (a_set_seq s' R)).
Proof.
  intros Hsim Hn Hno Hmax Hq Hq' Hrec Hr Hs Hs' Hlt Hid Hj. pose proof Hsim as [Hw Hc Hsq Hf Hb Ho].
  pose proof (proj2 (sim_queue _ _ _ n Hsim) Hn) as Hn'.
  assert (∀ n', a_lookup R n' id = None) as Hno'.
  { intros n'. destruct (a_lookup R n' id) eqn:He; [|done].
    destruct (Hb n' id); [by rewrite He|]. congruence. }
  assert (∀ n' id', a_lookup (a_put n id m (a_set_seq s A)) n' id' =
    if decide (n' = n ∧ id' = id) then Some m else a_lookup A n' id') as HA
    by (intros n' id'; exact (a_lookup_put n id m (a_set_seq s A) n' id' Hn)).
  assert (∀ n' id', a_lookup (a_put n id m' (a_set_seq s' R)) n' id' =
    if decide (n' = n ∧ id' = id) then Some m' else a_lookup R n' id') as HR
    by (intros n' id'; exact (a_lookup_put n id m' (a_set_seq s' R) n' id' Hn')).
  split.
  - eapply (awf_put_fresh _ _ _ _ _ j); (done || lia).
  - intros n'. rewrite !a_cfg_put. apply Hc.
  - simpl. lia.
  - intros n' id' m2. rewrite HA, HR. case_decide; [intros [= <-]; eauto|apply Hf].
  - intros n' id'. rewrite HA, HR. case_decide; [eauto|apply Hb].
  - intros n1 id1 ma ma' n2 id2 mb mb'. rewrite !HA, !HR.
    repeat case_decide; intros H1 H1' H2 H2'; simplify_eq/=; [lia| | |eauto].
    + specialize (Hmax _ _ _ H2). lia.
    + destruct (aw_msg _ Hw _ _ _ H1') as [? _]. lia.
Qed.

(** A message leaves on both sides. *)
Lemma sim_del T A R n id : sim T A R → sim T (a_del n id A) (a_del n id R).
Proof.
  intros [Hw Hc Hsq Hf Hb Ho]. split.
  - by apply awf_del.
  - intros n'. rewrite !a_cfg_del. apply Hc.
  - done.
  - intros n' id' m2. rewrite !a_lookup_del. case_decide; [done|apply Hf].
  - intros n' id'. rewrite !a_lookup_del. case_decide; [done|apply Hb].
  - intros n1 id1 ma ma' n2 id2 mb mb'. rewrite !a_lookup_del.
    repeat case_decide; try done. eauto.
Qed.

Lemma sim_create T A R n c : n ≠ "" → sim T A R → sim T (a_create n c A) (a_create n c R).
Proof.
  intros Hn [Hw Hc Hsq Hf Hb Ho]. split.
  - by apply awf_create.
  - intros n'. rewrite !a_cfg_create. case_decide; [done|apply Hc].
  - done.
  - intros n' id' m2. rewrite !a_lookup_create. apply Hf.
  - intros n' id'. rewrite !a_lookup_create. apply Hb.
  - intros *. rewrite !a_lookup_create. apply Ho.
Qed.

Lemma sim_delete T A R n :
  is_Some (as_queues A !! n) → sim T A R → sim T (a_delete n A) (a_delete n R).
Proof.
  intros Hn Hsim. pose proof (proj2 (sim_queue _ _ _ n Hsim) Hn) as Hn'.
  destruct Hsim as [Hw Hc Hsq Hf Hb Ho]. split.
  - by eapply astep_awf, (step_delete _ _ 0).
  - intros n'. rewrite !a_cfg_delete. case_decide; [done|apply Hc].
  - done.
  - intros n' id' m2. rewrite !a_lookup_delete. case_decide; [done|apply Hf].
  - intros n' id'. rewrite !a_lookup_delete. case_decide; [done|apply Hb].
  - intros n1 id1 ma ma' n2 id2 mb mb'. rewrite !a_lookup_delete.
    repeat case_decide; try done. eauto.
Qed.

(** A change of a live message, of which replay knows nothing. *)
Lemma sim_live T A R n id m m1 s :
  sim T A R → a_lookup A n id = Some m → a_Seq m1 = a_Seq m →
  (∀ m', recovered T m m' → recovered T m1 m') → as_seq A ≤ s →
  sim T (a_put n id m1 (a_set_seq s A)) R.
Proof.
  intros [Hw Hc Hsq Hf Hb Ho] Hl Hq Hrec Hs.
  assert (∀ n' id', a_lookup (a_put n id m1 (a_set_seq s A)) n' id' =
    if decide (n' = n ∧ id' = id) then Some m1 else a_lookup A n' id') as HA
    by (intros; by eapply a_lookup_update).
  split; try done.
  - intros n'. rewrite a_cfg_put. apply Hc.
  - simpl. lia.
  - intros n' id' m2. rewrite HA. case_decide as He; [|apply Hf].
    destruct He as [-> ->]. intros [= <-]. destruct (Hf _ _ _ Hl) as (m' & ? & ?). eauto.
  - intros n' id' Hb'. rewrite HA. case_decide; [eauto|by apply Hb].
  - intros n1 id1 ma ma' n2 id2 mb mb'. rewrite !HA.
    repeat case_decide; intros H1 H1' H2 H2'; simplify_eq/=; destruct_and?; subst;
      rewrite ?Hq; eauto; lia.
Qed.

(** ** Every step is matched by the replay of its record *)

(** The message of a label, on both sides. *)
Lemma sim_lookup T A R n id m :
  sim T A R → a_lookup A n id = Some m →
  ∃ m', a_lookup R n id = Some m' ∧ recovered T m m' ∧ i64 (a_Receives m') = a_Receives m'.
Proof.
  intros Hsim Hl. destruct (si_fwd _ _ _ Hsim _ _ _ Hl) as (m' & Hl' & Hrec).
  exists m'. eauto using aw_recv, si_awf.
Qed.

Lemma sim_same_seq T A R n id m m' m1 m1' :
  awf A → sim T A R → a_lookup A n id = Some m → a_lookup R n id = Some m' →
  a_Seq m1 = a_Seq m → a_Seq m1' = a_Seq m' → recovered T m1 m1' →
  i64 (a_Receives m1') = a_Receives m1' →
  sim T (a_put n id m1 A) (a_put n id m1' R).
Proof.
  intros HA Hsim Hl Hl' Hq Hq' Hrec Hr. rewrite (a_put_seq n id m1 A), (a_put_seq n id m1' R).
  pose proof (si_seq _ _ _ Hsim). pose proof (aw_seq _ HA).
  eapply sim_update; (done || lia).
Qed.

Lemma sim_settle T A R n id m at_ :
  sim T A R → 0 ≤ T → a_lookup A n id = Some m → a_Status m ≠ AReady → a_due m ≤ at_ →
  at_ ≤ T → sim T (a_put n id (am_set_status AReady m) A) R.
Proof.
  intros Hsim HT Hl Hst Hdue Hat. rewrite a_put_seq. eapply sim_live; [done..| |lia].
  intros m' [Hb Hs Hn Hr Hstat]. split; try done. simpl. right.
  unfold a_due in *. destruct (a_Status m) as [| |r d]; [done|..].
  - rewrite Hstat. apply (stored_le cut_nbf _ (a_NBF m)); [by apply cut_nbf_le|lia|done].
  - destruct Hstat as (d' & -> & Hd). apply (stored_le cut _ d); [by apply cut_le|lia|done].
Qed.

Lemma sim_transfer T A R n id m m' to s r r' :
  awf A → sim T A R → a_lookup A n id = Some m → a_lookup R n id = Some m' →
  is_Some (as_queues A !! to) → a_next A s → recovered T m m' → r' = r → i64 r = r →
  sim T (a_put to id (am_moved s r m) (a_set_seq s (a_del n id A)))
        (a_put to id (am_moved (as_seq R + 1) r' m') (a_set_seq (as_seq R + 1) (a_del n id R))).
Proof.
  intros HA Hsim Hl Hl' Hto [-> Hs] [Hb Hse Hn Hr _] -> Hi.
  pose proof (si_seq _ _ _ Hsim) as Hseq.
  destruct (aw_msg _ (si_awf _ _ _ Hsim) _ _ _ Hl') as (_ & j & Hj & Hid).
  apply (sim_insert T _ _ to id _ _ _ _ j); simpl; try done; try lia.
  - by apply sim_del.
  - by apply as_queues_is_Some_del.
  - intros n'. by eapply gone_after_del.
  - intros n2 id2 m2. rewrite a_lookup_del. case_decide; [done|]. intros Hl2.
    by destruct (aw_msg _ HA _ _ _ Hl2) as [? _]; lia.
  - split; simpl; try done; by left.
Qed.

Lemma sim_burn T A R s : sim T A R → as_seq A ≤ s → sim T (a_set_seq s A) R.
Proof. intros [Hw Hc Hsq Hf Hb Ho] Hs. split; try done. simpl. lia. Qed.

Definition settled_by (T : Z) (l : label) : Prop :=
  match l with LSettle _ _ at_ => at_ ≤ T | _ => True end.

Lemma sim_step T A l B R :
  awf A → sim T A R → 0 ≤ T → settled_by T l → astep A l B → sim T B (replay_label l R).
Proof.
  intros HA Hsim HT Hset Hst. pose proof (si_seq _ _ _ Hsim) as Hseq.
  pose proof (aw_seq _ (si_awf _ _ _ Hsim)) as HR.
  destruct Hst as [n c ts Hn|n ts Hq|n s body ts delay Hq Hs|n id m s ts d (Hl & _) Hs
    |n id m r d ts Hl Hst|n id m r d ts Hl Hst|n id m r d d' ts Hl Hst|n id m c ts Hl
    |n id m c s ts Hl _ _ _ Hto0 Hto Hs|n id m to s ts (Hl & _) Hne Hto0 Hto Hs
    |n id m c at_ Hl Hst Hdue|s Hs]; simpl;
    try (destruct (sim_lookup _ _ _ _ _ _ Hsim Hl) as (m' & Hl' & Hrec & Hi); pose proof Hrec as [Hb Hse Hn Hr Hstat]);
    unfold update_msg, replay_transfer; rewrite ?Hl'.
  - by apply sim_create.
  - by apply sim_delete.
  - pose proof Hs as [-> Hlt]. rewrite seqOf_fmt, bumped_fmt, Z.max_r by lia.
    apply (sim_insert T _ _ n _ _ _ _ _ (as_seq A + 1)); simpl; try done; try lia.
    + intros n'. by apply fresh_id.
    + intros n2 id2 m2 Hl2. by destruct (aw_msg _ HA _ _ _ Hl2) as [? _]; lia.
    + split; simpl; [done|by right..|done|].
      unfold nbf_of. destruct (0 <? delay); [done|right]. change (zeroTime ≤ T). unfold zeroTime. lia.
  - pose proof Hs as [-> Hlt]. rewrite bumped_receipt, Z.max_r by lia.
    change (a_set_seq ?s (a_put n id ?m R)) with (a_put n id m (a_set_seq s R)).
    eapply sim_update; [done..| | |lia|lia|lia]; [|by apply i64_id, i64_range].
    split; simpl; try done. eexists. by split; [|right].
  - by apply sim_del.
  - eapply sim_same_seq; [done..| |done]. split; simpl; try done; by left.
  - eapply sim_same_seq; [done..| | |].
    + unfold am_extend. by destruct (a_Status m').
    + rewrite Hst in Hstat. destruct Hstat as (d0 & Hs' & _). unfold am_extend. rewrite Hs'.
      split; try done. simpl. eexists. by split; [|right].
    + unfold am_extend. by destruct (a_Status m').
  - by apply sim_del.
  - rewrite decide_False by done. eapply sim_transfer; try done. congruence.
  - rewrite decide_False by done. by eapply sim_transfer.
  - by eapply sim_settle.
  - destruct Hs as [-> ?]. apply sim_burn; [done|lia].
Qed.

Definition replay_labels (ls : list label) (R : astate) : astate :=
  foldl (λ R l, replay_label l R) R ls.

Lemma sim_history T A ls B R :
  awf A → sim T A R → 0 ≤ T → Forall (settled_by T) ls → asteps A ls B →
  sim T B (replay_labels ls R).
Proof.
  intros HA Hsim HT Hset Hsts. revert R Hsim.
  induction Hsts as [|A l B ls C Hst Hsts IH]; intros R Hsim; [done|].
  apply Forall_cons in Hset as [? ?]. apply IH; [by eapply astep_awf|done|].
  by eapply sim_step.
Qed.

(** ** Names in the log *)

Lemma replay_label_seq l R : as_seq R ≤ as_seq (replay_label l R).
Proof.
  destruct l; simpl; unfold update_msg, replay_transfer; repeat case_match; simpl;
    auto using bumped_mono; lia.
Qed.

Lemma replay_labels_seq ls : ∀ R, as_seq R ≤ as_seq (replay_labels ls R).
Proof.
  induction ls as [|l ls IH]; intros R; [done|]. etrans; [apply (replay_label_seq l)|apply IH].
Qed.

(** The ID that a record introduces, and the receipt. *)
Definition record_id (r : WRecord) : option string :=
  if decide (r_Op r = OpSend) then Some (r_ID r) else None.

Definition record_receipt (r : WRecord) : option string :=
  if decide (r_Op r = OpReceive) then Some (r_Receipt r) else None.

Section logged_names.
Context `{!ConfigJSON} (name : Z → string) (pick : label → option string).
Context (pick_record : WRecord → option string).
Hypothesis name_inj : ∀ n1 n2,
  0 ≤ n1 < 2 ^ 64 → 0 ≤ n2 < 2 ^ 64 → name n1 = name n2 → n1 = n2.
Hypothesis pick_fresh : ∀ A l B x,
  astep A l B → pick l = Some x → ∃ s, x = name s ∧ as_seq A < s ≤ as_seq B.
Hypothesis pick_records : ∀ l, omap pick_record (label_records l) = option_list (pick l).
Hypothesis pick_replayed : ∀ l R s,
  pick l = Some (name s) → 0 ≤ s < 2 ^ 64 → s ≤ as_seq (replay_label l R).

(** The names in [recs] are distinct, and the counter of [R] is past all of them. *)
Definition names_ok (recs : list WRecord) (R : astate) : Prop :=
  NoDup (omap pick_record recs) ∧
  ∀ x, x ∈ omap pick_record recs → ∃ s, x = name s ∧ 0 ≤ s ≤ as_seq R.

Lemma pick_records_all ls : omap pick_record (records ls) = omap pick ls.
Proof.
  induction ls as [|l ls IH]; [done|]. change (records (l :: ls)) with (label_records l ++ records ls).
  rewrite omap_app, pick_records, IH. simpl. by destruct (pick l).
Qed.

Lemma picked_replayed ls s : ∀ R,
  name s ∈ omap pick ls → 0 ≤ s < 2 ^ 64 → s ≤ as_seq (replay_labels ls R).
Proof.
  induction ls as [|l ls IH]; intros R; simpl; [by intros ?%not_elem_of_nil|]. intros Hin Hs.
  destruct (pick l) as [x|] eqn:Hp; [|by apply IH].
  apply elem_of_cons in Hin as [<-|Hin]; [|by apply IH].
  etrans; [by eapply (pick_replayed l R)|apply replay_labels_seq].
Qed.

Lemma names_ok_replay recs R ls B :
  awf R → names_ok recs R → asteps R ls B →
  names_ok (recs ++ records ls) (replay_labels ls R).
Proof.
  intros HR [Hnd Hall] Hst. pose proof (aw_seq _ HR) as HsR.
  pose proof (aw_seq _ (asteps_awf _ _ _ HR Hst)) as HsB.
  unfold names_ok. rewrite omap_app, pick_records_all. split.
  - apply NoDup_app. split; [done|]. split; [|by eapply (picks_NoDup name)].
    intros x (s1 & -> & ?)%Hall Hx.
    destruct (picks_fresh name _ pick_fresh _ _ _ _ Hst Hx) as (s2 & Heq & ?).
    apply name_inj in Heq; lia.
  - intros x [(s & -> & ?)%Hall|Hx]%elem_of_app.
    + exists s. split; [done|]. pose proof (replay_labels_seq ls R). lia.
    + destruct (picks_fresh name _ pick_fresh _ _ _ _ Hst Hx) as (s & -> & ?).
      exists s. split; [done|]. split; [lia|]. apply picked_replayed; [done|lia].
Qed.
End logged_names.

Lemma records_sent_id `{!ConfigJSON} l : omap record_id (label_records l) = option_list (sent_id l).
Proof.
  destruct l; try done. unfold label_records, rec_send. simpl. unfold record_id.
  match goal with |- context [SetBody ?b ?r] => set (x := SetBody b r);
    assert (r_Op x = OpSend ∧ r_ID x = id) as [-> ->]
      by (subst x; unfold SetBody; by destruct (utf8_Valid b)) end.
  by rewrite decide_True.
Qed.

Lemma records_receipt `{!ConfigJSON} l :
  omap record_receipt (label_records l) = option_list (issued_receipt l).
Proof.
  destruct l; try done. unfold label_records, rec_send. simpl. unfold record_receipt.
  match goal with |- context [SetBody ?b ?r] => set (x := SetBody b r);
    assert (r_Op x = OpSend) as -> by (subst x; unfold SetBody; by destruct (utf8_Valid b)) end.
  by rewrite decide_False.
Qed.

Lemma replayed_sent_id l R s :
  sent_id l = Some (fmt_hex16 s) → 0 ≤ s < 2 ^ 64 → s ≤ as_seq (replay_label l R).
Proof.
  destruct l; try done. simpl. intros [= ->] Hs. rewrite bumped_fmt by done. lia.
Qed.

Lemma replayed_receipt l R s :
  issued_receipt l = Some (receipt_of s) → 0 ≤ s < 2 ^ 64 → s ≤ as_seq (replay_label l R).
Proof.
  destruct l; try done. simpl. intros [= ->] Hs. rewrite bumped_receipt by done. lia.
Qed.
