(* ===== verification/RefineLoad.v ===== *)
(** Recovery, the concrete part: apply and Load of internal/queue/engine.go.  The
    replay of the record of a step never fails on the state that replay has
    rebuilt so far, keeps the invariant, and does to the abstract state what
    [replay_label] says. *)

From S2P Require Import Prelude GoHeap Ids WalRecord Config Message Engine Spec Invariant.
From S2P Require Import Refine RefineTime RefineOps RefineRecv Trace Replay.
From stdpp Require Import fin_maps.

Local Open Scope Z_scope.

(** ** Replay depends on nothing but the core *)

Section core_only.
Context {L1 L2 : Type} `{!ConfigJSON}.

(** The same computation, for engines with different kinds of logs. *)
Definition core_only {A} (f : GoM (world L1) A) (g : GoM (world L2) A) : Prop :=
  ∀ w1 w2, w_core w1 = w_core w2 →
    match f w1, g w2 with
    | Some (a, w1'), Some (b, w2') =>
      a = b ∧ ∃ k, w1' = with_core w1 k ∧ w2' = with_core w2 k
    | None, None => True
    | _, _ => False
    end.

Lemma core_only_ret {A} (a : A) : core_only (mret a) (mret a).
Proof.
  intros w1 w2 Hw. split; [done|]. exists (w_core w1). split; [by destruct w1|].
  rewrite Hw. by destruct w2.
Qed.

Lemma core_only_bind {A B} (f1 : GoM (world L1) A) f2 (g1 : A → GoM (world L1) B) g2 :
  core_only f1 f2 → (∀ a, core_only (g1 a) (g2 a)) → core_only (f1 ≫= g1) (f2 ≫= g2).
Proof.
  intros Hf Hg w1 w2 Hw. specialize (Hf _ _ Hw). unfold mbind, GoM_bind.
  destruct (f1 w1) as [[a w1']|], (f2 w2) as [[b w2']|]; try done.
  destruct Hf as (-> & k & -> & ->). specialize (Hg b (with_core w1 k) (with_core w2 k) eq_refl).
  by destruct (g1 _ _) as [[? ?]|], (g2 _ _) as [[? ?]|].
Qed.

Lemma core_only_get : core_only get_core get_core.
Proof.
  intros w1 w2 Hw. split; [done|]. exists (w_core w1). split; [by destruct w1|].
  rewrite Hw. by destruct w2.
Qed.

Lemma core_only_put k : core_only (put_core k) (put_core k).
Proof. intros w1 w2 Hw. split; [done|]. by exists k. Qed.

Lemma core_only_opt {A} (o : option A) : core_only (go_opt o) (go_opt o).
Proof. destruct o; [apply core_only_ret|done]. Qed.

Ltac core_only :=
  repeat first
    [ apply core_only_ret | apply core_only_get | apply core_only_put | apply core_only_opt
    | apply core_only_bind; [|intros ?] | progress case_match ].

Lemma core_only_transfer r p : core_only (apply_transfer r p) (apply_transfer r p).
Proof.
  unfold apply_transfer, arrive, pushReady, incr_seq, get_seq, set_seq, deref_queue, put_queue,
    lookup_queue, load, save. core_only.
Qed.

Lemma core_only_removeReady n p : core_only (removeReady n p) (removeReady n p).
Proof. unfold removeReady, deref_queue, put_queue. core_only. Qed.

Lemma core_only_message r n p : core_only (apply_message r n p) (apply_message r n p).
Proof.
  unfold apply_message, pushReady, bumpSeq, get_seq, set_seq, deref_queue, put_queue, load, save.
  repeat first [apply core_only_transfer | apply core_only_removeReady | progress core_only].
Qed.

Lemma core_only_apply r : core_only (Engine.apply r) (Engine.apply r).
Proof.
  unfold Engine.apply, add_queue, make_chan, new_message, bumpSeq, get_seq, set_seq, put_queue,
    lookup_queue.
  repeat first [apply core_only_message | progress core_only].
Qed.

Lemma core_only_load recs : ∀ i, core_only (load_from i recs) (load_from i recs).
Proof.
  induction recs as [|r recs IH]; intros i; cbn [load_from]; [apply core_only_ret|].
  apply core_only_bind; [apply core_only_apply|]. intros [e|]; [apply core_only_ret|apply IH].
Qed.

Lemma core_only_Load recs : core_only (Load recs) (Load recs).
Proof. apply core_only_load. Qed.
End core_only.

Section replay.
Context {L : Type} `{!Appender L} `{!LogLaws L} `{!ConfigJSON}.
Implicit Types w : world L.

(** Replay changes nothing but the core. *)
Definition replays (R' : astate) (err : option error) w w' : Prop :=
  err = None ∧ ∃ k', w' = with_core w k' ∧ wf k' ∧ abs k' = R'.

(** ** removeReady *)

Lemma k_upd_same w n q :
  k_queues (w_core w) !! n = Some q →
  with_core w (k_upd n q (k_seq (w_core w)) (k_msgs (w_core w)) (w_core w)) = w.
Proof.
  intros Hq. destruct w as [e t r l [qs s ms cs]]. unfold with_core, k_upd. simpl in *.
  by rewrite insert_id.
Qed.

Lemma wp_removeReady n q p w (Q : () → world L → Prop) :
  k_queues (w_core w) !! n = Some q → NoDup (q_ready q) →
  (∀ p', p' ∈ q_ready q → is_Some (k_msgs (w_core w) !! p')) →
  heap_ordered (seq_of (k_msgs (w_core w))) (q_ready q) →
  (∀ h, (∀ p', p' ∈ h ↔ p' ∈ q_ready q ∧ p' ≠ p) → NoDup h →
     heap_ordered (seq_of (k_msgs (w_core w))) h →
     Q () (with_core w (k_upd n (q_set_ready h q) (k_seq (w_core w)) (k_msgs (w_core w))
                         (w_core w)))) →
  wp (removeReady n p) Q w.
Proof.
  intros Hq Hnd Hin Ho HQ. unfold removeReady.
  apply wp_bind. eapply wp_deref_queue; [done|].
  destruct (list_find (eq p) (q_ready q)) as [[i p0]|] eqn:Hf.
  - apply list_find_Some in Hf as (Hi & <- & _).
    destruct (heap_Remove_ok (readyLess (k_msgs (w_core w))) (seq_of (k_msgs (w_core w)))
                (q_ready q) i p) as (h & Hrm & Hperm & Ho'); [by apply less_on_present|done..|].
    apply wp_bind, wp_get_core. apply wp_bind. eapply wp_opt; [exact Hrm|].
    rewrite Hperm in Hnd. apply NoDup_cons in Hnd as [Hp Hnd].
    apply wp_put_queue, HQ; [|done|done].
    intros p'. rewrite Hperm, elem_of_cons. split; [|tauto]. intros Hp'. split; [by right|].
    by intros ->.
  - apply list_find_None in Hf. apply wp_ret.
    assert (p ∉ q_ready q) as Hp by (intros Hp; rewrite Forall_forall in Hf; by eapply Hf).
    specialize (HQ (q_ready q)). replace (q_set_ready (q_ready q) q) with q in HQ by (by destruct q).
    rewrite k_upd_same in HQ by done. apply HQ; [|done|done].
    intros p'. split; [|tauto]. intros Hp'. split; [done|]. by intros ->.
Qed.

(** ** Queues *)

Lemma wp_apply_create n c ts w :
  wf (w_core w) → n ≠ "" → ParseConfig (Marshal_config c) = Ok c →
  wp (Engine.apply (rec_create n (Marshal_config c) ts))
    (λ err w', replays (a_create n c (abs (w_core w))) err w w') w.
Proof.
  intros Hwf Hn Hc. unfold Engine.apply. simpl. rewrite Hc.
  assert (awf (a_create n c (abs (w_core w)))) as HA
    by (apply awf_create; [apply Hwf|done]).
  apply wp_bind, wp_lookup_queue. destruct (k_queues (w_core w) !! n) as [q|] eqn:Hq.
  - apply wp_bind, wp_put_queue, wp_ret. split; [done|]. eexists. split; [reflexivity|].
    by apply (core_set_cfg (w_core w) n q c).
  - apply wp_bind, wp_add_queue, wp_ret. split; [done|]. eexists. split; [reflexivity|].
    by apply core_add_queue.
Qed.

Lemma wp_apply_delete n ts w :
  wf (w_core w) → is_Some (k_queues (w_core w) !! n) →
  wp (Engine.apply (rec_delete n ts))
    (λ err w', replays (a_delete n (abs (w_core w))) err w w') w.
Proof.
  intros Hwf [q Hq]. unfold Engine.apply. simpl.
  apply wp_bind, wp_lookup_queue. rewrite Hq.
  apply wp_bind, wp_get_core, wp_bind, wp_put_core, wp_ret. split; [done|].
  eexists. split; [reflexivity|]. apply (core_delete (w_core w) n (k_chans (w_core w)) Hwf).
  - intros n' q' _ Hq'. by apply (wf_open _ Hwf n').
  - eapply astep_awf, (step_delete _ _ 0); [apply Hwf|]. apply abs_queues_is_Some. eauto.
Qed.

(** ** send *)

Lemma SetBody_fields b r :
  r_Op (SetBody b r) = r_Op r ∧ r_Queue (SetBody b r) = r_Queue r ∧
  r_ID (SetBody b r) = r_ID r ∧ r_TS (SetBody b r) = r_TS r ∧
  r_NBF (SetBody b r) = r_NBF r ∧ r_Count (SetBody b r) = r_Count r.
Proof. unfold SetBody. by destruct (utf8_Valid b). Qed.

Lemma wp_apply_send_record n id body (r : WRecord) w
    (nbf := if 0 <? r_NBF r then UnixMilli (r_NBF r) else zeroTime)
    (m' := mkAmsg (seqOf id) body (UnixMilli (r_TS r)) nbf (r_Count r) ADelayed)
    (R' := a_put n id m' (a_set_seq (bumped (as_seq (abs (w_core w))) id) (abs (w_core w)))) :
  r_Op r = OpSend → r_Queue r = n → r_ID r = id → GetBody r = Ok body →
  wf (w_core w) → is_Some (k_queues (w_core w) !! n) →
  a_lookup (abs (w_core w)) n id = None → awf R' →
  wp (Engine.apply r) (λ err w', replays R' err w w') w.
Proof.
  intros Hop Hqu Hid Hbody Hwf [q Hq] Hno HA.
  unfold Engine.apply. rewrite Hop. simpl. rewrite Hqu. simpl.
  apply wp_bind, wp_lookup_queue. rewrite Hq, Hbody, Hid. simpl.
  unfold bumpSeq, get_seq, set_seq.
  apply wp_bind, wp_bind, wp_bind, wp_get_core, wp_ret. apply wp_bind, wp_get_core, wp_put_core.
  unfold new_message. apply wp_bind, wp_bind, wp_get_core, wp_bind, wp_put_core, wp_ret. simpl.
  destruct (fresh_ptr _ Hwf) as (Hp & Hfree & Hnr). set (p := fresh _) in *.
  pose proof (wf_queues _ Hwf _ _ Hq) as Hwq.
  assert (q_byID q !! id = None) as Hnid.
  { destruct (q_byID q !! id) as [p'|] eqn:He; [|done].
    destruct (wf_lookup _ _ _ _ _ Hwf Hq He) as (? & _ & _ & _ & Hl). congruence. }
  set (m := mkMessage id (seqOf id) body (UnixMilli (r_TS r)) nbf stateDelayed "" zeroTime
              (r_Count r)).
  apply wp_bind, wp_put_queue, wp_ret. simpl. split; [done|]. eexists. split; [reflexivity|].
  apply (core_insert _ _ _ Hwf Hq id p m); [done|done|done| | |exact HA].
  - split; simpl; try done; [|apply Hwq]. intros p'. split; [by left|by intros [?|[_ ?]]].
  - simpl. apply heap_ordered_insert; [by apply (Hnr n)|apply Hwq].
Qed.

Lemma wp_apply_send n id body ts nbf w
    (m' := mkAmsg (seqOf id) body (cut ts) (cut_nbf nbf) 0 ADelayed)
    (R' := a_put n id m' (a_set_seq (bumped (as_seq (abs (w_core w))) id) (abs (w_core w)))) :
  wf (w_core w) → is_Some (k_queues (w_core w) !! n) →
  a_lookup (abs (w_core w)) n id = None → awf R' →
  wp (Engine.apply (rec_send n id body (ms ts) (ms nbf))) (λ err w', replays R' err w w') w.
Proof.
  intros Hwf Hq Hno HA. unfold rec_send.
  set (r0 := mkRecord OpSend n id "" "" (ms ts) (ms nbf) 0 "" 0 "" []).
  destruct (SetBody_fields body r0) as (Hop & Hqu & Hid & Hts & Hnbf & Hcnt).
  assert (R' = a_put n id (mkAmsg (seqOf id) body (UnixMilli (r_TS (SetBody body r0)))
    (if 0 <? r_NBF (SetBody body r0) then UnixMilli (r_NBF (SetBody body r0)) else zeroTime)
    (r_Count (SetBody body r0)) ADelayed)
    (a_set_seq (bumped (as_seq (abs (w_core w))) id) (abs (w_core w)))) as HR
    by (by rewrite Hts, Hnbf, Hcnt).
  rewrite HR in *.
  by apply wp_apply_send_record; rewrite ?GetBody_SetBody, ?Hop, ?Hqu, ?Hid.
Qed.

(** ** Records about a message of a queue *)

Lemma apply_finds n q id p w (r : WRecord) (Q : option error → world L → Prop) :
  k_queues (w_core w) !! n = Some q → q_byID q !! id = Some p →
  r_Queue r = n → r_ID r = id → r_Op r ∈ message_ops → r_Op r ≠ OpSend →
  wp (apply_message r n p) Q w → wp (Engine.apply r) Q w.
Proof.
  intros Hq Hp Hrq Hri Hop Hns HQ. unfold Engine.apply.
  rewrite (decide_False (P := r_Op r = OpQueueCreate)) by (intros He; rewrite He in Hop; set_solver).
  rewrite (decide_False (P := r_Op r = OpQueueDelete)) by (intros He; rewrite He in Hop; set_solver).
  apply wp_bind, wp_lookup_queue. rewrite Hrq, Hq, (decide_False _ _ Hns), Hri, Hp. done.
Qed.

Lemma holds_ready w n q id p m :
  holds w n q id p m →
  NoDup (q_ready q) ∧ (∀ p', p' ∈ q_ready q → is_Some (k_msgs (w_core w) !! p')) ∧
  heap_ordered (seq_of (k_msgs (w_core w))) (q_ready q).
Proof.
  intros [Hwf Hq _ _]. pose proof (wf_queues _ Hwf _ _ Hq) as Hwq.
  split; [apply Hwq|]. split; [|apply Hwq]. intros p' Hp'.
  destruct (wq_ready _ _ _ Hwq _ Hp') as (m' & Hm' & _). eauto.
Qed.

Lemma wp_apply_recv n q id p m ts receipt deadline count w
    (R' := a_set_seq (bumped (as_seq (abs (w_core w))) receipt)
             (a_put n id (am_replay_lease receipt (cut deadline) count (abs_msg m))
                (abs (w_core w)))) :
  holds w n q id p m → awf R' →
  wp (Engine.apply (rec_recv n id ts receipt (ms deadline) count))
    (λ err w', replays R' err w w') w.
Proof.
  intros Hho HA. pose proof Hho as [Hwf Hq Hp Hm].
  destruct (ho_lookup _ _ _ _ _ _ Hho) as (Hid & _ & Hl & _).
  destruct (holds_ready _ _ _ _ _ _ Hho) as (Hnd & Hin & Ho).
  eapply apply_finds; [done|done|done|done|set_solver|done|].
  unfold apply_message. simpl. unfold bumpSeq, get_seq, set_seq.
  apply wp_bind, wp_bind, wp_bind, wp_get_core, wp_ret. apply wp_bind, wp_get_core, wp_put_core.
  apply wp_bind. eapply wp_removeReady; simpl; [exact Hq|done..|].
  intros h Hh Hndh Hoh. apply wp_bind. eapply wp_load; [exact Hm|].
  apply wp_bind, wp_save, wp_bind. eapply wp_deref_queue; [simpl; by rewrite lookup_insert_eq|].
  apply wp_bind, wp_put_queue, wp_ret. simpl. rewrite Hid. split; [done|].
  set (m1 := m_to_leased _ _ _ _). set (q1 := q_set_pending _ _).
  set (s := bumped (k_seq (w_core w)) receipt).
  exists (k_upd n q1 s (<[p := m1]> (k_msgs (w_core w))) (w_core w)). split.
  { unfold k_upd, with_core. simpl. by rewrite insert_insert_eq. }
  apply (core_relocate _ _ _ Hwf Hq id p m1 q1 s Hp Hid); [| |exact HA].
  - split; simpl; try done.
    + intros p' Hne. rewrite Hh. tauto.
    + rewrite Hh. split; [tauto|done].
  - simpl. apply heap_ordered_insert; [|done]. rewrite Hh. tauto.
Qed.

Lemma wp_apply_ack n q id p m receipt ts w :
  holds w n q id p m →
  wp (Engine.apply (rec_ack n id receipt ts))
    (λ err w', replays (a_del n id (abs (w_core w))) err w w') w.
Proof.
  intros Hho. pose proof Hho as [Hwf Hq Hp Hm].
  destruct (ho_lookup _ _ _ _ _ _ Hho) as (Hid & _ & Hl & _).
  destruct (holds_ready _ _ _ _ _ _ Hho) as (Hnd & Hin & Ho).
  eapply apply_finds; [done|done|done|done|set_solver|done|].
  unfold apply_message. simpl.
  apply wp_bind. eapply wp_load; [exact Hm|]. apply wp_bind. eapply wp_deref_queue; [exact Hq|].
  apply wp_bind, wp_put_queue. simpl. set (q0 := q_set_pending _ _).
  apply wp_bind. apply (wp_removeReady n q0 p); simpl; [by rewrite lookup_insert_eq|done..|].
  intros h Hh Hndh Hoh. apply wp_bind. eapply wp_deref_queue; [simpl; by rewrite lookup_insert_eq|].
  apply wp_bind, wp_put_queue, wp_ret. simpl. split; [done|].
  set (q1 := q_set_totals _ _ _ _).
  exists (k_upd n q1 (k_seq (w_core w)) (k_msgs (w_core w)) (w_core w)). split.
  { unfold k_upd, with_core. simpl. by rewrite !insert_insert_eq. }
  apply (core_take w n q id p m); [done| |done].
  split; simpl; (done || by rewrite ?Hid).
Qed.

Lemma wp_apply_nack n q id p m receipt ts w :
  holds w n q id p m → m_state m ≠ stateReady →
  wp (Engine.apply (rec_nack n id receipt ts))
    (λ err w', replays (a_put n id (am_set_status AReady (abs_msg m)) (abs (w_core w))) err w w') w.
Proof.
  intros Hho Hst. pose proof Hho as [Hwf Hq Hp Hm].
  destruct (ho_lookup _ _ _ _ _ _ Hho) as (Hid & _ & Hl & _).
  eapply apply_finds; [done|done|done|done|set_solver|done|].
  unfold apply_message. simpl.
  apply wp_bind. eapply wp_load; [exact Hm|]. apply wp_bind. eapply wp_deref_queue; [exact Hq|].
  rewrite Hid.
  assert (∀ Q, wp (put_queue n (q_set_pending (delete id (q_pending q)) q) ≫=
                   λ _, pushReady n p) Q w →
          wp (put_queue n (q_set_pending (delete id (q_pending q)) q))
             (λ _, wp (pushReady n p) Q) w) as Hjoin by done.
  apply wp_bind. eapply wp_mono; [apply Hjoin; by eapply wp_settle|].
  intros [] w1 Hw1. apply wp_bind. eapply wp_mono; [exact Hw1|].
  intros _ w2 (k' & -> & Hk' & Ha'). apply wp_ret. split; [done|]. eauto.
Qed.

Lemma wp_apply_extend n q id p m receipt deadline ts w :
  holds w n q id p m → m_state m = stateLeased →
  wp (Engine.apply (rec_extend n id receipt (ms deadline) ts))
    (λ err w', replays (a_put n id (am_extend (cut deadline) (abs_msg m)) (abs (w_core w))) err w w') w.
Proof.
  intros Hho Hst. pose proof Hho as [Hwf Hq Hp Hm].
  destruct (ho_lookup _ _ _ _ _ _ Hho) as (Hid & _ & Hl & _).
  eapply apply_finds; [done|done|done|done|set_solver|done|].
  unfold apply_message. simpl.
  apply wp_bind. eapply wp_load; [exact Hm|]. apply wp_bind, wp_save, wp_ret. split; [done|].
  eexists. split; [reflexivity|].
  replace (am_extend (cut deadline) (abs_msg m)) with
    (abs_msg (m_set_deadline (UnixMilli (ms deadline)) m)).
  - by eapply core_deadline.
  - unfold am_extend, abs_msg, abs_status. simpl. by rewrite Hst.
Qed.

(** ** dead and move *)

(** The receive count that a message arrives with. *)
Definition arriving (r : WRecord) (receives : Z) : Z :=
  if decide (r_Op r = OpMove) then 0 else receives.

Lemma wp_apply_transfer n q id p m q' (r : WRecord) w (A := abs (w_core w)) :
  holds w n q id p m → removed q q' id p →
  heap_ordered (seq_of (k_msgs (w_core w))) (q_ready q') →
  (r_To r ≠ "" → is_Some (k_queues (w_core w) !! r_To r) ∧ as_seq A + 1 < 2 ^ 64) →
  wp (apply_transfer r p)
    (λ err w', replays
       (replay_transfer n id (r_To r) (λ s m, am_moved s (arriving r (a_Receives m)) m) A) err w w')
    (with_core w (k_upd n q' (k_seq (w_core w)) (k_msgs (w_core w)) (w_core w))).
Proof.
  intros Hho Hrm Hheap Hto. pose proof Hho as [Hwf Hq Hp Hm].
  destruct (ho_lookup _ _ _ _ _ _ Hho) as (_ & _ & Hl & _).
  unfold apply_transfer, replay_transfer. subst A. rewrite Hl. case_decide as Hd.
  - apply wp_ret. split; [done|]. eexists. split; [reflexivity|]. by eapply core_take.
  - destruct (Hto Hd) as [Hto' Hseq]. clear Hto. rename Hto' into Hto. apply wp_bind, wp_lookup_queue.
    destruct (k_queues (w_core (with_core w _)) !! r_To r) as [dst|] eqn:Hdst.
    2: { simpl in Hdst. apply lookup_insert_None in Hdst as [Hn _]. rewrite Hn in Hto.
         by destruct Hto. }
    assert (i64 (arriving r (m_Receives m)) = arriving r (m_Receives m)) as Hr.
    { unfold arriving. case_decide; [done|].
      exact (aw_recv _ (wf_abs _ Hwf) _ _ _ Hl). }
    pose proof (wp_transfer w n q id p m q' (r_To r) _ Hho Hrm Hheap Hto Hseq Hr) as Htr.
    apply wp_bind, wp_incr_seq. apply wp_bind. eapply wp_load; [exact Hm|].
    apply wp_bind. eapply wp_mono; [exact Htr|].
    intros _ w1 (k' & -> & Hk' & Ha' & _). apply wp_ret. split; [done|]. eauto.
Qed.

Lemma wp_apply_leave n q id p m (r : WRecord) w (A := abs (w_core w)) :
  holds w n q id p m → r_Queue r = n → r_ID r = id → r_Op r = OpDead ∨ r_Op r = OpMove →
  (r_To r ≠ "" → is_Some (k_queues (w_core w) !! r_To r) ∧ as_seq A + 1 < 2 ^ 64) →
  wp (Engine.apply r)
    (λ err w', replays
       (replay_transfer n id (r_To r) (λ s m, am_moved s (arriving r (a_Receives m)) m) A) err w w')
    w.
Proof.
  intros Hho Hrq Hri Hop Hto. pose proof Hho as [Hwf Hq Hp Hm].
  destruct (ho_lookup _ _ _ _ _ _ Hho) as (Hid & _ & Hl & _).
  destruct (holds_ready _ _ _ _ _ _ Hho) as (Hnd & Hin & Ho).
  eapply apply_finds; [done|done|done|done| | |].
  { destruct Hop as [-> | ->]; set_solver. }
  { by destruct Hop as [-> | ->]. }
  unfold apply_message.
  rewrite (decide_False (P := r_Op r = OpReceive)) by (by destruct Hop as [-> | ->]).
  rewrite (decide_False (P := r_Op r = OpAck)) by (by destruct Hop as [-> | ->]).
  rewrite (decide_False (P := r_Op r = OpNack)) by (by destruct Hop as [-> | ->]).
  rewrite (decide_False (P := r_Op r = OpExtend)) by (by destruct Hop as [-> | ->]).
  rewrite (decide_True _ _ Hop).
  apply wp_bind. eapply wp_load; [exact Hm|]. apply wp_bind. eapply wp_deref_queue; [exact Hq|].
  apply wp_bind, wp_put_queue. simpl. set (q0 := q_set_pending _ _).
  apply wp_bind. apply (wp_removeReady n q0 p); simpl; [by rewrite lookup_insert_eq|done..|].
  intros h Hh Hndh Hoh. apply wp_bind. eapply wp_deref_queue; [simpl; by rewrite lookup_insert_eq|].
  match goal with |- wp _ ?Q _ => assert (∀ k0 q1,
    k0 = k_upd n q1 (k_seq (w_core w)) (k_msgs (w_core w)) (w_core w) →
    removed q q1 id p → q_ready q1 = h → wp (apply_transfer r p) Q (with_core w k0)) as Hdone end.
  { intros k0 q1 -> Hrm Hq1. apply (wp_apply_transfer n q id p m q1); by rewrite ?Hq1. }
  apply wp_bind. destruct (decide (r_Op r = OpDead)); [apply wp_put_queue|apply wp_ret];
    unfold k_upd in *; simpl; rewrite ?insert_insert_eq.
  - eapply (Hdone _ (q_set_totals _ _ _ (q_set_ready h q0)));
      [reflexivity|split; simpl; (done || by rewrite ?Hid)|done].
  - eapply (Hdone _ (q_set_ready h q0)); [reflexivity|split; simpl; (done || by rewrite ?Hid)|done].
Qed.

(** ** The record of a step *)

Lemma holds_of_lookup w n id am :
  wf (w_core w) → a_lookup (abs (w_core w)) n id = Some am →
  ∃ q p m, holds w n q id p m ∧ am = abs_msg m.
Proof.
  intros Hwf (q & p & m & Hq & Hp & Hm & ->)%a_lookup_abs_inv. exists q, p, m. by split.
Qed.

(** Configurations that are read back as they were written. *)
Definition readable (l : label) : Prop :=
  match l with LCreate _ c _ => ParseConfig (Marshal_config c) = Ok c | _ => True end.

Lemma wp_apply_label T A l B w r :
  awf A → sim T A (abs (w_core w)) → 0 ≤ T → settled_by T l → astep A l B → readable l →
  wf (w_core w) → label_records l = [r] →
  wp (Engine.apply r) (λ err w', replays (replay_label l (abs (w_core w))) err w w') w.
Proof.
  intros HA Hsim HT Hset Hst Hread Hwf Hr.
  pose proof (si_awf _ _ _ (sim_step _ _ _ _ _ HA Hsim HT Hset Hst)) as HR'.
  pose proof (si_seq _ _ _ Hsim) as Hseq. revert Hread Hr HR'.
  destruct Hst as [n c ts Hn|n ts Hq|n s body ts delay Hq Hs|n id m s ts d (Hl & _) Hs
    |n id m r0 d ts Hl Hst|n id m r0 d ts Hl Hst|n id m r0 d d' ts Hl Hst|n id m c ts Hl
    |n id m c s ts Hl _ _ _ Hto0 Hto Hs|n id m to s ts (Hl & _) Hne Hto0 Hto Hs
    |n id m c at_ Hl Hst Hdue|s Hs]; intros Hread Hr; simplify_eq/=;
    try (destruct (sim_lookup _ _ _ _ _ _ Hsim Hl) as (am & Hl' & Hrec & Hi);
         destruct (holds_of_lookup _ _ _ _ Hwf Hl') as (q & p & m' & Hho & ->);
         pose proof (rc_status _ _ _ Hrec) as Hstat; rewrite ?Hst in Hstat);
    unfold update_msg; rewrite ?Hl'; intros HR'.
  - by apply wp_apply_create.
  - apply wp_apply_delete; [done|]. by apply abs_queues_is_Some, (proj2 (sim_queue _ _ _ _ Hsim)).
  - apply wp_apply_send; [done| | |done].
    + by apply abs_queues_is_Some, (proj2 (sim_queue _ _ _ _ Hsim)).
    + destruct (a_lookup (abs (w_core w)) n _) eqn:He; [|done].
      destruct (si_bwd _ _ _ Hsim n (fmt_hex16 s)) as [x Hx]; [by rewrite He|].
      by rewrite fresh_id in Hx.
  - by eapply wp_apply_recv.
  - by eapply wp_apply_ack.
  - eapply wp_apply_nack; [done|]. destruct Hstat as (d' & Hstat & _). intros He.
    simpl in Hstat. unfold abs_status in Hstat. by rewrite He in Hstat.
  - eapply wp_apply_extend; [done|]. destruct Hstat as (d0 & Hstat & _). simpl in Hstat.
    unfold abs_status in Hstat. by destruct (m_state m').
  - by eapply (wp_apply_leave n q id p m' (rec_dead n id "" (ms ts))); [|done|done|left|].
  - eapply (wp_apply_leave n q id p m' (rec_dead n id (c_DeadLetter c) (ms ts)));
      [done..|by left|].
    intros _. destruct Hs. split; [|simpl in *; lia].
    by apply abs_queues_is_Some, (proj2 (sim_queue _ _ _ _ Hsim)).
  - eapply (wp_apply_leave n q id p m' (rec_move n id to (ms ts))); [done..|by right|].
    intros _. destruct Hs. split; [|simpl in *; lia].
    by apply abs_queues_is_Some, (proj2 (sim_queue _ _ _ _ Hsim)).
Qed.

Lemma label_records_cases l :
  (label_records l = [] ∧ ∀ R, replay_label l R = R) ∨ ∃ r, label_records l = [r].
Proof. destruct l; eauto. Qed.

(** ** Load *)

Lemma wp_load_from T ls : ∀ A B w i,
  awf A → sim T A (abs (w_core w)) → 0 ≤ T → Forall (settled_by T) ls → asteps A ls B →
  Forall readable ls → wf (w_core w) →
  wp (load_from i (records ls))
    (λ err w', replays (replay_labels ls (abs (w_core w))) err w w') w.
Proof.
  induction ls as [|l ls IH]; intros A B w i HA Hsim HT Hset Hsts Hread Hwf.
  { apply wp_ret. split; [done|]. exists (w_core w). by destruct w. }
  inversion Hsts as [|? ? A1 ? ? Hone Hrest]; subst.
  apply Forall_cons in Hset as [Hs1 Hset]. apply Forall_cons in Hread as [Hr1 Hread].
  pose proof (sim_step _ _ _ _ _ HA Hsim HT Hs1 Hone) as Hsim1.
  assert (awf A1) as HA1 by (by eapply astep_awf).
  change (records (l :: ls)) with (label_records l ++ records ls).
  change (replay_labels (l :: ls) ?R) with (replay_labels ls (replay_label l R)).
  destruct (label_records_cases l) as [[-> Hid]|[r Hr]].
  - rewrite Hid in *. simpl. by eapply IH.
  - pose proof (wp_apply_label _ _ _ _ _ _ HA Hsim HT Hs1 Hone Hr1 Hwf Hr) as Hap.
    rewrite Hr. simpl. apply wp_bind. eapply wp_mono; [exact Hap|].
    intros err w1 (-> & k1 & -> & Hk1 & Ha1). rewrite <-Ha1 in Hsim1 |- *.
    eapply wp_mono; [by eapply (IH A1 B (with_core w k1))|].
    intros err w' (-> & k' & -> & Hk' & Ha'). split; [done|]. eauto.
Qed.

(** A time by which everything that a history settled was due. *)
Lemma settled_bound ls : ∃ T, 0 ≤ T ∧ Forall (settled_by T) ls.
Proof.
  induction ls as [|l ls (T & HT & Hls)]; [exists 0; by split|].
  exists (match l with LSettle _ _ at_ => Z.max T at_ | _ => T end).
  split; [destruct l; lia|]. constructor; [destruct l; simpl; done || lia|].
  eapply Forall_impl; [exact Hls|]. intros l' Hl'. destruct l'; try done. destruct l; simpl in *; lia.
Qed.

Lemma wp_load_app rs1 rs2 (Q : option error → world L → Prop) : ∀ i w,
  wp (load_from i rs1)
    (λ err w', match err with
               | Some e => Q (Some e) w'
               | None => wp (load_from (i + Z.of_nat (length rs1)) rs2) Q w'
               end) w →
  wp (load_from i (rs1 ++ rs2)) Q w.
Proof.
  induction rs1 as [|r rs1 IH]; intros i w; cbn [load_from app].
  - intros HQ. cbn [length] in HQ. by rewrite Z.add_0_r in HQ.
  - intros HQ. apply wp_bind. apply wp_bind_inv in HQ. eapply wp_mono; [exact HQ|].
    intros [e|] w'; [done|]. intros H1. apply IH. eapply wp_mono; [exact H1|].
    intros [e|] w''; [done|]. replace (i + 1 + Z.of_nat (length rs1)) with
      (i + Z.of_nat (length (r :: rs1))) by (simpl; lia). done.
Qed.

(** A world that [recs] lead to, whatever log and environment the engine has. *)
Definition rebuilds (recs : list WRecord) (R : astate) : Prop :=
  ∀ log env, wp (Load recs) (λ err w', replays R err (New log env) w') (New log env).

(** One start is as good as another. *)
Lemma rebuilds_any recs R log0 env0 :
  wp (Load recs) (λ err w', replays R err (New log0 env0) w') (New log0 env0) →
  (∀ log env, wp (Load recs) (λ err w', err = None ∧ ∃ k', w' = with_core (New log env) k')
                (New log env)) →
  rebuilds recs R.
Proof.
  intros (a0 & w0 & H0 & Hr0)%wp_elim Hall log env.
  destruct (wp_elim _ _ _ (Hall log env)) as (a & w & H1 & -> & k' & ->).
  pose proof (core_only_load recs 0 (New log0 env0) (New log env) eq_refl) as Hc.
  unfold Load in *. rewrite H0, H1 in Hc. destruct Hc as (_ & k & Hw0 & Hw).
  destruct Hr0 as (_ & k0 & -> & Hk0 & Ha0). injection Hw0 as <-. injection Hw as ->.
  eapply wp_of_eq; [exact H1|]. split; [done|]. by exists k0.
Qed.

Lemma rebuilds_nil : rebuilds [] a_empty.
Proof.
  intros log env. apply wp_ret. split; [done|]. exists (mkCore ∅ 0 ∅ ∅).
  split; [done|]. split; [apply wf_empty|]. unfold abs, a_empty. simpl. by rewrite fmap_empty.
Qed.

Lemma rebuilds_app recs R ls B :
  rebuilds recs R → awf R → asteps R ls B → Forall readable ls →
  rebuilds (recs ++ records ls) (replay_labels ls R).
Proof.
  intros Hre HA Hst Hread log env. destruct (settled_bound ls) as (T & HT & Hset).
  apply wp_load_app. eapply wp_mono; [apply Hre|].
  intros err w1 (-> & k1 & -> & Hk1 & <-). eapply wp_mono.
  { apply (wp_load_from T ls (abs k1) B); [done|by apply sim_refl|done..]. }
  intros err w' (-> & k' & -> & Hk' & Ha'). split; [done|]. by exists k'.
Qed.

End replay.
