(* ===== verification/RefineSnap.v ===== *)
(** Snapshot of internal/queue/engine.go, and what Load makes of a snapshot: the
    same queues and messages, each message waiting under its ID with its body,
    receive count and, if it was leased, its lease; positions are those of the
    IDs. *)

From S2P Require Import Prelude GoHeap Ids WalRecord Config Message Engine Spec Invariant.
From S2P Require Import Refine RefineTime RefineOps Replay RefineLoad.
From stdpp Require Import fin_maps sorting.

Local Open Scope Z_scope.

(** ** The abstract state that a snapshot stands for *)

Definition restored_status (s : astatus) : astatus :=
  match s with ALeased r d => ALeased r (cut d) | _ => ADelayed end.

Definition restored (id : string) (m : amsg) : amsg :=
  mkAmsg (seqOf id) (a_Body m) (cut (a_Sent m)) (cut_nbf (a_NBF m)) (a_Receives m)
    (restored_status (a_Status m)).

(** [s] is the number in the ID of the message [m], or in its receipt. *)
Definition in_name (s : Z) (id : string) (m : amsg) : Prop :=
  bumped 0 id = s ∨ ∃ r d, a_Status m = ALeased r d ∧ bumped 0 r = s.

(** [R] has the queues [N] of [A] and restored versions of the messages [P], and
    its counter is the largest number in their IDs and receipts. *)
Record loaded (A : astate) (N : string → Prop) (P : string → string → Prop) (R : astate)
    : Prop := {
  ld_awf : awf R;
  ld_cfg n : N n → a_cfg R n = a_cfg A n;
  ld_queue n : is_Some (a_cfg R n) → N n;
  ld_in n id m : P n id → a_lookup A n id = Some m → a_lookup R n id = Some (restored id m);
  ld_out n id m' :
    a_lookup R n id = Some m' → P n id ∧ ∃ m, a_lookup A n id = Some m ∧ m' = restored id m;
  ld_bound n id m s : P n id → a_lookup A n id = Some m → in_name s id m → s ≤ as_seq R;
  ld_counter :
    as_seq R = 0 ∨ ∃ n id m, P n id ∧ a_lookup A n id = Some m ∧ in_name (as_seq R) id m;
}.

Lemma loaded_empty A : loaded A (λ _, False) (λ _ _, False) a_empty.
Proof.
  split; try apply awf_empty; try done; try by left.
  all: intros *; unfold a_cfg, a_lookup, a_empty; simpl. rewrite lookup_empty. by intros [].
Qed.

Lemma loaded_iff A N N' P P' R :
  (∀ n, N n ↔ N' n) → (∀ n id, P n id ↔ P' n id) → loaded A N P R → loaded A N' P' R.
Proof.
  intros HN HP [Hw Hc Hq Hi Ho Hb Hs]. split; [done|..].
  - intros n Hn. by apply Hc, HN.
  - intros n Hn. by apply HN, Hq.
  - intros n id m Hp. by apply Hi, HP.
  - intros n id m' Hl. rewrite <-HP. by apply Ho.
  - intros n id m s Hp. by apply Hb, HP.
  - destruct Hs as [Hs|(n & id & m & Hp & Hs)]; [by left|right]. exists n, id, m.
    split; [by apply HP|done].
Qed.

(** A queue is created. *)
Lemma loaded_create A N P R n c :
  loaded A N P R → a_cfg A n = Some c → n ≠ "" →
  loaded A (λ n', N n' ∨ n' = n) P (a_create n c R).
Proof.
  intros [Hw Hc Hq Hi Ho Hb Hs] Hcfg Hn. split.
  - by apply awf_create.
  - intros n' [Hn'| ->]; rewrite a_cfg_create; case_decide; subst; try done. by apply Hc.
  - intros n'. rewrite a_cfg_create. case_decide; [by right|]. intros Hn'. left. auto.
  - intros n' id m. rewrite a_lookup_create. apply Hi.
  - intros n' id m'. rewrite a_lookup_create. apply Ho.
  - apply Hb.
  - apply Hs.
Qed.

(** A message is added. *)
Lemma loaded_add A N P R n id m R' :
  loaded A N P R → a_lookup A n id = Some m → awf R' →
  (∀ n', a_cfg R' n' = a_cfg R n') → as_seq R ≤ as_seq R' →
  (∀ n' id', a_lookup R' n' id' =
     if decide (n' = n ∧ id' = id) then Some (restored id m) else a_lookup R n' id') →
  (∀ s, in_name s id m → s ≤ as_seq R') →
  as_seq R' = as_seq R ∨ in_name (as_seq R') id m →
  loaded A N (λ n' id', P n' id' ∨ n' = n ∧ id' = id) R'.
Proof.
  intros [Hw Hc Hq Hi Ho Hb Hs] Hm Hw' Hcfg Hseq Hl Hbm Hsm. split; [done|..].
  - intros n' Hn'. rewrite Hcfg. by apply Hc.
  - intros n'. rewrite Hcfg. apply Hq.
  - intros n' id' m' HP Hm'. rewrite Hl. case_decide as He.
    + destruct He as [-> ->]. congruence.
    + destruct HP as [HP|?]; [by apply Hi|done].
  - intros n' id' m'. rewrite Hl. case_decide as He.
    + destruct He as [-> ->]. intros [= <-]. split; [by right|eauto].
    + intros [HP Hx]%Ho. split; [by left|done].
  - intros n' id' m' s [HP|[-> ->]] Hm' Hin.
    + etrans; [by eapply Hb|done].
    + assert (m' = m) as -> by congruence. by apply Hbm.
  - destruct Hsm as [Hsm|Hsm]; [|right; exists n, id, m; by split; [right|]].
    rewrite Hsm. destruct Hs as [Hs|(n0 & id0 & m0 & HP & Hs)]; [by left|right].
    exists n0, id0, m0. by split; [left|].
Qed.

(** The position that an ID stands for is free. *)
Lemma loaded_fresh A N P R n id m :
  awf A → loaded A N P R → a_lookup A n id = Some m → ¬ P n id →
  (∀ n', a_lookup R n' id = None) ∧
  (∀ n' id' m', a_lookup R n' id' = Some m' → a_Seq m' ≠ seqOf id) ∧
  ∃ j, id = fmt_hex16 j ∧ seqOf id = j ∧ 0 < j < 2 ^ 64.
Proof.
  intros HA [Hw _ _ _ Ho _ _] Hm HP. pose proof (aw_seq _ HA).
  assert (∀ n', ¬ P n' id ∨ a_lookup A n' id = None) as Hn.
  { intros n'. destruct (a_lookup A n' id) eqn:He; [left|by right].
    by rewrite (aw_unique _ HA _ _ _ _ _ He Hm). }
  split; [|split].
  - intros n'. destruct (a_lookup R n' id) as [m'|] eqn:He; [|done].
    destruct (Ho _ _ _ He) as (HP' & m0 & Hm0 & _). destruct (Hn n'); [done|congruence].
  - intros n' id' m' He Hs. destruct (Ho _ _ _ He) as (HP' & m0 & Hm0 & ->). simpl in Hs.
    destruct (aw_msg _ HA _ _ _ Hm) as (_ & j & Hj & ->).
    destruct (aw_msg _ HA _ _ _ Hm0) as (_ & j' & Hj' & ->).
    rewrite !seqOf_fmt in Hs by lia. subst j'. destruct (Hn n'); [done|congruence].
  - destruct (aw_msg _ HA _ _ _ Hm) as (_ & j & Hj & ->). exists j.
    rewrite seqOf_fmt by lia. split; [done|]. split; [done|lia].
Qed.

(** The message that the first record of a message makes. *)
Definition sent_again (id : string) (m : amsg) (count : Z) : amsg :=
  mkAmsg (seqOf id) (a_Body m) (cut (a_Sent m)) (cut_nbf (a_NBF m)) count ADelayed.

Lemma loaded_room A N P R n id m :
  loaded A N P R → N n → a_lookup A n id = Some m → is_Some (as_queues R !! n).
Proof.
  intros Hld HN Hm. rewrite <-a_cfg_is_Some, (ld_cfg _ _ _ _ Hld _ HN), a_cfg_is_Some.
  by eapply a_lookup_is_Some.
Qed.

Lemma loaded_sent_again A N P R n id m count
    (R1 := a_put n id (sent_again id m count) (a_set_seq (bumped (as_seq R) id) R)) :
  awf A → loaded A N P R → N n → a_lookup A n id = Some m → ¬ P n id → i64 count = count →
  awf R1 ∧
  ∀ n' id', a_lookup R1 n' id' =
    if decide (n' = n ∧ id' = id) then Some (sent_again id m count) else a_lookup R n' id'.
Proof.
  intros HA Hld HN Hm HP Hi. pose proof (loaded_room _ _ _ _ _ _ _ Hld HN Hm) as HqR.
  destruct (loaded_fresh _ _ _ _ _ _ _ HA Hld Hm HP) as (Hno & Hpos & j & Hid & Hseq & Hj).
  pose proof (aw_seq _ (ld_awf _ _ _ _ Hld)) as HsR.
  assert (bumped (as_seq R) id = Z.max (as_seq R) j) as Hb by (rewrite Hid, bumped_fmt; lia).
  split.
  - apply (awf_put_new _ _ _ _ _ j); simpl; rewrite ?Hb; try done; try lia.
    apply Hld.
  - intros n' id'.
    exact (a_lookup_put n id (sent_again id m count) (a_set_seq (bumped (as_seq R) id) R) n' id' HqR).
Qed.

(** The lease of the message that was just sent again. *)
Lemma loaded_leased A N P R n id m receipt d
    (R1 := a_put n id (sent_again id m 0) (a_set_seq (bumped (as_seq R) id) R))
    (R2 := a_set_seq (bumped (as_seq R1) receipt)
             (a_put n id (am_replay_lease receipt (cut d) (a_Receives m) (sent_again id m 0)) R1)) :
  awf A → loaded A N P R → N n → a_lookup A n id = Some m → ¬ P n id →
  a_Status m = ALeased receipt d →
  awf R2 ∧ loaded A N (λ n' id', P n' id' ∨ n' = n ∧ id' = id) R2.
Proof.
  intros HA Hld HN Hm HP Hst.
  destruct (loaded_sent_again _ _ _ _ _ _ _ 0 HA Hld HN Hm HP eq_refl) as [HR1 Hl1].
  fold R1 in HR1, Hl1. pose proof (aw_seq _ HR1) as Hs1.
  pose proof (aw_seq _ (ld_awf _ _ _ _ Hld)) as Hs0.
  assert (a_lookup R1 n id = Some (sent_again id m 0)) as Hl by (rewrite Hl1; by rewrite decide_True).
  assert (awf R2) as HR2.
  { eapply (awf_put_same R1 n id _ _ (bumped (as_seq R1) receipt)); [done|exact Hl|done| |].
    - exact (aw_recv _ HA _ _ _ Hm).
    - pose proof (bumped_mono (as_seq R1) receipt). pose proof (bumped_lt (as_seq R1) receipt). lia. }
  split; [done|]. eapply loaded_add; [done|exact Hm|done|..].
  - intros n'. change (a_cfg R2 n') with (a_cfg (a_put n id
      (am_replay_lease receipt (cut d) (a_Receives m) (sent_again id m 0)) R1) n').
    unfold R1. by rewrite !a_cfg_put.
  - simpl. etrans; [apply bumped_mono|apply bumped_mono].
  - intros n' id'. unfold R2. rewrite a_lookup_set_seq, a_lookup_put by eauto using a_lookup_is_Some.
    rewrite Hl1. repeat case_decide; try done. f_equal.
    unfold am_replay_lease, restored, sent_again. simpl. by rewrite Hst.
  - intros s Hin. simpl in *. rewrite (bumped_max _ receipt), (bumped_max _ id) by lia.
    destruct Hin as [<-|(r & d' & Hs & <-)]; [lia|]. rewrite Hst in Hs. injection Hs as <- _. lia.
  - simpl in *. rewrite (bumped_max _ receipt), (bumped_max _ id) by lia.
    destruct (Z.max_spec (Z.max (as_seq R) (bumped 0 id)) (bumped 0 receipt)) as [[_ ->]|[_ ->]].
    { right. right. eauto. }
    destruct (Z.max_spec (as_seq R) (bumped 0 id)) as [[_ ->]|[_ ->]]; [right; by left|by left].
Qed.

Lemma loaded_waiting A N P R n id m
    (R1 := a_put n id (sent_again id m (a_Receives m)) (a_set_seq (bumped (as_seq R) id) R)) :
  awf A → loaded A N P R → N n → a_lookup A n id = Some m → ¬ P n id → ¬ is_leased m →
  loaded A N (λ n' id', P n' id' ∨ n' = n ∧ id' = id) R1.
Proof.
  intros HA Hld HN Hm HP Hst.
  destruct (loaded_sent_again _ _ _ _ _ _ _ (a_Receives m) HA Hld HN Hm HP) as [HR1 Hl1].
  { exact (aw_recv _ HA _ _ _ Hm). }
  pose proof (aw_seq _ (ld_awf _ _ _ _ Hld)) as Hs0.
  eapply loaded_add; [done|exact Hm|done|..].
  - intros n'. unfold R1. by rewrite a_cfg_put.
  - apply bumped_mono.
  - intros n' id'. fold R1 in Hl1. rewrite Hl1. case_decide; [|done]. f_equal.
    unfold restored, sent_again. unfold is_leased in Hst. by destruct (a_Status m).
  - intros s Hin. simpl. rewrite (bumped_max _ id) by lia.
    destruct Hin as [<-|(r & d & Hs & _)]; [lia|]. destruct Hst. unfold is_leased. by rewrite Hs.
  - simpl. rewrite (bumped_max _ id) by lia.
    destruct (Z.max_spec (as_seq R) (bumped 0 id)) as [[_ ->]|[_ ->]]; [right; by left|by left].
Qed.

(** ** Loading a snapshot *)

Section snapshot.
Context {L : Type} `{!Appender L} `{!LogLaws L} `{!ConfigJSON} `{!ConfigJSONLaws}.
Implicit Types w : world L.

(** Loading [recs] from [w] leads to a state with [P]. *)
Definition loads w (recs : list WRecord) (P : astate → Prop) : Prop :=
  ∀ i, wp (load_from i recs)
    (λ err w', err = None ∧ ∃ k', w' = with_core w k' ∧ wf k' ∧ P (abs k')) w.

Lemma loads_nil w (P : astate → Prop) : wf (w_core w) → P (abs (w_core w)) → loads w [] P.
Proof. intros Hwf HP i. apply wp_ret. split; [done|]. exists (w_core w). by destruct w. Qed.

Lemma loads_app w rs1 rs2 (P Q : astate → Prop) :
  loads w rs1 P → (∀ k', wf k' → P (abs k') → loads (with_core w k') rs2 Q) →
  loads w (rs1 ++ rs2) Q.
Proof.
  intros H1 H2 i. apply wp_load_app. eapply wp_mono; [apply H1|].
  intros err w' (-> & k' & -> & Hk' & HP). eapply wp_mono; [by eapply H2|].
  intros err w' (-> & k'' & -> & ? & ?). split; [done|]. by exists k''.
Qed.

Lemma loads_one w r R' (P : astate → Prop) :
  wp (Engine.apply r) (λ err w', replays R' err w w') w → P R' → loads w [r] P.
Proof.
  intros Hr HP i. cbn [load_from]. apply wp_bind. eapply wp_mono; [exact Hr|].
  intros err w' (-> & k' & -> & Hk' & <-). apply wp_ret. split; [done|]. by exists k'.
Qed.

(** The records of a message. *)
Lemma loads_send A N P n (m : message) count w (R := abs (w_core w)) :
  wf (w_core w) → awf A → loaded A N P R → N n →
  a_lookup A n (m_ID m) = Some (abs_msg m) → ¬ P n (m_ID m) → i64 count = count →
  loads w [SetBody (m_Body m) (mkRecord OpSend n (m_ID m) "" "" (ms (m_SentAt m))
            (ms (m_NotBefore m)) 0 "" count "" [])]
    (eq (a_put n (m_ID m) (sent_again (m_ID m) (abs_msg m) count)
           (a_set_seq (bumped (as_seq R) (m_ID m)) R))).
Proof.
  intros Hwf HA Hld HN Hm HP Hi.
  destruct (loaded_sent_again _ _ _ _ _ _ _ count HA Hld HN Hm HP Hi) as [HR1 _].
  set (r := mkRecord OpSend n (m_ID m) "" "" (ms (m_SentAt m)) (ms (m_NotBefore m)) 0 "" count "" []).
  destruct (SetBody_fields (m_Body m) r) as (Hop & Hqu & Hid' & Hts & Hnbf & Hcnt).
  eapply loads_one; [|reflexivity].
  pose proof (wp_apply_send_record n (m_ID m) (m_Body m) (SetBody (m_Body m) r) w) as Happ.
  rewrite Hts, Hnbf, Hcnt in Happ. apply Happ; try done.
  - apply GetBody_SetBody.
  - eapply abs_queues_is_Some, loaded_room; done.
  - by destruct (loaded_fresh _ _ _ _ _ _ _ HA Hld Hm HP) as [Hno _].
Qed.

Lemma loads_message A N P n (m : message) w :
  wf (w_core w) → awf A → loaded A N P (abs (w_core w)) → N n →
  a_lookup A n (m_ID m) = Some (abs_msg m) → ¬ P n (m_ID m) →
  loads w (snapshot_message n m)
    (loaded A N (λ n' id', P n' id' ∨ n' = n ∧ id' = m_ID m)).
Proof.
  intros Hwf HA Hld HN Hm HP. unfold snapshot_message.
  pose proof (aw_recv _ HA _ _ _ Hm) as Hi. change (?x :: ?l) with ([x] ++ l).
  destruct (decide (m_state m = stateLeased)) as [Hst|Hst].
  - eapply loads_app; [by eapply loads_send|]. intros k1 Hk1 Ha1.
    assert (a_Status (abs_msg m) = ALeased (m_Receipt m) (m_Deadline m)) as Hs
      by (simpl; unfold abs_status; by rewrite Hst).
    destruct (loaded_leased _ _ _ _ _ _ _ _ _ HA Hld HN Hm HP Hs) as [HR2 Hld2].
    destruct (loaded_sent_again _ _ _ _ _ _ _ 0 HA Hld HN Hm HP eq_refl) as [_ Hl1].
    rewrite Ha1 in *. specialize (Hl1 n (m_ID m)). rewrite decide_True in Hl1 by done.
    destruct (holds_of_lookup (with_core w k1) _ _ _ Hk1 Hl1) as (q & p & m' & Hho & Hm').
    eapply loads_one; [|exact Hld2]. rewrite Hm'.
    apply (wp_apply_recv n q (m_ID m) p m' 0 (m_Receipt m) (m_Deadline m) (m_Receives m) _ Hho).
    by rewrite <-Hm'.
  - intros i. eapply wp_mono; [by eapply loads_send|].
    intros err w' (-> & k' & -> & Hk' & Ha'). split; [done|]. exists k'. split; [done|].
    split; [done|]. rewrite <-Ha'. eapply loaded_waiting; [done..|].
    unfold is_leased. simpl. unfold abs_status. destruct (m_state m); auto.
Qed.

(** ** The records of a snapshot *)

(** What a snapshot says about a queue: its messages, each once. *)
Lemma snapshot_queue_ok k n q :
  wf k → k_queues k !! n = Some q →
  ∃ msgs, snapshot_queue (k_msgs k) n q =
      Some (rec_create n (Marshal_config (q_cfg q)) 0 :: concat (snapshot_message n <$> msgs)) ∧
    NoDup (m_ID <$> msgs) ∧ Sorted seq_le msgs ∧
    (∀ m, m ∈ msgs → a_lookup (abs k) n (m_ID m) = Some (abs_msg m)) ∧
    (∀ id, is_Some (a_lookup (abs k) n id) → id ∈ m_ID <$> msgs).
Proof.
  intros Hwf Hq. set (ps := map_to_list (q_byID q)).
  assert (∀ x, x ∈ ps → ∃ m, k_msgs k !! x.2 = Some m ∧ m_ID m = x.1 ∧
    a_lookup (abs k) n x.1 = Some (abs_msg m)) as Hps.
  { intros [id p] Hx%elem_of_map_to_list.
    destruct (wf_lookup _ _ _ _ _ Hwf Hq Hx) as (m & ? & ? & _ & ?). eauto. }
  assert (∃ msgs, load_all (k_msgs k) ps.*2 = Some msgs ∧ m_ID <$> msgs = ps.*1 ∧
    ∀ m, m ∈ msgs → a_lookup (abs k) n (m_ID m) = Some (abs_msg m)) as (msgs & Hload & Hids & Hall).
  { clearbody ps. induction ps as [|x ps IH].
    - exists []. split; [done|]. split; [done|]. by intros m Hm%not_elem_of_nil.
    - destruct IH as (msgs & Hload & Hids & Hall); [intros y Hy; apply Hps; by right|].
      destruct (Hps x) as (m & Hm & Hid & Hl); [by left|]. exists (m :: msgs). split; [|split].
      + change (load_all (k_msgs k) (x.2 :: ps.*2) = Some (m :: msgs)).
        unfold load_all in *. apply mapM_Some. constructor; [done|]. by apply mapM_Some.
      + by rewrite !fmap_cons, Hid, Hids.
      + intros m' [->|Hm']%elem_of_cons; [by rewrite Hid|auto]. }
  exists (merge_sort seq_le msgs). unfold snapshot_queue. fold ps. rewrite Hload.
  pose proof (merge_sort_Permutation seq_le msgs) as Hperm.
  split; [done|]. split; [|split; [|split]].
  - rewrite Hperm, Hids. apply NoDup_fst_map_to_list.
  - apply Sorted_merge_sort. intros m1 m2. unfold seq_le. lia.
  - intros m. rewrite Hperm. apply Hall.
  - intros id [am Ha]. rewrite Hperm, Hids.
    destruct (a_lookup_abs_inv _ _ _ _ Ha) as (q' & p & m & Hq' & Hp & _).
    assert (q' = q) as -> by congruence. apply list_elem_of_fmap. exists (id, p).
    split; [done|]. subst ps. by apply elem_of_map_to_list.
Qed.

(** Loading the messages of a queue. *)
Lemma loads_messages A N n msgs : ∀ P w,
  wf (w_core w) → awf A → loaded A N P (abs (w_core w)) → N n → NoDup (m_ID <$> msgs) →
  (∀ m, m ∈ msgs → a_lookup A n (m_ID m) = Some (abs_msg m) ∧ ¬ P n (m_ID m)) →
  loads w (concat (snapshot_message n <$> msgs))
    (loaded A N (λ n' id', P n' id' ∨ n' = n ∧ id' ∈ m_ID <$> msgs)).
Proof.
  induction msgs as [|m msgs IH]; intros P w Hwf HA Hld HN Hnd Hms.
  - apply loads_nil; [done|]. eapply loaded_iff, Hld; [done|]. intros n' id'. simpl.
    rewrite elem_of_nil. tauto.
  - rewrite !fmap_cons in *. apply NoDup_cons in Hnd as [Hid Hnd]. cbn [concat].
    destruct (Hms m) as [Hm HP]; [by left|].
    eapply loads_app; [by eapply loads_message|]. intros k' Hk' Hld'.
    intros i. eapply wp_mono; [eapply (IH (λ n' id', P n' id' ∨ n' = n ∧ id' = m_ID m)); try done|].
    + intros m' Hm'. destruct (Hms m') as [Hl HP']; [by right|]. split; [done|].
      intros [?|[_ He]]; [done|]. destruct Hid. rewrite <-He. by apply list_elem_of_fmap_2.
    + intros err w' (-> & k'' & -> & Hk'' & Hld''). split; [done|]. exists k''. split; [done|].
      split; [done|]. eapply loaded_iff, Hld''; [done|]. intros n' id'.
      rewrite elem_of_cons. tauto.
Qed.

Lemma loads_queue A N P n q k w :
  A = abs k → wf k → k_queues k !! n = Some q → n ≠ "" → ¬ N n →
  (∀ n' id, P n' id → N n') → ParseConfig (Marshal_config (q_cfg q)) = Ok (q_cfg q) →
  wf (w_core w) → loaded A N P (abs (w_core w)) →
  ∀ recs, snapshot_queue (k_msgs k) n q = Some recs →
    loads w recs (loaded A (λ n', N n' ∨ n' = n)
                    (λ n' id', P n' id' ∨ n' = n ∧ is_Some (a_lookup A n' id'))).
Proof.
  intros -> Hk Hq Hn HN HPN Hparse Hwf Hld recs Hrecs.
  destruct (snapshot_queue_ok k n q Hk Hq) as (msgs & Hsnap & Hnd & _ & Hall & Hcov).
  rewrite Hsnap in Hrecs. injection Hrecs as <-.
  change (?r :: concat ?l) with ([r] ++ concat l).
  eapply (loads_app _ _ _ (eq (a_create n (q_cfg q) (abs (w_core w))))).
  { eapply loads_one; [by apply (wp_apply_create n (q_cfg q) 0)|reflexivity]. }
  intros k1 Hk1 Ha1 i. eapply wp_mono.
  { apply (loads_messages (abs k) (λ n', N n' ∨ n' = n) n msgs P); [done|apply Hk| |by right|done|].
    - simpl. rewrite <-Ha1. apply loaded_create; [done| |done]. by rewrite a_cfg_abs, Hq.
    - intros m Hm. split; [by apply Hall|]. by intros ?%HPN. }
  intros err w' (-> & k' & -> & Hk' & Hld'). split; [done|]. exists k'. split; [done|].
  split; [done|]. eapply loaded_iff, Hld'; [done|]. intros n' id'.
  split; intros [?|[-> Hx]]; [by left| |by left|]; right; (split; [done|]); [|by apply Hcov].
  apply list_elem_of_fmap in Hx as (m & -> & Hm). rewrite (Hall _ Hm). eauto.
Qed.

Lemma snapshot_queues_ok k names :
  wf k → (∀ n, n ∈ names → is_Some (k_queues k !! n)) →
  is_Some (snapshot_queues k names).
Proof.
  intros Hk. induction names as [|n names IH]; intros Hin; simpl; [eauto|].
  destruct (Hin n) as [q Hq]; [by left|]. rewrite Hq. simpl.
  destruct (snapshot_queue_ok k n q Hk Hq) as (msgs & -> & _). simpl.
  destruct IH as [rest ->]; [intros n' Hn'; apply Hin; by right|]. simpl. eauto.
Qed.

Lemma loads_queues k names : ∀ N P w recs,
  wf k → NoDup names → (∀ n, n ∈ names → ¬ N n) → (∀ n id, P n id → N n) →
  (∀ n c, a_cfg (abs k) n = Some c → ParseConfig (Marshal_config c) = Ok c) →
  wf (w_core w) → loaded (abs k) N P (abs (w_core w)) → snapshot_queues k names = Some recs →
  loads w recs (loaded (abs k) (λ n, N n ∨ n ∈ names)
                  (λ n id, P n id ∨ n ∈ names ∧ is_Some (a_lookup (abs k) n id))).
Proof.
  induction names as [|n names IH]; intros N P w recs Hk Hnd HN HPN Hparse Hwf Hld Hrecs.
  - injection Hrecs as <-. apply loads_nil; [done|].
    eapply loaded_iff, Hld; intros *; rewrite elem_of_nil; tauto.
  - simpl in Hrecs. destruct (k_queues k !! n) as [q|] eqn:Hq; [|done]. simpl in Hrecs.
    destruct (snapshot_queue _ n q) as [recs1|] eqn:H1; [|done]. simpl in Hrecs.
    destruct (snapshot_queues k names) as [rest|] eqn:H2; [|done]. injection Hrecs as <-.
    apply NoDup_cons in Hnd as [Hn Hnd].
    assert (n ≠ "") as Hne.
    { intros ->. pose proof (aw_name _ (wf_abs _ Hk)) as He.
      destruct (proj2 (abs_queues_is_Some k "") (mk_is_Some _ _ Hq)) as [? ?]. congruence. }
    eapply loads_app.
    { apply (loads_queue (abs k) N P n q k w eq_refl Hk Hq Hne); try done; [by apply HN; left|].
      apply (Hparse n). by rewrite a_cfg_abs, Hq. }
    intros k1 Hk1 Hld1 i. eapply wp_mono.
    { apply (IH (λ n', N n' ∨ n' = n)
               (λ n' id', P n' id' ∨ n' = n ∧ is_Some (a_lookup (abs k) n' id'))); try done.
      - intros n' Hn' [HN'| ->]; [|done]. eapply HN; [by right|done].
      - intros n' id' [HP|[-> _]]; [left; by eapply HPN|by right]. }
    intros err w' (-> & k' & -> & Hk' & Hld'). split; [done|]. exists k'. split; [done|].
    split; [done|]. eapply loaded_iff, Hld'; intros *; rewrite elem_of_cons; [tauto|].
    split; [intros [[?|[-> ?]]|[? ?]]|intros [?|[[->|?] ?]]]; tauto.
Qed.

(** ** Snapshot *)

(** The state that a snapshot of [A] is loaded into. *)
Record restores (A R : astate) : Prop := {
  rs_awf : awf R;
  rs_cfg n : a_cfg R n = a_cfg A n;
  rs_lookup n id : a_lookup R n id = restored id <$> a_lookup A n id;
  rs_receipt n id m s d :
    a_lookup A n id = Some m → a_Status m = ALeased (receipt_of s) d → 0 ≤ s < 2 ^ 64 →
    s ≤ as_seq R;
  rs_names n id m s : a_lookup A n id = Some m → in_name s id m → s ≤ as_seq R;
  rs_counter : as_seq R = 0 ∨ ∃ n id m, a_lookup A n id = Some m ∧ in_name (as_seq R) id m;
}.

Lemma loaded_restores A R :
  loaded A (λ n, is_Some (a_cfg A n)) (λ n id, is_Some (a_lookup A n id)) R → restores A R.
Proof.
  intros [Hw Hc Hq Hi Ho Hb Hs]. split; [done|..].
  - intros n. destruct (a_cfg A n) as [c|] eqn:HA; [rewrite <-HA; apply Hc; eauto|].
    destruct (a_cfg R n) eqn:HR; [|done].
    destruct (Hq n) as [? Hx]; [by rewrite HR|congruence].
  - intros n id. destruct (a_lookup A n id) as [m|] eqn:HA; [by apply Hi; [eauto|]|].
    destruct (a_lookup R n id) as [m'|] eqn:HR; [|done].
    destruct (Ho _ _ _ HR) as (_ & m & Hm & _). congruence.
  - intros n id m s d Hl Hst Hr. apply (Hb n id m); [eauto|done|]. right.
    exists (receipt_of s), d. split; [done|]. rewrite bumped_receipt by done. lia.
  - intros n id m s Hl. apply (Hb n id m); eauto.
  - destruct Hs as [Hs|(n & id & m & _ & Hs)]; [by left|right; eauto].
Qed.

Lemma Snapshot_rebuilds w :
  wf (w_core w) →
  (∀ n c, a_cfg (abs (w_core w)) n = Some c → ParseConfig (Marshal_config c) = Ok c) →
  ∃ recs R, Snapshot w = Some (recs, w) ∧ rebuilds (L:=L) recs R ∧ restores (abs (w_core w)) R.
Proof.
  intros Hwf Hparse. set (k := w_core w) in *.
  set (names := merge_sort str_le (map_keys (k_queues k))).
  assert (∀ n, n ∈ names ↔ is_Some (k_queues k !! n)) as Hin.
  { intros n. subst names. by rewrite merge_sort_Permutation, elem_of_map_keys. }
  destruct (snapshot_queues_ok k names Hwf) as [recs Hrecs]; [by intros n ?%Hin|].
  assert (∀ log env, wp (Load recs) (λ err w', err = None ∧
    ∃ k', w' = with_core (New log env) k' ∧ wf k' ∧ restores (abs k) (abs k')) (New log env)) as Hload.
  { intros log env. eapply wp_mono.
    { eapply (loads_queues k names (λ _, False) (λ _ _, False) (New log env) recs); try done.
      - subst names. rewrite merge_sort_Permutation. apply NoDup_map_keys.
      - auto.
      - unfold New, abs. simpl. rewrite fmap_empty. apply loaded_empty. }
    intros err w' (-> & k' & -> & Hk' & Hld). split; [done|]. exists k'. split; [done|].
    split; [done|]. apply loaded_restores. eapply loaded_iff, Hld.
    - intros n. cbn beta. rewrite Hin, a_cfg_is_Some, abs_queues_is_Some. tauto.
    - intros n id. cbn beta. rewrite Hin. split; [intros [[]|[_ ?]]; done|]. intros Hl. right.
      split; [|done]. destruct Hl as [m Hl]. apply abs_queues_is_Some. by eapply a_lookup_is_Some. }
  destruct (wp_elim _ _ _ (Hload None (w_env w))) as (err & w1 & H1 & -> & k1 & -> & Hk1 & Hr1).
  exists recs, (abs k1). split; [|split; [|done]].
  - unfold Snapshot, get_core, go_opt, mbind, GoM_bind. fold k names. by rewrite Hrecs.
  - apply (rebuilds_any _ _ None (w_env w)).
    + eapply wp_of_eq; [exact H1|]. split; [done|]. by exists k1.
    + intros log env. eapply wp_mono; [apply Hload|].
      intros err w' (-> & k' & -> & _). split; [done|]. by exists k'.
Qed.
End snapshot.
