(* ===== verification/LoadTotal.v ===== *)
(** Load returns, whatever it is given.  The records of a log that something else than
    this engine has written (or has damaged without breaking its lines) may
    contradict each other; Load then stops with an error, but it never panics: no
    pointer of the state dangles ([safe], far weaker than the invariant [wf]), and
    the operations of container/heap do not panic on a slice whose order was lost. *)

From S2P Require Import Prelude GoHeap Ids WalRecord Config Message Engine Spec Invariant Refine.
From stdpp Require Import fin_maps.

Local Open Scope Z_scope.

(** ** container/heap without an order *)

Section heap_total.
Context {A : Type} (lt : A → A → option bool).
Implicit Types h : list A.

Definition lt_total h : Prop := ∀ a b, a ∈ h → b ∈ h → is_Some (lt a b).

Lemma lt_total_perm h h' : h' ≡ₚ h → lt_total h → lt_total h'.
Proof. intros Hp Hl a b Ha Hb. apply Hl; by rewrite <-Hp. Qed.

Lemma Less_total h i j :
  lt_total h → (i < length h)%nat → (j < length h)%nat → is_Some (Less lt h i j).
Proof.
  intros Hl Hi Hj. unfold Less.
  destruct (lookup_lt_is_Some_2 h i Hi) as [a Ha].
  destruct (lookup_lt_is_Some_2 h j Hj) as [b Hb].
  rewrite Ha, Hb. simpl. apply Hl; eauto using list_elem_of_lookup_2.
Qed.

Lemma up_total fuel : ∀ h j, lt_total h → (j < fuel)%nat → (j < length h)%nat →
  ∃ h', up lt fuel h j = Some h' ∧ h' ≡ₚ h.
Proof.
  induction fuel as [|fuel IH]; intros h j Hl Hf Hj; [lia|]. simpl.
  case_decide as Hp; [by exists h|].
  assert (parent j < j)%nat as Hlt by (apply parent_lt; destruct j; [done|lia]).
  destruct (Less_total h j (parent j)) as [b Hb]; [done|lia..|]. rewrite Hb. simpl.
  destruct (negb b); [by exists h|].
  destruct (Swap_ok h (parent j) j) as (h1 & -> & Hperm & Hlen & _); [lia..|]. simpl.
  destruct (IH h1 (parent j)) as (h2 & -> & Hp2); [by eapply lt_total_perm|lia|lia|].
  exists h2. split; [done|]. by rewrite Hp2.
Qed.

Lemma down_total fuel : ∀ h i n, lt_total h → (n - i < fuel)%nat → (n ≤ length h)%nat →
  (i < length h)%nat → ∃ h' i', down lt fuel h i n = Some (h', i') ∧ h' ≡ₚ h.
Proof.
  induction fuel as [|fuel IH]; intros h i n Hl Hf Hn Hi; [lia|]. cbn [down].
  case_decide as Hj; [by exists h, i|].
  set (j1 := (2 * i + 1)%nat) in *.
  assert (∃ j, (if decide (j1 + 1 < n)%nat
                then b ← Less lt h (j1 + 1) j1; Some (if b : bool then (j1 + 1)%nat else j1)
                else Some j1) = Some j ∧ (i < j < n)%nat) as (j & -> & Hij).
  { case_decide; [|exists j1; split; [done|subst j1; lia]].
    destruct (Less_total h (j1 + 1) j1) as [b ->]; [done|lia..|]. simpl.
    eexists. split; [done|]. destruct b; subst j1; lia. }
  destruct (Less_total h j i) as [b Hb]; [done|lia..|]. simpl. rewrite Hb. simpl.
  destruct (negb b); [by exists h, i|].
  destruct (Swap_ok h i j) as (h1 & -> & Hperm & Hlen & _); [lia..|]. simpl.
  destruct (IH h1 j n) as (h2 & i2 & -> & Hp2); [by eapply lt_total_perm|lia..|].
  exists h2, i2. split; [done|]. by rewrite Hp2.
Qed.

Lemma heap_Push_total h x :
  lt_total (x :: h) → ∃ h', heap_Push lt h x = Some h' ∧ h' ≡ₚ x :: h.
Proof.
  intros Hl. assert (push_last h x ≡ₚ x :: h) as Hp by (unfold push_last; by rewrite Permutation_app_comm).
  assert (length (push_last h x) = S (length h)) as Hlen by (by rewrite Hp).
  unfold heap_Push. destruct (up_total (length (push_last h x)) (push_last h x)
    (length (push_last h x) - 1)) as (h' & -> & Hp'); [by eapply lt_total_perm|lia..|].
  exists h'. split; [done|]. by rewrite Hp'.
Qed.

Lemma pop_last_total h : h ≠ [] → ∃ x h', pop_last h = Some (x, h') ∧ ∀ y, y ∈ h' → y ∈ h.
Proof.
  intros Hne. unfold pop_last.
  destruct (lookup_lt_is_Some_2 h (length h - 1)) as [x ->]; [destruct h; [done|simpl; lia]|].
  simpl. exists x, (take (length h - 1) h). split; [done|]. intros y.
  intros (i & Hi & _)%elem_of_take. by eapply list_elem_of_lookup_2.
Qed.

Lemma heap_Remove_total h i :
  lt_total h → (i < length h)%nat →
  ∃ x h', heap_Remove lt h i = Some (x, h') ∧ ∀ y, y ∈ h' → y ∈ h.
Proof.
  intros Hl Hi. unfold heap_Remove. destruct (length h) as [|n] eqn:Hn; [lia|].
  assert (∃ h', (if decide (n = i) then Some h
                 else h1 ← Swap h i n;
                      '(h2, i') ← down lt (S n) h1 i n;
                      (if decide (i < i')%nat then Some h2 else up lt (S n) h2 i)) = Some h' ∧
                h' ≡ₚ h) as (h' & -> & Hp).
  { case_decide as Hni; [by exists h|].
    destruct (Swap_ok h i n) as (h1 & -> & Hp1 & Hl1 & _); [lia..|]. cbn [mbind option_bind].
    destruct (down_total (S n) h1 i n) as (h2 & i2 & Hd & Hp2); [by eapply lt_total_perm|lia..|].
    rewrite Hd. cbn [mbind option_bind].
    case_decide; [exists h2; split; [done|]; by rewrite Hp2|].
    destruct (up_total (S n) h2 i) as (h3 & Hu & Hp3).
    - eapply lt_total_perm; [|exact Hl]. by rewrite Hp2.
    - lia.
    - rewrite Hp2. lia.
    - rewrite Hu. exists h3. split; [done|]. by rewrite Hp3, Hp2. }
  simpl. destruct (pop_last_total h') as (x & h2 & -> & Hin).
  { intros ->. apply Permutation_nil in Hp. subst h. simpl in Hn. lia. }
  exists x, h2. split; [done|]. intros y Hy. rewrite <-Hp. by apply Hin.
Qed.
End heap_total.

(** ** States without dangling pointers *)

Record qsafe (st : store) (q : queueState) : Prop := {
  qs_byID id p : q_byID q !! id = Some p → is_Some (st !! p);
  qs_ready p : p ∈ q_ready q → is_Some (st !! p);
}.

Definition safe (k : core) : Prop := ∀ n q, k_queues k !! n = Some q → qsafe (k_msgs k) q.

Lemma wf_safe k : wf k → safe k.
Proof.
  intros Hwf n q Hq. split.
  - intros id p Hp. destruct (wf_lookup _ _ _ _ _ Hwf Hq Hp) as (m & Hm & _). eauto.
  - intros p Hp. destruct (wq_ready _ _ _ (wf_queues _ Hwf _ _ Hq) _ Hp) as (m & Hm & _). eauto.
Qed.

Lemma qsafe_mono st st' q :
  (∀ p, is_Some (st !! p) → is_Some (st' !! p)) → qsafe st q → qsafe st' q.
Proof. intros Hs [Hb Hr]. split; eauto. Qed.

Section total.
Context {L : Type} `{!Appender L} `{!LogLaws L} `{!ConfigJSON}.
Implicit Types w : world L.

(** Nothing dangles in [w'], and what was there before is still there. *)
Record later w w' : Prop := {
  la_safe : safe (w_core w');
  la_msgs p : is_Some (k_msgs (w_core w) !! p) → is_Some (k_msgs (w_core w') !! p);
  la_queues n : is_Some (k_queues (w_core w) !! n) → is_Some (k_queues (w_core w') !! n);
}.

Lemma later_refl w : safe (w_core w) → later w w.
Proof. by split. Qed.

Lemma later_trans w1 w2 w3 : later w1 w2 → later w2 w3 → later w1 w3.
Proof. intros [] []. split; eauto. Qed.

(** Computations that keep states safe, one after the other. *)
Lemma later_bind {A B} (c : GoM (world L) A) (f : A → GoM (world L) B) (P : A → world L → Prop)
    (Q : B → world L → Prop) w :
  wp c (λ a w1, later w w1 ∧ P a w1) w →
  (∀ a w1, later w w1 → P a w1 → wp (f a) (λ b w2, later w1 w2 ∧ Q b w2) w1) →
  wp (c ≫= f) (λ b w2, later w w2 ∧ Q b w2) w.
Proof.
  intros Hc Hf. apply wp_bind. eapply wp_mono; [exact Hc|]. intros a w1 [Hl HP].
  eapply wp_mono; [by apply Hf|]. intros b w2 [Hl2 HQ]. split; [by eapply later_trans|done].
Qed.

Lemma later_ret {A} (a : A) (Q : A → world L → Prop) w :
  safe (w_core w) → Q a w → wp (mret a) (λ a w', later w w' ∧ Q a w') w.
Proof. intros Hs HQ. apply wp_ret. by split; [apply later_refl|]. Qed.

Lemma later_lookup w n : safe (w_core w) →
  wp (lookup_queue n) (λ oq w', later w w' ∧ oq = k_queues (w_core w) !! n ∧ w' = w) w.
Proof. intros Hs. apply wp_lookup_queue. by split; [apply later_refl|]. Qed.

Lemma later_deref w n : safe (w_core w) → is_Some (k_queues (w_core w) !! n) →
  wp (deref_queue n) (λ q w', later w w' ∧
    w' = w ∧ k_queues (w_core w) !! n = Some q ∧ qsafe (k_msgs (w_core w)) q) w.
Proof.
  intros Hs [q Hq]. eapply wp_deref_queue; [exact Hq|]. split; [by apply later_refl|].
  split; [done|]. split; [done|]. by eapply Hs.
Qed.

Lemma later_load w p : safe (w_core w) → is_Some (k_msgs (w_core w) !! p) →
  wp (load p) (λ _ w', later w w' ∧ w' = w) w.
Proof. intros Hs [m Hm]. eapply wp_load; [exact Hm|]. by split; [apply later_refl|]. Qed.

Lemma later_save w p m : safe (w_core w) →
  wp (save p m) (λ _ w', later w w' ∧ is_Some (k_msgs (w_core w') !! p)) w.
Proof.
  intros Hs. apply wp_save.
  assert (∀ p', is_Some (k_msgs (w_core w) !! p') →
            is_Some (<[p := m]> (k_msgs (w_core w)) !! p')) as Hin.
  { intros p' Hp'. rewrite lookup_insert. case_decide; eauto. }
  split; [split; simpl; [|exact Hin|done]|simpl; rewrite lookup_insert_eq; eauto].
  intros n q Hq. eapply qsafe_mono; [exact Hin|by eapply Hs].
Qed.

Lemma later_put w n q : safe (w_core w) → qsafe (k_msgs (w_core w)) q →
  wp (put_queue n q) (λ _ w', later w w' ∧ is_Some (k_queues (w_core w') !! n)) w.
Proof.
  intros Hs Hq. apply wp_put_queue. split; [split; simpl; [|done|]|simpl; rewrite lookup_insert_eq; eauto].
  - intros n' q' Hq'. simpl in *. apply lookup_insert_Some in Hq' as [[<- <-]|[_ Hq']]; [done|].
    by eapply Hs.
  - intros n' Hn'. rewrite lookup_insert. case_decide; eauto.
Qed.

Lemma later_set_seq w s : safe (w_core w) → wp (Engine.set_seq s) (λ _ w', later w w' ∧ True) w.
Proof. intros Hs. split; [|done]. by split. Qed.

Lemma later_bumpSeq w id : safe (w_core w) → wp (bumpSeq id) (λ _ w', later w w' ∧ True) w.
Proof. intros Hs. unfold bumpSeq, get_seq. apply wp_bind, wp_bind, wp_get_core. by apply later_set_seq. Qed.

Lemma later_incr_seq w : safe (w_core w) → wp incr_seq (λ _ w', later w w' ∧ True) w.
Proof. intros Hs. apply wp_incr_seq. split; [|done]. by split. Qed.

(** A change of a queue that keeps its indexes, or shrinks them. *)
Lemma qsafe_within st q q' :
  (∀ id p, q_byID q' !! id = Some p → q_byID q !! id = Some p) →
  (∀ p, p ∈ q_ready q' → p ∈ q_ready q) → qsafe st q → qsafe st q'.
Proof. intros Hb Hr [Sb Sr]. split; eauto. Qed.

Lemma readyLess_total st h : (∀ p, p ∈ h → is_Some (st !! p)) → lt_total (readyLess st) h.
Proof.
  intros Hin a b Ha Hb. destruct (Hin a Ha) as [ma Hma]. destruct (Hin b Hb) as [mb Hmb].
  unfold readyLess. rewrite Hma, Hmb. eauto.
Qed.

Lemma later_pushReady w n p :
  safe (w_core w) → is_Some (k_queues (w_core w) !! n) → is_Some (k_msgs (w_core w) !! p) →
  wp (pushReady n p) (λ _ w', later w w' ∧ True) w.
Proof.
  intros Hs Hn Hp. unfold pushReady.
  eapply later_bind; [by apply later_load|]. intros m ? _ ->.
  eapply later_bind; [by apply later_save|]. intros [] w1 Hl Hp1.
  eapply later_bind; [apply later_deref; [apply Hl|by apply Hl]|]. intros q ? _ (-> & Hq & Hqs).
  apply wp_bind, wp_get_core.
  destruct (heap_Push_total (readyLess (k_msgs (w_core w1))) (q_ready q) p) as (h & Hpush & Hperm).
  { apply readyLess_total. intros p' [->|Hp']%elem_of_cons; [done|by apply Hqs]. }
  apply wp_bind. eapply wp_opt; [exact Hpush|].
  eapply wp_mono; [apply later_put; [apply Hl|]|by intros ? ? [? _]].
  destruct Hqs as [Hb Hr]. split; simpl; [done|]. intros p'. rewrite Hperm, elem_of_cons.
  intros [->|?]; auto.
Qed.

Lemma later_removeReady w n p :
  safe (w_core w) → is_Some (k_queues (w_core w) !! n) →
  wp (removeReady n p) (λ _ w', later w w' ∧ True) w.
Proof.
  intros Hs Hn. unfold removeReady.
  eapply later_bind; [by apply later_deref|]. intros q ? _ (-> & Hq & Hqs).
  destruct (list_find (eq p) (q_ready q)) as [[i p']|] eqn:Hf; [|by apply later_ret].
  apply list_find_Some in Hf as (Hi & _ & _). apply lookup_lt_Some in Hi.
  apply wp_bind, wp_get_core.
  destruct (heap_Remove_total (readyLess (k_msgs (w_core w))) (q_ready q) i) as (x & h & Hrm & Hin);
    [apply readyLess_total, Hqs|done|].
  apply wp_bind. eapply wp_opt; [exact Hrm|].
  eapply wp_mono; [apply later_put; [done|by eapply qsafe_within, Hqs]|by intros ? ? [? _]].
Qed.

Lemma later_arrive w to p m :
  safe (w_core w) → is_Some (k_queues (w_core w) !! to) →
  wp (arrive to p m) (λ _ w', later w w' ∧ True) w.
Proof.
  intros Hs Hn. unfold arrive.
  eapply later_bind; [by apply later_save|]. intros [] w1 Hl Hp1.
  eapply later_bind; [apply later_deref; [apply Hl|by apply Hl]|]. intros q ? _ (-> & Hq & Hqs).
  eapply later_bind; [apply later_put; [apply Hl|]|].
  - split; simpl; [|apply Hqs]. intros id p' [[_ <-]|[_ Hp']]%lookup_insert_Some; [done|].
    by eapply Hqs.
  - intros [] w2 Hl2 Hq2. apply later_pushReady; [apply Hl2|done|by apply Hl2].
Qed.

Lemma later_transfer r p w :
  safe (w_core w) → is_Some (k_msgs (w_core w) !! p) →
  wp (apply_transfer r p) (λ _ w', later w w' ∧ True) w.
Proof.
  intros Hs Hp. unfold apply_transfer. case_decide; [by apply later_ret|].
  eapply later_bind; [by apply later_lookup|]. intros dst ? _ [-> ->].
  destruct (k_queues (w_core w) !! r_To r) eqn:Hq; [|by apply later_ret].
  eapply later_bind; [by apply later_incr_seq|]. intros s w1 Hl _.
  eapply later_bind; [apply later_load; [apply Hl|by apply Hl]|]. intros m ? _ ->.
  eapply later_bind; [apply later_arrive; [apply Hl|apply Hl; by rewrite Hq]|].
  intros [] w2 Hl2 _. by apply later_ret; [apply Hl2|].
Qed.

(** The message [p] is taken out of its queue: the start of ack, dead and move. *)
Lemma later_taken w n p (f : queueState → GoM (world L) (option error)) :
  safe (w_core w) → is_Some (k_queues (w_core w) !! n) → is_Some (k_msgs (w_core w) !! p) →
  (∀ w2 q2, later w w2 → is_Some (k_queues (w_core w2) !! n) → qsafe (k_msgs (w_core w2)) q2 →
     wp (f q2) (λ _ w', later w2 w' ∧ True) w2) →
  wp (m ← load p;
      q ← deref_queue n;
      _ ← put_queue n
            (q_set_pending (delete (m_ID m) (q_pending q))
              (q_set_byID (delete (m_ID m) (q_byID q)) q));
      _ ← removeReady n p;
      q ← deref_queue n;
      f q) (λ _ w', later w w' ∧ True) w.
Proof.
  intros Hs Hn Hp Hf.
  eapply later_bind; [by apply later_load|]. intros m ? _ ->.
  eapply later_bind; [by apply later_deref|]. intros q ? _ (-> & _ & Hqs).
  eapply later_bind; [apply later_put; [done|]|].
  { eapply qsafe_within, Hqs; [|done]. simpl. by intros id p' [_ ?]%lookup_delete_Some. }
  intros [] w1 L1 Hq1.
  eapply later_bind; [apply later_removeReady; [apply L1|done]|]. intros [] w2 L2 _.
  eapply later_bind; [apply later_deref; [apply L2|by apply L2]|].
  intros q2 ? _ (-> & _ & Hqs2). apply Hf; [by eapply later_trans|by apply L2|done].
Qed.

(** One record for the message [p] of a queue. *)
Lemma later_message r n p w :
  safe (w_core w) → is_Some (k_queues (w_core w) !! n) → is_Some (k_msgs (w_core w) !! p) →
  wp (apply_message r n p) (λ _ w', later w w' ∧ True) w.
Proof.
  intros Hs Hn Hp. unfold apply_message.
  case_decide; [|case_decide; [|case_decide; [|case_decide; [|case_decide; [|by apply later_ret]]]]].
  - eapply later_bind; [by apply later_bumpSeq|]. intros [] w1 L1 _.
    eapply later_bind; [apply later_removeReady; [apply L1|by apply L1]|]. intros [] w2 L2 _.
    eapply later_bind; [apply later_load; [apply L2|by apply L2, L1]|]. intros m ? _ ->.
    eapply later_bind; [apply later_save; apply L2|]. intros [] w3 L3 _.
    eapply later_bind; [apply later_deref; [apply L3|by apply L3, L2, L1]|].
    intros q ? _ (-> & _ & Hqs).
    eapply later_bind; [apply later_put; [apply L3|by eapply qsafe_within, Hqs]|].
    intros [] w4 L4 _. by apply later_ret; [apply L4|].
  - apply later_taken; [done..|]. intros w2 q2 L2 Hq2 Hqs2.
    eapply later_bind; [apply later_put; [apply L2|by eapply qsafe_within, Hqs2]|].
    intros [] w3 L3 _. by apply later_ret; [apply L3|].
  - eapply later_bind; [by apply later_load|]. intros m ? _ ->.
    eapply later_bind; [by apply later_deref|]. intros q ? _ (-> & _ & Hqs).
    eapply later_bind; [apply later_put; [done|by eapply qsafe_within, Hqs]|].
    intros [] w1 L1 Hq1.
    eapply later_bind; [apply later_pushReady; [apply L1|done|by apply L1]|].
    intros [] w2 L2 _. by apply later_ret; [apply L2|].
  - eapply later_bind; [by apply later_load|]. intros m ? _ ->.
    eapply later_bind; [by apply later_save|]. intros [] w1 L1 _. by apply later_ret; [apply L1|].
  - apply later_taken; [done..|]. intros w2 q2 L2 Hq2 Hqs2.
    apply (later_bind _ _ (λ _ _, True)).
    + case_decide; [|by apply later_ret; [apply L2|]].
      eapply wp_mono; [apply later_put; [apply L2|by eapply qsafe_within, Hqs2]|by intros ? ? [? _]].
    + intros [] w3 L3 _. apply later_transfer; [apply L3|by apply L3, L2].
Qed.

Lemma safe_apply r w : safe (w_core w) → wp (Engine.apply r) (λ _ w', safe (w_core w')) w.
Proof.
  intros Hs. unfold Engine.apply.
  assert (∀ (A : Type) (c : GoM (world L) A), wp c (λ _ w', later w w' ∧ True) w →
            wp c (λ _ w', safe (w_core w')) w) as Hend.
  { intros A c Hc. eapply wp_mono; [exact Hc|]. intros a w' [Hl _]. apply Hl. }
  case_decide; [|case_decide].
  - destruct (ParseConfig (r_Config r)) as [cfg|e]; [|by apply wp_ret].
    apply wp_bind, wp_lookup_queue. destruct (k_queues (w_core w) !! r_Queue r) as [q|] eqn:Hq.
    + apply Hend.
      eapply later_bind; [apply later_put; [done|eapply qsafe_within, (Hs _ _ Hq); done]|].
      intros [] w1 L1 _. by apply later_ret; [apply L1|].
    + apply wp_bind, wp_add_queue, wp_ret. intros n q' Hq'. simpl in *.
      apply lookup_insert_Some in Hq' as [[<- <-]|[_ Hq']]; [|by eapply Hs].
      split; simpl; [done|]. by intros p ?%not_elem_of_nil.
  - apply wp_bind, wp_lookup_queue.
    destruct (k_queues (w_core w) !! r_Queue r) as [q|] eqn:Hq; [|by apply wp_ret].
    apply wp_bind, wp_get_core, wp_bind, wp_put_core, wp_ret. intros n q' Hq'. simpl in *.
    apply lookup_delete_Some in Hq' as [_ Hq']. by eapply Hs.
  - apply wp_bind, wp_lookup_queue.
    destruct (k_queues (w_core w) !! r_Queue r) as [q|] eqn:Hq; [|by apply wp_ret].
    pose proof (Hs _ _ Hq) as Hqs. case_decide.
    + destruct (GetBody r) as [body|e]; [|by apply wp_ret]. apply Hend.
      eapply later_bind; [by apply later_bumpSeq|]. intros [] w1 L1 _. cbv zeta.
      set (m := mkMessage _ _ _ _ _ _ _ _ _).
      assert (∀ p', is_Some (k_msgs (w_core w) !! p') → is_Some (k_msgs (w_core w1) !! p')) as Hm
        by apply L1.
      apply (later_bind _ _ (λ p w2, is_Some (k_msgs (w_core w2) !! p))).
      { unfold new_message. apply wp_bind, wp_get_core.
        set (p := fresh _). apply wp_bind, (wp_mono _ _ _ _ (later_save w1 p m (la_safe _ _ L1))).
        intros [] w2 [L2 Hp]. by apply wp_ret. }
      intros p w2 L2 Hp.
      eapply later_bind; [apply later_put; [apply L2|]|intros [] w3 L3 _; apply later_ret; [apply L3|done]].
      apply (qsafe_mono _ (k_msgs (w_core w2))) in Hqs; [|by intros p' ?%Hm%L2].
      split; simpl; [|apply Hqs]. intros id p' [[_ <-]|[_ Hp']]%lookup_insert_Some; [done|].
      by eapply Hqs.
    + destruct (q_byID q !! r_ID r) as [p|] eqn:Hp; [|by apply wp_ret].
      apply Hend, later_message; [done|by rewrite Hq|by eapply Hqs].
Qed.

Lemma safe_load_from recs : ∀ i w, safe (w_core w) →
  wp (load_from i recs) (λ _ w', safe (w_core w')) w.
Proof.
  induction recs as [|r recs IH]; intros i w Hs; cbn [load_from]; [by apply wp_ret|].
  apply wp_bind. eapply wp_mono; [by apply safe_apply|]. intros [e|] w1 Hs1; [by apply wp_ret|].
  by apply IH.
Qed.

(** Load, on any records. *)
Lemma safe_Load recs w : safe (w_core w) → wp (Load recs) (λ _ w', safe (w_core w')) w.
Proof. apply safe_load_from. Qed.
End total.
