(* ===== verification/Runs.v ===== *)
(** Whole runs of the engine: the exported operations as one type of calls, the
    worlds that sequences of calls reach, and the steps that every call performs.
    The operations are atomic (each holds the mutex from start to end), so a run of a
    concurrent program is a sequence of calls.  Load is the exception: it takes no
    lock and is for a fresh engine that nobody else has yet; runs are sequences of
    the other calls, and what Load does to a fresh engine is the subject of
    [RefineLoad], [LoadTotal] and [Recovery]. *)

From S2P Require Import Prelude GoHeap Ids WalRecord Config Message Engine Spec Invariant.
From S2P Require Import Refine RefineTime RefineOps RefineRecv RefineStats RefineSnap.
From stdpp Require Import fin_maps.

Local Open Scope Z_scope.

(** The exported methods of Engine. *)
Inductive call :=
  | CCreateQueue (name : string) (cfg : Config)
  | CDeleteQueue (name : string)
  | CSend (queue : string) (body : bytes) (delay : Z)
  | CReceive (queue : string) (max visibility : Z)
  | CAck (queue id receipt : string)
  | CNack (queue id receipt : string)
  | CExtend (queue id receipt : string) (visibility : Z)
  | CRedrive (from to : string) (max : Z)
  | CSweep (at_ : Z)
  | CStats (name : string)
  | CListStats
  | CSnapshot
  | CLoad (recs : list WRecord).

(** Load replays records into a fresh engine; every other call may be made at any
    time. *)
Definition operates (c : call) : bool := if c is CLoad _ then false else true.

Section runs.
Context {L : Type} `{!Appender L} `{!LogLaws L} `{!ConfigJSON}.
Implicit Types w : world L.

Definition run_call (c : call) : GoM (world L) () :=
  match c with
  | CCreateQueue name cfg => _ ← CreateQueue name cfg; mret ()
  | CDeleteQueue name => _ ← DeleteQueue name; mret ()
  | CSend queue body delay => _ ← Send queue body delay; mret ()
  | CReceive queue max vis => _ ← Receive_nowait queue max vis; mret ()
  | CAck queue id receipt => _ ← Ack queue id receipt; mret ()
  | CNack queue id receipt => _ ← Nack queue id receipt; mret ()
  | CExtend queue id receipt vis => _ ← Extend queue id receipt vis; mret ()
  | CRedrive from to max => _ ← Redrive from to max; mret ()
  | CSweep at_ => _ ← Sweep at_; mret ()
  | CStats name => _ ← QueueStats name; mret ()
  | CListStats => _ ← ListStats; mret ()
  | CSnapshot => _ ← Snapshot; mret ()
  | CLoad recs => _ ← Load recs; mret ()
  end.

(** A sequence of calls, each made while the 64-bit counter is below 2^62. *)
Inductive runs : world L → list call → world L → Prop :=
  | runs_nil w : runs w [] w
  | runs_cons w c w1 cs w2 :
      operates c = true → k_seq (w_core w) < 2 ^ 62 → run_call c w = Some ((), w1) →
      runs w1 cs w2 → runs w (c :: cs) w2.

(** What the label of a step has to do with the call and with the time [t] at
    which it was made: a queue is created with the configuration of the call, or
    with the default one; a message whose time has come is settled at [t], or at
    the time that is passed to Sweep. *)
Definition made_by (c : call) (t : Z) (l : label) : Prop :=
  match l with
  | LCreate _ cfg _ => cfg = DefaultConfig ∨ ∃ n, c = CCreateQueue n cfg
  | LSettle _ _ at_ => at_ = t ∨ c = CSweep at_
  | _ => True
  end.

(** The call [c], made at [t], performs steps that lead from [w] to [w']. *)
Definition performs (c : call) (t : Z) w w' : Prop :=
  ∃ ls, evolves w ls w' ∧ Forall (made_by c t) ls.

Lemma performs_refl c t w : wf (w_core w) → performs c t w w.
Proof. intros. exists []. by split; [apply evolves_refl|]. Qed.

Lemma performs_trans c t w1 w2 w3 :
  performs c t w1 w2 → performs c t w2 w3 → performs c t w1 w3.
Proof.
  intros (ls1 & H1 & F1) (ls2 & H2 & F2). exists (ls1 ++ ls2).
  split; [by eapply evolves_trans|by apply Forall_app].
Qed.

Lemma performs_one c t w l w' : evolves w [l] w' → made_by c t l → performs c t w w'.
Proof. intros. exists [l]. by split; [|constructor]. Qed.

Lemma performs_sweeping c t w ls w' :
  evolves w ls w' → Forall (sweeping t) ls → performs c t w w'.
Proof.
  intros Hev Hls. exists ls. split; [done|]. eapply Forall_impl; [exact Hls|].
  intros l [n Hl]. destruct l; try done; [by left|]. left. apply Hl.
Qed.

Lemma performs_sweep c w n t w1 : first_sweep w n t w1 → performs c (clock w) w w1.
Proof.
  intros Hfs. pose proof Hfs as [<- _]. apply first_sweep_inv in Hfs as (ls & Hev & Hok & _).
  eapply performs_sweeping; [done|by eapply is_sweep_sweeping].
Qed.

Lemma performs_dead c t w A n id to err ls w' :
  evolves w ls w' → dead_steps A n id to err ls → performs c t w w'.
Proof.
  intros Hev Hds. eapply performs_sweeping; [done|].
  eapply (is_sweep_sweeping n), dead_steps_sweep, Hds.
Qed.

Lemma leases_performs c t w n max vis t' r w' :
  leases w n max vis t' [] r w' → performs c t w w'.
Proof.
  intros (new & ls & _ & Hds & _ & Hend).
  assert (Forall (made_by c t) ls) as Hls.
  { clear Hend. induction Hds as [|d l new ls Hd Hds IH]; constructor; [|done].
    by destruct Hd as (m & _ & _ & _ & _ & _ & ->). }
  destruct r.2; destruct Hend as [Hev _]; [|by exists ls].
  exists (ls ++ [LBurn]). split; [done|]. apply Forall_app. by repeat constructor.
Qed.

Lemma on_lease_performs c w n id receipt err (success : world L → Prop)
    (failure : error → world L → Prop) w' :
  wf (w_core w) → on_lease w n id receipt err success failure w' →
  (∀ w1, success w1 → performs c (clock w) w1 w') →
  (∀ e w1, failure e w1 → performs c (clock w) w1 w') →
  performs c (clock w) w w'.
Proof.
  intros Hwf Hon Hs Hf. destruct err as [e|]; simpl in Hon.
  - destruct Hon as [(_ & _ & ->)|(t & w1 & Hfs & Hrest)]; [by apply performs_refl|].
    apply (performs_trans _ _ _ w1); [by eapply performs_sweep|].
    destruct Hrest as [[_ ->]|[_ Hfail]]; [|by eapply Hf].
    destruct (first_sweep_inv _ _ _ _ Hfs) as (ls & Hev & _). apply performs_refl, Hev.
  - destruct Hon as (t & w1 & Hfs & _ & Hok).
    apply (performs_trans _ _ _ w1); [by eapply performs_sweep|by apply Hs].
Qed.

(** Snapshot only reads. *)
Lemma wp_Snapshot w : wf (w_core w) → wp Snapshot (λ _ w', w' = w) w.
Proof.
  intros Hwf. unfold Snapshot. apply wp_bind, wp_get_core.
  destruct (snapshot_queues_ok (w_core w) (merge_sort str_le (map_keys (k_queues (w_core w)))) Hwf)
    as [recs Hrecs].
  { intros n. by rewrite merge_sort_Permutation, elem_of_map_keys. }
  by eapply wp_opt.
Qed.

(** Every call on an engine that runs returns, and performs steps of the abstract
    machine. *)
Lemma wp_run_call c w :
  operates c = true → roomy w → wp (run_call c) (λ _ w', performs c (clock w) w w') w.
Proof.
  intros Hop Hro. pose proof Hro as [Hwf Hseq].
  assert (∀ {A} (f : GoM (world L) A) (P : A → world L → Prop),
    wp f P w → (∀ a w', P a w' → performs c (clock w) w w') →
    wp (f ≫= λ _, mret ()) (λ _ w', performs c (clock w) w w') w) as Hwrap.
  { intros A f P Hf HP. apply wp_bind. eapply wp_mono; [exact Hf|].
    intros a w' Ha. apply wp_ret. eauto. }
  assert (∀ w', evolves w [] w' → performs c (clock w) w w') as Hnone
    by (intros w' Hev; by exists []).
  destruct c; cbn [run_call].
  - eapply Hwrap; [by apply wp_CreateQueue|]. intros [b|e] w'; [|by intros [? _]; auto].
    intros (Hev & _). eapply performs_one; [done|]. right. eauto.
  - eapply Hwrap; [by apply wp_DeleteQueue|]. intros [e|] w'; [by intros [? _]; auto|].
    intros Hev. by eapply performs_one.
  - eapply Hwrap; [apply wp_Send; [done|lia]|]. intros [id|e] w'; [|by intros [? _]; auto].
    intros (Hev & _). by eapply performs_one.
  - eapply Hwrap; [by apply wp_Receive_nowait|]. intros r w'. simpl.
    destruct (_ && _); [|intros [-> _]; by apply performs_refl].
    intros [(_ & _ & ->)|(t & w1 & c & Hfs & _ & Hr)]; [by apply performs_refl|].
    apply (performs_trans _ _ _ w1); [by eapply performs_sweep|].
    destruct r as [ds|e]; [|destruct Hr as [ds Hr]]; by eapply leases_performs.
  - eapply Hwrap; [by apply wp_Ack|]. intros err w' Hon.
    eapply on_lease_performs; [done|exact Hon|..].
    + intros w1 Hev. by apply (performs_one _ _ _ _ _ Hev).
    + intros e w1 [Hev _]. by exists [].
  - eapply Hwrap; [by apply wp_Nack|]. intros err w' Hon.
    eapply on_lease_performs; [done|exact Hon|..].
    + intros w1 (m & c & _ & _ & Hr). destruct (exhausted _ _).
      * destruct Hr as (ls & Hev & Hds). by eapply performs_dead.
      * by eapply performs_one.
    + intros e w1 (m & c & _ & _ & Hr). destruct (exhausted _ _).
      * destruct Hr as (ls & Hev & Hds & _). by eapply performs_dead.
      * destruct Hr as [Hev _]. by exists [].
  - eapply Hwrap; [by apply wp_Extend|]. intros err w'. simpl.
    destruct (_ && _); [|intros [-> _]; by apply performs_refl].
    intros Hon. eapply on_lease_performs; [done|exact Hon|..].
    + intros w1 Hev. by apply (performs_one _ _ _ _ _ Hev).
    + intros e w1 [Hev _]. by exists [].
  - eapply Hwrap; [by apply wp_Redrive|]. intros r w'. simpl.
    intros [(_ & -> & _)|(_ & t & w1 & Hfs & ls2 & Hev2 & Hmv & _)]; [by apply performs_refl|].
    apply (performs_trans _ _ _ w1); [by eapply performs_sweep|]. exists ls2. split; [done|].
    eapply Forall_impl; [exact Hmv|]. by intros l (id & ts & ->).
  - eapply Hwrap; [apply (wp_Sweep at_ (2 ^ 63)); [done|done|by apply roomy_room]|].
    intros next w' (ls & Hev & Hok & _). exists ls. split; [done|].
    eapply Forall_impl; [exact Hok|]. intros l [n Hl]. destruct l; try done; [by left|].
    right. by destruct Hl as [_ ->].
  - eapply Hwrap; [by apply wp_QueueStats|]. intros [s|e] w'.
    + intros (t & Hfs & _). by eapply performs_sweep.
    + intros (_ & _ & ->). by apply performs_refl.
  - eapply Hwrap; [by apply wp_ListStats|]. intros r w' (ls & [Hev Hok] & _).
    by eapply performs_sweeping.
  - eapply Hwrap; [by apply wp_Snapshot|]. intros recs w' ->. by apply performs_refl.
  - done.
Qed.

(** Bounds on what the calls of a run are given: the configurations of its queues
    and the times of its sweeps; and what follows for the steps of the run. *)
Definition call_within (P : Config → Prop) (Q : Z → Prop) (c : call) : Prop :=
  match c with CCreateQueue _ cfg => P cfg | CSweep at_ => Q at_ | _ => True end.

Definition step_within (P : Config → Prop) (Q : Z → Prop) (l : label) : Prop :=
  match l with LCreate _ cfg _ => P cfg | LSettle _ _ at_ => Q at_ | _ => True end.

Lemma runs_within (P : Config → Prop) (Q : Z → Prop) w cs w' :
  P DefaultConfig → wf (w_core w) → runs w cs w' → Forall (call_within P Q) cs →
  (∀ k, (k ≤ w_tick w')%nat → Q (env_now (w_env w) k)) →
  ∃ ls, evolves w ls w' ∧ Forall (step_within P Q) ls.
Proof.
  intros HP Hwf Hr. induction Hr as [w|w c w1 cs w2 Hop Hs Hrun Hr IH]; intros Hcs HQ.
  - exists []. by split; [apply evolves_refl|].
  - apply Forall_cons in Hcs as [Hc Hcs]. assert (roomy w) as Hro by (by split).
    destruct (wp_use _ _ _ _ _ (wp_run_call c w Hop Hro) Hrun) as (ls1 & Hev1 & Hmade).
    destruct (IH (ev_wf _ _ _ Hev1)) as (ls2 & Hev2 & Hok2);
      [done|by rewrite (ev_env _ _ _ Hev1)|].
    exists (ls1 ++ ls2). split; [by eapply evolves_trans|]. apply Forall_app. split; [|done].
    eapply Forall_impl; [exact Hmade|]. intros []; try done; simpl.
    + by intros [->|[n ->]].
    + intros [->| ->]; [|done]. apply HQ. etrans; [apply Hev1|apply Hev2].
Qed.

(** Every step of a run is performed by one of its calls: the call [c], which is made
    on a world that the run has reached before. *)
Lemma runs_steps w cs w' :
  wf (w_core w) → runs w cs w' →
  ∃ ls, evolves w ls w' ∧
    ∀ ls1 l ls2, ls = ls1 ++ l :: ls2 →
      ∃ cs1 c cs2 w1 la lb, cs = cs1 ++ c :: cs2 ∧ runs w cs1 w1 ∧
        ls1 = la ++ lb ∧ evolves w la w1 ∧ made_by c (clock w1) l.
Proof.
  intros Hwf Hr. induction Hr as [w|w c w1 cs w2 Hop Hs Hrun Hr IH].
  - exists []. split; [by apply evolves_refl|]. intros ls1 l ls2 Heq. by destruct ls1.
  - destruct (wp_use _ _ _ _ _ (wp_run_call c w Hop ltac:(by split)) Hrun) as (la & Hev1 & Hmade).
    destruct (IH (ev_wf _ _ _ Hev1)) as (lb & Hev2 & Hsteps). exists (la ++ lb).
    split; [by eapply evolves_trans|]. intros ls1 l ls2 Heq.
    assert ((∃ k, la = ls1 ++ l :: k) ∨ ∃ k, ls1 = la ++ k ∧ lb = k ++ l :: ls2) as [[k ->]|(k & -> & ->)].
    { apply app_eq_inv in Heq as [(k & -> & Hk)|(k & -> & ->)]; [|right; by exists k].
      destruct k as [|l' k]; simplify_eq/=; [right; exists []; by rewrite !app_nil_r|left; by exists k]. }
    + exists [], c, cs, w, [], ls1. split_and!; [done|constructor|done|by apply evolves_refl|].
      rewrite Forall_app, Forall_cons in Hmade. apply Hmade.
    + destruct (Hsteps _ _ _ eq_refl) as (cs1 & c' & cs2 & w3 & la' & lb' & -> & Hr1 & -> & He & Hm).
      exists (c :: cs1), c', cs2, w3, (la ++ la'), lb'.
      split_and!; [done|by econstructor|by rewrite app_assoc|by eapply evolves_trans|done].
Qed.

(** The invariant of a run: the state is that of a history of the abstract
    machine, and the log holds its records. *)
Lemma runs_history w cs w' :
  wf (w_core w) → runs w cs w' → ∃ ls, evolves w ls w'.
Proof.
  intros Hwf Hr. destruct (runs_within (λ _, True) (λ _, True) w cs w') as (ls & Hev & _);
    [done..| |done|eauto].
  apply Forall_forall. intros [] _; done.
Qed.

(** The worlds of a program that starts with an empty engine. *)
Definition reachable (log : option L) (env : Env) (w : world L) : Prop :=
  ∃ cs, runs (New log env) cs w.

Lemma reachable_history log env w :
  reachable log env w → ∃ ls, evolves (New log env) ls w.
Proof. intros (cs & Hr). eapply runs_history; [apply wf_empty|done]. Qed.

Lemma reachable_wf log env w : reachable log env w → wf (w_core w).
Proof. intros (ls & Hev)%reachable_history. apply Hev. Qed.

Lemma runs_app w1 cs1 w2 cs2 w3 : runs w1 cs1 w2 → runs w2 cs2 w3 → runs w1 (cs1 ++ cs2) w3.
Proof. induction 1; simpl; [done|]. intros. eapply runs_cons; eauto. Qed.
End runs.

(** ** Running the model *)

(** The world after a computation. *)
Definition exec {S A} (c : GoM S A) (s : S) : S :=
  match c s with Some (_, s') => s' | None => s end.

(** The value of a computation. *)
Definition value_of {S A} (c : GoM S A) (s : S) : option A :=
  match c s with Some (a, _) => Some a | None => None end.

Lemma value_exec {S A} (c : GoM S A) (s : S) a : value_of c s = Some a → c s = Some (a, exec c s).
Proof. unfold value_of, exec. destruct (c s) as [[a' s']|]; [by intros [= ->]|done]. Qed.

Lemma wp_exec {S A} (c : GoM S A) (P : S → Prop) s : wp c (λ _ s', P s') s → P (exec c s).
Proof. unfold wp, exec. by destruct (c s) as [[a s']|]. Qed.

(** Calls made one after the other. *)
Fixpoint run_all {L} `{Appender L} `{ConfigJSON} (cs : list call) (w : world L) : option (world L) :=
  match cs with
  | [] => Some w
  | c :: cs =>
    if operates c && (k_seq (w_core w) <? 2 ^ 62) then
      match run_call c w with Some (_, w1) => run_all cs w1 | None => None end
    else None
  end.

Lemma run_all_runs {L} `{Appender L} `{ConfigJSON} cs (w w' : world L) :
  run_all cs w = Some w' → runs w cs w'.
Proof.
  revert w. induction cs as [|c cs IH]; intros w; simpl; [by intros [= ->]; constructor|].
  destruct (operates c) eqn:Hop; [|done]. simpl.
  destruct (Z.ltb_spec (k_seq (w_core w)) (2 ^ 62)); [|done].
  destruct (run_call c w) as [[[] w1]|] eqn:Hc; [|done]. intros Hr.
  eapply runs_cons; eauto.
Qed.

(** A sequence of calls that goes through leads to where it is run to. *)
Definition ran {L} `{Appender L} `{ConfigJSON} (cs : list call) (w : world L) : bool :=
  from_option (λ w', k_seq (w_core w') <? 2 ^ 62) false (run_all cs w).

Lemma ran_runs {L} `{Appender L} `{ConfigJSON} cs (w : world L) :
  ran cs w = true → runs w cs (from_option id w (run_all cs w)).
Proof.
  intros Hr. apply run_all_runs. unfold ran in Hr. by destruct (run_all cs w).
Qed.
