(* ===== verification/Instances.v ===== *)
(** Concrete instances of the parameters of the model: a log in memory whose
    appends fail as a script says, which shows that the contract [LogLaws] can be
    met, and a machine.  They make the model run; the JSON text of configurations
    is the one of [ConfigWire]. *)

From S2P Require Import Prelude Ids WalRecord Json JsonValue JsonLine JsonStruct.
From S2P Require Import Float64 Config ConfigWire Message Engine Spec Refine.
From Stdlib Require String.

Local Open Scope Z_scope.

(** ** A log in memory *)

(** The records so far, and which of the next appends fail. *)
Record MemLog := mkMemLog { ml_records : list WRecord; ml_failures : list bool }.

Definition disk_full : error := Errorf "write: no space left on device" [].

#[export] Instance MemLog_Appender : Appender MemLog := λ r l,
  match ml_failures l with
  | true :: fs => (Some disk_full, mkMemLog (ml_records l) fs)
  | _ => (None, mkMemLog (ml_records l ++ [r]) (tail (ml_failures l)))
  end.

#[export, refine] Instance MemLog_Laws : LogLaws MemLog := { committed := ml_records }.
Proof.
  - intros r l l'. unfold Append, MemLog_Appender.
    destruct (ml_failures l) as [|[] fs]; by intros [= <-].
  - intros r l l' e. unfold Append, MemLog_Appender.
    destruct (ml_failures l) as [|[] fs]; by intros [= <- <-].
Defined.

(** ** A machine: amd64 answers a conversion that is out of range with the least
    integer. *)

#[export, refine] Instance amd64 : Machine := { out_of_range _ := - 2 ^ 63 }.
Proof. done. Defined.

(** ** Texts that a JSON string holds as they are *)

Lemma hexdigit_plain : ∀ d, 0 ≤ d < 16 → plain_char (hexdigit d) = true.
Proof.
  intros d Hd. assert (Forall (λ d, plain_char (hexdigit d) = true) (seqZ 0 16)) as Hall
    by (by repeat constructor).
  rewrite Forall_forall in Hall. apply Hall, elem_of_seqZ. lia.
Qed.

Lemma fmt_plain n : Forall plain_char (String.list_ascii_of_string (fmt_hex16 n)).
Proof.
  unfold fmt_hex16. generalize 16%nat as k. induction k as [|k IH]; [constructor|].
  cbn. constructor; [|exact IH]. apply Is_true_true_2, hexdigit_plain, Z.mod_pos_bound. lia.
Qed.
