(* ===== verification/Demo.v ===== *)
(** A small running system: an engine with a log in memory, two queues and three
    messages, one of which is leased.  The theorems are instantiated on it. *)

From S2P Require Import Prelude Ids WalRecord Config Message Engine Spec Invariant Refine.
From S2P Require Import RefineTime RefineOps Runs ConfigWire Instances.

Local Open Scope Z_scope.

(** One second passes between two readings of the clock. *)
Definition demo_env : Env :=
  mkEnv (λ n, (1700000000 + Z.of_nat n) * second) (λ _, []).

Definition demo_start (failures : list bool) : world MemLog :=
  New (Some (mkMemLog [] failures)) demo_env.

Definition jobs_cfg : Config := mkConfig (30 * second) 2 "failed".

Definition text (s : string) : bytes := String.list_ascii_of_string s.

(** "jobs" holds message 1, leased under receipt r...4, message 2, ready, and
    message 3, delayed by a minute. *)
Definition demo_calls : list call :=
  [CCreateQueue "jobs" jobs_cfg; CCreateQueue "other" DefaultConfig;
   CSend "jobs" (text "hello") 0; CSend "jobs" (text "world") 0;
   CSend "jobs" (text "later") (60 * second); CReceive "jobs" 1 0].

Definition demo : world MemLog :=
  from_option id (demo_start []) (run_all demo_calls (demo_start [])).

Definition id1 : string := "0000000000000001".
Definition id2 : string := "0000000000000002".
Definition receipt4 : string := "r0000000000000004".

Lemma ran_roomy cs :
  ran cs (demo_start []) = true →
  roomy (from_option id (demo_start []) (run_all cs (demo_start []))).
Proof.
  intros Hr. pose proof (ran_runs _ _ Hr) as Hruns. split.
  - apply (reachable_wf (Some (mkMemLog [] [])) demo_env). by exists cs.
  - unfold ran in Hr. destruct (run_all cs (demo_start [])); [|done]. by apply Z.ltb_lt.
Qed.

Lemma demo_runs : runs (demo_start []) demo_calls demo.
Proof. apply ran_runs. vm_compute. reflexivity. Qed.

Lemma demo_roomy : roomy demo.
Proof. apply (ran_roomy demo_calls). vm_compute. reflexivity. Qed.

(** Before message 1 is received, messages 1 and 2 are ready. *)
Definition two_ready : world MemLog :=
  from_option id (demo_start []) (run_all (take 4 demo_calls) (demo_start [])).

Lemma two_ready_roomy : roomy two_ready.
Proof. apply (ran_roomy (take 4 demo_calls)). vm_compute. reflexivity. Qed.

(** Message 1 is leased, messages 2 and 3 are ready and delayed. *)
Example demo_messages :
  (a_Status <$> a_lookup (abs (w_core demo)) "jobs" id1) =
    Some (ALeased receipt4 (1700000035 * second)) ∧
  (a_Status <$> a_lookup (abs (w_core demo)) "jobs" id2) = Some AReady ∧
  (a_Status <$> a_lookup (abs (w_core demo)) "jobs" "0000000000000003") = Some ADelayed.
Proof. repeat split; vm_compute; reflexivity. Qed.

(** The same system on a log whose next append fails. *)
Definition with_failures (fs : list bool) (w : world MemLog) : world MemLog :=
  mkWorld (w_env w) (w_tick w) (w_rng w) ((λ l, mkMemLog (ml_records l) fs) <$> w_log w)
    (w_core w).

Lemma with_failures_roomy fs w : roomy w → roomy (with_failures fs w).
Proof. intros [Hwf Hs]. by split. Qed.
