(* ===== verification/Recovery.v ===== *)
(** Crash recovery: engines that are started on the records of the engines before
    them, any number of times, with compactions of the log in between, and what the
    next start makes of their log. *)

From S2P Require Import Prelude GoHeap Ids WalRecord Config Message Engine Spec Invariant.
From S2P Require Import Refine RefineTime RefineOps Trace Replay RefineLoad RefineSnap Runs.
From S2P Require Import ConfigWire Instances Demo.
From stdpp Require Import fin_maps.

Local Open Scope Z_scope.

Section recovery.
Context {L : Type} `{!Appender L} `{!LogLaws L} `{!ConfigJSON} `{!ConfigJSONLaws}.
Implicit Types w : world L.

(** Configurations as ParseConfig returns them: in range, with an [int] limit. *)
Definition parsed (c : Config) : Prop := valid_config c ∧ c_MaxReceives c < 2 ^ 63.

Definition well_called (cs : list call) : Prop := Forall (call_within parsed (λ _, True)) cs.

(** [life c w0 cs w]: an engine was started, possibly on the log of engines before
    it; [w0] is its state after Load, [cs] are the calls since, [w] is its state
    now.  If [c] is true, the log may have been compacted between two engines, as
    the command "compact" does: it loads the log, and writes a snapshot in its
    place. *)
Inductive life (c : bool) : world L → list call → world L → Prop :=
  | life_first log env cs w :
      committed log = [] → runs (New (Some log) env) cs w → well_called cs →
      life c (New (Some log) env) cs w
  | life_restart w0 cs w l l' env w1 cs' w' :
      life c w0 cs w → w_log w = Some l → committed l' = committed l →
      Load (committed l) (New (Some l') env) = Some (None, w1) →
      runs w1 cs' w' → well_called cs' →
      life c w1 cs' w'
  | life_compact w0 cs w l l1 env1 w1 snap l' env w2 cs' w' :
      c = true → life c w0 cs w → w_log w = Some l → committed l1 = committed l →
      Load (committed l) (New (Some l1) env1) = Some (None, w1) →
      Snapshot w1 = Some (snap, w1) → committed l' = snap →
      Load snap (New (Some l') env) = Some (None, w2) →
      runs w2 cs' w' → well_called cs' →
      life c w2 cs' w'.

Lemma life_extend c w0 cs w cs' w' :
  life c w0 cs w → runs w cs' w' → well_called cs' → life c w0 (cs ++ cs') w'.
Proof.
  intros Hlife Hr Hcs. induction Hlife.
  - apply life_first; [done|by eapply runs_app|by apply Forall_app].
  - eapply life_restart; [done..| |by apply Forall_app]. by eapply runs_app.
  - eapply life_compact; [done..| |by apply Forall_app]. by eapply runs_app.
Qed.

(** The times that the engine has seen since it was started. *)
Definition has_seen w (cs : list call) (t : Z) : Prop :=
  (∃ k, (k ≤ w_tick w)%nat ∧ t = env_now (w_env w) k) ∨ CSweep t ∈ cs.

Definition seen_by (T : Z) w (cs : list call) : Prop := ∀ t, has_seen w cs t → t ≤ T.

(** The IDs and the receipts in the log. *)
Definition ids_ok : list WRecord → astate → Prop := names_ok fmt_hex16 record_id.
Definition receipts_ok : list WRecord → astate → Prop := names_ok receipt_of record_receipt.

Lemma ids_ok_replay recs R ls B :
  awf R → ids_ok recs R → asteps R ls B → ids_ok (recs ++ records ls) (replay_labels ls R).
Proof.
  apply names_ok_replay with (pick := sent_id);
    eauto using fmt_hex16_inj, sent_id_fresh, records_sent_id, replayed_sent_id.
Qed.

Lemma receipts_ok_replay recs R ls B :
  awf R → receipts_ok recs R → asteps R ls B →
  receipts_ok (recs ++ records ls) (replay_labels ls R).
Proof.
  apply names_ok_replay with (pick := issued_receipt);
    eauto using receipt_of_inj, receipt_fresh, records_receipt, replayed_receipt.
Qed.

(** Every queue has a configuration that ParseConfig accepts. *)
Definition cfgs_parsed (A : astate) : Prop := ∀ n c, a_cfg A n = Some c → parsed c.

Lemma step_parsed A l B (Q : Z → Prop) :
  astep A l B → step_within parsed Q l → cfgs_parsed A → cfgs_parsed B.
Proof.
  intros Hst Hl HA n c Hc.
  destruct Hst; revert Hc; rewrite ?a_cfg_put, ?a_cfg_set_seq, ?a_cfg_del; try by apply HA.
  - rewrite a_cfg_create. case_decide; [by intros [= <-]|apply HA].
  - rewrite a_cfg_delete. case_decide; [done|apply HA].
Qed.

Lemma steps_parsed A ls B (Q : Z → Prop) :
  asteps A ls B → Forall (step_within parsed Q) ls → cfgs_parsed A → cfgs_parsed B.
Proof.
  induction 1 as [|A l B ls C Hst _ IH]; [done|]. intros [Hl Hls]%Forall_cons HA.
  apply IH; [done|]. by eapply step_parsed.
Qed.

(** The engine as it was when it was started: what its log held then, [recs], is
    loaded into its state. *)
Record started (c : bool) w0 (recs : list WRecord) : Prop := {
  st_wf : wf (w_core w0);
  st_log : ∃ l, w_log w0 = Some l ∧ committed l = recs;
  st_rebuilds : rebuilds (L:=L) recs (abs (w_core w0));
  st_parsed : cfgs_parsed (abs (w_core w0));
  st_ids : c = false → ids_ok recs (abs (w_core w0));
  st_receipts : c = false → receipts_ok recs (abs (w_core w0));
}.

(** The history since the start, and what the log holds. *)
Record alive (c : bool) w0 (cs : list call) w (recs : list WRecord) (ls : list label) : Prop := {
  al_started : started c w0 recs;
  al_wf : wf (w_core w);
  al_log l : w_log w = Some l → committed l = recs ++ records ls;
  al_steps : asteps (abs (w_core w0)) ls (abs (w_core w));
  al_within : Forall (step_within parsed (has_seen w cs)) ls;
}.

Lemma started_alive c w0 cs w recs :
  started c w0 recs → runs w0 cs w → well_called cs → ∃ ls, alive c w0 cs w recs ls.
Proof.
  intros Hst Hr Hcs. pose proof Hst as [Hwf (l0 & Hl0 & Hrecs) _ _ _ _].
  destruct (runs_within parsed (has_seen w cs) w0 cs w) as (ls & Hev & Hwi); [|done..| | |].
  - split; [apply DefaultConfig_valid|done].
  - apply Forall_forall. intros x Hx. pose proof (proj1 (Forall_forall _ _) Hcs _ Hx) as Hw.
    destruct x; try done. by right.
  - intros k Hk. left. exists k. split; [done|].
    destruct (runs_history _ _ _ Hwf Hr) as (ls & Hev). by rewrite (ev_env _ _ _ Hev).
  - exists ls. split; [done|apply Hev| |apply Hev|done].
    intros l Hl. pose proof (ev_log _ _ _ Hev) as Hlog. rewrite Hl0, Hl in Hlog. apply logged_committed in Hlog.
    congruence.
Qed.

Lemma within_readable ls (Q : Z → Prop) : Forall (step_within parsed Q) ls → Forall readable ls.
Proof.
  intros Hls. eapply Forall_impl; [exact Hls|]. intros [] Hx; try done. destruct Hx.
  by apply ParseConfig_Marshal.
Qed.

Lemma within_settled ls w cs T :
  Forall (step_within parsed (has_seen w cs)) ls → seen_by T w cs → Forall (settled_by T) ls.
Proof.
  intros Hls HT. eapply Forall_impl; [exact Hls|]. intros [] Hx; try done. by apply HT.
Qed.

(** What the log of the engine is loaded into. *)
Definition reloaded_as (c : bool) w cs (recs : list WRecord) (R : astate) : Prop :=
  rebuilds (L:=L) recs R ∧ cfgs_parsed R ∧ (c = false → ids_ok recs R ∧ receipts_ok recs R) ∧
  ∀ T, 0 ≤ T → seen_by T w cs → sim T (abs (w_core w)) R.

Lemma alive_reloaded c w0 cs w recs ls :
  alive c w0 cs w recs ls →
  reloaded_as c w cs (recs ++ records ls) (replay_labels ls (abs (w_core w0))).
Proof.
  intros [[Hwf _ Hre Hpar Hids Hrcs] _ _ Hst Hwi]. pose proof (wf_abs _ Hwf) as HA.
  assert (∀ T, 0 ≤ T → seen_by T w cs →
            sim T (abs (w_core w)) (replay_labels ls (abs (w_core w0)))) as Hsim.
  { intros T HT Hseen. eapply sim_history; [exact HA|by apply sim_refl|done| |done].
    by eapply within_settled. }
  split; [by eapply rebuilds_app; [..|by eapply within_readable]|]. split; [|split; [|done]].
  - destruct (settled_bound ls) as (T & HT & Hset).
    assert (sim T (abs (w_core w)) (replay_labels ls (abs (w_core w0)))) as Hs
      by (eapply sim_history; [exact HA|by apply sim_refl|done..]).
    intros n c0. rewrite (si_cfg _ _ _ Hs). by eapply steps_parsed.
  - intros Hc. split; [eapply ids_ok_replay|eapply receipts_ok_replay]; eauto.
Qed.

(** An engine that loads [recs] is started. *)
Lemma rebuilds_started c recs R l env w1 :
  rebuilds (L:=L) recs R → cfgs_parsed R → (c = false → ids_ok recs R ∧ receipts_ok recs R) →
  committed l = recs → Load recs (New (Some l) env) = Some (None, w1) →
  started c w1 recs ∧ abs (w_core w1) = R.
Proof.
  intros Hre Hpar Hnames Hl Hload.
  destruct (wp_use _ _ _ _ _ (Hre (Some l) env) Hload) as (_ & k & -> & Hk & HR).
  split; [|done]. simpl. rewrite <-HR in *. split; try done; [by exists l|..].
  - intros Hc. by apply Hnames.
  - intros Hc. by apply Hnames.
Qed.

Lemma Snapshot_pure w recs w' : Snapshot w = Some (recs, w') → w' = w.
Proof.
  unfold Snapshot, get_core, go_opt, mbind, GoM_bind. intros Hs.
  destruct (snapshot_queues _ _); [by injection Hs|done].
Qed.

(** Snapshots are loaded. *)
Lemma Snapshot_reloaded w1 snap :
  wf (w_core w1) → cfgs_parsed (abs (w_core w1)) → Snapshot w1 = Some (snap, w1) →
  ∃ R, rebuilds (L:=L) snap R ∧ cfgs_parsed R ∧ restores (abs (w_core w1)) R.
Proof.
  intros Hwf Hpar Hsnap.
  destruct (Snapshot_rebuilds w1 Hwf) as (recs & R & Hrecs & Hre & Hrs).
  { intros n c [? ?]%Hpar. by apply ParseConfig_Marshal. }
  rewrite Hrecs in Hsnap. injection Hsnap as ->. exists R. split; [done|]. split; [|done].
  intros n c. rewrite (rs_cfg _ _ Hrs). apply Hpar.
Qed.

Lemma first_started c log env : committed log = [] → started c (New (Some log) env) [].
Proof.
  intros Hlog. assert (abs (w_core (New (Some log) env)) = a_empty) as Ha
    by (unfold New, abs; simpl; by rewrite fmap_empty).
  split; rewrite ?Ha; [apply wf_empty|by exists log|apply rebuilds_nil|..].
  - by intros n x.
  - intros _. split; [constructor|]. by intros x Hx%not_elem_of_nil.
  - intros _. split; [constructor|]. by intros x Hx%not_elem_of_nil.
Qed.

Lemma life_alive c w0 cs w : life c w0 cs w → ∃ recs ls, alive c w0 cs w recs ls.
Proof.
  induction 1 as [log env cs w Hc Hr Hcs|w0 cs w l l' env w1 cs' w' _ IH Hl Hc Hload Hr Hcs
    |w0 cs w l l1 env1 w1 snap l' env w2 cs' w' -> _ IH Hl Hc1 Hload1 Hsnap Hc Hload Hr Hcs].
  - exists []. eapply started_alive; [by apply first_started|done..].
  - destruct IH as (recs & ls & Hal). pose proof (al_log _ _ _ _ _ _ Hal _ Hl) as Hrecs.
    destruct (alive_reloaded _ _ _ _ _ _ Hal) as (Hre & Hpar & Hnames & _).
    rewrite Hrecs in *. exists (recs ++ records ls). eapply started_alive; [|done..].
    exact (proj1 (rebuilds_started _ _ _ _ _ _ Hre Hpar Hnames Hc Hload)).
  - destruct IH as (recs & ls & Hal). pose proof (al_log _ _ _ _ _ _ Hal _ Hl) as Hrecs.
    destruct (alive_reloaded _ _ _ _ _ _ Hal) as (Hre & Hpar & Hnames & _).
    rewrite Hrecs in *.
    destruct (rebuilds_started _ _ _ _ _ _ Hre Hpar Hnames Hc1 Hload1) as [[Hwf1 _ _ Hpar1 _ _] _].
    destruct (Snapshot_reloaded _ _ Hwf1 Hpar1 Hsnap) as (R & Hre2 & Hpar2 & _).
    exists snap. eapply started_alive; [|done..].
    assert (true = false → ids_ok snap R ∧ receipts_ok snap R) as Hno by done.
    exact (proj1 (rebuilds_started _ _ _ _ _ _ Hre2 Hpar2 Hno Hc Hload)).
Qed.

Lemma life_wf c w0 cs w : life c w0 cs w → wf (w_core w).
Proof. intros (recs & ls & Hal)%life_alive. apply Hal. Qed.

(** Snapshot of an engine returns, and it can be loaded. *)
Lemma life_snapshot c w0 cs w :
  life c w0 cs w →
  ∃ snap R, Snapshot w = Some (snap, w) ∧ rebuilds (L:=L) snap R ∧ restores (abs (w_core w)) R.
Proof.
  intros (recs & ls & Hal)%life_alive. pose proof Hal as [Hst Hwf _ Hsteps Hwi].
  assert (cfgs_parsed (abs (w_core w))) as Hpar
    by (eapply steps_parsed; [exact Hsteps|exact Hwi|apply Hst]).
  apply (Snapshot_rebuilds w Hwf). intros n x [? ?]%Hpar. by apply ParseConfig_Marshal.
Qed.

Lemma life_reloaded c w0 cs w l :
  life c w0 cs w → w_log w = Some l → ∃ R, reloaded_as c w cs (committed l) R.
Proof.
  intros (recs & ls & Hal)%life_alive Hl. rewrite (al_log _ _ _ _ _ _ Hal _ Hl).
  eexists. by eapply alive_reloaded.
Qed.

(** C2: recovery.  An engine, started any number of times on the log that its
    predecessors left, is stopped at any moment.  Load of its log succeeds, and
    rebuilds its queues with their configurations and every message with its ID,
    body, receive count, place in the order of its queue, and receipt if it is
    leased; no other message appears.  Times are as they were or cut to whole
    milliseconds.  A message that was ready is ready, or it waits with a due time
    that has passed (it is not after any time [T] that bounds the times the engine
    has seen), so that the next sweep settles it. *)
Theorem recovery c w0 cs w l log' env' :
  life c w0 cs w → w_log w = Some l →
  ∃ w', Load (committed l) (New log' env') = Some (None, w') ∧ wf (w_core w') ∧
    ∀ T, 0 ≤ T → seen_by T w cs → sim T (abs (w_core w)) (abs (w_core w')).
Proof.
  intros Hlife Hl. destruct (life_reloaded _ _ _ _ _ Hlife Hl) as (R & Hre & _ & _ & Hsim).
  destruct (wp_elim _ _ _ (Hre log' env')) as (err & w' & Hload & -> & k & -> & Hk & Ha).
  eexists. split; [exact Hload|]. split; [done|]. intros T HT Hseen. simpl. rewrite Ha. auto.
Qed.

(** C11: IDs and receipts are unique across restarts.  In a log that was never
    compacted, whatever number of engines wrote it one after the other, no two
    messages were sent under the same ID, and no two leases were given the same
    receipt. *)
Theorem names_unique_across_restarts w0 cs w l :
  life false w0 cs w → w_log w = Some l →
  NoDup (omap record_id (committed l)) ∧ NoDup (omap record_receipt (committed l)).
Proof.
  intros Hlife Hl. destruct (life_reloaded _ _ _ _ _ Hlife Hl) as (R & _ & _ & Hnames & _).
  destruct Hnames as [[Hi _] [Hr _]]; done.
Qed.

(** C12: compaction.  Snapshot of an engine that was started like this returns and
    changes nothing, and loading the snapshot into a new engine succeeds.  The new
    engine has the same queues with the same configurations, and exactly the same
    messages: each with its ID, body and receive count; with its receipt and
    deadline if it was leased, waiting for its not-before time otherwise; at the
    position of its ID.  Times are cut to whole milliseconds.  The ID counter is
    the largest number in the IDs and receipts of these messages, or zero. *)
Theorem snapshot_restores c w0 cs w log' env' :
  life c w0 cs w →
  ∃ snap w', Snapshot w = Some (snap, w) ∧ Load snap (New log' env') = Some (None, w') ∧
    wf (w_core w') ∧ restores (abs (w_core w)) (abs (w_core w')).
Proof.
  intros (snap & R & Hsnap & Hre & Hrs)%life_snapshot.
  destruct (wp_elim _ _ _ (Hre log' env')) as (err & w' & Hload & -> & k & -> & Hk & Ha).
  exists snap. eexists. split; [done|]. split; [exact Hload|]. split; [done|]. simpl. by rewrite Ha.
Qed.

(** Load stops at the first record that cannot be applied, with an error that
    wraps the error of apply and names the record by its number. *)
Theorem Load_stops w recs1 w1 r e w2 recs2 :
  Load recs1 w = Some (None, w1) → Engine.apply r w1 = Some (Some e, w2) →
  ∃ err, Load (recs1 ++ r :: recs2) w = Some (Some err, w2) ∧
    err = Wrapf "replay record %d (%s %s/%s): %w"
            [AInt (Z.of_nat (length recs1) + 1); AStr (r_Op r); AStr (r_Queue r); AStr (r_ID r)] e.
Proof.
  intros Hl Ha.
  assert (wp (Load (recs1 ++ r :: recs2)) (λ err w', w' = w2 ∧ err = Some
    (Wrapf "replay record %d (%s %s/%s): %w"
      [AInt (Z.of_nat (length recs1) + 1); AStr (r_Op r); AStr (r_Queue r); AStr (r_ID r)] e)) w) as Hwp.
  { apply wp_load_app. eapply wp_of_eq; [exact Hl|]. cbn [load_from]. apply wp_bind.
    eapply wp_of_eq; [exact Ha|]. by apply wp_ret. }
  destruct (wp_elim _ _ _ Hwp) as (err & w' & Hrun & -> & ->). eauto.
Qed.
End recovery.

(** ** A restart of the demo *)

Lemma jobs_cfg_parsed : parsed jobs_cfg.
Proof. split; [|vm_compute; reflexivity]. split; [done|done|right; vm_compute; reflexivity]. Qed.

Lemma demo_well_called : well_called demo_calls.
Proof.
  apply Forall_cons. split; [exact jobs_cfg_parsed|].
  apply Forall_cons. split; [split; [apply DefaultConfig_valid|done]|]. by repeat constructor.
Qed.

Definition demo_log : MemLog := from_option id (mkMemLog [] []) (w_log demo).

Lemma demo_log_eq : w_log demo = Some demo_log.
Proof. vm_compute. reflexivity. Qed.

(** The demo is stopped, and an engine is started on its log; the holder of
    message 1 acknowledges it there. *)
Definition restart : world MemLog := New (Some demo_log) demo_env.
Definition restarted : world MemLog := exec (Load (committed demo_log)) restart.
Definition restart_calls : list call := [CAck "jobs" id1 receipt4; CReceive "jobs" 1 0].
Definition resumed : world MemLog := from_option id restarted (run_all restart_calls restarted).

Lemma demo_life c : life c (demo_start []) demo_calls demo.
Proof. apply (life_first _ (mkMemLog [] [])); [done|exact demo_runs|exact demo_well_called]. Qed.

Lemma restarted_eq : Load (committed demo_log) restart = Some (None, restarted).
Proof. unfold restarted. apply value_exec. vm_compute. reflexivity. Qed.

Lemma restart_runs : runs restarted restart_calls resumed.
Proof. unfold resumed. apply ran_runs. vm_compute. reflexivity. Qed.

Lemma resumed_life c : life c restarted restart_calls resumed.
Proof.
  eapply (life_restart c (demo_start []) demo_calls demo demo_log demo_log demo_env);
    [exact (demo_life c)|exact demo_log_eq|reflexivity|exact restarted_eq|exact restart_runs|].
  by repeat constructor.
Qed.

Definition resumed_log : MemLog := from_option id demo_log (w_log resumed).

Lemma resumed_log_eq : w_log resumed = Some resumed_log.
Proof. vm_compute. reflexivity. Qed.

(** The log is compacted: an engine loads it, and a snapshot takes its place. *)
Definition compactor (l : MemLog) : world MemLog := exec (Load (committed l)) (New (Some l) demo_env).
Definition compacted (l : MemLog) : list WRecord := from_option id [] (value_of Snapshot (compactor l)).
Definition fresh_start (l : MemLog) : world MemLog :=
  exec (Load (compacted l)) (New (Some (mkMemLog (compacted l) [])) demo_env).

Lemma compacted_life w0 cs w (l : MemLog) cs' w' :
  life true w0 cs w → w_log w = Some l →
  value_of (Load (committed l)) (New (Some l) demo_env) = Some None →
  value_of Snapshot (compactor l) = Some (compacted l) →
  value_of (Load (compacted l)) (New (Some (mkMemLog (compacted l) [])) demo_env) = Some None →
  runs (fresh_start l) cs' w' → well_called cs' →
  life true (fresh_start l) cs' w'.
Proof.
  intros Hlife Hl Hload Hsnap Hload' Hr Hcs.
  apply (life_compact true w0 cs w l l demo_env (compactor l) (compacted l)
           (mkMemLog (compacted l) []) demo_env _ _ _ eq_refl Hlife Hl eq_refl
           (value_exec _ _ _ Hload)); [|done|exact (value_exec _ _ _ Hload')|done|done].
  pose proof (value_exec _ _ _ Hsnap) as Hs. rewrite Hs. by rewrite (Snapshot_pure _ _ _ Hs).
Qed.

Definition final_calls : list call := [CSend "jobs" (text "again") 0].
Definition final : world MemLog :=
  from_option id (fresh_start resumed_log) (run_all final_calls (fresh_start resumed_log)).

Lemma final_life : life true (fresh_start resumed_log) final_calls final.
Proof.
  apply (compacted_life restarted restart_calls resumed);
    [exact (resumed_life true)|exact resumed_log_eq|vm_compute; reflexivity..| |].
  - unfold final. apply ran_runs. vm_compute. reflexivity.
  - by repeat constructor.
Qed.

Definition final_log : MemLog := from_option id resumed_log (w_log final).

Lemma final_log_eq : w_log final = Some final_log.
Proof. vm_compute. reflexivity. Qed.

(** Message 1 was acknowledged after the restart; message 2 is leased, under a
    receipt given out before the compaction; the log is as short as its state. *)
Lemma recovery_witness :
  a_lookup (abs (w_core final)) "jobs" id1 = None ∧
  (a_Status <$> a_lookup (abs (w_core final)) "jobs" id2) =
    Some (ALeased "r0000000000000005" (1700000032 * second)) ∧
  (r_Op <$> committed final_log) =
    ["qcreate"; "send"; "recv"; "send"; "qcreate"; "send"] ∧
  ∃ w', Load (committed final_log) restart = Some (None, w') ∧ wf (w_core w') ∧
    ∀ T, 0 ≤ T → seen_by T final final_calls → sim T (abs (w_core final)) (abs (w_core w')).
Proof.
  split; [vm_compute; reflexivity|]. split; [vm_compute; reflexivity|].
  split; [vm_compute; reflexivity|].
  exact (recovery _ _ _ _ _ (Some demo_log) demo_env final_life final_log_eq).
Defined.

Lemma names_unique_across_restarts_witness :
  NoDup (omap record_id (committed resumed_log)) ∧
  NoDup (omap record_receipt (committed resumed_log)).
Proof.
  exact (names_unique_across_restarts _ _ _ _ (resumed_life false) resumed_log_eq).
Defined.

Lemma snapshot_restores_witness :
  ∃ snap w', Snapshot resumed = Some (snap, resumed) ∧
    Load snap restart = Some (None, w') ∧ wf (w_core w') ∧
    restores (abs (w_core resumed)) (abs (w_core w')).
Proof. exact (snapshot_restores _ _ _ _ (Some demo_log) demo_env (resumed_life false)). Defined.

(** A record that acknowledges a message a second time. *)
Definition again : WRecord := rec_ack "jobs" id1 receipt4 0.

Definition reloaded : world MemLog := exec (Load (committed resumed_log)) restart.

Lemma reloaded_eq : Load (committed resumed_log) restart = Some (None, reloaded).
Proof. unfold reloaded. apply value_exec. vm_compute. reflexivity. Qed.

Definition stopped : world MemLog := exec (Engine.apply again) reloaded.

Lemma again_fails : Engine.apply again reloaded = Some (Some ErrMessageNotFound, stopped).
Proof. unfold stopped. apply value_exec. vm_compute. reflexivity. Qed.

Lemma Load_stops_witness :
  ∃ err, Load (committed resumed_log ++ [again]) restart = Some (Some err, stopped) ∧
    err = Wrapf "replay record %d (%s %s/%s): %w"
            [AInt (Z.of_nat (length (committed resumed_log)) + 1); AStr (r_Op again);
             AStr (r_Queue again); AStr (r_ID again)] ErrMessageNotFound.
Proof. exact (Load_stops _ _ _ _ _ _ [] reloaded_eq again_fails). Defined.
