(* ===== verification/Theorems.v ===== *)
(** The theorems about the engine: what every operation returns and does, on
    every branch, and what holds along every run.  Each is stated on the
    definitions of Engine, and each that has hypotheses is applied to the running
    system of Demo. *)

From S2P Require Import Prelude GoHeap Ids WalRecord Config Message Engine Spec Invariant.
From S2P Require Import Refine RefineTime RefineOps RefineRecv RefineStats Trace Runs.
From S2P Require Import ConfigWire Instances Demo.
From stdpp Require Import fin_maps sorting.

Local Open Scope Z_scope.

(** ** Runs *)

Section run_theorems.
Context {L : Type} `{!Appender L} `{!LogLaws L} `{!ConfigJSON}.
Implicit Types w : world L.

(** C1: the engine implements the abstract queue machine.  Whatever calls a
    program makes on a new engine, its queues, messages and counter are those of
    a history of the machine, the log holds exactly the records of that history
    in order, and the invariant of the data structures holds (every message is
    indexed once, in the heap when ready and in the pending map otherwise; the
    heap is ordered; every wake-up channel is open). *)
Theorem engine_refines log env cs w :
  runs (New log env) cs w →
  wf (w_core w) ∧
  ∃ ls, asteps a_empty ls (abs (w_core w)) ∧ logged log (records ls) (w_log w).
Proof.
  intros Hr. destruct (runs_history (New log env) _ _ wf_empty Hr) as (ls & Hev).
  split; [apply Hev|]. exists ls. split; [|apply Hev].
  pose proof (ev_steps _ _ _ Hev) as Hst. simpl in Hst.
  replace (abs (mkCore ∅ 0 ∅ ∅)) with a_empty in Hst; [done|].
  unfold abs, a_empty. simpl. by rewrite fmap_empty.
Qed.

(** C8: no message is lost.  A message of a queue is, after any calls, still in
    some queue with its body and send time, or one of the steps that the calls
    performed removed it from the queue that held it: an acknowledgement, a
    dead-letter without a target queue, or the deletion of that queue. *)
Theorem no_message_lost w cs w' n id m :
  wf (w_core w) → runs w cs w' → a_lookup (abs (w_core w)) n id = Some m →
  ∃ ls, evolves w ls w' ∧
    ((∃ n' m', a_lookup (abs (w_core w')) n' id = Some m' ∧ carried m m') ∨
     ∃ ls1 l ls2 C n' m', ls = ls1 ++ l :: ls2 ∧ asteps (abs (w_core w)) ls1 C ∧
       a_lookup C n' id = Some m' ∧ removes n' id l).
Proof.
  intros Hwf Hr Hl. destruct (runs_history _ _ _ Hwf Hr) as (ls & Hev). exists ls.
  split; [done|]. eapply kept_history; [apply Hwf|done|apply Hev].
Qed.

(** An acknowledgement is final.  Once Ack has succeeded, no queue ever
    holds the message again and nothing is logged about it. *)
Theorem ack_is_final w queue id receipt w1 cs w2 :
  roomy w → Ack queue id receipt w = Some (None, w1) → runs w1 cs w2 →
  (∀ n, a_lookup (abs (w_core w2)) n id = None) ∧
  ∃ ls, evolves w1 ls w2 ∧ Forall (λ l, label_id l ≠ Some id) ls.
Proof.
  intros Hro Ha Hr.
  destruct (wp_use _ _ _ _ _ (wp_Ack queue id receipt w Hro) Ha)
    as (t & w0 & Hfs & Hck & Hev).
  destruct (first_sweep_inv _ _ _ _ Hfs) as (ls0 & Hev0 & _).
  apply lease_check_None in Hck as (m & d & Hl & _).
  assert (gone (abs (w_core w1)) id) as Hg.
  { pose proof (ev_steps _ _ _ Hev) as Hst. inversion Hst as [|? ? B ? ? Hone Hrest]; subst.
    inversion Hrest; subst. eapply removed_gone; [apply Hev0|exact Hl|exact Hone|done]. }
  destruct (runs_history _ _ _ (ev_wf _ _ _ Hev) Hr) as (ls & Hev2).
  destruct (gone_forever _ _ _ _ (wf_abs _ (ev_wf _ _ _ Hev)) Hg (ev_steps _ _ _ Hev2))
    as [Hall [Hno _]]. eauto.
Qed.

(** C9: a lease is exclusive.  As long as no step of a run acknowledges,
    nacks, dead-letters or settles a leased message, or deletes its queue, the
    message keeps its receipt and is not delivered again, and its deadline is the one
    that was given last.  The first of these steps, if it settles the message because
    its time is over, is taken by a call of the run that is made, or by a Sweep that is
    asked for, at a time that is not before that deadline. *)
Theorem lease_is_exclusive w cs w' n id m r d :
  wf (w_core w) → runs w cs w' →
  a_lookup (abs (w_core w)) n id = Some m → a_Status m = ALeased r d →
  ∃ ls, evolves w ls w' ∧
    (Forall (λ l, ¬ releases n id l) ls →
     (∃ m', a_lookup (abs (w_core w')) n id = Some m' ∧
            a_Status m' = ALeased r (deadline_after id d ls)) ∧
     Forall (λ l, ∀ n' r' ts d' c, l ≠ LRecv n' id r' ts d' c) ls) ∧
    (∀ ls1 at_ ls2, ls = ls1 ++ LSettle n id at_ :: ls2 →
       Forall (λ l, ¬ releases n id l) ls1 →
       deadline_after id d ls1 ≤ at_ ∧
       ∃ cs1 c cs2 w1 la lb, cs = cs1 ++ c :: cs2 ∧ runs w cs1 w1 ∧
         ls1 = la ++ lb ∧ evolves w la w1 ∧ (at_ = clock w1 ∨ c = CSweep at_)).
Proof.
  intros Hwf Hr Hl Hs. destruct (runs_steps _ _ _ Hwf Hr) as (ls & Hev & Hsteps). exists ls.
  pose proof (ev_steps _ _ _ Hev) as Hst. split; [done|]. split.
  - intros Hrel. destruct (lease_history _ _ _ _ _ _ _ _ (wf_abs _ Hwf) Hl Hs Hst Hrel)
      as [(m' & ? & ? & _) ?]. eauto 10.
  - intros ls1 at_ ls2 -> Hrel. split; [|by destruct (Hsteps _ _ _ eq_refl) as
      (cs1 & c & cs2 & w1 & la & lb & ? & ? & ? & ? & ?); eauto 12].
    apply asteps_app_inv in Hst as (C & Hst1 & Hst2).
    destruct (lease_history _ _ _ _ _ _ _ _ (wf_abs _ Hwf) Hl Hs Hst1 Hrel)
      as [(m' & Hl' & Hs' & _) _].
    inversion Hst2 as [|? ? ? ? ? Hone _]; subst. pose proof (settle_due _ _ _ _ _ _ Hl' Hone) as Hd.
    unfold a_due in Hd. by rewrite Hs' in Hd.
Qed.

(** C10: first in, first out.  If two messages of a queue are ready and the first
    was sent (or arrived) before the second, then in every run in which the
    second is delivered from the queue, something happened to the first before:
    it was delivered, moved, or removed. *)
Theorem fifo_delivery w cs w' n ida ma idb mb :
  wf (w_core w) → runs w cs w' →
  a_lookup (abs (w_core w)) n ida = Some ma → a_Status ma = AReady →
  a_lookup (abs (w_core w)) n idb = Some mb → a_Seq ma < a_Seq mb →
  ∃ ls, evolves w ls w' ∧
    ∀ ls1 r ts d c ls2, ls = ls1 ++ LRecv n idb r ts d c :: ls2 →
      Exists (touches n ida) ls1.
Proof.
  intros Hwf Hr Hla Hsa Hlb Hlt. destruct (runs_history _ _ _ Hwf Hr) as (ls & Hev).
  exists ls. split; [done|]. intros ls1 r ts d c ls2 ->.
  pose proof (ev_steps _ _ _ Hev) as Hst. apply asteps_app_inv in Hst as (C & H1 & H2).
  inversion H2; subst. by eapply fifo_history; [apply Hwf|..].
Qed.

(** Message IDs and receipts are never reused in a run of the engine, and
    no receipt is an ID. *)
Theorem names_unique log env cs w :
  runs (New log env) cs w →
  ∃ ls, evolves (New log env) ls w ∧
    NoDup (omap sent_id ls) ∧ NoDup (omap issued_receipt ls) ∧
    ∀ id r, id ∈ omap sent_id ls → r ∈ omap issued_receipt ls → id ≠ r.
Proof.
  intros Hr. destruct (runs_history (New log env) _ _ wf_empty Hr) as (ls & Hev). exists ls.
  pose proof (ev_steps _ _ _ Hev) as Hst. pose proof (wf_abs _ wf_empty : awf (abs (w_core (New log env)))) as HA.
  split; [done|]. split; [|split].
  - eapply (picks_NoDup fmt_hex16); [apply fmt_hex16_inj|apply sent_id_fresh|exact HA|exact Hst].
  - eapply (picks_NoDup receipt_of); [apply receipt_of_inj|apply receipt_fresh|exact HA|exact Hst].
  - intros id r Hid Hre ->.
    destruct (picks_fresh fmt_hex16 _ sent_id_fresh _ _ _ _ Hst Hid) as (s1 & He1 & _).
    destruct (picks_fresh receipt_of _ receipt_fresh _ _ _ _ Hst Hre) as (s2 & He2 & _).
    apply (fmt_ne_receipt s1 s2). congruence.
Qed.
End run_theorems.

Lemma engine_refines_witness :
  runs (demo_start []) demo_calls demo ∧ wf (w_core demo) ∧
  ∃ ls, asteps a_empty ls (abs (w_core demo)) ∧
        logged (Some (mkMemLog [] [])) (records ls) (w_log demo).
Proof. split; [exact demo_runs|]. exact (engine_refines _ _ _ _ demo_runs). Defined.

(** The continuation of the demo used below: message 1 is acknowledged, message 2
    is received, message 3 becomes due. *)
Definition later_calls : list call := [CReceive "jobs" 1 0; CSweep (1800000000 * second)].

Definition later (w : world MemLog) : world MemLog := from_option id w (run_all later_calls w).

Definition acked : world MemLog := exec (Ack "jobs" id1 receipt4) demo.

Lemma demo_later : runs demo later_calls (later demo).
Proof. apply ran_runs. vm_compute. reflexivity. Qed.

Lemma acked_later : runs acked later_calls (later acked).
Proof. apply ran_runs. vm_compute. reflexivity. Qed.

(** The three messages of the demo, as the abstract machine has them. *)
Definition demo_msg (id : string) : amsg :=
  from_option (λ m, m) (mkAmsg 0 [] 0 0 0 AReady) (a_lookup (abs (w_core demo)) "jobs" id).

Lemma demo_msg_1 :
  a_lookup (abs (w_core demo)) "jobs" id1 = Some (demo_msg id1) ∧
  a_Status (demo_msg id1) = ALeased receipt4 (1700000035 * second).
Proof. split; vm_compute; reflexivity. Qed.

Lemma no_message_lost_witness :
  ∃ ls, evolves demo ls (later demo) ∧
    ((∃ n' m', a_lookup (abs (w_core (later demo))) n' id1 = Some m' ∧
               carried (demo_msg id1) m') ∨
     ∃ ls1 l ls2 C n' m', ls = ls1 ++ l :: ls2 ∧ asteps (abs (w_core demo)) ls1 C ∧
       a_lookup C n' id1 = Some m' ∧ removes n' id1 l).
Proof.
  apply (no_message_lost demo later_calls (later demo) "jobs").
  - exact (ro_wf _ demo_roomy).
  - exact demo_later.
  - exact (proj1 demo_msg_1).
Defined.

Lemma acked_ok : Ack "jobs" id1 receipt4 demo = Some (None, acked).
Proof.
  unfold acked. apply value_exec. vm_compute. reflexivity.
Qed.

Lemma ack_is_final_witness :
  (∀ n, a_lookup (abs (w_core (later acked))) n id1 = None) ∧
  ∃ ls, evolves acked ls (later acked) ∧ Forall (λ l, label_id l ≠ Some id1) ls.
Proof. exact (ack_is_final _ _ _ _ _ _ _ demo_roomy acked_ok acked_later). Defined.

Lemma lease_is_exclusive_witness :
  ∃ ls, evolves demo ls (later demo) ∧
    (Forall (λ l, ¬ releases "jobs" id1 l) ls →
     (∃ m', a_lookup (abs (w_core (later demo))) "jobs" id1 = Some m' ∧
            a_Status m' = ALeased receipt4 (deadline_after id1 (1700000035 * second) ls)) ∧
     Forall (λ l, ∀ n' r' ts d' c, l ≠ LRecv n' id1 r' ts d' c) ls) ∧
    (∀ ls1 at_ ls2, ls = ls1 ++ LSettle "jobs" id1 at_ :: ls2 →
       Forall (λ l, ¬ releases "jobs" id1 l) ls1 →
       deadline_after id1 (1700000035 * second) ls1 ≤ at_ ∧
       ∃ cs1 c cs2 w1 la lb, later_calls = cs1 ++ c :: cs2 ∧ runs demo cs1 w1 ∧
         ls1 = la ++ lb ∧ evolves demo la w1 ∧ (at_ = clock w1 ∨ c = CSweep at_)).
Proof.
  exact (lease_is_exclusive _ _ _ _ _ _ _ _ (ro_wf _ demo_roomy) demo_later
           (proj1 demo_msg_1) (proj2 demo_msg_1)).
Defined.

Definition two_msg (id : string) : amsg :=
  from_option (λ m, m) (mkAmsg 0 [] 0 0 0 AReady) (a_lookup (abs (w_core two_ready)) "jobs" id).

Lemma two_later : runs two_ready later_calls (later two_ready).
Proof. apply ran_runs. vm_compute. reflexivity. Qed.

Lemma fifo_delivery_witness :
  ∃ ls, evolves two_ready ls (later two_ready) ∧
    ∀ ls1 r ts d c ls2, ls = ls1 ++ LRecv "jobs" id2 r ts d c :: ls2 →
      Exists (touches "jobs" id1) ls1.
Proof.
  apply (fifo_delivery two_ready later_calls (later two_ready) "jobs" id1 (two_msg id1) id2
           (two_msg id2)).
  - exact (ro_wf _ two_ready_roomy).
  - exact two_later.
  - vm_compute. reflexivity.
  - vm_compute. reflexivity.
  - vm_compute. reflexivity.
  - vm_compute. reflexivity.
Defined.

Lemma names_unique_witness :
  ∃ ls, evolves (demo_start []) ls demo ∧
    NoDup (omap sent_id ls) ∧ NoDup (omap issued_receipt ls) ∧
    ∀ id r, id ∈ omap sent_id ls → r ∈ omap issued_receipt ls → id ≠ r.
Proof. exact (names_unique _ _ _ _ demo_runs). Defined.
