(* ===== verification/OpTheorems.v ===== *)
(** The theorems about the single operations of the engine: from a world in which
    the invariant holds, each operation returns, and its result and effect are as
    stated on every branch, errors of the log included. *)

From S2P Require Import Prelude GoHeap Ids WalRecord Config Message Engine Spec Invariant.
From S2P Require Import Refine RefineTime RefineOps RefineRecv RefineStats Runs ConfigWire Instances.
From S2P Require Import Demo.
From stdpp Require Import fin_maps sorting.

Local Open Scope Z_scope.

Section op_theorems.
Context {L : Type} `{!Appender L} `{!LogLaws L} `{!ConfigJSON}.
Implicit Types w : world L.

(** C25: Send.  With a delay in range and a queue that exists, either the record
    is appended and the message is in the queue under the next counter value,
    ready or delayed; or the append fails, the call returns its error, and the engine
    is as it was, counter included.  Any other call changes nothing. *)
Theorem Send_spec queue body delay w :
  wf (w_core w) → k_seq (w_core w) + 1 < 2 ^ 64 →
  ∃ r w', Send queue body delay w = Some (r, w') ∧
    match r with
    | Ok id =>
      0 ≤ delay ≤ MaxDelay ∧ id = fmt_hex16 (k_seq (w_core w) + 1) ∧
      evolves w [LSend queue id body (clock w) delay] w' ∧
      a_lookup (abs (w_core w')) queue id =
        Some (sent (k_seq (w_core w) + 1) body (clock w) delay)
    | Err e =>
      evolves w [] w' ∧ w_core w' = w_core w ∧
      (0 ≤ delay ≤ MaxDelay →
         match k_queues (w_core w) !! queue with
         | None => e = ErrQueueNotFound
         | Some _ =>
           append_failed w (LSend queue (fmt_hex16 (k_seq (w_core w) + 1)) body (clock w) delay) e w'
         end)
    end.
Proof.
  intros Hwf Hs. destruct (wp_elim _ _ _ (wp_Send queue body delay w Hwf Hs)) as (r & w' & Hrun & Hr).
  exists r, w'. split; [done|]. destruct r as [id|e]; [|done].
  destruct Hr as (Hev & -> & Hd). split; [done|]. split; [done|]. split; [done|].
  destruct (send_effect _ _ _ _ _ _ _ (ev_steps _ _ _ Hev)) as [Hq ->].
  rewrite a_lookup_put by done. by rewrite decide_True.
Qed.

(** C26: Receive without waiting.  It settles what is due, then leases ready
    messages: each delivery carries the content of a message that was ready,
    with a fresh receipt and its receive count raised by one, and has its record
    in the log; there are at most [max] of them (at least one is asked for), and
    fewer only when no message is left ready.  If the append of the record of a
    delivery fails, the call returns its error, the messages leased before it stay
    leased, the one at hand goes back to its place, and the counter value is spent. *)
Theorem Receive_spec queue max vis w (max' := if max <? 1 then 1 else max) :
  roomy w →
  ∃ r w', Receive_nowait queue max vis w = Some (r, w') ∧
    if (0 <=? vis) && (vis <=? MaxVisibility) then
      k_queues (w_core w) !! queue = None ∧ r = Err ErrQueueNotFound ∧ w' = w ∨
      ∃ t w1 c, first_sweep w queue t w1 ∧ a_cfg (abs (w_core w1)) queue = Some c ∧
        match r with
        | Ok ds => leases w1 queue max' (effective c vis) t [] (ds, None) w'
        | Err e => ∃ ds, leases w1 queue max' (effective c vis) t [] (ds, Some e) w'
        end
    else w' = w ∧ ∃ e, r = Err e.
Proof.
  intros Hro. destruct (wp_elim _ _ _ (wp_Receive_nowait queue max vis w Hro))
    as (r & w' & Hrun & Hr). eauto.
Qed.

(** Receive delivers in send order: the deliveries are in increasing order
    of position, and every message that is still ready afterwards comes after
    all of them. *)
Theorem Receive_in_order queue max vis w ds w' :
  roomy w → 0 ≤ vis ≤ MaxVisibility →
  Receive_nowait queue max vis w = Some (Ok ds, w') →
  ∃ t w1, first_sweep w queue t w1 ∧
    let A := abs (w_core w1) in
    StronglySorted (λ d1 d2, position A queue d1 < position A queue d2) ds ∧
    ∀ d id m, d ∈ ds → a_lookup (abs (w_core w')) queue id = Some m →
      a_Status m = AReady → position A queue d < a_Seq m.
Proof.
  intros Hro Hv Hrun. pose proof (wp_use _ _ _ _ _ (wp_Receive_nowait queue max vis w Hro) Hrun) as Hr.
  simpl in Hr. rewrite !(proj2 (Z.leb_le _ _)) in Hr by lia. simpl in Hr.
  destruct Hr as [(_ & ? & _)|(t & w1 & c & Hfs & _ & new & ls & Hds & Hdel & _ & Hev & _)]; [done|].
  simpl in Hds, Hdel. subst new. exists t, w1. split; [done|].
  destruct (first_sweep_inv _ _ _ _ Hfs) as (ls1 & Hev1 & _).
  destruct (lease_order _ _ _ _ _ _ _ _ (wf_abs _ (ev_wf _ _ _ Hev1)) (λ _ _ H _, H) Hdel
              (ev_steps _ _ _ Hev)) as [Hsort _ _ Hleft]. eauto.
Qed.

(** C27: Ack.  After the sweep of the queue, the call fails with the error that
    the state of the message calls for (unknown message, not leased, another
    receipt) and changes nothing more; otherwise the record is appended and the
    message leaves the queue, or the append of the record fails, the call returns its
    error, and nothing changes. *)
Theorem Ack_spec queue id receipt w :
  roomy w →
  ∃ err w', Ack queue id receipt w = Some (err, w') ∧
    on_lease w queue id receipt err
      (λ w1, evolves w1 [LAck queue id receipt (clock w1)] w')
      (λ e w1, evolves w1 [] w' ∧ append_failed w1 (LAck queue id receipt (clock w1)) e w') w'.
Proof. intros Hro. exact (wp_elim _ _ _ (wp_Ack queue id receipt w Hro)). Qed.

(** C28: Nack.  The same checks; then a message that has been received as often
    as the queue allows is dead-lettered, and any other is ready again at its old
    place; or the append of the record (for a dead-letter: of one of its records)
    fails, the call returns its error, and the message stays leased. *)
Theorem Nack_spec queue id receipt w :
  roomy w →
  ∃ err w', Nack queue id receipt w = Some (err, w') ∧
    on_lease w queue id receipt err
      (λ w1, ∃ m c, a_lookup (abs (w_core w1)) queue id = Some m ∧
         a_cfg (abs (w_core w1)) queue = Some c ∧
         if exhausted c (a_Receives m)
         then ∃ ls, evolves w1 ls w' ∧
                dead_steps (abs (w_core w1)) queue id (c_DeadLetter c) None ls
         else evolves w1 [LNack queue id receipt (clock w1)] w')
      (λ e w1, ∃ m c, a_lookup (abs (w_core w1)) queue id = Some m ∧
         a_cfg (abs (w_core w1)) queue = Some c ∧
         if exhausted c (a_Receives m)
         then ∃ ls, evolves w1 ls w' ∧
                dead_steps (abs (w_core w1)) queue id (c_DeadLetter c) (Some e) ls ∧
                dead_failed w1 queue id (c_DeadLetter c) e w'
         else evolves w1 [] w' ∧ append_failed w1 (LNack queue id receipt (clock w1)) e w') w'.
Proof. intros Hro. exact (wp_elim _ _ _ (wp_Nack queue id receipt w Hro)). Qed.

(** C29: Extend.  With a visibility in range and the same checks, the deadline of
    the lease becomes what the clock shows after the sweep plus the visibility, in the
    queue and in the record (whose own time is the next reading of the clock); or the
    append fails, the call returns its error, and the deadline stays.  A visibility out
    of range is refused. *)
Theorem Extend_spec queue id receipt visibility w :
  roomy w →
  ∃ err w', Extend queue id receipt visibility w = Some (err, w') ∧
    if (0 <? visibility) && (visibility <=? MaxVisibility)
    then on_lease w queue id receipt err
           (λ w1, evolves w1 [LExtend queue id receipt (clock w1 + visibility)
                                  (env_now (w_env w1) (S (w_tick w1)))] w')
           (λ e w1, evolves w1 [] w' ∧
              append_failed w1 (LExtend queue id receipt (clock w1 + visibility)
                            (env_now (w_env w1) (S (w_tick w1)))) e w') w'
    else w' = w ∧ is_Some err.
Proof. intros Hro. exact (wp_elim _ _ _ (wp_Extend queue id receipt visibility w Hro)). Qed.

(** C30: Redrive.  Both queues must exist and differ; then ready messages of the
    source move to the back of the target in send order, as many as reported, at
    most [max] if that is positive, and otherwise until none is left ready or the
    append of the record of a move fails, whose error is returned. *)
Theorem Redrive_spec from to max w :
  roomy w →
  ∃ r w', Redrive from to max w = Some (r, w') ∧
    ((from = to ∨ k_queues (w_core w) !! from = None ∨ k_queues (w_core w) !! to = None) ∧
       w' = w ∧ r.1 = 0 ∧ is_Some r.2 ∧
       (from ≠ to → ∃ e, r.2 = Some e ∧ Is e ErrQueueNotFound = true) ∨
     from ≠ to ∧ ∃ t w1, first_sweep w from t w1 ∧ redriven w1 from to max 0 r w').
Proof. intros Hro. exact (wp_elim _ _ _ (wp_Redrive from to max w Hro)). Qed.

(** C31: Sweep.  Afterwards every message that still waits (delayed or leased) is
    not due yet, or is an exhausted lease for which Append failed during the call, when
    it was given the record of the transfer to the dead-letter queue, or the one that
    creates this queue; the deadline returned is not after any of the due times to
    come, and it is zero or the due time of a message; no other kind of step is
    taken. *)
Theorem Sweep_spec at_ w :
  roomy w →
  ∃ next w' ls, Sweep at_ w = Some (next, w') ∧ evolves w ls w' ∧
    Forall (λ l, ∃ n, is_sweep n at_ l) ls ∧
    (∀ n id m c, a_lookup (abs (w_core w')) n id = Some m → a_Status m ≠ AReady →
       a_cfg (abs (w_core w')) n = Some c →
       at_ < a_due m ∨
       is_leased m ∧ exhausted c (a_Receives m) = true ∧
         ∃ e, dead_failed w n id (c_DeadLetter c) e w') ∧
    (zeroTime ≤ at_ → ∀ n id m, a_lookup (abs (w_core w')) n id = Some m →
       a_Status m ≠ AReady → at_ < a_due m → covers next (a_due m)) ∧
    (next = zeroTime ∨ ∃ n id m, a_lookup (abs (w_core w)) n id = Some m ∧
       a_Status m ≠ AReady ∧ at_ < a_due m ∧ next = a_due m).
Proof.
  intros Hro. destruct (wp_elim _ _ _ (wp_Sweep at_ (2 ^ 63) w ltac:(lia) (ro_wf _ Hro)
    (roomy_room w _ Hro))) as (next & w' & Hrun & ls & Hev & Hok & _ & [C W D Lo M F]).
  exists next, w', ls. split; [done|]. split; [done|]. split; [done|]. eauto 10.
Qed.

(** deadLetter, on an exhausted lease.  The target queue is created with the
    default configuration if it does not exist; then the message leaves its
    queue and, unless the policy names no target, is ready at the back of the
    target with its receive count, not counting as a receive; if an append fails
    the message stays where it is. *)
Theorem deadLetter_spec w n q id p m :
  holds w n q id p m → m_state m = stateLeased →
  exhausted (q_cfg q) (m_Receives m) = true → k_seq (w_core w) + 1 < 2 ^ 64 →
  ∃ err w' ls, deadLetter n p w = Some (err, w') ∧ evolves w ls w' ∧
    dead_steps (abs (w_core w)) n id (c_DeadLetter (q_cfg q)) err ls ∧
    dead_effect (abs (w_core w)) (abs (w_core w')) n id err ∧
    ∀ e, err = Some e → dead_failed w n id (c_DeadLetter (q_cfg q)) e w'.
Proof.
  intros Hho Hst Hex Hs. apply abs_leased in Hst.
  destruct (wp_elim _ _ _ (wp_deadLetter w n q id p m Hho Hst Hex Hs)) as (err & w' & Hrun & ls & Hev & Hds & Hrf).
  exists err, w', ls. split; [done|]. split; [done|]. split; [done|]. split; [|done].
  eapply dead_steps_effect; [apply (wf_abs _ (ho_wf _ _ _ _ _ _ Hho))|apply Hev|done].
Qed.

(** CreateQueue.  A name must be valid and not its own dead-letter target;
    the queue is then created, or its configuration replaced with its messages
    kept, and the result tells which. *)
Theorem CreateQueue_spec name cfg w :
  wf (w_core w) →
  ∃ r w', CreateQueue name cfg w = Some (r, w') ∧
    match r with
    | Ok created =>
      evolves w [LCreate name cfg (clock w)] w' ∧ ValidName name = true ∧
        c_DeadLetter cfg ≠ name ∧ (created = true ↔ k_queues (w_core w) !! name = None)
    | Err e => evolves w [] w' ∧
        (ValidName name = false ∧ Is e ErrBadName = true ∨
         ValidName name = true ∧
           (c_DeadLetter cfg = name ∨ append_failed w (LCreate name cfg (clock w)) e w'))
    end.
Proof. intros Hwf. exact (wp_elim _ _ _ (wp_CreateQueue name cfg w Hwf)). Qed.

(** DeleteQueue.  A queue that exists goes away with its messages, whose
    waiting receivers are woken once; a failed append leaves it. *)
Theorem DeleteQueue_spec name w :
  wf (w_core w) →
  ∃ r w', DeleteQueue name w = Some (r, w') ∧
    match r with
    | None => evolves w [LDelete name (clock w)] w'
    | Some e => evolves w [] w' ∧
        match k_queues (w_core w) !! name with
        | None => e = ErrQueueNotFound
        | Some _ => append_failed w (LDelete name (clock w)) e w'
        end
    end.
Proof. intros Hwf. exact (wp_elim _ _ _ (wp_DeleteQueue name w Hwf)). Qed.

(** Stats.  After the sweep of the queue, the numbers reported are the
    numbers of ready, delayed and leased messages, with the queue's name and
    configuration. *)
Theorem QueueStats_spec name w :
  roomy w →
  ∃ r w', QueueStats name w = Some (r, w') ∧
    match r with
    | Err e => k_queues (w_core w) !! name = None ∧ e = ErrQueueNotFound ∧ w' = w
    | Ok s => ∃ t, first_sweep w name t w' ∧ stats_match (abs (w_core w')) name s
    end.
Proof. intros Hro. exact (wp_elim _ _ _ (wp_QueueStats name w Hro)). Qed.

(** ListStats.  The report has one line per queue, in the order of the
    names, no queue twice, every queue that existed included; each line was right
    at some moment of the call. *)
Theorem ListStats_spec w :
  roomy w →
  ∃ r w' ls, ListStats w = Some (r, w') ∧ evolves w ls w' ∧ Forall (seen w w') r ∧
    Sorted stats_le r ∧ NoDup (s_Name <$> r) ∧
    ∀ n, is_Some (k_queues (w_core w) !! n) → n ∈ s_Name <$> r.
Proof.
  intros Hro. destruct (wp_elim _ _ _ (wp_ListStats w Hro)) as (r & w' & Hrun & ls & [Hev _] & Hr).
  eauto 10.
Qed.
End op_theorems.

(** ** Instances *)

(** The clock of the demo is past the due time of message 3 and the deadline of
    message 1 when [env_now] says so; here it is not. *)
Lemma Send_spec_witness :
  value_of (Send "jobs" (text "again") 0) demo = Some (Ok "0000000000000005") ∧
  ∃ r w', Send "jobs" (text "again") 0 demo = Some (r, w') ∧
    match r with
    | Ok id =>
      0 ≤ 0 ≤ MaxDelay ∧ id = fmt_hex16 (k_seq (w_core demo) + 1) ∧
      evolves demo [LSend "jobs" id (text "again") (clock demo) 0] w' ∧
      a_lookup (abs (w_core w')) "jobs" id =
        Some (sent (k_seq (w_core demo) + 1) (text "again") (clock demo) 0)
    | Err e =>
      evolves demo [] w' ∧ w_core w' = w_core demo ∧
      (0 ≤ 0 ≤ MaxDelay →
         match k_queues (w_core demo) !! "jobs" with
         | None => e = ErrQueueNotFound
         | Some _ =>
           append_failed demo (LSend "jobs" (fmt_hex16 (k_seq (w_core demo) + 1)) (text "again")
                           (clock demo) 0) e w'
         end)
    end.
Proof.
  split; [vm_compute; reflexivity|].
  apply (Send_spec "jobs" (text "again") 0 demo); [exact (ro_wf _ demo_roomy)|].
  vm_compute. reflexivity.
Defined.

Lemma Receive_spec_witness :
  (∃ d, value_of (Receive_nowait "jobs" 5 0) demo = Some (Ok [d]) ∧ d_ID d = id2) ∧
  ∃ r w', Receive_nowait "jobs" 5 0 demo = Some (r, w') ∧
    (k_queues (w_core demo) !! "jobs" = None ∧ r = Err ErrQueueNotFound ∧ w' = demo ∨
     ∃ t w1 c, first_sweep demo "jobs" t w1 ∧ a_cfg (abs (w_core w1)) "jobs" = Some c ∧
       match r with
       | Ok ds => leases w1 "jobs" 5 (effective c 0) t [] (ds, None) w'
       | Err e => ∃ ds, leases w1 "jobs" 5 (effective c 0) t [] (ds, Some e) w'
       end).
Proof.
  split; [eexists; split; vm_compute; reflexivity|].
  exact (Receive_spec "jobs" 5 0 demo demo_roomy).
Defined.

Definition received : list Delivery * world MemLog :=
  match Receive_nowait "jobs" 2 0 two_ready with
  | Some (Ok ds, w) => (ds, w)
  | _ => ([], two_ready)
  end.

Lemma received_run :
  Receive_nowait "jobs" 2 0 two_ready = Some (Ok received.1, received.2).
Proof.
  unfold received.
  assert (match value_of (Receive_nowait "jobs" 2 0) two_ready with Some (Ok _) => true | _ => false end
          = true) as Hv by (vm_compute; reflexivity).
  unfold value_of in Hv.
  by destruct (Receive_nowait "jobs" 2 0 two_ready) as [[[ds|e] w]|].
Qed.

Lemma Receive_in_order_witness :
  d_ID <$> received.1 = [id1; id2] ∧
  ∃ t w1, first_sweep two_ready "jobs" t w1 ∧
    let A := abs (w_core w1) in
    StronglySorted (λ d1 d2, position A "jobs" d1 < position A "jobs" d2) received.1 ∧
    ∀ d id m, d ∈ received.1 → a_lookup (abs (w_core received.2)) "jobs" id = Some m →
      a_Status m = AReady → position A "jobs" d < a_Seq m.
Proof.
  split; [vm_compute; reflexivity|].
  apply (Receive_in_order "jobs" 2 0 two_ready).
  - exact two_ready_roomy.
  - split; vm_compute; discriminate.
  - exact received_run.
Defined.

Lemma Ack_spec_witness :
  value_of (Ack "jobs" id1 receipt4) demo = Some None ∧
  value_of (Ack "jobs" id1 "r0000000000000003") demo = Some (Some ErrWrongReceipt) ∧
  ∃ err w', Ack "jobs" id1 receipt4 demo = Some (err, w') ∧
    on_lease demo "jobs" id1 receipt4 err
      (λ w1, evolves w1 [LAck "jobs" id1 receipt4 (clock w1)] w')
      (λ e w1, evolves w1 [] w' ∧ append_failed w1 (LAck "jobs" id1 receipt4 (clock w1)) e w') w'.
Proof.
  split; [vm_compute; reflexivity|]. split; [vm_compute; reflexivity|].
  exact (Ack_spec "jobs" id1 receipt4 demo demo_roomy).
Defined.

Lemma Nack_spec_witness :
  value_of (Nack "jobs" id1 receipt4) demo = Some None ∧
  ∃ err w', Nack "jobs" id1 receipt4 demo = Some (err, w') ∧
    on_lease demo "jobs" id1 receipt4 err
      (λ w1, ∃ m c, a_lookup (abs (w_core w1)) "jobs" id1 = Some m ∧
         a_cfg (abs (w_core w1)) "jobs" = Some c ∧
         if exhausted c (a_Receives m)
         then ∃ ls, evolves w1 ls w' ∧
                dead_steps (abs (w_core w1)) "jobs" id1 (c_DeadLetter c) None ls
         else evolves w1 [LNack "jobs" id1 receipt4 (clock w1)] w')
      (λ e w1, ∃ m c, a_lookup (abs (w_core w1)) "jobs" id1 = Some m ∧
         a_cfg (abs (w_core w1)) "jobs" = Some c ∧
         if exhausted c (a_Receives m)
         then ∃ ls, evolves w1 ls w' ∧
                dead_steps (abs (w_core w1)) "jobs" id1 (c_DeadLetter c) (Some e) ls ∧
                dead_failed w1 "jobs" id1 (c_DeadLetter c) e w'
         else evolves w1 [] w' ∧ append_failed w1 (LNack "jobs" id1 receipt4 (clock w1)) e w') w'.
Proof.
  split; [vm_compute; reflexivity|]. exact (Nack_spec "jobs" id1 receipt4 demo demo_roomy).
Defined.

Lemma Extend_spec_witness :
  value_of (Extend "jobs" id1 receipt4 (60 * second)) demo = Some None ∧
  ∃ err w', Extend "jobs" id1 receipt4 (60 * second) demo = Some (err, w') ∧
    on_lease demo "jobs" id1 receipt4 err
      (λ w1, evolves w1 [LExtend "jobs" id1 receipt4 (clock w1 + 60 * second)
                             (env_now (w_env w1) (S (w_tick w1)))] w')
      (λ e w1, evolves w1 [] w' ∧
         append_failed w1 (LExtend "jobs" id1 receipt4 (clock w1 + 60 * second)
                       (env_now (w_env w1) (S (w_tick w1)))) e w') w'.
Proof.
  split; [vm_compute; reflexivity|].
  exact (Extend_spec "jobs" id1 receipt4 (60 * second) demo demo_roomy).
Defined.

Lemma Redrive_spec_witness :
  value_of (Redrive "jobs" "other" 0) demo = Some (1, None) ∧
  ∃ r w', Redrive "jobs" "other" 0 demo = Some (r, w') ∧
    (("jobs" = "other" ∨ k_queues (w_core demo) !! "jobs" = None ∨
        k_queues (w_core demo) !! "other" = None) ∧
       w' = demo ∧ r.1 = 0 ∧ is_Some r.2 ∧
       ("jobs" ≠ "other" → ∃ e, r.2 = Some e ∧ Is e ErrQueueNotFound = true) ∨
     "jobs" ≠ "other" ∧ ∃ t w1, first_sweep demo "jobs" t w1 ∧
       redriven w1 "jobs" "other" 0 0 r w').
Proof.
  split; [vm_compute; reflexivity|]. exact (Redrive_spec "jobs" "other" 0 demo demo_roomy).
Defined.

(** A queue whose only message has been received as often as it allows, and whose
    dead-letter queue does not exist yet. *)
Definition spent_calls : list call :=
  [CCreateQueue "jobs" (mkConfig (30 * second) 1 "failed"); CSend "jobs" (text "poison") 0;
   CReceive "jobs" 1 0].

Definition spent : world MemLog :=
  from_option id (demo_start []) (run_all spent_calls (demo_start [])).

Lemma spent_roomy : roomy spent.
Proof. apply (ran_roomy spent_calls). vm_compute. reflexivity. Qed.

Definition spent_queue : queueState :=
  from_option id (newQueueState "" DefaultConfig 1) (k_queues (w_core spent) !! "jobs").

Definition spent_msg : message :=
  from_option id (mkMessage "" 0 [] 0 0 stateReady "" 0 0) (k_msgs (w_core spent) !! 1%positive).

Lemma spent_holds : holds spent "jobs" spent_queue id1 1%positive spent_msg.
Proof. split; [exact (ro_wf _ spent_roomy)|..]; vm_compute; reflexivity. Qed.

Lemma deadLetter_spec_witness :
  value_of (deadLetter "jobs" 1%positive) spent = Some None ∧
  (a_Status <$> a_lookup (abs (w_core (exec (deadLetter "jobs" 1%positive) spent))) "failed" id1)
    = Some AReady ∧
  ∃ err w' ls, deadLetter "jobs" 1%positive spent = Some (err, w') ∧ evolves spent ls w' ∧
    dead_steps (abs (w_core spent)) "jobs" id1 (c_DeadLetter (q_cfg spent_queue)) err ls ∧
    dead_effect (abs (w_core spent)) (abs (w_core w')) "jobs" id1 err ∧
    ∀ e, err = Some e → dead_failed spent "jobs" id1 (c_DeadLetter (q_cfg spent_queue)) e w'.
Proof.
  split; [vm_compute; reflexivity|]. split; [vm_compute; reflexivity|].
  apply (deadLetter_spec spent "jobs" spent_queue id1 1%positive spent_msg).
  - exact spent_holds.
  - vm_compute. reflexivity.
  - vm_compute. reflexivity.
  - vm_compute. reflexivity.
Defined.

Definition noon : Z := 1700000030 * second.

Lemma Sweep_spec_witness :
  value_of (Sweep noon) demo = Some (1700000035 * second) ∧
  ∃ next w' ls, Sweep noon demo = Some (next, w') ∧ evolves demo ls w' ∧
    Forall (λ l, ∃ n, is_sweep n noon l) ls ∧
    (∀ n id m c, a_lookup (abs (w_core w')) n id = Some m → a_Status m ≠ AReady →
       a_cfg (abs (w_core w')) n = Some c →
       noon < a_due m ∨
       is_leased m ∧ exhausted c (a_Receives m) = true ∧
         ∃ e, dead_failed demo n id (c_DeadLetter c) e w') ∧
    (zeroTime ≤ noon → ∀ n id m, a_lookup (abs (w_core w')) n id = Some m →
       a_Status m ≠ AReady → noon < a_due m → covers next (a_due m)) ∧
    (next = zeroTime ∨ ∃ n id m, a_lookup (abs (w_core demo)) n id = Some m ∧
       a_Status m ≠ AReady ∧ noon < a_due m ∧ next = a_due m).
Proof. split; [vm_compute; reflexivity|]. exact (Sweep_spec noon demo demo_roomy). Defined.

Lemma CreateQueue_spec_witness :
  value_of (CreateQueue "jobs" DefaultConfig) demo = Some (Ok false) ∧
  ∃ r w', CreateQueue "jobs" DefaultConfig demo = Some (r, w') ∧
    match r with
    | Ok created =>
      evolves demo [LCreate "jobs" DefaultConfig (clock demo)] w' ∧ ValidName "jobs" = true ∧
        c_DeadLetter DefaultConfig ≠ "jobs" ∧
        (created = true ↔ k_queues (w_core demo) !! "jobs" = None)
    | Err e => evolves demo [] w' ∧
        (ValidName "jobs" = false ∧ Is e ErrBadName = true ∨
         ValidName "jobs" = true ∧
           (c_DeadLetter DefaultConfig = "jobs" ∨
            append_failed demo (LCreate "jobs" DefaultConfig (clock demo)) e w'))
    end.
Proof.
  split; [vm_compute; reflexivity|].
  exact (CreateQueue_spec "jobs" DefaultConfig demo (ro_wf _ demo_roomy)).
Defined.

Lemma DeleteQueue_spec_witness :
  value_of (DeleteQueue "jobs") demo = Some None ∧
  ∃ r w', DeleteQueue "jobs" demo = Some (r, w') ∧
    match r with
    | None => evolves demo [LDelete "jobs" (clock demo)] w'
    | Some e => evolves demo [] w' ∧
        match k_queues (w_core demo) !! "jobs" with
        | None => e = ErrQueueNotFound
        | Some _ => append_failed demo (LDelete "jobs" (clock demo)) e w'
        end
    end.
Proof.
  split; [vm_compute; reflexivity|]. exact (DeleteQueue_spec "jobs" demo (ro_wf _ demo_roomy)).
Defined.

Lemma QueueStats_spec_witness :
  value_of (QueueStats "jobs") demo = Some (Ok (mkStats "jobs" jobs_cfg 1 1 1 3 0 0)) ∧
  ∃ r w', QueueStats "jobs" demo = Some (r, w') ∧
    match r with
    | Err e => k_queues (w_core demo) !! "jobs" = None ∧ e = ErrQueueNotFound ∧ w' = demo
    | Ok s => ∃ t, first_sweep demo "jobs" t w' ∧ stats_match (abs (w_core w')) "jobs" s
    end.
Proof. split; [vm_compute; reflexivity|]. exact (QueueStats_spec "jobs" demo demo_roomy). Defined.

Lemma ListStats_spec_witness :
  option_map (map s_Name) (value_of ListStats demo) = Some ["jobs"; "other"] ∧
  ∃ r w' ls, ListStats demo = Some (r, w') ∧ evolves demo ls w' ∧ Forall (seen demo w') r ∧
    Sorted stats_le r ∧ NoDup (s_Name <$> r) ∧
    ∀ n, is_Some (k_queues (w_core demo) !! n) → n ∈ s_Name <$> r.
Proof. split; [vm_compute; reflexivity|]. exact (ListStats_spec demo demo_roomy). Defined.
