(* ===== verification/Components.v ===== *)
(** The theorems about the parts that the engine is built from: the ready heap,
    the identifiers, the bodies and the validity of records, and configurations. *)

From S2P Require Import Prelude GoHeap Ids WalRecord Config Message Engine Spec Invariant.
From S2P Require Import Refine Trace Runs ConfigWire Instances Demo.
From stdpp Require Import sorting.

Local Open Scope Z_scope.

(** ** The ready heap *)

Fixpoint push_all (st : store) (h : list ptr) (ps : list ptr) : option (list ptr) :=
  match ps with
  | [] => Some h
  | p :: ps => h' ← readyPush st h p; push_all st h' ps
  end.

Fixpoint pop_all (n : nat) (st : store) (h : list ptr) : option (list ptr) :=
  match n with
  | O => Some []
  | S n => '(p, h') ← readyPop st h; ps ← pop_all n st h'; Some (p :: ps)
  end.

Section heap.
Context (st : store).

Lemma less_on_stored h : (∀ p, p ∈ h → is_Some (st !! p)) → less_on (readyLess st) (seq_of st) h.
Proof. apply less_on_present. Qed.

Lemma push_all_ok ps h :
  (∀ p, p ∈ ps ++ h → is_Some (st !! p)) → heap_ordered (seq_of st) h →
  ∃ h', push_all st h ps = Some h' ∧ h' ≡ₚ ps ++ h ∧ heap_ordered (seq_of st) h'.
Proof.
  revert h. induction ps as [|p ps IH]; intros h Hin Ho; simpl; [eauto|].
  destruct (heap_Push_ok (readyLess st) (seq_of st) h p) as (h1 & Hpush & Hperm & Ho1);
    [|done|].
  { apply less_on_stored. intros p' Hp'. apply Hin. rewrite <-app_comm_cons.
    apply elem_of_cons in Hp' as [->|?]; [by left|]. right. apply elem_of_app. by right. }
  unfold readyPush. rewrite Hpush. simpl.
  destruct (IH h1) as (h' & Hall & Hperm' & Ho'); [|done|].
  { intros p' Hp'. apply Hin. rewrite Hperm in Hp'. by rewrite <-Permutation_middle in Hp'. }
  exists h'. split; [done|]. split; [|done].
  by rewrite Hperm', Hperm, <-Permutation_middle.
Qed.

Lemma pop_all_ok n h :
  length h = n → (∀ p, p ∈ h → is_Some (st !! p)) → heap_ordered (seq_of st) h →
  ∃ out, pop_all n st h = Some out ∧ out ≡ₚ h ∧
    StronglySorted (λ a b, seq_of st a ≤ seq_of st b) out.
Proof.
  revert h. induction n as [|n IH]; intros h Hn Hin Ho; simpl.
  { apply nil_length_inv in Hn as ->. exists []. repeat split; constructor. }
  destruct (heap_Pop_ok (readyLess st) (seq_of st) h) as (p & h1 & Hpop & Hperm & Ho1 & Hmin).
  - by apply less_on_stored.
  - done.
  - by intros ->.
  - unfold readyPop. rewrite Hpop. simpl.
    destruct (IH h1) as (out & Hall & Hperm' & Hs); [|intros p' Hp'; apply Hin; rewrite Hperm; by right|done|].
    { rewrite Hperm in Hn. by injection Hn. }
    rewrite Hall. simpl. exists (p :: out). split; [done|].
    split; [by rewrite Hperm', Hperm|]. constructor; [done|].
    apply Forall_forall. intros p' Hp'. apply Hmin. rewrite Hperm. right. by rewrite <-Hperm'.
Qed.

(** C36: the ready heap orders messages: messages pushed in any order are all
    popped, each once, by increasing position. *)
Theorem ready_heap_sorts ps :
  (∀ p, p ∈ ps → is_Some (st !! p)) →
  ∃ h out, push_all st [] ps = Some h ∧ pop_all (length ps) st h = Some out ∧
    out ≡ₚ ps ∧ StronglySorted (λ a b, seq_of st a ≤ seq_of st b) out.
Proof.
  intros Hin. destruct (push_all_ok ps []) as (h & Hpush & Hperm & Ho).
  - by rewrite app_nil_r.
  - intros i Hi. simpl in Hi. lia.
  - rewrite app_nil_r in Hperm. destruct (pop_all_ok (length ps) h) as (out & Hpop & Hp & Hs).
    + by rewrite Hperm.
    + intros p Hp. apply Hin. by rewrite <-Hperm.
    + done.
    + exists h, out. split; [done|]. split; [done|]. split; [by rewrite Hp|done].
Qed.
End heap.

Definition demo_store : store :=
  list_to_map ((λ i, (i, mkMessage "" (7 - Z.pos i) [] 0 0 stateReady "" 0 0)) <$>
                 [1; 2; 3; 4; 5]%positive).

Lemma ready_heap_sorts_witness :
  (h ← push_all demo_store [] [3; 1; 5; 2; 4]%positive; pop_all 5 demo_store h) =
    Some [5; 4; 3; 2; 1]%positive ∧
  ∃ h out, push_all demo_store [] [3; 1; 5; 2; 4]%positive = Some h ∧
    pop_all 5 demo_store h = Some out ∧ out ≡ₚ [3; 1; 5; 2; 4]%positive ∧
    StronglySorted (λ a b, seq_of demo_store a ≤ seq_of demo_store b) out.
Proof.
  split; [vm_compute; reflexivity|].
  apply (ready_heap_sorts demo_store [3; 1; 5; 2; 4]%positive).
  apply Forall_forall. repeat constructor; eexists; vm_compute; reflexivity.
Defined.

(** ** Identifiers *)

(** IDs and receipts are read back.  An ID is sixteen characters and seqOf
    returns the counter value it was made of; bumpSeq raises the counter to the
    value behind an ID or a receipt, and never lowers it. *)
Theorem names_read_back seq n :
  0 ≤ n < 2 ^ 64 →
  String.length (fmt_hex16 n) = 16%nat ∧ seqOf (fmt_hex16 n) = n ∧
  bumped seq (fmt_hex16 n) = Z.max seq n ∧ bumped seq (receipt_of n) = Z.max seq n ∧
  ∀ id, seq ≤ bumped seq id.
Proof.
  intros Hn. split; [apply length_hex_digits|]. split; [by apply seqOf_fmt|].
  split; [by apply bumped_fmt|]. split; [by apply bumped_receipt|]. apply bumped_mono.
Qed.

Lemma names_read_back_witness :
  fmt_hex16 3735928559 = "00000000deadbeef" ∧
  String.length (fmt_hex16 3735928559) = 16%nat ∧ seqOf (fmt_hex16 3735928559) = 3735928559 ∧
  bumped 7 (fmt_hex16 3735928559) = Z.max 7 3735928559 ∧
  bumped 7 (receipt_of 3735928559) = Z.max 7 3735928559 ∧ ∀ id, 7 ≤ bumped 7 id.
Proof. split; [vm_compute; reflexivity|]. apply (names_read_back 7 3735928559). done. Defined.

(** ** Records *)

Lemma Validate_SetBody b r : Validate (SetBody b r) = Validate r.
Proof. unfold SetBody. by destruct (utf8_Valid b). Qed.

(** A body stored by SetBody is the one GetBody returns, whatever its bytes
    (text as it is, anything else in base64), and the rest of the record is as it
    was. *)
Theorem body_round_trip b r :
  GetBody (SetBody b r) = Ok b ∧ Validate (SetBody b r) = Validate r ∧
  (utf8_Valid b = true → String.list_ascii_of_string (r_Body (SetBody b r)) = b).
Proof.
  split; [apply GetBody_SetBody|]. split; [apply Validate_SetBody|].
  intros Hv. unfold SetBody. rewrite Hv. simpl. apply String.list_ascii_of_string_of_list_ascii.
Qed.

Lemma queue_named A n : awf A → is_Some (as_queues A !! n) → n ≠ "".
Proof. intros HA [q Hq] ->. by rewrite (aw_name _ HA) in Hq. Qed.

Lemma id_named A n id m : awf A → a_lookup A n id = Some m → id ≠ "".
Proof. by intros HA Hl; destruct (aw_msg _ HA _ _ _ Hl) as (_ & j & _ & ->). Qed.

(** Valid, or a receive whose deadline falls in the first millisecond of 1970. *)
Definition acceptable (r : WRecord) : Prop :=
  Validate r = None ∨ (r_Op r = OpReceive ∧ r_Deadline r = 0).

Lemma Validate_queue_op r : r_Op r ∈ queue_ops → r_Queue r ≠ "" → Validate r = None.
Proof.
  intros Hop Hq. unfold Validate. rewrite (decide_True _ _ Hop), decide_False by done.
  unfold queue_ops in Hop.
  rewrite !decide_False; [done|..]; intros [He _]; rewrite He in Hop; set_solver.
Qed.

Lemma Validate_message_op r :
  r_Op r ∈ message_ops → r_Queue r ≠ "" → r_ID r ≠ "" →
  (r_Op r = OpReceive → r_Deadline r ≠ 0) → (r_Op r = OpMove → r_To r ≠ "") → Validate r = None.
Proof.
  intros Hop Hq Hid Hd Ht. unfold Validate.
  rewrite (decide_False (P := r_Op r ∈ queue_ops)).
  2: { unfold message_ops, queue_ops in *. intros Hop'. set_unfold.
       destruct Hop' as [He|[He|[]]]; rewrite He in Hop; naive_solver. }
  rewrite (decide_True _ _ Hop), !decide_False; [done|tauto..|done|done].
Qed.

Lemma astep_acceptable `{ConfigJSON} A l B :
  awf A → astep A l B → Forall acceptable (label_records l).
Proof.
  intros HA Hst.
  assert (∀ n id m, a_lookup A n id = Some m → n ≠ "" ∧ id ≠ "") as Hmsg
    by (intros n id m Hl; split; eauto using queue_named, id_named, a_lookup_is_Some).
  destruct Hst as [n c ts Hn|n ts Hq|n s body ts delay Hq Hs|n id m s ts d (Hl & _) Hs
    |n id m r d ts Hl _|n id m r d ts Hl _|n id m r d d' ts Hl _|n id m c ts Hl
    |n id m c s ts Hl|n id m to s ts (Hl & _) _ Hto| |]; simpl;
    try apply Forall_nil_2; apply Forall_cons; (split; [|apply Forall_nil_2]);
    try (destruct (Hmsg _ _ _ Hl) as [Hn Hid]).
  4: { destruct (decide (ms d = 0)); [by right|left].
       by apply Validate_message_op; [set_solver|..]. }
  all: left.
  - by apply Validate_queue_op; [set_solver|].
  - apply Validate_queue_op; [set_solver|]. by eapply queue_named.
  - unfold rec_send. rewrite Validate_SetBody.
    apply Validate_message_op; [set_solver|by eapply queue_named|done..].
  - by apply Validate_message_op; [set_solver|..].
  - by apply Validate_message_op; [set_solver|..].
  - by apply Validate_message_op; [set_solver|..].
  - by apply Validate_message_op; [set_solver|..].
  - by apply Validate_message_op; [set_solver|..].
  - by apply Validate_message_op; [set_solver|..].
Qed.

Lemma asteps_acceptable `{ConfigJSON} A ls B :
  awf A → asteps A ls B → Forall acceptable (records ls).
Proof.
  intros HA Hsts. induction Hsts as [|A l B ls C Hst Hsts IH]; [constructor|].
  unfold records. simpl. apply Forall_app. split; [by eapply astep_acceptable|].
  apply IH. by eapply astep_awf.
Qed.

(** Every record that a run of the engine appends passes the validation that
    the log makes before it writes (a receive needs a deadline other than 0). *)
Theorem records_validate {L} `{Appender L, !LogLaws L, ConfigJSON} log env cs (w : world L) :
  runs (New log env) cs w →
  ∃ ls, evolves (New log env) ls w ∧ Forall acceptable (records ls).
Proof.
  intros Hr. destruct (runs_history (New log env) _ _ wf_empty Hr) as (ls & Hev). exists ls.
  split; [done|]. eapply asteps_acceptable; [exact (wf_abs _ wf_empty)|apply Hev].
Qed.

Lemma records_validate_witness :
  ∃ ls, evolves (demo_start []) ls demo ∧ Forall acceptable (records ls).
Proof. exact (records_validate _ _ _ _ demo_runs). Defined.

(** ** Configurations *)

(** ParseConfig lets only configurations in range through: a visibility
    timeout of more than zero and at most twelve hours, a limit of receives that is
    not negative, and a dead-letter queue with a valid name, if any. *)
Theorem ParseConfig_in_range `{ConfigJSON} b c :
  ParseConfig b = Ok c →
  0 < c_Visibility c ≤ MaxVisibility ∧ 0 ≤ c_MaxReceives c ∧
  (c_DeadLetter c = "" ∨ ValidName (c_DeadLetter c) = true).
Proof. intros [Hv Hm Hd]%ParseConfig_valid. done. Qed.

Lemma ParseConfig_in_range_witness :
  ParseConfig (Marshal_config jobs_cfg) = Ok jobs_cfg ∧
  0 < c_Visibility jobs_cfg ≤ MaxVisibility ∧ 0 ≤ c_MaxReceives jobs_cfg ∧
  (c_DeadLetter jobs_cfg = "" ∨ ValidName (c_DeadLetter jobs_cfg) = true).
Proof.
  assert (ParseConfig (Marshal_config jobs_cfg) = Ok jobs_cfg) as Hp by (vm_compute; reflexivity).
  split; [exact Hp|]. exact (ParseConfig_in_range _ _ Hp).
Defined.

(** A configuration in range survives its own encoding, which is how it
    travels through the log: CreateQueue writes it and replay parses it. *)
Theorem config_round_trip `{ConfigJSON, !ConfigJSONLaws} c :
  valid_config c → c_MaxReceives c < 2 ^ 63 → ParseConfig (Marshal_config c) = Ok c.
Proof. apply ParseConfig_Marshal. Qed.

Lemma config_round_trip_witness :
  valid_config jobs_cfg ∧ ParseConfig (Marshal_config jobs_cfg) = Ok jobs_cfg.
Proof.
  assert (valid_config jobs_cfg) as Hv.
  { split; [by vm_compute|by vm_compute|right; vm_compute; reflexivity]. }
  split; [exact Hv|]. apply (config_round_trip jobs_cfg Hv). vm_compute. reflexivity.
Defined.

(** ValidName accepts exactly the names of 1 to 120 characters that start with
    a letter or a digit and go on with letters, digits, dots, underscores and
    hyphens. *)
Theorem ValidName_exact s :
  ValidName s = true ↔
  ∃ c s', s = String c s' ∧ name_first c = true ∧
    Forall (λ c, name_rest c = true) (String.list_ascii_of_string s') ∧
    (String.length s ≤ 120)%nat.
Proof. apply ValidName_spec. Qed.
