(* ===== verification/Loggable.v ===== *)
(** The records that the engine writes survive the log: every string in them is
    valid UTF-8 and every configuration is plain JSON, so that the text of a record
    is read back as the record. *)

From S2P Require Import Prelude Ids WalRecord Json JsonValue JsonLine JsonStruct WalJson Wal Config Message.
From S2P Require Import Engine Spec Invariant Refine RefineTime Trace Replay RefineLoad Runs ConfigWire Instances.
From S2P Require Import Components Demo Recovery.
From stdpp Require Import fin_maps.

Local Open Scope Z_scope.

(** ** Strings *)

Lemma plain_is_utf8 s : Forall plain_char (bytes_of s) → utf8 s = true.
Proof. intros Hp. by apply plain_quote_body. Qed.

Lemma fmt_utf8 n : utf8 (fmt_hex16 n) = true.
Proof. apply plain_is_utf8, fmt_plain. Qed.

Lemma receipt_utf8 n : utf8 (receipt_of n) = true.
Proof. apply plain_is_utf8. constructor; [done|apply fmt_plain]. Qed.

Lemma name_utf8 s : ValidName s = true → utf8 s = true.
Proof. intros Hs. by apply plain_is_utf8, ValidName_plain. Qed.

Lemma b64_char_plain v : 0 ≤ v < 64 → plain_char (b64_char v).
Proof.
  intros Hv. apply Is_true_true_2. revert v Hv.
  apply (digit64_ind (λ v, plain_char (b64_char v) = true)). by repeat constructor.
Qed.

Lemma b64_plain p : Forall plain_char (b64_encode p).
Proof.
  induction p as [|a|a b|a b c p IH] using bytes3_ind; cbn [b64_encode];
    try pose proof (code_range a); try pose proof (code_range b);
    try pose proof (code_range c);
    repeat (constructor; [first [done|apply b64_char_plain; zdiv]|]); done.
Qed.

Lemma list_string p : bytes_of (String.string_of_list_ascii p) = p.
Proof. apply String.list_ascii_of_string_of_list_ascii. Qed.

(** ** Times *)

(** The times in a record are [int64], as their type in the program says. *)
Definition times_fit (r : WRecord) : bool :=
  int64 (r_TS r) && int64 (r_NBF r) && int64 (r_Deadline r).

Definition survives (r : WRecord) : Prop := times_fit r = true → loggable r.

(** A record from its strings and its count. *)
Lemma survives_intro op q id body b64 ts nbf deadline receipt count to cfg :
  utf8 op = true → utf8 q = true → utf8 id = true → utf8 body = true → utf8 b64 = true →
  utf8 receipt = true → int64 count = true → utf8 to = true → cfg = [] ∨ plain_json cfg →
  survives (mkRecord op q id body b64 ts nbf deadline receipt count to cfg).
Proof.
  intros. intros Ht. unfold times_fit in Ht. cbn in Ht. rewrite !andb_true_iff in Ht.
  by destruct Ht as [[? ?] ?].
Qed.

Lemma survives_SetBody b q id ts nbf :
  utf8 q = true → utf8 id = true → survives (rec_send q id b ts nbf).
Proof.
  intros Hq Hid. unfold rec_send, SetBody. destruct (utf8_Valid b) eqn:Hb;
    apply survives_intro; try done; try (by left).
  - unfold utf8. by rewrite list_string.
  - unfold utf8. rewrite list_string. apply plain_quote_body, b64_plain.
Qed.

(** ** Names in the states of the machine *)

Record names_valid (A : astate) : Prop := {
  nv_queue n : is_Some (as_queues A !! n) → ValidName n = true;
  nv_receipt n id m r d :
    a_lookup A n id = Some m → a_Status m = ALeased r d → ∃ s, r = receipt_of s;
}.

Lemma names_valid_empty : names_valid a_empty.
Proof. split; [by intros n [? ?]|done]. Qed.

(** No new queue, and no lease but those of [A]. *)
Lemma names_valid_sub A B :
  names_valid A →
  (∀ n, is_Some (as_queues B !! n) → is_Some (as_queues A !! n)) →
  (∀ n id m r d, a_lookup B n id = Some m → a_Status m = ALeased r d →
     ∃ n' id' m' d', a_lookup A n' id' = Some m' ∧ a_Status m' = ALeased r d') →
  names_valid B.
Proof.
  intros [Hq Hr] Hqs Hls. split; [auto|]. intros n id m r d Hl Hst.
  destruct (Hls _ _ _ _ _ Hl Hst) as (n' & id' & m' & d' & ? & ?). eauto.
Qed.

(** A message is put into a queue: it is not leased, or its receipt is fine. *)
Lemma names_valid_put A n id m s :
  names_valid A → is_Some (as_queues A !! n) →
  (∀ r d, a_Status m = ALeased r d → ∃ s, r = receipt_of s) →
  names_valid (a_put n id m (a_set_seq s A)).
Proof.
  intros [Hq Hr] Hn Hm. split.
  - intros n' ?%as_queues_is_Some_put. by apply Hq.
  - intros n' id' m' r d. rewrite a_lookup_put by done. rewrite a_lookup_set_seq.
    case_decide; [intros [= <-]; apply Hm|apply Hr].
Qed.

Lemma names_valid_del A n id : names_valid A → names_valid (a_del n id A).
Proof.
  intros HA. eapply names_valid_sub; [exact HA|intros n'; apply as_queues_is_Some_del|].
  intros n' id' m r d. rewrite a_lookup_del. case_decide; [done|]. eauto 8.
Qed.

Lemma names_valid_step A l B :
  names_valid A → cfgs_parsed A → astep A l B → names_valid B.
Proof.
  intros HA Hcfg Hst. pose proof HA as [Hq Hr].
  destruct Hst as [n c ts Hn Hnm|n ts Hn|n s body ts delay Hn Hs|n id m s ts d (Hl & _) Hs
    |n id m r d ts Hl Hst|n id m r d ts Hl Hst|n id m r d d' ts Hl Hst|n id m c ts Hl
    |n id m c s ts Hl _ _ _ _ Hto Hs|n id m to s ts (Hl & _) _ _ Hto Hs
    |n id m c at_ Hl Hst Hdue|s Hs].
  - split.
    + intros n' Hn'. destruct (decide (n' = n)) as [->|Hne].
      * destruct Hnm as [?|(n0 & c0 & Hc0 & Hdl)]; [done|].
        destruct (Hcfg _ _ Hc0) as [[_ _ [He|?]] _]; [|congruence]. congruence.
      * apply Hq. unfold a_create in Hn'. simpl in Hn'.
        by rewrite lookup_partial_alter_ne in Hn' by done.
    + intros n' id' m r d. rewrite a_lookup_create. apply Hr.
  - eapply names_valid_sub; [exact HA| |].
    + intros n' [q Hq']. unfold a_delete in Hq'. simpl in Hq'.
      apply lookup_delete_Some in Hq' as [_ ?]. by exists q.
    + intros n' id' m r d. rewrite a_lookup_delete. case_decide; [done|]. eauto 8.
  - apply names_valid_put; [done..|]. simpl. by destruct (0 <? delay).
  - apply names_valid_put; [done|by eapply a_lookup_is_Some|]. intros r d' [= <- <-]. eauto.
  - by apply names_valid_del.
  - rewrite a_put_seq. apply names_valid_put; [done|by eapply a_lookup_is_Some|done].
  - rewrite a_put_seq. apply names_valid_put; [done|by eapply a_lookup_is_Some|].
    intros r' d'' [= <- <-]. eauto.
  - by apply names_valid_del.
  - apply names_valid_put; [by apply names_valid_del|by apply as_queues_is_Some_del|done].
  - apply names_valid_put; [by apply names_valid_del|by apply as_queues_is_Some_del|done].
  - rewrite a_put_seq. apply names_valid_put; [done|by eapply a_lookup_is_Some|done].
  - eapply names_valid_sub; [exact HA|done|]. eauto 8.
Qed.

(** ** The records of a history *)

Section records.
Context `{!ConfigJSON} `{!ConfigJSONLaws}.

Lemma astep_survives A l B (Q : Z → Prop) :
  awf A → names_valid A → cfgs_parsed A → step_within parsed Q l → astep A l B →
  Forall survives (label_records l).
Proof.
  intros HA [Hq Hr] Hcfg Hw Hst.
  assert (∀ n id m, a_lookup A n id = Some m → utf8 n = true ∧ utf8 id = true) as Hmsg.
  { intros n id m Hl. split; [eapply name_utf8, Hq, a_lookup_is_Some, Hl|].
    destruct (aw_msg _ HA _ _ _ Hl) as (_ & j & _ & ->). apply fmt_utf8. }
  assert (∀ n, is_Some (as_queues A !! n) → utf8 n = true) as Hqn by eauto using name_utf8.
  assert (∀ n id m r d, a_lookup A n id = Some m → a_Status m = ALeased r d → utf8 r = true)
    as Hrc.
  { intros n id m r d Hl Hst'. destruct (Hr _ _ _ _ _ Hl Hst') as [s ->]. apply receipt_utf8. }
  destruct Hst as [n c ts Hn Hnm|n ts Hn|n s body ts delay Hn Hs|n id m s ts d (Hl & _) Hs
    |n id m r d ts Hl Hst|n id m r d ts Hl Hst|n id m r d d' ts Hl Hst|n id m c ts Hl
    |n id m c s ts Hl _ _ _ _ Hto Hs|n id m to s ts (Hl & _) _ _ Hto Hs
    |n id m c at_ Hl Hst Hdue|s Hs]; cbn [label_records]; try apply Forall_nil_2;
    (apply Forall_cons; split; [|apply Forall_nil_2]);
    try (destruct (Hmsg _ _ _ Hl) as [Hn Hid]);
    try (pose proof (Hrc _ _ _ _ _ Hl Hst) as Hreceipt).
  1: { destruct Hw as [Hv Hm]. apply survives_intro; try done.
       - apply name_utf8. destruct Hnm as [?|(n0 & c0 & Hc0 & Hdl)]; [done|].
         destruct (Hcfg _ _ Hc0) as [[_ _ [He|?]] _]; congruence.
       - right. by apply Marshal_config_plain. }
  2: { apply survives_SetBody; [by apply Hqn|apply fmt_utf8]. }
  all: apply survives_intro; try done; try (by left); auto using receipt_utf8.
  pose proof (i64_range (a_Receives m + 1)). unfold int64. lia.
Qed.

Lemma asteps_survive A ls B (Q : Z → Prop) :
  asteps A ls B → awf A → names_valid A → cfgs_parsed A →
  Forall (step_within parsed Q) ls →
  Forall survives (records ls) ∧ names_valid B.
Proof.
  induction 1 as [A|A l B ls C Hst _ IH]; intros HA Hn Hc Hw; [by split|].
  apply Forall_cons in Hw as [Hl Hw].
  destruct IH as [Hr HC]; [by eapply astep_awf|by eapply names_valid_step|
    by eapply step_parsed|done|].
  split; [|done]. change (records (l :: ls)) with (label_records l ++ records ls).
  apply Forall_app. split; [by eapply astep_survives|done].
Qed.
End records.

(** ** Names in the states that replay builds *)

(** What a step says about names. *)
Definition label_named (l : label) : Prop :=
  match l with
  | LCreate n _ _ => ValidName n = true
  | LRecv _ _ r _ _ _ => ∃ s, r = receipt_of s
  | _ => True
  end.

Lemma astep_label_named A l B :
  names_valid A → cfgs_parsed A → astep A l B → label_named l.
Proof.
  intros HA Hcfg Hst. destruct Hst; simpl; try done; [|by eexists].
  match goal with H : a_named _ _ |- _ => destruct H as [?|(n0 & c0 & Hc0 & Hdl)] end; [done|].
  destruct (Hcfg _ _ Hc0) as [[_ _ [He|?]] _]; congruence.
Qed.

Lemma asteps_label_named A ls B (Q : Z → Prop) :
  asteps A ls B → names_valid A → cfgs_parsed A → Forall (step_within parsed Q) ls →
  Forall label_named ls.
Proof.
  induction 1 as [A|A l B ls C Hst _ IH]; intros Hn Hc Hw; [done|].
  apply Forall_cons in Hw as [Hl Hw]. constructor; [by eapply astep_label_named|].
  apply IH; [by eapply names_valid_step|by eapply step_parsed|done].
Qed.

Lemma names_valid_set_seq A s : names_valid A → names_valid (a_set_seq s A).
Proof. by intros [Hq Hr]. Qed.

Lemma names_valid_put_any A n id m s :
  names_valid A → (∀ r d, a_Status m = ALeased r d → ∃ s, r = receipt_of s) →
  names_valid (a_put n id m (a_set_seq s A)).
Proof.
  intros HA Hm. destruct (as_queues A !! n) as [q|] eqn:Hq; [by apply names_valid_put|].
  assert (a_put n id m (a_set_seq s A) = a_set_seq s A) as ->; [|by apply names_valid_set_seq].
  unfold a_put, a_set_seq. simpl. f_equal. apply map_eq. intros n'. rewrite lookup_alter.
  case_decide; subst; [|done]. by rewrite Hq.
Qed.

Lemma names_valid_update A n id f :
  names_valid A →
  (∀ m r d, a_lookup A n id = Some m → a_Status (f m) = ALeased r d → ∃ s, r = receipt_of s) →
  names_valid (update_msg n id f A).
Proof.
  intros HA Hf. unfold update_msg. destruct (a_lookup A n id) as [m|] eqn:Hl; [|done].
  rewrite a_put_seq. apply names_valid_put_any; [done|]. intros r d. by apply Hf.
Qed.

Lemma names_valid_transfer A n id to f :
  names_valid A → (∀ s m, a_Status (f s m) = AReady) →
  names_valid (replay_transfer n id to f A).
Proof.
  intros HA Hf. unfold replay_transfer. destruct (a_lookup A n id) as [m|]; [|done].
  case_decide; [by apply names_valid_del|].
  apply names_valid_put_any; [by apply names_valid_del|]. intros r d. by rewrite Hf.
Qed.

Lemma names_valid_replay_label l R :
  label_named l → names_valid R → names_valid (replay_label l R).
Proof.
  intros Hl HR. pose proof HR as [Hq Hr]. destruct l; simpl in *; try done.
  - split.
    + intros n' Hn'. destruct (decide (n' = q)) as [->|Hne]; [done|].
      apply Hq. unfold a_create in Hn'. simpl in Hn'. by rewrite lookup_partial_alter_ne in Hn'.
    + intros n' id' m r d. rewrite a_lookup_create. apply Hr.
  - eapply names_valid_sub; [exact HR| |].
    + intros n' [q' Hq']. unfold a_delete in Hq'. simpl in Hq'.
      apply lookup_delete_Some in Hq' as [_ ?]. by exists q'.
    + intros n' id' m r d. rewrite a_lookup_delete. case_decide; [done|]. eauto 8.
  - by apply names_valid_put_any.
  - apply names_valid_set_seq, names_valid_update; [done|]. intros m r d _ [= <- <-]. done.
  - by apply names_valid_del.
  - by apply names_valid_update.
  - apply names_valid_update; [done|]. intros m r d Hm. unfold am_extend.
    destruct (a_Status m) as [| |r0 d0] eqn:Hs; simpl; try congruence.
    intros [= <- <-]. by eapply Hr.
  - by apply names_valid_transfer.
  - by apply names_valid_transfer.
Qed.

Lemma names_valid_replay ls : ∀ R,
  Forall label_named ls → names_valid R → names_valid (replay_labels ls R).
Proof.
  induction ls as [|l ls IH]; intros R Hls HR; [done|]. apply Forall_cons in Hls as [Hl Hls].
  apply IH; [done|]. by apply names_valid_replay_label.
Qed.

Lemma names_valid_restores A R : names_valid A → RefineSnap.restores A R → names_valid R.
Proof.
  intros [Hq Hr] [_ Hc Hl _]. split.
  - intros n [q Hn]. apply Hq, a_cfg_is_Some. rewrite <-Hc. apply a_cfg_is_Some. eauto.
  - intros n id m r d. rewrite Hl. destruct (a_lookup A n id) as [m0|] eqn:Hm; [|done].
    intros [= <-]. simpl. destruct (a_Status m0) eqn:Hs; simpl; try done.
    intros [= <- <-]. by eapply Hr.
Qed.

(** ** The records of a snapshot *)

Section snapshot.
Context `{!ConfigJSON} `{!ConfigJSONLaws}.

Lemma snapshot_message_survives A n m :
  awf A → names_valid A → a_lookup A n (m_ID m) = Some (abs_msg m) →
  Forall survives (snapshot_message n m).
Proof.
  intros HA [Hq Hr] Hl.
  assert (utf8 n = true) as Hn by eapply name_utf8, Hq, a_lookup_is_Some, Hl.
  assert (utf8 (m_ID m) = true) as Hid.
  { destruct (aw_msg _ HA _ _ _ Hl) as (_ & j & _ & ->). apply fmt_utf8. }
  assert (int64 (m_Receives m) = true) as Hrc.
  { pose proof (aw_recv _ HA _ _ _ Hl) as Hi. simpl in Hi. rewrite <-Hi.
    pose proof (i64_range (m_Receives m)). unfold int64. lia. }
  unfold snapshot_message. constructor.
  - unfold SetBody. destruct (utf8_Valid (m_Body m)) eqn:Hb; apply survives_intro; try done;
      try (by left); try (by case_decide).
    + unfold utf8. by rewrite list_string.
    + unfold utf8. rewrite list_string. apply plain_quote_body, b64_plain.
  - destruct (decide (m_state m = stateLeased)) as [Hs|]; [|done].
    constructor; [|done]. apply survives_intro; try done; [|by left].
    destruct (Hr n (m_ID m) (abs_msg m) (m_Receipt m) (m_Deadline m) Hl) as [s ->];
      [|apply receipt_utf8]. simpl. unfold abs_status. by rewrite Hs.
Qed.

Lemma snapshot_queues_survive k names recs :
  wf k → names_valid (abs k) → cfgs_parsed (abs k) → snapshot_queues k names = Some recs →
  Forall survives recs.
Proof.
  intros Hk Hn Hc. revert recs. induction names as [|n names IH]; intros recs Hrecs.
  { by injection Hrecs as <-. }
  simpl in Hrecs. destruct (k_queues k !! n) as [q|] eqn:Hq; [|done]. simpl in Hrecs.
  destruct (snapshot_queue _ n q) as [recs1|] eqn:H1; [|done]. simpl in Hrecs.
  destruct (snapshot_queues k names) as [rest|]; [|done]. injection Hrecs as <-.
  apply Forall_app. split; [|by apply IH].
  destruct (RefineSnap.snapshot_queue_ok k n q Hk Hq) as (msgs & Hsnap & _ & _ & Hall & _).
  rewrite Hsnap in H1. injection H1 as <-. constructor.
  - assert (a_cfg (abs k) n = Some (q_cfg q)) as Hcfg by by rewrite a_cfg_abs, Hq.
    destruct (Hc _ _ Hcfg) as [Hv Hm]. apply survives_intro; try done.
    + apply name_utf8. destruct Hn as [Hn _]. apply Hn, abs_queues_is_Some. eauto.
    + right. by apply Marshal_config_plain.
  - apply Forall_concat, Forall_fmap, Forall_forall. intros m Hm.
    eapply snapshot_message_survives; [apply Hk|done|by apply Hall].
Qed.
End snapshot.

(** ** Every record in the log of a life *)

Section lives.
Context {L : Type} `{!Appender L} `{!LogLaws L} `{!ConfigJSON} `{!ConfigJSONLaws}.
Implicit Types w : world L.

Lemma alive_survives c w0 cs w recs ls :
  alive c w0 cs w recs ls → names_valid (abs (w_core w0)) → Forall survives recs →
  names_valid (abs (w_core w)) ∧ Forall survives (recs ++ records ls) ∧
  names_valid (replay_labels ls (abs (w_core w0))).
Proof.
  intros [[Hwf _ _ Hpar _ _] _ _ Hst Hwi] Hn Hr.
  destruct (asteps_survive _ _ _ _ Hst (wf_abs _ Hwf) Hn Hpar Hwi) as [Hrs Hn'].
  split; [done|]. split; [by apply Forall_app|].
  apply names_valid_replay; [|done]. by eapply asteps_label_named.
Qed.

Lemma life_survives c w0 cs w :
  life c w0 cs w →
  ∃ recs ls, alive c w0 cs w recs ls ∧ names_valid (abs (w_core w0)) ∧ Forall survives recs.
Proof.
  induction 1 as [log env cs w Hc Hr Hcs|w0 cs w l l' env w1 cs' w' _ IH Hl Hc Hload Hr Hcs
    |w0 cs w l l1 env1 w1 snap l' env w2 cs' w' -> _ IH Hl Hc1 Hload1 Hsnap Hc Hload Hr Hcs].
  - destruct (started_alive c _ _ _ _ (first_started c log env Hc) Hr Hcs) as (ls & Hal).
    exists [], ls. split; [done|]. split; [|done].
    unfold New, abs. simpl. rewrite fmap_empty. apply names_valid_empty.
  - destruct IH as (recs & ls & Hal & Hn & Hsv).
    destruct (alive_survives _ _ _ _ _ _ Hal Hn Hsv) as (_ & Hsv' & HnR).
    pose proof (al_log _ _ _ _ _ _ Hal _ Hl) as Hrecs.
    destruct (alive_reloaded _ _ _ _ _ _ Hal) as (Hre & Hpar & Hnames & _).
    rewrite Hrecs in *.
    destruct (rebuilds_started _ _ _ _ _ _ Hre Hpar Hnames Hc Hload) as [Hst HR].
    destruct (started_alive _ _ _ _ _ Hst Hr Hcs) as (ls' & Hal').
    exists (recs ++ records ls), ls'. split; [done|]. by rewrite HR.
  - destruct IH as (recs & ls & Hal & Hn & Hsv).
    destruct (alive_survives _ _ _ _ _ _ Hal Hn Hsv) as (_ & _ & HnR).
    pose proof (al_log _ _ _ _ _ _ Hal _ Hl) as Hrecs.
    destruct (alive_reloaded _ _ _ _ _ _ Hal) as (Hre & Hpar & Hnames & _).
    rewrite Hrecs in *.
    destruct (rebuilds_started _ _ _ _ _ _ Hre Hpar Hnames Hc1 Hload1) as [[Hwf1 _ _ Hpar1 _ _] HR1].
    rewrite <-HR1 in HnR.
    destruct (Snapshot_reloaded _ _ Hwf1 Hpar1 Hsnap) as (R & Hre2 & Hpar2 & Hrs).
    assert (true = false → ids_ok snap R ∧ receipts_ok snap R) as Hno by done.
    destruct (rebuilds_started _ _ _ _ _ _ Hre2 Hpar2 Hno Hc Hload) as [Hst2 HR2].
    destruct (started_alive _ _ _ _ _ Hst2 Hr Hcs) as (ls' & Hal').
    exists snap, ls'. split; [done|]. rewrite HR2. split; [by eapply names_valid_restores|].
    unfold Snapshot, get_core, go_opt, mbind, GoM_bind in Hsnap.
    destruct (snapshot_queues _ _) as [sn|] eqn:Hsq; [|done]. injection Hsnap as ->.
    by eapply snapshot_queues_survive.
Qed.
End lives.
