(* ===== verification/FileLog.v ===== *)
(** The engine on its log file: the log of [Wal] implements the interface that the
    engine is proved against, as long as the machine does not stop and fsync does
    not fail; and what is left when the machine stops. *)

From S2P Require Import Prelude Ids WalRecord Json JsonValue JsonLine JsonStruct WalJson Os OsFacts Wal.
From S2P Require Import WalFacts WalCrash WalCompact WalOpen.
From S2P Require Import Config Message Engine Spec Invariant Refine RefineTime Trace Replay.
From S2P Require Import RefineLoad Runs ConfigWire Instances Components Demo Recovery Loggable.

Local Open Scope Z_scope.

(** ** The interface *)

(** An open log, with the records that were appended and those that are on the disk
    for certain. *)
Record file_log_ok (s : os) (l : Log) (safe recs : list WRecord) : Prop := {
  fk_calm : calm s;
  fk_holds : log_holds s l safe recs;
  fk_sync : l_syncEach l = true → safe = recs;
  fk_valid : Forall (λ r, Validate r = None) recs;
}.

Record FileLog := mkFileLog {
  fl_os : os;
  fl_log : Log;
  fl_safe : list WRecord;
  fl_recs : list WRecord;
  fl_ok : file_log_ok fl_os fl_log fl_safe fl_recs;
}.

Lemma Append_log_valid r l s l' s' :
  Append_log r l s = (Returns (l', None), s') → Validate r = None.
Proof. unfold Append_log. by destruct (Validate r). Qed.

Lemma append_ok s l safe recs r l' s' :
  file_log_ok s l safe recs → Append_log r l s = (Returns (l', None), s') →
  file_log_ok s' l' (if l_syncEach l then recs ++ [r] else safe) (recs ++ [r]).
Proof.
  intros [Hc Hh Hs Hv] E.
  destruct (io_use _ _ _ _ _ _ (io_Append _ _ _ _ r Hh) E) as (_ & Hsy & Hcalm & _ & Hh').
  cbn [fst snd] in *. destruct Hh' as [Hh' _].
  split; [by apply Hcalm|done|rewrite Hsy; by destruct (l_syncEach l)|].
  apply Forall_app. split; [done|]. constructor; [|done]. by eapply Append_log_valid.
Qed.

Lemma append_err s l safe recs r l' e s' :
  file_log_ok s l safe recs → Append_log r l s = (Returns (l', Some e), s') →
  file_log_ok s' l' safe recs.
Proof.
  intros [Hc Hh Hs Hv] E.
  destruct (io_use _ _ _ _ _ _ (io_Append _ _ _ _ r Hh) E) as (_ & Hsy & Hcalm & _ & Hh').
  cbn [fst snd] in *. destruct Hh' as [_ [Hh'|(_ & Hn & _)]]; [|by destruct Hn; apply calm_flushes].
  split; [by apply Hcalm|done|by rewrite Hsy|done].
Qed.

Lemma append_returns {A : Type} s l safe recs r s' :
  file_log_ok s l safe recs →
  Append_log r l s = (Dies, s') ∨ Append_log r l s = (Panics, s') → A.
Proof.
  intros [Hc Hh Hs Hv] E. exfalso. pose proof (io_Append _ _ _ _ r Hh) as Hio. unfold io in Hio.
  destruct E as [E|E]; rewrite E in Hio; [|done]. by destruct Hio.
Qed.

Definition Append_file (r : WRecord) (fl : FileLog) : option error * FileLog :=
  match Append_log r (fl_log fl) (fl_os fl) as o
    return Append_log r (fl_log fl) (fl_os fl) = o → option error * FileLog with
  | (Returns (l', None), s') => λ E,
      (None, mkFileLog s' l' _ _ (append_ok _ _ _ _ _ _ _ (fl_ok fl) E))
  | (Returns (l', Some e), s') => λ E,
      (Some e, mkFileLog s' l' _ _ (append_err _ _ _ _ _ _ _ _ (fl_ok fl) E))
  | (Dies, s') => λ E, append_returns _ _ _ _ _ _ (fl_ok fl) (or_introl E)
  | (Panics, s') => λ E, append_returns _ _ _ _ _ _ (fl_ok fl) (or_intror E)
  end eq_refl.

#[export] Instance FileLog_Appender : Appender FileLog := Append_file.

Lemma Append_file_recs r fl :
  match Append_file r fl with
  | (None, fl') => fl_recs fl' = fl_recs fl ++ [r]
  | (Some _, fl') => fl_recs fl' = fl_recs fl
  end.
Proof.
  unfold Append_file. generalize (eq_refl (Append_log r (fl_log fl) (fl_os fl))).
  generalize (Append_log r (fl_log fl) (fl_os fl)) at 2 3 as o.
  intros [[[l' [e|]]| |] s'] E; [done|done| |].
  - exact (append_returns _ _ _ _ _ _ (fl_ok fl) (or_introl E)).
  - exact (append_returns _ _ _ _ _ _ (fl_ok fl) (or_intror E)).
Qed.

#[export, refine] Instance FileLog_Laws : LogLaws FileLog := { committed := fl_recs }.
Proof.
  - intros r fl fl' E. pose proof (Append_file_recs r fl) as H.
    unfold Append, FileLog_Appender in E. by rewrite E in H.
  - intros r fl fl' e E. pose proof (Append_file_recs r fl) as H.
    unfold Append, FileLog_Appender in E. by rewrite E in H.
Defined.

(** ** A crash *)

(** A cut of the records of a history is made between two of its steps. *)
Lemma records_cut `{!ConfigJSON} ls recs :
  recs `prefix_of` records ls → ∃ ls1 ls2, ls = ls1 ++ ls2 ∧ recs = records ls1.
Proof.
  revert recs. induction ls as [|l ls IH]; intros recs Hp.
  - apply prefix_nil_inv in Hp as ->. by exists [], [].
  - change (records (l :: ls)) with (label_records l ++ records ls) in Hp.
    assert (recs = [] ∨ ∃ recs', recs = label_records l ++ recs' ∧ recs' `prefix_of` records ls)
      as [->|(recs' & -> & Hp')].
    { destruct (label_records_cases l) as [[He _]|[r He]]; rewrite He in *; [by right; exists recs|].
      destruct recs as [|r' recs]; [by left|]. right.
      destruct Hp as [k Hk]. injection Hk as -> Hk. exists recs. split; [done|]. by exists k. }
    + by exists [], (l :: ls).
    + destruct (IH _ Hp') as (ls1 & ls2 & -> & ->). by exists (l :: ls1), ls2.
Qed.

Section crash.
Context `{!ConfigJSON} `{!ConfigJSONLaws}.
Implicit Types w : world FileLog.

(** What an engine is started on is on the disk. *)
Definition start_on_disk w0 (fl : FileLog) : Prop :=
  ∀ fl0, w_log w0 = Some fl0 → fl_recs fl0 `prefix_of` fl_safe fl.

Lemma fl_readable fl :
  Forall survives (fl_recs fl) → Forall (λ r, times_fit r = true) (fl_recs fl) →
  Forall readable_record (fl_recs fl).
Proof.
  intros Hs Ht. pose proof (fk_valid _ _ _ _ (fl_ok fl)) as Hv.
  rewrite Forall_forall in Hs, Ht, Hv. apply Forall_forall. intros r Hr.
  split; [by apply Hs, Ht|by apply Hv].
Qed.

(** What an engine is loaded into from a log that is cut after what was there when it
    was started: the state [B] that the engine had at some time. *)
Lemma life_cut c w0 cs w fl recs :
  life c w0 cs w → w_log w = Some fl →
  (∀ fl0, w_log w0 = Some fl0 → fl_recs fl0 `prefix_of` recs) → recs `prefix_of` fl_recs fl →
  ∀ log' env', ∃ w', Load recs (New log' env') = Some (None, w') ∧ wf (w_core w') ∧
    cfgs_parsed (abs (w_core w')) ∧ names_valid (abs (w_core w')) ∧
    ∃ ls1 ls2 B, asteps (abs (w_core w0)) ls1 B ∧ asteps B ls2 (abs (w_core w)) ∧
      (recs = fl_recs fl → B = abs (w_core w)) ∧
      ∀ T, 0 ≤ T → seen_by T w cs → sim T B (abs (w_core w')).
Proof.
  intros Hlife Hlog Hstart Hall.
  destruct (life_survives _ _ _ _ Hlife) as (recs0 & ls & Hal & Hn & Hsv).
  pose proof (al_log _ _ _ _ _ _ Hal _ Hlog) as Hrecs. cbn in Hrecs.
  pose proof Hal as [Hst _ _ Hsteps Hwi].
  pose proof Hst as [Hwf0 (l0 & Hl0 & Hrecs0) Hre Hpar _ _].
  specialize (Hstart _ Hl0). cbn in Hrecs0. rewrite Hrecs0 in Hstart.
  destruct Hstart as [recs' ->]. rewrite Hrecs in Hall. apply prefix_app_inv in Hall as Hcut.
  assert (∃ ls1 ls2, ls = ls1 ++ ls2 ∧ recs' = records ls1 ∧
            (recs0 ++ recs' = fl_recs fl → ls2 = [])) as (ls1 & ls2 & -> & -> & Hwhole).
  { destruct (decide (recs' = records ls)) as [->|Hne].
    - exists ls, []. by rewrite app_nil_r.
    - destruct (records_cut _ _ Hcut) as (ls1 & ls2 & -> & ->). exists ls1, ls2.
      split; [done|]. split; [done|]. rewrite Hrecs. intros He%app_inv_head. done. }
  destruct (asteps_app_inv _ _ _ _ Hsteps) as (B & Hst1 & Hst2).
  apply Forall_app in Hwi as [Hwi1 _].
  assert (rebuilds (L:=FileLog) (recs0 ++ records ls1) (replay_labels ls1 (abs (w_core w0)))) as Hre'.
  { eapply rebuilds_app; [exact Hre|apply wf_abs, Hwf0|exact Hst1|by eapply within_readable]. }
  intros log' env'. destruct (wp_elim _ _ _ (Hre' log' env')) as (err & w' & Hload & -> & k & -> & Hk & Ha).
  pose proof (wf_abs _ Hwf0) as HA.
  eexists. split; [exact Hload|]. split; [done|]. simpl. rewrite Ha. split; [|split].
  { destruct (settled_bound ls1) as (T & HT & Hset).
    pose proof (sim_history _ _ _ _ _ HA (sim_refl T _ HA) HT Hset Hst1) as Hs.
    intros n c0. rewrite (si_cfg _ _ _ Hs). by eapply steps_parsed. }
  { apply names_valid_replay; [|done]. by eapply asteps_label_named. }
  exists ls1, ls2, B. split; [done|]. split; [done|]. split.
  - intros He. specialize (Hwhole He) as ->. by inversion Hst2.
  - intros T HT Hseen. eapply sim_history; [exact HA|by apply sim_refl|done| |done].
    by eapply within_settled.
Qed.

(** The records of a running engine are read back. *)
Lemma life_readable c w0 cs w fl :
  life c w0 cs w → w_log w = Some fl → Forall (λ r, times_fit r = true) (fl_recs fl) →
  Forall readable_record (fl_recs fl).
Proof.
  intros Hlife Hlog Htf. destruct (life_survives _ _ _ _ Hlife) as (recs0 & ls & Hal & Hn & Hsv).
  destruct (alive_survives _ _ _ _ _ _ Hal Hn Hsv) as (_ & Hsv' & _).
  pose proof (al_log _ _ _ _ _ _ Hal _ Hlog) as Hrecs. cbn in Hrecs.
  rewrite <-Hrecs in Hsv'. by apply fl_readable.
Qed.
End crash.
