(* ===== verification/WalDemo.v ===== *)
(** A log on a small machine: the state after Open in an empty directory and one
    Append, and an engine that runs on such a log.  The theorems about the log file
    are instantiated on them. *)

From S2P Require Import Prelude Ids WalRecord Json JsonValue JsonLine JsonStruct WalJson Os OsFacts Wal.
From S2P Require Import WalFacts WalCrash WalCompact WalOpen.
From S2P Require Import Config Message Engine Spec Invariant Refine RefineTime Trace Replay.
From S2P Require Import RefineLoad Runs ConfigWire Instances Components Demo Recovery Loggable FileLog.

Local Open Scope Z_scope.

(** ** A log *)

(** An empty directory; every call succeeds. *)
Definition machine : os := mkOs ∅ ∅ ∅ 0 [] [] ["1"; "2"].

Definition hello : WRecord :=
  SetBody (text "hello") (mkRecord OpSend "jobs" id1 "" "" 1700000000000000000 0 0 "" 0 "" []).

Definition world_record : WRecord :=
  SetBody (text "world") (mkRecord OpSend "jobs" id2 "" "" 1700000001000000000 0 0 "" 0 "" []).

Definition no_log : Log := mkLog "" 0 (NewWriter 0) false.

(** The result of a call, and the state after it. *)
Definition result_of {A B} (f : A → B) (b : B) (c : IO A) (s : os) : B :=
  match c s with (Returns a, _) => f a | _ => b end.

Definition state_of {A} (c : IO A) (s : os) : os := (c s).2.

Definition demo_Open (syncEach : bool) : IO (Log * option error) :=
  r ← Open "data" syncEach;
  match r with Ok (l, _, _) => mret (l, None) | Err e => mret (no_log, Some e) end.

Definition opened_log (syncEach : bool) : Log := result_of fst no_log (demo_Open syncEach) machine.
Definition opened_os (syncEach : bool) : os := state_of (demo_Open syncEach) machine.

Definition one_log : Log :=
  result_of fst no_log (Append_log hello (opened_log true)) (opened_os true).
Definition one_os : os := state_of (Append_log hello (opened_log true)) (opened_os true).

Definition os_okb (s : os) : bool :=
  bool_decide (map_Forall (λ _ i, (i < o_next s)%nat) (o_names s)) &&
  bool_decide (map_Forall (λ f _, (f < o_next s)%nat) (o_files s)).

Lemma os_okb_ok s : os_okb s = true → os_ok s.
Proof.
  intros [Hn%bool_decide_eq_true Hf%bool_decide_eq_true]%andb_true_iff.
  split; [exact Hn|exact Hf].
Qed.

Lemma opened_holds syncEach :
  log_holds (opened_os syncEach) (opened_log syncEach) [] [] ∧ os_ok (opened_os syncEach) ∧
  calm (opened_os syncEach).
Proof.
  assert (log_file machine (Join "data" FileName) [] []) as Hlog
    by (left; split; [vm_compute|]; reflexivity).
  assert (os_ok machine) as Hok by (apply os_okb_ok; vm_compute; reflexivity).
  assert (calm machine) as Hcalm by (split; [by intros ? ?%elem_of_nil|constructor]).
  pose proof (io_Open machine "data" syncEach [] [] Hlog ltac:(constructor)) as Hio.
  unfold io in Hio. unfold opened_os, opened_log, state_of, result_of, demo_Open, mbind, IO_bind.
  assert (result_of (λ r : result _, if r is Ok _ then true else false) false
            (Open "data" syncEach) machine = true) as Hr
    by (destruct syncEach; vm_compute; reflexivity).
  unfold result_of in Hr.
  destruct (Open "data" syncEach machine) as [[[[[l recs] torn]|e]| |] s]; [|done..].
  cbn in Hio |- *. destruct Hio as (_ & _ & _ & Hrecs & Hh & _ & Hok' & [Hc _]).
  apply prefix_nil_inv in Hrecs as ->. auto.
Qed.

Lemma hello_readable : readable_record hello ∧ readable_record world_record.
Proof. split; (split; [split; try reflexivity; by left|reflexivity]). Qed.

Lemma append_goes s l safe recs r :
  log_holds s l safe recs → l_syncEach l = true →
  result_of (λ a, bool_decide (a.2 = None)) false (Append_log r l) s = true →
  log_holds (state_of (Append_log r l) s) (result_of fst no_log (Append_log r l) s)
    (recs ++ [r]) (recs ++ [r]).
Proof.
  intros Hh Hsync. pose proof (io_Append _ _ _ _ r Hh) as Hio. unfold io in Hio.
  unfold state_of, result_of. destruct (Append_log r l s) as [[[l1 [e|]]| |] s1]; [done| |done..].
  destruct Hio as (_ & _ & _ & _ & Hh1 & _). by rewrite Hsync in Hh1.
Qed.

Lemma one_holds : log_holds one_os one_log [hello] [hello].
Proof.
  apply (append_goes (opened_os true) (opened_log true) [] [] hello);
    [apply opened_holds|vm_compute; reflexivity..].
Qed.

Lemma one_ok : os_ok one_os.
Proof. apply os_okb_ok. vm_compute. reflexivity. Qed.

(** ** A crash that leaves no more than what is on the disk for certain *)

Definition cut (d : inode) : inode :=
  mkInode (take (i_synced d) (i_data d)) (length (take (i_synced d) (i_data d))).

Definition crashed (s : os) : os := set_inodes (cut <$> o_inodes s) s.

Lemma crashed_crash s : crash s (crashed s).
Proof.
  split; [done|]. intros i. cbn. rewrite lookup_fmap. destruct (o_inodes s !! i) as [a|]; cbn; [|done].
  by exists (i_synced a).
Qed.

(** ** An engine on its log file *)

Definition fresh_file (syncEach : bool) : FileLog.
Proof.
  refine (mkFileLog (opened_os syncEach) (opened_log syncEach) [] [] _).
  destruct (opened_holds syncEach) as (Hh & _ & Hc). by split.
Defined.

Definition file_start (syncEach : bool) : world FileLog := New (Some (fresh_file syncEach)) demo_env.

Definition file_world (syncEach : bool) : world FileLog :=
  from_option id (file_start syncEach) (run_all demo_calls (file_start syncEach)).

Definition file_of (syncEach : bool) : FileLog :=
  from_option id (fresh_file syncEach) (w_log (file_world syncEach)).

Lemma file_runs syncEach : runs (file_start syncEach) demo_calls (file_world syncEach).
Proof.
  unfold file_world. apply ran_runs. destruct syncEach; vm_compute; reflexivity.
Qed.

Lemma file_logs syncEach : w_log (file_world syncEach) = Some (file_of syncEach).
Proof.
  assert (from_option (λ _, true) false (w_log (file_world syncEach)) = true) as Hs
    by (destruct syncEach; vm_compute; reflexivity).
  unfold file_of. destruct (w_log (file_world syncEach)) as [fl|]; done.
Qed.

Lemma file_life syncEach : life false (file_start syncEach) demo_calls (file_world syncEach).
Proof.
  exact (life_first false (fresh_file syncEach) demo_env demo_calls _ eq_refl
    (file_runs syncEach) demo_well_called).
Qed.

Lemma all_times recs :
  forallb times_fit recs = true → Forall (λ r, times_fit r = true) recs.
Proof.
  rewrite List.forallb_forall. intros Hf. apply Forall_forall. intros r Hr.
  by apply Hf, list_elem_of_In.
Qed.

Lemma file_times : Forall (λ r, times_fit r = true) (fl_recs (file_of true)).
Proof. apply all_times. vm_compute. reflexivity. Qed.

Lemma file_path : l_path (fl_log (file_of true)) = Join "data" FileName.
Proof. vm_compute. reflexivity. Qed.

Lemma file_start_on_disk fl : start_on_disk (file_start true) fl.
Proof. intros fl0 Hfl. injection Hfl as <-. apply prefix_nil. Qed.
