(* ===== verification/WalStale.v ===== *)
(** The log after a compaction that could not open the new file.  Compact has renamed
    the new file by then, and leaves the log as it was: writing to the file that has
    been replaced.  Whatever is appended from then on is lost. *)

From S2P Require Import Prelude Ids WalRecord Json JsonValue JsonLine JsonStruct WalJson Os OsFacts Wal.
From S2P Require Import WalFacts WalCrash WalCompact WalOpen.
From S2P Require Import Config Message Engine Spec Invariant Refine RefineTime Trace Replay.
From S2P Require Import RefineLoad Runs ConfigWire Instances Components Demo Recovery Loggable FileLog WalDemo.

Local Open Scope nat_scope.

(** ** Programs that write to one open file *)

(** The descriptor [f] is open on the inode [i]. *)
Definition open_on (f i : nat) (s : os) : Prop := f_inode <$> o_files s !! f = Some i.

(** However [c] ends, it has changed nothing but the file behind [f]. *)
Definition confined {A} (f i : nat) (P : A → Prop) (c : IO A) : Prop :=
  ∀ s, open_on f i s →
    match c s with
    | (Returns a, s') => frame f i s s' ∧ open_on f i s' ∧ P a
    | (Dies, s') | (Panics, s') => frame f i s s'
    end.

Section confined.
Context (f i : nat).

Lemma confined_ret {A} (a : A) (P : A → Prop) : P a → confined f i P (mret a).
Proof. intros Ha s Ho. split; [apply frame_refl|done]. Qed.

Lemma confined_bind {A B} (c : IO A) (k : A → IO B) (P : A → Prop) (Q : B → Prop) :
  confined f i P c → (∀ a, P a → confined f i Q (k a)) → confined f i Q (c ≫= k).
Proof.
  intros Hc Hk s Ho. specialize (Hc s Ho). unfold mbind, IO_bind.
  destruct (c s) as [[a| |] s1]; [|done..]. destruct Hc as (Hf & Ho1 & Ha).
  specialize (Hk a Ha s1 Ho1). destruct (k a s1) as [[b| |] s2]; [|by eapply frame_trans..].
  destruct Hk as (? & ? & ?). split; [by eapply frame_trans|done].
Qed.

Lemma confined_weaken {A} (P Q : A → Prop) (c : IO A) :
  confined f i P c → (∀ a, P a → Q a) → confined f i Q c.
Proof.
  intros Hc HPQ s Ho. specialize (Hc s Ho). destruct (c s) as [[a| |] s1]; [|done..].
  destruct Hc as (? & ? & ?). auto.
Qed.

Lemma written_confined p s : open_on f i s → frame f i s (written f p s) ∧ open_on f i (written f p s).
Proof.
  intros Ho. unfold open_on, written in *. destruct (o_files s !! f) as [fl|] eqn:Hf; [|done].
  injection Ho as <-. destruct (o_inodes s !! f_inode fl) as [ino|]; [|split; [apply frame_refl|by rewrite Hf]].
  split; [split; cbn; try done; intros; by rewrite lookup_insert_ne|cbn; by rewrite lookup_insert_eq].
Qed.

Lemma Write_confined p : confined f i (λ _, True) (Write f p).
Proof.
  intros s Ho. unfold Write, get_os, put_os, stop_at, mbind, mret, IO_bind, IO_ret. cbn.
  destruct (o_files s !! f) eqn:Hf; [|by split; [apply frame_refl|]].
  assert (∀ q s1, open_on f i s1 → frame f i s s1 →
    frame f i s (written f q s1) ∧ open_on f i (written f q s1)) as Hw.
  { intros q s1 Ho1 Hf1. destruct (written_confined q s1 Ho1) as [? ?].
    split; [by eapply frame_trans|done]. }
  unfold ask. destruct (o_answers s) as [|a l] eqn:Ha.
  - destruct (Hw p s Ho (frame_refl _ _ _)). by split_and!.
  - assert (open_on f i (set_answers l s)) as Ho1 by done.
    assert (frame f i s (set_answers l s)) as Hf1.
    { split; try done. cbn. rewrite Ha. by apply suffix_cons_r. }
    destruct a as [|n|n].
    + destruct (Hw p _ Ho1 Hf1). by split_and!.
    + destruct (Hw (take (n `min` pred (length p)) p) _ Ho1 Hf1). by split_and!.
    + by destruct (Hw (take n p) _ Ho1 Hf1).
Qed.

Lemma Sync_confined : confined f i (λ _, True) (Sync f).
Proof.
  intros s Ho. unfold Sync, get_os, put_os, stop_at, mbind, mret, IO_bind, IO_ret. cbn.
  destruct (o_files s !! f) as [fl|] eqn:Hf; [|by split; [apply frame_refl|]].
  assert (f_inode fl = i) as Hfi by (unfold open_on in Ho; rewrite Hf in Ho; by injection Ho).
  assert (∀ s1, open_on f i s1 → frame f i s s1 →
    let s2 := match o_inodes s1 !! f_inode fl with
              | Some ino => put_inode (f_inode fl) (mkInode (i_data ino) (length (i_data ino))) s1
              | None => s1
              end in frame f i s s2 ∧ open_on f i s2) as Hw.
  { intros s1 Ho1 Hf1. destruct (o_inodes s1 !! f_inode fl); [|done]. cbn. split; [|done].
    eapply frame_trans; [exact Hf1|]. split; cbn; try done.
    intros j Hj. rewrite lookup_insert_ne by congruence. done. }
  unfold ask_sync. destruct (o_syncs s) as [|a l] eqn:Ha.
  - destruct (Hw s Ho (frame_refl _ _ _)). by split_and!.
  - assert (open_on f i (set_syncs l s)) as Ho1 by done.
    assert (frame f i s (set_syncs l s)) as Hf1.
    { split; try done. cbn. rewrite Ha. by apply suffix_cons_r. }
    destruct a as [|n|n]; [|by split_and!|done].
    destruct (Hw _ Ho1 Hf1). by split_and!.
Qed.

(** The writer stays on its file. *)
Lemma Flush_confined w : w_fd w = f → confined f i (λ r, w_fd r.1 = f) (Flush w).
Proof.
  intros Hw. unfold Flush. destruct (w_err w); [by apply confined_ret|].
  case_decide; [by apply confined_ret|]. rewrite Hw.
  eapply confined_bind; [apply Write_confined|]. intros [n err] _. cbv zeta.
  destruct (if _ && _ then _ else _); by apply confined_ret.
Qed.

Lemma write_loop_confined fuel : ∀ w p,
  w_fd w = f → confined f i (λ r, w_fd r.1 = f) (write_loop fuel w p).
Proof.
  induction fuel as [|fuel IH]; intros w p Hw; cbn [write_loop];
    (destruct (_ && _); [|by apply confined_ret]); [intros s Ho; apply frame_refl|].
  case_decide.
  - rewrite Hw. eapply confined_bind; [apply Write_confined|]. intros [n err] _. by apply IH.
  - eapply confined_bind; [by apply Flush_confined|]. intros [w' err] Hw'. by apply IH.
Qed.

Lemma buf_Write_confined w p : w_fd w = f → confined f i (λ r, w_fd r.1 = f) (buf_Write w p).
Proof.
  intros Hw. unfold buf_Write. eapply confined_bind; [by apply write_loop_confined|].
  intros [w' q] Hw'. cbn in Hw'. destruct (w_err w'); by apply confined_ret.
Qed.

Lemma buf_WriteByte_confined w c :
  w_fd w = f → confined f i (λ r, w_fd r.1 = f) (buf_WriteByte w c).
Proof.
  intros Hw. unfold buf_WriteByte. destruct (w_err w); [by apply confined_ret|].
  case_match; [|by apply confined_ret].
  eapply confined_bind; [by apply Flush_confined|]. intros [w' err] Hw'. cbn in Hw'.
  destruct err; by apply confined_ret.
Qed.

(** Append writes to the open file of the log. *)
Lemma Append_confined r l :
  w_fd (l_w l) = f → l_f l = f →
  confined f i (λ res, w_fd (l_w res.1) = f ∧ l_f res.1 = f ∧ l_path res.1 = l_path l)
    (Append_log r l).
Proof.
  intros Hw Hl. unfold Append_log. destruct (Validate r); [by apply confined_ret|].
  destruct (Marshal_record r) as [b|]; [|by apply confined_ret].
  eapply confined_bind; [by apply buf_Write_confined|]. intros [w1 [e|]] Hw1;
    [by apply confined_ret|].
  eapply confined_bind; [by apply buf_WriteByte_confined|]. intros [w2 [e|]] Hw2;
    [by apply confined_ret|].
  eapply confined_bind; [by apply Flush_confined|]. intros [w3 [e|]] Hw3;
    [by apply confined_ret|].
  destruct (l_syncEach l); [|by apply confined_ret]. rewrite Hl.
  eapply confined_bind; [apply Sync_confined|]. intros err _. by apply confined_ret.
Qed.
End confined.

(** ** Appends to a stale log *)

(** Records are appended one after the other, whatever comes back. *)
Fixpoint append_each (rs : list WRecord) (l : Log) : IO (Log * list (option error)) :=
  match rs with
  | [] => mret (l, [])
  | r :: rs =>
    '(l, err) ← Append_log r l;
    '(l, errs) ← append_each rs l;
    mret (l, err :: errs)
  end.

Lemma append_each_confined f i rs : ∀ l,
  w_fd (l_w l) = f → l_f l = f → confined f i (λ _, True) (append_each rs l).
Proof.
  induction rs as [|r rs IH]; intros l Hw Hl; cbn [append_each]; [by apply confined_ret|].
  eapply confined_bind; [by apply Append_confined|]. intros [l1 err] (Hw1 & Hl1 & _). cbn in *.
  eapply confined_bind; [by apply IH|]. intros [l2 errs] _. by apply confined_ret.
Qed.

Lemma frame_contents f i s s' path j :
  frame f i s s' → o_names s !! path = Some j → i ≠ j → contents s' path = contents s path.
Proof.
  intros Hf Hp Hne. unfold contents. rewrite (fr_names _ _ _ _ Hf), Hp. cbn [mbind option_bind].
  by rewrite (fr_inodes _ _ _ _ Hf) by done.
Qed.

(** C40: after a compaction whose last step fails, appends are lost.  If Compact fails, the
    log is as it was before; but the file under its name may be the new one already, when
    the only step that failed is opening it.  Then this file holds the snapshot, all of it
    on the disk, and nothing that is appended to the log changes it: neither one Append nor
    any number of them, whatever they return. *)
Theorem Compact_reopen_loses_appends s l safe recs snap l' e s1 :
  os_ok s → log_holds s l safe recs → Compact l snap s = (Returns (l', Some e), s1) →
  l' = l ∧
  (log_holds s1 l safe recs ∨
   contents s1 (l_path l) = Some (text_of_log snap) ∧ disk s1 (l_path l) snap snap ∧
   ∀ rs, contents (append_each rs l s1).2 (l_path l) = Some (text_of_log snap)).
Proof.
  intros Hok Hh Hc. destruct (io_use _ _ _ _ _ _ (io_Compact s l safe recs snap Hok Hh) Hc)
    as (_ & _ & Hl & Hres). cbn [fst snd] in *. subst l'. split; [done|].
  destruct Hres as [Hl|(Hd & Hcon & Hw & fl & j & Hfl & Hj & Hne)]; [by left|right].
  split; [done|]. split; [done|]. intros rs. rewrite <-Hcon.
  assert (open_on (l_f l) (f_inode fl) s1) as Ho by (unfold open_on; by rewrite Hfl).
  pose proof (append_each_confined (l_f l) (f_inode fl) rs l Hw eq_refl s1 Ho) as Hap.
  eapply frame_contents; [|exact Hj|exact Hne].
  destruct (append_each rs l s1) as [[a| |] s2]; [apply Hap|exact Hap..].
Qed.

(** The machine of the demo, on which opening the new file fails; the log then accepts a
    record, and syncs it. *)
Definition no_reopen : os := set_answers [Done; Done; Done; Done; Fails 0] one_os.

Definition reopen_error : error := os_error "open".

Definition stale_os : os := state_of (Compact one_log [world_record]) no_reopen.

Lemma no_reopen_run :
  Compact one_log [world_record] no_reopen = (Returns (one_log, Some reopen_error), stale_os).
Proof.
  unfold stale_os, state_of.
  assert ((Compact one_log [world_record] no_reopen).1 = Returns (one_log, Some reopen_error)) as <-
    by (vm_compute; reflexivity).
  by destruct (Compact one_log [world_record] no_reopen).
Qed.

Lemma no_reopen_ok : os_ok no_reopen.
Proof. apply os_okb_ok. vm_compute. reflexivity. Qed.

Lemma no_reopen_holds : log_holds no_reopen one_log [hello] [hello].
Proof. eapply log_holds_same; [..|exact one_holds]; reflexivity. Qed.

Lemma Compact_reopen_loses_appends_witness :
  contents stale_os (l_path one_log) = Some (text_of_log [world_record]) ∧
  result_of snd [] (append_each [hello; hello] one_log) stale_os = [None; None] ∧
  one_log = one_log ∧
  (log_holds stale_os one_log [hello] [hello] ∨
   contents stale_os (l_path one_log) = Some (text_of_log [world_record]) ∧
   disk stale_os (l_path one_log) [world_record] [world_record] ∧
   ∀ rs, contents (append_each rs one_log stale_os).2 (l_path one_log) = Some (text_of_log [world_record])).
Proof.
  split; [vm_compute; reflexivity|]. split; [vm_compute; reflexivity|].
  exact (Compact_reopen_loses_appends no_reopen one_log [hello] [hello] [world_record] one_log reopen_error
           stale_os no_reopen_ok no_reopen_holds no_reopen_run).
Defined.
