(* ===== verification/Typing.v ===== *)
(** What every state of an engine that runs on its log is made of: the types that the
    code relies on without checking them.  Pointers lead to messages, the three views of
    a queue agree, names and receipts have their form, numbers fit their machine types. *)

From S2P Require Import Prelude GoHeap Ids WalRecord Config Message Engine Spec Invariant.
From S2P Require Import Refine RefineTime Trace Replay RefineLoad Runs ConfigWire Instances.
From S2P Require Import Components Demo Recovery Loggable FileLog WalDemo.

Local Open Scope Z_scope.

Section typing.
Context (k : core).

(** The message at [p], found under [id] in the map byID of the queue [q]. *)
Record message_typed (q : queueState) (id : string) (p : ptr) (m : message) : Prop := {
  mt_stored : k_msgs k !! p = Some m;
  mt_id : m_ID m = id ∧ ∃ j, id = fmt_hex16 j ∧ 0 < j ≤ k_seq k;
  mt_seq : 0 < m_Seq m ≤ k_seq k;
  mt_receives : - 2 ^ 63 ≤ m_Receives m < 2 ^ 63;
  (* it is ready, or it is in the map pending; not both *)
  mt_located : located q id p (m_state m);
  mt_receipt : m_state m = stateLeased → ∃ j, m_Receipt m = receipt_of j;
}.

Record queue_typed (n : string) (q : queueState) : Prop := {
  qt_name : q_name q = n ∧ ValidName n = true;
  qt_cfg : valid_config (q_cfg q) ∧ c_MaxReceives (q_cfg q) < 2 ^ 63;
  qt_byID id p : q_byID q !! id = Some p → ∃ m, message_typed q id p m;
  qt_pending id p : q_pending q !! id = Some p → q_byID q !! id = Some p;
  qt_ready p : p ∈ q_ready q → ∃ m, q_byID q !! m_ID m = Some p ∧ message_typed q (m_ID m) p m;
  qt_once : NoDup (q_ready q);
  (* the front of the heap is the first in send order *)
  qt_front p p' h m m' :
    q_ready q = p :: h → p' ∈ q_ready q → k_msgs k !! p = Some m → k_msgs k !! p' = Some m' →
    m_Seq m ≤ m_Seq m';
  qt_wake : k_chans k !! q_wake q = Some false;
}.

Record core_typed : Prop := {
  ct_seq : 0 ≤ k_seq k < 2 ^ 64;
  ct_queues n q : k_queues k !! n = Some q → queue_typed n q;
  ct_owner n1 q1 id1 n2 q2 id2 p :
    k_queues k !! n1 = Some q1 → k_queues k !! n2 = Some q2 →
    q_byID q1 !! id1 = Some p → q_byID q2 !! id2 = Some p → n1 = n2 ∧ id1 = id2;
  ct_ids n1 q1 n2 q2 id :
    k_queues k !! n1 = Some q1 → k_queues k !! n2 = Some q2 →
    is_Some (q_byID q1 !! id) → is_Some (q_byID q2 !! id) → n1 = n2;
}.
End typing.

Section typed.
Context (k : core) (Hk : wf k) (Hn : names_valid (abs k)) (Hc : cfgs_parsed (abs k)).

Lemma byID_typed n q id p :
  k_queues k !! n = Some q → q_byID q !! id = Some p → ∃ m, message_typed k q id p m.
Proof.
  intros Hq Hp. destruct (wf_lookup _ _ _ _ _ Hk Hq Hp) as (m & Hm & Hid & Hloc & Hl). exists m.
  destruct (aw_msg _ (wf_abs _ Hk) _ _ _ Hl) as [Hs Hj]. destruct Hj as (j & Hj & Hid').
  split; try done; [by split; [|exists j]|..].
  - pose proof (aw_recv _ (wf_abs _ Hk) _ _ _ Hl) as Hr. cbn in Hr. rewrite <-Hr. apply i64_range.
  - intros Hst. eapply (nv_receipt _ Hn _ _ _ _ (m_Deadline m) Hl).
    cbn. unfold abs_status. by rewrite Hst.
Qed.

Lemma front_first n q p p' h m m' :
  k_queues k !! n = Some q → q_ready q = p :: h → p' ∈ q_ready q →
  k_msgs k !! p = Some m → k_msgs k !! p' = Some m' → m_Seq m ≤ m_Seq m'.
Proof.
  intros Hq Hr Hin Hm Hm'. apply list_elem_of_lookup in Hin as [i Hi].
  pose proof (heap_root_min (seq_of (k_msgs k)) _ i (wq_heap _ _ _ (wf_queues _ Hk _ _ Hq))
                (lookup_lt_Some _ _ _ Hi)) as Hle.
  unfold kat in Hle. rewrite Hi, Hr in Hle. cbn in Hle. unfold seq_of in Hle.
  by rewrite Hm, Hm' in Hle.
Qed.

Lemma wf_typed : core_typed k.
Proof.
  split.
  - exact (aw_seq _ (wf_abs _ Hk)).
  - intros n q Hq. pose proof (wf_queues _ Hk _ _ Hq) as [Hname _ Hpend Hready Hnd _]. split.
    + split; [done|]. apply (nv_queue _ Hn), abs_queues_is_Some. by exists q.
    + apply (Hc n). by rewrite a_cfg_abs, Hq.
    + intros id p. by apply (byID_typed n).
    + apply Hpend.
    + intros p (m & Hm & Hp)%Hready. destruct (byID_typed _ _ _ _ Hq Hp) as [m' Hm'].
      exists m. split; [done|]. pose proof (mt_stored _ _ _ _ _ Hm') as Hm2.
      rewrite Hm in Hm2. by injection Hm2 as ->.
    + done.
    + intros p p' h m m'. by apply (front_first n).
    + by eapply wf_open.
  - intros *. by apply wf_owner.
  - intros n1 q1 n2 q2 id H1 H2 [p1 Hp1] [p2 Hp2].
    destruct (wf_lookup _ _ _ _ _ Hk H1 Hp1) as (m1 & _ & _ & _ & Hl1).
    destruct (wf_lookup _ _ _ _ _ Hk H2 Hp2) as (m2 & _ & _ & _ & Hl2).
    by eapply (aw_unique _ (wf_abs _ Hk)).
Qed.
End typed.

(** C6: the state is well typed.  At every moment of the life of an engine, whatever was
    called, with or without failures of its log, and however often it was restarted on
    its log: the pointers in the maps and heaps of its queues are not dangling; a message
    is found under its ID in one queue only, through one pointer; it is either in the
    ready heap of that queue, once, or in its map pending, as its state says; the front
    of the heap is first in send order; names, IDs and receipts have their form, the
    configurations are in range, positions and IDs are not past the counter, and the
    receive counts fit a 64-bit int. *)
Theorem life_typed {L} `{!Appender L, !LogLaws L, !ConfigJSON, !ConfigJSONLaws}
    c w0 cs (w : world L) :
  life c w0 cs w → core_typed (w_core w).
Proof.
  intros (recs & ls & Hal & Hn & Hsv)%life_survives. apply wf_typed; [apply Hal|..].
  - by eapply alive_survives.
  - pose proof Hal as [[_ _ _ Hpar _ _] _ _ Hst Hwi]. by eapply steps_parsed.
Qed.

Lemma life_typed_witness : core_typed (w_core (file_world true)).
Proof. exact (life_typed false (file_start true) demo_calls (file_world true) (file_life true)). Defined.
