(* ===== verification/WalTheorems.v ===== *)
(** The theorems about the log file: the text of a record, what ReadAll returns,
    what a crash during Append or Compact leaves, and the state of an engine that is
    started on a log after a crash. *)

From S2P Require Import Prelude Ids WalRecord Json JsonValue JsonLine JsonStruct WalJson Os OsFacts Wal.
From S2P Require Import WalFacts WalCrash WalCompact WalOpen.
From S2P Require Import Config Message Engine Spec Invariant Refine RefineTime Trace Replay.
From S2P Require Import RefineLoad Runs ConfigWire Instances Components Demo Recovery Loggable FileLog WalDemo.

Local Open Scope Z_scope.

(** ** The text of a record *)

(** C24: a record is one line of the log.  Whatever its fields, its text holds no line
    break; and if its strings are valid UTF-8, its numbers 64-bit integers and its
    configuration a JSON text without white space, it has a text, which is read back
    as the same record. *)
Theorem record_round_trip r :
  (∀ text, Marshal_record r = Some text → newline ∉ text) ∧
  (loggable r → ∃ text, Marshal_record r = Some text ∧ Unmarshal_record text = Some r).
Proof.
  split; [apply Marshal_one_line|]. intros Hr. exists (record_text r). auto with duraq.
Qed.

Lemma record_round_trip_witness :
  loggable hello ∧
  ∃ text, Marshal_record hello = Some text ∧ Unmarshal_record text = Some hello.
Proof.
  assert (loggable hello) as H by apply hello_readable.
  split; [exact H|]. exact (proj2 (record_round_trip hello) H).
Defined.

(** ** ReadAll *)

Lemma split_lines_spec data :
  data = concat ((λ l, l ++ [newline]) <$> (split_lines data).1) ++ (split_lines data).2 ∧
  Forall (λ l, newline ∉ l) (split_lines data).1 ∧ newline ∉ (split_lines data).2.
Proof.
  induction data as [|c data (He & Hl & Ht)].
  { cbn. split; [done|]. split; [constructor|apply not_in_nil]. }
  cbn [split_lines]. destruct (split_lines data) as [ls tail]. cbn [fst snd] in *. subst data.
  destruct (Ascii.eqb c newline) eqn:Hc; [apply Ascii.eqb_eq in Hc as ->|apply Ascii.eqb_neq in Hc].
  - cbn [fst snd]. rewrite fmap_cons. split; [done|]. split; [|done].
    constructor; [apply not_in_nil|done].
  - assert (newline ≠ c) as Hc' by congruence.
    destruct ls as [|l ls]; cbn [fst snd].
    + split; [done|]. split; [done|]. by apply not_in_cons.
    + apply Forall_cons in Hl as [Hl Hls]. rewrite !fmap_cons. split; [done|]. split; [|done].
      constructor; [by apply not_in_cons|done].
Qed.

(** C23: ReadAll scans the file line by line: it returns for every file, and what it
    returns is what the scan [read_split] of the lines of the file says, where a line
    is the text up to a line break.  The scan returns the records of the lines up to
    the first one that is not a record; if nothing follows that line, or if the last
    line has no line break, the tail is torn; otherwise it is an error with the number
    of the line. *)
Theorem ReadAll_scans path data :
  ∃ ls tail,
    data = concat ((λ l, l ++ [newline]) <$> ls) ++ tail ∧
    Forall (λ l, newline ∉ l) ls ∧ (newline ∉ tail) ∧
    read_data path data = Some (read_split path 1 ls tail [] 0).
Proof.
  destruct (split_lines_spec data) as (He & Hl & Ht). exists (split_lines data).1, (split_lines data).2.
  split; [done|]. split; [done|]. split; [done|]. apply read_data_split.
Qed.

(** ** Recovery of the log *)

(** Open after a crash: unless the operating system fails, it returns the records of
    [safe] and possibly more of those of [all], and a log that holds them. *)
Definition recovers (s : os) (dir : string) (safe all : list WRecord) : Prop :=
  ∀ syncEach,
    match Open dir syncEach s with
    | (Returns (Ok (l, recs, _)), s') =>
      safe `prefix_of` recs ∧ recs `prefix_of` all ∧ log_holds s' l safe recs
    | (Returns (Err _), _) => ¬ willing s
    | (Dies, _) => True
    | (Panics, _) => False
    end.

Lemma recovers_disk s dir safe all all' :
  disk s (Join dir FileName) safe all → all `prefix_of` all' → Forall readable_record all →
  recovers s dir safe all'.
Proof.
  intros Hd Hall Hr syncEach.
  pose proof (io_Open s dir syncEach safe all (or_intror Hd) Hr) as Hio. unfold io in Hio.
  destruct (Open dir syncEach s) as [[[[[l recs] torn]|e]| |] s']; [|apply Hio|done|done].
  destruct Hio as (_ & _ & Hsafe & Hrecs & Hh & _). split; [done|]. split; [by trans all|done].
Qed.

Lemma recovers_crash s s' dir safe all all' :
  disk s (Join dir FileName) safe all → all `prefix_of` all' → Forall readable_record all →
  crash s s' → recovers s' dir safe all'.
Proof. intros Hd ? ? Hc. eapply recovers_disk; [by eapply crash_disk|done..]. Qed.

(** C13: committed records survive a crash.  Append is called on a log that holds
    [recs], of which [safe] are on the disk; the operating system answers as it likes,
    and the machine may stop during the call or at any time after it.  Append does not
    panic; it fails only for an invalid record, an earlier write error, or a fault of
    the system.  After the machine has stopped, Open finds a log with all of [safe],
    and nothing but [recs] and the new record, in order; if Append had returned
    without an error, and the log syncs every append, it finds the new record too. *)
Theorem append_crash_safe s dir l safe recs r :
  l_path l = Join dir FileName → log_holds s l safe recs → Forall readable_record recs →
  readable_record r →
  match Append_log r l s with
  | (Returns (l', err), s1) =>
    (err ≠ None → refused s l r) ∧
    ∀ s2, crash s1 s2 →
      recovers s2 dir (if bool_decide (err = None) && l_syncEach l then recs ++ [r] else safe)
        (recs ++ [r])
  | (Dies, s1) => ∀ s2, crash s1 s2 → recovers s2 dir safe (recs ++ [r])
  | (Panics, _) => False
  end.
Proof.
  intros Hp Hh Hrs Hr. pose proof (io_Append _ _ _ _ r Hh) as Hio. unfold io in Hio.
  assert (Forall readable_record (recs ++ [r])) as Hall by (apply Forall_app; by rewrite Forall_singleton).
  destruct (Append_log r l s) as [[[l' err]| |] s1]; [| |done].
  - destruct Hio as (Hp1 & _ & _ & _ & Hres). cbn [fst snd] in *. rewrite Hp in Hp1. destruct err as [e|].
    + destruct Hres as [Href Hres]. split; [done|]. intros s2 Hc.
      rewrite bool_decide_eq_false_2 by done. cbn [andb].
      destruct Hres as [Hd%log_holds_disk|(_ & _ & Hd%log_holds_disk)]; rewrite Hp1 in Hd;
        (eapply recovers_crash; [exact Hd| |done|exact Hc]); [by apply prefix_app_r|done].
    + split; [done|]. intros s2 Hc. destruct Hres as [Hd%log_holds_disk _]. rewrite Hp1 in Hd.
      eapply recovers_crash; [|reflexivity|done|exact Hc]. by destruct (l_syncEach l).
  - intros s2 Hc. destruct Hio as [_ Hd]. rewrite Hp in Hd.
    by eapply recovers_crash; [exact Hd|reflexivity|..].
Qed.

Lemma append_crash_safe_witness :
  match Append_log world_record one_log one_os with
  | (Returns (l', err), s1) =>
    (err ≠ None → refused one_os one_log world_record) ∧
    ∀ s2, crash s1 s2 →
      recovers s2 "data"
        (if bool_decide (err = None) && l_syncEach one_log then [hello; world_record] else [hello])
        [hello; world_record]
  | (Dies, s1) => ∀ s2, crash s1 s2 → recovers s2 "data" [hello] [hello; world_record]
  | (Panics, _) => False
  end.
Proof.
  apply (append_crash_safe one_os "data" one_log [hello] [hello] world_record).
  - vm_compute. reflexivity.
  - apply one_holds.
  - repeat constructor; apply hello_readable.
  - apply hello_readable.
Defined.

(** C14: compaction is atomic.  Compact replaces the records [recs] of a log by [snap];
    the operating system answers as it likes, and the machine may stop at any moment.
    If Compact succeeds, the log holds [snap], all of it on the disk, and appends go on
    from there.  If it fails, or the machine stops in the middle, the next Open finds
    the old log or the new one, and never a mix. *)
Theorem Compact_atomic s dir l safe recs snap :
  l_path l = Join dir FileName → os_ok s → log_holds s l safe recs →
  Forall readable_record recs → Forall readable_record snap →
  match Compact l snap s with
  | (Returns (l', None), s1) =>
    log_holds s1 l' snap snap ∧ ∀ s2, crash s1 s2 → recovers s2 dir snap snap
  | (Returns (_, Some _), s1) | (Dies, s1) =>
    ∀ s2, crash s1 s2 → recovers s2 dir safe recs ∨ recovers s2 dir snap snap
  | (Panics, _) => False
  end.
Proof.
  intros Hp Hok Hh Hrs Hsn. pose proof (io_Compact s l safe recs snap Hok Hh) as Hio. unfold io in Hio.
  assert (∀ s1 s2, old_or_new l safe recs snap s1 → crash s1 s2 →
            recovers s2 dir safe recs ∨ recovers s2 dir snap snap) as Hon.
  { intros s1 s2 [Hd|Hd] Hc; rewrite Hp in Hd; [left|right]; by eapply recovers_crash. }
  destruct (Compact l snap s) as [[[l' [e|]]| |] s1]; [| |by intros s2; apply Hon|done].
  - destruct Hio as (_ & _ & _ & Hres). cbn [fst snd] in *. intros s2. apply Hon.
    destruct Hres as [Hd%log_holds_disk|[Hd _]]; [by left|by right].
  - destruct Hio as (Hp1 & _ & Hd). cbn [fst snd] in *. split; [done|]. intros s2 Hc.
    apply log_holds_disk in Hd. rewrite Hp1, Hp in Hd. by eapply recovers_crash.
Qed.

Lemma Compact_atomic_witness :
  match Compact one_log [world_record] one_os with
  | (Returns (l', None), s1) =>
    log_holds s1 l' [world_record] [world_record] ∧
    ∀ s2, crash s1 s2 → recovers s2 "data" [world_record] [world_record]
  | (Returns (_, Some _), s1) | (Dies, s1) =>
    ∀ s2, crash s1 s2 →
      recovers s2 "data" [hello] [hello] ∨ recovers s2 "data" [world_record] [world_record]
  | (Panics, _) => False
  end.
Proof.
  apply (Compact_atomic one_os "data" one_log [hello] [hello] [world_record]).
  - vm_compute. reflexivity.
  - apply one_ok.
  - apply one_holds.
  - repeat constructor; apply hello_readable.
  - repeat constructor; apply hello_readable.
Defined.

(** ** Recovery of the engine *)

Section crash.
Context `{!ConfigJSON} `{!ConfigJSONLaws}.
Implicit Types w : world FileLog.

(** An engine recovers from a crash of the machine.  An engine runs on its log
    file, started once or many times; then the machine stops, and the log is opened
    again.  Unless the operating system fails, Open returns all records that are
    known to be on the disk, and maybe more of the records of the engine.  Load
    accepts them, and the state it makes behaves as the state [B] that the engine was
    in when it had written the last of them: every message that was acknowledged by
    then is gone and every other one is there.  If the log syncs every append, [B] is
    the last state of the engine, so nothing is lost. *)
Theorem crash_recovery dir syncEach c w0 cs w fl s :
  life c w0 cs w → w_log w = Some fl → l_path (fl_log fl) = Join dir FileName →
  Forall (λ r, times_fit r = true) (fl_recs fl) → start_on_disk w0 fl → crash (fl_os fl) s →
  match Open dir syncEach s with
  | (Returns (Ok (l, recs, _)), s1) =>
    log_holds s1 l (fl_safe fl) recs ∧ recs `prefix_of` fl_recs fl ∧
    ∀ log' env', ∃ w', Load recs (New log' env') = Some (None, w') ∧ wf (w_core w') ∧
      ∃ ls1 ls2 B, asteps (abs (w_core w0)) ls1 B ∧ asteps B ls2 (abs (w_core w)) ∧
        (l_syncEach (fl_log fl) = true → B = abs (w_core w)) ∧
        ∀ T, 0 ≤ T → seen_by T w cs → sim T B (abs (w_core w'))
  | (Returns (Err _), _) => ¬ willing s
  | (Dies, _) => True
  | (Panics, _) => False
  end.
Proof.
  intros Hlife Hlog Hp Htf Hstart Hcrash.
  pose proof (log_holds_disk _ _ _ _ (fk_holds _ _ _ _ (fl_ok fl))) as Hdisk. rewrite Hp in Hdisk.
  pose proof (life_readable _ _ _ _ _ Hlife Hlog Htf) as Hread.
  pose proof (recovers_crash _ _ _ _ _ _ Hdisk (reflexivity _) Hread Hcrash syncEach) as Hrec.
  destruct (Open dir syncEach s) as [[[[[l recs] torn]|e]| |] s1]; [|done..].
  destruct Hrec as (Hsafe & Hall & Hh). split; [done|]. split; [done|]. intros log' env'.
  destruct (life_cut _ _ _ _ _ recs Hlife Hlog) with log' env' as (w' & ? & ? & _ & _ & ls1 & ls2 & B & ? & ? & HB & ?);
    [by intros fl0 ->%Hstart; trans (fl_safe fl)|done|].
  exists w'. split; [done|]. split; [done|]. exists ls1, ls2, B. split; [done|]. split; [done|].
  split; [|done]. intros Hsync. apply HB. apply (anti_symm prefix); [done|].
  by rewrite (fk_sync _ _ _ _ (fl_ok fl) Hsync) in Hsafe.
Qed.
End crash.

Lemma crash_recovery_witness :
  match Open "data" true (crashed (fl_os (file_of true))) with
  | (Returns (Ok (l, recs, _)), s1) =>
    log_holds s1 l (fl_safe (file_of true)) recs ∧ recs `prefix_of` fl_recs (file_of true) ∧
    ∀ (log' : option FileLog) env', ∃ w', Load recs (New log' env') = Some (None, w') ∧
      wf (w_core w') ∧
      ∃ ls1 ls2 B, asteps (abs (w_core (file_start true))) ls1 B ∧
        asteps B ls2 (abs (w_core (file_world true))) ∧
        (l_syncEach (fl_log (file_of true)) = true → B = abs (w_core (file_world true))) ∧
        ∀ T, 0 ≤ T → seen_by T (file_world true) demo_calls → sim T B (abs (w_core w'))
  | (Returns (Err _), _) => ¬ willing (crashed (fl_os (file_of true)))
  | (Dies, _) => True
  | (Panics, _) => False
  end.
Proof.
  exact (crash_recovery "data" true false (file_start true) demo_calls (file_world true)
    (file_of true) (crashed (fl_os (file_of true))) (file_life true) (file_logs true) file_path
    file_times (file_start_on_disk _) (crashed_crash _)).
Defined.
