(* ===== verification/ConfigTheorems.v ===== *)
(** The theorems about durations and about the JSON text of configurations. *)

From S2P Require Import Prelude WalRecord Json JsonValue JsonLine JsonStruct.
From S2P Require Import Float64 Duration DurationFacts Config ConfigWire Message Engine Spec.
From S2P Require Import Refine RefineTime RefineOps Runs Instances Demo.
From Stdlib Require String.

Local Open Scope Z_scope.

Section machine.
Context `{Machine}.

(** C33: durations.  The text that String makes of a duration is read back by Parse as
    the same duration, for every duration that is not negative.  A text of decimal
    digits is a number of seconds: it means the same as with the unit s behind it (up
    to 9007199 seconds, where float64 is exact).  Whatever Parse is given, what it
    returns is not negative and fits 64 bits. *)
Theorem duration_round_trip :
  (∀ d, 0 ≤ d < 2 ^ 63 → Parse (String.string_of_list_ascii (Duration_String d)) = Ok d) ∧
  (∀ ds n, Forall is_digit ds → read_digits ds 0 = Some n → ds ≠ [] → n * Second < 2 ^ 53 →
    Parse (String.string_of_list_ascii ds) = Ok (n * Second) ∧
    Parse (String.string_of_list_ascii (ds ++ bytes_of "s")) = Ok (n * Second)) ∧
  (∀ s d, Parse s = Ok d → 0 ≤ d < 2 ^ 63).
Proof.
  split; [apply Parse_String|]. split; [apply Parse_bare|apply Parse_range].
Qed.

(** C32: the JSON text of a configuration is undone by UnmarshalJSON, and by ParseConfig
    after json.Marshal, for every configuration that ParseConfig accepts; and it can
    be the value of the field cfg of a record: it is one JSON value without white
    space, which json.Marshal of the record leaves as it is. *)
Theorem config_json_round_trip c :
  valid_config c → c_MaxReceives c < 2 ^ 63 →
  UnmarshalJSON (MarshalJSON c) = Ok c ∧
  ParseConfig (Marshal_config c) = Ok c ∧
  plain_json (Marshal_config c).
Proof.
  intros Hc Hm. split; [by apply UnmarshalJSON_MarshalJSON|].
  split; [by apply ParseConfig_Marshal|by apply Marshal_config_plain].
Qed.
End machine.

Lemma jobs_cfg_valid : valid_config jobs_cfg ∧ c_MaxReceives jobs_cfg < 2 ^ 63.
Proof. split; [|done]. split; [done|done|by right]. Qed.

Lemma duration_round_trip_witness :
  Parse (String.string_of_list_ascii (Duration_String 5445000000001)) = Ok 5445000000001 ∧
  Parse "20" = Ok (20 * Second) ∧ Parse "20s" = Ok (20 * Second) ∧ 0 ≤ 20 * Second < 2 ^ 63.
Proof.
  destruct duration_round_trip as (H1 & H2 & H3). split; [by apply H1|].
  destruct (H2 (bytes_of "20") 20) as [Hb Hs]; [by repeat constructor|done|done|done|].
  split; [exact Hb|]. split; [exact Hs|]. exact (H3 _ _ Hb).
Defined.

Lemma config_json_round_trip_witness :
  UnmarshalJSON (MarshalJSON jobs_cfg) = Ok jobs_cfg ∧
  ParseConfig (Marshal_config jobs_cfg) = Ok jobs_cfg ∧
  plain_json (Marshal_config jobs_cfg).
Proof. apply config_json_round_trip; apply jobs_cfg_valid. Defined.

(** The JSON text of a configuration with the given visibility timeout. *)
Definition with_visibility (v : string) : bytes :=
  written_object [(bytes_of "visibility_timeout", bytes_of v)].

(** Another machine: arm64 answers with the nearest integer, and with 0 for NaN. *)
Definition saturating : Machine.
Proof.
  refine {| out_of_range f :=
    match f with
    | FNaN => 0
    | FInf neg | FFin neg _ _ => if neg then - 2 ^ 63 else 2 ^ 63 - 1
    end |}.
  by intros [|[]|[] ? ?].
Defined.

(** The limits of bare numbers of seconds.  A visibility timeout of 0.00001 seconds
    is accepted as a text with a unit and by dur.Parse, but rejected as a JSON number:
    UnmarshalJSON prints it as 1e-05s, which is no duration.  A number of seconds that
    is too large is an error or the longest duration, and NaN is an error or zero,
    depending on the machine. *)
Theorem bare_seconds_limits :
  (Unmarshal_config (with_visibility "0.00001") =
     Err (Errorf "invalid duration %q (use 30s, 1m, or a number of seconds)" [AStr "1e-05s"]) ∧
   Parse "0.00001" = Ok 10000 ∧ Parse "0.00001s" = Ok 10000) ∧
  (Parse "1e10" = Err (Errorf "duration %q is negative" [AStr "1e10"]) ∧
   @Parse saturating "1e10" = Ok (2 ^ 63 - 1) ∧
   Parse "inf" = Err (Errorf "duration %q is negative" [AStr "inf"]) ∧
   @Parse saturating "nan" = Ok 0).
Proof. repeat split; vm_compute; reflexivity. Qed.
