(* ===== verification/Wakeup.v ===== *)
(** Who waits for a queue is woken: every operation of the engine that makes a message
    ready, or takes a queue away, closes the channel that the long-polling receivers
    of the queue wait on.  [guards X k k'] says this of a step from [k] to [k'],
    apart from the queues [X] that are still to be announced.  The theorems are in
    [LongPoll]. *)

From S2P Require Import Prelude GoHeap Ids WalRecord Config Message Engine Runs.
From stdpp Require Import fin_maps.

Local Open Scope Z_scope.

(** ** What a waiting receiver relies on *)

Definition closed (k : core) (c : positive) : Prop := k_chans k !! c = Some true.

#[export] Instance closed_dec k c : Decision (closed k c).
Proof. unfold closed. apply _. Defined.

(** [c] is closed, or it is what the queue [n] closes the next time. *)
Definition watched (k : core) (n : string) (c : positive) : Prop :=
  closed k c ∨ ∃ q, k_queues k !! n = Some q ∧ q_wake q = c.

(** [c] is closed, or nothing is ready in the queue [n], which will close [c]. *)
Definition quiet (k : core) (n : string) (c : positive) : Prop :=
  closed k c ∨ ∃ q, k_queues k !! n = Some q ∧ q_wake q = c ∧ q_ready q = [].

Record guards (X : gset string) (k k' : core) : Prop := {
  gd_closed c : closed k c → closed k' c;
  gd_watched n c : watched k n c → watched k' n c;
  gd_quiet n c : n ∉ X → quiet k n c → quiet k' n c;
}.

Lemma quiet_watched k n c : quiet k n c → watched k n c.
Proof. intros [?|(q & ? & ? & _)]; [by left|right; eauto]. Qed.

Lemma guards_refl X k : guards X k k.
Proof. by split. Qed.

Lemma guards_trans X k1 k2 k3 : guards X k1 k2 → guards X k2 k3 → guards X k1 k3.
Proof. intros [? ? ?] [? ? ?]. split; eauto. Qed.

Lemma guards_weaken X Y k k' : X ⊆ Y → guards X k k' → guards Y k k'.
Proof. intros HX [? ? Hq]. split; [done|done|]. intros n c Hn. apply Hq. set_solver. Qed.

(** Channels and the parts of queues that matter are the same. *)
Lemma guards_same X k k' :
  k_chans k' = k_chans k → k_queues k' = k_queues k → guards X k k'.
Proof.
  intros Hc Hq. split; unfold watched, quiet, closed; intros *; rewrite Hc, ?Hq; done.
Qed.

(** A queue is changed: its channel stays, and it stays empty if it was, or it is to be
    announced. *)
Lemma guards_put X k n q q' :
  k_queues k !! n = Some q → q_wake q' = q_wake q →
  (n ∈ X ∨ (q_ready q = [] → q_ready q' = [])) →
  guards X k (k_set_queues (<[n := q']> (k_queues k)) k).
Proof.
  intros Hq Hw Hr. split; unfold closed, watched, quiet; simpl.
  - done.
  - intros n' c [?|(q0 & Hq0 & <-)]; [by left|right].
    destruct (decide (n' = n)) as [->|]; [|exists q0; by rewrite lookup_insert_ne].
    exists q'. rewrite lookup_insert_eq. by simplify_eq.
  - intros n' c Hn [?|(q0 & Hq0 & <- & He)]; [by left|right].
    destruct (decide (n' = n)) as [->|]; [|exists q0; by rewrite lookup_insert_ne].
    exists q'. rewrite lookup_insert_eq. simplify_eq. destruct Hr; [done|auto].
Qed.

(** A queue is added. *)
Lemma guards_add X k n q : k_queues k !! n = None → guards X k (k_set_queues (<[n := q]> (k_queues k)) k).
Proof.
  intros Hq. split; unfold closed, watched, quiet; simpl; [done|..].
  - intros n' c [?|(q0 & Hq0 & <-)]; [by left|right].
    exists q0. rewrite lookup_insert_ne by congruence. done.
  - intros n' c Hn [?|(q0 & Hq0 & <- & He)]; [by left|right].
    exists q0. rewrite lookup_insert_ne by congruence. done.
Qed.

(** A new channel. *)
Lemma guards_make X k c :
  c ∉ dom (k_chans k) → guards X k (k_set_chans (<[c := false]> (k_chans k)) k).
Proof.
  intros Hc. assert (∀ d, closed k d → closed (k_set_chans (<[c := false]> (k_chans k)) k) d) as Hcl.
  { intros d Hd. unfold closed in *. simpl. rewrite lookup_insert_ne; [done|].
    intros ->. apply Hc. by apply elem_of_dom_2 in Hd. }
  split; [done|..].
  - intros n d [?|?]; [left; auto|by right].
  - intros n d _ [?|?]; [left; auto|by right].
Qed.

(** A queue is announced: its channel is closed and replaced. *)
Definition announced (n : string) (k k' : core) : Prop :=
  guards ∅ k k' ∧ ∀ c, watched k n c → closed k' c.

Lemma guards_announced X n k1 k2 k3 :
  guards (X ∪ {[n]}) k1 k2 → announced n k2 k3 → guards X k1 k3.
Proof.
  intros [H1 H2 H3] [[G1 G2 G3] Hn]. split; [auto|auto|]. intros n' c Hn' Hq.
  destruct (decide (n' = n)) as [->|Hne].
  - left. apply Hn, H2. by apply quiet_watched.
  - apply G3; [set_solver|]. apply H3; [set_solver|done].
Qed.

(** ** Partial correctness of computations, on the core *)

Section clp.
Context {L : Type} `{!Appender L} `{!ConfigJSON}.
Abbreviation M := (GoM (world L)).

(** If [c] returns from a world with the core [k], then [Q]. *)
Definition clp {A} (c : M A) (Q : A → core → Prop) (k : core) : Prop :=
  ∀ w a w', w_core w = k → c w = Some (a, w') → Q a (w_core w').

Lemma clp_bind {A B} (c : M A) (f : A → M B) Q k :
  clp c (λ a k', clp (f a) Q k') k → clp (c ≫= f) Q k.
Proof.
  intros Hc w b w' Hk Hr. unfold mbind, GoM_bind in Hr.
  destruct (c w) as [[a w1]|] eqn:E; [|done]. exact (Hc _ _ _ Hk E _ _ _ eq_refl Hr).
Qed.

Lemma clp_mono {A} (c : M A) (P Q : A → core → Prop) k :
  clp c P k → (∀ a k', P a k' → Q a k') → clp c Q k.
Proof. intros Hc HPQ w a w' Hk Hr. eapply HPQ, Hc; done. Qed.

Lemma clp_ret {A} (a : A) (Q : A → core → Prop) k : Q a k → clp (mret a) Q k.
Proof. by intros HQ w b w' <- [= <- <-]. Qed.

Lemma clp_panic {A} (Q : A → core → Prop) k : clp go_panic Q k.
Proof. by intros w a w' _ [=]. Qed.

Lemma clp_opt {A} (o : option A) (Q : A → core → Prop) k :
  (∀ a, o = Some a → Q a k) → clp (go_opt o) Q k.
Proof. intros HQ w a w' <-. unfold go_opt. destruct o; [|done]. intros [= <- <-]. auto. Qed.

Lemma clp_get Q k : Q k k → clp get_core Q k.
Proof. by intros HQ w a w' <- [= <- <-]. Qed.

Lemma clp_put k1 (Q : () → core → Prop) k : Q () k1 → clp (put_core k1) Q k.
Proof. by intros HQ w a w' <- [= <- <-]. Qed.

Lemma clp_now (Q : Z → core → Prop) k : (∀ t, Q t k) → clp now Q k.
Proof. by intros HQ w a w' <- [= <- <-]. Qed.

Lemma clp_range {A} (m : gmap string A) (Q : list string → core → Prop) k :
  (∀ l, Q l k) → clp (range_order m) Q k.
Proof. by intros HQ w a w' <- [= <- <-]. Qed.

Lemma clp_append r (Q : option error → core → Prop) k : (∀ err, Q err k) → clp (append r) Q k.
Proof.
  intros HQ w a w' <-. unfold append. destruct (w_log w); [|intros [= <- <-]; auto].
  destruct (Append r l) as [err l']. intros [= <- <-]. apply HQ.
Qed.

Lemma clp_lookup n (Q : option queueState → core → Prop) k :
  Q (k_queues k !! n) k → clp (lookup_queue n) Q k.
Proof. intros. unfold lookup_queue. apply clp_bind, clp_get, clp_ret. done. Qed.

Lemma clp_deref n (Q : queueState → core → Prop) k :
  (∀ q, k_queues k !! n = Some q → Q q k) → clp (deref_queue n) Q k.
Proof. intros. unfold deref_queue. apply clp_bind, clp_get. by apply clp_opt. Qed.

Lemma clp_put_queue n q (Q : () → core → Prop) k :
  Q () (k_set_queues (<[n := q]> (k_queues k)) k) → clp (put_queue n q) Q k.
Proof. intros. unfold put_queue. apply clp_bind, clp_get. by apply clp_put. Qed.

Lemma clp_load p (Q : message → core → Prop) k : (∀ m, Q m k) → clp (load p) Q k.
Proof. intros. unfold load. apply clp_bind, clp_get. apply clp_opt. auto. Qed.

Lemma clp_save p m (Q : () → core → Prop) k :
  (∀ ms, Q () (k_set_msgs ms k)) → clp (save p m) Q k.
Proof. intros. unfold save. apply clp_bind, clp_get, clp_put. auto. Qed.

Lemma clp_new p (Q : ptr → core → Prop) k :
  (∀ p ms, Q p (k_set_msgs ms k)) → clp (new_message p) Q k.
Proof. intros. unfold new_message. apply clp_bind, clp_get, clp_bind, clp_put, clp_ret. auto. Qed.

Lemma clp_get_seq (Q : Z → core → Prop) k : (∀ s, Q s k) → clp get_seq Q k.
Proof. intros. unfold get_seq. apply clp_bind, clp_get, clp_ret. auto. Qed.

Lemma clp_set_seq s (Q : () → core → Prop) k : (Q () (k_set_seq s k)) → clp (Engine.set_seq s) Q k.
Proof. intros. unfold Engine.set_seq. apply clp_bind, clp_get, clp_put. auto. Qed.

Lemma clp_incr (Q : Z → core → Prop) k : (∀ s s', Q s (k_set_seq s' k)) → clp incr_seq Q k.
Proof. intros. unfold incr_seq. apply clp_bind, clp_get_seq. intros s. apply clp_bind, clp_set_seq, clp_get_seq. auto. Qed.

Lemma clp_nextID (Q : string → core → Prop) k : (∀ s s', Q s (k_set_seq s' k)) → clp nextID Q k.
Proof. intros. unfold nextID. apply clp_bind, clp_incr. intros. by apply clp_ret. Qed.

Lemma clp_nextReceipt (Q : string → core → Prop) k : (∀ s s', Q s (k_set_seq s' k)) → clp nextReceipt Q k.
Proof. intros. unfold nextReceipt. apply clp_bind, clp_incr. intros. by apply clp_ret. Qed.

(** ** The steps that matter *)

Lemma clp_broadcast n k : clp (broadcast n) (λ _ k', announced n k k') k.
Proof.
  unfold broadcast. apply clp_bind, clp_deref. intros q Hq.
  apply clp_bind. unfold close_chan. apply clp_bind, clp_get.
  destruct (k_chans k !! q_wake q) as [[]|] eqn:Hc; [apply clp_panic| |apply clp_panic].
  apply clp_put. apply clp_bind. unfold make_chan. apply clp_bind, clp_get, clp_bind, clp_put, clp_ret.
  apply clp_put_queue. cbn [k_set_chans k_chans k_queues].
  set (c := fresh _). assert (c ∉ dom (<[q_wake q := true]> (k_chans k))) as Hfr by apply is_fresh.
  assert (∀ d, closed k d ∨ d = q_wake q →
    <[c:=false]> (<[q_wake q:=true]> (k_chans k)) !! d = Some true) as Hcl.
  { intros d Hd. rewrite lookup_insert_ne.
    - destruct (decide (d = q_wake q)) as [->|]; [by rewrite lookup_insert_eq|].
      rewrite lookup_insert_ne by done. destruct Hd as [Hd|]; [exact Hd|done].
    - intros ->. apply Hfr. rewrite dom_insert. destruct Hd as [Hd| ->]; [|set_solver].
      apply elem_of_dom_2 in Hd. set_solver. }
  split; [split|]; unfold closed, watched, quiet; simpl.
  - intros d Hd. apply Hcl. by left.
  - intros n' d [Hd|(q0 & Hq0 & <-)]; [left; apply Hcl; by left|].
    destruct (decide (n' = n)) as [->|]; [left; apply Hcl; right; by simplify_eq|].
    right. exists q0. by rewrite lookup_insert_ne.
  - intros n' d _ [Hd|(q0 & Hq0 & <- & He)]; [left; apply Hcl; by left|].
    destruct (decide (n' = n)) as [->|]; [left; apply Hcl; right; by simplify_eq|].
    right. exists q0. by rewrite lookup_insert_ne.
  - intros d [Hd|(q0 & Hq0 & <-)]; apply Hcl; [by left|right; by simplify_eq].
Qed.

(** ** Operations that guard the waiting receivers *)

Definition keeps {A} (X : gset string) (c : M A) : Prop :=
  ∀ k, clp c (λ _ k', guards X k k') k.

(** The next step of a computation that started in [k0]. *)
Lemma clp_next {A} X (c : M A) (Q : A → core → Prop) k0 k :
  keeps X c → guards X k0 k → (∀ a k', guards X k0 k' → Q a k') → clp c Q k.
Proof.
  intros Hc Hk HQ. eapply clp_mono; [apply Hc|]. intros a k' Hk'. apply HQ.
  by eapply guards_trans.
Qed.

Lemma keeps_weaken {A} X Y (c : M A) : X ⊆ Y → keeps X c → keeps Y c.
Proof. intros HX Hc k. eapply clp_mono; [apply Hc|]. intros a k'. by apply guards_weaken. Qed.

Lemma guards_msgs X k0 k ms : guards X k0 k → guards X k0 (k_set_msgs ms k).
Proof. intros Hg. eapply guards_trans; [exact Hg|]. by apply guards_same. Qed.

Lemma guards_seq X k0 k s : guards X k0 k → guards X k0 (k_set_seq s k).
Proof. intros Hg. eapply guards_trans; [exact Hg|]. by apply guards_same. Qed.

Lemma guards_change X k0 k n q q' :
  guards X k0 k → k_queues k !! n = Some q → q_wake q' = q_wake q →
  (n ∈ X ∨ (q_ready q = [] → q_ready q' = [])) →
  guards X k0 (k_set_queues (<[n := q']> (k_queues k)) k).
Proof. intros Hg ? ? ?. eapply guards_trans; [exact Hg|]. by eapply guards_put. Qed.

(** A queue in which something was ready needs no guard: nobody waits for it. *)
Lemma guards_busy X k k' n q :
  k_queues k !! n = Some q → q_ready q ≠ [] → guards (X ∪ {[n]}) k k' → guards X k k'.
Proof.
  intros Hq Hr [H1 H2 H3]. split; [done|done|]. intros n' c Hn' Hquiet.
  destruct (decide (n' = n)) as [->|]; [|apply H3; [set_solver|done]].
  destruct Hquiet as [Hc|(q0 & Hq0 & _ & He)]; [left; by apply H1|simplify_eq].
Qed.

End clp.

(** Symbolic execution; [guards] facts about the current core are kept up to date. *)
Ltac clp_step :=
  lazymatch goal with
  | |- clp (mbind _ _) _ _ => apply clp_bind
  | |- clp (mret _) _ _ => apply clp_ret
  | |- clp go_panic _ _ => apply clp_panic
  | |- clp now _ _ => apply clp_now; intros ?
  | |- clp (range_order _) _ _ => apply clp_range; intros ?
  | |- clp (append _) _ _ => apply clp_append; intros ?
  | |- clp (load _) _ _ => apply clp_load; intros ?
  | |- clp (save _ _) _ _ => apply clp_save; intros ?
  | |- clp (new_message _) _ _ => apply clp_new; intros ? ?
  | |- clp get_core _ _ => apply clp_get
  | |- clp get_seq _ _ => apply clp_get_seq; intros ?
  | |- clp (Engine.set_seq _) _ _ => apply clp_set_seq
  | |- clp incr_seq _ _ => apply clp_incr; intros ? ?
  | |- clp nextID _ _ => apply clp_nextID; intros ? ?
  | |- clp nextReceipt _ _ => apply clp_nextReceipt; intros ? ?
  | |- clp (lookup_queue _) _ _ => apply clp_lookup
  | |- clp (deref_queue _) _ _ => apply clp_deref; intros ? ?
  | |- clp (put_queue _ _) _ _ => apply clp_put_queue
  end.
Ltac clp_steps := repeat clp_step.

(** The current core is a change of one that is guarded. *)
Ltac guarded :=
  repeat first
    [ assumption
    | apply guards_refl
    | apply guards_msgs
    | apply guards_seq
    | eapply guards_change; [|eassumption|reflexivity|first [by right|left; set_solver]] ].

Section keeps.
Context {L : Type} `{!Appender L} `{!ConfigJSON}.
Abbreviation M := (GoM (world L)).
Abbreviation keeps X c := (keeps (L:=L) X c).
Abbreviation clp c Q k := (clp (L:=L) c Q k).

Lemma pushReady_keeps n p : keeps {[n]} (pushReady n p).
Proof.
  intros k. unfold pushReady. clp_steps. apply clp_opt. intros h _. clp_steps.
  eapply (guards_change _ _ _ n); [|eassumption|done|left; set_solver]. guarded.
Qed.

Lemma arrive_keeps n p m : keeps {[n]} (arrive n p m).
Proof.
  intros k. unfold arrive. clp_steps. eapply (clp_next _ _ _ k); [apply pushReady_keeps| |done].
  guarded.
Qed.

Lemma popReady_keeps n : keeps ∅ (popReady n).
Proof.
  intros k. unfold popReady. clp_steps. apply clp_opt. intros [p h] Hp. clp_steps.
  eapply (guards_change _ _ _ n); [guarded|eassumption|done|right].
  intros He. by rewrite He in Hp.
Qed.

Lemma add_queue_adds n cfg k :
  k_queues k !! n = None → clp (add_queue n cfg) (λ _ k', guards ∅ k k') k.
Proof.
  intros Hn. unfold add_queue, make_chan. clp_steps. apply clp_put. clp_steps.
  eapply guards_trans; [apply guards_make, is_fresh|]. by apply guards_add.
Qed.

(** A queue is announced, after it was changed. *)
Lemma clp_announce n X k0 k (Q : () → core → Prop) :
  guards (X ∪ {[n]}) k0 k → (∀ k', guards X k0 k' → Q () k') → clp (broadcast n) Q k.
Proof.
  intros Hk HQ. eapply clp_mono; [apply clp_broadcast|]. intros [] k' Ha. apply HQ.
  by eapply guards_announced.
Qed.

Lemma broadcast_keeps n : keeps ∅ (broadcast n).
Proof. intros k. eapply clp_announce; [apply guards_refl|done]. Qed.

Lemma deadLetter_keeps qn p : keeps ∅ (deadLetter qn p).
Proof.
  intros k. unfold deadLetter. clp_steps.
  set (target := c_DeadLetter _). clearbody target.
  eapply (clp_mono _ (λ _ k', guards ∅ k k')).
  { case_decide; clp_steps; [guarded|].
    destruct (k_queues k !! target) eqn:Ht; clp_steps; [guarded|].
    destruct err; clp_steps; [guarded|]. eapply clp_mono; [by apply add_queue_adds|].
    intros [] k' Hk'. by clp_steps. }
  intros [e|] k' Hk'; clp_steps; [done|].
  destruct err; clp_steps; [guarded|].
  case_decide; clp_steps; [guarded|].
  eapply (clp_next {[target]} _ _ k); [apply arrive_keeps|eapply (guards_weaken ∅); [set_solver|guarded]|].
  intros [] k1 Hk1. clp_steps. eapply (clp_announce _ ∅ k); [by rewrite union_empty_l_L|].
  intros k2 Hk2. by clp_steps.
Qed.

(** sweepQueue announces the queue if something became ready. *)
Lemma sweep_loop_keeps qn at_ ids : ∀ next woke k,
  clp (sweep_loop qn at_ ids next woke)
    (λ res k', guards (if res.2 then {[qn]} else ∅) k k' ∧ (woke = true → res.2 = true)) k.
Proof.
  induction ids as [|id ids IH]; intros next woke k; cbn [sweep_loop]; clp_steps; [by split; [guarded|]|].
  destruct (q_pending q !! id) as [p|]; [|apply IH]. clp_steps.
  destruct (After _ _); [apply IH|]. destruct (_ && _).
  - clp_steps. eapply (clp_next ∅ _ _ k); [apply deadLetter_keeps|guarded|]. intros ? k1 Hk1.
    eapply clp_mono; [apply IH|]. intros res k2 [H2 Hw]. split; [|done].
    eapply guards_trans; [|exact H2]. eapply guards_weaken; [|exact Hk1]. set_solver.
  - clp_steps. eapply (clp_next {[qn]} _ _ k); [apply pushReady_keeps|guarded|]. intros [] k1 Hk1.
    eapply clp_mono; [apply IH|]. intros res k2 [H2 Hw]. specialize (Hw eq_refl).
    rewrite Hw in H2 |- *. split; [|done]. by eapply guards_trans.
Qed.

Lemma sweepQueue_keeps qn at_ : keeps ∅ (sweepQueue qn at_).
Proof.
  intros k. unfold sweepQueue. clp_steps. eapply clp_mono; [apply sweep_loop_keeps|].
  intros [next woke] k1 [Hk1 _]. cbn [snd] in Hk1. clp_steps. destruct woke; clp_steps.
  - eapply (clp_announce _ ∅ k); [by rewrite union_empty_l_L|]. intros k2 Hk2. by clp_steps.
  - done.
Qed.

(** ** The exported operations *)

Lemma keeps_ret {A} X (a : A) : keeps X (mret a).
Proof. intros k. apply clp_ret. guarded. Qed.

Lemma lease_loop_keeps fuel qn max vis t : ∀ ds k,
  clp (lease_loop fuel qn max vis t ds)
    (λ res k', guards {[qn]} k k' ∧ (ds ≠ [] → res.1 ≠ []) ∧
       (1 ≤ max → res = ([], None) → ∃ q, k_queues k' !! qn = Some q ∧ q_ready q = [])) k.
Proof.
  induction fuel as [|fuel IH]; intros ds k; cbn [lease_loop]; clp_steps.
  destruct (_ && _) eqn:Hcond.
  - clp_steps. eapply (clp_next {[qn]} _ _ k); [|guarded|].
    { eapply (keeps_weaken ∅); [set_solver|apply popReady_keeps]. }
    intros p k1 Hk1. clp_steps. destruct err; clp_steps.
    + eapply (clp_next {[qn]} _ _ k); [apply pushReady_keeps|guarded|]. intros [] k2 Hk2. clp_steps.
      split; [done|]. split; [done|]. intros _ [=].
    + eapply clp_mono; [apply IH|]. intros res k2 (H2 & Hne & Hend). split; [|split; [|done]].
      * eapply guards_trans; [|exact H2]. guarded.
      * intros _. apply Hne. by destruct ds.
  - clp_steps. split; [guarded|]. split; [done|]. intros Hm [= ->]. exists q. split; [done|].
    apply andb_false_iff in Hcond as [Hc|Hc]; apply Z.ltb_ge in Hc; [cbn in Hc; lia|].
    destruct (q_ready q); [done|cbn in Hc; lia].
Qed.

(** lease puts nothing new in front of the receivers; if it returns nothing, nothing is
    ready. *)
Lemma lease_keeps qn max vis t k :
  clp (lease qn max vis t)
    (λ res k', guards ∅ k k' ∧
       (1 ≤ max → res = ([], None) → ∃ q, k_queues k' !! qn = Some q ∧ q_ready q = [])) k.
Proof.
  unfold lease. clp_steps. destruct (decide (q_ready q = [])) as [He|Hne].
  - rewrite He. cbn [length lease_loop]. clp_steps. rewrite H0 in H1. simplify_eq. rewrite He, andb_false_r.
    clp_steps. split; [guarded|]. eauto.
  - eapply clp_mono; [apply lease_loop_keeps|]. intros res k' (Hk' & _ & Hend). split; [|done].
    eapply guards_busy; [done|done|]. by rewrite union_empty_l_L.
Qed.

(** One turn of Receive: without deliveries, the channel it waits on is quiet. *)
Lemma Receive_once_keeps n max vis k :
  1 ≤ max →
  clp (Receive_once n max vis)
    (λ res k', guards ∅ k k' ∧ ∀ c, res = Ok ([], c) → quiet k' n c) k.
Proof.
  intros Hm. unfold Receive_once. clp_steps. destruct (k_queues k !! n) as [q0|]; clp_steps;
    [|split; [guarded|done]].
  eapply (clp_next ∅ _ _ k); [apply sweepQueue_keeps|guarded|]. intros ? k1 Hk1. clp_steps.
  eapply clp_mono; [apply lease_keeps|]. intros [ds err] k2 [Hk2 Hend]. clp_steps.
  assert (guards ∅ k k2) as Hk by by eapply guards_trans.
  destruct err as [e|]; clp_steps; (split; [done|]); intros c; [done|]. intros [= -> <-].
  destruct (Hend Hm eq_refl) as (q' & Hq' & He). right. exists q'. by simplify_eq.
Qed.

Lemma lookupLease_keeps n id receipt : keeps ∅ (lookupLease n id receipt).
Proof.
  intros k. unfold lookupLease. clp_steps. destruct (k_queues k !! n); clp_steps; [|guarded].
  eapply (clp_next ∅ _ _ k); [apply sweepQueue_keeps|guarded|]. intros ? k1 Hk1. clp_steps.
  destruct (q_byID _ !! id); clp_steps; [|done]. repeat case_decide; by clp_steps.
Qed.

Lemma Ack_keeps n id receipt : keeps ∅ (Ack n id receipt).
Proof.
  intros k. unfold Ack. clp_steps.
  eapply (clp_next ∅ _ _ k); [apply lookupLease_keeps|guarded|]. intros r k1 Hk1.
  destruct r; clp_steps; [|done]. destruct err; clp_steps; guarded.
Qed.

Lemma Nack_keeps n id receipt : keeps ∅ (Nack n id receipt).
Proof.
  intros k. unfold Nack. clp_steps.
  eapply (clp_next ∅ _ _ k); [apply lookupLease_keeps|guarded|]. intros r k1 Hk1.
  destruct r as [p|]; clp_steps; [|done]. destruct (exhausted _ _).
  - eapply (clp_next ∅ _ _ k); [apply deadLetter_keeps|guarded|done].
  - clp_steps. destruct err; clp_steps; [done|].
    eapply (clp_next {[n]} _ _ k); [apply pushReady_keeps| |].
    { eapply (guards_weaken ∅); [set_solver|guarded]. }
    intros [] k2 Hk2. clp_steps. eapply (clp_announce _ ∅ k); [by rewrite union_empty_l_L|].
    intros k3 Hk3. by clp_steps.
Qed.

Lemma Extend_keeps n id receipt vis : keeps ∅ (Extend n id receipt vis).
Proof.
  intros k. unfold Extend. destruct (_ || _); [by apply keeps_ret|]. clp_steps.
  eapply (clp_next ∅ _ _ k); [apply lookupLease_keeps|guarded|]. intros r k1 Hk1.
  destruct r; clp_steps; [|done]. destruct err; clp_steps; guarded.
Qed.

Lemma Send_keeps n body delay : keeps ∅ (Send n body delay).
Proof.
  intros k. unfold Send. destruct (_ || _); [by apply keeps_ret|]. clp_steps.
  destruct (k_queues k !! n); clp_steps; [|guarded]. destruct err; clp_steps; [guarded|].
  destruct (0 <? delay); clp_steps; [guarded|].
  eapply (clp_next {[n]} _ _ k); [apply pushReady_keeps| |].
  { eapply (guards_weaken ∅); [set_solver|guarded]. }
  intros [] k2 Hk2. clp_steps. eapply (clp_announce _ ∅ k); [by rewrite union_empty_l_L|].
  intros k3 Hk3. by clp_steps.
Qed.

Lemma CreateQueue_keeps n cfg : keeps ∅ (CreateQueue n cfg).
Proof.
  intros k. unfold CreateQueue. destruct (negb _); [by apply keeps_ret|].
  case_decide; [by apply keeps_ret|]. clp_steps. destruct err; clp_steps; [guarded|].
  destruct (k_queues k !! n) eqn:Hn; clp_steps; [guarded|].
  eapply clp_mono; [by apply add_queue_adds|]. intros [] k1 Hk1. by clp_steps.
Qed.

(** A queue that is deleted is announced, too. *)
Lemma DeleteQueue_keeps n : keeps ∅ (DeleteQueue n).
Proof.
  intros k. unfold DeleteQueue. clp_steps. destruct (k_queues k !! n) as [q|] eqn:Hn; clp_steps; [|guarded].
  destruct err; clp_steps; [guarded|]. apply clp_put. clp_steps.
  unfold broadcast_detached, close_chan, make_chan. clp_steps. cbn [k_set_queues k_chans].
  destruct (k_chans k !! q_wake q) as [[]|] eqn:Hc; [apply clp_panic| |apply clp_panic].
  apply clp_put. clp_steps. apply clp_put. clp_steps. eapply guards_trans; [|apply guards_make, is_fresh].
  assert (∀ d, closed k d ∨ d = q_wake q → <[q_wake q:=true]> (k_chans k) !! d = Some true) as Hcl.
  { intros d Hd. destruct (decide (d = q_wake q)) as [->|]; [by rewrite lookup_insert_eq|].
    rewrite lookup_insert_ne by done. by destruct Hd. }
  split; unfold closed, watched, quiet; simpl.
  - intros d Hd. apply Hcl. by left.
  - intros n' d [Hd|(q0 & Hq0 & <-)]; [left; apply Hcl; by left|].
    destruct (decide (n' = n)) as [->|]; [left; apply Hcl; right; by simplify_eq|].
    right. exists q0. by rewrite lookup_delete_ne.
  - intros n' d _ [Hd|(q0 & Hq0 & <- & He)]; [left; apply Hcl; by left|].
    destruct (decide (n' = n)) as [->|]; [left; apply Hcl; right; by simplify_eq|].
    right. exists q0. by rewrite lookup_delete_ne.
Qed.

Lemma sweep_all_keeps t names : ∀ next, keeps ∅ (sweep_all t names next).
Proof.
  induction names as [|n names IH]; intros next k; cbn [sweep_all]; clp_steps; [guarded|].
  destruct (k_queues k !! n); clp_steps; [|apply IH].
  eapply (clp_next ∅ _ _ k); [apply sweepQueue_keeps|guarded|]. intros d k1 Hk1. clp_steps.
  eapply clp_next; [apply IH|exact Hk1|done].
Qed.

Lemma Sweep_keeps t : keeps ∅ (Sweep t).
Proof. intros k. unfold Sweep. clp_steps. apply sweep_all_keeps. Qed.

Lemma statsOf_keeps n : keeps ∅ (statsOf n).
Proof.
  intros k. unfold statsOf. clp_steps. apply clp_opt. intros [[ready delayed] leased] _.
  clp_steps. guarded.
Qed.

Lemma QueueStats_keeps n : keeps ∅ (QueueStats n).
Proof.
  intros k. unfold QueueStats. clp_steps. destruct (k_queues k !! n); clp_steps; [|guarded].
  eapply (clp_next ∅ _ _ k); [apply sweepQueue_keeps|guarded|]. intros d k1 Hk1. clp_steps.
  eapply (clp_next ∅ _ _ k); [apply statsOf_keeps|exact Hk1|]. intros s k2 Hk2. by clp_steps.
Qed.

Lemma list_stats_keeps t names : ∀ out, keeps ∅ (list_stats_loop t names out).
Proof.
  induction names as [|n names IH]; intros out k; cbn [list_stats_loop]; clp_steps; [guarded|].
  destruct (k_queues k !! n); clp_steps; [|apply IH].
  eapply (clp_next ∅ _ _ k); [apply sweepQueue_keeps|guarded|]. intros d k1 Hk1. clp_steps.
  eapply (clp_next ∅ _ _ k); [apply statsOf_keeps|exact Hk1|]. intros s k2 Hk2.
  eapply clp_next; [apply IH|exact Hk2|done].
Qed.

Lemma ListStats_keeps : keeps ∅ ListStats.
Proof.
  intros k. unfold ListStats. clp_steps. eapply clp_mono; [apply list_stats_keeps|].
  intros out k1 Hk1. by clp_steps.
Qed.

(** Redrive: the target is announced at the end; a failed append in the middle of a
    batch skips that. *)
Lemma redrive_loop_keeps fuel from to max : ∀ moved k,
  0 ≤ moved →
  clp (redrive_loop fuel from to max moved)
    (λ res k', moved ≤ res.1 ∧
       guards (if decide (res.1 = moved) then {[from]} else {[from; to]}) k k') k.
Proof.
  induction fuel as [|fuel IH]; intros moved k Hm; cbn [redrive_loop]; clp_steps.
  destruct (_ && _); clp_steps; [|by split; [cbn; lia|guarded]].
  eapply (clp_next {[from]} _ _ k); [|guarded|].
  { eapply (keeps_weaken ∅); [set_solver|apply popReady_keeps]. }
  intros p k1 Hk1. clp_steps. destruct err; clp_steps.
  - eapply (clp_next {[from]} _ _ k); [apply pushReady_keeps|guarded|]. intros [] k2 Hk2. clp_steps.
    cbn [fst]. rewrite decide_True by done. split; [lia|done].
  - eapply (clp_next {[from; to]} _ _ k).
    { eapply (keeps_weaken {[to]}); [set_solver|apply arrive_keeps]. }
    { apply (guards_weaken {[from]}); [set_solver|]. guarded. }
    intros [] k2 Hk2. eapply clp_mono; [apply IH; lia|]. intros res k3 [Hle Hk3].
    split; [lia|]. rewrite decide_False by lia. eapply guards_trans; [exact Hk2|].
    eapply guards_weaken; [|exact Hk3]. case_decide; set_solver.
Qed.

(** The append of a move failed after a message had been moved. *)
Definition broken_off (res : Z * option error) : bool :=
  match res.2 with Some _ => 0 <? res.1 | None => false end.

(** Then the target is not announced. *)
Lemma Redrive_keeps from to max k :
  clp (Redrive from to max) (λ res k', guards (if broken_off res then {[to]} else ∅) k k') k.
Proof.
  unfold Redrive. case_decide; clp_steps; [guarded|].
  destruct (k_queues k !! from); clp_steps; [|guarded].
  destruct (k_queues k !! to); clp_steps; [|guarded].
  eapply (clp_next ∅ _ _ k); [apply sweepQueue_keeps|guarded|]. intros d k1 Hk1. clp_steps.
  destruct (decide (q_ready q1 = [])) as [He|Hne].
  { rewrite He. cbn [length redrive_loop]. clp_steps. simplify_eq. rewrite He, andb_false_r.
    clp_steps. change (0 <? 0) with false. cbv iota. by clp_steps. }
  eapply clp_mono; [apply redrive_loop_keeps; done|]. intros [moved err] k2 [Hle Hk2]. cbn [fst] in *.
  assert (guards (if decide (moved = 0) then ∅ else {[to]}) k k2) as Hk.
  { eapply guards_trans; [eapply guards_weaken; [|exact Hk1]; set_solver|].
    eapply guards_busy; [done|done|]. case_decide; [by rewrite union_empty_l_L|].
    by rewrite (union_comm_L {[to]}). }
  destruct err as [e|]; clp_steps.
  - cbn. destruct (Z.ltb_spec 0 moved); [by rewrite decide_False in Hk by lia|].
    by rewrite decide_True in Hk by lia.
  - destruct (Z.ltb_spec 0 moved); clp_steps.
    + rewrite decide_False in Hk by lia. eapply (clp_announce _ ∅ k); [by rewrite union_empty_l_L|].
      intros k3 Hk3. by clp_steps.
    + by rewrite decide_True in Hk by lia.
Qed.
End keeps.
