(* ===== verification/LongPoll.v ===== *)
(** Long polling: the calls of Receive that wait, next to everything else that happens
    to the engine.  A call is a thread that takes turns under the lock and sleeps in a
    select between two turns.  The theorems: every call on an engine returns, a turn of
    Receive included; nobody sleeps through a message, unless a Redrive into the queue
    broke off after it had moved one (engine.go then returns without the broadcast); a
    receiver that is woken for a message returns; and what a Redrive that breaks off
    leaves behind. *)

From S2P Require Import Prelude GoHeap Ids WalRecord Config Message Engine Spec Invariant.
From S2P Require Import Refine RefineTime RefineOps RefineRecv Trace LoadTotal Runs Wakeup.
From S2P Require Import ConfigWire Instances Demo Recovery.
From stdpp Require Import fin_maps.

Local Open Scope Z_scope.

(** ** Receive *)

(** The arguments of a call of Receive, and how far it is: about to take a turn, asleep
    on the channel it read in its last turn, or back. *)
Record poll := mkPoll { po_queue : string; po_max : Z; po_wait : Z; po_vis : Z }.

Inductive thread :=
  | TTurn (p : poll)
  | TWait (p : poll) (wake : positive)
  | TDone (r : result (list Delivery)).

(** Before the loop. *)
Definition Receive_begin (p : poll) : thread :=
  match Receive_args (po_max p) (po_vis p) with
  | Err e => TDone (Err e)
  | Ok max => TTurn (mkPoll (po_queue p) max (po_wait p) (po_vis p))
  end.

(** The select: the context is canceled, the timer fires, or the channel is closed. *)
Inductive wakeup := Canceled | Elapsed | Woken.

Definition ctx_error : error := Errorf "context canceled" [].

Definition Receive_select (p : poll) (wake : positive) (k : core) (u : wakeup) : option thread :=
  match u with
  | Canceled => Some (TDone (Err ctx_error))
  | Elapsed => Some (TDone (Ok []))
  | Woken => if bool_decide (closed k wake) then Some (TTurn p) else None
  end.

Section poll.
Context {L : Type} `{!Appender L} `{!LogLaws L} `{!ConfigJSON}.
Implicit Types w : world L.

(** The body of the loop, up to the select. *)
Definition Receive_turn (p : poll) : GoM (world L) thread :=
  r ← Receive_once (po_queue p) (po_max p) (po_vis p);
  mret match r with
       | Err e => TDone (Err e)
       | Ok (ds, wake) =>
         if (0 <? Z.of_nat (length ds)) || (po_wait p <=? 0) then TDone (Ok ds) else TWait p wake
       end.

(** ** The system: the engine and the calls of Receive that are under way *)

Definition system : Type := world L * gmap nat thread.

(** What happens: the engine runs a call, which may be a Redrive into the queue [to]
    that breaks off after it has moved a message; or a call of Receive makes progress. *)
Inductive event := EEngine (interrupted : option string) | EThread (i : nat).

Definition interrupted (c : call) w : option string :=
  match c with
  | CRedrive from to max =>
    match Redrive from to max w with
    | Some (res, _) => if broken_off res then Some to else None
    | None => None
    end
  | _ => None
  end.

Inductive sys_step : system → event → system → Prop :=
  | sys_call w ts c w' :
      operates c = true → k_seq (w_core w) < 2 ^ 62 → run_call c w = Some ((), w') →
      sys_step (w, ts) (EEngine (interrupted c w)) (w', ts)
  | sys_receive w ts i p :
      ts !! i = None → sys_step (w, ts) (EThread i) (w, <[i := Receive_begin p]> ts)
  | sys_turn w ts i p t w' :
      ts !! i = Some (TTurn p) → k_seq (w_core w) < 2 ^ 62 → Receive_turn p w = Some (t, w') →
      sys_step (w, ts) (EThread i) (w', <[i := t]> ts)
  | sys_select w ts i p wake u t :
      ts !! i = Some (TWait p wake) → Receive_select p wake (w_core w) u = Some t →
      sys_step (w, ts) (EThread i) (w, <[i := t]> ts).

(** Runs of the system, with what has happened so far. *)
Inductive sys_run (s0 : system) : list event → system → Prop :=
  | sys_start : sys_run s0 [] s0
  | sys_next es s e s' : sys_run s0 es s → sys_step s e s' → sys_run s0 (es ++ [e]) s'.

Definition sys_reachable (log : option L) (env : Env) : list event → system → Prop :=
  sys_run (New log env, ∅).

Lemma sys_run_app s1 es1 s2 es2 s3 :
  sys_run s1 es1 s2 → sys_run s2 es2 s3 → sys_run s1 (es1 ++ es2) s3.
Proof.
  intros H1. induction 1 as [|es s e s' _ IH Hst]; [by rewrite app_nil_r|].
  rewrite app_assoc. by eapply sys_next.
Qed.

Lemma sys_run_one s e s' : sys_step s e s' → sys_run s [e] s'.
Proof. apply (sys_next s []). constructor. Qed.

(** Since the last turn of the call [i], a Redrive into the queue [n] has broken off. *)
Definition stranded (es : list event) (i : nat) (n : string) : Prop :=
  ∃ es1 es2, es = es1 ++ EEngine (Some n) :: es2 ∧ EThread i ∉ es2.

Lemma stranded_now es i n : stranded (es ++ [EEngine (Some n)]) i n.
Proof. exists es, []. split; [done|]. apply not_elem_of_nil. Qed.

Lemma stranded_still es e i n : stranded es i n → e ≠ EThread i → stranded (es ++ [e]) i n.
Proof.
  intros (es1 & es2 & -> & Hni) He. exists es1, (es2 ++ [e]). split; [by rewrite <-app_assoc|].
  rewrite elem_of_app, list_elem_of_singleton. intros [?|?]; [done|congruence].
Qed.

Lemma stranded_in es i n : stranded es i n → EEngine (Some n) ∈ es.
Proof. intros (es1 & es2 & -> & _). apply elem_of_app. right. by left. Qed.

(** ** The invariant *)

Record sys_ok (es : list event) (s : system) : Prop := {
  so_wf : wf (w_core s.1);
  so_turn i p : s.2 !! i = Some (TTurn p) → 1 ≤ po_max p;
  so_wait i p wake : s.2 !! i = Some (TWait p wake) →
    1 ≤ po_max p ∧ watched (w_core s.1) (po_queue p) wake ∧
    (quiet (w_core s.1) (po_queue p) wake ∨ stranded es i (po_queue p));
}.

Lemma call_guards c w w' :
  operates c = true → run_call c w = Some ((), w') →
  guards (if interrupted c w is Some to then {[to]} else ∅) (w_core w) (w_core w').
Proof.
  assert (∀ (A : Type) (o : GoM (world L) A), keeps ∅ o → (_ ← o; mret ()) w = Some ((), w') →
            guards ∅ (w_core w) (w_core w')) as Hk.
  { intros A o Ho Hr. unfold mbind, GoM_bind in Hr. destruct (o w) as [[a w1]|] eqn:E; [|done].
    injection Hr as <-. exact (Ho _ _ _ _ eq_refl E). }
  intros Hop. destruct c; cbn [run_call interrupted]; intros Hr.
  - eapply Hk; [apply CreateQueue_keeps|exact Hr].
  - eapply Hk; [apply DeleteQueue_keeps|exact Hr].
  - eapply Hk; [apply Send_keeps|exact Hr].
  - eapply Hk; [|exact Hr]. intros k. unfold Receive_nowait.
    destruct (Receive_args max visibility) as [max'|e] eqn:Ha; [|by apply keeps_ret].
    assert (1 ≤ max') as Hm.
    { unfold Receive_args in Ha. destruct (_ || _); [done|]. injection Ha as <-.
      destruct (Z.ltb_spec max 1); lia. }
    apply clp_bind. eapply clp_mono; [by apply Receive_once_keeps|].
    intros r k' [Hk' _]. destruct r as [[ds wake]|e]; by apply clp_ret.
  - eapply Hk; [apply Ack_keeps|exact Hr].
  - eapply Hk; [apply Nack_keeps|exact Hr].
  - eapply Hk; [apply Extend_keeps|exact Hr].
  - unfold mbind, GoM_bind in Hr. destruct (Redrive from to max w) as [[a w1]|] eqn:E; [|done].
    injection Hr as <-. pose proof (Redrive_keeps _ _ _ _ _ _ _ eq_refl E) as Hg.
    cbv beta in Hg. revert Hg. by destruct (broken_off a).
  - eapply Hk; [apply Sweep_keeps|exact Hr].
  - eapply Hk; [apply QueueStats_keeps|exact Hr].
  - eapply Hk; [apply ListStats_keeps|exact Hr].
  - unfold mbind, GoM_bind in Hr. destruct (Snapshot w) as [[recs w1]|] eqn:E; [|done].
    injection Hr as <-. rewrite (Snapshot_pure _ _ _ E). apply guards_refl.
  - done.
Qed.

(** What a sleeping call relies on, after a call of the engine. *)
Lemma waits_on es i X k k' n c :
  guards (if X is Some to then {[to]} else ∅) k k' →
  watched k n c ∧ (quiet k n c ∨ stranded es i n) →
  watched k' n c ∧ (quiet k' n c ∨ stranded (es ++ [EEngine X]) i n).
Proof.
  intros Hg [Hw Hq]. split; [by apply Hg|]. destruct (decide (X = Some n)) as [->|Hne].
  - right. apply stranded_now.
  - destruct Hq as [Hq|Hs]; [left|right; by apply stranded_still].
    apply Hg; [|done]. destruct X; [|done]. rewrite elem_of_singleton. congruence.
Qed.

(** A turn: what it leaves, and how it ends. *)
Lemma turn_ok p w t w' :
  1 ≤ po_max p → Receive_turn p w = Some (t, w') →
  guards ∅ (w_core w) (w_core w') ∧ (∀ p', t ≠ TTurn p') ∧
  ∀ p' wake, t = TWait p' wake → p' = p ∧ quiet (w_core w') (po_queue p) wake.
Proof.
  intros Hm Hr. unfold Receive_turn, mbind, GoM_bind in Hr.
  destruct (Receive_once _ _ _ w) as [[r w1]|] eqn:E; [|done]. injection Hr as <- <-.
  destruct (Receive_once_keeps _ _ (po_vis p) _ Hm _ _ _ eq_refl E) as [Hg Hq].
  split; [done|]. destruct r as [[ds wake]|e]; [|done].
  destruct ds as [|d ds]; [|done]. destruct (po_wait p <=? 0); [done|]. cbn.
  split; [done|]. intros p' wake' [= <- <-]. split; [done|]. by apply Hq.
Qed.

(** A turn returns. *)
Lemma wp_turn p w :
  roomy w → wp (Receive_turn p) (λ t w', wf (w_core w') ∧ ∀ p', t ≠ TTurn p') w.
Proof.
  intros Hro. unfold Receive_turn. apply wp_bind.
  eapply wp_mono; [by apply (wp_Receive_once (po_queue p) (po_max p) (po_vis p))|].
  intros r w1 Hp. apply wp_ret. split.
  - destruct Hp as [(_ & _ & ->)|(t & w2 & c & _ & _ & Hl)]; [apply Hro|].
    assert (∃ x, leases w2 (po_queue p) (po_max p) (effective c (po_vis p)) t [] x w1) as (x & Hx).
    { destruct r as [[ds wake]|e]; [destruct Hl as [Hl _]; eauto|destruct Hl as [ds Hl]; eauto]. }
    destruct Hx as (new & ls & _ & _ & _ & Hend). destruct (x.2); apply Hend.
  - destruct r as [[ds wake]|e]; [|done]. by destruct (_ || _).
Qed.

Lemma sys_step_ok es s e s' : sys_step s e s' → sys_ok es s → sys_ok (es ++ [e]) s'.
Proof.
  intros [w ts c w' Hop Hs Hr|w ts i p Hi|w ts i p t w' Hi Hs Hr|w ts i p wake u t Hi Ht] [Hwf Htu Hwa];
    cbn [fst snd] in *.
  - pose proof (call_guards _ _ _ Hop Hr) as Hg.
    destruct (wp_use _ _ _ _ _ (wp_run_call c w Hop ltac:(by split)) Hr) as (ls & Hev & _).
    split; cbn [fst snd]; [apply Hev|done|]. intros i p wake Hi.
    destruct (Hwa _ _ _ Hi) as [Hm Hq]. split; [done|]. by eapply waits_on.
  - split; cbn [fst snd]; [done|..].
    + intros j p' [[-> Hp]|[Hj Hp]]%lookup_insert_Some; [|by eapply Htu].
      unfold Receive_begin, Receive_args in Hp. destruct (_ || _); [done|].
      injection Hp as <-. cbn. destruct (Z.ltb_spec (po_max p) 1); lia.
    + intros j p' wake [[-> Hp]|[Hj Hp]]%lookup_insert_Some.
      * unfold Receive_begin in Hp. by destruct (Receive_args _ _).
      * destruct (Hwa _ _ _ Hp) as (? & ? & [?|?]); split_and!; auto.
        right. apply stranded_still; [done|congruence].
  - pose proof (Htu _ _ Hi) as Hm. destruct (turn_ok _ _ _ _ Hm Hr) as (Hg & Hnt & Hnw).
    split; cbn [fst snd].
    + by destruct (wp_use _ _ _ _ _ (wp_turn p w ltac:(by split)) Hr) as [? _].
    + intros j p' [[-> ->]|[Hj Hp]]%lookup_insert_Some; [by destruct (Hnt p')|by eapply Htu].
    + intros j p' wake [[-> ->]|[Hj Hp]]%lookup_insert_Some.
      * destruct (Hnw _ _ eq_refl) as [-> Hq]. split; [done|].
        split; [by apply quiet_watched|by left].
      * destruct (Hwa _ _ _ Hp) as (Hm' & Hw & Hq). split; [done|].
        split; [by apply Hg|]. destruct Hq as [Hq|Hq]; [left; apply Hg; [set_solver|done]|right].
        apply stranded_still; [done|congruence].
  - destruct (Hwa _ _ _ Hi) as [Hm _]. split; cbn [fst snd]; [done|..].
    + intros j p' [[-> ->]|[Hj Hp]]%lookup_insert_Some; [|by eapply Htu].
      destruct u; simplify_eq/=. by case_bool_decide; simplify_eq.
    + intros j p' wake' [[-> ->]|[Hj Hp]]%lookup_insert_Some.
      * destruct u; simplify_eq/=. by case_bool_decide.
      * destruct (Hwa _ _ _ Hp) as (? & ? & [?|?]); split_and!; auto.
        right. apply stranded_still; [done|congruence].
Qed.

Lemma sys_reachable_ok log env es s : sys_reachable log env es s → sys_ok es s.
Proof.
  induction 1 as [|es s e s' _ IH Hst]; [|by eapply sys_step_ok].
  split; cbn; [apply wf_empty|by intros ? ?|by intros ? ? ?].
Qed.

(** Calls are steps of the system; without Redrive nothing breaks off. *)
Definition not_redrive (c : call) : bool := if c is CRedrive _ _ _ then false else true.

Lemma runs_sys w cs w' ts :
  runs w cs w' → forallb not_redrive cs = true →
  sys_run (w, ts) (replicate (length cs) (EEngine None)) (w', ts).
Proof.
  induction 1 as [w|w c w1 cs w2 Hop Hs Hr _ IH]; [intros _; constructor|].
  intros [Hc Hcs]%andb_true_iff. apply (sys_run_app _ [EEngine None] (w1, ts)); [|by apply IH].
  assert (interrupted c w = None) as <- by (by destruct c). apply sys_run_one. by apply sys_call.
Qed.

(** ** The theorems *)

(** An engine in use: one that was started on the log of engines before it, with
    compactions or without, or a new one with any log or none. *)
Definition live `{!ConfigJSONLaws} w : Prop :=
  (∃ c w0 cs, life c w0 cs w) ∨ ∃ log env, reachable log env w.

Lemma live_wf `{!ConfigJSONLaws} w : live w → wf (w_core w).
Proof.
  intros [(c & w0 & cs & Hl)|(log & env & Hr)]; [|by eapply reachable_wf].
  destruct (life_alive _ _ _ _ Hl) as (recs & ls & Ha). apply Ha.
Qed.

(** C7: every call on the engine returns: no nil dereference, no index out of
    range, no channel closed twice, and every loop ends.  This holds for every exported
    method, in every state of an engine in use, engines after a restart or a compaction
    included: the call returns, and leaves the data structures well-formed; a call of
    Receive that waits returns from every turn it takes under the lock, with its answer
    or to sleep; and Load, which is made on a new engine, returns (with nil or an
    error) for every sequence of records whatever, and even where it is not meant to be
    called. *)
Theorem calls_return `{!ConfigJSONLaws} w :
  live w → k_seq (w_core w) < 2 ^ 62 →
  (∀ c, ∃ w', run_call c w = Some ((), w') ∧ (operates c = true → wf (w_core w'))) ∧
  (∀ p, ∃ t w', Receive_turn p w = Some (t, w') ∧ wf (w_core w') ∧ ∀ p', t ≠ TTurn p') ∧
  ∀ recs log env, ∃ err w', Load recs (New log env) = Some (err, w').
Proof.
  intros Hl%live_wf Hs. assert (roomy w) as Hro by (by split). split_and!.
  - intros c. destruct (operates c) eqn:Hop.
    + destruct (wp_elim _ _ _ (wp_run_call c w Hop Hro)) as ([] & w' & Hrun & ls & Hev & _).
      exists w'. split; [done|]. intros _. apply Hev.
    + destruct c; try done. cbn [run_call].
      destruct (wp_elim _ _ _ (safe_Load recs w (wf_safe _ Hl))) as (err & w' & Hrun & _).
      exists w'. split; [|done]. unfold mbind, GoM_bind. by rewrite Hrun.
  - intros p. exact (wp_elim _ _ _ (wp_turn p w Hro)).
  - intros recs log env.
    destruct (wp_elim _ _ _ (safe_Load recs (New log env) (wf_safe _ wf_empty))) as (err & w' & Hrun & _).
    eauto.
Qed.

(** C16: nobody sleeps through a message.  Whatever the receivers, the other operations,
    the timers and the cancellations do, in any order: if a call of Receive sleeps, and
    its queue is gone, then its channel is closed, so that the select can go on at once;
    if the queue is there, then the channel is closed, or it is the one that the next
    arrival closes, and no message of the queue is ready, with one exception: since the
    last turn of the call, a Redrive into the queue has moved messages and then failed,
    for the append of a further move; it returns without the broadcast. *)
Theorem no_lost_wakeup log env es w ts i p wake :
  sys_reachable log env es (w, ts) → ts !! i = Some (TWait p wake) →
  match k_queues (w_core w) !! po_queue p with
  | None => closed (w_core w) wake
  | Some q =>
    closed (w_core w) wake ∨
    q_wake q = wake ∧ (q_ready q = [] ∨ stranded es i (po_queue p))
  end.
Proof.
  intros Hr%sys_reachable_ok Hi. destruct (so_wait _ _ Hr _ _ _ Hi) as (_ & Hw & Hq).
  cbn [fst] in *. destruct Hw as [Hc|(q & Hq1 & Hw)]; [destruct (k_queues _ !! _); auto|].
  rewrite Hq1. destruct Hq as [[Hc|(q2 & Hq2 & _ & He)]|Hs]; [by left|right|by auto].
  split; [done|]. left. congruence.
Qed.

Lemma no_steps A B : asteps A [] B → A = B.
Proof. intros Hst. by inversion Hst. Qed.

(** A ready message stays ready while its queue is swept. *)
Lemma sweep_keeps_ready A ls B n at_ n' id m :
  awf A → asteps A ls B → Forall (is_sweep n at_) ls →
  a_lookup A n' id = Some m → a_Status m = AReady → a_lookup B n' id = Some m.
Proof.
  intros HA Hst. induction Hst as [|A l A1 ls B Hone Hst IH]; [done|].
  intros [Hl Hls]%Forall_cons Hm Hs. apply IH; [by eapply astep_awf|done| |done].
  assert (∀ m', a_lookup A n id = Some m' → a_Status m' ≠ AReady → n' ≠ n) as Hne.
  { intros m' Hm' Hs' ->. congruence. }
  destruct Hone; simpl in Hl; try done.
  - by rewrite a_lookup_create.
  - rewrite a_lookup_del, decide_False; [done|]. intros [-> ->]. simplify_eq.
    unfold is_leased in *. rewrite Hs in *. done.
  - assert (∀ r d, a_Status m = ALeased r d → False) as Hnl by (intros; congruence).
    destruct (decide (id0 = id)) as [->|Hid].
    + assert (n' = n0) as -> by by eapply (aw_unique _ HA). simplify_eq.
      unfold is_leased in *. rewrite Hs in *. done.
    + rewrite a_lookup_put by (by apply as_queues_is_Some_del).
      rewrite decide_False by naive_solver. rewrite a_lookup_set_seq, a_lookup_del.
      by rewrite decide_False by naive_solver.
  - rewrite a_lookup_put by eauto using a_lookup_is_Some. rewrite decide_False; [done|].
    intros [-> ->]. congruence.
Qed.

(** C17: a receiver that is woken for a message returns.  In every state that the system
    can reach, if a call of Receive sleeps and a message of its queue is ready, and no
    Redrive into the queue has broken off since the last turn of the call, then it can
    wake up, and its next turn ends the call: with at least one message, or with the
    error that Append returned for the record of a delivery. *)
Theorem woken_receiver_returns log env es w ts i p wake id m :
  sys_reachable log env es (w, ts) → ts !! i = Some (TWait p wake) →
  k_seq (w_core w) < 2 ^ 62 → ¬ stranded es i (po_queue p) →
  a_lookup (abs (w_core w)) (po_queue p) id = Some m → a_Status m = AReady →
  ∃ w' r, sys_step (w, ts) (EThread i) (w, <[i := TTurn p]> ts) ∧
    sys_step (w, <[i := TTurn p]> ts) (EThread i) (w', <[i := TDone r]> ts) ∧
    match r with
    | Ok ds => ds ≠ []
    | Err e => ∃ id' receipt at_ deadline count,
        append_failed w (LRecv (po_queue p) id' receipt at_ deadline count) e w'
    end.
Proof.
  intros Hr Hi Hs Hns Hm Hst. pose proof (sys_reachable_ok _ _ _ _ Hr) as Hok.
  pose proof (so_wf _ _ Hok) as Hwf. cbn [fst] in Hwf.
  destruct (so_wait _ _ Hok _ _ _ Hi) as (Hmax & _ & Hq). cbn [fst] in Hq.
  assert (closed (w_core w) wake) as Hc.
  { destruct Hq as [[Hc|(q & Hq & _ & He)]|?]; [done| |done]. exfalso.
    by eapply (empty_heap_no_ready _ _ _ Hwf Hq He). }
  assert (sys_step (w, ts) (EThread i) (w, <[i := TTurn p]> ts)) as Hwake.
  { eapply sys_select with (u := Woken); [done|]. cbn. by rewrite bool_decide_eq_true_2. }
  assert (is_Some (k_queues (w_core w) !! po_queue p)) as Hsome
    by (eapply abs_queues_is_Some, a_lookup_is_Some, Hm).
  destruct (wp_elim _ _ _ (wp_Receive_once (po_queue p) (po_max p) (po_vis p) w ltac:(by split)))
    as (r & w' & Hrun & [(Hnone & _)|(t0 & w1 & cfg & Hsw & _ & Hres)]).
  { rewrite Hnone in Hsome. by destruct Hsome. }
  apply first_sweep_inv in Hsw as (ls1 & Hev1 & Hls1 & _).
  assert (∃ r', Receive_turn p w = Some (TDone r', w') ∧
            match r' with
            | Ok ds => ds ≠ []
            | Err e => ∃ id' receipt at_ deadline count,
                append_failed w (LRecv (po_queue p) id' receipt at_ deadline count) e w'
            end) as (r' & Ht & Hr').
  { unfold Receive_turn, mbind, GoM_bind. rewrite Hrun. destruct r as [[ds c]|e].
    - destruct ds as [|d ds]; [exfalso|by exists (Ok (d :: ds))].
      destruct Hres as [(new & ls & Hnil & Hds & _ & Hev & Hend) _]. cbn in Hnil, Hend. subst new.
      apply Forall2_nil_inv_l in Hds as ->. destruct Hend as [Hend|Hend]; [lia|].
      apply (Hend id m); [|done]. rewrite <-(no_steps _ _ (ev_steps _ _ _ Hev)).
      eapply sweep_keeps_ready; [by apply wf_abs|apply Hev1|exact Hls1|done|done].
    - exists (Err e). split; [done|].
      destruct Hres as (ds & new & ls & _ & _ & _ & _ & _ & id' & rc & count & Hf).
      exists id', rc, t0, (t0 + effective cfg (po_vis p)), count.
      eapply failed_before; [apply Hev1|exact Hf]. }
  exists w', r'. split; [done|]. split; [|done].
  rewrite <-(insert_insert_eq ts i (TDone r') (TTurn p)).
  eapply sys_turn; [by rewrite lookup_insert_eq|done|done].
Qed.
End poll.

(** ** An example: a receiver waits for an empty queue, and a message is sent *)

Definition wait_call : poll := mkPoll "jobs" 1 (20 * second) 0.

Definition wait_w1 : world MemLog :=
  from_option id (demo_start []) (run_all [CCreateQueue "jobs" jobs_cfg] (demo_start [])).

Definition wait_turn : thread * world MemLog :=
  from_option id (TDone (Ok []), wait_w1) (Receive_turn wait_call wait_w1).

Definition wait_chan : positive := if wait_turn.1 is TWait _ c then c else 1%positive.

Definition wait_w3 : world MemLog :=
  from_option id wait_w1 (run_all [CSend "jobs" (text "hello") 0] wait_turn.2).

Lemma wait_turned : Receive_turn wait_call wait_w1 = Some (TWait wait_call wait_chan, wait_turn.2).
Proof.
  assert (from_option (λ _, true) false (Receive_turn wait_call wait_w1) = true) as Hs
    by (vm_compute; reflexivity).
  assert (wait_turn.1 = TWait wait_call wait_chan) as <- by (vm_compute; reflexivity).
  unfold wait_turn. destruct (Receive_turn wait_call wait_w1) as [[t w]|]; done.
Qed.

Lemma wait_sent : runs wait_turn.2 [CSend "jobs" (text "hello") 0] wait_w3.
Proof.
  apply run_all_runs. unfold wait_w3.
  assert (from_option (λ _, true) false (run_all [CSend "jobs" (text "hello") 0] wait_turn.2) = true)
    as Hs by (vm_compute; reflexivity).
  destruct (run_all [CSend "jobs" (text "hello") 0] wait_turn.2); done.
Qed.

(** What happens: the queue is created, the call begins and takes its first turn, the
    message is sent. *)
Definition wait_events : list event := [EEngine None; EThread 0; EThread 0; EEngine None].

Lemma wait_reachable :
  sys_reachable (Some (mkMemLog [] [])) demo_env wait_events
    (wait_w3, {[0%nat := TWait wait_call wait_chan]}).
Proof.
  apply (sys_run_app _ [EEngine None] (wait_w1, ∅)).
  { apply (runs_sys _ [CCreateQueue "jobs" jobs_cfg]); [|done].
    apply ran_runs. vm_compute. reflexivity. }
  apply (sys_run_app _ [EThread 0] (wait_w1, {[0%nat := TTurn wait_call]})).
  { apply sys_run_one. by apply (sys_receive _ _ 0 wait_call). }
  apply (sys_run_app _ [EThread 0] (wait_turn.2, {[0%nat := TWait wait_call wait_chan]})).
  { apply sys_run_one.
    assert (({[0%nat := TWait wait_call wait_chan]} : gmap nat thread) =
            <[0%nat := TWait wait_call wait_chan]> {[0%nat := TTurn wait_call]}) as ->
      by (symmetry; apply insert_insert_eq).
    eapply sys_turn; [reflexivity|vm_compute; reflexivity|apply wait_turned]. }
  apply (runs_sys _ [CSend "jobs" (text "hello") 0]); [apply wait_sent|done].
Qed.

Lemma wait_not_stranded : ¬ stranded wait_events 0 "jobs".
Proof. intros Hs%stranded_in. unfold wait_events in Hs. set_solver. Qed.

Lemma wait_state :
  (∃ m, a_lookup (abs (w_core wait_w3)) "jobs" id1 = Some m ∧ a_Status m = AReady) ∧
  k_seq (w_core wait_w3) < 2 ^ 62.
Proof.
  split; [|vm_compute; reflexivity].
  assert (from_option (λ m, bool_decide (a_Status m = AReady)) false
            (a_lookup (abs (w_core wait_w3)) "jobs" id1) = true) as Hs by (vm_compute; reflexivity).
  destruct (a_lookup (abs (w_core wait_w3)) "jobs" id1) as [m|]; [|done].
  exists m. split; [done|]. by apply bool_decide_eq_true in Hs.
Qed.

Lemma no_lost_wakeup_witness :
  match k_queues (w_core wait_w3) !! "jobs" with
  | None => closed (w_core wait_w3) wait_chan
  | Some q =>
    closed (w_core wait_w3) wait_chan ∨
    q_wake q = wait_chan ∧ (q_ready q = [] ∨ stranded wait_events 0 "jobs")
  end.
Proof. exact (no_lost_wakeup _ _ _ _ _ 0 wait_call wait_chan wait_reachable eq_refl). Defined.

Lemma woken_receiver_returns_witness :
  ∃ w' r, sys_step (wait_w3, {[0%nat := TWait wait_call wait_chan]}) (EThread 0)
            (wait_w3, <[0%nat := TTurn wait_call]> {[0%nat := TWait wait_call wait_chan]}) ∧
    sys_step (wait_w3, <[0%nat := TTurn wait_call]> {[0%nat := TWait wait_call wait_chan]}) (EThread 0)
      (w', <[0%nat := TDone r]> {[0%nat := TWait wait_call wait_chan]}) ∧
    match r with
    | Ok ds => ds ≠ []
    | Err e => ∃ id' receipt at_ deadline count,
        append_failed wait_w3 (LRecv "jobs" id' receipt at_ deadline count) e w'
    end.
Proof.
  destruct wait_state as [(m & Hm & Hst) Hs].
  exact (woken_receiver_returns _ _ _ _ _ 0 wait_call wait_chan id1 m wait_reachable eq_refl Hs
           wait_not_stranded Hm Hst).
Defined.

Lemma demo_live : live demo.
Proof. right. exists (Some (mkMemLog [] [])), demo_env. exists demo_calls. exact demo_runs. Qed.

Lemma calls_return_witness :
  (∀ c, ∃ w', run_call c demo = Some ((), w') ∧ (operates c = true → wf (w_core w'))) ∧
  (∀ p, ∃ t w', Receive_turn p demo = Some (t, w') ∧ wf (w_core w') ∧ ∀ p', t ≠ TTurn p') ∧
  ∀ recs (log : option MemLog) env, ∃ err w', Load recs (New log env) = Some (err, w').
Proof. apply (calls_return demo); [exact demo_live|vm_compute; reflexivity]. Defined.
