(* ===== verification/Server.v ===== *)
(** The HTTP server (internal/server): routing, the handlers as functions from requests
    to engine calls and responses, the limits they check, and the mapping of errors to
    statuses.

    A request has its path split into unescaped segments and its query decoded, as
    net/http hands them to handlers; the body of a response is a value, whose JSON text
    is in [Respond].  GET of messages is the only handler that may sleep: it makes a
    call of Receive ([LongPoll]), whose result it answers with later. *)

From S2P Require Import Prelude GoHeap Ids WalRecord Json Float64 Duration Config Message Engine.
From S2P Require Import LongPoll.
From Stdlib Require String.

Local Open Scope Z_scope.

Definition MaxWait : Z := 60.
Definition MaxBodyBytes : Z := 2 ^ 20.

#[export] Instance arg_eq_dec : EqDecision arg.
Proof. solve_decision. Defined.

#[export] Instance error_eq_dec : EqDecision error.
Proof. solve_decision. Defined.

(** ** Requests and responses *)

Record request := mkRequest {
  rq_method : string;
  rq_path : list string;
  rq_query : list (string * string);
  rq_body : bytes;
  rq_body_err : option error;   (* a failure to read the body *)
}.

(** The text of an error message: literal pieces and the texts of errors. *)
Inductive piece := Text (s : string) | ErrorText (e : error).

(** deliveryWire *)
Record deliveryWire := mkDeliveryWire {
  dw_ID : string; dw_Receipt : string; dw_Body : bytes; dw_BodyB64 : bytes;
  dw_Receives : Z; dw_SentAt : Z;
}.

Inductive body :=
  | NoBody
  | PlainText (s : string)
  | JSHealth (queues : Z)
  | JSVersion
  | JSQueues (stats : list Stats)
  | JSStats (s : Stats)
  | JSId (id : string)
  | JSMessages (ms : list deliveryWire)
  | JSMoved (n : Z)
  | JSError (code : string) (msg : list piece).

Record response := mkResponse { rs_status : Z; rs_body : body }.

(** What a handler does: it answers, or it makes a call of Receive first. *)
Inductive served := Responds (rs : response) | Polls (p : poll).

Definition StatusOK : Z := 200.
Definition StatusCreated : Z := 201.
Definition StatusNoContent : Z := 204.
Definition StatusBadRequest : Z := 400.
Definition StatusNotFound : Z := 404.
Definition StatusMethodNotAllowed : Z := 405.
Definition StatusConflict : Z := 409.
Definition StatusRequestEntityTooLarge : Z := 413.

(** ** respond.go *)

Definition writeError (status : Z) (code : string) (msg : list piece) : response :=
  mkResponse status (JSError code msg).

(** writeEngineError *)
Definition writeEngineError (err : error) : response :=
  if Is err ErrQueueNotFound then writeError StatusNotFound "queue_not_found" [ErrorText err]
  else if Is err ErrMessageNotFound then
    writeError StatusNotFound "message_not_found" [ErrorText err]
  else if Is err ErrNotLeased || Is err ErrWrongReceipt then
    writeError StatusConflict "lease_lost"
      [ErrorText err; Text " (the visibility timeout may have expired)"]
  else if Is err ErrBadName then writeError StatusBadRequest "bad_queue_name" [ErrorText err]
  else writeError StatusBadRequest "bad_request" [ErrorText err].

(** ** Parts of requests *)

(** url.Values.Get *)
Definition query_get (rq : request) (key : string) : string :=
  from_option snd ""%string (List.find (λ kv, bool_decide (kv.1 = key)) (rq_query rq)).

(** io.ReadAll of the http.MaxBytesReader of the body *)
Definition too_large : error := Errorf "http: request body too large" [].

Definition read_body (rq : request) : result bytes :=
  if MaxBodyBytes <? Z.of_nat (length (rq_body rq)) then Err too_large
  else match rq_body_err rq with Some e => Err e | None => Ok (rq_body rq) end.

(** strconv.Atoi *)
Definition Atoi (s : string) : option Z := ParseInt (bytes_of s).

Section server.
Context {L : Type} `{!Appender L} `{!ConfigJSON} `{!Machine}.
Abbreviation M := (GoM (world L)).

Definition responds (rs : response) : M served := mret (Responds rs).
Definition no_content : M served := responds (mkResponse StatusNoContent NoBody).

(** ** server.go *)

(** handleHealth and handleVersion *)
Definition handleHealth : M served :=
  stats ← ListStats; responds (mkResponse StatusOK (JSHealth (Z.of_nat (length stats)))).

Definition handleVersion : M served := responds (mkResponse StatusOK JSVersion).

(** ** handlers.go: queues *)

Definition handleListQueues : M served :=
  stats ← ListStats; responds (mkResponse StatusOK (JSQueues stats)).

Definition handleCreateQueue (rq : request) (name : string) : M served :=
  match read_body rq with
  | Err e =>
    responds (writeError StatusBadRequest "bad_request" [Text "could not read body: "; ErrorText e])
  | Ok body =>
    match ParseConfig body with
    | Err e => responds (writeError StatusBadRequest "bad_config" [ErrorText e])
    | Ok cfg =>
      created ← CreateQueue name cfg;
      match created with
      | Err e => responds (writeEngineError e)
      | Ok created =>
        stats ← QueueStats name;
        match stats with
        | Err e => responds (writeEngineError e)
        | Ok stats =>
          responds (mkResponse (if created : bool then StatusCreated else StatusOK) (JSStats stats))
        end
      end
    end
  end.

Definition handleQueueStats (name : string) : M served :=
  stats ← QueueStats name;
  match stats with
  | Err e => responds (writeEngineError e)
  | Ok stats => responds (mkResponse StatusOK (JSStats stats))
  end.

Definition handleDeleteQueue (name : string) : M served :=
  err ← DeleteQueue name;
  match err with Some e => responds (writeEngineError e) | None => no_content end.

(** ** handlers.go: messages *)

Definition handleSend (rq : request) (name : string) : M served :=
  match ParseDefault (query_get rq "delay") 0 with
  | Err e => responds (writeError StatusBadRequest "bad_delay" [ErrorText e])
  | Ok delay =>
    match read_body rq with
    | Err _ =>
      responds (writeError StatusRequestEntityTooLarge "body_too_large"
                  [Text "message bodies are capped at 1048576 bytes"])
    | Ok body =>
      id ← Send name body delay;
      match id with
      | Err e => responds (writeEngineError e)
      | Ok id => responds (mkResponse StatusCreated (JSId id))
      end
    end
  end.

(** toWire; the time is formatted later. *)
Definition toWire (d : Delivery) : deliveryWire :=
  if utf8_Valid (d_Body d)
  then mkDeliveryWire (d_ID d) (d_Receipt d) (d_Body d) [] (d_Receives d) (d_SentAt d)
  else mkDeliveryWire (d_ID d) (d_Receipt d) [] (b64_encode (d_Body d)) (d_Receives d) (d_SentAt d).

(** handleReceive, up to the call of Receive. *)
Definition handleReceive (rq : request) (name : string) : served :=
  match ParseDefault (query_get rq "wait") 0 with
  | Err e => Responds (writeError StatusBadRequest "bad_wait" [ErrorText e])
  | Ok wait =>
    if MaxWait * Second <? wait then
      Responds (writeError StatusBadRequest "bad_wait" [Text "wait is capped at 60s"])
    else
      match ParseDefault (query_get rq "visibility") 0 with
      | Err e => Responds (writeError StatusBadRequest "bad_visibility" [ErrorText e])
      | Ok visibility =>
        let m := query_get rq "max" in
        let max := if bool_decide (m = "") then Some 1
                   else max ← Atoi m; if (max <? 1) || (100 <? max) then None else Some max in
        match max with
        | None =>
          Responds (writeError StatusBadRequest "bad_max"
                      [Text "max must be an integer between 1 and 100"])
        | Some max => Polls (mkPoll name max wait visibility)
        end
      end
  end.

(** handleReceive, with the result of Receive: nothing is written to a client that has
    gone away. *)
Definition handleReceive_done (canceled : bool) (r : result (list Delivery)) : option response :=
  match r with
  | Err e =>
    if bool_decide (e = ctx_error) && canceled then None else Some (writeEngineError e)
  | Ok [] => Some (mkResponse StatusNoContent NoBody)
  | Ok ds => Some (mkResponse StatusOK (JSMessages (toWire <$> ds)))
  end.

(** leaseParams *)
Definition leaseParams (rq : request) : response + string :=
  let receipt := query_get rq "receipt" in
  if bool_decide (receipt = "")%string then
    inl (writeError StatusBadRequest "missing_receipt"
           [Text "pass the receipt from the receive response as ?receipt="])
  else inr receipt.

Definition handleAck (rq : request) (name id : string) : M served :=
  match leaseParams rq with
  | inl rs => responds rs
  | inr receipt =>
    err ← Ack name id receipt;
    match err with Some e => responds (writeEngineError e) | None => no_content end
  end.

Definition handleNack (rq : request) (name id : string) : M served :=
  match leaseParams rq with
  | inl rs => responds rs
  | inr receipt =>
    err ← Nack name id receipt;
    match err with Some e => responds (writeEngineError e) | None => no_content end
  end.

Definition handleExtend (rq : request) (name id : string) : M served :=
  match leaseParams rq with
  | inl rs => responds rs
  | inr receipt =>
    match ParseDefault (query_get rq "visibility") DefaultVisibility with
    | Err e => responds (writeError StatusBadRequest "bad_visibility" [ErrorText e])
    | Ok visibility =>
      err ← Extend name id receipt visibility;
      match err with Some e => responds (writeEngineError e) | None => no_content end
    end
  end.

Definition handleRedrive (rq : request) (name : string) : M served :=
  let to := query_get rq "to" in
  if bool_decide (to = "")%string then
    responds (writeError StatusBadRequest "missing_target" [Text "pass the destination queue as ?to="])
  else
    let m := query_get rq "max" in
    let max := if bool_decide (m = "")%string then Some 0
               else max ← Atoi m; if max <? 1 then None else Some max in
    match max with
    | None =>
      responds (writeError StatusBadRequest "bad_max" [Text "max must be a positive integer"])
    | Some max =>
      '(moved, err) ← Redrive name to max;
      match err with
      | Some e => responds (writeEngineError e)
      | None => responds (mkResponse StatusOK (JSMoved moved))
      end
    end.

(** ** Routing: New and ServeHTTP *)

(** The handlers of a path, by method; a wildcard does not match an empty segment. *)
Definition routes (rq : request) : list (string * M served) :=
  match rq_path rq with
  | [a] =>
    if decide (a = "healthz") then [("GET", handleHealth)]
    else if decide (a = "version") then [("GET", handleVersion)]
    else if decide (a = "q") then [("GET", handleListQueues)]
    else []
  | [a; name] =>
    if decide (a = "q" ∧ name ≠ "") then
      [("PUT", handleCreateQueue rq name); ("GET", handleQueueStats name);
       ("DELETE", handleDeleteQueue name)]
    else []
  | [a; name; b] =>
    if decide (a = "q" ∧ name ≠ "" ∧ b = "messages") then
      [("POST", handleSend rq name); ("GET", mret (handleReceive rq name))]
    else if decide (a = "q" ∧ name ≠ "" ∧ b = "redrive") then [("POST", handleRedrive rq name)]
    else []
  | [a; name; b; id] =>
    if decide (a = "q" ∧ name ≠ "" ∧ b = "messages" ∧ id ≠ "") then
      [("DELETE", handleAck rq name id)]
    else []
  | [a; name; b; id; c] =>
    if decide (a = "q" ∧ name ≠ "" ∧ b = "messages" ∧ id ≠ "" ∧ c = "nack") then
      [("POST", handleNack rq name id)]
    else if decide (a = "q" ∧ name ≠ "" ∧ b = "messages" ∧ id ≠ "" ∧ c = "extend") then
      [("POST", handleExtend rq name id)]
    else []
  | _ => []
  end%string.

(** ServeMux: HEAD is served like GET. *)
Definition ServeHTTP (rq : request) : M served :=
  match routes rq with
  | [] => responds (mkResponse StatusNotFound (PlainText "404 page not found"))
  | hs =>
    let method := if decide (rq_method rq = "HEAD")%string then "GET"%string else rq_method rq in
    match List.find (λ h, bool_decide (h.1 = method)) hs with
    | Some h => h.2
    | None => responds (mkResponse StatusMethodNotAllowed (PlainText "Method Not Allowed"))
    end
  end.
End server.
