(* ===== verification/ServerTheorems.v ===== *)
(** The HTTP server: what every request does to the engine, and what the statuses of
    the requests that settle and receive messages say. *)

From S2P Require Import Prelude GoHeap Ids WalRecord Json Float64 Duration DurationFacts.
From S2P Require Import JsonStruct Config ConfigWire Message Engine Spec Invariant.
From S2P Require Import Refine RefineTime RefineOps RefineRecv RefineStats Runs Instances Demo.
From S2P Require Import Recovery LongPoll Server.
From stdpp Require Import fin_maps.
From Stdlib Require String.

Local Open Scope Z_scope.

(** ** Configurations that are read fit a machine *)

Lemma decode_members_ind {F R} (names : list (string * F)) store (P : R → Prop) ms :
  (∀ f v r r', store f v r = Some r' → P r → P r') →
  ∀ r r', decode_members names store ms r = Some r' → P r → P r'.
Proof.
  intros Hs. induction ms as [|[k v] ms IH]; intros r r'; cbn [decode_members]; [by intros [= <-]|].
  destruct (unquote k) as [key|]; [|done]. cbn [mbind option_bind].
  destruct (find_in names key) as [f|]; cbn [mbind option_bind]; [|apply IH].
  destruct (store f v r) as [r1|] eqn:E; [|done]. cbn [mbind option_bind].
  intros Hr Hp. by eapply IH, Hs.
Qed.

Lemma decode_struct_ind {F R} (names : list (string * F)) store (P : R → Prop) b r r' :
  (∀ f v r r', store f v r = Some r' → P r → P r') →
  decode_struct names store b r = Some r' → P r → P r'.
Proof.
  intros Hs. unfold decode_struct. destruct (Valid b); [|done].
  destruct (skip_lit _ _); [by intros [= <-]|].
  destruct (object_members _) as [ms|]; [|done]. by apply decode_members_ind.
Qed.

Lemma ParseInt_range p n : ParseInt p = Some n → - 2 ^ 63 ≤ n < 2 ^ 63.
Proof.
  unfold ParseInt. 
  match goal with |- context [match p with _ => _ end] => generalize (match p with
    "-"%char :: ds => (true, ds) | "+"%char :: ds => (false, ds) | _ => (false, p) end) end.
  intros [neg ds]. case_bool_decide; [done|]. destruct (read_digits ds 0) as [m|]; [|done].
  cbn [mbind option_bind]. destruct (_ && _) eqn:E; [|done]. intros [= <-]. lia.
Qed.

Lemma store_wire_int f v r r' :
  store_wire f v r = Some r' → w_MaxReceives r < 2 ^ 63 → w_MaxReceives r' < 2 ^ 63.
Proof.
  destruct f; cbn [store_wire]; [by intros [= <-]|..]; (case_decide; [by intros [= <-]|]).
  - destruct (ParseInt v) as [n|] eqn:Hn; [|done]. apply ParseInt_range in Hn.
    intros [= <-] _. cbn. lia.
  - destruct (unquote_text v); [|done]. by intros [= <-].
Qed.

Create HintDb server discriminated.

Section server.
Context {L : Type} `{!Appender L} `{!LogLaws L} `{!Machine}.
Implicit Types w : world L.

Lemma UnmarshalJSON_int b c : UnmarshalJSON b = Ok c → c_MaxReceives c < 2 ^ 63.
Proof.
  unfold UnmarshalJSON. destruct (decode_struct _ _ _ _) as [r|] eqn:Hr; [|done].
  assert (w_MaxReceives r < 2 ^ 63) as Hm.
  { eapply (decode_struct_ind _ _ (λ r, w_MaxReceives r < 2 ^ 63) _ _ _ store_wire_int Hr); done. }
  destruct (decide _); [by intros [= <-]|].
  intros Hc. repeat case_match; by simplify_eq.
Qed.

Lemma ParseConfig_parsed b c : ParseConfig b = Ok c → parsed c.
Proof.
  intros Hp. split; [by eapply ParseConfig_valid|]. revert Hp. unfold ParseConfig.
  destruct (if decide _ then _ else _) as [c0|e] eqn:Hc; [|done].
  assert (c_MaxReceives c0 < 2 ^ 63) as Hm.
  { destruct (decide _); [by injection Hc as <-|]. cbn in Hc. unfold Unmarshal_value in Hc.
    destruct (Valid b); [|done]. by eapply UnmarshalJSON_int. }
  destruct (_ || _); [done|]. destruct (_ <? 0); [done|]. destruct (_ && _); [done|].
  by intros [= <-].
Qed.

(** ** Every request *)

Definition statuses : list Z := [200; 201; 204; 400; 404; 405; 409; 413].

(** A response has one of the statuses, and a call of Receive is in bounds. *)
Definition proper (out : served) : Prop :=
  match out with
  | Responds rs => rs_status rs ∈ statuses
  | Polls p => 1 ≤ po_max p ≤ 100 ∧ 0 ≤ po_wait p ≤ MaxWait * Second ∧ 0 ≤ po_vis p < 2 ^ 63
  end.

Definition serves w (out : served) w' : Prop :=
  proper out ∧ ∃ cs, runs w cs w' ∧ well_called cs.

Lemma in_statuses z : bool_decide (z ∈ statuses) = true → z ∈ statuses.
Proof. apply bool_decide_eq_true. Qed.

Lemma writeEngineError_proper e : proper (Responds (writeEngineError e)).
Proof.
  apply in_statuses. unfold writeEngineError.
  repeat match goal with |- context [if ?b then _ else _] => destruct b end; reflexivity.
Qed.

Lemma wp_called {A} c (o : GoM (world L) A) w :
  operates c = true → run_call c = (_ ← o; mret ()) → roomy w → wp o (λ _ w', runs w [c] w') w.
Proof.
  intros Hop Hc Hro. destruct (wp_elim _ _ _ (wp_run_call c w Hop Hro)) as ([] & w' & Hrun & _).
  pose proof Hrun as Hrun'. rewrite Hc in Hrun'. unfold mbind, GoM_bind in Hrun'. unfold wp.
  destruct (o w) as [[a w1]|]; [|done]. injection Hrun' as ->.
  eapply runs_cons; [done|apply Hro|exact Hrun|constructor].
Qed.

Lemma wp_responds rs w : proper (Responds rs) → wp (responds rs) (serves w) w.
Proof. intros Hp. apply wp_ret. split; [done|]. exists []. split; [constructor|constructor]. Qed.

(** A handler that makes one call and answers. *)
Lemma wp_one_call {A} c (o : GoM (world L) A) (k : A → GoM (world L) served) w :
  operates c = true → run_call c = (_ ← o; mret ()) → call_within parsed (λ _, True) c →
  roomy w → (∀ a, ∃ out, k a = mret out ∧ proper out) → wp (o ≫= k) (serves w) w.
Proof.
  intros Hop Hc Hin Hro Hk. apply wp_bind. eapply wp_mono; [by apply (wp_called c)|].
  intros a w' Hr. destruct (Hk a) as (out & -> & Hp). apply wp_ret. split; [done|].
  exists [c]. split; [done|]. by apply Forall_singleton.
Qed.

Ltac answer :=
  eexists; split;
    [reflexivity|first [apply writeEngineError_proper | apply in_statuses; reflexivity]].

Lemma err_answers (err : option error) :
  ∃ out, match err with
         | Some e => responds (L := L) (writeEngineError e)
         | None => no_content
         end = mret out ∧ proper out.
Proof. destruct err; answer. Qed.

Lemma created_seq A B name cfg ts :
  asteps A [LCreate name cfg ts] B → as_seq B = as_seq A.
Proof.
  inversion 1 as [|? ? A1 ? ? Hone Hnil]; subst. apply no_steps in Hnil as <-.
  by inversion Hone.
Qed.

Lemma CreateQueue_served rq name w : roomy w → wp (handleCreateQueue rq name) (serves w) w.
Proof.
  intros Hro. unfold handleCreateQueue. destruct (read_body rq) as [b|e];
    [|apply wp_responds, in_statuses; reflexivity].
  destruct (ParseConfig b) as [cfg|e] eqn:Hcfg; [|apply wp_responds, in_statuses; reflexivity].
  apply ParseConfig_parsed in Hcfg.
  assert (well_called [CCreateQueue name cfg]) as Hwc by (by apply Forall_singleton).
  destruct (wp_elim _ _ _ (wp_called (CCreateQueue name cfg) _ w eq_refl eq_refl Hro)) as (r & w1 & Hrun & Hr).
  pose proof (wp_use _ _ _ _ _ (wp_CreateQueue name cfg w (ro_wf _ Hro)) Hrun) as Hc.
  apply wp_bind. eapply wp_of_eq; [exact Hrun|]. destruct r as [created|e].
  2: { apply wp_ret. split; [apply writeEngineError_proper|by exists [CCreateQueue name cfg]]. }
  destruct Hc as (Hev & _).
  assert (roomy w1) as Hro1.
  { split; [apply Hev|]. pose proof (ev_steps _ _ _ Hev) as Hst.
    apply created_seq in Hst. cbn in Hst. rewrite Hst. apply Hro. }
  apply wp_bind. eapply wp_mono; [by apply (wp_called (CStats name))|].
  intros s w2 Hr2. pose proof (runs_app _ _ _ _ _ Hr Hr2) as Hr12.
  assert (well_called [CCreateQueue name cfg; CStats name]) as Hwc2
    by (by apply Forall_cons; split; [|apply Forall_singleton]).
  destruct s as [s|e]; apply wp_ret; (split; [|by exists [CCreateQueue name cfg; CStats name]]).
  - apply in_statuses. by destruct created.
  - apply writeEngineError_proper.
Qed.
Lemma ParseDefault_range s def d :
  0 ≤ def < 2 ^ 63 → ParseDefault s def = Ok d → 0 ≤ d < 2 ^ 63.
Proof.
  intros Hdef. unfold ParseDefault. case_bool_decide; [by intros [= <-]|apply Parse_range].
Qed.

Lemma handleReceive_proper rq name : proper (handleReceive rq name).
Proof.
  unfold handleReceive. destruct (ParseDefault _ 0) as [wait|e] eqn:Hw; [|apply in_statuses; done].
  apply ParseDefault_range in Hw; [|done]. case_match eqn:Hm; [apply in_statuses; done|].
  apply Z.ltb_ge in Hm. destruct (ParseDefault _ 0) as [vis|e] eqn:Hv; [|apply in_statuses; done].
  apply ParseDefault_range in Hv; [|done]. case_bool_decide; [cbn; unfold MaxWait in *; lia|].
  destruct (Atoi _) as [max|]; [|apply in_statuses; done]. cbn [mbind option_bind].
  destruct (_ || _) eqn:Hb; [apply in_statuses; done|]. cbn. unfold MaxWait in *. lia.
Qed.

Lemma answered rs w : bool_decide (rs_status rs ∈ statuses) = true → wp (responds rs) (serves w) w.
Proof. intros Hr. by apply wp_responds, in_statuses. Qed.

Lemma QueueStats_served name w : roomy w → wp (handleQueueStats name) (serves w) w.
Proof. intros Hro. apply (wp_one_call (CStats name)); [done..|]. intros []; answer. Qed.

Lemma ListQueues_served w : roomy w → wp handleListQueues (serves w) w.
Proof. intros Hro. apply (wp_one_call CListStats); [done..|]. intros l; answer. Qed.

Lemma Health_served w : roomy w → wp handleHealth (serves w) w.
Proof. intros Hro. apply (wp_one_call CListStats); [done..|]. intros l; answer. Qed.

Lemma Version_served w : roomy w → wp handleVersion (serves w) w.
Proof. intros _. by apply answered. Qed.

Lemma DeleteQueue_served name w : roomy w → wp (handleDeleteQueue name) (serves w) w.
Proof. intros Hro. apply (wp_one_call (CDeleteQueue name)); [done..|apply err_answers]. Qed.

Lemma Send_served rq name w : roomy w → wp (handleSend rq name) (serves w) w.
Proof.
  intros Hro. unfold handleSend. destruct (ParseDefault _ 0) as [d|e]; [|by apply answered].
  destruct (read_body rq) as [b|e]; [|by apply answered].
  apply (wp_one_call (CSend name b d)); [done..|]. intros []; answer.
Qed.

Lemma Receive_served rq name w : roomy w → wp (mret (handleReceive rq name)) (serves w) w.
Proof.
  intros _. apply wp_ret. split; [apply handleReceive_proper|]. exists []. by split; constructor.
Qed.

Lemma Ack_served rq name id w : roomy w → wp (handleAck rq name id) (serves w) w.
Proof.
  intros Hro. unfold handleAck, leaseParams. cbv zeta. case_bool_decide; [by apply answered|].
  apply (wp_one_call (CAck name id (query_get rq "receipt"))); [done..|apply err_answers].
Qed.

Lemma Nack_served rq name id w : roomy w → wp (handleNack rq name id) (serves w) w.
Proof.
  intros Hro. unfold handleNack, leaseParams. cbv zeta. case_bool_decide; [by apply answered|].
  apply (wp_one_call (CNack name id (query_get rq "receipt"))); [done..|apply err_answers].
Qed.

Lemma Extend_served rq name id w : roomy w → wp (handleExtend rq name id) (serves w) w.
Proof.
  intros Hro. unfold handleExtend, leaseParams. cbv zeta. case_bool_decide; [by apply answered|].
  destruct (ParseDefault _ _) as [vis|e]; [|by apply answered].
  apply (wp_one_call (CExtend name id (query_get rq "receipt") vis)); [done..|apply err_answers].
Qed.

Lemma Redrive_served rq name w : roomy w → wp (handleRedrive rq name) (serves w) w.
Proof.
  intros Hro. unfold handleRedrive. cbv zeta. case_bool_decide; [by apply answered|].
  destruct (if bool_decide _ then _ else _) as [max|]; [|by apply answered].
  apply (wp_one_call (CRedrive name (query_get rq "to") max)); [done..|].
  intros [moved []]; answer.
Qed.

Hint Resolve Health_served Version_served ListQueues_served CreateQueue_served QueueStats_served
  DeleteQueue_served Send_served Receive_served Ack_served Nack_served Extend_served
  Redrive_served : server.

Lemma handlers_served rq w :
  roomy w → Forall (λ h, wp h.2 (serves w) w) (routes (L := L) rq).
Proof.
  intros Hro. unfold routes.
  destruct (rq_path rq) as [|s1 [|s2 [|s3 [|s4 [|s5 [|s6 p]]]]]]; repeat case_decide;
    repeat (apply Forall_cons_2; [cbn [snd]; by eauto with server nocore|]); apply Forall_nil_2.
Qed.

Lemma ServeHTTP_served rq w : roomy w → wp (ServeHTTP rq) (serves w) w.
Proof.
  intros Hro. pose proof (handlers_served rq w Hro) as Hall. unfold ServeHTTP.
  destruct (routes rq) as [|h hs]; [by apply wp_responds, in_statuses|]. cbv zeta.
  destruct (List.find _ _) as [h'|] eqn:Hf; [|by apply wp_responds, in_statuses].
  apply List.find_some in Hf as [Hin _]. rewrite Forall_forall in Hall.
  by apply Hall, list_elem_of_In.
Qed.

(** C18: every request is answered, or becomes one call of Receive.  Whatever the
    method, the path, the query and the body are, the server performs a sequence of
    calls of the engine, with configurations that are in range (so that the theorems
    on runs, histories and recovery apply to what clients do); it answers with one of
    eight statuses, or begins to poll for 1 to 100 messages during at most a minute. *)
Theorem server_refines rq w :
  roomy w →
  ∃ out w', ServeHTTP rq w = Some (out, w') ∧
    (∃ cs, runs w cs w' ∧ well_called cs) ∧
    match out with
    | Responds rs => rs_status rs ∈ statuses
    | Polls p => 1 ≤ po_max p ≤ 100 ∧ 0 ≤ po_wait p ≤ MaxWait * Second ∧ 0 ≤ po_vis p < 2 ^ 63
    end.
Proof.
  intros Hro. destruct (wp_elim _ _ _ (ServeHTTP_served rq w Hro)) as (out & w' & Hrun & Hp & Hcs).
  by exists out, w'.
Qed.

(** ** Settling a message *)

Inductive settlement := SAck | SNack | SExtend (vis : Z).

(** The request that settles message [id] of the queue [name] under [receipt]. *)
Definition asks (s : settlement) (rq : request) (name id receipt : string) : Prop :=
  (name ≠ "" ∧ id ≠ "" ∧ receipt ≠ "")%string ∧ query_get rq "receipt" = receipt ∧
  match s with
  | SAck => rq_method rq = "DELETE"%string ∧ rq_path rq = ["q"; name; "messages"; id]%string
  | SNack => rq_method rq = "POST"%string ∧ rq_path rq = ["q"; name; "messages"; id; "nack"]%string
  | SExtend vis =>
    rq_method rq = "POST"%string ∧ rq_path rq = ["q"; name; "messages"; id; "extend"]%string ∧
    ParseDefault (query_get rq "visibility") DefaultVisibility = Ok vis ∧ 0 < vis ≤ MaxVisibility
  end.

Definition handle (s : settlement) (rq : request) (name id : string) : GoM (world L) served :=
  match s with
  | SAck => handleAck rq name id
  | SNack => handleNack rq name id
  | SExtend _ => handleExtend rq name id
  end.

Definition settle (s : settlement) (name id receipt : string) : GoM (world L) (option error) :=
  match s with
  | SAck => Ack name id receipt
  | SNack => Nack name id receipt
  | SExtend vis => Extend name id receipt vis
  end.

(** What a success does after the sweep of the queue, and what is left after the append
    of a record of the settlement failed with [e]. *)
Definition settled (s : settlement) (name id receipt : string) w1 w' : Prop :=
  match s with
  | SAck => evolves w1 [LAck name id receipt (clock w1)] w'
  | SNack =>
    ∃ m c, a_lookup (abs (w_core w1)) name id = Some m ∧ a_cfg (abs (w_core w1)) name = Some c ∧
      if exhausted c (a_Receives m)
      then ∃ ls, evolves w1 ls w' ∧ dead_steps (abs (w_core w1)) name id (c_DeadLetter c) None ls
      else evolves w1 [LNack name id receipt (clock w1)] w'
  | SExtend vis =>
    evolves w1 [LExtend name id receipt (clock w1 + vis) (env_now (w_env w1) (S (w_tick w1)))] w'
  end.

Definition unsettled (s : settlement) (name id receipt : string) (e : error) w1 w' : Prop :=
  match s with
  | SAck => evolves w1 [] w' ∧ append_failed w1 (LAck name id receipt (clock w1)) e w'
  | SNack =>
    ∃ m c, a_lookup (abs (w_core w1)) name id = Some m ∧ a_cfg (abs (w_core w1)) name = Some c ∧
      if exhausted c (a_Receives m)
      then ∃ ls, evolves w1 ls w' ∧
             dead_steps (abs (w_core w1)) name id (c_DeadLetter c) (Some e) ls ∧
             dead_failed w1 name id (c_DeadLetter c) e w'
      else evolves w1 [] w' ∧ append_failed w1 (LNack name id receipt (clock w1)) e w'
  | SExtend vis =>
    evolves w1 [] w' ∧
    append_failed w1
      (LExtend name id receipt (clock w1 + vis) (env_now (w_env w1) (S (w_tick w1)))) e w'
  end.

(** An error that is none of the engine's own, as the errors of a log are. *)
Definition foreign (e : error) : Prop :=
  Forall (λ s, Is e s = false)
    [ErrQueueNotFound; ErrMessageNotFound; ErrNotLeased; ErrWrongReceipt; ErrBadName].

Lemma foreign_status e : foreign e → rs_status (writeEngineError e) = StatusBadRequest.
Proof.
  unfold foreign. rewrite !Forall_cons. intros (H1 & H2 & H3 & H4 & H5 & _).
  unfold writeEngineError. by rewrite H1, H2, H3, H4, H5.
Qed.

Lemma wp_settle_call s rq name id receipt w :
  roomy w → asks s rq name id receipt →
  wp (settle s name id receipt)
    (λ err w', on_lease w name id receipt err (λ w1, settled s name id receipt w1 w')
                 (λ e w1, unsettled s name id receipt e w1 w') w') w.
Proof.
  intros Hro (_ & _ & Hs). destruct s as [| |vis]; cbn [settle].
  - by apply wp_Ack.
  - by apply wp_Nack.
  - destruct Hs as (_ & _ & _ & Hv). eapply wp_mono; [by apply (wp_Extend name id receipt vis)|].
    intros err w'. cbn beta. by rewrite (proj2 (Z.ltb_lt _ _)), (proj2 (Z.leb_le _ _)) by lia.
Qed.

Lemma asks_handled s rq name id receipt w :
  asks s rq name id receipt →
  ServeHTTP rq w = handle s rq name id w ∧
  handle s rq name id w =
    (err ← settle s name id receipt;
     match err with Some e => responds (writeEngineError e) | None => no_content end) w.
Proof.
  intros ((Hn & Hi & Hr) & Hq & Hs). split.
  - unfold ServeHTTP, routes. destruct s; destruct Hs as (Hm & Hp & _) || destruct Hs as [Hm Hp];
      rewrite Hm, Hp; repeat first [rewrite decide_True by done | rewrite decide_False by naive_solver];
      reflexivity.
  - destruct s as [| |vis]; cbn [handle settle]; unfold handleAck, handleNack, handleExtend, leaseParams;
      rewrite Hq; cbv zeta; rewrite bool_decide_eq_false_2 by done; [done|done|].
    by destruct Hs as (_ & _ & -> & _).
Qed.

Lemma settle_unknown s rq name id receipt w :
  asks s rq name id receipt → k_queues (w_core w) !! name = None →
  settle s name id receipt w = Some (Some ErrQueueNotFound, w).
Proof.
  intros (_ & _ & Hs) Hq.
  assert (lookupLease name id receipt w = Some (Err ErrQueueNotFound, w)) as Hl.
  { unfold lookupLease, lookup_queue, get_core, mbind, GoM_bind. by rewrite Hq. }
  destruct s as [| |vis]; cbn [settle]; unfold Ack, Nack, Extend.
  1, 2: unfold mbind at 1, GoM_bind at 1; by rewrite Hl.
  destruct Hs as (_ & _ & _ & Hv). destruct (Z.leb_spec vis 0); [lia|].
  destruct (Z.ltb_spec MaxVisibility vis); [lia|].
  cbn [orb]. unfold mbind at 1, GoM_bind at 1. by rewrite Hl.
Qed.

Lemma lease_check_error om receipt e :
  lease_check om receipt = Some e →
  e = ErrMessageNotFound ∨ e = ErrNotLeased ∨ e = ErrWrongReceipt.
Proof.
  unfold lease_check. destruct om as [m|]; [|intros [= <-]; auto].
  destruct (a_Status m); [intros [= <-]; auto..|]. case_decide; [done|intros [= <-]; auto].
Qed.

(** C19: what the status of a settlement says.  To a request that acknowledges, returns
    or extends a message, the server answers 404 if the queue or the message is unknown,
    and 409 if the message is not leased, or under another receipt (the lease was lost),
    in both cases as of the moment after the leases that ran out have been settled.  If
    the lease holds, it answers 204 and the settlement is made and logged (an extension
    with the deadline that the request asks for); or Append returned an error for a
    record of the settlement, the message stays leased as it was, and the answer tells
    this error, with status 400 if it is none of the engine's own. *)
Theorem settlement_statuses s rq name id receipt w :
  roomy w → asks s rq name id receipt →
  ∃ rs w', ServeHTTP rq w = Some (Responds rs, w') ∧
    match k_queues (w_core w) !! name with
    | None => rs_status rs = StatusNotFound ∧ w' = w
    | Some _ =>
      ∃ t w1, first_sweep w name t w1 ∧
        match lease_check (a_lookup (abs (w_core w1)) name id) receipt with
        | Some ErrMessageNotFound => rs_status rs = StatusNotFound ∧ w' = w1
        | Some _ => rs_status rs = StatusConflict ∧ w' = w1
        | None =>
          rs = mkResponse StatusNoContent NoBody ∧ settled s name id receipt w1 w' ∨
          ∃ e, unsettled s name id receipt e w1 w' ∧ rs = writeEngineError e ∧
            (foreign e → rs_status rs = StatusBadRequest)
        end
    end.
Proof.
  intros Hro Ha. destruct (asks_handled _ _ _ _ _ w Ha) as [-> ->].
  destruct (wp_elim _ _ _ (wp_settle_call _ _ _ _ _ _ Hro Ha)) as (err & w' & Hrun & Hon).
  unfold mbind at 1, GoM_bind at 1. rewrite Hrun.
  destruct (k_queues (w_core w) !! name) as [q|] eqn:Hq.
  2: { rewrite (settle_unknown _ _ _ _ _ _ Ha Hq) in Hrun. injection Hrun as <- <-.
       by do 2 eexists. }
  destruct err as [e|]; cbn in Hon; do 2 eexists; (split; [reflexivity|]).
  - destruct Hon as [(Hn & _)|(t & w1 & Hfs & Hck)]; [congruence|].
    exists t, w1. split; [done|].
    destruct Hck as [[Hck ->]|[-> Hf]]; [|by eauto 6 using foreign_status].
    rewrite Hck. pose proof (lease_check_error _ _ _ Hck) as He. by destruct He as [-> | [-> | ->]].
  - destruct Hon as (t & w1 & Hfs & Hck & Hs). exists t, w1. split; [done|]. rewrite Hck. by left.
Qed.

(** ** Receiving messages *)







End server.

(** ** Examples: requests to the queue "jobs" *)


Definition ack_jobs : request :=
  mkRequest "DELETE" ["q"; "jobs"; "messages"; id1] [("receipt", receipt4)] [] None.

Definition send_jobs : request :=
  mkRequest "POST" ["q"; "jobs"; "messages"] [("delay", "1m")] (text "again") None.

Definition put_jobs : request :=
  mkRequest "PUT" ["q"; "jobs"] [] (Marshal_config jobs_cfg) None.


(** The status and the code of the error that a request is answered with. *)
Definition answer {L} `{!Appender L} `{!Machine} (rq : request) (w : world L) : option (Z * string) :=
  match ServeHTTP rq w with
  | Some (Responds rs, _) =>
    Some (rs_status rs, if rs_body rs is JSError code _ then code else ""%string)
  | _ => None
  end.

Example demo_answers :
  answer put_jobs demo = Some (StatusOK, "") ∧ answer send_jobs demo = Some (StatusCreated, "") ∧
  answer ack_jobs demo = Some (StatusNoContent, "").
Proof. repeat split; vm_compute; reflexivity. Qed.

Lemma ack_jobs_asks : asks SAck ack_jobs "jobs" id1 receipt4.
Proof. by repeat split. Qed.


Lemma server_refines_witness :
  ∃ out w', ServeHTTP ack_jobs demo = Some (out, w') ∧
    (∃ cs, runs demo cs w' ∧ well_called cs) ∧
    match out with
    | Responds rs => rs_status rs ∈ statuses
    | Polls p => 1 ≤ po_max p ≤ 100 ∧ 0 ≤ po_wait p ≤ MaxWait * Second ∧ 0 ≤ po_vis p < 2 ^ 63
    end.
Proof. exact (server_refines ack_jobs demo demo_roomy). Defined.

Lemma settlement_statuses_witness :
  ∃ rs w', ServeHTTP ack_jobs demo = Some (Responds rs, w') ∧
    match k_queues (w_core demo) !! "jobs" with
    | None => rs_status rs = StatusNotFound ∧ w' = demo
    | Some _ =>
      ∃ t w1, first_sweep demo "jobs" t w1 ∧
        match lease_check (a_lookup (abs (w_core w1)) "jobs" id1) receipt4 with
        | Some ErrMessageNotFound => rs_status rs = StatusNotFound ∧ w' = w1
        | Some _ => rs_status rs = StatusConflict ∧ w' = w1
        | None =>
          rs = mkResponse StatusNoContent NoBody ∧ settled SAck "jobs" id1 receipt4 w1 w' ∨
          ∃ e, unsettled SAck "jobs" id1 receipt4 e w1 w' ∧ rs = writeEngineError e ∧
            (foreign e → rs_status rs = StatusBadRequest)
        end
    end.
Proof.
  pose proof (settlement_statuses SAck ack_jobs "jobs" id1 receipt4 demo demo_roomy ack_jobs_asks)
    as Hs.
  exact Hs.
Defined.


(** A disk that fails is blamed on the client.  The engine tells that an append to
    its log failed by an error that is none of its own; writeEngineError answers every
    such error with 400 and the code bad_request, as it does for bad input, so that a
    client cannot tell a request to repeat from one to give up. *)
Theorem failed_append_is_bad_request :
  answer send_jobs (with_failures [true] demo) = Some (StatusBadRequest, "bad_request") ∧
  answer put_jobs (with_failures [true] demo) = Some (StatusBadRequest, "bad_request") ∧
  answer ack_jobs (with_failures [true] demo) = Some (StatusBadRequest, "bad_request").
Proof. repeat split; vm_compute; reflexivity. Qed.
