(* ===== verification/Cli.v ===== *)
(** The command line (internal/cli/cli.go) and queue.Open: the flags of the commands,
    what each command does to the log and prints, the exit codes, and the pause of the
    sweeper.  The package flag of the Go library is modelled as far as the commands use
    it; a line that is printed is a format with its arguments.  The command serve ends
    with a server that runs ([Serving]); what it does then is in [Engine], [LongPoll]
    and [Server].  The line that it prints when it is ready is not modelled. *)

From S2P Require Import Prelude GoHeap Ids WalRecord Json Os Wal Config Message Engine.
From S2P Require Import Duration.
From Stdlib Require String.

Local Open Scope Z_scope.

(** ** queue.Open *)

Section open.
Context `{!ConfigJSON}.

(** A computation of the engine in a program. *)
Definition run_engine {L A} (c : GoM (world L) A) (e : world L) : IO (A * world L) :=
  match c e with Some r => mret r | None => io_panic end.

(** Open: the engine holds the log, to which Load does not append. *)
Definition queue_Open (dir : string) (syncEach : bool) (env : Env) :
    IO (result (world Log * Log * bool)) :=
  r ← Open dir syncEach;
  match r with
  | Err e => mret (Err e)
  | Ok (log, recs, torn) =>
    '(err, e) ← run_engine (Load recs) (New (Some log) env);
    match err with
    | Some err => _ ← Close_log log; mret (Err err)
    | None => mret (Ok (e, log, torn))
    end
  end.
End open.

(** An engine without a log: no value is a log. *)
#[export] Instance no_appender : Appender Empty_set := λ _ l, match l with end.

Definition New_nil (env : Env) : world Empty_set := New None env.

(** ** What is printed *)

Inductive printed_arg := Arg (a : arg) | ErrorArg (e : error).

Inductive printed :=
  | Stdout (format : string) (args : list printed_arg)
  | Stderr (format : string) (args : list printed_arg)
  | Usage (to_stderr : bool)         (* the constant usage, with the version *)
  | FlagUsage (command : string).    (* what the package flag prints *)

Definition Version : string := "0.1.0".

Definition ExitOK : Z := 0.
Definition ExitRuntime : Z := 1.
Definition ExitUsage : Z := 2.

(** ** The package flag *)

Inductive flag_kind := StringFlag | BoolFlag.

Inductive token := NotFlag | BadFlag | Flag (name : string) (value : option string).

Definition dash : ascii := "-"%char.
Definition equals : ascii := "="%char.

(** A name, and a value if there is an equals sign behind its first byte. *)
Definition named_token (name : bytes) : token :=
  match name with
  | [] => BadFlag
  | c :: p =>
    if Ascii.eqb c dash || Ascii.eqb c equals then BadFlag
    else
      match IndexByte p equals with
      | Some i =>
        Flag (String.string_of_list_ascii (c :: take i p))
          (Some (String.string_of_list_ascii (drop (i + 1) p)))
      | None => Flag (String.string_of_list_ascii name) None
      end
  end.

Definition flag_token (s : string) : token :=
  match bytes_of s with
  | c :: c' :: p =>
    if Ascii.eqb c dash then
      if Ascii.eqb c' dash then (if decide (p = []) then NotFlag else named_token p)
      else named_token (c' :: p)
    else NotFlag
  | _ => NotFlag
  end.

(** strconv.ParseBool *)
Definition ParseBool (s : string) : option bool :=
  if decide (s ∈ ["1"; "t"; "T"; "true"; "TRUE"; "True"]%string) then Some true
  else if decide (s ∈ ["0"; "f"; "F"; "false"; "FALSE"; "False"]%string) then Some false
  else None.

Definition bool_text (b : bool) : string := if b then "true" else "false".

(** FlagSet.Parse: the values that are set, in order; [None] is an error, or a request
    for help.  The first argument that is no flag ends the flags. *)
Fixpoint parse_flags (fs : list (string * flag_kind)) (args : list string)
    (vals : list (string * string)) : option (list (string * string)) :=
  match args with
  | [] => Some vals
  | s :: args =>
    match flag_token s with
    | NotFlag => Some vals
    | BadFlag => None
    | Flag name value =>
      match List.find (λ f, bool_decide (f.1 = name)) fs with
      | None => None
      | Some (_, BoolFlag) =>
        match value with
        | None => parse_flags fs args (vals ++ [(name, "true"%string)])
        | Some v =>
          match ParseBool v with
          | Some b => parse_flags fs args (vals ++ [(name, bool_text b)])
          | None => None
          end
        end
      | Some (_, StringFlag) =>
        match value with
        | Some v => parse_flags fs args (vals ++ [(name, v)])
        | None =>
          match args with
          | v :: args => parse_flags fs args (vals ++ [(name, v)])
          | [] => None
          end
        end
      end
    end
  end.

(** The value of a flag: the last one that was set, or the default. *)
Definition flag_value (name def : string) (vals : list (string * string)) : string :=
  from_option snd def (List.find (λ v, bool_decide (v.1 = name)) (rev vals)).

(** dataFlag and parse *)
Definition dataFlag : string * flag_kind := ("data"%string, StringFlag).

Definition parse (command : string) (args : list string) : string + list printed :=
  match parse_flags [dataFlag] args [] with
  | None => inr [FlagUsage command]
  | Some vals =>
    let data := flag_value "data" "" vals in
    if bool_decide (data = "")%string
    then inr [Stderr "duraq %s: --data DIR is required" [Arg (AStr command)]]
    else inl data
  end.

(** ** Commands *)

Definition plural (n : Z) : string := if n =? 1 then "" else "s".

Definition dataPath (dir : string) : string := Join dir FileName.

Section commands.
Context `{!ConfigJSON}.

(** net.Listen *)
Definition Listen (addr : string) : IO (result string) :=
  a ← ask;
  match a with
  | Done => mret (Ok addr)
  | Fails _ => mret (Err (os_error "listen"))
  | Stops _ => s ← get_os; _ ← stop_at s; mret (Ok addr)
  end.

(** How a command ends, or that it goes on as a server. *)
Inductive command_end := Exits (code : Z) | Serving (e : world Log) (log : Log).

Definition serve_flags : list (string * flag_kind) :=
  [dataFlag; ("addr", StringFlag); ("no-fsync", BoolFlag)]%string.

(** runServe, up to the start of the server *)
Definition runServe (env : Env) (args : list string) : IO (command_end * list printed) :=
  match parse_flags serve_flags args [] with
  | None => mret (Exits ExitUsage, [FlagUsage "serve"])
  | Some vals =>
    let data := flag_value "data" "" vals in
    let noFsync := bool_decide (flag_value "no-fsync" "false" vals = "true")%string in
    if bool_decide (data = "")%string then
      mret (Exits ExitUsage, [Stderr "duraq serve: --data DIR is required" []])
    else
      r ← queue_Open data (negb noFsync) env;
      match r with
      | Err err => mret (Exits ExitRuntime, [Stderr "duraq serve: %v" [ErrorArg err]])
      | Ok (eng, log, torn) =>
        let out := if torn : bool
                   then [Stderr "duraq serve: recovered from a torn tail in the log (partial final record discarded)" []]
                   else [] in
        ln ← Listen (flag_value "addr" "127.0.0.1:7333" vals);
        match ln with
        | Err err =>
          _ ← Close_log log;
          mret (Exits ExitRuntime, out ++ [Stderr "duraq serve: %v" [ErrorArg err]])
        | Ok _ => mret (Serving eng log, out)
        end
      end
  end.

(** runServe, at its end: a signal cancels the context, or Serve returns, with
    http.ErrServerClosed or another error.  The log is closed last. *)
Inductive serve_event := SignalReceived | ServerClosed | ServeFailed (err : error).

Definition serve_end (log : Log) (ev : serve_event) : IO (Z * list printed) :=
  let r := match ev with
           | SignalReceived => (ExitOK, [Stdout "duraq: shut down cleanly" []])
           | ServerClosed => (ExitOK, [])
           | ServeFailed err => (ExitRuntime, [Stderr "duraq serve: %v" [ErrorArg err]])
           end in
  _ ← Close_log log; mret r.

(** runCompact *)
Definition runCompact (env : Env) (args : list string) : IO (Z * list printed) :=
  match parse "compact" args with
  | inr out => mret (ExitUsage, out)
  | inl data =>
    let failed out err := (ExitRuntime, out ++ [Stderr "duraq compact: %v" [ErrorArg err]]) in
    r ← Open data true;
    match r with
    | Err err => mret (failed [] err)
    | Ok (log, recs, torn) =>
      let out := if torn : bool
                 then [Stderr "duraq compact: recovered from a torn tail in the log" []] else [] in
      '(err, eng) ← run_engine (Load recs) (New_nil env);
      match err with
      | Some err => _ ← Close_log log; mret (failed out err)
      | None =>
        '(snap, _) ← run_engine Snapshot eng;
        '(log, err) ← Compact log snap;
        _ ← Close_log log;
        match err with
        | Some err => mret (failed out err)
        | None =>
          let n := Z.of_nat (length recs) in
          mret (ExitOK, out ++ [Stdout "compacted %d record%s to %d"
            [Arg (AInt n); Arg (AStr (plural n)); Arg (AInt (Z.of_nat (length snap)))]])
        end
      end
    end
  end.

(** A line of the table of runStats *)
Definition stats_line (s : Stats) : printed :=
  Stdout "%-24s %8d %8d %10d %8d"
    [Arg (AStr (s_Name s)); Arg (AInt (s_Ready s)); Arg (AInt (s_Delayed s));
     Arg (AInt (s_InFlight s)); Arg (AInt (s_TotalDead s))].

(** runStats *)
Definition runStats (env : Env) (args : list string) : IO (Z * list printed) :=
  match parse "stats" args with
  | inr out => mret (ExitUsage, out)
  | inl data =>
    let failed out err := (ExitRuntime, out ++ [Stderr "duraq stats: %v" [ErrorArg err]]) in
    r ← ReadAll (dataPath data);
    match r with
    | Err err => mret (failed [] err)
    | Ok (recs, _, torn) =>
      let out := if torn : bool
                 then [Stderr "duraq stats: log has a torn tail (partial final record ignored)" []]
                 else [] in
      '(err, eng) ← run_engine (Load recs) (New_nil env);
      match err with
      | Some err => mret (failed out err)
      | None =>
        '(all, _) ← run_engine ListStats eng;
        if decide (all = []) then mret (ExitOK, out ++ [Stdout "no queues" []])
        else
          let n := Z.of_nat (length recs) in
          mret (ExitOK, out ++
            Stdout "%-24s %8s %8s %10s %8s"
              ((λ s, Arg (AStr s)) <$> ["queue"; "ready"; "delayed"; "in-flight"; "dead"]%string) ::
            (stats_line <$> all) ++
            [Stdout "%d record%s in log" [Arg (AInt n); Arg (AStr (plural n))]])
      end
    end
  end.

Definition exits (r : Z * list printed) : command_end * list printed := (Exits r.1, r.2).

(** Run *)
Definition Run (env : Env) (args : list string) : IO (command_end * list printed) :=
  match args with
  | [] => mret (Exits ExitUsage, [Usage true])
  | c :: args =>
    if decide (c = "serve")%string then runServe env args
    else if decide (c = "compact")%string then (r ← runCompact env args; mret (exits r))
    else if decide (c = "stats")%string then (r ← runStats env args; mret (exits r))
    else if decide (c ∈ ["version"; "--version"; "-v"]%string) then
      mret (Exits ExitOK, [Stdout "duraq %s" [Arg (AStr Version)]])
    else if decide (c ∈ ["help"; "--help"; "-h"]%string) then mret (Exits ExitOK, [Usage false])
    else mret (Exits ExitUsage, [Stderr "duraq: unknown command %q" [Arg (AStr c)]; Usage true])
  end.
End commands.

(** ** The sweeper of runServe *)

Definition Millisecond : Z := 10 ^ 6.

(** The pause after a sweep that returned [next], when the clock shows [t]. *)
Definition sweeper_pause (next t : Z) : Z :=
  let d := Second in
  let d := if IsZero next then d
           else let until := next - t in if until <? d then until else d in
  if d <? 10 * Millisecond then 10 * Millisecond else d.

(** One turn of the goroutine. *)
Definition sweeper_turn {L} `{!Appender L} `{!ConfigJSON} : GoM (world L) Z :=
  t ← now; next ← Sweep t;
  t' ← (if IsZero next then mret 0 else now);
  mret (sweeper_pause next t').
