(* ===== verification/Respond.v ===== *)
(** The bodies of responses as bytes (writeJSON of internal/server/respond.go and the
    structs that the handlers give it), and what a client reads in them.

    The texts of errors are a parameter: those of encoding/json and of the operating
    system are not modelled. *)

From S2P Require Import Prelude GoHeap Ids WalRecord Json JsonValue JsonLine JsonStruct JsonText TimeFormat.
From S2P Require Import Float64 Duration DurationFacts Config ConfigWire Message Engine LongPoll Server Cli.

Local Open Scope Z_scope.

(** The method Error of an error. *)
Class ErrorTexts := Error : error → bytes.

(** ** The values that the handlers give to writeJSON *)

Definition field (name : string) (j : json) : bytes * json := (bytes_of name, j).

(** A string field with omitempty. *)
Definition omitempty (name : string) (s : bytes) : list (bytes * json) :=
  if decide (s = []) then [] else [field name (JString s)].

(** type Stats, with the method MarshalJSON of its configuration. *)
Definition stats_json (cfg : Config → json) (s : Stats) : json :=
  JObject [field "name" (JString (bytes_of (s_Name s))); field "config" (cfg (s_Config s));
    field "ready" (JInt (s_Ready s)); field "delayed" (JInt (s_Delayed s));
    field "in_flight" (JInt (s_InFlight s)); field "total_sent" (JInt (s_TotalSent s));
    field "total_acked" (JInt (s_TotalAcked s)); field "total_dead_lettered" (JInt (s_TotalDead s))].

(** type deliveryWire *)
Definition delivery_json (d : deliveryWire) : json :=
  JObject (field "id" (JString (bytes_of (dw_ID d))) ::
    field "receipt" (JString (bytes_of (dw_Receipt d))) ::
    omitempty "body" (dw_Body d) ++ omitempty "body_b64" (dw_BodyB64 d) ++
    [field "receives" (JInt (dw_Receives d)); field "sent_at" (JString (Format (dw_SentAt d)))]).

Section texts.
Context `{!ErrorTexts}.

Definition piece_text (p : piece) : bytes :=
  match p with Text s => bytes_of s | ErrorText e => Error e end.

Definition message_text (msg : list piece) : bytes := concat (piece_text <$> msg).

(** The argument of writeJSON: maps have their keys in order. *)
Definition body_json (cfg : Config → json) (b : body) : option json :=
  match b with
  | NoBody | PlainText _ => None
  | JSHealth n => Some (JObject [field "ok" (JBool true); field "queues" (JInt n)])
  | JSVersion =>
    Some (JObject [field "name" (JString (bytes_of "duraq")); field "version" (JString (bytes_of Version))])
  | JSQueues ss => Some (JObject [field "queues" (JArray (stats_json cfg <$> ss))])
  | JSStats s => Some (stats_json cfg s)
  | JSId id => Some (JObject [field "id" (JString (bytes_of id))])
  | JSMessages ds => Some (JObject [field "messages" (JArray (delivery_json <$> ds))])
  | JSMoved n => Some (JObject [field "moved" (JInt n)])
  | JSError code msg =>
    Some (JObject [field "error"
      (JObject [field "code" (JString (bytes_of code)); field "message" (JString (message_text msg))])])
  end.

(** The body of a response: writeJSON, or http.Error, which ends the line.  It is what the
    handler writes; net/http does not send it in answer to HEAD. *)
Definition body_text (b : body) : bytes :=
  match body_json (λ c, JRaw (MarshalJSON c)) b with
  | Some j => Encode j
  | None => match b with PlainText s => bytes_of s ++ [newline] | _ => [] end
  end.

(** ** What a client reads *)

(** The value of a key of an object. *)
Definition get (key : string) (j : json) : option json :=
  match j with
  | JObject ms => snd <$> List.find (λ m, bool_decide (m.1 = bytes_of key)) ms
  | _ => None
  end.

Definition get_string (key : string) (j : json) : option bytes :=
  match get key j with Some (JString s) => Some s | _ => None end.

(** The code and the message of an error. *)
Definition error_of (b : bytes) : option (bytes * bytes) :=
  j ← Unmarshal b; e ← get "error" j;
  code ← get_string "code" e; msg ← get_string "message" e; Some (code, msg).

Definition read_string (b : bytes) : string := String.string_of_list_ascii b.

(** A message: the body is the string, or the bytes that body_b64 stands for. *)
Definition delivery_of (j : json) : option Delivery :=
  id ← get_string "id" j; receipt ← get_string "receipt" j;
  body ← match get "body_b64" j with
         | Some (JString s) => b64_decode s
         | Some _ => None
         | None => match get "body" j with Some (JString s) => Some s | Some _ => None | None => Some [] end
         end;
  receives ← match get "receives" j with Some (JInt n) => Some n | _ => None end;
  sent ← get_string "sent_at" j; t ← read_time sent;
  Some (mkDelivery (read_string id) (read_string receipt) body receives t).

Definition deliveries_of (b : bytes) : option (list Delivery) :=
  j ← Unmarshal b;
  match get "messages" j with Some (JArray js) => mapM delivery_of js | _ => None end.

(** ** Texts are read back *)

(** The configuration as MarshalJSON writes it. *)
Definition config_json (c : Config) : json :=
  JObject (field "visibility_timeout" (JString (Duration_String (c_Visibility c))) ::
    field "max_receives" (JInt (c_MaxReceives c)) :: omitempty "dead_letter" (bytes_of (c_DeadLetter c))).

(** Strings that are valid UTF-8, keys included, all the way down. *)
Fixpoint valid_strings (j : json) : bool :=
  match j with
  | JString s => utf8_Valid s
  | JArray js => forallb valid_strings js
  | JObject ms => forallb (λ m, utf8_Valid m.1 && valid_strings m.2) ms
  | _ => true
  end.

Lemma clean_valid j : valid_strings j = true → clean j = j.
Proof.
  induction j as [s|z|b|js IH|ms IH|v] using json_nested_ind; cbn [valid_strings clean]; intros Hv; [|done..| | |done].
  - by rewrite to_valid_utf8.
  - f_equal. induction IH as [|j js Hj _ IHjs]; [done|]. cbn in *.
    apply andb_true_iff in Hv as [Hv1 Hv2]. f_equal; auto.
  - f_equal. induction IH as [|[k j] js Hj _ IHjs]; [done|]. cbn in *.
    rewrite !andb_true_iff in Hv. destruct Hv as [[Hk Hv1] Hv2].
    rewrite to_valid_utf8 by done. f_equal; [f_equal|]; auto.
Qed.

Lemma compact_config c :
  valid_config c → c_MaxReceives c < 2 ^ 63 → Marshal (JRaw (MarshalJSON c)) = Marshal (config_json c).
Proof.
  intros Hc Hm. cbn [Marshal]. rewrite MarshalJSON_compact by done.
  unfold MarshalJSON, wire_members, config_json, omitempty, written_object.
  assert (bytes_of (c_DeadLetter c) = [] ↔ c_DeadLetter c = ""%string) as Hd by by destruct (c_DeadLetter c).
  destruct (decide (c_DeadLetter c = ""%string)) as [E|E];
    [rewrite decide_True by by apply Hd|rewrite decide_False by by rewrite Hd];
    cbn [field fmap list_fmap app fst snd join Marshal written_members];
    generalize (FormatInt (c_MaxReceives c)) (quote (Duration_String (c_Visibility c)))
      (quote (bytes_of (c_DeadLetter c))); reflexivity.
Qed.
(** Numbers of 64 bits, and configurations that ParseConfig returns. *)
Definition int64 (n : Z) : Prop := - 2 ^ 63 ≤ n < 2 ^ 63.

Record stats_fit (s : Stats) : Prop := {
  sf_config : valid_config (s_Config s);
  sf_max_receives : c_MaxReceives (s_Config s) < 2 ^ 63;
  sf_numbers : Forall int64 [s_Ready s; s_Delayed s; s_InFlight s; s_TotalSent s; s_TotalAcked s; s_TotalDead s];
}.

Definition body_fits (b : body) : Prop :=
  match b with
  | JSHealth n | JSMoved n => int64 n
  | JSQueues ss => Forall stats_fit ss
  | JSStats s => stats_fit s
  | JSMessages ds => Forall (λ d, int64 (dw_Receives d)) ds
  | _ => True
  end.

Lemma int64_good n : int64 n → good (JInt n) = true.
Proof. unfold int64. cbn. lia. Qed.

Lemma stats_good s : stats_fit s → good (stats_json config_json s) = true.
Proof.
  intros [Hc Hm Hn]. repeat (apply Forall_cons in Hn as [?%int64_good Hn]).
  assert (good (JInt (c_MaxReceives (s_Config s))) = true) as Hg.
  { apply int64_good. pose proof (vc_max_receives _ Hc). unfold int64. lia. }
  unfold stats_json, config_json, omitempty, field. cbn [good forallb snd app] in *.
  repeat match goal with H : _ && _ = true |- _ => rewrite H; clear H end.
  by case_decide.
Qed.

Lemma stats_height s : (height (stats_json config_json s) ≤ 2)%nat.
Proof. unfold stats_json, config_json, omitempty. case_decide; cbn; lia. Qed.

Lemma delivery_good d : int64 (dw_Receives d) → good (delivery_json d) = true.
Proof.
  intros Hr%int64_good. unfold delivery_json, omitempty, field in *. cbn [good] in *.
  do 2 case_decide; cbn [good forallb app snd] in *; by rewrite Hr.
Qed.

Lemma delivery_height d : (height (delivery_json d) ≤ 1)%nat.
Proof. unfold delivery_json, omitempty. do 2 case_decide; cbn; lia. Qed.

Lemma max_height {A} (f : A → nat) l n : Forall (λ x, (f x ≤ n)%nat) l → (max_list_with f l ≤ n)%nat.
Proof. induction 1; cbn [max_list_with]; lia. Qed.

Lemma body_good b j : body_json config_json b = Some j → body_fits b → good j = true ∧ (height j ≤ 4)%nat.
Proof.
  destruct b as [|t|n| |ss|s|id|ds|n|code msg]; cbn [body_json body_fits]; intros [= <-] Hb;
    try (split; [done|cbn; lia]).
  - apply int64_good in Hb. cbn [good forallb field snd andb] in *. rewrite Hb. split; [done|cbn; lia].
  - cbn [good height forallb field snd]. rewrite andb_true_r. split.
    + induction Hb as [|s ss Hs _ IH]; [done|]. cbn [fmap list_fmap forallb]. by rewrite stats_good, IH.
    + pose proof (max_height height (stats_json config_json <$> ss) 2) as Hh. cbn [max_list_with field snd height].
      rewrite Nat.max_0_r. apply le_n_S, le_n_S, Hh. apply Forall_fmap, Forall_forall. intros; apply stats_height.
  - split; [by apply stats_good|]. pose proof (stats_height s). lia.
  - cbn [good height forallb field snd]. rewrite andb_true_r. split.
    + induction Hb as [|s ss Hs _ IH]; [done|]. cbn [fmap list_fmap forallb]. by rewrite delivery_good, IH.
    + pose proof (max_height height (delivery_json <$> ds) 2) as Hh. cbn [max_list_with field snd height].
      rewrite Nat.max_0_r. apply le_n_S, le_n_S, Hh. apply Forall_fmap, Forall_forall. intros x _. unfold compose.
      pose proof (delivery_height x). lia.
  - apply int64_good in Hb. cbn [good forallb field snd andb] in *. rewrite Hb. split; [done|cbn; lia].
Qed.

Lemma Marshal_stats s : stats_fit s →
  Marshal (stats_json (λ c, JRaw (MarshalJSON c)) s) = Marshal (stats_json config_json s).
Proof.
  intros [Hc Hm _]. pose proof (compact_config _ Hc Hm) as E. unfold stats_json.
  change (Marshal (JObject ?ms)) with
    ("{"%char :: join [","%char] ((λ m, quote m.1 ++ ":"%char :: Marshal m.2) <$> ms) ++ ["}"%char]).
  cbn [fmap list_fmap field fst snd]. by rewrite E.
Qed.

Lemma Marshal_field k x y : Marshal x = Marshal y → Marshal (JObject [field k x]) = Marshal (JObject [field k y]).
Proof. intros E. cbn [Marshal fmap list_fmap field fst snd]. by rewrite E. Qed.

Lemma body_text_json b j : body_json config_json b = Some j → body_fits b → body_text b = Encode j.
Proof.
  intros Hj Hb. unfold body_text.
  destruct b as [|t|n| |ss|s|id|ds|n|code msg]; cbn [body_json body_fits] in *; try discriminate Hj;
    injection Hj as <-; [done|done| | |done..].
  - unfold Encode. rewrite (Marshal_field _ _ (JArray (stats_json config_json <$> ss))); [done|].
    cbn [Marshal]. rewrite <-!list_fmap_compose. erewrite (list_fmap_ext (Marshal ∘ _)); [done|].
    intros i s Hs. apply Marshal_stats. by eapply Forall_lookup_1.
  - unfold Encode. by rewrite Marshal_stats.
Qed.

Lemma text_read b j :
  body_json config_json b = Some j → body_fits b → Unmarshal (body_text b) = Some (clean j).
Proof.
  intros Hj Hb. rewrite (body_text_json _ _ Hj Hb). destruct (body_good _ _ Hj Hb) as [Hg Hh].
  apply Unmarshal_Encode; [done|]. unfold maxNestingDepth. lia.
Qed.
End texts.
