(* ===== verification/RespondTheorems.v ===== *)
(** What a client reads in the answers of the server: every answer is a JSON text or one
    of two plain texts, an error has the envelope of respond.go with a code that fits the
    status, and received messages are read back as they are in the queue. *)

From S2P Require Import Prelude GoHeap Ids WalRecord Json JsonValue JsonLine JsonStruct JsonText TimeFormat.
From S2P Require Import Float64 Duration DurationFacts Config ConfigWire Message Engine LongPoll Instances Demo Loggable.
From S2P Require Import Server ServerTheorems Cli Respond.
From Stdlib Require String.

Local Open Scope Z_scope.

(** ** Texts of messages *)

Lemma decimals_digits fuel : ∀ n acc, Forall is_digit acc → Forall is_digit (decimals fuel n acc).
Proof.
  induction fuel as [|fuel IH]; intros n acc Hacc; [done|]. cbn [decimals].
  assert (Forall is_digit (char (48 + n mod 10) :: acc)) as Hc.
  { constructor; [|done]. rewrite is_digit_char by (apply Z.mod_pos_bound; lia). done. }
  case_match; [done|by apply IH].
Qed.

Lemma digits_plain ds : Forall is_digit ds → Forall plain_char ds.
Proof. intros Hd. eapply Forall_impl; [exact Hd|]. intros c Hc. by apply Is_true_true, digit_plain. Qed.

Lemma appendInt_plain x w : Forall plain_char (appendInt x w).
Proof.
  unfold appendInt. repeat apply Forall_app_2; [by case_match; repeat constructor|by apply Forall_replicate|].
  by apply digits_plain, decimals_digits.
Qed.

Lemma appendNano_plain ns : Forall plain_char (appendNano ns).
Proof.
  unfold appendNano. case_match; [done|]. constructor; [done|].
  destruct (trimmed (appendInt ns 9)) as (k & Hk). pose proof (appendInt_plain ns 9) as Hp.
  rewrite Hk in Hp. by apply Forall_app in Hp as [Hp _].
Qed.

Lemma Format_valid t : utf8_Valid (Format t) = true.
Proof.
  apply plain_quote_body. unfold Format. destruct (year_day _) as [y d]. destruct (month_day _ _) as [m d'].
  repeat (first [apply appendInt_plain | apply Forall_app_2 | constructor; [done|] | apply appendNano_plain]); done.
Qed.

Lemma b64_valid p : utf8_Valid (b64_encode p) = true.
Proof. apply plain_quote_body, b64_plain. Qed.

(** ** Messages *)

Record readable (d : Delivery) : Prop := {
  rd_ID : utf8 (d_ID d) = true;
  rd_Receipt : utf8 (d_Receipt d) = true;
  rd_Receives : int64 (d_Receives d);
  rd_SentAt : 0 ≤ d_SentAt d < 253402300800 * 10 ^ 9;
}.

Lemma toWire_strings d : utf8 (d_ID d) = true → utf8 (d_Receipt d) = true →
  valid_strings (delivery_json (toWire d)) = true.
Proof.
  intros Hi Hr. unfold toWire, delivery_json, omitempty, utf8 in *.
  destruct (utf8_Valid (d_Body d)) eqn:Hb;
    cbn [dw_ID dw_Receipt dw_Body dw_BodyB64 dw_Receives dw_SentAt];
    do 2 case_decide; cbn [app valid_strings forallb field fst snd];
    rewrite Hi, Hr, ?Hb, ?b64_valid, Format_valid; reflexivity.
Qed.

Lemma get_here key j ms : get key (JObject (field key j :: ms)) = Some j.
Proof. unfold get, field. cbn [List.find fst]. by rewrite bool_decide_eq_true_2. Qed.

Lemma get_later key key' j ms :
  String.eqb key' key = false → get key (JObject (field key' j :: ms)) = get key (JObject ms).
Proof.
  intros Hk. unfold get, field. cbn [List.find fst]. rewrite bool_decide_eq_false_2; [done|].
  intros E. apply String.eqb_neq in Hk. apply Hk. by rewrite <-(bytes_of_inv key'), E, bytes_of_inv.
Qed.

Lemma get_nowhere key : get key (JObject []) = None.
Proof. done. Qed.

Ltac get_fields :=
  unfold get_string; repeat (rewrite get_here || (rewrite get_later by reflexivity) || rewrite get_nowhere);
  cbn [mbind option_bind].

(** A message is read from its object, whatever texts stand for its body and its time. *)
Lemma delivery_read_back d b64 sent :
  (utf8_Valid (d_Body d) = false → b64 ≠ [] ∧ b64_decode b64 = Some (d_Body d)) →
  read_time sent = Some (d_SentAt d) →
  delivery_of (JObject (field "id" (JString (bytes_of (d_ID d))) ::
    field "receipt" (JString (bytes_of (d_Receipt d))) ::
    (if utf8_Valid (d_Body d) then omitempty "body" (d_Body d) else omitempty "body_b64" b64) ++
    [field "receives" (JInt (d_Receives d)); field "sent_at" (JString sent)])) = Some d.
Proof.
  intros Hb Ht. destruct d as [id receipt body receives t]. cbn [d_ID d_Receipt d_Body d_Receives d_SentAt] in *.
  unfold delivery_of, omitempty. destruct (utf8_Valid body).
  - destruct (decide (body = [])) as [->|Hn]; cbn [app]; get_fields; rewrite Ht; cbn [mbind option_bind];
      unfold read_string; by rewrite !bytes_of_inv.
  - destruct (Hb eq_refl) as [Hn Hd]. rewrite decide_False by done.
    cbn [app]. get_fields. rewrite Hd. cbn [mbind option_bind]. rewrite Ht. cbn [mbind option_bind].
    unfold read_string. by rewrite !bytes_of_inv.
Qed.

Lemma toWire_json d :
  delivery_json (toWire d) =
  JObject (field "id" (JString (bytes_of (d_ID d))) ::
    field "receipt" (JString (bytes_of (d_Receipt d))) ::
    (if utf8_Valid (d_Body d) then omitempty "body" (d_Body d) else omitempty "body_b64" (b64_encode (d_Body d))) ++
    [field "receives" (JInt (d_Receives d)); field "sent_at" (JString (Format (d_SentAt d)))]).
Proof.
  unfold toWire, delivery_json. destruct (utf8_Valid (d_Body d));
    cbn [dw_ID dw_Receipt dw_Body dw_BodyB64 dw_Receives dw_SentAt];
    unfold omitempty at 2 3; by rewrite ?(decide_True (P := @nil ascii = [])) by done.
Qed.

Lemma delivery_read d : readable d → delivery_of (delivery_json (toWire d)) = Some d.
Proof.
  intros [_ _ _ Ht]. rewrite toWire_json. apply delivery_read_back; [|by apply read_time_Format].
  intros Hb. split; [|apply b64_decode_encode].
  intros E. destruct (d_Body d) as [|a [|b [|c p]]]; [done|discriminate E..].
Qed.

Section answers.
Context {L : Type} `{!Appender L} `{!ConfigJSON} `{!Machine} `{!ErrorTexts}.

(** C21: received messages are read back.  If a call of Receive returns messages, they are
    sent with the status 200, and a client that reads the text of the answer gets the
    messages as they are in the queue: ID, receipt, body (any bytes), receive count and
    the time of sending to the nanosecond.  IDs and receipts must be valid UTF-8, as those
    that the engine makes are, and times before the year 10000. *)
Theorem deliveries_read_back canceled ds :
  ds ≠ [] → Forall readable ds →
  ∃ rs, handleReceive_done canceled (Ok ds) = Some rs ∧ rs_status rs = StatusOK ∧
    deliveries_of (body_text (rs_body rs)) = Some ds.
Proof.
  intros Hne Hds. exists (mkResponse StatusOK (JSMessages (toWire <$> ds))).
  split; [by destruct ds|]. split; [done|]. cbn [rs_body]. unfold deliveries_of.
  assert (body_fits (JSMessages (toWire <$> ds))) as Hb.
  { cbn. apply Forall_fmap. eapply Forall_impl; [exact Hds|]. intros d Hd. unfold compose, toWire.
    destruct (utf8_Valid _); apply Hd. }
  rewrite (text_read (JSMessages _) (JObject [field "messages" (JArray (delivery_json <$> (toWire <$> ds)))]) eq_refl Hb).
  cbn [mbind option_bind].
  rewrite clean_valid; [rewrite get_here, <-list_fmap_compose|].
  - rewrite (mapM_read _ _ id); [by rewrite list_fmap_id|].
    eapply Forall_impl; [exact Hds|]. intros d Hd. by apply delivery_read.
  - cbn [valid_strings forallb field fst snd]. rewrite !andb_true_r. cbn [andb].
    induction Hds as [|d ds' [Hi Hr _ _] _ IH]; [done|]. cbn [fmap list_fmap forallb].
    rewrite toWire_strings by done. cbn [andb]. destruct ds' as [|d' ds']; [done|].
    apply IH; [done|]. by inversion Hb.
Qed.

(** ** Errors *)

(** What a program answers, whatever the engine does. *)
Definition says (P : served → Prop) (prog : GoM (world L) served) : Prop :=
  ∀ w out w', prog w = Some (out, w') → P out.

Lemma says_ret (P : served → Prop) out : P out → says P (mret out).
Proof. by intros HP w ? ? [= <- <-]. Qed.

Lemma says_bind {A} P (c : GoM (world L) A) f : (∀ a, says P (f a)) → says P (a ← c; f a).
Proof.
  intros Hf w out w'. unfold mbind, GoM_bind. destruct (c w) as [[a w1]|]; [|done]. apply Hf.
Qed.

(** The statuses of errors with their codes. *)
Definition error_codes : list (Z * string) :=
  [(StatusNotFound, "queue_not_found"); (StatusNotFound, "message_not_found");
   (StatusConflict, "lease_lost"); (StatusRequestEntityTooLarge, "body_too_large");
   (StatusBadRequest, "bad_queue_name"); (StatusBadRequest, "bad_request");
   (StatusBadRequest, "bad_config"); (StatusBadRequest, "bad_delay");
   (StatusBadRequest, "bad_wait"); (StatusBadRequest, "bad_visibility");
   (StatusBadRequest, "bad_max"); (StatusBadRequest, "missing_receipt");
   (StatusBadRequest, "missing_target")]%string.

(** The status and the body of a response fit together. *)
Definition fitting (rs : response) : Prop :=
  match rs_body rs with
  | NoBody => rs_status rs = StatusNoContent
  | PlainText _ => False
  | JSError code _ => (rs_status rs, code) ∈ error_codes
  | _ => rs_status rs = StatusOK ∨ rs_status rs = StatusCreated
  end.

Definition fits (out : served) : Prop := match out with Responds rs => fitting rs | Polls _ => True end.

Lemma fitting_error status code msg :
  bool_decide ((status, code) ∈ error_codes) = true → fitting (writeError status code msg).
Proof. intros Hin%bool_decide_eq_true. exact Hin. Qed.

Lemma fitting_engine_error e : fitting (writeEngineError e).
Proof. unfold writeEngineError. repeat case_match; by apply fitting_error. Qed.

Lemma handleReceive_fits rq name : fits (handleReceive rq name).
Proof. unfold handleReceive. repeat first [progress cbv zeta | case_match]; try done; by apply fitting_error. Qed.

Lemma leaseParams_fits rq rs : leaseParams rq = inl rs → fitting rs.
Proof. unfold leaseParams. cbv zeta. case_bool_decide; [intros [= <-]; by apply fitting_error|done]. Qed.

Lemma fits_responds rs : fitting rs → fits (Responds rs).
Proof. done. Qed.

Hint Resolve fits_responds fitting_engine_error handleReceive_fits leaseParams_fits : server.
Hint Extern 1 (fitting (writeError _ _ _)) => by apply fitting_error : server.
Hint Extern 1 (fitting (mkResponse _ _)) => by (repeat case_match; cbn; auto) : server.

Ltac answers :=
  repeat first
    [ apply says_bind; intros ? | apply says_ret; by eauto with server | progress cbv zeta | case_match ].

Lemma handlers_fit rq : Forall (λ h, says fits h.2) (routes (L := L) rq).
Proof.
  unfold routes, handleHealth, handleVersion, handleListQueues, handleCreateQueue, handleQueueStats,
    handleDeleteQueue, handleSend, handleAck, handleNack, handleExtend, handleRedrive, no_content, responds.
  repeat case_match; repeat (apply Forall_cons_2; [cbn [snd]; answers|]); apply Forall_nil_2.
Qed.

(** An answer of the server: to a request, or at the end of a call of Receive. *)
Definition answers_with (rq : request) (rs : response) : Prop :=
  (∃ w w', ServeHTTP (L := L) rq w = Some (Responds rs, w')) ∨
  (∃ canceled r, handleReceive_done canceled r = Some rs).

(** What the mux answers itself, in plain text. *)
Definition unrouted (rq : request) (rs : response) : Prop :=
  routes (L := L) rq = [] ∧ rs = mkResponse StatusNotFound (PlainText "404 page not found") ∨
  routes (L := L) rq ≠ [] ∧ rs = mkResponse StatusMethodNotAllowed (PlainText "Method Not Allowed").

Lemma answers_fit rq rs : answers_with rq rs → fitting rs ∨ unrouted rq rs.
Proof.
  intros [(w & w' & Hs)|(canceled & r & Hr)].
  - pose proof (handlers_fit rq) as Hall. unfold ServeHTTP in Hs.
    destruct (routes rq) as [|h hs] eqn:Hrt; [injection Hs as <- _; right; by left|]. cbv zeta in Hs.
    destruct (List.find _ _) as [h'|] eqn:Hf; [|injection Hs as <- _; right; right; by rewrite Hrt].
    apply List.find_some in Hf as [Hin _]. left. rewrite Forall_forall in Hall.
    exact (Hall _ (proj2 (list_elem_of_In _ _) Hin) _ _ _ Hs).
  - left. unfold handleReceive_done in Hr. destruct r as [[|d ds]|e]; [by injection Hr as <-|injection Hr as <-; by left|].
    destruct (_ && _); [done|]. injection Hr as <-. apply fitting_engine_error.
Qed.

Lemma error_codes_facts status code :
  (status, code) ∈ error_codes → 400 ≤ status ∧ utf8_Valid (bytes_of code) = true.
Proof.
  intros Hin. assert (Forall (λ sc, 400 ≤ sc.1 ∧ utf8_Valid (bytes_of sc.2) = true) error_codes) as Hall
    by by repeat constructor.
  rewrite Forall_forall in Hall. exact (Hall _ Hin).
Qed.

Lemma error_read code msg :
  error_of (body_text (JSError code msg)) = Some (to_valid (bytes_of code), to_valid (message_text msg)).
Proof.
  unfold error_of. erewrite (text_read (JSError code msg)); [|reflexivity|done]. reflexivity.
Qed.

(** C22: every answer can be read, and every error has the envelope.  If the server answers
    with a status from 400 on, a client that reads the text of the answer as JSON finds the
    object error with a code that belongs to the status and the text of the error, in which
    bytes that are not valid UTF-8 are replaced.  An answer with a status below 400 has no
    body, or a text that is read as the value that the handler gave to writeJSON, if its
    numbers fit 64 bits.  Only requests for which there is no route or no method are answered
    with the plain texts of ServeMux, which are not JSON. *)
Theorem answers_readable rq rs :
  answers_with rq rs →
  (400 ≤ rs_status rs ∧ ∃ code msg,
     rs_body rs = JSError code msg ∧ (rs_status rs, code) ∈ error_codes ∧
     error_of (body_text (rs_body rs)) = Some (bytes_of code, to_valid (message_text msg))) ∨
  (rs_status rs < 400 ∧
     (rs_body rs = NoBody ∧ body_text (rs_body rs) = [] ∨
      ∃ j, body_json config_json (rs_body rs) = Some j ∧
        (body_fits (rs_body rs) → Unmarshal (body_text (rs_body rs)) = Some (clean j)))) ∨
  (unrouted rq rs ∧ Unmarshal (body_text (rs_body rs)) = None).
Proof.
  intros Ha. destruct (answers_fit _ _ Ha) as [Hf|Hu].
  2: { right; right. split; [done|]. by destruct Hu as [[_ ->]|[_ ->]]; vm_compute. }
  destruct rs as [status b]. unfold fitting in Hf. cbn [rs_status rs_body] in *.
  destruct b as [|t|n| |ss|s|id|ds|n|code msg]; try done;
    try (right; left; split; [by destruct Hf as [-> | ->]|right; eexists; split; [done|]; by apply text_read]).
  - right; left. subst. split; [done|by left].
  - destruct (error_codes_facts _ _ Hf) as [Hst Hc]. left. split; [done|]. exists code, msg.
    split; [done|]. split; [done|]. by rewrite error_read, (to_valid_utf8 _ Hc).
Qed.
End answers.

(** ** At concrete answers *)

(** The texts of the sentinel errors of the engine; that of another error is its format. *)
Definition sentinel_texts : ErrorTexts := λ e,
  bytes_of
    match e with
    | ErrQueueNotFound => "queue not found"
    | ErrMessageNotFound => "message not found"
    | ErrNotLeased => "message is not currently leased"
    | ErrWrongReceipt => "receipt does not match the current lease"
    | ErrBadName => "invalid queue name"
    | Wrapf format _ _ | Errorf format _ => format
    end.
#[local] Existing Instance sentinel_texts.

Definition no_receipt : request := mkRequest "DELETE" ["q"; "jobs"; "messages"; id1] [] [] None.

Definition receipt_wanted : response :=
  writeError StatusBadRequest "missing_receipt"
    [Text "pass the receipt from the receive response as ?receipt="].

Example receipt_wanted_text :
  error_of (body_text (rs_body receipt_wanted)) =
  Some (bytes_of "missing_receipt", bytes_of "pass the receipt from the receive response as ?receipt=").
Proof. vm_compute. reflexivity. Qed.

Lemma receipt_is_wanted : answers_with (L := MemLog) no_receipt receipt_wanted.
Proof. left. exists demo, demo. reflexivity. Qed.

Lemma answers_readable_witness :
  (400 ≤ rs_status receipt_wanted ∧ ∃ code msg,
     rs_body receipt_wanted = JSError code msg ∧ (rs_status receipt_wanted, code) ∈ error_codes ∧
     error_of (body_text (rs_body receipt_wanted)) = Some (bytes_of code, to_valid (message_text msg))) ∨
  (rs_status receipt_wanted < 400 ∧
     (rs_body receipt_wanted = NoBody ∧ body_text (rs_body receipt_wanted) = [] ∨
      ∃ j, body_json config_json (rs_body receipt_wanted) = Some j ∧
        (body_fits (rs_body receipt_wanted) →
         Unmarshal (body_text (rs_body receipt_wanted)) = Some (clean j)))) ∨
  (unrouted (L := MemLog) no_receipt receipt_wanted ∧ Unmarshal (body_text (rs_body receipt_wanted)) = None).
Proof. exact (answers_readable no_receipt receipt_wanted receipt_is_wanted). Defined.

(** A text with markup and a body that is not UTF-8. *)
Definition two_messages : list Delivery :=
  [mkDelivery id1 receipt4 (bytes_of "<a & b>") 1 1709210096120000000;
   mkDelivery "m-2" "r-2" [char 255; char 0; newline] 3 1709210096999999999].

Lemma two_readable : Forall readable two_messages.
Proof. by repeat constructor; vm_compute. Qed.

Lemma deliveries_read_back_witness :
  ∃ rs, handleReceive_done false (Ok two_messages) = Some rs ∧ rs_status rs = StatusOK ∧
    deliveries_of (body_text (rs_body rs)) = Some two_messages.
Proof. exact (deliveries_read_back false two_messages ltac:(done) two_readable). Defined.
