(* ===== verification/CliFacts.v ===== *)
(** What the commands rely on: a log that an engine wrote is loaded by an engine
    without a log too, the times of a snapshot fit where the times of the log did, and
    a snapshot is written and read back. *)

From S2P Require Import Prelude GoHeap Ids WalRecord Json JsonValue JsonLine JsonStruct WalJson Os OsFacts Wal.
From S2P Require Import WalFacts WalCrash WalCompact WalOpen.
From S2P Require Import Config Message Engine Spec Invariant Refine RefineTime Trace Replay.
From S2P Require Import RefineLoad RefineSnap Runs ConfigWire Instances Components Demo Recovery Loggable.
From S2P Require Import FileLog Wakeup Cli.
From stdpp Require Import fin_maps.

Local Open Scope Z_scope.

(** ** The times of messages *)

(** The times of a message, as they are logged, are 64-bit integers, and a lease ends
    after 1970. *)
Definition timely (m : message) : bool :=
  int64 (ms (m_SentAt m)) && int64 (ms (m_NotBefore m)) && int64 (ms (m_Deadline m)) &&
  (negb (bool_decide (m_state m = stateLeased)) || (0 <? ms (m_Deadline m))).

Definition punctual (k : core) : Prop := ∀ p m, k_msgs k !! p = Some m → timely m = true.

(** The same for a record: the deadlines of leases are after 1970. *)
Definition dated (r : WRecord) : bool :=
  times_fit r && (negb (bool_decide (r_Op r ∈ [OpReceive; OpExtend])) || (0 <? r_Deadline r)).

Lemma ms_UnixMilli x : int64 x = true → int64 (ms (UnixMilli x)) = true.
Proof.
  intros Hx. unfold ms. destruct (IsZero (UnixMilli x)); [done|].
  unfold UnixMilli. by rewrite Z.div_mul by done.
Qed.

Lemma ms_after x : 0 < x → 0 < ms (UnixMilli x).
Proof.
  intros Hx. unfold ms, IsZero, zeroTime, UnixMilli.
  destruct (Z.eqb_spec (x * 10 ^ 6) (-62135596800 * 10 ^ 9)); [lia|]. by rewrite Z.div_mul.
Qed.

Create HintDb timely discriminated.

Section times.
Context {L : Type} `{!ConfigJSON}.
Abbreviation M := (GoM (world L)).

(** The program keeps the times of all messages in range. *)
Definition on_time {A} (c : M A) : Prop := ∀ k, punctual k → clp c (λ _ k', punctual k') k.

Lemma on_time_bind {A B} (c : M A) (f : A → M B) :
  on_time c → (∀ a, on_time (f a)) → on_time (c ≫= f).
Proof.
  intros Hc Hf k Hk. apply clp_bind. eapply clp_mono; [by apply Hc|].
  intros a k' Hk'. by apply Hf.
Qed.

Lemma on_time_ret {A} (a : A) : on_time (mret a).
Proof. intros k Hk. by apply clp_ret. Qed.

Lemma on_time_opt {A} (o : option A) : on_time (go_opt o).
Proof. intros k Hk. by apply clp_opt. Qed.

Lemma on_time_lookup n : on_time (lookup_queue n).
Proof. intros k Hk. by apply clp_lookup. Qed.

Lemma on_time_deref n : on_time (deref_queue n).
Proof. intros k Hk. by apply clp_deref. Qed.

Lemma on_time_put_queue n q : on_time (put_queue n q).
Proof. intros k Hk. by apply clp_put_queue. Qed.

Lemma on_time_get_seq : on_time get_seq.
Proof. intros k Hk. by apply clp_get_seq. Qed.

Lemma on_time_set_seq s : on_time (Engine.set_seq s).
Proof. intros k Hk. by apply clp_set_seq. Qed.

Lemma on_time_incr : on_time incr_seq.
Proof. intros k Hk. by apply clp_incr. Qed.

Lemma on_time_add n c : on_time (add_queue n c).
Proof.
  intros k Hk. unfold add_queue, make_chan. apply clp_bind, clp_bind, clp_get, clp_bind, clp_put, clp_ret.
  by apply clp_put_queue.
Qed.

(** A change of a queue that looks at the messages only. *)
Lemma on_time_get {A} (f : core → M A) : (∀ k, on_time (f k)) → on_time (k ← get_core; f k).
Proof. intros Hf k Hk. apply clp_bind, clp_get. by apply Hf. Qed.

Lemma on_time_queues {A} (f : core → gmap string queueState) (c : M A) :
  on_time c → on_time (k ← get_core; _ ← put_core (k_set_queues (f k) k); c).
Proof. intros Hc k Hk. apply clp_bind, clp_get, clp_bind, clp_put. by apply Hc. Qed.

(** A message is loaded, and one with times in range is saved for it. *)
Lemma on_time_load {A} p (f : message → M A) :
  (∀ m, timely m = true → on_time (f m)) → on_time (m ← load p; f m).
Proof.
  intros Hf k Hk. apply clp_bind. unfold load. apply clp_bind, clp_get, clp_opt.
  intros m Hm. apply Hf; [by eapply Hk|done].
Qed.

Lemma on_time_save p m : timely m = true → on_time (save p m).
Proof.
  intros Hm k Hk. unfold save. apply clp_bind, clp_get, clp_put.
  intros p' m'. cbn. intros [[<- <-]|[_ Hp]]%lookup_insert_Some; [done|by eapply Hk].
Qed.

Lemma on_time_new m : timely m = true → on_time (new_message m).
Proof.
  intros Hm k Hk. unfold new_message. apply clp_bind, clp_get, clp_bind, clp_put, clp_ret.
  intros p' m'. cbn. intros [[<- <-]|[_ Hp]]%lookup_insert_Some; [done|by eapply Hk].
Qed.

Hint Resolve on_time_ret on_time_opt on_time_lookup on_time_deref on_time_put_queue on_time_get_seq
  on_time_set_seq on_time_incr on_time_add : timely.

Ltac on_time :=
  repeat first
    [ solve [auto with timely nocore]
    | lazymatch goal with
      | |- on_time (mbind _ (load _)) => apply on_time_load; intros ? ?
      | |- on_time (mbind _ get_core) => first [apply on_time_queues | apply on_time_get; intros ?]
      | |- on_time (mbind _ _) => apply on_time_bind; [|intros ?]
      end
    | progress case_match ].

Lemma timely_ready m : timely m = true → timely (m_to_ready m) = true.
Proof. unfold timely. cbn. rewrite !andb_true_iff. tauto. Qed.

Lemma timely_moved s n m : timely m = true → timely (m_moved s n m) = true.
Proof. unfold timely. cbn. rewrite !andb_true_iff. tauto. Qed.

Lemma timely_deadline t m :
  int64 (ms t) = true → 0 < ms t → timely m = true → timely (m_set_deadline t m) = true.
Proof.
  unfold timely. cbn. intros Hi Ht. rewrite (proj2 (Z.ltb_lt _ _) Ht), orb_true_r, !andb_true_iff. tauto.
Qed.

Lemma timely_leased receipt t n m :
  int64 (ms t) = true → 0 < ms t → timely m = true → timely (m_to_leased receipt t n m) = true.
Proof.
  unfold timely. cbn. intros Hi Ht. rewrite (proj2 (Z.ltb_lt _ _) Ht), !andb_true_iff. tauto.
Qed.

Lemma on_time_push n p : on_time (pushReady n p).
Proof.
  unfold pushReady. apply on_time_load. intros m Hm.
  apply on_time_bind; [by apply on_time_save, timely_ready|intros _]. on_time.
Qed.

Hint Resolve on_time_push : timely.

Lemma on_time_arrive n p m : timely m = true → on_time (arrive n p m).
Proof.
  intros Hm. unfold arrive. apply on_time_bind; [by apply on_time_save|intros _]. on_time.
Qed.

Lemma on_time_removeReady n p : on_time (removeReady n p).
Proof. unfold removeReady. on_time. Qed.

Lemma on_time_bumpSeq id : on_time (bumpSeq id).
Proof. unfold bumpSeq. on_time. Qed.

Hint Resolve on_time_removeReady on_time_bumpSeq : timely.

Lemma on_time_transfer r p : on_time (apply_transfer r p).
Proof.
  unfold apply_transfer. case_decide; [on_time|]. apply on_time_bind; [on_time|]. intros [q|]; [|on_time].
  apply on_time_bind; [on_time|intros s]. apply on_time_load. intros m Hm.
  apply on_time_bind; [|intros _; on_time]. by apply on_time_arrive, timely_moved.
Qed.

Hint Resolve on_time_transfer : timely.

Lemma on_time_message r n p :
  int64 (r_Deadline r) = true → (r_Op r ∈ [OpReceive; OpExtend] → 0 < r_Deadline r) →
  on_time (apply_message r n p).
Proof.
  intros Hr%ms_UnixMilli Hd. unfold apply_message.
  repeat first
    [ apply on_time_save;
      first [apply timely_leased | apply timely_deadline]; [done| |done];
      apply ms_after, Hd; set_solver
    | progress on_time ].
Qed.

Lemma on_time_apply r : dated r = true → on_time (Engine.apply r).
Proof.
  unfold dated, times_fit. rewrite !andb_true_iff, orb_true_iff, negb_true_iff, Z.ltb_lt.
  intros [[[Ht Hn] Hd] Hop]. assert (r_Op r ∈ [OpReceive; OpExtend] → 0 < r_Deadline r) as Hop'.
  { intros Hin. destruct Hop as [Hop|]; [|done]. by apply bool_decide_eq_false in Hop. }
  unfold Engine.apply.
  repeat first [ by apply on_time_message | apply on_time_new | progress on_time ];
    unfold timely; cbn; rewrite !andb_true_iff; by rewrite !ms_UnixMilli.
Qed.

Lemma on_time_Load recs : Forall (λ r, dated r = true) recs → on_time (Load recs).
Proof.
  unfold Load. generalize 0 as i. intros i Hr. revert i.
  induction Hr as [|r recs Hr _ IH]; intros i; cbn [load_from]; [on_time|].
  apply on_time_bind; [by apply on_time_apply|]. intros [e|]; [on_time|apply IH].
Qed.
End times.

(** ** The records of a snapshot are read back *)

Section snapshot.
Context `{!ConfigJSON} `{!ConfigJSONLaws}.

(** The records of a message in time are in time, and valid. *)
Lemma snapshot_message_sound n m :
  n ≠ ""%string → m_ID m ≠ ""%string → timely m = true →
  Forall (λ r, times_fit r = true ∧ Validate r = None) (snapshot_message n m).
Proof.
  intros Hn Hid. unfold timely. rewrite !andb_true_iff. intros [[[Ht Hb] Hd] Hl].
  unfold snapshot_message. constructor.
  - rewrite Validate_SetBody. split; [|by apply Validate_message_op; [set_solver|..]].
    unfold SetBody, times_fit. destruct (utf8_Valid _); cbn; by rewrite Ht, Hb.
  - case_decide as Hs; [|done]. constructor; [|done]. unfold times_fit. cbn. rewrite Hd.
    split; [done|]. rewrite bool_decide_eq_true_2 in Hl by done. cbn in Hl. apply Z.ltb_lt in Hl.
    apply Validate_message_op; try done; cbn; [set_solver|lia].
Qed.

Lemma loaded_from st ps msgs m :
  load_all st ps = Some msgs → m ∈ msgs → ∃ p, p ∈ ps ∧ st !! p = Some m.
Proof.
  unfold load_all. intros Hm%mapM_Some Hin. apply list_elem_of_lookup in Hin as [i Hi].
  destruct (Forall2_lookup_r _ _ _ _ _ Hm Hi) as (p & Hp & Hst). exists p.
  split; [by eapply list_elem_of_lookup_2|done].
Qed.

Lemma snapshot_readable k names recs :
  wf k → punctual k → names_valid (abs k) → cfgs_parsed (abs k) →
  snapshot_queues k names = Some recs → Forall readable_record recs.
Proof.
  intros Hk Hp Hn Hc Hrecs.
  pose proof (snapshot_queues_survive _ _ _ Hk Hn Hc Hrecs) as Hsv.
  enough (Forall (λ r, times_fit r = true ∧ Validate r = None) recs) as Hall.
  { rewrite Forall_forall in Hsv, Hall. apply Forall_forall. intros r Hr.
    destruct (Hall _ Hr) as [Ht Hv]. split; [by apply Hsv|done]. }
  clear Hsv. revert recs Hrecs. induction names as [|n names IH]; intros recs Hrecs.
  { by injection Hrecs as <-. }
  simpl in Hrecs. destruct (k_queues k !! n) as [q|] eqn:Hq; [|done]. simpl in Hrecs.
  destruct (snapshot_queue _ n q) as [recs1|] eqn:H1; [|done]. simpl in Hrecs.
  destruct (snapshot_queues k names) as [rest|]; [|done]. injection Hrecs as <-.
  apply Forall_app. split; [|by apply IH].
  assert (n ≠ ""%string) as Hne.
  { destruct Hn as [Hn _]. intros ->. specialize (Hn "" ltac:(apply abs_queues_is_Some; eauto)). done. }
  unfold snapshot_queue in H1. destruct (load_all _ _) as [msgs|] eqn:Hm; [|done].
  injection H1 as <-. constructor.
  - split; [done|]. apply Validate_queue_op; [set_solver|done].
  - apply Forall_concat, Forall_fmap, Forall_forall. intros m Hin.
    rewrite merge_sort_Permutation in Hin.
    destruct (loaded_from _ _ _ _ Hm Hin) as (p & Hpin & Hpm).
    apply list_elem_of_fmap in Hpin as ([id p'] & -> & Hid%elem_of_map_to_list).
    destruct (wf_lookup _ _ _ _ _ Hk Hq Hid) as (m' & Hm' & <- & _ & Hl).
    cbn in Hpm. rewrite Hpm in Hm'. injection Hm' as <-.
    apply snapshot_message_sound; [done| |by eapply Hp].
    destruct (aw_msg _ (wf_abs _ Hk) _ _ _ Hl) as (_ & j & _ & ->). done.
Qed.
End snapshot.

(** ** Loading, with any log or none *)

Section loading.
Context `{!ConfigJSON}.

(** Load makes the state [k] of [recs], whatever the log and the environment are. *)
Definition loads_to (recs : list WRecord) (k : core) : Prop :=
  ∀ L (log : option L) env, Load recs (New log env) = Some (None, with_core (New log env) k).

Lemma loads_to_any {L} recs (log : option L) env w' :
  Load recs (New log env) = Some (None, w') → loads_to recs (w_core w').
Proof.
  intros Hl L' log' env'. pose proof (core_only_Load recs (New log env) (New log' env') eq_refl) as Hc.
  rewrite Hl in Hc. destruct (Load recs (New log' env')) as [[e w2]|]; [|done].
  by destruct Hc as (<- & k & -> & ->).
Qed.

(** A snapshot of the state [k] of [recs], and the state [k'] that it is loaded into. *)
Record compacts_to (recs : list WRecord) (k : core) (snap : list WRecord) (k' : core) : Prop := {
  ct_loads : loads_to recs k;
  ct_snap : snapshot_queues k (merge_sort str_le (map_keys (k_queues k))) = Some snap;
  ct_reloads : loads_to snap k';
  ct_restores : restores (abs k) (abs k');
  ct_readable : Forall readable_record snap;
}.

Lemma punctual_loaded recs k :
  loads_to recs k → Forall (λ r, dated r = true) recs → punctual k.
Proof.
  intros Hl Hr. specialize (Hl Empty_set None (mkEnv (λ _, 0) (λ _, []))).
  exact (on_time_Load recs Hr (w_core (New_nil (mkEnv (λ _, 0) (λ _, [])))) ltac:(done)
           (New_nil _) _ _ eq_refl Hl).
Qed.

Lemma compacts_from `{!ConfigJSONLaws} recs k :
  loads_to recs k → wf k → cfgs_parsed (abs k) → names_valid (abs k) →
  Forall (λ r, dated r = true) recs → ∃ snap k', compacts_to recs k snap k'.
Proof.
  intros Hl Hwf Hc Hn Hr. pose proof (punctual_loaded _ _ Hl Hr) as Hp.
  set (w := with_core (New_nil (mkEnv (λ _, 0) (λ _, []))) k).
  destruct (Snapshot_rebuilds (L := FileLog) (mkWorld (mkEnv (λ _, 0) (λ _, [])) 0 0 None k) Hwf)
    as (snap & R & Hs & Hre & Hrs).
  { intros n c [? ?]%Hc. by apply ParseConfig_Marshal. }
  assert (snapshot_queues k (merge_sort str_le (map_keys (k_queues k))) = Some snap) as Hsq.
  { unfold Snapshot, get_core, go_opt, mbind, GoM_bind in Hs. cbn [w_core] in Hs.
    destruct (snapshot_queues _ _); [|done]. by injection Hs as ->. }
  destruct (wp_elim _ _ _ (Hre None (mkEnv (λ _, 0) (λ _, [])))) as (err & w' & Hload & -> & k' & -> & _ & <-).
  exists snap, k'. split; [done|done| |done|by eapply snapshot_readable].
  exact (loads_to_any _ _ _ _ Hload).
Qed.

(** ** Commands *)

Lemma io_run_engine {L A} (c : GoM (world L) A) e r (Q : A * world L → os → Prop) C s :
  c e = Some r → Q r s → io (run_engine c e) Q C s.
Proof. unfold run_engine. by intros ->. Qed.

Lemma io_Close_log l s :
  (w_err (l_w l) = None → w_buf (l_w l) = []) →
  io (Close_log l) (λ _, same_disk s) (same_disk s) s.
Proof.
  intros Hb. unfold Close_log, Flush.
  assert (∀ f w, io (err ← Close f; mret (w, err)) (λ _ : Log * option error, same_disk s) (same_disk s) s) as Hc.
  { intros f w. io_steps. eapply io_mono; [apply (io_Close f 0%nat)|..].
    - intros err s' (Hf & Hi). io_steps. split; [apply Hf|done].
    - intros s' ((_ & Hn & _) & Hi). by split. }
  destruct (w_err (l_w l)) as [e|].
  - io_steps. eapply io_mono; [apply (io_Close (l_f l) 0%nat)|..].
    + intros err s' (Hf & Hi). io_steps. split; [apply Hf|done].
    + intros s' ((_ & Hn & _) & Hi). by split.
  - rewrite Hb, decide_True by done. apply Hc.
Qed.

(** What can be in the log when it is opened. *)
Definition cut_of (safe all recs : list WRecord) : Prop := safe `prefix_of` recs ∧ recs `prefix_of` all.

Lemma io_queue_Open dir syncEach env s safe all :
  log_file s (Wal.Join dir FileName) safe all → Forall readable_record all →
  (∀ recs, cut_of safe all recs → ∃ k, loads_to recs k) →
  io (queue_Open dir syncEach env)
     (λ r s', match r with
              | Ok (e, l, _) =>
                ∃ recs k, cut_of safe all recs ∧ loads_to recs k ∧
                  e = with_core (New (Some l) env) k ∧ l_syncEach l = syncEach ∧
                  l_path l = Wal.Join dir FileName ∧ w_err (l_w l) = None ∧
                  log_holds s' l safe recs ∧ steady s s'
              | Err _ => ¬ willing s ∧ log_file s' (Wal.Join dir FileName) safe all
              end)
     (λ s', log_file s' (Wal.Join dir FileName) safe all) s.
Proof.
  intros Hlog Hr Hload. unfold queue_Open. io_steps.
  eapply io_mono; [by apply io_Open| |done]. intros [[[l recs] torn]|e] s1; io_steps; [|by intros [? ?]].
  intros (Hp & Hsy & Hsafe & Hall & Hh & He & _ & Hst).
  destruct (Hload recs) as [k Hk]; [done|]. io_steps. eapply io_run_engine; [apply Hk|].
  io_steps. by exists recs, k.
Qed.

(** A log without an error holds a prefix of what it may hold. *)
Lemma log_holds_file s l safe recs all :
  log_holds s l safe recs → w_err (l_w l) = None → recs `prefix_of` all →
  log_file s (l_path l) safe all.
Proof.
  intros (i & part & sy & Hn & _ & (_ & Hi & Hle) & Hp & He & Hsafe & Hsy) Hnone Hall. right.
  destruct (He Hnone) as [-> _]. rewrite app_nil_r in *.
  exists i, (text_of_log recs), sy, []. rewrite app_nil_r. split_and!; try done.
  - by trans recs.
  - by apply text_of_log_prefix.
  - by apply text_of_log_prefix.
Qed.
End loading.
