(* ===== verification/CliTheorems.v ===== *)
(** The theorems about the commands: what serve makes of the log of an engine that was
    stopped, what compact leaves of it, and the pause of the sweeper. *)

From S2P Require Import Prelude GoHeap Ids WalRecord Json JsonValue JsonLine JsonStruct WalJson Os OsFacts Wal.
From S2P Require Import WalFacts WalCrash WalCompact WalOpen Duration.
From S2P Require Import Config Message Engine Spec Invariant Refine RefineTime Trace Replay.
From S2P Require Import RefineLoad RefineSnap Runs ConfigWire Instances Components Demo Recovery Loggable.
From S2P Require Import RefineOps FileLog WalDemo WalTheorems Cli CliFacts.

Local Open Scope Z_scope.

(** The command line names the directory [dir]. *)
Definition names_dir (fs : list (string * flag_kind)) (args : list string) (dir : string)
    (vals : list (string * string)) : Prop :=
  parse_flags fs args [] = Some vals ∧ flag_value "data" "" vals = dir ∧ dir ≠ ""%string.

Lemma names_dir_parse command args dir vals :
  names_dir [dataFlag] args dir vals → parse command args = inl dir.
Proof. intros (Hp & Hd & Hne). unfold parse. by rewrite Hp, Hd, bool_decide_eq_false_2. Qed.

Section commands.
Context `{!ConfigJSON} `{!ConfigJSONLaws}.
Implicit Types w : world FileLog.

(** ** serve *)

Lemma io_Listen addr s :
  io (Listen addr)
     (λ r s', steady s s' ∧ (∀ l safe recs, log_holds s l safe recs → log_holds s' l safe recs) ∧
        match r with Err _ => ¬ willing s | _ => True end) (same_disk s) s.
Proof.
  unfold Listen. io_steps. apply io_ask. intros a s1 Ha.
  pose proof Ha as ((lq & -> & Hl) & _ & Hw).
  assert (steady s (set_answers lq s)) as Hst by by apply steady_suffix.
  assert (∀ l safe recs, log_holds s l safe recs → log_holds (set_answers lq s) l safe recs) as Hh
    by (intros l safe recs; by apply log_holds_same).
  destruct a; io_steps; try done. split_and!; try done. by intros ?%Hw.
Qed.

(** What the command serve ends with. *)
Lemma io_runServe env s args dir vals safe all :
  names_dir serve_flags args dir vals → log_file s (Wal.Join dir FileName) safe all →
  Forall readable_record all → (∀ recs, cut_of safe all recs → ∃ k, loads_to recs k) →
  io (runServe env args)
     (λ r s', match r.1 with
              | Serving e l =>
                ∃ recs k, cut_of safe all recs ∧ loads_to recs k ∧
                  e = with_core (New (Some l) env) k ∧ log_holds s' l safe recs ∧
                  steady s s' ∧ l_path l = Wal.Join dir FileName ∧
                  l_syncEach l = negb (bool_decide (flag_value "no-fsync" "false" vals = "true"%string))
              | Exits code => (code = ExitRuntime ∧ ¬ willing s) ∧
                              log_file s' (Wal.Join dir FileName) safe all
              end)
     (λ s', log_file s' (Wal.Join dir FileName) safe all) s.
Proof.
  intros (Hp & Hd & Hne) Hlog Hr Hload. unfold runServe. rewrite Hp. cbv zeta.
  rewrite Hd, bool_decide_eq_false_2 by done. io_steps.
  eapply io_mono; [by apply io_queue_Open| |done].
  intros [[[e l] torn]|err] s1; [|intros [? ?]; io_steps; by split].
  intros (recs & k & Hcut & Hk & He & Hsy & Hpath & Hnone & Hh & Hst). io_steps.
  pose proof (log_holds_file _ _ _ _ _ Hh Hnone (proj2 Hcut)) as Hf. rewrite Hpath in Hf.
  eapply io_mono; [apply io_Listen| |intros; by eapply same_disk_log].
  intros [ln|err] s2 (Hst2 & Hh2 & Hw); io_steps.
  - exists recs, k. split_and!; try done; [by apply Hh2|by eapply steady_trans].
  - pose proof (log_holds_file _ _ _ _ _ (Hh2 _ _ _ Hh) Hnone (proj2 Hcut)) as Hf2.
    rewrite Hpath in Hf2. eapply io_mono; [apply io_Close_log| |].
    + destruct (Hh2 _ _ _ Hh) as (? & ? & ? & _ & _ & _ & _ & Hb & _). intros Hn. by apply Hb.
    + intros ? s3 Hsd. cbn beta in Hsd. io_steps. split; [|by eapply same_disk_log].
      split; [done|]. intros Hws. by apply Hw, Hst.
    + intros s3 Hsd. by eapply same_disk_log.
Qed.

(** The server that serve ends with has loaded records of the old log. *)
Lemma serve_result env args dir vals c w0 cs w fl s :
  names_dir serve_flags args dir vals →
  life c w0 cs w → w_log w = Some fl → l_path (fl_log fl) = Wal.Join dir FileName →
  Forall (λ r, times_fit r = true) (fl_recs fl) → start_on_disk w0 fl → crash (fl_os fl) s →
  match Run env ("serve"%string :: args) s with
  | (Returns (Serving e l, _), s1) =>
    ∃ recs k, cut_of (fl_safe fl) (fl_recs fl) recs ∧ log_holds s1 l (fl_safe fl) recs ∧
      loads_to recs k ∧ e = with_core (New (Some l) env) k
  | (Returns (Exits code, _), _) => code = ExitRuntime ∧ ¬ willing s
  | (Dies, _) => True
  | (Panics, _) => False
  end.
Proof.
  intros Hargs Hlife Hlog Hp Htf Hstart Hcrash.
  pose proof (log_holds_disk _ _ _ _ (fk_holds _ _ _ _ (fl_ok fl))) as Hdisk. rewrite Hp in Hdisk.
  pose proof (crash_disk _ _ _ _ _ Hdisk Hcrash) as Hd.
  pose proof (life_readable _ _ _ _ _ Hlife Hlog Htf) as Hread.
  assert (∀ recs, cut_of (fl_safe fl) (fl_recs fl) recs → ∃ k, loads_to recs k) as Hload.
  { intros recs [Hsafe Hall].
    destruct (life_cut _ _ _ _ _ recs Hlife Hlog) with (None : option FileLog) env
      as (w' & Hl & _); [by intros fl0 ->%Hstart|done|].
    exists (w_core w'). by eapply loads_to_any. }
  pose proof (io_runServe env s args dir vals _ _ Hargs (or_intror Hd) Hread Hload) as Hio.
  unfold Run. rewrite decide_True by done. unfold io in Hio.
  destruct (runServe env args s) as [[[[code|e l] out]| |] s1]; [by destruct Hio| |done..].
  destruct Hio as (recs & k & Hcut & Hk & He & Hh & _). by exists recs, k.
Qed.

(** C3: serve recovers the queues.  An engine runs on its log file, started once or many
    times; the machine stops, and "duraq serve" is called with the same directory.  It
    does not panic; unless the operating system fails, in which case its exit code is 1,
    a server runs: its log holds all records that are known to be on the disk, and maybe
    more of the records of the old engine, and its engine is in a state that behaves as
    the state [B] that the old engine was in when it had written the last of them.  If
    the old log was synced at every append, [B] is the last state of the old engine. *)
Theorem serve_recovers env args dir vals c w0 cs w fl s :
  names_dir serve_flags args dir vals →
  life c w0 cs w → w_log w = Some fl → l_path (fl_log fl) = Wal.Join dir FileName →
  Forall (λ r, times_fit r = true) (fl_recs fl) → start_on_disk w0 fl → crash (fl_os fl) s →
  match Run env ("serve"%string :: args) s with
  | (Returns (Serving e l, _), s1) =>
    (∃ recs, cut_of (fl_safe fl) (fl_recs fl) recs ∧ log_holds s1 l (fl_safe fl) recs) ∧
    w_log e = Some l ∧ wf (w_core e) ∧
    ∃ ls1 ls2 B, asteps (abs (w_core w0)) ls1 B ∧ asteps B ls2 (abs (w_core w)) ∧
      (l_syncEach (fl_log fl) = true → B = abs (w_core w)) ∧
      ∀ T, 0 ≤ T → seen_by T w cs → sim T B (abs (w_core e))
  | (Returns (Exits code, _), _) => code = ExitRuntime ∧ ¬ willing s
  | (Dies, _) => True
  | (Panics, _) => False
  end.
Proof.
  intros Hargs Hlife Hlog Hp Htf Hstart Hcrash.
  pose proof (serve_result env _ _ _ _ _ _ _ _ _ Hargs Hlife Hlog Hp Htf Hstart Hcrash) as Hres.
  destruct (Run _ _ s) as [[[[code|e l] out]| |] s1]; [done| |done..].
  destruct Hres as (recs & k & [Hsafe Hall] & Hh & Hk & ->). split; [by exists recs|]. split; [done|].
  destruct (life_cut _ _ _ _ _ recs Hlife Hlog) with (None : option FileLog) env
    as (w' & Hl & Hwf & _ & _ & ls1 & ls2 & B & H1 & H2 & HB & Hsim); [by intros fl0 ->%Hstart|done|].
  specialize (Hk FileLog None env). rewrite Hl in Hk. injection Hk as ->. cbn in *.
  split; [done|]. exists ls1, ls2, B. split_and!; try done.
  intros Hsync. apply HB. apply (anti_symm prefix); [done|].
  by rewrite (fk_sync _ _ _ _ (fl_ok fl) Hsync) in Hsafe.
Qed.

(** ** compact *)

(** The log is replaced by a snapshot of the state of some [recs] that were in it. *)
Definition replaced_by (dir : string) (safe all : list WRecord) (snap : list WRecord) (s' : os) : Prop :=
  ∃ recs k k', cut_of safe all recs ∧ compacts_to recs k snap k' ∧
    disk s' (Wal.Join dir FileName) snap snap.

(** The log is there as it was, or replaced. *)
Definition old_or_compact (dir : string) (safe all : list WRecord) (s' : os) : Prop :=
  log_file s' (Wal.Join dir FileName) safe all ∨
  (∃ recs, cut_of safe all recs ∧ disk s' (Wal.Join dir FileName) safe recs) ∨
  ∃ snap, replaced_by dir safe all snap s'.

Lemma old_or_compact_same dir safe all s s' :
  same_disk s s' → old_or_compact dir safe all s → old_or_compact dir safe all s'.
Proof.
  intros Hs [Hl|[(recs & Hc & Hd)|(snap & recs & k & k' & Hc & Hk & Hd)]].
  - left. by eapply same_disk_log.
  - right. left. exists recs. split; [done|]. destruct Hs as [Hn Hi].
    eapply disk_same; [by rewrite Hn|by rewrite Hi|done].
  - right. right. exists snap, recs, k, k'. split; [done|]. split; [done|]. destruct Hs as [Hn Hi].
    eapply disk_same; [by rewrite Hn|by rewrite Hi|done].
Qed.

Lemma io_runCompact env s args dir vals safe all :
  names_dir [dataFlag] args dir vals → os_ok s → log_file s (Wal.Join dir FileName) safe all →
  Forall readable_record all →
  (∀ recs, cut_of safe all recs → ∃ k snap k', compacts_to recs k snap k') →
  io (runCompact env args)
     (λ r s', r.1 = ExitOK ∧ (∃ snap, replaced_by dir safe all snap s') ∨
              r.1 = ExitRuntime ∧ old_or_compact dir safe all s')
     (old_or_compact dir safe all) s.
Proof.
  intros Hargs Hok Hlog Hr Hc. unfold runCompact. rewrite (names_dir_parse _ _ _ _ Hargs). cbv zeta.
  io_steps. eapply io_mono; [by apply io_Open| |by intros s1; left].
  intros [[[l recs] torn]|e] s1; [|io_steps; intros [? _]; right; by split; [|left]].
  intros (Hp & _ & Hsafe & Hall & Hh & He & Hok1 & _). specialize (Hok1 Hok).
  destruct (Hc recs) as (k & snap & k' & Hk); [done|]. pose proof Hk as [Hloads Hsnap _ _ _].
  io_steps. eapply io_run_engine; [apply Hloads|]. cbn beta iota. io_steps. eapply io_run_engine.
  { unfold Snapshot, get_core, go_opt, mbind, GoM_bind. cbn [w_core with_core]. by rewrite Hsnap. }
  cbn beta iota. io_steps. eapply io_mono; [by apply io_Compact|..].
  2: { intros s2 [Hd|Hd]; rewrite Hp in Hd; right; [left; by exists recs|right; by exists snap, recs, k, k']. }
  assert (w_err (l_w l) = None → w_buf (l_w l) = []) as Hbuf.
  { destruct Hh as (? & ? & ? & _ & _ & _ & _ & Hb & _). intros Hn. by apply Hb. }
  intros [l2 [e|]] s2 (Hp2 & _ & H2); cbn [fst snd] in *; io_steps.
  - destruct H2 as [-> H2]. assert (old_or_compact dir safe all s2) as Hs2.
    { destruct H2 as [Hd%log_holds_disk|[Hd _]]; rewrite Hp in Hd; right;
        [left; by exists recs|right; by exists snap, recs, k, k']. }
    eapply io_mono; [by apply io_Close_log|..].
    + intros r3 s3 Hs3. io_steps. right. split; [done|]. exact (old_or_compact_same _ _ _ _ _ Hs3 Hs2).
    + intros s3 Hs3. exact (old_or_compact_same _ _ _ _ _ Hs3 Hs2).
  - pose proof (log_holds_disk _ _ _ _ H2) as Hd. rewrite Hp2, Hp in Hd.
    assert (∀ s3, same_disk s2 s3 → ∃ snap, replaced_by dir safe all snap s3) as Hrep.
    { intros s3 [Hn Hi]. exists snap, recs, k, k'. split; [done|]. split; [done|].
      eapply disk_same; [by rewrite Hn|by rewrite Hi|done]. }
    eapply io_mono; [apply io_Close_log|..].
    + destruct H2 as (? & ? & ? & _ & _ & _ & _ & Hb & _). intros Hn. by apply Hb.
    + intros r3 s3 Hs3. io_steps. left. split; [done|]. by apply Hrep.
    + intros s3 Hs3. right. right. by apply Hrep.
Qed.

Lemma recovers_log_file s dir safe all :
  log_file s (Wal.Join dir FileName) safe all → Forall readable_record all → recovers s dir safe all.
Proof.
  intros Hl Hr syncEach. pose proof (io_Open s dir syncEach safe all Hl Hr) as Hio. unfold io in Hio.
  destruct (Open dir syncEach s) as [[[[[l recs] torn]|e]| |] s']; [|apply Hio|done|done].
  by destruct Hio as (_ & _ & ? & ? & ? & _).
Qed.

(** What a snapshot says about the log that it replaces: it is read back, and what it is
    loaded into has the queues, the messages and the leases of the state of [recs]. *)
Definition compacted_log (s : os) (dir : string) (safe all : list WRecord) : Prop :=
  ∃ recs k snap k', cut_of safe all recs ∧ loads_to recs k ∧ loads_to snap k' ∧
    restores (abs k) (abs k') ∧ recovers s dir snap snap.

Lemma replaced_recovers dir safe all snap s1 s2 :
  replaced_by dir safe all snap s1 → crash s1 s2 → compacted_log s2 dir safe all.
Proof.
  intros (recs & k & k' & Hcut & [Hk _ Hk' Hrs Hrd] & Hd) Hc. exists recs, k, snap, k'.
  split_and!; try done. by eapply recovers_crash.
Qed.

Lemma old_or_compact_recovers dir safe all s1 s2 :
  Forall readable_record all → old_or_compact dir safe all s1 → crash s1 s2 →
  recovers s2 dir safe all ∨ compacted_log s2 dir safe all.
Proof.
  intros Hr [Hl|[(recs & [_ Hall] & Hd)|(snap & Hrep)]] Hc.
  - left. by eapply recovers_log_file; [eapply crash_log_file|].
  - left. eapply recovers_crash; [exact Hd|done| |done].
    destruct Hall as [rest ->]. by apply Forall_app in Hr as [? _].
  - right. by eapply replaced_recovers.
Qed.

(** C15: compact is safe.  "duraq compact" is called on the log of an engine that was
    stopped.  It does not panic; if its exit code is 0, the log is a snapshot, all of it
    on the disk, of the state of the records that were found in the log, and loading it
    gives the same queues and messages, leases included; otherwise the exit code is 1.
    If it fails, or the machine stops at any moment, the next start finds all that was
    on the disk in the old log, or such a snapshot. *)
Theorem compact_command env args dir vals c w0 cs w fl s :
  names_dir [dataFlag] args dir vals →
  life c w0 cs w → w_log w = Some fl → l_path (fl_log fl) = Wal.Join dir FileName →
  Forall (λ r, dated r = true) (fl_recs fl) → start_on_disk w0 fl → crash (fl_os fl) s → os_ok s →
  match Run env ("compact"%string :: args) s with
  | (Returns (Exits code, _), s1) =>
    if code =? ExitOK then ∀ s2, crash s1 s2 → compacted_log s2 dir (fl_safe fl) (fl_recs fl)
    else code = ExitRuntime ∧ ∀ s2, crash s1 s2 →
           recovers s2 dir (fl_safe fl) (fl_recs fl) ∨ compacted_log s2 dir (fl_safe fl) (fl_recs fl)
  | (Dies, s1) => ∀ s2, crash s1 s2 →
      recovers s2 dir (fl_safe fl) (fl_recs fl) ∨ compacted_log s2 dir (fl_safe fl) (fl_recs fl)
  | (Returns (Serving _ _, _), _) | (Panics, _) => False
  end.
Proof.
  intros Hargs Hlife Hlog Hp Hda Hstart Hcrash Hok.
  pose proof (log_holds_disk _ _ _ _ (fk_holds _ _ _ _ (fl_ok fl))) as Hdisk. rewrite Hp in Hdisk.
  pose proof (crash_disk _ _ _ _ _ Hdisk Hcrash) as Hd.
  assert (Forall (λ r, times_fit r = true) (fl_recs fl)) as Htf.
  { eapply Forall_impl; [exact Hda|]. unfold dated. intros r [? _]%andb_true_iff. done. }
  pose proof (life_readable _ _ _ _ _ Hlife Hlog Htf) as Hread.
  assert (∀ recs, cut_of (fl_safe fl) (fl_recs fl) recs → ∃ k snap k', compacts_to recs k snap k') as Hct.
  { intros recs [Hsafe Hall].
    destruct (life_cut _ _ _ _ _ recs Hlife Hlog) with (None : option FileLog) env
      as (w' & Hl & Hwf & Hpar & Hn & _); [by intros fl0 ->%Hstart|done|].
    exists (w_core w'). apply compacts_from; [by eapply loads_to_any|done..|].
    destruct Hall as [rest Hrest]. rewrite Hrest in Hda. by apply Forall_app in Hda as [? _]. }
  pose proof (io_runCompact env s args dir vals _ _ Hargs Hok (or_intror Hd) Hread Hct) as Hio.
  unfold Run. rewrite decide_False, decide_True by done. unfold io in Hio. unfold mbind at 1, IO_bind at 1.
  destruct (runCompact env args s) as [[[code out]| |] s1]; [| |done].
  - cbn in Hio |- *. destruct Hio as [[-> [snap Hrep]]|[-> Ho]]; cbn.
    + intros s2. by eapply replaced_recovers.
    + split; [done|]. intros s2. by apply old_or_compact_recovers.
  - intros s2. by apply old_or_compact_recovers.
Qed.
End commands.

(** ** Commands that change nothing *)

(** All results of a program satisfy [Q]. *)
Definition results {A} (c : IO A) (Q : A → Prop) : Prop := ∀ s a s', c s = (Returns a, s') → Q a.

Lemma results_ret {A} (a : A) (Q : A → Prop) : Q a → results (mret a) Q.
Proof. intros Ha s a' s' [= <- _]. done. Qed.

Lemma results_bind {A B} (c : IO A) (f : A → IO B) Q : (∀ a, results (f a) Q) → results (c ≫= f) Q.
Proof.
  intros Hf s b s'. unfold mbind, IO_bind. destruct (c s) as [[a| |] s1]; [apply Hf|done..].
Qed.

(** The program reads files only, whatever comes of it. *)
Definition reads {A} (c : IO A) : Prop := ∀ s, same_disk s (c s).2 ∧ o_files (c s).2 = o_files s.

Lemma reads_ret {A} (a : A) : reads (mret a).
Proof. done. Qed.

Lemma reads_panic {A} : reads (io_panic (A := A)).
Proof. done. Qed.

Lemma reads_bind {A B} (c : IO A) (f : A → IO B) : reads c → (∀ a, reads (f a)) → reads (c ≫= f).
Proof.
  intros Hc Hf s. unfold mbind, IO_bind. specialize (Hc s).
  destruct (c s) as [[a| |] s1]; [|done..]. destruct (Hf a s1) as [[Hn Hi] Hff].
  destruct Hc as [[Hn1 Hi1] Hf1]. cbn in *. split; [split|]; congruence.
Qed.

Lemma reads_run_engine {L A} (c : GoM (world L) A) e : reads (run_engine c e).
Proof. unfold run_engine. destruct (c e); [apply reads_ret|apply reads_panic]. Qed.

Lemma reads_ReadAll path : reads (ReadAll path).
Proof.
  assert (reads (ReadFile path)) as Hf.
  { intros s. unfold ReadFile, ask, get_os, stop_at, mbind, IO_bind.
    destruct (o_answers s) as [|[|n|n] l]; cbn; try (by repeat split);
      by destruct (o_names s !! path). }
  unfold ReadAll. apply reads_bind; [done|]. intros [|b|e]; [apply reads_ret| |apply reads_ret].
  destruct (read_data path b); [apply reads_ret|apply reads_panic].
Qed.

Section harmless.
Context `{!ConfigJSON}.

Lemma reads_runStats env args : reads (runStats env args).
Proof.
  unfold runStats. destruct (parse "stats" args) as [data|out]; [|apply reads_ret]. cbv zeta.
  apply reads_bind; [apply reads_ReadAll|]. intros [[[recs n] torn]|e]; [|apply reads_ret].
  apply reads_bind; [apply reads_run_engine|]. intros [[err|] eng]; [apply reads_ret|].
  apply reads_bind; [apply reads_run_engine|]. intros [all eng']. case_decide; apply reads_ret.
Qed.

(** A program that never ends with the exit code of a usage error. *)
Definition no_usage {A} (code : A → command_end) (c : IO A) : Prop :=
  results c (λ r, code r ≠ Exits ExitUsage).

Ltac no_usage :=
  cbv zeta; repeat first [ apply results_bind; intros ? | progress case_match | by apply results_ret ].

Lemma results_not {A} (code : A → command_end) (c : IO A) s a s' :
  no_usage code c → c s = (Returns a, s') → code a = Exits ExitUsage → s' = s.
Proof. intros Hc Hr Hu. by destruct (Hc _ _ _ Hr). Qed.

Lemma runServe_usage env args s r s' :
  runServe env args s = (Returns r, s') → r.1 = Exits ExitUsage → s' = s.
Proof.
  unfold runServe. destruct (parse_flags serve_flags args []) as [vals|]; [|by intros [= _ <-]].
  cbv zeta. case_bool_decide; [by intros [= _ <-]|]. apply results_not. no_usage.
Qed.

Lemma runCompact_usage env args s r s' :
  runCompact env args s = (Returns r, s') → Exits r.1 = Exits ExitUsage → s' = s.
Proof.
  unfold runCompact. destruct (parse "compact" args) as [data|out]; [|by intros [= _ <-]].
  apply (results_not (λ r, Exits r.1)). no_usage.
Qed.

Lemma runStats_usage env args s r s' :
  runStats env args s = (Returns r, s') → Exits r.1 = Exits ExitUsage → s' = s.
Proof.
  unfold runStats. destruct (parse "stats" args) as [data|out]; [|by intros [= _ <-]].
  apply (results_not (λ r, Exits r.1)). no_usage.
Qed.

(** C35: stats reads only, and a usage error does nothing.  Whatever the arguments are,
    what is on the disk and how the operating system answers: a command other than serve
    and compact changes no file; and a call that ends with the exit code 2 has done
    nothing at all: no system call was made. *)
Theorem harmless_commands env args s :
  let '(r, s') := Run env args s in
  (head args ≠ Some "serve"%string → head args ≠ Some "compact"%string →
     same_disk s s' ∧ o_files s' = o_files s) ∧
  (∀ out, r = Returns (Exits ExitUsage, out) → s' = s).
Proof.
  destruct args as [|c args]; [by repeat split|]. unfold Run.
  case_decide as Hserve; [|case_decide as Hcompact; [|case_decide]].
  - destruct (runServe env args s) as [r s'] eqn:E. subst c. split; [done|].
    intros out ->. by eapply runServe_usage.
  - unfold mbind, IO_bind. destruct (runCompact env args s) as [[r| |] s'] eqn:E; subst c;
      (split; [done|]); [|done..]. intros out [= Hr _]. eapply runCompact_usage; [exact E|by rewrite Hr].
  - pose proof (reads_runStats env args s) as Hreads. unfold mbind, IO_bind.
    destruct (runStats env args s) as [[r| |] s'] eqn:E; (split; [done|]); [|done..].
    intros out [= Hr _]. eapply runStats_usage; [exact E|by rewrite Hr].
  - repeat case_decide; by repeat split.
Qed.
End harmless.

(** ** The sweeper *)




(** ** Examples: commands on the log of the small engine *)

Definition data_args : list string := ["--data"; "data"]%string.

Lemma data_args_name fs :
  fs = serve_flags ∨ fs = [dataFlag] → names_dir fs data_args "data" [("data", "data")]%string.
Proof. by intros [-> | ->]. Qed.


Lemma serve_recovers_witness :
  match Run demo_env ("serve"%string :: data_args) (crashed (fl_os (file_of true))) with
  | (Returns (Serving e l, _), s1) =>
    (∃ recs, cut_of (fl_safe (file_of true)) (fl_recs (file_of true)) recs ∧
             log_holds s1 l (fl_safe (file_of true)) recs) ∧
    w_log e = Some l ∧ wf (w_core e) ∧
    ∃ ls1 ls2 B, asteps (abs (w_core (file_start true))) ls1 B ∧
      asteps B ls2 (abs (w_core (file_world true))) ∧
      (l_syncEach (fl_log (file_of true)) = true → B = abs (w_core (file_world true))) ∧
      ∀ T, 0 ≤ T → seen_by T (file_world true) demo_calls → sim T B (abs (w_core e))
  | (Returns (Exits code, _), _) =>
    code = ExitRuntime ∧ ¬ willing (crashed (fl_os (file_of true)))
  | (Dies, _) => True
  | (Panics, _) => False
  end.
Proof.
  exact (serve_recovers demo_env data_args "data" [("data", "data")]%string false (file_start true)
    demo_calls (file_world true) (file_of true) (crashed (fl_os (file_of true)))
    (data_args_name _ (or_introl eq_refl)) (file_life true) (file_logs true) file_path
    file_times (file_start_on_disk _) (crashed_crash _)).
Defined.

Lemma all_dated recs : forallb dated recs = true → Forall (λ r, dated r = true) recs.
Proof.
  rewrite List.forallb_forall. intros Hf. apply Forall_forall. intros r Hr.
  by apply Hf, list_elem_of_In.
Qed.

Lemma file_dated : Forall (λ r, dated r = true) (fl_recs (file_of true)).
Proof. apply all_dated. vm_compute. reflexivity. Qed.

Lemma file_os_ok : os_ok (crashed (fl_os (file_of true))).
Proof. apply os_okb_ok. vm_compute. reflexivity. Qed.

Lemma compact_command_witness :
  match Run demo_env ("compact"%string :: data_args) (crashed (fl_os (file_of true))) with
  | (Returns (Exits code, _), s1) =>
    if code =? ExitOK then
      ∀ s2, crash s1 s2 → compacted_log s2 "data" (fl_safe (file_of true)) (fl_recs (file_of true))
    else code = ExitRuntime ∧ ∀ s2, crash s1 s2 →
           recovers s2 "data" (fl_safe (file_of true)) (fl_recs (file_of true)) ∨
           compacted_log s2 "data" (fl_safe (file_of true)) (fl_recs (file_of true))
  | (Dies, s1) => ∀ s2, crash s1 s2 →
      recovers s2 "data" (fl_safe (file_of true)) (fl_recs (file_of true)) ∨
      compacted_log s2 "data" (fl_safe (file_of true)) (fl_recs (file_of true))
  | (Returns (Serving _ _, _), _) | (Panics, _) => False
  end.
Proof.
  exact (compact_command demo_env data_args "data" [("data", "data")]%string false (file_start true)
    demo_calls (file_world true) (file_of true) (crashed (fl_os (file_of true)))
    (data_args_name _ (or_intror eq_refl)) (file_life true) (file_logs true) file_path
    file_dated (file_start_on_disk _) (crashed_crash _) file_os_ok).
Defined.

(** The commands one after the other, on the log of the small engine: what they end with
    and how many lines they print. *)
Definition ends (c : IO (command_end * list printed)) (s : os) : option (Z * nat) :=
  match (c s).1 with
  | Returns (Exits code, out) => Some (code, length out)
  | Returns (Serving _ _, out) => Some (- 1, length out)
  | _ => None
  end.

Example commands_run :
  let s := crashed (fl_os (file_of true)) in
  ends (Run demo_env ("serve"%string :: data_args)) s = Some (- 1, 0%nat) ∧
  ends (Run demo_env ("stats"%string :: data_args)) s = Some (ExitOK, 4%nat) ∧
  ends (Run demo_env ("compact"%string :: data_args)) s = Some (ExitOK, 1%nat) ∧
  ends (Run demo_env ["compact"]%string) s = Some (ExitUsage, 1%nat).
Proof. repeat split; vm_compute; reflexivity. Qed.
