(* ===== verification/Lockstep.v ===== *)
(** Two runs of one program on two logs: as long as the logs give the same answers the
    runs are the same, and once the logs have parted nothing but an append touches them.
    What the engine and the server do depends on the log through Append only. *)

From S2P Require Import Prelude GoHeap Ids WalRecord Float64 Duration Config Message Engine LongPoll Server.

Local Open Scope Z_scope.

Create HintDb lockstep discriminated.

Section lockstep.
Context {L1 L2 : Type} `{!Appender L1} `{!Appender L2} `{!ConfigJSON}.

(** Logs that answer alike, and logs that have parted. *)
Context (alike parted : L1 → L2 → Prop).

Hypothesis Append_alike : ∀ r l1 l2 e1 l1' e2 l2',
  alike l1 l2 → Append r l1 = (e1, l1') → Append r l2 = (e2, l2') →
  e1 = e2 ∧ alike l1' l2' ∨ parted l1' l2'.
Hypothesis Append_left : ∀ r l1 l2 e l1',
  parted l1 l2 → Append r l1 = (e, l1') → parted l1' l2.
Hypothesis Append_right : ∀ r l1 l2 e l2',
  parted l1 l2 → Append r l2 = (e, l2') → parted l1 l2'.

(** The same engine, on two logs. *)
Record same_but_log (w1 : world L1) (w2 : world L2) : Prop := {
  sl_env : w_env w1 = w_env w2;
  sl_tick : w_tick w1 = w_tick w2;
  sl_rng : w_rng w1 = w_rng w2;
  sl_core : w_core w1 = w_core w2;
  sl_log : ∃ l1 l2, w_log w1 = Some l1 ∧ w_log w2 = Some l2 ∧ alike l1 l2;
}.

Definition parted_worlds (w1 : world L1) (w2 : world L2) : Prop :=
  ∃ l1 l2, w_log w1 = Some l1 ∧ w_log w2 = Some l2 ∧ parted l1 l2.

Record lockstep {A} (c1 : GoM (world L1) A) (c2 : GoM (world L2) A) : Prop := {
  ls_run w1 w2 a1 w1' a2 w2' :
    same_but_log w1 w2 → c1 w1 = Some (a1, w1') → c2 w2 = Some (a2, w2') →
    a1 = a2 ∧ same_but_log w1' w2' ∨ parted_worlds w1' w2';
  ls_left w1 w2 a w1' : parted_worlds w1 w2 → c1 w1 = Some (a, w1') → parted_worlds w1' w2;
  ls_right w1 w2 a w2' : parted_worlds w1 w2 → c2 w2 = Some (a, w2') → parted_worlds w1 w2';
}.

(** A computation that does not look at the log. *)
Lemma lockstep_blind {A} (c1 : GoM (world L1) A) (c2 : GoM (world L2) A) :
  (∀ w1 w2 a1 w1' a2 w2', same_but_log w1 w2 → c1 w1 = Some (a1, w1') → c2 w2 = Some (a2, w2') →
     a1 = a2 ∧ same_but_log w1' w2') →
  (∀ w a w', c1 w = Some (a, w') → w_log w' = w_log w) →
  (∀ w a w', c2 w = Some (a, w') → w_log w' = w_log w) → lockstep c1 c2.
Proof.
  intros Hrun H1 H2. split; [by eauto|..]; intros w1 w2 a w' (l1 & l2 & Hl1 & Hl2 & Hp) Hc.
  - exists l1, l2. by rewrite (H1 _ _ _ Hc).
  - exists l1, l2. by rewrite (H2 _ _ _ Hc).
Qed.

Ltac blind := apply lockstep_blind;
  [intros w1 w2 a1 w1' a2 w2' [He Ht Hr Hc (l1 & l2 & Hl1 & Hl2 & Ha)] [= <- <-] [= <- <-];
   split; [cbn; congruence|split; cbn; first [congruence | by exists l1, l2]]
  |by intros ? ? ? [= _ <-]..].

Lemma lockstep_ret {A} (a : A) : lockstep (mret a) (mret a).
Proof. blind. Qed.

Lemma lockstep_get : lockstep get_core get_core.
Proof. blind. Qed.

Lemma lockstep_put k : lockstep (put_core k) (put_core k).
Proof. blind. Qed.

Lemma lockstep_now : lockstep now now.
Proof. blind. Qed.

Lemma lockstep_order {A} (m : gmap string A) : lockstep (range_order m) (range_order m).
Proof. blind. Qed.

Lemma lockstep_panic {A} : lockstep (go_panic : GoM _ A) go_panic.
Proof. by split. Qed.

Lemma lockstep_opt {A} (o : option A) : lockstep (go_opt o) (go_opt o).
Proof. destruct o; [apply lockstep_ret|apply lockstep_panic]. Qed.

Lemma bind_inv {S A B} (c : GoM S A) (f : A → GoM S B) s b s' :
  (c ≫= f) s = Some (b, s') → ∃ a s1, c s = Some (a, s1) ∧ f a s1 = Some (b, s').
Proof. unfold mbind, GoM_bind. destruct (c s) as [[a s1]|]; [eauto|done]. Qed.

Lemma lockstep_bind {A B} (c1 : GoM (world L1) A) c2 (f1 : A → GoM (world L1) B) f2 :
  lockstep c1 c2 → (∀ a, lockstep (f1 a) (f2 a)) → lockstep (c1 ≫= f1) (c2 ≫= f2).
Proof.
  intros [Hr Hl Hrt] Hf. split.
  - intros w1 w2 b1 w1' b2 w2' Hw (a1 & v1 & H1 & H1')%bind_inv (a2 & v2 & H2 & H2')%bind_inv.
    destruct (Hr _ _ _ _ _ _ Hw H1 H2) as [[<- Hv]|Hp]; [by eapply Hf|right].
    eapply (ls_right _ _ (Hf a2)); [|exact H2']. eapply (ls_left _ _ (Hf a1)); [exact Hp|exact H1'].
  - intros w1 w2 b w' Hp (a & v & H1 & H1')%bind_inv. eapply (ls_left _ _ (Hf a)); [|exact H1']. by eapply Hl.
  - intros w1 w2 b w' Hp (a & v & H1 & H1')%bind_inv. eapply (ls_right _ _ (Hf a)); [|exact H1']. by eapply Hrt.
Qed.

Lemma lockstep_append r : lockstep (append r) (append r).
Proof.
  split.
  - intros w1 w2 a1 w1' a2 w2' [He Ht Hr Hc (l1 & l2 & Hl1 & Hl2 & Ha)]. unfold append.
    rewrite Hl1, Hl2. destruct (Append r l1) as [e1 l1'] eqn:E1, (Append r l2) as [e2 l2'] eqn:E2.
    intros [= <- <-] [= <- <-]. destruct (Append_alike _ _ _ _ _ _ _ Ha E1 E2) as [[-> Ha']|Hp].
    + left. split; [done|]. split; try done. by exists l1', l2'.
    + right. by exists l1', l2'.
  - intros w1 w2 a w' (l1 & l2 & Hl1 & Hl2 & Hp). unfold append. rewrite Hl1.
    destruct (Append r l1) as [e1 l1'] eqn:E1. intros [= _ <-]. exists l1', l2.
    split; [done|]. split; [done|]. by eapply Append_left.
  - intros w1 w2 a w' (l1 & l2 & Hl1 & Hl2 & Hp). unfold append. rewrite Hl2.
    destruct (Append r l2) as [e2 l2'] eqn:E2. intros [= _ <-]. exists l1, l2'.
    split; [done|]. split; [done|]. by eapply Append_right.
Qed.

Hint Resolve @lockstep_ret lockstep_get lockstep_put lockstep_now @lockstep_order
  @lockstep_panic @lockstep_opt lockstep_append : lockstep.

(** Programs whose steps go in lockstep do. *)
Ltac lockstep :=
  repeat first
    [ solve [auto with lockstep nocore]
    | lazymatch goal with |- lockstep (mbind _ _) _ => apply lockstep_bind; [|intros ?] end
    | progress case_match ].

(** ** The engine *)

Lemma lockstep_lookup n : lockstep (lookup_queue n) (lookup_queue n).
Proof. unfold lookup_queue. lockstep. Qed.

Lemma lockstep_deref n : lockstep (deref_queue n) (deref_queue n).
Proof. unfold deref_queue. lockstep. Qed.

Lemma lockstep_put_queue n q : lockstep (put_queue n q) (put_queue n q).
Proof. unfold put_queue. lockstep. Qed.

Lemma lockstep_load p : lockstep (load p) (load p).
Proof. unfold load. lockstep. Qed.

Lemma lockstep_save p m : lockstep (save p m) (save p m).
Proof. unfold save. lockstep. Qed.

Hint Resolve lockstep_lookup lockstep_deref lockstep_put_queue lockstep_load lockstep_save : lockstep.

Lemma lockstep_new m : lockstep (new_message m) (new_message m).
Proof. unfold new_message. lockstep. Qed.

Lemma lockstep_chan : lockstep make_chan make_chan.
Proof. unfold make_chan. lockstep. Qed.

Lemma lockstep_close c : lockstep (close_chan c) (close_chan c).
Proof. unfold close_chan. lockstep. Qed.

Lemma lockstep_get_seq : lockstep get_seq get_seq.
Proof. unfold get_seq. lockstep. Qed.

Lemma lockstep_set_seq s : lockstep (Engine.set_seq s) (Engine.set_seq s).
Proof. unfold Engine.set_seq. lockstep. Qed.

Hint Resolve lockstep_new lockstep_chan lockstep_close lockstep_get_seq lockstep_set_seq : lockstep.

Lemma lockstep_incr : lockstep incr_seq incr_seq.
Proof. unfold incr_seq. lockstep. Qed.

Hint Resolve lockstep_incr : lockstep.

Lemma lockstep_pushReady n p : lockstep (pushReady n p) (pushReady n p).
Proof. unfold pushReady. lockstep. Qed.

Hint Resolve lockstep_pushReady : lockstep.

Lemma lockstep_arrive n p m : lockstep (arrive n p m) (arrive n p m).
Proof. unfold arrive. lockstep. Qed.

Lemma lockstep_popReady n : lockstep (popReady n) (popReady n).
Proof. unfold popReady. lockstep. Qed.

Lemma lockstep_add n c : lockstep (add_queue n c) (add_queue n c).
Proof. unfold add_queue. lockstep. Qed.

Lemma lockstep_broadcast n : lockstep (broadcast n) (broadcast n).
Proof. unfold broadcast. lockstep. Qed.

Lemma lockstep_detached q : lockstep (broadcast_detached q) (broadcast_detached q).
Proof. unfold broadcast_detached. lockstep. Qed.

Hint Resolve lockstep_arrive lockstep_popReady lockstep_add lockstep_broadcast lockstep_detached : lockstep.

Lemma lockstep_deadLetter n p : lockstep (deadLetter n p) (deadLetter n p).
Proof. unfold deadLetter. lockstep. Qed.

Hint Resolve lockstep_deadLetter : lockstep.

Lemma lockstep_sweep_loop n t ids : ∀ next woke,
  lockstep (sweep_loop n t ids next woke) (sweep_loop n t ids next woke).
Proof. induction ids as [|id ids IH]; intros next woke; cbn [sweep_loop]; lockstep; apply IH. Qed.

Hint Resolve lockstep_sweep_loop : lockstep.

Lemma lockstep_sweepQueue n t : lockstep (sweepQueue n t) (sweepQueue n t).
Proof. unfold sweepQueue. lockstep. Qed.

Hint Resolve lockstep_sweepQueue : lockstep.

Lemma lockstep_sweep_all t ns : ∀ next, lockstep (sweep_all t ns next) (sweep_all t ns next).
Proof. induction ns as [|n ns IH]; intros next; cbn [sweep_all]; lockstep; apply IH. Qed.

Hint Resolve lockstep_sweep_all : lockstep.

Lemma lockstep_Sweep t : lockstep (Sweep t) (Sweep t).
Proof. unfold Sweep. lockstep. Qed.

Lemma lockstep_lookupLease n id r : lockstep (lookupLease n id r) (lookupLease n id r).
Proof. unfold lookupLease. lockstep. Qed.

Hint Resolve lockstep_lookupLease : lockstep.

Lemma lockstep_Create n c : lockstep (CreateQueue n c) (CreateQueue n c).
Proof. unfold CreateQueue. lockstep. Qed.

Lemma lockstep_Delete n : lockstep (DeleteQueue n) (DeleteQueue n).
Proof. unfold DeleteQueue. lockstep. Qed.

Lemma lockstep_statsOf n : lockstep (statsOf n) (statsOf n).
Proof. unfold statsOf. lockstep. Qed.

Hint Resolve lockstep_statsOf : lockstep.

Lemma lockstep_Stats n : lockstep (QueueStats n) (QueueStats n).
Proof. unfold QueueStats. lockstep. Qed.

Lemma lockstep_stats_loop t ns : ∀ out,
  lockstep (list_stats_loop t ns out) (list_stats_loop t ns out).
Proof. induction ns as [|n ns IH]; intros out; cbn [list_stats_loop]; lockstep; apply IH. Qed.

Hint Resolve lockstep_stats_loop : lockstep.

Lemma lockstep_ListStats : lockstep ListStats ListStats.
Proof. unfold ListStats. lockstep. Qed.

Lemma lockstep_Send n b d : lockstep (Send n b d) (Send n b d).
Proof. unfold Send, nextID. lockstep. Qed.

Lemma lockstep_lease_loop n max vis t fuel : ∀ ds,
  lockstep (lease_loop fuel n max vis t ds) (lease_loop fuel n max vis t ds).
Proof. induction fuel as [|fuel IH]; intros ds; cbn [lease_loop]; unfold nextReceipt; lockstep; apply IH. Qed.

Hint Resolve lockstep_lease_loop : lockstep.

Lemma lockstep_Receive_once n max vis : lockstep (Receive_once n max vis) (Receive_once n max vis).
Proof. unfold Receive_once, lease. lockstep. Qed.

Hint Resolve lockstep_Receive_once : lockstep.

Lemma lockstep_Receive_turn p : lockstep (Receive_turn p) (Receive_turn p).
Proof. unfold Receive_turn. lockstep. Qed.

Lemma lockstep_Ack n id r : lockstep (Ack n id r) (Ack n id r).
Proof. unfold Ack. lockstep. Qed.

Lemma lockstep_Nack n id r : lockstep (Nack n id r) (Nack n id r).
Proof. unfold Nack. lockstep. Qed.

Lemma lockstep_Extend n id r v : lockstep (Extend n id r v) (Extend n id r v).
Proof. unfold Extend. lockstep. Qed.

Lemma lockstep_redrive_loop n to max fuel : ∀ moved,
  lockstep (redrive_loop fuel n to max moved) (redrive_loop fuel n to max moved).
Proof. induction fuel as [|fuel IH]; intros moved; cbn [redrive_loop]; lockstep; apply IH. Qed.

Hint Resolve lockstep_redrive_loop : lockstep.

Lemma lockstep_Redrive n to max : lockstep (Redrive n to max) (Redrive n to max).
Proof. unfold Redrive. lockstep. Qed.

Hint Resolve lockstep_Create lockstep_Delete lockstep_Stats lockstep_ListStats lockstep_Send
  lockstep_Ack lockstep_Nack lockstep_Extend lockstep_Redrive : lockstep.

(** ** The server *)

Context `{!Machine}.

Lemma lockstep_responds rs : lockstep (responds rs) (responds rs).
Proof. unfold responds. lockstep. Qed.

Lemma lockstep_no_content : lockstep no_content no_content.
Proof. apply lockstep_responds. Qed.

Hint Resolve lockstep_responds lockstep_no_content : lockstep.

Lemma lockstep_handlers rq :
  Forall2 (λ h1 h2, h1.1 = h2.1 ∧ lockstep h1.2 h2.2) (routes (L := L1) rq) (routes (L := L2) rq).
Proof.
  unfold routes, handleHealth, handleVersion, handleListQueues, handleCreateQueue, handleQueueStats,
    handleDeleteQueue, handleSend, handleAck, handleNack, handleExtend, handleRedrive.
  repeat case_match; repeat (apply Forall2_cons_2; [split; [done|cbn [snd]]|]);
    try apply Forall2_nil_2; lockstep.
Qed.

Lemma lockstep_find (m : string) hs1 hs2 :
  Forall2 (λ h1 h2 : string * GoM _ served, h1.1 = h2.1 ∧ lockstep h1.2 h2.2) hs1 hs2 →
  match List.find (λ h, bool_decide (h.1 = m)) hs1, List.find (λ h, bool_decide (h.1 = m)) hs2 with
  | Some h1, Some h2 => lockstep h1.2 h2.2
  | None, None => True
  | _, _ => False
  end.
Proof.
  induction 1 as [|h1 h2 hs1 hs2 [Hm Hh] _ IH]; [done|]. cbn. rewrite Hm. by case_bool_decide.
Qed.

Lemma lockstep_ServeHTTP rq : lockstep (ServeHTTP rq) (ServeHTTP rq).
Proof.
  unfold ServeHTTP. pose proof (lockstep_handlers rq) as Hh.
  destruct (routes (L := L1) rq) as [|h1 hs1] eqn:E1.
  { apply Forall2_nil_inv_l in Hh as ->. lockstep. }
  destruct (routes (L := L2) rq) as [|h2 hs2] eqn:E2; [by inversion Hh|].
  cbv zeta. set (m := if decide _ then _ else _).
  pose proof (lockstep_find m _ _ Hh) as Hf. revert Hf.
  destruct (List.find _ (h1 :: hs1)) as [h|], (List.find _ (h2 :: hs2)) as [h'|]; [done..|].
  intros _. lockstep.
Qed.
End lockstep.
