(* ===== verification/Mortal.v ===== *)
(** The engine on its log file, on a machine that may stop in the middle of an append.

    A program that dies does nothing any more; the model lets the engine go on with a log
    that is dead: it fails every append and does not change.  What the engine does after
    the moment of death is a fiction that nobody sees, but what is in the log is what the
    machine left.  The record that was being written may be found whole later or not;
    there is a type of logs for each case ([Mortal keep]), for a program that dies the
    first one is what the code does, and the second one is what its log looks like if
    the last record has survived. *)

From S2P Require Import Prelude GoHeap Ids WalRecord Json JsonValue JsonLine JsonStruct WalJson Os OsFacts Wal.
From S2P Require Import WalFacts WalCrash WalCompact WalOpen Float64 Duration.
From S2P Require Import Config Message Engine Spec Invariant Refine RefineTime Trace Replay.
From S2P Require Import RefineLoad Runs ConfigWire Instances Components Demo Recovery Loggable.
From S2P Require Import RefineOps RefineRecv LongPoll Server ServerTheorems Lockstep.

Local Open Scope Z_scope.

(** ** The log *)

(** An open log that is synced at every append, on a machine whose fsync does not fail;
    or what is left of it, with the record that was being written. *)
Definition mortal_state (s : os) (l : Log) (recs : list WRecord) (lost : option WRecord) : Prop :=
  match lost with
  | None => flushes s ∧ log_holds s l recs recs
  | Some r => disk s (l_path l) recs (recs ++ [r])
  end.

Record mortal_ok (s : os) (l : Log) (recs : list WRecord) (lost : option WRecord) : Prop := {
  mk_sync : l_syncEach l = true;
  mk_state : mortal_state s l recs lost;
  mk_valid : Forall (λ r, Validate r = None) (recs ++ option_list lost);
}.

Record MortalLog := mkMortal {
  mo_os : os;
  mo_log : Log;
  mo_recs : list WRecord;
  mo_lost : option WRecord;
  mo_ok : mortal_ok mo_os mo_log mo_recs mo_lost;
}.

Lemma Append_log_validates r l s :
  match Append_log r l s with
  | (Returns (_, None), _) | (Dies, _) => Validate r = None
  | _ => True
  end.
Proof.
  destruct (Validate r) as [e|] eqn:Hv; [|by repeat case_match].
  unfold Append_log. by rewrite Hv.
Qed.

Lemma mortal_append s l recs r :
  mortal_ok s l recs None →
  match Append_log r l s with
  | (Returns (l', None), s') => mortal_ok s' l' (recs ++ [r]) None
  | (Returns (l', Some e), s') => mortal_ok s' l' recs None
  | (Dies, s') => mortal_ok s' l recs (Some r)
  | (Panics, s') => False
  end.
Proof.
  intros [Hsync [Hf Hh] Hv]. cbn in Hv. rewrite app_nil_r in Hv.
  pose proof (io_Append _ _ _ _ r Hh) as Hio. unfold io in Hio.
  pose proof (Append_log_validates r l s) as Hval.
  destruct (Append_log r l s) as [[[l' [e|]]| |] s']; [..|done].
  - destruct Hio as (_ & Hsy & _ & Hfl & _ & [Hh'|(_ & Hn & _)]); [|by destruct Hn].
    cbn in *. split; [congruence|by split; [apply Hfl|]|by rewrite app_nil_r].
  - destruct Hio as (_ & Hsy & _ & Hfl & Hh' & _). cbn in *. rewrite Hsync in Hh'.
    split; [congruence|by split; [apply Hfl|]|]. cbn. rewrite app_nil_r.
    apply Forall_app. by rewrite Forall_singleton.
  - destruct Hio as [_ Hd]. split; [done|done|]. cbn. apply Forall_app. by rewrite Forall_singleton.
Qed.

(** The program has ended. *)
Definition gone_error : error := Errorf "the machine has stopped" [].

(** An append: its result, or [None] if the machine stops in it. *)
Definition attempt (r : WRecord) (ml : MortalLog) : option (option error) * MortalLog :=
  match mo_lost ml as o
    return mortal_ok (mo_os ml) (mo_log ml) (mo_recs ml) o → option (option error) * MortalLog with
  | Some _ => λ _, (Some (Some gone_error), ml)
  | None => λ ok,
    match Append_log r (mo_log ml) (mo_os ml) as out
      return match out with
             | (Returns (l', None), s') => mortal_ok s' l' (mo_recs ml ++ [r]) None
             | (Returns (l', Some e), s') => mortal_ok s' l' (mo_recs ml) None
             | (Dies, s') => mortal_ok s' (mo_log ml) (mo_recs ml) (Some r)
             | (Panics, s') => False
             end → option (option error) * MortalLog with
    | (Returns (l', None), s') => λ ok', (Some None, mkMortal s' l' _ None ok')
    | (Returns (l', Some e), s') => λ ok', (Some (Some e), mkMortal s' l' _ None ok')
    | (Dies, s') => λ ok', (None, mkMortal s' (mo_log ml) _ (Some r) ok')
    | (Panics, s') => λ ok', match ok' with end
    end (mortal_append _ _ _ r ok)
  end (mo_ok ml).

(** What an attempt does to a log, apart from the proofs in it. *)
Lemma attempt_spec r ml :
  match attempt r ml with
  | (Some None, ml') => mo_lost ml = None ∧ mo_recs ml' = mo_recs ml ++ [r] ∧ mo_lost ml' = None
  | (Some (Some e), ml') =>
    mo_recs ml' = mo_recs ml ∧ mo_lost ml' = mo_lost ml ∧ (mo_lost ml ≠ None → ml' = ml)
  | (None, ml') => mo_lost ml = None ∧ mo_recs ml' = mo_recs ml ∧ mo_lost ml' = Some r
  end.
Proof.
  unfold attempt. destruct ml as [s l recs [r'|] ok]; cbn; [done|].
  generalize (mortal_append s l recs r ok).
  by destruct (Append_log r l s) as [[[l' [e|]]| |] s'].
Qed.

(** There is a log for all records. *)
Lemma log_of_records recs :
  Forall (λ r, Validate r = None) recs → ∃ ml, mo_recs ml = recs ∧ mo_lost ml = None.
Proof.
  intros Hv. set (d := text_of_log recs).
  set (s := mkOs {[ "log"%string := 0%nat ]} {[ 0%nat := mkInode d (length d) ]}
              {[ 0%nat := mkFile 0 (length d) true ]} 1 [] [] []).
  set (l := mkLog "log" 0 (NewWriter 0) true).
  assert (mortal_ok s l recs None) as Hok; [|by exists (mkMortal s l recs None Hok)].
  split; [done| |by rewrite app_nil_r]. split; [by intros n ?%not_elem_of_nil|].
  exists 0%nat, [], (length d). rewrite app_nil_r. split_and!; try done.
  - split; [by exists (length d), true; split; [|left]|done].
  - by intros ?%not_elem_of_nil.
Qed.

Definition Mortal (keep : bool) : Type := MortalLog.

#[export] Instance Mortal_Appender (keep : bool) : Appender (Mortal keep) := λ r ml,
  match attempt r ml with
  | (Some err, ml') => (err, ml')
  | (None, ml') => (if keep then None else Some gone_error, ml')
  end.

(** The records that are in the log, with the last one if it is kept. *)
Definition mo_kept (keep : bool) (ml : MortalLog) : list WRecord :=
  mo_recs ml ++ (if keep then option_list (mo_lost ml) else []).

#[export, refine] Instance Mortal_Laws (keep : bool) : LogLaws (Mortal keep) :=
  { committed := mo_kept keep }.
Proof.
  - intros r ml ml'. unfold Append, Mortal_Appender, mo_kept. pose proof (attempt_spec r ml) as Ha.
    destruct (attempt r ml) as [[[e|]|] ml1]; [done|..].
    + intros [= <-]. destruct Ha as (-> & -> & ->). by destruct keep; rewrite !app_nil_r.
    + destruct keep; [|done]. intros [= <-]. destruct Ha as (-> & -> & ->). by rewrite app_nil_r.
  - intros r ml ml' e. unfold Append, Mortal_Appender, mo_kept. pose proof (attempt_spec r ml) as Ha.
    destruct (attempt r ml) as [[[e'|]|] ml1]; [|done|].
    + intros [= _ <-]. by destruct Ha as (-> & -> & _).
    + destruct keep; [done|]. intros [= _ <-]. by destruct Ha as (_ & -> & _).
Defined.

(** ** Death *)

Definition living (ml : MortalLog) : Prop := mo_lost ml = None.

#[export] Instance living_dec ml : Decision (living ml).
Proof. unfold living. apply _. Defined.

(** The two kinds of logs do the same, until the machine stops. *)
Definition alike (l1 : Mortal false) (l2 : Mortal true) : Prop := l1 = l2 ∧ living l1.
Definition parted (l1 : Mortal false) (l2 : Mortal true) : Prop := l1 = l2 ∧ ¬ living l1.

Lemma dead_append keep r (ml ml' : Mortal keep) e : ¬ living ml → Append r ml = (e, ml') → ml' = ml.
Proof.
  unfold living, Append, Mortal_Appender. intros Hd. pose proof (attempt_spec r ml) as Ha.
  destruct (attempt r ml) as [[[e'|]|] ml1]; [|by destruct Hd, Ha..].
  intros [= _ <-]. by apply Ha.
Qed.

Lemma mortal_alike r (l1 : Mortal false) (l2 : Mortal true) e1 (l1' : Mortal false) e2 (l2' : Mortal true) :
  alike l1 l2 → Append r l1 = (e1, l1') → Append r l2 = (e2, l2') →
  e1 = e2 ∧ alike l1' l2' ∨ parted l1' l2'.
Proof.
  intros [-> Hl]. unfold alike, parted, living in *. unfold Append, Mortal_Appender.
  pose proof (attempt_spec r l2) as Ha.
  destruct (attempt r l2) as [[[e|]|] ml]; intros [= <- <-] [= <- <-].
  - left. split; [done|]. split; [done|]. destruct Ha as (_ & -> & _). done.
  - left. split; [done|]. by split; [|apply Ha].
  - right. split; [done|]. by destruct Ha as (_ & _ & ->).
Qed.

(** ** From one kind of log to another *)

Section transfer.
Context {L1 L2 : Type} `{!Appender L1} `{!LogLaws L1} `{!Appender L2} `{!LogLaws L2}.
Context `{!ConfigJSON} `{!ConfigJSONLaws}.

Lemma rebuilds_transfer recs R : rebuilds (L := L1) recs R → rebuilds (L := L2) recs R.
Proof.
  intros Hre log env.
  destruct (wp_elim _ _ _ (Hre None env)) as (err & w & Hload & -> & k & -> & Hk & Ha).
  pose proof (core_only_Load recs (New (None : option L1) env) (New log env) eq_refl) as Hc.
  rewrite Hload in Hc. destruct (Load recs (New log env)) as [[e w2]|] eqn:E; [|done].
  destruct Hc as (<- & k' & Hw & ->). injection Hw as <-. eapply wp_of_eq; [exact E|].
  split; [done|]. by exists k.
Qed.

(** The engine, on another log that holds the same. *)
Definition put_log (l : option L2) (w : world L1) : world L2 :=
  mkWorld (w_env w) (w_tick w) (w_rng w) l (w_core w).

Lemma alive_transfer c (w0 : world L1) cs w recs ls (l0 l : L2) :
  alive c w0 cs w recs ls → committed l0 = recs → committed l = recs ++ records ls →
  alive c (put_log (Some l0) w0) cs (put_log (Some l) w) recs ls.
Proof.
  intros [[Hwf _ Hre Hpar Hids Hrcs] Hwf' _ Hst Hwi] Hl0 Hl. split; [|done| |done|done].
  - split; [done|by exists l0|by apply rebuilds_transfer|done..].
  - cbn. intros l' [= <-]. done.
Qed.
End transfer.

Section extend.
Context {L : Type} `{!Appender L} `{!LogLaws L} `{!ConfigJSON} `{!ConfigJSONLaws}.
Implicit Types w : world L.

(** An engine goes on. *)
Lemma alive_extend c w0 cs w recs ls cs' w' :
  alive c w0 cs w recs ls → runs w cs' w' → well_called cs' →
  ∃ ls', alive c w0 (cs ++ cs') w' recs (ls ++ ls') ∧ evolves w ls' w'.
Proof.
  intros [Hst Hwf Hlog Hsteps Hwi] Hr Hcs.
  destruct (runs_history _ _ _ Hwf Hr) as (ls0 & Hev0).
  assert (∀ t, has_seen w cs t → has_seen w' (cs ++ cs') t) as Hseen.
  { intros t [(k & Hk & ->)|Hin]; [left|right; apply elem_of_app; by left].
    exists k. rewrite (ev_env _ _ _ Hev0). pose proof (ev_tick _ _ _ Hev0). split; [lia|done]. }
  destruct (runs_within parsed (has_seen w' (cs ++ cs')) w cs' w') as (ls' & Hev & Hwi'); [|done..| | |].
  - split; [apply DefaultConfig_valid|done].
  - apply Forall_forall. intros x Hx. pose proof (proj1 (Forall_forall _ _) Hcs _ Hx) as Hw.
    destruct x; try done. right. apply elem_of_app. by right.
  - intros k Hk. left. exists k. split; [done|]. by rewrite (ev_env _ _ _ Hev0).
  - exists ls'. split; [|done]. split; [done|apply Hev| | |].
    + intros l' Hl'. pose proof (ev_log _ _ _ Hev) as Hlg. rewrite Hl' in Hlg.
      destruct (w_log w) as [l|]; [|done]. apply logged_committed in Hlg. rewrite Hlg, records_app, app_assoc.
      by rewrite (Hlog l).
    + eapply asteps_app; [exact Hsteps|apply Hev].
    + apply Forall_app. split; [|done]. eapply Forall_impl; [exact Hwi|].
      intros []; cbn; auto.
Qed.
End extend.

(** ** What the server does *)

(** A request, a turn of a call that polls, or a sweep. *)
Inductive op := OpRequest (rq : request) | OpTurn (p : poll) | OpSweep (at_ : Z).

Inductive reply := Served (out : served) | Turned (t : thread) | Swept (due : Z).

Section perform.
Context {L : Type} `{!Appender L} `{!LogLaws L} `{!Machine}.
Implicit Types w : world L.

Definition perform (o : op) : GoM (world L) reply :=
  match o with
  | OpRequest rq => out ← ServeHTTP rq; mret (Served out)
  | OpTurn p =>
    match Receive_begin p with
    | TTurn p => t ← Receive_turn p; mret (Turned t)
    | t => mret (Turned t)
    end
  | OpSweep at_ => due ← Sweep at_; mret (Swept due)
  end.

(** A turn of a call that polls is a call that does not. *)
Lemma turn_is_call p0 p t w w' :
  Receive_begin p0 = TTurn p → Receive_turn p w = Some (t, w') →
  run_call (CReceive (po_queue p) (po_max p) (po_vis p)) w = Some ((), w').
Proof.
  unfold Receive_begin, Receive_args. destruct (_ || _) eqn:Hv; [done|].
  intros [= <-]. cbn. unfold Receive_turn, Receive_nowait, Receive_args. rewrite Hv.
  set (max := if po_max p0 <? 1 then 1 else po_max p0).
  assert ((if max <? 1 then 1 else max) = max) as ->.
  { destruct (Z.ltb_spec max 1) as [Hm|]; [|done]. unfold max in *.
    destruct (Z.ltb_spec (po_max p0) 1); lia. }
  unfold mbind, GoM_bind. destruct (Receive_once _ _ _ w) as [[r w1]|]; [|done].
  intros [= _ ->]. by destruct r as [[ds wake]|e].
Qed.

Lemma perform_turn p0 p w :
  Receive_begin p0 = TTurn p → roomy w → ∃ t w', Receive_turn p w = Some (t, w').
Proof.
  intros Hb Hro. destruct (wp_elim _ _ _ (wp_Receive_once (po_queue p) (po_max p) (po_vis p) w Hro))
    as (r & w' & Hrun & _).
  unfold Receive_turn, mbind, GoM_bind. rewrite Hrun. by do 2 eexists.
Qed.

(** Whatever the server does returns, and is a sequence of calls of the engine. *)
Lemma perform_runs o w :
  roomy w → ∃ r w', perform o w = Some (r, w') ∧ ∃ cs, runs w cs w' ∧ well_called cs.
Proof.
  intros Hro. pose proof Hro as [Hwf Hs].
  assert (∀ c w', operates c = true → call_within parsed (λ _, True) c →
            run_call c w = Some ((), w') → ∃ cs, runs w cs w' ∧ well_called cs) as Hone.
  { intros c w' Hop Hin Hr. exists [c]. split; [|by apply Forall_singleton].
    eapply runs_cons; [done..|exact Hr|apply runs_nil]. }
  assert (∃ cs, runs w cs w ∧ well_called cs) as Hnone by (exists []; split; constructor).
  destruct o as [rq|p0|at_]; cbn [perform].
  - destruct (wp_elim _ _ _ (ServeHTTP_served rq w Hro)) as (out & w' & Hrun & _ & Hcs).
    unfold mbind, GoM_bind. rewrite Hrun. by do 2 eexists.
  - destruct (Receive_begin p0) as [p|p wake|r] eqn:Hb; [|by do 2 eexists..].
    destruct (perform_turn _ _ _ Hb Hro) as (t & w' & Hrun). unfold mbind, GoM_bind. rewrite Hrun.
    do 2 eexists. split; [done|]. by eapply Hone; [..|by eapply turn_is_call].
  - destruct (wp_elim _ _ _ (wp_run_call (CSweep at_) w eq_refl Hro)) as ([] & w' & Hrun & _).
    pose proof Hrun as Hrun'. cbn [run_call] in Hrun'. unfold mbind, GoM_bind in *.
    destruct (Sweep at_ w) as [[due w1]|]; [|done]. injection Hrun' as ->.
    do 2 eexists. split; [done|]. by eapply (Hone (CSweep at_)).
Qed.
End perform.

(** ** Death in the middle of an operation *)

Section death.
Context `{!Machine}.

Lemma lockstep_perform o :
  lockstep alike parted (perform (L := Mortal false) o) (perform (L := Mortal true) o).
Proof.
  assert (∀ r (l1 l2 : MortalLog) e (l1' : MortalLog),
            parted l1 l2 → Append (L := Mortal false) r l1 = (e, l1') → parted l1' l2) as Hleft.
  { intros r l1 l2 e l1' [-> Hd] Ha. by rewrite (dead_append false _ _ _ _ Hd Ha). }
  assert (∀ r (l1 l2 : MortalLog) e (l2' : MortalLog),
            parted l1 l2 → Append (L := Mortal true) r l2 = (e, l2') → parted l1 l2') as Hright.
  { intros r l1 l2 e l2' [-> Hd] Ha. by rewrite (dead_append true _ _ _ _ Hd Ha). }
  destruct o as [rq|p|at_]; cbn [perform].
  - apply lockstep_bind; [|intros ?; apply lockstep_ret]. apply lockstep_ServeHTTP;
      [exact mortal_alike|exact Hleft|exact Hright].
  - destruct (Receive_begin p); [|apply lockstep_ret..].
    apply lockstep_bind; [|intros ?; apply lockstep_ret]. apply lockstep_Receive_turn;
      [exact mortal_alike|exact Hleft|exact Hright].
  - apply lockstep_bind; [|intros ?; apply lockstep_ret]. apply lockstep_Sweep;
      [exact mortal_alike|exact Hleft|exact Hright].
Qed.

(** A program that dies in an operation leaves the log of a run in which the record that
    was being written is in the log. *)
Lemma death_kept o (w : world (Mortal false)) ml r w1 (ml1 : Mortal false) :
  roomy w → w_log w = Some ml → living ml → perform o w = Some (r, w1) →
  w_log w1 = Some ml1 → ¬ living ml1 →
  ∃ r' w2, perform o (put_log (Some (ml : Mortal true)) w) = Some (r', w2) ∧
    w_log w2 = Some (ml1 : Mortal true).
Proof.
  intros Hro Hl Hliv Hp Hl1 Hdead. set (v := put_log _ w).
  assert (roomy v) as Hrov by by destruct Hro; split.
  destruct (perform_runs o v Hrov) as (r' & w2 & Hp2 & _). exists r', w2. split; [done|].
  assert (same_but_log alike w v) as Hsame.
  { split; try done. exists ml, ml. by split_and!. }
  destruct (ls_run _ _ _ _ (lockstep_perform o) _ _ _ _ _ _ Hsame Hp Hp2)
    as [[_ [_ _ _ _ (l1 & l2 & Hl1' & _ & _ & Hliv1)]]|(l1 & l2 & Hl1' & Hl2 & -> & _)];
    rewrite Hl1 in Hl1'; injection Hl1' as <-; done.
Qed.
End death.
