(* ===== verification/EndToEnd.v ===== *)
(** From a request to the next process: what the answers of the HTTP server promise
    after the machine has stopped and "duraq serve" was called again.  The theorems put
    the server, the engine, the log file and the command line together. *)

From S2P Require Import Prelude GoHeap Ids WalRecord Json JsonValue JsonLine JsonStruct WalJson Os OsFacts Wal.
From S2P Require Import WalFacts WalCrash WalCompact WalOpen Float64 Duration.
From S2P Require Import Config Message Engine Spec Invariant Refine RefineTime RefineOps Trace Replay.
From S2P Require Import RefineLoad Runs ConfigWire Instances Components Demo Recovery Loggable.
From S2P Require Import FileLog WalDemo LongPoll Server ServerTheorems Cli CliFacts CliTheorems.
From S2P Require Import Lockstep Mortal.
From stdpp Require Import fin_maps.

Local Open Scope Z_scope.

(** ** Lives that go on *)

Section lives.
Context {L : Type} `{!Appender L} `{!LogLaws L} `{!ConfigJSON} `{!ConfigJSONLaws}.
Implicit Types w : world L.

(** The times that an engine has seen are bounded. *)
Lemma calls_bound (cs : list call) : ∃ T, 0 ≤ T ∧ ∀ t, CSweep t ∈ cs → t ≤ T.
Proof.
  induction cs as [|c cs (T & HT & Hcs)]; [exists 0; split; [done|by intros t ?%not_elem_of_nil]|].
  exists (match c with CSweep t => Z.max T t | _ => T end). split; [destruct c; lia|].
  intros t [<-|Ht%Hcs]%elem_of_cons; [lia|]. destruct c; lia.
Qed.

Lemma clock_bound (env : Env) n : ∃ T, 0 ≤ T ∧ ∀ k, (k ≤ n)%nat → env_now env k ≤ T.
Proof.
  induction n as [|n (T & HT & Hn)].
  - exists (Z.max 0 (env_now env 0)). split; [lia|]. intros k Hk. replace k with 0%nat by lia. lia.
  - exists (Z.max T (env_now env (S n))). split; [lia|]. intros k Hk.
    destruct (decide (k = S n)) as [->|]; [lia|]. specialize (Hn k). lia.
Qed.

Lemma seen_bound w cs : ∃ T, 0 ≤ T ∧ seen_by T w cs.
Proof.
  destruct (calls_bound cs) as (T1 & HT1 & H1). destruct (clock_bound (w_env w) (w_tick w)) as (T2 & HT2 & H2).
  exists (Z.max T1 T2). split; [lia|]. intros t [(k & Hk & ->)|Ht]; [specialize (H2 _ Hk)|specialize (H1 _ Ht)]; lia.
Qed.
End lives.

(** ** IDs in the log *)

Section ids.
Context {L : Type} `{!Appender L} `{!LogLaws L} `{!ConfigJSON} `{!ConfigJSONLaws}.
Implicit Types w : world L.

Definition log_ids w : list string :=
  from_option (λ l, omap record_id (committed l)) [] (w_log w).

(** Every message of the engine was sent to it, or to one before it on the same log. *)
Definition all_sent w : Prop :=
  ∀ n id m, a_lookup (abs (w_core w)) n id = Some m → id ∈ log_ids w.

Lemma present_step A l B n id m :
  astep A l B → a_lookup B n id = Some m →
  sent_id l = Some id ∨ ∃ n' m', a_lookup A n' id = Some m'.
Proof.
  intros Hst Hl.
  destruct Hst; try match goal with H : a_first _ _ _ _ |- _ => destruct H as [? _] end; revert Hl;
    try (rewrite a_lookup_put;
         [|first [by apply as_queues_is_Some_del|simpl; eauto using a_lookup_is_Some]]);
    rewrite ?a_lookup_set_seq, ?a_lookup_del, ?a_lookup_create, ?a_lookup_delete;
    repeat case_decide; destruct_and?; subst; cbn; eauto; done.
Qed.

Lemma present_steps A ls B n id m :
  asteps A ls B → a_lookup B n id = Some m →
  id ∈ omap sent_id ls ∨ ∃ n' m', a_lookup A n' id = Some m'.
Proof.
  intros Hst. revert n m. induction Hst as [|A l B ls C Hone _ IH]; intros n m Hl; [eauto|].
  destruct (IH _ _ Hl) as [Hin|(n' & m' & Hl')].
  - left. simpl. destruct (sent_id l); [by apply elem_of_cons; right|done].
  - destruct (present_step _ _ _ _ _ _ Hone Hl') as [Hs|?]; [|by right].
    left. simpl. rewrite Hs. by apply elem_of_cons; left.
Qed.

Lemma evolves_log_ids w ls w' :
  evolves w ls w' → is_Some (w_log w) → log_ids w' = log_ids w ++ omap sent_id ls.
Proof.
  intros Hev [l Hl]. pose proof (ev_log _ _ _ Hev) as Hlog. unfold log_ids. rewrite Hl in *.
  destruct (w_log w') as [l'|]; [|done]. apply logged_committed in Hlog. cbn. rewrite Hlog, omap_app. f_equal.
  apply pick_records_all, records_sent_id.
Qed.

Lemma all_sent_evolves w ls w' :
  is_Some (w_log w) → all_sent w → evolves w ls w' → all_sent w'.
Proof.
  intros Hl Hw Hev n id m Hm. rewrite (evolves_log_ids _ _ _ Hev Hl). apply elem_of_app.
  destruct (present_steps _ _ _ _ _ _ (ev_steps _ _ _ Hev) Hm) as [?|(n' & m' & ?%Hw)]; auto.
Qed.
Lemma life_all_sent w0 cs w : life false w0 cs w → all_sent w.
Proof.
  intros Hlife. assert (∀ w0 cs w, runs w0 cs w → wf (w_core w0) → is_Some (w_log w0) →
                          all_sent w0 → all_sent w) as Hruns.
  { intros v0 vs v Hr Hwf Hl Hs. destruct (runs_history _ _ _ Hwf Hr) as (ls & Hev).
    by eapply all_sent_evolves. }
  induction Hlife as [log env cs w Hc Hr _|w0 cs w l l' env w1 cs' w' Hlife IH Hl Hc Hload Hr _|]; [| |done].
  - eapply Hruns; [exact Hr|apply wf_empty|by eexists|]. intros n id m.
    unfold New, abs, a_lookup. simpl. by rewrite fmap_empty, lookup_empty.
  - destruct (life_reloaded _ _ _ _ _ Hlife Hl) as (R & Hre & _ & _ & Hsim).
    destruct (wp_use _ _ _ _ _ (Hre (Some l') env) Hload) as (_ & k & -> & Hk & HR).
    eapply Hruns; [exact Hr|done|by eexists|]. intros n id m Hm. cbn in Hm. rewrite HR in Hm.
    destruct (seen_bound w cs) as (T & HT & Hseen).
    destruct (si_bwd _ _ _ (Hsim T HT Hseen) n id ltac:(by eexists)) as [m' Hm'%IH].
    unfold log_ids in *. cbn. by rewrite Hc, Hl in *.
Qed.

(** The IDs of a log are below the counter of the engine that loads it. *)
Definition counted w : Prop := ∀ id, id ∈ log_ids w → ∃ j, id = fmt_hex16 j ∧ 0 ≤ j ≤ as_seq (abs (w_core w)).

(** The message is in no queue, and will not be sent again under its ID. *)
Definition retired w (id : string) : Prop := gone (abs (w_core w)) id ∧ id ∈ log_ids w.

Lemma retired_evolves w ls w' id :
  wf (w_core w) → is_Some (w_log w) → retired w id → evolves w ls w' → retired w' id.
Proof.
  intros Hwf Hl [Hg Hid] Hev. split.
  - by apply (gone_forever _ _ _ _ (wf_abs _ Hwf) Hg (ev_steps _ _ _ Hev)).
  - rewrite (evolves_log_ids _ _ _ Hev Hl). by apply elem_of_app; left.
Qed.

Lemma retired_counted w id (A : astate) :
  gone A id → awf A → id ∈ log_ids w → counted w → wf (w_core w) →
  (∀ n, a_lookup (abs (w_core w)) n id = None) → retired w id.
Proof.
  intros [_ (j & Hj & ->)] HA Hid Hc Hwf Hno. split; [|done]. split; [done|].
  destruct (Hc _ Hid) as (j' & Heq & Hj'). exists j'.
  pose proof (aw_seq _ HA). pose proof (aw_seq _ (wf_abs _ Hwf)).
  pose proof Heq as He. apply fmt_hex16_inj in He; [|lia..]. subst. by split; [lia|].
Qed.
End ids.

(** ** The next process *)

Section restarts.
Context `{!Machine}.
Abbreviation server := (world (Mortal false)).
Implicit Types w : server.

(** The program runs. *)
Definition running w : Prop := ∃ ml : MortalLog, w_log w = Some ml ∧ living ml.

(** Calls of "duraq serve" that fail or die, with or without a crash after them. *)
Inductive tries (dir : string) : os → os → Prop :=
  | tries_done s : tries dir s s
  | tries_again s env args vals r s1 s2 s3 :
      names_dir serve_flags args dir vals → Run env ("serve"%string :: args) s = (r, s1) →
      (∀ e l out, r ≠ Returns (Serving e l, out)) → s2 = s1 ∨ crash s1 s2 →
      tries dir s2 s3 → tries dir s s3.

(** The records that ReadAll finds in the file at [path]. *)
Definition records_at (s : os) (path : string) (recs : list WRecord) : Prop :=
  ∃ data n torn, contents s path = Some data ∧ read_data path data = Some (Ok (recs, n, torn)).

(** The machine has stopped and left [w], with the program running or dead, and "duraq
    serve" is called on the directory of the log until it succeeds; [w'] is the server
    that runs. *)
Inductive restart w w' : Prop :=
  | restart_serve (ml : MortalLog) env args dir vals s s0 e l out s1 (ml' : MortalLog) :
      w_log w = Some ml → l_path (mo_log ml) = Wal.Join dir FileName →
      Forall (λ r, times_fit r = true) (mo_recs ml ++ option_list (mo_lost ml)) →
      crash (mo_os ml) s → tries dir s s0 → names_dir serve_flags args dir vals →
      Run env ("serve"%string :: args) s0 = (Returns (Serving e l, out), s1) →
      mo_os ml' = s1 → mo_log ml' = l → living ml' →
      records_at s1 (Wal.Join dir FileName) (mo_recs ml') →
      w' = put_log (Some (ml' : Mortal false)) e → restart w w'.

(** What has happened to a running server when the machine stops: nothing since the last
    operation, or another operation, which may be cut off. *)
Inductive reaches w w1 : Prop :=
  | reaches_idle : w1 = w → reaches w w1
  | reaches_op o r : k_seq (w_core w) < 2 ^ 62 → perform o w = Some (r, w1) → reaches w w1.

(** What happens to a server: an operation, or a crash at any moment, with a restart. *)
Inductive next w w' : Prop :=
  | next_op o r :
      k_seq (w_core w) < 2 ^ 62 → perform o w = Some (r, w') → running w' → next w w'
  | next_crash w1 : reaches w w1 → restart w1 w' → next w w'.

(** What is known of a running server: an engine that runs on its log. *)
Record lives (c : bool) w : Prop := {
  li_running : running w;
  li_alive : ∃ w0 cs recs ls, alive c w0 cs w recs ls ∧ names_valid (abs (w_core w0)) ∧
                              Forall survives recs;
  li_sent : c = false → all_sent w;
}.

Lemma life_lives c w0 cs w : life c w0 cs w → running w → lives c w.
Proof.
  intros Hlife Hrun. split; [done|..].
  - destruct (life_survives _ _ _ _ Hlife) as (recs & ls & Hal & Hn & Hsv). by exists w0, cs, recs, ls.
  - intros ->. by eapply life_all_sent.
Qed.

Lemma lives_wf c w : lives c w → wf (w_core w).
Proof. intros [_ (w0 & cs & recs & ls & Hal & _) _]. apply Hal. Qed.

Lemma lives_records c w (ml : MortalLog) w0 cs recs ls :
  alive c w0 cs w recs ls → w_log w = Some ml → living ml → mo_recs ml = recs ++ records ls.
Proof.
  intros Hal Hl Hliv. pose proof (al_log _ _ _ _ _ _ Hal _ Hl) as Hr. cbn in Hr. unfold mo_kept in Hr.
  by rewrite app_nil_r in Hr.
Qed.

(** ** What serve finds *)

Section serve.
Context (dir : string) (safe all : list WRecord).
Hypothesis Hread : Forall readable_record all.
Hypothesis Hload : ∀ recs, cut_of safe all recs → ∃ k, loads_to recs k.

Lemma io_Run_serve env args vals s :
  names_dir serve_flags args dir vals → log_file s (Wal.Join dir FileName) safe all →
  io (Run env ("serve"%string :: args))
    (λ r s', match r.1 with
             | Serving e l => ∃ recs k, cut_of safe all recs ∧ loads_to recs k ∧
                 e = with_core (New (Some l) env) k ∧ log_holds s' l safe recs ∧
                 l_path l = Wal.Join dir FileName ∧ steady s s'
             | Exits _ => log_file s' (Wal.Join dir FileName) safe all
             end)
    (λ s', log_file s' (Wal.Join dir FileName) safe all) s.
Proof.
  intros Hargs Hlog. unfold Run. rewrite decide_True by done.
  eapply io_mono; [by eapply io_runServe|..|done].
  intros [[code|e l] out] s'; cbn; [by intros [_ ?]|].
  intros (recs & k & Hcut & Hk & He & Hh & Hst & Hp & _). by exists recs, k.
Qed.

Lemma tries_log_file s s' :
  tries dir s s' → log_file s (Wal.Join dir FileName) safe all →
  log_file s' (Wal.Join dir FileName) safe all.
Proof.
  induction 1 as [s|s env args vals r s1 s2 s3 Hargs Hr Hns Hs2 _ IH]; [done|]. intros Hlog.
  apply IH. assert (log_file s1 (Wal.Join dir FileName) safe all) as Hlog1.
  { pose proof (io_Run_serve env args vals s Hargs Hlog) as Hio. unfold io in Hio. rewrite Hr in Hio.
    destruct r as [[[code|e l] out]| |]; [done| |done..]. by destruct (Hns e l out). }
  destruct Hs2 as [->|Hc]; [done|]. by eapply crash_log_file.
Qed.

(** The server that runs in the end has loaded the records that are in the file. *)
Lemma serve_finds env args vals s0 e l out s1 recs' :
  names_dir serve_flags args dir vals → log_file s0 (Wal.Join dir FileName) safe all →
  Run env ("serve"%string :: args) s0 = (Returns (Serving e l, out), s1) →
  records_at s1 (Wal.Join dir FileName) recs' →
  cut_of safe all recs' ∧ ∃ k, loads_to recs' k ∧ e = with_core (New (Some l) env) k.
Proof.
  intros Hargs Hlog Hr (data & n & torn & Hd & Hrd).
  pose proof (io_Run_serve env args vals s0 Hargs Hlog) as Hio. unfold io in Hio. rewrite Hr in Hio.
  destruct Hio as (recs & k & Hcut & Hk & He & Hh & Hp & _).
  destruct Hh as (i & part & sy & Hn & _ & (_ & Hi & _) & Hpart & _). rewrite Hp in Hn.
  unfold contents in Hd. rewrite Hn in Hd. cbn in Hd. rewrite Hi in Hd. injection Hd as <-.
  assert (Forall readable_record recs) as Hrr.
  { destruct Hcut as [_ [rest Hrest]]. rewrite Hrest in Hread. by apply Forall_app in Hread as [? _]. }
  cbn [i_data] in Hrd. rewrite read_written in Hrd by done. injection Hrd as <- _ _. eauto.
Qed.
End serve.

(** ** What a crash leaves *)

(** The log [recs] is that of an engine, on some kind of log, which was in [A] and did
    the steps [ls] to [B] since. *)
Definition history_of (c : bool) (A : astate) (ls : list label) (B : astate) (recs0 recs : list WRecord) : Prop :=
  ∃ (keep : bool) (w0 : world (Mortal keep)) cs (v : world (Mortal keep)) recs1 ls1,
    alive c w0 cs v recs1 (ls1 ++ ls) ∧ names_valid (abs (w_core w0)) ∧ Forall survives recs1 ∧
    asteps A ls B ∧ abs (w_core v) = B ∧ recs0 = recs1 ++ records ls1 ∧
    recs = recs1 ++ records (ls1 ++ ls).

Lemma history_steps c A ls B recs0 recs :
  history_of c A ls B recs0 recs → asteps A ls B ∧ recs = recs0 ++ records ls.
Proof.
  intros (keep & w0 & cs & v & recs1 & ls1 & _ & _ & _ & Hst & _ & -> & ->).
  split; [done|]. by rewrite records_app, app_assoc.
Qed.

Lemma reaches_log w w1 : roomy w → reaches w w1 → running w → ∃ ml1 : MortalLog, w_log w1 = Some ml1.
Proof.
  intros Hro [->|o r Hs Hp] (ml & Hl & Hliv); [eauto|].
  destruct (perform_runs o w Hro) as (r' & w' & Hp' & cs & Hr & _). rewrite Hp in Hp'.
  injection Hp' as <- <-. destruct (runs_history _ _ _ (ro_wf _ Hro) Hr) as (ls & Hev).
  pose proof (ev_log _ _ _ Hev) as Hlg. rewrite Hl in Hlg. destruct (w_log w1); [eauto|done].
Qed.

(** An operation makes a history, with the last record or without. *)
Lemma op_history keep c (w0 : world (Mortal keep)) cs recs ls (v : world (Mortal keep)) o r v1 (ml1 : Mortal keep) :
  alive c w0 cs v recs ls → names_valid (abs (w_core w0)) → Forall survives recs →
  k_seq (w_core v) < 2 ^ 62 → perform o v = Some (r, v1) → w_log v1 = Some ml1 →
  ∃ ls', evolves v ls' v1 ∧
    history_of c (abs (w_core v)) ls' (abs (w_core v1)) (recs ++ records ls) (mo_kept keep ml1).
Proof.
  intros Hal Hn Hsv Hs Hp Hl1.
  assert (roomy v) as Hro by (split; [apply Hal|done]).
  destruct (perform_runs o v Hro) as (r' & w' & Hp' & cs' & Hr & Hcs). rewrite Hp in Hp'.
  injection Hp' as <- <-. destruct (alive_extend _ _ _ _ _ _ _ _ Hal Hr Hcs) as (ls' & Hal' & Hev).
  exists ls'. split; [done|]. exists keep, w0, (cs ++ cs'), v1, recs, ls. split_and!; try done; [apply Hev|].
  exact (al_log _ _ _ _ _ _ Hal' _ Hl1).
Qed.

Lemma crash_history c w w1 (ml ml1 : MortalLog) keep :
  lives c w → reaches w w1 → w_log w = Some ml → w_log w1 = Some ml1 →
  ∃ ls B, history_of c (abs (w_core w)) ls B (mo_recs ml) (mo_kept keep ml1).
Proof.
  intros [(ml0 & Hl0 & Hliv) (w0 & cs & recs & ls & Hal & Hn & Hsv) _] Hre Hl Hl1.
  rewrite Hl in Hl0. injection Hl0 as <-. pose proof (lives_records _ _ _ _ _ _ _ Hal Hl Hliv) as Hrecs.
  assert (∀ ml2 : MortalLog, living ml2 → mo_kept keep ml2 = mo_kept false ml2) as Hkeep.
  { intros ml2 Hliv2. unfold mo_kept. rewrite Hliv2. by destruct keep. }
  destruct Hre as [->|o r Hs Hp].
  - rewrite Hl in Hl1. injection Hl1 as <-. rewrite Hkeep by done. exists [], (abs (w_core w)).
    exists false, w0, cs, w, recs, ls. unfold mo_kept. rewrite !app_nil_r. split_and!; try done. constructor.
  - assert (roomy w) as Hro by (split; [apply Hal|done]). rewrite Hrecs.
    assert (keep = false ∨ living ml1 ∨ keep = true ∧ ¬ living ml1) as [Hk|[Hk|[-> Hdead]]]
      by (destruct keep, (decide (living ml1)); auto).
    1, 2: assert (mo_kept keep ml1 = mo_kept false ml1) as -> by (subst; auto);
      destruct (op_history false c w0 cs recs ls w o r w1 ml1 Hal Hn Hsv Hs Hp Hl1) as (ls' & _ & Hh); eauto.
    destruct (death_kept o w ml r w1 ml1 Hro Hl Hliv Hp Hl1 Hdead) as (r' & w2 & Hp2 & Hl2).
    (* the same engine on a log of the other kind *)
    assert (Forall (λ r, Validate r = None) recs) as Hval.
    { pose proof (mk_valid _ _ _ _ (mo_ok ml)) as Hv. rewrite Hrecs, <-app_assoc in Hv.
      by apply Forall_app in Hv as [? _]. }
    destruct (log_of_records _ Hval) as (l0 & Hl0 & Hlost0).
    assert (alive c (put_log (Some (l0 : Mortal true)) w0) cs (put_log (Some (ml : Mortal true)) w) recs ls)
      as Hal2.
    { apply alive_transfer; [done|..]; cbn; unfold mo_kept; [by rewrite Hl0, Hlost0, app_nil_r|].
      by rewrite Hliv, app_nil_r. }
    destruct (op_history true _ _ _ _ _ _ _ _ _ _ Hal2 Hn Hsv Hs Hp2 Hl2) as (ls' & _ & Hh). eauto.
Qed.

(** What the log of a history is loaded into. *)
Record reloads (c : bool) (B : astate) (recs : list WRecord) (k : core) : Prop := {
  rl_loads : loads_to recs k;
  rl_survives : Forall survives recs;
  rl_names : names_valid (abs k);
  rl_sim : ∃ T, 0 ≤ T ∧ sim T B (abs k);
  rl_started (ml : Mortal false) env :
    committed ml = recs → started c (with_core (New (Some ml) env) k) recs;
}.

Lemma history_reloads c A ls B recs0 recs :
  history_of c A ls B recs0 recs → ∃ k, reloads c B recs k.
Proof.
  intros (keep & w0 & cs & v & recs1 & ls1 & Hal & Hn & Hsv & _ & HB & _ & ->).
  destruct (alive_survives _ _ _ _ _ _ Hal Hn Hsv) as (_ & Hsv' & HnR).
  destruct (alive_reloaded _ _ _ _ _ _ Hal) as (Hre & Hpar & Hnames & Hsim).
  destruct (wp_elim _ _ _ (Hre None (mkEnv (λ _, 0) (λ _, [])))) as (err & w' & Hload & -> & k & -> & Hk & Ha).
  assert (loads_to (recs1 ++ records (ls1 ++ ls)) k) as Hlt.
  { exact (loads_to_any _ _ _ _ Hload). }
  exists k. split; [done|done|by rewrite Ha|..].
  - destruct (seen_bound v cs) as (T & HT & Hseen). exists T. split; [done|].
    rewrite Ha, <-HB. by apply Hsim.
  - intros ml env Hml.
    exact (proj1 (rebuilds_started c _ _ _ _ _ (rebuilds_transfer _ _ Hre) Hpar Hnames Hml
                    (Hlt _ (Some ml) env))).
Qed.

Lemma reloads_unique recs k k' : loads_to recs k → loads_to recs k' → k = k'.
Proof.
  intros Hk Hk'. specialize (Hk Empty_set None (mkEnv (λ _, 0) (λ _, []))).
  specialize (Hk' Empty_set None (mkEnv (λ _, 0) (λ _, []))). rewrite Hk in Hk'. by injection Hk'.
Qed.

(** What may be in the log of a program that the machine stopped. *)
Lemma cut_kept (ml : MortalLog) recs :
  cut_of (mo_recs ml) (mo_recs ml ++ option_list (mo_lost ml)) recs → ∃ keep, recs = mo_kept keep ml.
Proof.
  intros [[r1 ->] Hall]. apply prefix_app_inv in Hall. unfold mo_kept.
  destruct (mo_lost ml) as [r|]; cbn in Hall.
  - destruct r1 as [|r1 rs]; [by exists false|]. exists true. f_equal.
    destruct Hall as [k Hk]. injection Hk as -> Hk. cbn. by destruct rs.
  - apply prefix_nil_inv in Hall as ->. by exists false.
Qed.

Lemma mortal_disk (ml : MortalLog) :
  disk (mo_os ml) (l_path (mo_log ml)) (mo_recs ml) (mo_recs ml ++ option_list (mo_lost ml)).
Proof.
  pose proof (mk_state _ _ _ _ (mo_ok ml)) as Hst. unfold mortal_state in Hst.
  destruct (mo_lost ml) as [r|]; [done|]. cbn. rewrite app_nil_r. by apply log_holds_disk, Hst.
Qed.

(** The records that are possible after a crash are those of histories. *)
Lemma cut_histories c w w1 (ml ml1 : MortalLog) :
  lives c w → reaches w w1 → w_log w = Some (ml : Mortal false) → w_log w1 = Some (ml1 : Mortal false) →
  ∀ recs, cut_of (mo_recs ml1) (mo_recs ml1 ++ option_list (mo_lost ml1)) recs →
    ∃ ls B k, history_of c (abs (w_core w)) ls B (mo_recs ml) recs ∧ reloads c B recs k.
Proof.
  intros Hw Hre Hl Hl1 recs Hrc. destruct (cut_kept _ _ Hrc) as [keep ->].
  destruct (crash_history c w w1 ml ml1 keep Hw Hre Hl Hl1) as (ls & B & Hh).
  destruct (history_reloads _ _ _ _ _ _ Hh) as [k Hk]. eauto.
Qed.

Lemma mortal_readable c w w1 (ml ml1 : MortalLog) :
  lives c w → reaches w w1 → w_log w = Some (ml : Mortal false) → w_log w1 = Some (ml1 : Mortal false) →
  Forall (λ r, times_fit r = true) (mo_recs ml1 ++ option_list (mo_lost ml1)) →
  Forall readable_record (mo_recs ml1 ++ option_list (mo_lost ml1)).
Proof.
  intros Hw Hre Hl Hl1 Htf.
  destruct (crash_history c w w1 ml ml1 true Hw Hre Hl Hl1) as (ls & B & Hh).
  destruct (history_reloads _ _ _ _ _ _ Hh) as [k Hk].
  pose proof (rl_survives _ _ _ _ Hk) as Hsv. unfold mo_kept in Hsv.
  pose proof (mk_valid _ _ _ _ (mo_ok ml1)) as Hv.
  rewrite Forall_forall in Hsv, Htf, Hv. apply Forall_forall. intros r Hr.
  split; [by apply Hsv, Htf|by apply Hv].
Qed.

(** The restart of a server that was cut off: its engine has loaded the log of a history
    that the old one may have had. *)
Lemma restart_history c w w1 w' ml :
  lives c w → reaches w w1 → restart w1 w' → w_log w = Some (ml : Mortal false) →
  ∃ ls B (ml' : MortalLog) env k,
    history_of c (abs (w_core w)) ls B (mo_recs ml) (mo_recs ml') ∧
    reloads c B (mo_recs ml') k ∧ living ml' ∧
    w' = with_core (New (Some (ml' : Mortal false)) env) k.
Proof.
  intros Hw Hre [ml1 env args dir vals s s0 e l out s1 ml' Hl1 Hp Htf Hc Ht Hargs Hrun Hos Hlog Hliv Hat ->] Hl.
  pose proof (mortal_readable _ _ _ _ _ Hw Hre Hl Hl1 Htf) as Hread.
  pose proof (cut_histories _ _ _ _ _ Hw Hre Hl Hl1) as Hcut.
  set (all := mo_recs ml1 ++ option_list (mo_lost ml1)) in *.
  assert (∀ recs, cut_of (mo_recs ml1) all recs → ∃ k, loads_to recs k) as Hload.
  { intros recs (ls & B & k & _ & Hk)%Hcut. exists k. apply Hk. }
  pose proof (mortal_disk ml1) as Hd. rewrite Hp in Hd. fold all in Hd.
  pose proof (crash_log_file _ _ _ _ _ (or_intror Hd) Hc) as Hf.
  pose proof (tries_log_file dir _ _ Hread Hload _ _ Ht Hf) as Hf0.
  destruct (serve_finds dir _ _ Hread Hload _ _ _ _ _ _ _ _ _ Hargs Hf0 Hrun Hat) as (Hrc & k & Hk & ->).
  destruct (Hcut _ Hrc) as (ls & B & k' & Hh & Hk').
  pose proof (reloads_unique _ _ _ Hk (rl_loads _ _ _ _ Hk')) as ->.
  exists ls, B, ml', env, k'. by split_and!.
Qed.

(** All that a crash leaves is on the disk. *)
Lemma crash_exact s s' path safe all :
  disk s path safe all → Forall readable_record all → crash s s' →
  ∃ recs, cut_of safe all recs ∧ disk s' path recs recs.
Proof.
  intros Hd Hr Hc. pose proof (crash_disk _ _ _ _ _ Hd Hc) as Hd'.
  destruct (disk_read _ _ _ _ Hd' Hr) as (recs & part & Hs & Ha & Hp & Hcont & _).
  exists recs. split; [done|]. destruct Hd' as (i & d & sy & _ & Hn & Hi & _).
  unfold contents in Hcont. rewrite Hn in Hcont. cbn in Hcont. rewrite Hi in Hcont.
  injection Hcont as ->. destruct Hc as [_ Hci]. specialize (Hci i). rewrite Hi in Hci.
  destruct (o_inodes s !! i) as [a|]; [|done]. destruct Hci as (n & _ & Heq). injection Heq as Hdn Hsy. rewrite <-Hdn in Hsy. subst sy.
  exists i, (text_of_log recs ++ part), (length (text_of_log recs ++ part)), part.
  split_and!; try done; [by apply prefix_app_r|rewrite length_app; lia].
Qed.

(** Serve makes a restart, whatever the moment was at which the machine stopped. *)
Lemma serve_restarts c w w1 (ml1 : MortalLog) env args dir vals s s0 e l out s1 :
  lives c w → reaches w w1 → w_log w1 = Some (ml1 : Mortal false) →
  l_path (mo_log ml1) = Wal.Join dir FileName →
  Forall (λ r, times_fit r = true) (mo_recs ml1 ++ option_list (mo_lost ml1)) →
  crash (mo_os ml1) s → tries dir s s0 → names_dir serve_flags args dir vals →
  flag_value "no-fsync" "false" vals ≠ "true"%string → flushes s0 →
  Run env ("serve"%string :: args) s0 = (Returns (Serving e l, out), s1) →
  ∃ ml' : MortalLog, restart w1 (put_log (Some (ml' : Mortal false)) e).
Proof.
  intros Hw Hre Hl1 Hp Htf Hc Ht Hargs Hsync Hfl Hrun.
  pose proof (li_running _ _ Hw) as (ml & Hl & _).
  pose proof (mortal_readable _ _ _ _ _ Hw Hre Hl Hl1 Htf) as Hread.
  pose proof (cut_histories _ _ _ _ _ Hw Hre Hl Hl1) as Hcut.
  pose proof (mortal_disk ml1) as Hd. rewrite Hp in Hd.
  destruct (crash_exact _ _ _ _ _ Hd Hread Hc) as (recs & Hrc & Hexact).
  assert (Forall readable_record recs) as Hrr.
  { destruct Hrc as [_ [rest Hrest]]. rewrite Hrest in Hread. by apply Forall_app in Hread as [? _]. }
  assert (∀ recs', cut_of recs recs recs' → ∃ k, loads_to recs' k) as Hload.
  { intros recs' [H1 H2]. assert (recs' = recs) as -> by by apply (anti_symm prefix).
    destruct (Hcut _ Hrc) as (ls & B & k & _ & Hk). exists k. apply Hk. }
  pose proof (tries_log_file dir _ _ Hrr Hload _ _ Ht (or_intror Hexact)) as Hf0.
  pose proof (io_runServe env s0 args dir vals _ _ Hargs Hf0 Hrr Hload) as Hio. unfold io in Hio.
  pose proof Hrun as Hrun'. unfold Run in Hrun'. rewrite decide_True in Hrun' by done.
  rewrite Hrun' in Hio. destruct Hio as (recs' & k & [H1 H2] & Hk & He & Hh & Hst & Hpl & Hsy).
  assert (recs' = recs) as -> by by apply (anti_symm prefix).
  rewrite bool_decide_eq_false_2 in Hsy by done.
  assert (mortal_ok s1 l recs None) as Hok.
  { split; [done|split; [by apply Hst|done]|]. cbn. rewrite app_nil_r.
    eapply Forall_impl; [exact Hrr|]. by intros r [_ Hv]. }
  exists (mkMortal s1 l recs None Hok).
  assert (records_at s1 (Wal.Join dir FileName) recs) as Hat.
  { destruct Hh as (i & part & sy & Hn & _ & (_ & Hi & _) & Hpart & _). rewrite Hpl in Hn.
    unfold records_at, contents. rewrite Hn. cbn. rewrite Hi. do 3 eexists.
    split; [done|]. by apply read_written. }
  exact (restart_serve _ _ ml1 env args dir vals s s0 e l out s1 (mkMortal s1 l recs None Hok)
           Hl1 Hp Htf Hc Ht Hargs Hrun eq_refl eq_refl eq_refl Hat eq_refl).
Qed.

(** ** What happens to a server *)

Definition log_records w : list WRecord := from_option (mo_kept false) [] (w_log w).

Lemma log_ids_records w : log_ids w = omap record_id (log_records w).
Proof. unfold log_ids, log_records. by destruct (w_log w). Qed.

Lemma log_records_living w (ml : MortalLog) : w_log w = Some ml → living ml → log_records w = mo_recs ml.
Proof. intros Hl Hliv. unfold log_records. rewrite Hl. cbn. unfold mo_kept. by rewrite app_nil_r. Qed.

(** From [w] to [w'] the engine did the steps [ls] to [B], and what was done is in the
    log; [w'] is in [B], or in a state that was recovered and behaves as [B]. *)
Record went (c : bool) w (ls : list label) (B : astate) w' : Prop := {
  wt_steps : asteps (abs (w_core w)) ls B;
  wt_log : log_records w' = log_records w ++ records ls;
  wt_sim : ∃ T, 0 ≤ T ∧ sim T B (abs (w_core w'));
  wt_lives : lives c w';
  wt_gone id : c = false → gone B id → id ∈ log_ids w' → gone (abs (w_core w')) id;
}.

Lemma op_went c w o r w' :
  lives c w → k_seq (w_core w) < 2 ^ 62 → perform o w = Some (r, w') → running w' →
  ∃ ls B, went c w ls B w'.
Proof.
  intros Hw Hs Hp Hrun. pose proof Hrun as (ml' & Hl' & Hliv').
  pose proof (li_running _ _ Hw) as (ml & Hl & Hliv).
  pose proof Hw as [_ (w0 & cs & recs & ls & Hal & Hn & Hsv) Hsent].
  assert (roomy w) as Hro by (split; [apply Hal|done]).
  destruct (perform_runs o w Hro) as (r' & v & Hp' & cs' & Hr & Hcs). rewrite Hp in Hp'.
  injection Hp' as <- <-. destruct (alive_extend _ _ _ _ _ _ _ _ Hal Hr Hcs) as (ls' & Hal' & Hev).
  exists ls', (abs (w_core w')). split.
  - apply Hev.
  - pose proof (ev_log _ _ _ Hev) as Hlg. unfold log_records. rewrite Hl, Hl' in *. exact (logged_committed _ _ _ Hlg).
  - exists 0. split; [done|]. apply sim_refl, wf_abs, Hal'.
  - split; [done|by exists w0, (cs ++ cs'), recs, (ls ++ ls')|].
    intros Hc. eapply all_sent_evolves; [by rewrite Hl; eexists|by apply Hsent|exact Hev].
  - done.
Qed.

Lemma started_counted w recs :
  started false w recs → counted w.
Proof.
  intros [_ (l & Hl & <-) _ _ Hids _] id. unfold log_ids. rewrite Hl. by apply Hids.
Qed.

Lemma crash_went c w w1 w' :
  lives c w → reaches w w1 → restart w1 w' → ∃ ls B, went c w ls B w'.
Proof.
  intros Hw Hre Hr. pose proof (li_running _ _ Hw) as (ml & Hl & Hliv).
  destruct (restart_history _ _ _ _ _ Hw Hre Hr Hl) as (ls & B & ml' & env & k & Hh & Hk & Hliv' & ->).
  set (w' := with_core (New (Some (ml' : Mortal false)) env) k).
  destruct (history_steps _ _ _ _ _ _ Hh) as [Hst Hrecs].
  assert (committed (ml' : Mortal false) = mo_recs ml') as Hc'
    by (cbn; unfold mo_kept; by rewrite app_nil_r).
  pose proof (rl_started _ _ _ _ Hk ml' env Hc') as Hstart. fold w' in Hstart.
  assert (log_records w' = log_records w ++ records ls) as Hlog.
  { rewrite (log_records_living w' ml'), (log_records_living w ml) by done.
    exact Hrecs. }
  destruct (rl_sim _ _ _ _ Hk) as (T & HT & Hsim).
  exists ls, B. split; [done|done|by exists T| |].
  - split; [by exists ml'|..].
    + destruct (started_alive c w' [] w' (mo_recs ml') Hstart (runs_nil _) (List.Forall_nil _)) as (ls0 & Hal0).
      exists w', [], (mo_recs ml'), ls0. split_and!; [done|apply Hk|apply Hk].
    + intros Hc n id m Hm. rewrite log_ids_records, Hlog, omap_app. apply elem_of_app.
      destruct (si_bwd _ _ _ Hsim n id ltac:(by eexists)) as [m' Hm'].
      destruct (present_steps _ _ _ _ _ _ Hst Hm') as [Hin|(n' & m0 & Hm0)].
      * right. by rewrite (pick_records_all _ _ records_sent_id).
      * left. rewrite <-log_ids_records. by apply (li_sent _ _ Hw Hc n' id m0).
  - intros id -> Hg Hin. eapply (retired_counted w' id B); [done| |done|by eapply started_counted| |].
    + eapply asteps_awf; [|exact Hst]. apply wf_abs. by eapply lives_wf.
    + apply Hstart.
    + intros n. destruct (a_lookup (abs (w_core w')) n id) as [m|] eqn:Hm; [|done].
      destruct (si_bwd _ _ _ Hsim n id ltac:(by eexists)) as [m' Hm']. by rewrite (proj1 Hg) in Hm'.
Qed.

Lemma next_went c w w' : lives c w → next w w' → ∃ ls B, went c w ls B w'.
Proof. intros Hw [o r Hs Hp Hrun|w1 Hre Hr]; [by eapply op_went|by eapply crash_went]. Qed.

Lemma next_lives c w w' : lives c w → next w w' → lives c w'.
Proof. intros Hw Hn. destruct (next_went _ _ _ Hw Hn) as (ls & B & Hwt). apply Hwt. Qed.

Lemma rtc_lives c w w' : lives c w → rtc next w w' → lives c w'.
Proof. intros Hw Hr. induction Hr as [|w1 w2 w3 Hn _ IH]; [done|]. by eapply IH, next_lives. Qed.

(** ** Messages that stay, and messages that are gone *)

(** Message [id] is in some queue, with the body [body]. *)
Definition queued w (id : string) (body : bytes) : Prop :=
  ∃ n m, a_lookup (abs (w_core w)) n id = Some m ∧ a_Body m = body.

(** Between [w] and [w'] the message was acknowledged, dropped because it had been
    received too often and its queue has no target for dead letters, or deleted with
    its queue; and this is in the log. *)
Definition removed_between w w' (id : string) : Prop :=
  ∃ w1 w2 ls1 l ls2 B C n m, rtc next w w1 ∧ next w1 w2 ∧ rtc next w2 w' ∧
    asteps (abs (w_core w1)) (ls1 ++ l :: ls2) B ∧
    log_records w2 = log_records w1 ++ records (ls1 ++ l :: ls2) ∧
    asteps (abs (w_core w1)) ls1 C ∧ a_lookup C n id = Some m ∧ removes n id l.

Lemma queued_next c w w' id bs :
  lives c w → queued w id bs → next w w' → queued w' id bs ∨ removed_between w w' id.
Proof.
  intros Hw (n & m & Hl & Hb) Hn. pose proof (lives_wf _ _ Hw) as Hwf.
  destruct (next_went _ _ _ Hw Hn) as (ls & B & [Hst Hlog (T & _ & Hsim) _ _]).
  destruct (kept_history _ _ _ _ _ _ (wf_abs _ Hwf) Hl Hst)
    as [(n' & m' & Hl' & [Hb' _ _])|(ls1 & l & ls2 & C & n' & m' & -> & HC & Hl' & Hrm)].
  - left. destruct (si_fwd _ _ _ Hsim _ _ _ Hl') as (m2 & Hl2 & Hrc). exists n', m2.
    split; [done|]. rewrite (rc_body _ _ _ Hrc). congruence.
  - right. exists w, w', ls1, l, ls2, B, C, n', m'. by split_and!; try apply rtc_refl.
Qed.

Lemma removed_later w w1 w' id : next w w1 → removed_between w1 w' id → removed_between w w' id.
Proof.
  intros Hn (v1 & v2 & ls1 & l & ls2 & B & C & n & m & H1 & Hx).
  exists v1, v2, ls1, l, ls2, B, C, n, m. split; [by eapply rtc_l|done].
Qed.

Lemma removed_earlier w w1 w' id : removed_between w w1 id → rtc next w1 w' → removed_between w w' id.
Proof.
  intros (v1 & v2 & ls1 & l & ls2 & B & C & n & m & H1 & Hn & H2 & Hx) Hr.
  exists v1, v2, ls1, l, ls2, B, C, n, m. split; [done|]. split; [done|]. split; [by etrans|done].
Qed.

Lemma queued_later c w w' id bs :
  lives c w → queued w id bs → rtc next w w' → queued w' id bs ∨ removed_between w w' id.
Proof.
  intros Hw Hq Hr. induction Hr as [w|w w1 w' Hn Hr IH]; [by left|].
  destruct (queued_next _ _ _ _ _ Hw Hq Hn) as [Hq1|Hrm].
  - destruct (IH (next_lives _ _ _ Hw Hn) Hq1) as [?|?]; [by left|right]. by eapply removed_later.
  - right. by eapply removed_earlier.
Qed.

Lemma retired_next w w' id : lives false w → retired w id → next w w' → retired w' id.
Proof.
  intros Hw [Hg Hid] Hn.
  destruct (next_went _ _ _ Hw Hn) as (ls & B & [Hst Hlog _ _ Hgone]).
  destruct (gone_forever _ _ _ _ (wf_abs _ (lives_wf _ _ Hw)) Hg Hst) as [_ HB].
  assert (id ∈ log_ids w') as Hin.
  { rewrite log_ids_records, Hlog, omap_app. apply elem_of_app; left. by rewrite <-log_ids_records. }
  split; [by apply Hgone|done].
Qed.

Lemma retired_later w w' id : lives false w → retired w id → rtc next w w' → retired w' id.
Proof.
  intros Hw Hret Hr. induction Hr as [|w1 w2 w3 Hn _ IH]; [done|].
  apply IH; [by eapply next_lives|by eapply retired_next].
Qed.

(** ** Requests that promise something *)

Lemma engine_error_not_created e : rs_status (writeEngineError e) ≠ StatusCreated.
Proof. unfold writeEngineError. repeat case_match; done. Qed.

Lemma sent_is_there A n id bs ts delay B :
  asteps A [LSend n id bs ts delay] B → ∃ m, a_lookup B n id = Some m ∧ a_Body m = bs.
Proof.
  intros Hst. inversion Hst as [|? ? B' ? ? Hone Hrest]; subst. inversion Hrest; subst.
  inversion Hone; subst. eexists. by rewrite a_lookup_put, decide_True.
Qed.

Lemma send_accepted rq name w rs w1 :
  roomy w → name ≠ ""%string → rq_method rq = "POST"%string →
  rq_path rq = ["q"; name; "messages"]%string → ServeHTTP rq w = Some (Responds rs, w1) →
  rs_status rs = StatusCreated → ∃ id, rs_body rs = JSId id ∧ queued w1 id (rq_body rq).
Proof.
  intros [Hwf Hseq] Hn Hm Hp.
  assert (ServeHTTP rq w = handleSend rq name w) as ->.
  { unfold ServeHTTP, routes. rewrite Hp, Hm, decide_True by done. reflexivity. }
  unfold handleSend.
  destruct (ParseDefault _ 0) as [delay|e]; [|by intros [= <- _]].
  unfold read_body. destruct (_ <? _); [by intros [= <- _]|].
  destruct (rq_body_err rq); [by intros [= <- _]|].
  unfold mbind at 1, GoM_bind at 1. destruct (Send name (rq_body rq) delay w) as [[r w']|] eqn:Hs; [|done].
  pose proof (wp_use (Send name (rq_body rq) delay) _ _ _ _ (wp_Send name (rq_body rq) delay w Hwf ltac:(lia)) Hs) as Hres.
  destruct r as [id|e]; [|intros [= <- _] He; by destruct (engine_error_not_created e)].
  intros [= <- <-] _. exists id. split; [done|]. destruct Hres as (Hev & -> & _).
  exists name. apply (sent_is_there _ _ _ _ _ _ _ (ev_steps _ _ _ Hev)).
Qed.

Lemma request_next rq out w w1 :
  roomy w → ServeHTTP rq w = Some (out, w1) → running w1 → next w w1.
Proof.
  intros Hro Hr Hrun. eapply (next_op _ _ (OpRequest rq)); [apply Hro| |done].
  cbn. unfold mbind, GoM_bind. by rewrite Hr.
Qed.

(** C4: an accepted message survives.  If the server answers a request to send a message
    with 201, its answer has the ID of the message; and whatever happens then to a server
    that syncs its log, requests, polls, sweeps, stops of the machine at any moment, in
    the middle of a write too, and calls of "duraq serve" that fail or are interrupted
    before one succeeds, in any order and number: the message is in some queue with the
    body of the request, unless the log says that it was acknowledged in between,
    dropped after too many receives by a queue without a target for dead letters, or
    deleted with its queue. *)
Theorem accepted_message_survives c rq name w rs w1 :
  lives c w → roomy w → name ≠ ""%string → rq_method rq = "POST"%string →
  rq_path rq = ["q"; name; "messages"]%string → ServeHTTP rq w = Some (Responds rs, w1) →
  running w1 → rs_status rs = StatusCreated →
  ∃ id, rs_body rs = JSId id ∧
    ∀ w2, rtc next w1 w2 → queued w2 id (rq_body rq) ∨ removed_between w1 w2 id.
Proof.
  intros Hw Hro Hn Hm Hp Hr Hrun Hst.
  destruct (send_accepted _ _ _ _ _ Hro Hn Hm Hp Hr Hst) as (id & Hb & Hq). exists id. split; [done|].
  intros w2. eapply queued_later; [|exact Hq]. eapply next_lives; [exact Hw|].
  by eapply request_next.
Qed.

Lemma ack_retires rq name id receipt w rs w1 :
  lives false w → roomy w → asks SAck rq name id receipt →
  ServeHTTP rq w = Some (Responds rs, w1) → rs_status rs = StatusNoContent → retired w1 id.
Proof.
  intros Hw Hro Ha. destruct (asks_handled _ _ _ _ _ w Ha) as [-> ->]. cbn [settle].
  unfold mbind at 1, GoM_bind at 1. destruct (Ack name id receipt w) as [[err w']|] eqn:Hack; [|done].
  pose proof (wp_use _ _ _ _ _ (wp_Ack name id receipt w Hro) Hack) as Hon.
  destruct err as [e|].
  { intros [= <- _]. unfold writeEngineError. repeat case_match; done. }
  intros [= _ <-] _. destruct Hon as (t & wS & Hfs & Hck & Hev).
  destruct (first_sweep_inv _ _ _ _ Hfs) as (ls0 & Hev0 & _).
  apply lease_check_None in Hck as (m & d & Hl & _).
  pose proof (li_running _ _ Hw) as (ml & Hlog & _).
  assert (is_Some (w_log w)) as Hsome by by eexists.
  assert (all_sent wS) as Hall by (eapply all_sent_evolves; [done|by apply Hw|done]).
  assert (is_Some (w_log wS)) as HlogS.
  { pose proof (ev_log _ _ _ Hev0) as Hlg. rewrite Hlog in Hlg. by destruct (w_log wS). }
  split.
  - pose proof (ev_steps _ _ _ Hev) as Hst. inversion Hst as [|? ? B ? ? Hone Hrest]; subst.
    inversion Hrest; subst. eapply removed_gone; [apply Hev0|exact Hl|exact Hone|done].
  - rewrite (evolves_log_ids _ _ _ Hev HlogS). apply elem_of_app; left. by eapply Hall.
Qed.

Lemma log_ids_NoDup w : lives false w → NoDup (log_ids w).
Proof.
  intros [(ml & Hl & Hliv) (w0 & cs & recs & ls & Hal & _) _].
  pose proof (lives_records _ _ _ _ _ _ _ Hal Hl Hliv) as Hrecs.
  destruct (alive_reloaded _ _ _ _ _ _ Hal) as (_ & _ & Hn & _).
  rewrite log_ids_records, (log_records_living _ _ Hl Hliv), Hrecs. by apply Hn.
Qed.

(** C5: an acknowledged message stays gone.  If the server answers a request to
    acknowledge a message with 204, then no queue holds the message ever again, whatever
    happens to the server: requests, polls, sweeps, stops of the machine at any moment
    and restarts by "duraq serve"; and no other message is sent under its ID, which is in
    the log just once.  (The log must not have been compacted, see
    [Limits.compaction_reuses_names].) *)
Theorem acknowledged_message_stays_gone rq name id receipt w rs w1 w2 :
  lives false w → roomy w → asks SAck rq name id receipt →
  ServeHTTP rq w = Some (Responds rs, w1) → running w1 → rs_status rs = StatusNoContent →
  rtc next w1 w2 →
  (∀ n, a_lookup (abs (w_core w2)) n id = None) ∧ id ∈ log_ids w2 ∧ NoDup (log_ids w2).
Proof.
  intros Hw Hro Ha Hr Hrun Hst Hn.
  assert (lives false w1) as Hw1 by (eapply next_lives; [exact Hw|by eapply request_next]).
  destruct (retired_later w1 w2 id) as [[Hno _] Hin];
    [done|exact (ack_retires _ _ _ _ _ _ _ Hw Hro Ha Hr Hst)|done|].
  split; [done|]. split; [done|]. apply log_ids_NoDup. by eapply rtc_lives.
Qed.
End restarts.

(** ** Examples: the small engine on its log file, and a machine that stops *)

(** The state after a request, and its answer. *)
Definition after {L} `{!Appender L} `{!Machine} (rq : request) (w : world L) : world L :=
  from_option snd w (ServeHTTP rq w).

Definition answered_with {L} `{!Appender L} `{!Machine} (rq : request) (w : world L) : response :=
  match ServeHTTP rq w with
  | Some (Responds rs, _) => rs
  | _ => mkResponse 0 NoBody
  end.

Lemma answered_after {L} `{!Appender L} `{!Machine} rq (w : world L) (st : Z) :
  st ≠ 0 → rs_status (answered_with rq w) = st →
  ServeHTTP rq w = Some (Responds (answered_with rq w), after rq w).
Proof.
  intros Hne. unfold answered_with, after. destruct (ServeHTTP rq w) as [[[rs|p] w']|]; [done|..];
    by intros <-.
Qed.

Definition fresh_mortal : Mortal false.
Proof.
  refine (mkMortal (opened_os true) (opened_log true) [] None _).
  destruct (opened_holds true) as (Hh & _ & Hc).
  split; [vm_compute; reflexivity|split; [by apply calm_flushes|done]|constructor].
Defined.

Definition mortal_start : world (Mortal false) := New (Some fresh_mortal) demo_env.

Definition mortal_world : world (Mortal false) :=
  from_option id mortal_start (run_all demo_calls mortal_start).

Lemma mortal_runs : runs mortal_start demo_calls mortal_world.
Proof.
  unfold mortal_world. apply ran_runs. vm_compute. reflexivity.
Qed.

Lemma mortal_life : life false mortal_start demo_calls mortal_world.
Proof.
  exact (life_first false fresh_mortal demo_env demo_calls _ eq_refl mortal_runs demo_well_called).
Qed.

(** The log of a world, and whether it is living. *)
Definition log_of (w : world (Mortal false)) : MortalLog := from_option id fresh_mortal (w_log w).

Definition runningb (w : world (Mortal false)) : bool :=
  match w_log w with Some ml => bool_decide (mo_lost ml = None) | None => false end.

Lemma runningb_log w : runningb w = true → w_log w = Some (log_of w) ∧ living (log_of w).
Proof.
  unfold runningb, log_of. destruct (w_log w) as [ml|]; [|done]. cbn.
  by intros ?%bool_decide_eq_true.
Qed.

Lemma runningb_running w : runningb w = true → running w.
Proof. intros [? ?]%runningb_log. by eexists. Qed.

(** The log, on a machine that will answer with [l]. *)
Definition with_answers (l : list Os.answer) (ml : MortalLog) (Hliv : living ml) : MortalLog.
Proof.
  refine (mkMortal (set_answers l (mo_os ml)) (mo_log ml) (mo_recs ml) None _).
  destruct (mo_ok ml) as [Hs Hst Hv]. unfold mortal_state in Hst. rewrite Hliv in *.
  split; [done| |done]. destruct Hst as [Hf Hh]. split; [exact Hf|].
  by apply (log_holds_same (mo_os ml)).
Defined.

Lemma lives_put_log c w (ml ml' : MortalLog) `{!Machine} :
  lives c w → w_log w = Some (ml : Mortal false) → living ml' → mo_recs ml' = mo_recs ml →
  lives c (put_log (Some (ml' : Mortal false)) w).
Proof.
  intros Hw Hl Hliv Hr. pose proof (li_running _ _ Hw) as (ml0 & Hl0 & Hliv0).
  rewrite Hl in Hl0. injection Hl0 as <-.
  assert (committed (ml' : Mortal false) = mo_kept false ml) as Hc
    by (cbn; unfold mo_kept; by rewrite Hr).
  split; [by exists ml'|..].
  - destruct Hw as [_ (w0 & cs & recs & ls & Hal & Hn & Hsv) _].
    destruct (st_log _ _ _ (al_started _ _ _ _ _ _ Hal)) as (l0 & Hl0 & Hc0).
    exists (put_log (Some l0) w0), cs, recs, ls. split; [|done]. apply alive_transfer; [done..|].
    rewrite Hc. exact (al_log _ _ _ _ _ _ Hal _ Hl).
  - intros Hf n id m Hm. pose proof (li_sent _ _ Hw Hf n id m Hm) as Hin.
    unfold log_ids in *. rewrite Hl in Hin. cbn in *. unfold mo_kept in *. by rewrite Hr.
Qed.

(** The machine will answer with [l]. *)
Definition answering (l : list Os.answer) (w : world (Mortal false)) : world (Mortal false) :=
  match w_log w with
  | Some ml =>
    match decide (living ml) with
    | left Hliv => put_log (Some (with_answers l ml Hliv : Mortal false)) w
    | right _ => w
    end
  | None => w
  end.

Lemma answering_lives `{!Machine} c l w : lives c w → lives c (answering l w).
Proof.
  intros Hw. pose proof (li_running _ _ Hw) as (ml & Hl & Hliv). unfold answering. rewrite Hl.
  destruct (decide (living ml)); [|done]. by eapply lives_put_log.
Qed.

(** The machine stops in the second write from now, after seven bytes. *)
Definition stopping_world : world (Mortal false) := answering [Done; Stops 7] mortal_world.

Lemma mortal_running : running mortal_world.
Proof. apply runningb_running. vm_compute. reflexivity. Qed.

Lemma stopping_lives : lives false stopping_world.
Proof. exact (answering_lives _ _ _ (life_lives _ _ _ _ mortal_life mortal_running)). Qed.

Lemma stopping_roomy : roomy stopping_world.
Proof. split; [exact (lives_wf _ _ stopping_lives)|]. apply Z.ltb_lt. vm_compute. reflexivity. Qed.

(** The acknowledgement is answered, and then the machine stops while a message is sent. *)
Definition acked_world : world (Mortal false) := after ack_jobs stopping_world.
Definition dead_world : world (Mortal false) := after send_jobs acked_world.

Lemma ack_no_content : rs_status (answered_with ack_jobs stopping_world) = StatusNoContent.
Proof. vm_compute. reflexivity. Qed.

Lemma ack_answered :
  ServeHTTP ack_jobs stopping_world =
    Some (Responds (answered_with ack_jobs stopping_world), acked_world).
Proof. exact (answered_after ack_jobs stopping_world StatusNoContent ltac:(done) ack_no_content). Qed.

Lemma acked_running : running acked_world.
Proof. apply runningb_running. vm_compute. reflexivity. Qed.

Lemma acked_lives : lives false acked_world.
Proof.
  eapply next_lives; [exact stopping_lives|].
  eapply request_next; [exact stopping_roomy|exact ack_answered|exact acked_running].
Qed.

Lemma acked_roomy : roomy acked_world.
Proof. split; [exact (lives_wf _ _ acked_lives)|]. apply Z.ltb_lt. vm_compute. reflexivity. Qed.

Lemma reaches_after `{!Machine} rq (w : world (Mortal false)) : roomy w → reaches w (after rq w).
Proof.
  intros Hro. destruct (perform_runs (OpRequest rq) w Hro) as (r & w' & Hp & _).
  assert (after rq w = w') as ->.
  { unfold after. cbn in Hp. unfold mbind, GoM_bind in Hp.
    destruct (ServeHTTP rq w) as [[out w1]|]; [|done]. by injection Hp as _ ->. }
  eapply (reaches_op _ _ (OpRequest rq)); [apply Hro|exact Hp].
Qed.

(** The log is dead, with a part of a record at its end. *)
Lemma dead_log : w_log dead_world = Some (log_of dead_world : Mortal false) ∧ ¬ living (log_of dead_world).
Proof.
  assert (match w_log dead_world with
          | Some ml => bool_decide (mo_lost ml ≠ None)
          | None => false
          end = true) as Hd by (vm_compute; reflexivity).
  unfold log_of. destruct (w_log dead_world) as [ml|]; [|done]. cbn. split; [done|].
  by apply bool_decide_eq_true in Hd.
Qed.

Lemma dead_times :
  Forall (λ r, times_fit r = true) (mo_recs (log_of dead_world) ++ option_list (mo_lost (log_of dead_world))).
Proof. apply all_times. vm_compute. reflexivity. Qed.

Lemma dead_path : l_path (mo_log (log_of dead_world)) = Wal.Join "data" FileName.
Proof. vm_compute. reflexivity. Qed.

(** A crash that leaves all that was written. *)
Definition kept_all (s : os) : os :=
  set_inodes ((λ d, mkInode (i_data d) (length (i_data d))) <$> o_inodes s) s.

Lemma kept_all_crash s : crash s (kept_all s).
Proof.
  split; [done|]. intros i. cbn. rewrite lookup_fmap. destruct (o_inodes s !! i) as [a|]; cbn; [|done].
  exists (Nat.max (i_synced a) (length (i_data a))). split; [lia|]. by rewrite take_ge by lia.
Qed.

(** The next process finds a torn tail and serves. *)
Abbreviation serve_again :=
  (Run demo_env ("serve"%string :: data_args) (kept_all (mo_os (log_of dead_world)))) (only parsing).

Definition serves (o : outcome (command_end * list printed) * os) : bool :=
  match o with (Returns (Serving _ _, out), _) => bool_decide (length out = 1%nat) | _ => false end.

Lemma serves_spec o :
  serves o = true → ∃ e l out s1, o = (Returns (Serving e l, out), s1).
Proof. destruct o as [[[[code|e l] out]| |] s1]; try done. intros _. by exists e, l, out, s1. Qed.

Lemma dead_served : serves serve_again = true.
Proof. vm_compute. reflexivity. Qed.

Lemma dead_flushes : flushes (kept_all (mo_os (log_of dead_world))).
Proof.
  assert (o_syncs (kept_all (mo_os (log_of dead_world))) = []) as Hs by (vm_compute; reflexivity).
  intros n. rewrite Hs. apply not_elem_of_nil.
Qed.

Lemma data_synced : flag_value "no-fsync" "false" [("data", "data")]%string ≠ "true"%string.
Proof. done. Qed.

Lemma dead_reached : reaches acked_world dead_world.
Proof. unfold dead_world. apply reaches_after, acked_roomy. Qed.

Lemma dead_restarts : ∃ w2, restart dead_world w2.
Proof.
  destruct (serves_spec _ dead_served) as (e & l & out & s1 & E).
  destruct (serve_restarts false acked_world dead_world (log_of dead_world) demo_env data_args "data"
    [("data", "data")]%string (kept_all (mo_os (log_of dead_world)))
    (kept_all (mo_os (log_of dead_world))) e l out s1 acked_lives dead_reached
    (proj1 dead_log) dead_path dead_times (kept_all_crash _) (tries_done _ _)
    (data_args_name serve_flags (or_introl eq_refl)) data_synced dead_flushes E) as (ml' & Hr).
  by eexists.
Qed.

Lemma acknowledged_message_stays_gone_witness :
  ∃ w2, rtc next acked_world w2 ∧ restart dead_world w2 ∧
    (∀ n, a_lookup (abs (w_core w2)) n id1 = None) ∧ id1 ∈ log_ids w2 ∧ NoDup (log_ids w2).
Proof.
  destruct dead_restarts as [w2 Hr]. exists w2.
  pose proof (rtc_once _ _ (next_crash acked_world w2 dead_world dead_reached Hr)) as Hn.
  split; [exact Hn|]. split; [exact Hr|].
  exact (acknowledged_message_stays_gone ack_jobs "jobs" id1 receipt4 stopping_world _ acked_world w2
    stopping_lives stopping_roomy ack_jobs_asks ack_answered acked_running ack_no_content Hn).
Defined.

Lemma mortal_roomy : roomy mortal_world.
Proof.
  split; [exact (lives_wf _ _ (life_lives _ _ _ _ mortal_life mortal_running))|].
  apply Z.ltb_lt. vm_compute. reflexivity.
Qed.

Lemma send_created : rs_status (answered_with send_jobs mortal_world) = StatusCreated.
Proof. vm_compute. reflexivity. Qed.

Lemma sent_running : running (after send_jobs mortal_world).
Proof. apply runningb_running. vm_compute. reflexivity. Qed.

Lemma accepted_message_survives_witness :
  ∃ id, rs_body (answered_with send_jobs mortal_world) = JSId id ∧
    ∀ w2, rtc next (after send_jobs mortal_world) w2 →
      queued w2 id (rq_body send_jobs) ∨ removed_between (after send_jobs mortal_world) w2 id.
Proof.
  exact (accepted_message_survives false send_jobs "jobs" mortal_world _ _
    (life_lives _ _ _ _ mortal_life mortal_running) mortal_roomy ltac:(done) eq_refl eq_refl
    (answered_after send_jobs mortal_world StatusCreated ltac:(done) send_created)
    sent_running send_created).
Defined.
