(* ===== verification/Limits.v ===== *)
(** Where the guarantees end: what the engine, or the log around it, does that its
    callers may not expect.  A compaction makes the engine give out names a second time;
    an acknowledgement whose fsync failed makes the log unreadable when it is tried
    again; a Redrive that fails in the middle of a batch announces nothing. *)

From S2P Require Import Prelude GoHeap Ids WalRecord Json JsonValue JsonLine JsonStruct WalJson Os OsFacts Wal.
From S2P Require Import WalFacts WalCrash WalCompact WalOpen WalTheorems.
From S2P Require Import Config Message Engine Spec Invariant Refine RefineTime RefineOps RefineRecv Trace Replay.
From S2P Require Import RefineLoad RefineSnap Runs ConfigWire Instances Demo Recovery Loggable FileLog WalDemo Wakeup.
From stdpp Require Import fin_maps.

Local Open Scope Z_scope.

(** ** What a compaction forgets *)

Section names.
Context {L : Type} `{!Appender L} `{!LogLaws L} `{!ConfigJSON} `{!ConfigJSONLaws}.
Implicit Types w : world L.





End names.

(** A message is sent, received and acknowledged; the log is compacted; another message
    is sent and received. *)
Definition receipt2 : string := "r0000000000000002".






(** ** A log whose fsync fails *)

(** A log file, with the records for which Append has returned without an error: what
    the engine believes to be in the log.  (An Append in which the machine stops is an
    error here; the theorem below is about machines that do not stop.) *)
Record RawLog := mkRaw { rl_os : os; rl_log : Log; rl_recs : list WRecord }.

Definition stopped_error : error := Errorf "the machine has stopped" [].

Definition Append_raw (r : WRecord) (rl : RawLog) : option error * RawLog :=
  match Append_log r (rl_log rl) (rl_os rl) with
  | (Returns (l, None), s) => (None, mkRaw s l (rl_recs rl ++ [r]))
  | (Returns (l, Some e), s) => (Some e, mkRaw s l (rl_recs rl))
  | (Dies, s) | (Panics, s) => (Some stopped_error, mkRaw s (rl_log rl) (rl_recs rl))
  end.

#[export] Instance RawLog_Appender : Appender RawLog := Append_raw.

#[export, refine] Instance RawLog_Laws : LogLaws RawLog := { committed := rl_recs }.
Proof.
  - intros r rl rl'. unfold Append, RawLog_Appender, Append_raw.
    by destruct (Append_log _ _ _) as [[[l [e|]]| |] s]; intros [= <-].
  - intros r rl rl' e. unfold Append, RawLog_Appender, Append_raw.
    by destruct (Append_log _ _ _) as [[[l [e'|]]| |] s]; intros [= _ <-].
Defined.

(** The file holds [recs], and every append is synced. *)
Record raw_holds (dir : string) (rl : RawLog) (safe recs : list WRecord) : Prop := {
  rh_path : l_path (rl_log rl) = Wal.Join dir FileName;
  rh_sync : l_syncEach (rl_log rl) = true;
  rh_calm : calm (rl_os rl);
  rh_holds : log_holds (rl_os rl) (rl_log rl) safe recs;
}.

(** On a machine that works from now on, the file gets the records that are appended,
    after those that it has. *)
Lemma raw_attempts dir rl ats rl' :
  attempts rl ats rl' → ∀ safe recs, raw_holds dir rl safe recs →
  ∃ safe', raw_holds dir rl' safe' (recs ++ succeeded ats) ∧
    (safe = recs ∨ succeeded ats ≠ [] → safe' = recs ++ succeeded ats).
Proof.
  induction 1 as [rl|r err rl rl1 ats rl2 Ha _ IH]; intros safe recs [Hp Hsync Hc Hh].
  - exists safe. unfold succeeded. rewrite app_nil_r. split; [done|]. by intros [?|[]].
  - unfold Append, RawLog_Appender, Append_raw in Ha. pose proof (io_Append _ _ _ _ r Hh) as Hio.
    unfold io in Hio. destruct (Append_log r _ _) as [[[l [e|]]| |] s]; [..|done].
    + injection Ha as <- <-. destruct Hio as (Hp1 & Hs1 & Hc1 & _ & _ & [Hh1|(_ & Hn & _)]);
        [|by destruct Hn; apply calm_flushes].
      apply (IH safe recs). cbn in *. split; cbn; [congruence..|by apply Hc1|done].
    + injection Ha as <- <-. destruct Hio as (Hp1 & Hs1 & Hc1 & _ & Hh1 & _). cbn in *.
      rewrite Hsync in Hh1. destruct (IH (recs ++ [r]) (recs ++ [r])) as (safe' & Hr & Hsafe).
      { split; cbn; [congruence..|by apply Hc1|done]. }
      exists safe'. unfold succeeded in *. cbn. rewrite <-app_assoc in *. split; [done|].
      intros _. apply Hsafe. by left.
    + by destruct Hio.
Qed.

Section twice.
Context {L : Type} `{!Appender L} `{!LogLaws L} `{!ConfigJSON} `{!ConfigJSONLaws}.
Implicit Types w : world L.

(** The record of an operation on a message that is gone is not applied. *)
Lemma wp_apply_gone n id receipt ts w (Q : option error → world L → Prop) :
  is_Some (as_queues (abs (w_core w)) !! n) → wf (w_core w) →
  a_lookup (abs (w_core w)) n id = None → Q (Some ErrMessageNotFound) w →
  wp (Engine.apply (rec_ack n id receipt ts)) Q w.
Proof.
  intros Hn%abs_queues_is_Some Hwf Hno HQ. destruct Hn as [q Hq]. unfold Engine.apply. simpl.
  apply wp_bind, wp_lookup_queue. rewrite Hq.
  destruct (q_byID q !! id) as [p|] eqn:Hp; [|by apply wp_ret].
  destruct (wf_lookup _ _ _ _ _ Hwf Hq Hp) as (m & Hm & _ & _ & Hl). congruence.
Qed.

(** A log in which a message is acknowledged twice cannot be loaded. *)
Lemma acked_twice c w0 cs w l n id receipt ts ts' log' env' :
  life c w0 cs w → w_log w = Some l → is_Some (a_lookup (abs (w_core w)) n id) →
  ∃ err w', Load (committed l ++ [rec_ack n id receipt ts; rec_ack n id receipt ts']) (New log' env') =
      Some (Some err, w') ∧ Is err ErrMessageNotFound = true.
Proof.
  intros (recs & ls & Hal)%life_alive Hl [m Hm]. rewrite (al_log _ _ _ _ _ _ Hal _ Hl).
  destruct (alive_reloaded _ _ _ _ _ _ Hal) as (Hre & _).
  pose proof (wf_abs _ (st_wf _ _ _ (al_started _ _ _ _ _ _ Hal))) as HA.
  destruct (settled_bound ls) as (T & HT & Hset).
  pose proof (sim_history _ _ _ _ _ HA (sim_refl T _ HA) HT Hset (al_steps _ _ _ _ _ _ Hal)) as Hsim.
  destruct (si_fwd _ _ _ Hsim _ _ _ Hm) as (m' & Hm' & _).
  enough (wp (Load ((recs ++ records ls) ++ [rec_ack n id receipt ts; rec_ack n id receipt ts']))
            (λ err _, ∃ e, err = Some e ∧ Is e ErrMessageNotFound = true) (New log' env')) as Hwp.
  { destruct (wp_elim _ _ _ Hwp) as (err & w' & Hrun & e & -> & He). eauto. }
  apply wp_load_app. eapply wp_mono; [apply Hre|]. intros err w1 (-> & k1 & -> & Hk1 & Ha1).
  rewrite <-Ha1 in Hm'. set (w1 := with_core (New log' env') k1).
  destruct (holds_of_lookup w1 _ _ _ Hk1 Hm') as (q & p & m1 & Hho & _).
  cbn [load_from]. apply wp_bind. eapply wp_mono; [by eapply wp_apply_ack|].
  intros err w2 (-> & k2 & -> & Hk2 & Ha2). apply wp_bind.
  assert (a_lookup (abs k2) n id = None) as Hno by (rewrite Ha2, a_lookup_del; by rewrite decide_True).
  apply wp_apply_gone; [|done|done|by apply wp_ret; eauto].
  change (is_Some (as_queues (abs k2) !! n)). rewrite Ha2.
  apply as_queues_is_Some_del. by eapply a_lookup_is_Some.
Qed.

(** A sweep that writes nothing takes no message away. *)
Lemma sweep_silent n t A ls B :
  asteps A ls B → Forall (is_sweep n t) ls → records ls = [] →
  ∀ n' id, is_Some (a_lookup B n' id) → is_Some (a_lookup A n' id).
Proof.
  induction 1 as [|A l B ls C Hone _ IH]; [done|]. intros [Hl Hls]%Forall_cons Hr n' id Hc.
  change (records (l :: ls)) with (label_records l ++ records ls) in Hr. apply app_eq_nil in Hr as [Hr1 Hr2].
  specialize (IH Hls Hr2 _ _ Hc). destruct Hone; try done.
  rewrite a_lookup_put in IH by eauto using a_lookup_is_Some. case_decide as He; [|done].
  destruct He as [-> ->]. eauto.
Qed.

(** An acknowledgement that is accepted, and is all that is written. *)
Lemma Ack_writes n id receipt w w' l l' r :
  roomy w → Ack n id receipt w = Some (None, w') → w_log w = Some l → w_log w' = Some l' →
  committed l' = committed l ++ [r] →
  (∃ ts, r = rec_ack n id receipt ts) ∧ is_Some (a_lookup (abs (w_core w)) n id) ∧
  logged (w_log w) [r] (w_log w').
Proof.
  intros Hro Hrun Hl Hl' Hr.
  destruct (wp_use _ _ _ _ _ (wp_Ack n id receipt w Hro) Hrun) as (t & w1 & Hfs & Hck & Hev).
  destruct (first_sweep_inv _ _ _ _ Hfs) as (ls & Hev1 & Hok & _).
  pose proof (evolves_trans _ _ _ _ _ Hev1 Hev) as Hall. pose proof (ev_log _ _ _ Hall) as Hlog.
  rewrite records_app in Hlog. set (a := rec_ack n id receipt (ms (clock w1))).
  change (records [LAck n id receipt (clock w1)]) with [a] in Hlog.
  pose proof Hlog as Hcom. rewrite Hl, Hl' in Hcom. apply logged_committed in Hcom.
  rewrite Hr in Hcom. apply app_inv_head in Hcom.
  destruct (records ls) as [|r0 rs] eqn:Hrs; [|by destruct rs].
  injection Hcom as ->. split; [by exists (ms (clock w1))|]. split; [|done].
  apply lease_check_None in Hck as (m & d & Hm & _).
  eapply sweep_silent; [apply Hev1|exact Hok|done|]. eauto.
Qed.
End twice.

(** C37: a failure of fsync makes the log unreadable when the call is tried again.  The
    engine was started any number of times; an acknowledgement returns an error, but its
    record is in the file (the write went through, and then fsync failed); the machine
    works from then on.  If the acknowledgement is tried again and accepted, and nothing
    else was written, then the file has the record twice, on the disk for certain: it
    is what Open finds, and Load of it fails for a message that is not there.  The server
    does not start again on its log. *)
Theorem sync_failure_stops_replay c w0 cs w n id receipt ts e w1 rl1 safe dir w2 rl2 r :
  life c w0 cs w → roomy w → Ack n id receipt w = Some (Some e, w1) → w_log w1 = Some rl1 →
  raw_holds dir rl1 safe (rl_recs rl1 ++ [rec_ack n id receipt ts]) →
  roomy w1 → Ack n id receipt w1 = Some (None, w2) → w_log w2 = Some rl2 →
  rl_recs rl2 = rl_recs rl1 ++ [r] →
  Forall readable_record (rl_recs rl1 ++ [rec_ack n id receipt ts; r]) →
  recovers (rl_os rl2) dir (rl_recs rl1 ++ [rec_ack n id receipt ts; r])
    (rl_recs rl1 ++ [rec_ack n id receipt ts; r]) ∧
  ∀ log' env', ∃ err w', Load (rl_recs rl1 ++ [rec_ack n id receipt ts; r]) (New (L:=RawLog) log' env') =
      Some (Some err, w') ∧ Is err ErrMessageNotFound = true.
Proof.
  intros Hlife Hro Hrun Hl1 Hraw Hro1 Hrun1 Hl2 Hr Hread.
  assert (committed rl2 = committed rl1 ++ [r]) as Hc by exact Hr.
  destruct (Ack_writes _ _ _ _ _ _ _ _ Hro1 Hrun1 Hl1 Hl2 Hc) as ([ts' ->] & Hm & Hlog).
  split.
  - rewrite Hl1, Hl2 in Hlog. destruct Hlog as (ats & Hats & Hsucc).
    destruct (raw_attempts _ _ _ _ Hats _ _ Hraw) as (safe' & [Hp _ _ Hh] & Hsafe).
    rewrite Hsucc, <-app_assoc in Hh, Hsafe. rewrite Hsafe in Hh by by right.
    apply log_holds_disk in Hh. rewrite Hp in Hh. by eapply recovers_disk.
  - assert (life c w0 (cs ++ [CAck n id receipt]) w1) as Hlife1.
    { eapply life_extend; [exact Hlife| |by repeat constructor].
      eapply runs_cons; [done|apply Hro| |constructor]. simpl. unfold mbind, GoM_bind. by rewrite Hrun. }
    intros log' env'. exact (acked_twice _ _ _ _ rl1 _ _ _ _ _ _ _ Hlife1 Hl1 Hm).
Qed.

(** The machine of the demo, on which the fourth fsync fails: the one for the
    acknowledgement of the message that was sent and received before. *)
Definition sync_script : list answer := [Done; Done; Done; Fails 0].
Definition raw_start : world RawLog :=
  New (Some (mkRaw (set_syncs sync_script (opened_os true)) (opened_log true) [])) demo_env.

Definition raw_calls : list call :=
  [CCreateQueue "jobs" jobs_cfg; CSend "jobs" (text "one") 0; CReceive "jobs" 1 0].
Definition raw_received : world RawLog := from_option id raw_start (run_all raw_calls raw_start).
Definition raw_failed : world RawLog := exec (Ack "jobs" id1 receipt2) raw_received.
Definition raw_retried : world RawLog := exec (Ack "jobs" id1 receipt2) raw_failed.

Definition no_raw : RawLog := mkRaw machine no_log [].
Definition failed_raw : RawLog := from_option id no_raw (w_log raw_failed).
Definition retried_raw : RawLog := from_option id no_raw (w_log raw_retried).

Definition failed_record : WRecord := rec_ack "jobs" id1 receipt2 1700000004000.
Definition fsync_error : error := os_error "fsync".
Definition retried_record : WRecord := rec_ack "jobs" id1 receipt2 1700000006000.

Definition readableb (r : WRecord) : bool :=
  forallb utf8 [r_Op r; r_Queue r; r_ID r; r_Body r; r_BodyB64 r; r_Receipt r; r_To r] &&
  forallb int64 [r_TS r; r_NBF r; r_Deadline r; r_Count r] &&
  (bool_decide (r_Config r = []) || bool_decide (plain_json (r_Config r))) &&
  match Validate r with None => true | Some _ => false end.

Lemma readableb_ok r : readableb r = true → readable_record r.
Proof.
  unfold readableb. cbn [forallb]. rewrite !andb_true_iff, orb_true_iff, !bool_decide_eq_true.
  intros [[[Hu Hi] Hc] Hv]. split; [split; try apply Hu; try apply Hi; done|by destruct (Validate r)].
Qed.

Lemma raw_life : life false raw_start raw_calls raw_received.
Proof.
  apply (life_first false); [reflexivity| |].
  - unfold raw_received. apply ran_runs. vm_compute. reflexivity.
  - apply Forall_cons. split; [exact jobs_cfg_parsed|]. by repeat constructor.
Qed.

Lemma raw_roomy : roomy raw_received.
Proof. split; [exact (life_wf _ _ _ _ raw_life)|vm_compute; reflexivity]. Qed.

Lemma raw_failed_eq : Ack "jobs" id1 receipt2 raw_received = Some (Some fsync_error, raw_failed).
Proof. unfold raw_failed. apply value_exec. vm_compute. reflexivity. Qed.

Lemma raw_failed_log : w_log raw_failed = Some failed_raw.
Proof. vm_compute. reflexivity. Qed.

Lemma raw_failed_roomy : roomy raw_failed.
Proof.
  split; [|vm_compute; reflexivity].
  apply (life_wf false raw_start (raw_calls ++ [CAck "jobs" id1 receipt2])).
  eapply life_extend; [exact raw_life| |by repeat constructor].
  eapply runs_cons; [done|apply raw_roomy| |constructor]. simpl. unfold mbind, GoM_bind.
  by rewrite raw_failed_eq.
Qed.

(** The record is in the file although fsync has failed. *)
Lemma raw_failed_holds : raw_holds "data" failed_raw (rl_recs failed_raw) (rl_recs failed_raw ++ [failed_record]).
Proof.
  assert (o_answers (rl_os failed_raw) = []) as Ha by (vm_compute; reflexivity).
  assert (o_syncs (rl_os failed_raw) = []) as Hs by (vm_compute; reflexivity).
  split; [vm_compute; reflexivity..|unfold calm; rewrite Ha, Hs; split; [by intros n ?%elem_of_nil|constructor]|].
  exists 0%nat, [], 336%nat. rewrite app_nil_r. split; [vm_compute; reflexivity|].
  split; [vm_compute; reflexivity|]. split; [split; [|split]|].
  - exists 433%nat, false. split; [vm_compute; reflexivity|right; vm_compute; reflexivity].
  - vm_compute. reflexivity.
  - apply Nat.leb_le. vm_compute. reflexivity.
  - split; [apply not_elem_of_nil|]. split; [by intros _; split; [|vm_compute; reflexivity]|].
    split; [by apply prefix_app_r|apply Nat.leb_le; vm_compute; reflexivity].
Qed.

Lemma raw_retried_eq : Ack "jobs" id1 receipt2 raw_failed = Some (None, raw_retried).
Proof. unfold raw_retried. apply value_exec. vm_compute. reflexivity. Qed.

Lemma raw_retried_log : w_log raw_retried = Some retried_raw.
Proof. vm_compute. reflexivity. Qed.

Lemma raw_retried_recs : rl_recs retried_raw = rl_recs failed_raw ++ [retried_record].
Proof. vm_compute. reflexivity. Qed.

Lemma raw_readable : Forall readable_record (rl_recs failed_raw ++ [failed_record; retried_record]).
Proof.
  eapply Forall_impl; [|apply readableb_ok].
  apply (bool_decide_eq_true_1 _). vm_compute. reflexivity.
Qed.

Lemma sync_failure_stops_replay_witness :
  recovers (rl_os retried_raw) "data" (rl_recs failed_raw ++ [failed_record; retried_record])
    (rl_recs failed_raw ++ [failed_record; retried_record]) ∧
  ∀ log' env', ∃ err w', Load (rl_recs failed_raw ++ [failed_record; retried_record])
      (New (L:=RawLog) log' env') = Some (Some err, w') ∧ Is err ErrMessageNotFound = true.
Proof.
  exact (sync_failure_stops_replay _ _ _ _ _ _ _ _ _ _ _ _ _ _ _ _ raw_life raw_roomy raw_failed_eq
           raw_failed_log raw_failed_holds raw_failed_roomy raw_retried_eq raw_retried_log
           raw_retried_recs raw_readable).
Defined.

(** ** A batch that breaks off *)

Section breaks_off.
Context {L : Type} `{!Appender L} `{!LogLaws L} `{!ConfigJSON}.
Implicit Types w : world L.

(** What the waiting receivers can see is the same: no channel was closed or replaced. *)
Definition unannounced (k k' : core) : Prop :=
  k_chans k' = k_chans k ∧ ∀ n, q_wake <$> k_queues k' !! n = q_wake <$> k_queues k !! n.


Lemma unannounced_trans k1 k2 k3 : unannounced k1 k2 → unannounced k2 k3 → unannounced k1 k3.
Proof. intros [Hc1 Hw1] [Hc2 Hw2]. split; [congruence|]. intros n. by rewrite Hw2. Qed.











End breaks_off.



